(* ===== verification/_CoqProject ===== *)
-Q . S2P
Prelude.v
External.v
Json.v
Hash.v
Paths.v
Smt.v
SmtFacts.v
SmtProps.v
L1Smt.v
Merkle.v
Block.v
Sorting.v
Genesis.v
Config.v
Account.v
Queue.v
Store.v
StoreProps.v
WrappedSpl.v
Field.v
PoolState.v
PoolProcessor.v
Groth16.v
PoolService.v
Mempool.v
NodeBridge.v
Executor.v
NodeLedger.v
Node.v
NodeChain.v
Interleave.v
Settlement.v
EndToEnd.v
Recover.v
Batcher.v
L1Rpc.v
L1RpcProps.v
L1Transport.v
Entry.v
Tools.v
BatcherL1.v
L1Stack.v
RecoverProps.v
Deposits.v
History.v
RpcServer.v
ToolProps.v
RpcProps.v
Process.v
ProcessProps.v
BridgeProps.v
DepositFlow.v
