(* ===== verification/Prelude.v ===== *)
(** * Zul: a verification of the L2 sequencer and its bridge

    Zul is a Solana-style L2: one sequencer builds blocks of SVM transactions
    over a store with a Merkle-committed account state, runs a shielded pool and
    a bridge inside its blocks, settles batches of blocks to a program on an L1
    and serves the Solana JSON-RPC interface. This library models the Rust
    sources under [src/chain] and [src/programs] as executable functions and
    proves the properties that make them correct, component by component and
    then across components, up to the whole node process.

    ** The program's parts, and the files that model them

    - Hashes, trees and blocks: [Hash], [Paths], [Merkle], [Block] and [Sorting]
      (chain/zul-primitives), [Smt] with [SmtFacts] and [SmtProps] (the state tree of
      chain/zul-store/src/smt.rs, the withdrawals tree of
      chain/zul-node/src/withdraw_smt.rs), [L1Smt] (the settlement program's own copy
      of the tree, zul-settlement/src/smt.rs), [Genesis] and [Config].
    - The store: [Account], [Queue], [Store], [StoreProps] (chain/zul-store). A redb
      table is a finite map of encoded keys and values; a write transaction is a
      function on the record of tables.
    - The shielded pool: [Field], [PoolState], [PoolProcessor], [Groth16],
      [PoolService] (chain/zul-privacy).
    - Execution: [Executor] (chain/zul-executor).
    - The node: [Mempool], [NodeBridge], [NodeLedger], [Node], [NodeChain]
      (chain/zul-node/src/mempool.rs, bridge.rs, pool.rs, node.rs), [Interleave]
      (node.rs again, its submissions and production attempts cut where the code
      releases its locks), [WrappedSpl] (token layouts), [History] (the address
      index of a chain).
    - The RPC server: [Json], [RpcServer], [RpcProps] (chain/zul-rpc).
    - The L1 programs: [Settlement] (handlers of zul-settlement and zul-da-log) and
      [Entry] (from instruction bytes and accounts to the handlers).
    - The bridge: [Recover] (payloads, chunks, recovery checks), [Batcher] (batches
      and the settlement driver), [L1Rpc] and [L1RpcProps] (the RPC client),
      [L1Transport] (its JSON), [BatcherL1] and [L1Stack] (L1 clients over the
      programs), [Deposits] (the deposit watcher), [Tools] and [ToolProps] (the
      command-line tools), [RecoverProps] (disaster recovery), [EndToEnd] (node and
      settlement program together).
    - The process: [Process] and [ProcessProps] (chain/zul-node/src/main.rs, keys.rs,
      metrics.rs, and the threads of l1.rs and bridge.rs), [BridgeProps] (the process,
      the L1 programs and everyone else's transactions together), [DepositFlow]
      (deposits from L1 to their L2 accounts, and what a panic stops).
    - Shared: [Prelude] (this file) and [External] (third-party interfaces).

    How they interact: the process of [Process] boots a [Node] from files and then
    interleaves turns of the block producer ([try_produce_block]), the RPC servers
    ([RpcServer.call]), the deposit watcher ([Deposits.watch]) and the settlement
    driver ([driver_pass]). A produced block executes regular transactions on
    [Executor], pool transactions on [PoolService], deposits and withdrawals on
    [NodeLedger], and is committed to [Store]. The driver posts batches through the
    trait [L1Client], which the RPC client implements by sending the instructions
    of [L1Rpc] to the programs of [Settlement] through [Entry].

    ** How code becomes definitions

    A struct is a [Record], an enum an [Inductive] with its constructors, a
    function returning [Result] a function into [outcome] (a value, an error or a
    panic), a method on [&mut self] a function from the old state to the new one.
    Integers are [Z] with wrapping, saturating and checked operations written out
    where the source uses them; bytes are lists of [Byte.byte]; maps and sets are
    [gmap] and [gset]; the clock is an argument. In [Node] and everything built on it an
    operation of a thread (a request, a production attempt, a round of the watcher, a
    pass of the settlement driver) runs as a whole, and threads are interleaved at
    that grain; in the code an operation takes several locks one after the other.
    [Interleave] runs submission and production at the grain of those locks, shows
    that the whole operations are its serial schedules, what of the chain every
    schedule keeps, and the replay that one of them allows. The driver's pass is not
    cut: between its posts the producer may commit blocks before the pass reads the
    withdrawals root. The one lock that can be held during a panic is the tip's, in
    [try_produce_block]: the node records that it is poisoned, and reading the tip is
    then a panic.

    Code outside the repository is a type class with the documented facts the
    source relies on, and a concrete instance that shows they can hold: blake3,
    ed25519, bincode, the Solana transaction type, program addresses and sdk ids
    ([External], [WrappedSpl], [Executor]), Poseidon ([Field]), the curve checks and
    pairing of arkworks ([Groth16]), the SVM ([Executor]), zstd ([Recover]), base58
    and base64 ([Json]), sha256 and the RPC node ([L1Rpc], [L1Transport]), the L1
    runtime and token programs ([Settlement]), TOML, key and JSON files ([Process]).
    Between the components of the repository the traits are classes too:
    [ProofVerifier] and [NullifierSet], [L1Client] with the laws its users rely on,
    [DepositLedger].

    ** What the theorems show

    - The chain: under every schedule of the pieces of submissions and production
      attempts the store holds one verified, hash-linked chain; transactions of the
      executor are never replayed, and none is when no push comes late, while a late
      push replays a withdrawal ([Interleave]); a restart restores the node and
      production makes progress ([NodeChain], [StoreProps], [Block]).
    - The trees: updates refine the specification tree, produced proofs verify and
      a verified proof binds its leaf, up to a collision among hashed messages that
      the statement lists ([SmtProps], [StoreProps]).
    - Value: what execution, the pool, deposits and withdrawals do to the total of
      lamports, exactly, with what self-moves and accounts brought back within a block
      create as terms of their own; a deposit is credited once while its receipt stands
      ([Executor], [PoolService], [NodeLedger]), and a transaction that erases the
      receipt gets it credited again ([DepositFlow]).
    - The pool: the note tree refines the complete tree, nothing is spent twice,
      proofs have one encoding, and without keys the pool is closed ([PoolState],
      [PoolProcessor], [Groth16]).
    - The L1 programs: whatever bytes anyone sends, payouts are proven, made once
      and covered by deposits; what the client builds is the call it means; the
      program's verifier is the node's ([Settlement], [Entry], [L1Smt]).
    - The L1 client: through JSON it reads exactly what the node holds; over the
      programs and a faulty network it satisfies the laws the batcher relies on,
      and a user's call runs once or not at all ([L1Transport], [L1Stack]).
    - Across components: over the whole process, its client, the programs and
      whatever others send, L1 pays only withdrawals the process's own chain burned,
      each once, and the vault covers the rest ([EndToEnd], [BridgeProps]); the
      claim tool pays ([ToolProps]); the process settles exactly its own chain
      whatever the interleaving, faults and restarts ([Batcher], [ProcessProps]), and
      the recovery tool restores it when the log holds each chunk once
      ([RecoverProps]), and fails when it does not ([L1RpcProps]); the watcher reads every
      deposit event it is served ([Deposits]), and its next round and block credit
      the new native ones exactly once, while one token deposit can halt the chain
      for good ([DepositFlow]); requests keep the chain, history
      paging is complete ([RpcProps]); metrics tell the truth, follow the driver, and
      shutdown ends ([ProcessProps]).

    ** Bounds and fuel

    The level loop of the transactions tree has the number of leaves as fuel, which
    [reduce_total] proves enough; the pool's insertion and the sparse trees loop
    over their fixed depth; chunking has the length of its input. The scan of the
    data-availability log has a number of pages as fuel, and [log_scan_terminates]
    proves exactly how many it takes. Confirmation is the source's 45 attempts; the
    claim tool's wait is given what L1 looks like at each poll. Statements about a
    node below the last slot number say so; the driver's and
    the process's need an interval of at most 10000 slots, which is what one read of
    the store returns (beyond it the batcher skips blocks), and the process's also
    a chain shorter than 2^63 blocks, the range of a gauge.

    ** Not modelled, and why

    Curve arithmetic, the SVM's interpreter, cryptographic strength and the
    database engine are third-party. HTTP and WebSocket serving with their
    connection limits (the last part of chain/zul-rpc/src/server.rs), sockets,
    sleeping, thread creation and log lines do no computation on the program's
    state. Error texts are parameters or dropped where nothing reads them. A
    transaction posted to L1 takes effect during the call that sends it or never
    ([L1ClientLaws], and the network of [L1Stack]): one that lands after the client
    gave up waiting, and reads of the chain state that fail, are not modelled. An L1
    transaction with an instruction of another program counts as failed ([Entry]). The
    Circom circuits, the TypeScript indexer, explorer and SDK, and the tests are
    not Rust implementation code. *)

From Stdlib Require Export ZArith Lia.
From Stdlib Require Strings.Byte.
From stdpp Require Export base tactics option list list_numbers gmap fin_maps sets strings countable numbers.

#[global] Open Scope Z_scope.

(** The development's scope: outcome binds and fixed-width arithmetic. *)
Declare Scope zul_scope.
Delimit Scope zul_scope with zul.
#[global] Open Scope zul_scope.

(** ** Outcomes

    Rust functions that return [Result<T, E>] and may panic are functions into
    [outcome E T]: a value, an error, or a panic (index out of range, failed
    assertion, poisoned lock). *)
Inductive outcome (E A : Type) : Type :=
| Ok (a : A)
| Err (e : E)
| Panic.
Arguments Ok {E A} a.
Arguments Err {E A} e.
Arguments Panic {E A}.

Definition obind {E A B} (m : outcome E A) (k : A → outcome E B) : outcome E B :=
  match m with
  | Ok a => k a
  | Err e => Err e
  | Panic => Panic
  end.

Notation "'let?' x := m 'in' k" := (obind m (λ x, k))
  (at level 10, x pattern, k at level 200) : zul_scope.

Definition is_ok {E A} (m : outcome E A) : bool :=
  match m with Ok _ => true | _ => false end.

(** [opt.ok_or(e)?] *)
Definition ok_or {E A} (o : option A) (e : E) : outcome E A :=
  match o with Some a => Ok a | None => Err e end.

(** An operation that panics instead of returning [None]. *)
Definition or_panic {E A} (o : option A) : outcome E A :=
  match o with Some a => Ok a | None => Panic end.

Definition map_err {E F A} (f : E → F) (m : outcome E A) : outcome F A :=
  match m with Ok a => Ok a | Err e => Err (f e) | Panic => Panic end.

(** [res.ok()]: forget the error (a panic stays a panic, so this is only used
    on functions that cannot panic). *)
Definition ok_opt {E A} (m : outcome E A) : option A :=
  match m with Ok a => Some a | _ => None end.

Lemma obind_Ok {E A B} (m : outcome E A) (k : A → outcome E B) b :
  obind m k = Ok b ↔ ∃ a, m = Ok a ∧ k a = Ok b.
Proof. destruct m; simpl; naive_solver. Qed.

Lemma ok_or_Ok {E A} (o : option A) (e : E) a : ok_or o e = Ok a ↔ o = Some a.
Proof. destruct o; simpl; naive_solver. Qed.

Fixpoint ofold {E A B} (f : A → B → outcome E A) (a : A) (l : list B) : outcome E A :=
  match l with
  | [] => Ok a
  | b :: l => let? a' := f a b in ofold f a' l
  end.

Lemma ofold_app {E A B} (f : A → B → outcome E A) a l1 l2 :
  ofold f a (l1 ++ l2) = (let? a' := ofold f a l1 in ofold f a' l2).
Proof.
  revert a; induction l1 as [|b l1 IH]; intros a; simpl; [done|].
  destruct (f a b); simpl; auto.
Qed.

(** A fold whose steps all succeed succeeds. *)
Lemma ofold_total {E A B} (f : A → B → outcome E A) l :
  (∀ a b, b ∈ l → ∃ a', f a b = Ok a') → ∀ a, ∃ a', ofold f a l = Ok a'.
Proof.
  induction l as [|b l IH]; intros Hf a; [by eexists|]. destruct (Hf a b) as [a1 Ha]; [by left|].
  cbn [ofold]. rewrite Ha. cbn [obind]. apply IH. intros a2 b2 Hb. apply Hf. by right.
Qed.

(** ** Fixed-width unsigned integers, kept in [Z] *)

Definition u8_max : Z := 2 ^ 8 - 1.
Definition u32_max : Z := 2 ^ 32 - 1.
Definition u64_max : Z := 2 ^ 64 - 1.

Definition u32 (x : Z) : Prop := 0 ≤ x ≤ u32_max.
Definition u64 (x : Z) : Prop := 0 ≤ x ≤ u64_max.

(** [a.saturating_add(b)], [a.saturating_sub(b)], [a.saturating_mul(b)] on u64 *)
Definition sat_add (a b : Z) : Z := Z.min (a + b) u64_max.
Definition sat_sub (a b : Z) : Z := Z.max (a - b) 0.
Definition sat_mul (a b : Z) : Z := Z.min (a * b) u64_max.

(** [a.checked_add(b)], [a.checked_sub(b)] on u64 *)
Definition checked_add (a b : Z) : option Z :=
  if decide (a + b ≤ u64_max) then Some (a + b) else None.
Definition checked_sub (a b : Z) : option Z :=
  if decide (b ≤ a) then Some (a - b) else None.

(** [a + b] on u64 in a release build: wraps. *)
Definition wadd (a b : Z) : Z := (a + b) mod 2 ^ 64.

Lemma sat_add_exact a b : a + b ≤ u64_max → sat_add a b = a + b.
Proof. unfold sat_add. lia. Qed.

Lemma sat_sub_exact a b : b ≤ a → sat_sub a b = a - b.
Proof. unfold sat_sub. lia. Qed.

Lemma sat_add_u64 a b : u64 a → u64 b → u64 (sat_add a b).
Proof. unfold u64, sat_add, u64_max. lia. Qed.

Lemma sat_sub_u64 a b : u64 a → u64 b → u64 (sat_sub a b).
Proof. unfold u64, sat_sub, u64_max. lia. Qed.

Lemma wadd_exact a b : 0 ≤ a + b ≤ u64_max → wadd a b = a + b.
Proof. intros. unfold wadd. apply Z.mod_small. unfold u64_max in *. lia. Qed.

Lemma checked_add_Some a b c : checked_add a b = Some c ↔ c = a + b ∧ a + b ≤ u64_max.
Proof. unfold checked_add. case_decide; naive_solver. Qed.

Lemma checked_sub_Some a b c : checked_sub a b = Some c ↔ c = a - b ∧ b ≤ a.
Proof. unfold checked_sub. case_decide; naive_solver. Qed.

Create HintDb zul discriminated.
#[export] Hint Resolve sat_add_u64 sat_sub_u64 : zul.

(** ** Bytes *)

Abbreviation byte := Byte.byte.
Abbreviation bytes := (list byte).

Definition Z_of_byte (b : byte) : Z := Z.of_N (Byte.to_N b).
Definition byte_of_Z (z : Z) : byte :=
  default Byte.x00 (Byte.of_N (Z.to_N (z mod 256))).

Lemma Z_of_byte_range b : 0 ≤ Z_of_byte b < 256.
Proof.
  unfold Z_of_byte. pose proof (Byte.to_N_bounded b). lia.
Qed.

Lemma Z_of_byte_of_Z z : Z_of_byte (byte_of_Z z) = z mod 256.
Proof.
  unfold Z_of_byte, byte_of_Z.
  pose proof (Z.mod_pos_bound z 256 ltac:(lia)).
  destruct (Byte.of_N (Z.to_N (z mod 256))) as [b|] eqn:E; simpl.
  - apply Byte.to_of_N in E. rewrite E. lia.
  - apply Byte.of_N_None_iff in E. lia.
Qed.

Lemma byte_of_Z_of_byte b : byte_of_Z (Z_of_byte b) = b.
Proof.
  unfold Z_of_byte, byte_of_Z. pose proof (Byte.to_N_bounded b).
  rewrite Z.mod_small by lia. rewrite N2Z.id, Byte.of_to_N. done.
Qed.

Lemma Z_of_byte_inj a b : Z_of_byte a = Z_of_byte b → a = b.
Proof.
  intros H. rewrite <- (byte_of_Z_of_byte a), <- (byte_of_Z_of_byte b). by rewrite H.
Qed.

#[global] Instance byte_eq_dec : EqDecision byte := Byte.byte_eq_dec.
#[global] Instance byte_countable : Countable byte.
Proof.
  apply (inj_countable' Byte.to_N (λ n, default Byte.x00 (Byte.of_N n))).
  intros b. by rewrite Byte.of_to_N.
Defined.
#[global] Instance byte_inhabited : Inhabited byte := populate Byte.x00.

(** A string literal as bytes: [b"..."]. *)
Definition bstr (s : string) : bytes := String.list_byte_of_string s.
#[global] Arguments bstr : simpl never.

(** ** Little- and big-endian integers ([to_le_bytes], [from_le_bytes], ...) *)

Fixpoint le_bytes (n : nat) (z : Z) : bytes :=
  match n with
  | O => []
  | S n => byte_of_Z z :: le_bytes n (z / 256)
  end.

Fixpoint le_val (bs : bytes) : Z :=
  match bs with
  | [] => 0
  | b :: bs => Z_of_byte b + 256 * le_val bs
  end.

Definition be_bytes (n : nat) (z : Z) : bytes := rev (le_bytes n z).
Definition be_val (bs : bytes) : Z := le_val (rev bs).

Lemma length_le_bytes n z : length (le_bytes n z) = n.
Proof. revert z; induction n; simpl; auto. Qed.

Lemma length_be_bytes n z : length (be_bytes n z) = n.
Proof. unfold be_bytes. by rewrite length_rev, length_le_bytes. Qed.

Lemma le_val_nonneg bs : 0 ≤ le_val bs.
Proof. induction bs as [|b bs IH]; simpl; [lia|]. pose proof (Z_of_byte_range b). lia. Qed.

Lemma le_val_bound bs : le_val bs < 256 ^ Z.of_nat (length bs).
Proof.
  induction bs as [|b bs IH]; [simpl; lia|].
  pose proof (Z_of_byte_range b). simpl le_val. simpl length.
  rewrite Nat2Z.inj_succ, Z.pow_succ_r by lia. lia.
Qed.

Lemma le_val_le_bytes n z : le_val (le_bytes n z) = z mod 256 ^ Z.of_nat n.
Proof.
  revert z; induction n as [|n IH]; intros z; [simpl; by rewrite Z.mod_1_r|].
  simpl le_bytes. simpl le_val. rewrite Z_of_byte_of_Z, IH.
  rewrite Nat2Z.inj_succ, Z.pow_succ_r by lia.
  pose proof (Z.pow_pos_nonneg 256 (Z.of_nat n)).
  rewrite Z.rem_mul_r by lia. lia.
Qed.

Lemma le_val_le_bytes_small n z :
  0 ≤ z < 256 ^ Z.of_nat n → le_val (le_bytes n z) = z.
Proof. intros. rewrite le_val_le_bytes. by apply Z.mod_small. Qed.

Lemma le_bytes_le_val bs : le_bytes (length bs) (le_val bs) = bs.
Proof.
  induction bs as [|b bs IH]; simpl; [done|].
  pose proof (Z_of_byte_range b). f_equal.
  - apply Z_of_byte_inj. rewrite Z_of_byte_of_Z.
    replace (Z_of_byte b + 256 * le_val bs) with (Z_of_byte b + le_val bs * 256) by lia.
    rewrite Z.mod_add by lia. by apply Z.mod_small.
  - replace ((Z_of_byte b + 256 * le_val bs) / 256) with (le_val bs); [done|].
    replace (Z_of_byte b + 256 * le_val bs) with (Z_of_byte b + le_val bs * 256) by lia.
    rewrite Z.div_add by lia. rewrite Z.div_small by lia. lia.
Qed.

Lemma le_val_inj a b : length a = length b → le_val a = le_val b → a = b.
Proof.
  intros Hl Hv. rewrite <- (le_bytes_le_val a), <- (le_bytes_le_val b). by rewrite Hl, Hv.
Qed.

Lemma le_bytes_inj n x y :
  0 ≤ x < 256 ^ Z.of_nat n → 0 ≤ y < 256 ^ Z.of_nat n →
  le_bytes n x = le_bytes n y → x = y.
Proof.
  intros Hx Hy H. apply (f_equal le_val) in H.
  by rewrite !le_val_le_bytes_small in H.
Qed.

Lemma u64_pow x : u64 x → 0 ≤ x < 256 ^ Z.of_nat 8.
Proof. unfold u64, u64_max. simpl. lia. Qed.

Lemma u32_pow x : u32 x → 0 ≤ x < 256 ^ Z.of_nat 4.
Proof. unfold u32, u32_max. simpl. lia. Qed.

Lemma le_val_u64 bs : length bs = 8%nat → u64 (le_val bs).
Proof.
  intros H. pose proof (le_val_bound bs). pose proof (le_val_nonneg bs).
  rewrite H in *. unfold u64, u64_max. simpl in *. lia.
Qed.

Lemma le64_inj x y : u64 x → u64 y → le_bytes 8 x = le_bytes 8 y → x = y.
Proof. intros. eapply le_bytes_inj; eauto using u64_pow. Qed.

Lemma le64_roundtrip x : u64 x → le_val (le_bytes 8 x) = x.
Proof. intros. apply le_val_le_bytes_small. by apply u64_pow. Qed.

Lemma le32_roundtrip x : u32 x → le_val (le_bytes 4 x) = x.
Proof. intros. apply le_val_le_bytes_small. by apply u32_pow. Qed.

#[export] Hint Resolve u64_pow u32_pow le_val_u64 : zul.
Create Rewrite HintDb zul_len.
#[export] Hint Rewrite length_le_bytes length_be_bytes @length_app : zul_len.

(** ** Slices *)

(** [&l[a..b]] for [a <= b <= l.len()] *)
Definition slice {A} (a b : nat) (l : list A) : list A := take (b - a) (drop a l).

(** [l.get(a..b)] *)
Definition get_range {A} (a b : nat) (l : list A) : option (list A) :=
  if decide (b ≤ length l)%nat then Some (slice a b l) else None.

(** [l[off .. off + src.len()].copy_from_slice(src)]; [None] when the range is
    out of bounds, where Rust panics. *)
Definition copy_at {A} (off : nat) (src l : list A) : option (list A) :=
  if decide (off + length src ≤ length l)%nat
  then Some (take off l ++ src ++ drop (off + length src) l)
  else None.

Lemma list_filter_all {A} (P : A → Prop) `{∀ x, Decision (P x)} (l : list A) : (∀ x, x ∈ l → P x) → filter P l = l.
Proof.
  induction l as [|x l IH]; intros Hl; [done|]. rewrite filter_cons, decide_True by (apply Hl; by left).
  f_equal. apply IH. intros y Hy. apply Hl. by right.
Qed.

Lemma list_filter_none {A} (P : A → Prop) `{∀ x, Decision (P x)} (l : list A) : (∀ x, x ∈ l → ¬ P x) → filter P l = [].
Proof.
  induction l as [|x l IH]; intros Hl; [done|]. rewrite filter_cons, decide_False by (apply Hl; by left).
  apply IH. intros y Hy. apply Hl. by right.
Qed.

Lemma length_slice {A} a b (l : list A) :
  (a ≤ b)%nat → (b ≤ length l)%nat → length (slice a b l) = (b - a)%nat.
Proof. intros. unfold slice. rewrite length_take, length_drop. lia. Qed.

Lemma copy_at_length {A} off (src l l' : list A) :
  copy_at off src l = Some l' → length l' = length l.
Proof.
  unfold copy_at. case_decide; intros; simplify_eq.
  rewrite !length_app, length_take, length_drop. lia.
Qed.

Lemma slice_app_l {A} a b (l1 l2 : list A) :
  (b ≤ length l1)%nat → slice a b (l1 ++ l2) = slice a b l1.
Proof.
  intros Hb. unfold slice. destruct (decide (a ≤ length l1)%nat).
  - rewrite drop_app_le by done. rewrite take_app_le; [done|]. rewrite length_drop. lia.
  - replace (b - a)%nat with 0%nat by lia. by rewrite !take_0.
Qed.

Lemma slice_app_r {A} a b (l1 l2 : list A) :
  (length l1 ≤ a)%nat → slice a b (l1 ++ l2) = slice (a - length l1) (b - length l1) l2.
Proof.
  intros Ha. unfold slice. rewrite drop_app_ge by done. f_equal. lia.
Qed.

Lemma slice_full {A} (l : list A) n : length l = n → slice 0 n l = l.
Proof. intros <-. unfold slice. rewrite drop_0, Nat.sub_0_r. apply take_ge. lia. Qed.

Lemma slice_all {A} a b (l : list A) : a = 0%nat → b = length l → slice a b l = l.
Proof. intros -> ->. by apply slice_full. Qed.

(** A slice of a concatenation that is one of its parts; [t] computes lengths. *)
Ltac pick_field_with t :=
  repeat (rewrite slice_app_r by t);
  first [rewrite slice_app_l by t | idtac];
  apply slice_all; t.

Lemma slice_lookup {A} a b (l : list A) i :
  (i < b - a)%nat → slice a b l !! i = l !! (a + i)%nat.
Proof. intros. unfold slice. rewrite lookup_take_lt by done. by rewrite lookup_drop. Qed.

Lemma slice_ext {A} a b (l1 l2 : list A) :
  (∀ i, (a ≤ i < b)%nat → l1 !! i = l2 !! i) → slice a b l1 = slice a b l2.
Proof.
  intros H. apply list_eq. intros i.
  destruct (decide (i < b - a)%nat).
  - rewrite !slice_lookup by done. apply H. lia.
  - rewrite !lookup_ge_None_2; [done| |]; unfold slice; rewrite length_take; lia.
Qed.

Lemma copy_at_lookup_ne {A} off (src l l' : list A) i :
  copy_at off src l = Some l' → (i < off ∨ off + length src ≤ i)%nat → l' !! i = l !! i.
Proof.
  unfold copy_at. case_decide as Hle; intros ? Hi; simplify_eq.
  assert (Hoff : length (take off l) = off) by (rewrite length_take; lia).
  destruct Hi.
  - rewrite lookup_app_l by lia. by rewrite lookup_take_lt by lia.
  - rewrite lookup_app_r by lia. rewrite lookup_app_r by lia.
    rewrite lookup_drop. f_equal. lia.
Qed.

Lemma copy_at_slice_eq {A} off (src l l' : list A) :
  copy_at off src l = Some l' → slice off (off + length src) l' = src.
Proof.
  unfold copy_at. case_decide as Hle; intros ?; simplify_eq.
  assert (Hoff : length (take off l) = off) by (rewrite length_take; lia).
  rewrite slice_app_r by lia. rewrite Hoff.
  rewrite slice_app_l by lia. rewrite Nat.sub_diag. apply slice_full. lia.
Qed.

Lemma copy_at_slice_ne {A} off (src l l' : list A) a b :
  copy_at off src l = Some l' → (b ≤ off ∨ off + length src ≤ a)%nat →
  slice a b l' = slice a b l.
Proof. intros Hc Hab. apply slice_ext. intros. eapply copy_at_lookup_ne; eauto; lia. Qed.

Lemma app_inj_len {A} (a b c d : list A) :
  length a = length c → a ++ b = c ++ d → a = c ∧ b = d.
Proof. intros Hl H. by apply app_inj_1. Qed.

Lemma list_filter_iff_elem {A} (p q : A → bool) (l : list A) :
  (∀ x, x ∈ l → p x = q x) → filter (λ x, p x = true) l = filter (λ x, q x = true) l.
Proof.
  induction l as [|x l IH]; intros H; [done|]. rewrite !filter_cons, IH by (intros; apply H; by right).
  by rewrite (H x) by left.
Qed.

(** ** Chunks ([slice::chunks(n)] for [n > 0]) *)

Fixpoint chunks_fuel {A} (fuel n : nat) (l : list A) : list (list A) :=
  match fuel with
  | O => []
  | S fuel =>
      match l with
      | [] => []
      | _ => take n l :: chunks_fuel fuel n (drop n l)
      end
  end.

(** A chunk is non-empty, so [length l] steps of fuel always suffice. *)
Definition chunks {A} (n : nat) (l : list A) : list (list A) := chunks_fuel (length l) n l.

Lemma chunks_fuel_concat {A} fuel n (l : list A) :
  (0 < n)%nat → (length l ≤ fuel)%nat → concat (chunks_fuel fuel n l) = l.
Proof.
  intros Hn. revert l; induction fuel as [|fuel IH]; intros l Hl.
  - destruct l; simpl in *; [done|lia].
  - simpl. destruct l as [|x l]; [done|].
    rewrite concat_cons, IH; [apply take_drop|].
    rewrite length_drop. simpl in *. lia.
Qed.

Lemma chunks_concat {A} n (l : list A) : (0 < n)%nat → concat (chunks n l) = l.
Proof. intros. by apply chunks_fuel_concat. Qed.

Lemma chunks_bound {A} n (l : list A) c :
  (0 < n)%nat → c ∈ chunks n l → (0 < length c ≤ n)%nat.
Proof.
  intros Hn. unfold chunks. generalize (length l) as fuel. intros fuel.
  revert l; induction fuel as [|fuel IH]; intros l; simpl.
  - by intros ?%not_elem_of_nil.
  - destruct l as [|x l]; [by intros ?%not_elem_of_nil|].
    intros [->|H]%elem_of_cons; [|eauto].
    rewrite length_take. simpl. lia.
Qed.

(** ** Sums over a list of keys *)

Definition total {K : Type} (keys : list K) (f : K → Z) : Z := foldr (λ k acc, f k + acc) 0 keys.

Lemma total_ext {K} (keys : list K) f g : (∀ k, k ∈ keys → f k = g k) → total keys f = total keys g.
Proof.
  induction keys as [|k keys IH]; intros H; [done|]. simpl. rewrite H by set_solver.
  f_equal. apply IH. set_solver.
Qed.

Lemma total_add {K} (keys : list K) f g : total keys (λ k, f k + g k) = total keys f + total keys g.
Proof. induction keys as [|k keys IH]; simpl; [done|]. rewrite IH. lia. Qed.

Lemma total_point `{EqDecision K} (keys : list K) k0 d :
  NoDup keys → k0 ∈ keys → total keys (λ k, if decide (k = k0) then d else 0) = d.
Proof.
  induction keys as [|k keys IH]; intros Hnd Hin; [set_solver|].
  apply list.NoDup_cons in Hnd as [Hni Hnd]. simpl.
  destruct (decide (k = k0)) as [->|Hne].
  - rewrite (total_ext _ _ (λ _, 0)); [|intros k Hk; by rewrite decide_False by set_solver].
    clear. assert (total keys (λ _, 0) = 0) as ->; [|lia]. induction keys; simpl; lia.
  - rewrite IH; [lia|done|set_solver].
Qed.

Lemma total_zero {K} (keys : list K) : total keys (λ _, 0) = 0.
Proof. unfold total. induction keys as [|k keys IH]; cbn [foldr]; lia. Qed.

Lemma total_nonneg {K} (keys : list K) f : (∀ k, k ∈ keys → 0 ≤ f k) → 0 ≤ total keys f.
Proof.
  unfold total. induction keys as [|k keys IH]; intros Hf; cbn [foldr]; [lia|].
  pose proof (Hf k ltac:(left)). specialize (IH ltac:(intros; apply Hf; by right)). lia.
Qed.

Lemma total_bound {K} (keys : list K) f k :
  (∀ k, k ∈ keys → 0 ≤ f k) → k ∈ keys → f k ≤ total keys f.
Proof.
  induction keys as [|k' keys IH]; intros Hf Hin; [set_solver|]. cbn [total foldr].
  pose proof (total_nonneg keys f ltac:(intros; apply Hf; by right)) as Hn.
  pose proof (Hf k' ltac:(left)) as H0. unfold total in *. apply elem_of_cons in Hin as [->|Hin]; [lia|].
  specialize (IH ltac:(intros; apply Hf; by right) Hin). lia.
Qed.

(** ** Maps filled from a list of entries *)

(** [for (k, v) in l { m.insert(k, f(v)) }] *)
Definition insert_entries `{Countable K} {A B} (f : A → B) (l : list (K * A)) (m : gmap K B) : gmap K B :=
  fold_left (λ m kv, <[kv.1 := f kv.2]> m) l m.

Lemma insert_entries_lookup `{Countable K} {A B} (f : A → B) (l : list (K * A)) (m : gmap K B) k :
  NoDup l.*1 →
  insert_entries f l m !! k
  = match (list_to_map l : gmap K A) !! k with Some v => Some (f v) | None => m !! k end.
Proof.
  unfold insert_entries. revert m. induction l as [|[k' v] l IH]; intros m Hnd; [by cbn|].
  cbn [fmap list_fmap fst] in Hnd. apply list.NoDup_cons in Hnd as [Hni Hnd].
  cbn [fold_left list_to_map foldr curry fst snd]. rewrite IH by done.
  destruct (decide (k = k')) as [->|Hne].
  - rewrite not_elem_of_list_to_map_1 by done. cbn. by rewrite !lookup_insert_eq.
  - cbn. by rewrite !lookup_insert_ne by congruence.
Qed.

Lemma insert_entries_app `{Countable K} {A B} (f : A → B) (l l' : list (K * A)) (m : gmap K B) :
  insert_entries f (l ++ l') m = insert_entries f l' (insert_entries f l m).
Proof. apply fold_left_app. Qed.

Lemma insert_entries_other `{Countable K} {A B} (f : A → B) (l : list (K * A)) (m : gmap K B) k :
  k ∉ l.*1 → insert_entries f l m !! k = m !! k.
Proof.
  unfold insert_entries. revert m. induction l as [|[k' v] l IH]; intros m Hk; [done|].
  cbn [fmap list_fmap fst] in Hk. apply not_elem_of_cons in Hk as [Hne Hk]. cbn [fold_left fst snd].
  rewrite IH by done. by apply lookup_insert_ne.
Qed.

Lemma insert_entries_map `{Countable K} {A B} (f : A → B) (x : gmap K A) (m : gmap K B) k :
  insert_entries f (map_to_list x) m !! k
  = match x !! k with Some v => Some (f v) | None => m !! k end.
Proof.
  rewrite insert_entries_lookup by apply NoDup_fst_map_to_list. by rewrite list_to_map_to_list.
Qed.

(** ** Tactics *)

(** Case analysis on the scrutinees of a hypothesis that states a successful
    outcome, discarding the branches that fail. *)
Ltac inv_ok H :=
  repeat (simpl in H;
    match type of H with
    | obind _ _ = Ok _ =>
        let a := fresh "a" in let Ha := fresh "Ha" in
        apply obind_Ok in H; destruct H as (a & Ha & H)
    | (match ?x with _ => _ end) = Ok _ =>
        let E := fresh "E" in destruct x eqn:E; try discriminate H
    | Ok _ = Ok _ => injection H as H; try subst
    end).

Ltac zul_auto := eauto with zul; try lia.
