(* ===== verification/External.v ===== *)
(** * Interfaces of the code the repository only calls

    Third-party code (blake3, bincode, the Solana transaction types) enters the
    development as type classes: the operations the source calls and the
    documented facts it relies on. The instances at the end are small concrete
    implementations; they show that each interface can be met and let the
    witnesses run. *)

From S2P Require Import Prelude.

(** ** blake3 *)

(** [blake3::Hasher]: one [update] per segment followed by [finalize] is the
    hash of the concatenated segments, and the digest has 32 bytes. *)
Class Blake3 := {
  blake3 : bytes → bytes;
  blake3_length : ∀ m, length (blake3 m) = 32%nat;
}.

(** Two different messages, both in the list [ms] of messages that were
    actually hashed, with one digest. *)
Definition collision_in `{Blake3} (ms : list bytes) : Prop :=
  ∃ x y, x ∈ ms ∧ y ∈ ms ∧ x ≠ y ∧ blake3 x = blake3 y.

Lemma collision_in_mono `{Blake3} ms ms' :
  (∀ x, x ∈ ms → x ∈ ms') → collision_in ms → collision_in ms'.
Proof. intros Hs (x & y & ? & ? & ? & ?). exists x, y. eauto 10. Qed.

Lemma blake3_eq `{Blake3} x y : blake3 x = blake3 y → x = y ∨ collision_in [x; y].
Proof.
  intros Hxy. destruct (decide (x = y)) as [|Hne]; [by left|right].
  exists x, y. set_solver.
Qed.

(** ** bincode *)

(** [bincode::serialize] / [bincode::deserialize] at a serde type. *)
Class Bincode (A : Type) := {
  serialize : A → bytes;
  deserialize : bytes → option A;
  deserialize_serialize : ∀ a, deserialize (serialize a) = Some a;
}.

Lemma serialize_inj `{Bincode A} (x y : A) : serialize x = serialize y → x = y.
Proof.
  intros Hxy. apply (f_equal deserialize) in Hxy. rewrite !deserialize_serialize in Hxy.
  congruence.
Qed.

(** ** Solana transactions *)

(** A compiled instruction of a message: its public fields. *)
Record CompiledInstruction := {
  program_id_index : Z;
  ix_accounts : bytes;
  ix_data : bytes;
}.

(** [VersionedTransaction]: the accessors the source calls. *)
Class SolanaTx := {
  VersionedTransaction : Type;
  signatures : VersionedTransaction → list bytes;
  static_account_keys : VersionedTransaction → list bytes;
  instructions : VersionedTransaction → list CompiledInstruction;
  recent_blockhash : VersionedTransaction → bytes;
  verify_and_hash_message : VersionedTransaction → option bytes;
}.

(** [TransactionError]: the variants the source names, and the rest by code. *)
Inductive TransactionError :=
| AlreadyProcessed
| BlockhashNotFound
| SignatureFailure
| InstructionErrorCustom (index code : Z)
| OtherTransactionError (code : Z).

#[global] Instance TransactionError_eq_dec : EqDecision TransactionError.
Proof. solve_decision. Defined.
#[global] Instance TransactionError_countable : Countable TransactionError.
Proof.
  refine (inj_countable' (λ e, match e with
      | AlreadyProcessed => inl 0 | BlockhashNotFound => inl 1 | SignatureFailure => inl 2
      | OtherTransactionError c => inr (inl c) | InstructionErrorCustom i c => inr (inr (i, c)) end)
    (λ x, match x with
      | inl z => if decide (z = 0) then AlreadyProcessed
                 else if decide (z = 1) then BlockhashNotFound else SignatureFailure
      | inr (inl c) => OtherTransactionError c | inr (inr (i, c)) => InstructionErrorCustom i c end) _).
  by intros [].
Defined.

(** ** Ed25519 signatures *)

(** [Keypair::sign_message], [Keypair::pubkey] and [Signature::verify]: a
    signature made by a key verifies under that key. *)
Class Ed25519 := {
  Keypair : Type;
  pubkey_of : Keypair → bytes;
  sign_message : Keypair → bytes → bytes;
  sig_verify : bytes → bytes → bytes → bool;
  sig_verify_sign : ∀ kp m, sig_verify (sign_message kp m) (pubkey_of kp) m = true;
}.

(** [solana_sdk::system_program::id()]: the all-zero key. *)
Definition system_program_id : bytes := replicate 32 Byte.x00.

(** ** Concrete instances *)

Module Toy.

(** A polynomial hash on 64 bits, spread over 32 bytes. *)
Definition digest (m : bytes) : bytes :=
  le_bytes 32
    (0x9e3779b97f4a7c15f39cc0605cedc8341082276bf3a27251
     * fold_left (λ h b, Z.land (h * 65599 + Z_of_byte b + 7) 0xffffffffffffffff) m 5381).

Definition blake3_toy : Blake3.
Proof. refine {| blake3 := digest |}. intros. apply length_le_bytes. Defined.

Fixpoint pos_bytes (p : positive) : bytes :=
  match p with
  | xH => [Byte.x02]
  | xO p => Byte.x00 :: pos_bytes p
  | xI p => Byte.x01 :: pos_bytes p
  end.

Fixpoint bytes_pos (bs : bytes) : option positive :=
  match bs with
  | Byte.x02 :: _ => Some xH
  | Byte.x00 :: bs => xO <$> bytes_pos bs
  | Byte.x01 :: bs => xI <$> bytes_pos bs
  | _ => None
  end.

Lemma bytes_pos_bytes p : bytes_pos (pos_bytes p) = Some p.
Proof. induction p as [p IH|p IH|]; simpl; try rewrite IH; done. Qed.

(** Any countable type has a bincode-like codec. *)
Definition bincode_toy (A : Type) `{Countable A} : Bincode A.
Proof.
  refine {| serialize a := pos_bytes (encode a);
            deserialize bs := p ← bytes_pos bs; decode p |}.
  intros a. simpl. rewrite bytes_pos_bytes. simpl. apply decode_encode.
Defined.

Record tx := {
  t_signatures : list bytes;
  t_keys : list bytes;
  t_instructions : list CompiledInstruction;
  t_blockhash : bytes;
  t_valid : bool;
}.

Definition solana_toy : SolanaTx := {|
  VersionedTransaction := tx;
  signatures := t_signatures;
  static_account_keys := t_keys;
  instructions := t_instructions;
  recent_blockhash := t_blockhash;
  verify_and_hash_message t := if t_valid t then Some (t_blockhash t) else None;
|}.

(** A keyed tag in place of a signature. *)
Definition ed25519_toy : Ed25519.
Proof.
  refine {| Keypair := bytes; pubkey_of kp := kp;
            sign_message kp m := take 64 (kp ++ m);
            sig_verify s pk m := bool_decide (s = take 64 (pk ++ m)) |}.
  intros. by apply bool_decide_eq_true.
Defined.

#[global] Instance ix_eq_dec : EqDecision CompiledInstruction.
Proof. solve_decision. Defined.
#[global] Instance ix_countable : Countable CompiledInstruction.
Proof.
  refine (inj_countable' (λ i, (program_id_index i, ix_accounts i, ix_data i))
            (λ '(p, a, d), Build_CompiledInstruction p a d) _).
  by intros [].
Defined.
#[global] Instance tx_eq_dec : EqDecision tx.
Proof. solve_decision. Defined.
#[global] Instance tx_countable : Countable tx.
Proof.
  refine (inj_countable' (λ t, (t_signatures t, t_keys t, t_instructions t, t_blockhash t, t_valid t))
            (λ '(a, b, c, d, e), Build_tx a b c d e) _).
  by intros [].
Defined.

End Toy.
