(* ===== verification/Json.v ===== *)
(** * Texts and JSON values

    The parts of serde_json, base64 and bs58 the sources use: JSON values with
    their accessors, and the two text codecs as an interface whose law is the
    round trip. A JSON object holds each key once; a number is an integer or a
    float, and only integers in the range of [u64] are read as such. *)

From S2P Require Import Prelude External.

Class TextCodecs := {
  b64_encode : bytes → bytes;
  b64_decode : bytes → option bytes;
  b58_encode : bytes → bytes;
  b58_decode : bytes → option bytes;
  b64_roundtrip : ∀ b, b64_decode (b64_encode b) = Some b;
  b58_roundtrip : ∀ b, b58_decode (b58_encode b) = Some b;
  (** a byte takes more than one base58 digit, a leading zero exactly one *)
  b58_length : ∀ b, (length b ≤ length (b58_encode b))%nat;
}.

Inductive Value :=
| JNull
| JBool (b : bool)
| JNum (n : Z)
| JFloat
| JStr (s : bytes)
| JArr (l : list Value)
| JObj (fields : list (string * Value)).

Definition as_str (v : Value) : option bytes := match v with JStr s => Some s | _ => None end.
Definition as_u64 (v : Value) : option Z :=
  match v with JNum n => if decide (0 ≤ n ≤ u64_max) then Some n else None | _ => None end.
Definition as_array (v : Value) : option (list Value) := match v with JArr l => Some l | _ => None end.
Definition is_null (v : Value) : bool := match v with JNull => true | _ => false end.

Fixpoint find_field (key : string) (fields : list (string * Value)) : option Value :=
  match fields with
  | [] => None
  | f :: fields => if decide (f.1 = key) then Some f.2 else find_field key fields
  end.

(** [Value::get] with a string: [None] on anything but an object. *)
Definition get_field (key : string) (v : Value) : option Value :=
  match v with JObj fields => find_field key fields | _ => None end.

(** [value[key]]: [Null] where there is nothing. *)
Definition at_field (key : string) (v : Value) : Value := default JNull (get_field key v).

(** [json!(option)] *)
Definition json_opt (v : option Value) : Value := default JNull v.

(** [str::parse::<u64>]: an optional plus sign and at least one digit, in range. *)
Definition digit (b : byte) : option Z :=
  let z := Z_of_byte b in if decide (48 ≤ z ≤ 57) then Some (z - 48) else None.

Fixpoint parse_digits (acc : Z) (s : bytes) : option Z :=
  match s with
  | [] => Some acc
  | b :: s =>
      d ← digit b;
      let acc := acc * 10 + d in
      if decide (acc ≤ u64_max) then parse_digits acc s else None
  end.

Definition parse_u64 (s : bytes) : option Z :=
  let s := match s with b :: t => if decide (b = Byte.x2b) then t else s | [] => s end in
  match s with [] => None | _ => parse_digits 0 s end.

Section Texts.
Context `{T : TextCodecs}.

(** [Pubkey::from_str], [Signature::from_str] and other fixed-size base58 texts. *)
Definition b58_fixed (n : nat) (s : bytes) : option bytes :=
  b ← b58_decode s; if decide (length b = n) then Some b else None.

Lemma b58_fixed_encode n b : length b = n → b58_fixed n (b58_encode b) = Some b.
Proof. intros Hb. unfold b58_fixed. rewrite b58_roundtrip. cbn. by rewrite decide_True. Qed.
End Texts.
