(* ===== verification/Hash.v ===== *)
(** * Hashing helpers and chain constants

    Models [chain/zul-primitives/src/hash.rs] and [constants.rs]. *)

From S2P Require Import Prelude External.

(** ** Constants *)

Definition NATIVE_DECIMALS : Z := 9.
Definition LAMPORTS_PER_ZUL : Z := 1000000000.
Definition DEFAULT_SLOT_DURATION_MS : Z := 500.
Definition BLOCKHASH_QUEUE_CAPACITY : nat := 150.
Definition LAMPORTS_PER_SIGNATURE : Z := 5000.

(** ** Hashes *)

(** [H256 = [u8; 32]] and [Pubkey] are byte lists; their length is stated where
    it matters. *)
Abbreviation H256 := bytes.
Abbreviation Pubkey := bytes.
Abbreviation Signature := bytes.

Definition ZERO_HASH : H256 := replicate 32 Byte.x00.

Section Hash.
Context `{B3 : Blake3}.

Definition blake3_32 (domain data : bytes) : H256 := blake3 (domain ++ data).

Definition blake3_concat (domain : bytes) (segments : list bytes) : H256 :=
  blake3 (domain ++ concat segments).

Lemma blake3_32_length d m : length (blake3_32 d m) = 32%nat.
Proof. apply blake3_length. Qed.

Lemma blake3_concat_length d ms : length (blake3_concat d ms) = 32%nat.
Proof. apply blake3_length. Qed.

(** Hashing segments is hashing their concatenation. *)
Lemma blake3_concat_32 d ms : blake3_concat d ms = blake3_32 d (concat ms).
Proof. done. Qed.

End Hash.

#[export] Hint Rewrite @blake3_32_length @blake3_concat_length @blake3_length : zul_len.
