(* ===== verification/Paths.v ===== *)
(** * Bit paths and storage keys of the sparse Merkle trees

    Models [path_bit], [flip_bit] and [node_key] of
    [chain/zul-store/src/smt.rs] (the withdrawals tree of
    [chain/zul-node/src/withdraw_smt.rs] and the settlement program's [smt.rs]
    carry copies of the first two). The theorems turn byte-level paths into bit
    prefixes: a storage key is exactly a depth and that many leading bits. *)

From S2P Require Import Prelude External Hash.

Abbreviation NodeKey := bytes.

Definition path_bit (path : bytes) (bit : nat) : bool :=
  Z.eqb (Z.land (Z.shiftr (Z_of_byte (path !!! (bit / 8)%nat)) (7 - Z.of_nat (bit mod 8))) 1) 1.

(** Callers keep [bit] below [8 * length path]; beyond it the source panics. *)
Definition flip_bit (path : bytes) (bit : nat) : bytes :=
  let b := path !!! (bit / 8)%nat in
  <[(bit / 8)%nat :=
      byte_of_Z (Z.lxor (Z_of_byte b) (Z.shiftl 1 (7 - Z.of_nat (bit mod 8))))]> path.

(** [bitmap[i / 8] |= 1 << (7 - (i % 8))] *)
Definition set_bit (bitmap : bytes) (i : nat) : bytes :=
  let b := bitmap !!! (i / 8)%nat in
  <[(i / 8)%nat :=
      byte_of_Z (Z.lor (Z_of_byte b) (Z.shiftl 1 (7 - Z.of_nat (i mod 8))))]> bitmap.

(** [0xffu8 << (8 - rem)] *)
Definition high_mask (rem : nat) : Z := Z.shiftl 255 (8 - Z.of_nat rem) mod 256.

Definition node_key (depth : nat) (path : H256) : NodeKey :=
  let full := (depth / 8)%nat in
  let key := be_bytes 2 (Z.of_nat depth) ++ take full path ++ replicate (32 - full) Byte.x00 in
  let rem := (depth mod 8)%nat in
  if decide (0 < rem)%nat
  then <[(2 + full)%nat :=
           byte_of_Z (Z.land (Z_of_byte (path !!! full)) (high_mask rem))]> key
  else key.

(** The first [d] bits of a path. *)
Definition prefix_bits (d : nat) (path : bytes) : list bool := map (path_bit path) (seq 0 d).

(** ** Bits of bytes *)

Lemma div8_mod8 i : i = (8 * (i / 8) + i mod 8)%nat ∧ (i mod 8 < 8)%nat.
Proof. split; [apply Nat.div_mod_eq|]. apply Nat.mod_upper_bound. lia. Qed.

Lemma path_bit_testbit path bit :
  path_bit path bit = Z.testbit (Z_of_byte (path !!! (bit / 8)%nat)) (7 - Z.of_nat (bit mod 8)).
Proof.
  unfold path_bit. set (z := Z_of_byte _). set (n := 7 - _).
  change 1 with (Z.ones 1) at 1. rewrite Z.land_ones by lia. change (2 ^ 1) with 2.
  assert (0 ≤ n) by (unfold n; pose proof (div8_mod8 bit); lia).
  rewrite <- Z.bit0_mod, Z.shiftr_spec, Z.add_0_l by lia.
  by destruct (Z.testbit z n).
Qed.

Lemma byte_bit_high b n : 8 ≤ n → Z.testbit (Z_of_byte b) n = false.
Proof.
  intros. pose proof (Z_of_byte_range b).
  rewrite <- (Z.mod_small (Z_of_byte b) (2 ^ 8)) by lia.
  apply Z.mod_pow2_bits_high; lia.
Qed.

Lemma byte_of_Z_bit z n : 0 ≤ n < 8 → Z.testbit (Z_of_byte (byte_of_Z z)) n = Z.testbit z n.
Proof.
  intros. rewrite Z_of_byte_of_Z. change 256 with (2 ^ 8). apply Z.mod_pow2_bits_low; lia.
Qed.

Lemma byte_ext a b :
  (∀ n, 0 ≤ n < 8 → Z.testbit (Z_of_byte a) n = Z.testbit (Z_of_byte b) n) → a = b.
Proof.
  intros H. apply Z_of_byte_inj, Z.bits_inj'. intros n Hn.
  destruct (decide (n < 8)); [by apply H|]. by rewrite !byte_bit_high by lia.
Qed.

Lemma single_bit_spec k n :
  0 ≤ k → 0 ≤ n → Z.testbit (Z.shiftl 1 k) n = bool_decide (n = k).
Proof.
  intros. rewrite Z.shiftl_1_l, Z.pow2_bits_eqb by lia.
  case_bool_decide; [by apply Z.eqb_eq|apply Z.eqb_neq; lia].
Qed.

Lemma high_mask_bit rem n :
  (0 < rem < 8)%nat → (n < 8)%nat →
  Z.testbit (high_mask rem) (7 - Z.of_nat n) = bool_decide (n < rem)%nat.
Proof.
  intros Hr Hn. unfold high_mask. change 256 with (2 ^ 8).
  rewrite Z.mod_pow2_bits_low by lia. rewrite Z.shiftl_spec by lia.
  change 255 with (Z.ones 8). case_bool_decide.
  - apply Z.ones_spec_low. lia.
  - rewrite Z.testbit_neg_r by lia. done.
Qed.

Lemma list_total_lookup {A} `{Inhabited A} (l : list A) i x : l !! i = Some x → l !!! i = x.
Proof. apply list_lookup_total_correct. Qed.

(** Changing one byte of a path by a bitwise operation. *)
Lemma path_bit_insert (p : bytes) (bit : nat) (f : Z) (i : nat) :
  (bit < 8 * length p)%nat →
  path_bit (<[(bit / 8)%nat := byte_of_Z f]> p) i =
  if decide (i / 8 = bit / 8)%nat then Z.testbit f (7 - Z.of_nat (i mod 8)) else path_bit p i.
Proof.
  intros Hb. pose proof (div8_mod8 bit). pose proof (div8_mod8 i).
  rewrite !path_bit_testbit. case_decide as Hd.
  - rewrite Hd. rewrite list_lookup_total_insert_eq by lia.
    apply byte_of_Z_bit. lia.
  - rewrite list_lookup_total_insert_ne by done. done.
Qed.

Lemma same_byte_bit i bit :
  (i / 8 = bit / 8)%nat → ((7 - Z.of_nat (i mod 8)) = (7 - Z.of_nat (bit mod 8)) ↔ i = bit).
Proof. pose proof (div8_mod8 bit). pose proof (div8_mod8 i). lia. Qed.

Lemma path_bit_flip p bit i :
  (bit < 8 * length p)%nat →
  path_bit (flip_bit p bit) i = xorb (path_bit p i) (bool_decide (i = bit)).
Proof.
  intros Hb. unfold flip_bit. rewrite path_bit_insert by done.
  pose proof (div8_mod8 bit). pose proof (div8_mod8 i).
  case_decide as Hd.
  - rewrite Z.lxor_spec, single_bit_spec, path_bit_testbit, Hd by lia. f_equal.
    apply bool_decide_ext. by apply same_byte_bit.
  - rewrite bool_decide_eq_false_2 by (intros ->; lia). by rewrite xorb_false_r.
Qed.

Lemma path_bit_set p bit i :
  (bit < 8 * length p)%nat →
  path_bit (set_bit p bit) i = path_bit p i || bool_decide (i = bit).
Proof.
  intros Hb. unfold set_bit. rewrite path_bit_insert by done.
  pose proof (div8_mod8 bit). pose proof (div8_mod8 i).
  case_decide as Hd.
  - rewrite Z.lor_spec, single_bit_spec, path_bit_testbit, Hd by lia. f_equal.
    apply bool_decide_ext. by apply same_byte_bit.
  - rewrite bool_decide_eq_false_2 by (intros ->; lia). by rewrite orb_false_r.
Qed.

Lemma length_flip_bit p bit : length (flip_bit p bit) = length p.
Proof. apply length_insert. Qed.

Lemma length_set_bit p bit : length (set_bit p bit) = length p.
Proof. apply length_insert. Qed.

Lemma zero_path_bit n i : path_bit (replicate n Byte.x00) i = false.
Proof.
  rewrite path_bit_testbit. replace (_ !!! _) with Byte.x00; [apply Z.testbit_0_l|].
  destruct (decide (i / 8 < n)%nat).
  - rewrite lookup_total_replicate_2; done.
  - rewrite list_lookup_total_alt, lookup_ge_None_2; [done|]. rewrite length_replicate. lia.
Qed.

(** Paths of one length are determined by their bits. *)
Lemma path_ext (p q : bytes) :
  length p = length q →
  (∀ i, (i < 8 * length p)%nat → path_bit p i = path_bit q i) → p = q.
Proof.
  intros Hl H. apply list_eq_same_length with (length p); [done..|].
  intros j x y Hj Hx Hy. apply byte_ext. intros n Hn.
  specialize (H (8 * j + Z.to_nat (7 - n))%nat ltac:(lia)).
  rewrite !path_bit_testbit in H.
  replace ((8 * j + Z.to_nat (7 - n)) / 8)%nat with j in H
    by (apply Nat.div_unique with (Z.to_nat (7 - n)); lia).
  replace ((8 * j + Z.to_nat (7 - n)) mod 8)%nat with (Z.to_nat (7 - n)) in H
    by (apply Nat.mod_unique with j; lia).
  rewrite (list_total_lookup p j x), (list_total_lookup q j y) in H by done.
  replace (7 - Z.of_nat (Z.to_nat (7 - n))) with n in H by lia. done.
Qed.

(** ** Prefixes *)

Lemma length_prefix_bits d p : length (prefix_bits d p) = d.
Proof. unfold prefix_bits. by rewrite length_map, length_seq. Qed.

Lemma prefix_bits_S d p : prefix_bits (S d) p = prefix_bits d p ++ [path_bit p d].
Proof. unfold prefix_bits. rewrite seq_S, map_app. done. Qed.

Lemma prefix_bits_eq d p q :
  prefix_bits d p = prefix_bits d q ↔ (∀ i, (i < d)%nat → path_bit p i = path_bit q i).
Proof.
  induction d as [|d IH]; [split; [lia|done]|].
  rewrite !prefix_bits_S. split.
  - intros [H1 H2]%app_inj_2 i Hi; [|done]. destruct (decide (i = d)) as [->|].
    + congruence.
    + apply IH; [done|lia].
  - intros H. rewrite (proj2 IH), (H d); [done|lia|]. intros; apply H; lia.
Qed.

Lemma prefix_bits_mono d d' p q :
  (d ≤ d')%nat → prefix_bits d' p = prefix_bits d' q → prefix_bits d p = prefix_bits d q.
Proof. rewrite !prefix_bits_eq. intros ? H i ?. apply H. lia. Qed.

Lemma prefix_bits_flip d bit p :
  (bit < 8 * length p)%nat → (d ≤ bit)%nat → prefix_bits d (flip_bit p bit) = prefix_bits d p.
Proof.
  intros. apply prefix_bits_eq. intros i Hi. rewrite path_bit_flip by done.
  rewrite bool_decide_eq_false_2 by lia. apply xorb_false_r.
Qed.

Lemma path_bit_flip_same p bit :
  (bit < 8 * length p)%nat → path_bit (flip_bit p bit) bit = negb (path_bit p bit).
Proof.
  intros. rewrite path_bit_flip, bool_decide_eq_true_2 by done. apply xorb_true_r.
Qed.

Lemma flip_off_path d bit p :
  (bit < 8 * length p)%nat → (bit < d)%nat → prefix_bits d (flip_bit p bit) ≠ prefix_bits d p.
Proof.
  intros Hb Hd Heq. rewrite prefix_bits_eq in Heq. specialize (Heq bit Hd).
  rewrite path_bit_flip_same in Heq by done. by destruct (path_bit p bit).
Qed.

(** ** Storage keys *)

Lemma length_node_key d p : (d ≤ 256)%nat → length p = 32%nat → length (node_key d p) = 34%nat.
Proof.
  intros Hd Hp. pose proof (div8_mod8 d). unfold node_key.
  assert (length (be_bytes 2 (Z.of_nat d) ++ take (d / 8) p ++ replicate (32 - d / 8) Byte.x00)
          = 34%nat).
  { rewrite !length_app, length_be_bytes, length_take, length_replicate. lia. }
  case_decide; [rewrite length_insert|]; done.
Qed.

Lemma node_key_take d p :
  (d ≤ 256)%nat → length p = 32%nat → take 2 (node_key d p) = be_bytes 2 (Z.of_nat d).
Proof.
  intros Hd Hp. unfold node_key. case_decide.
  - rewrite take_insert_ge by lia. by rewrite take_app_length' by (by rewrite length_be_bytes).
  - by rewrite take_app_length' by (by rewrite length_be_bytes).
Qed.

Lemma node_key_bits d p i :
  (d ≤ 256)%nat → length p = 32%nat → (i < 256)%nat →
  path_bit (drop 2 (node_key d p)) i = path_bit p i && bool_decide (i < d)%nat.
Proof.
  intros Hd Hp Hi. pose proof (div8_mod8 d). pose proof (div8_mod8 i).
  set (body := take (d / 8) p ++ replicate (32 - d / 8) Byte.x00).
  assert (Hlen : length body = 32%nat)
    by (unfold body; rewrite length_app, length_take, length_replicate; lia).
  assert (Hbody : path_bit body i = path_bit p i && bool_decide (i / 8 < d / 8)%nat).
  { rewrite !path_bit_testbit. unfold body. case_bool_decide.
    - rewrite andb_true_r. f_equal. f_equal.
      rewrite !list_lookup_total_alt, lookup_app_l, lookup_take_lt; [done|lia|].
      rewrite length_take. lia.
    - rewrite andb_false_r. rewrite list_lookup_total_alt, lookup_app_r
        by (rewrite length_take; lia).
      rewrite length_take, lookup_replicate_2 by lia.
      apply Z.testbit_0_l. }
  unfold node_key. cbv zeta. fold body. clearbody body.
  destruct (decide (0 < d mod 8)%nat) as [Hrem|Hrem].
  - rewrite drop_insert_ge by lia.
    replace (2 + d / 8 - 2)%nat with (d / 8)%nat by lia.
    rewrite drop_app_length' by (by rewrite length_be_bytes).
    replace (d / 8)%nat with ((8 * (d / 8)) / 8)%nat at 1
      by (rewrite Nat.mul_comm, Nat.div_mul; lia).
    rewrite path_bit_insert.
    2: lia.
    rewrite (Nat.mul_comm 8), Nat.div_mul by lia.
    destruct (decide (i / 8 = d / 8)%nat) as [Hj|Hj].
    + rewrite Z.land_spec, high_mask_bit by lia. rewrite path_bit_testbit.
      apply f_equal2; [by rewrite Hj|apply bool_decide_ext; lia].
    + rewrite Hbody. f_equal. apply bool_decide_ext. lia.
  - rewrite drop_app_length' by (by rewrite length_be_bytes). rewrite Hbody. f_equal.
    apply bool_decide_ext. lia.
Qed.

(** A storage key is a depth and that many path bits. *)
Lemma node_key_inj d d' p q :
  (d ≤ 256)%nat → (d' ≤ 256)%nat → length p = 32%nat → length q = 32%nat →
  node_key d p = node_key d' q ↔ d = d' ∧ prefix_bits d p = prefix_bits d q.
Proof.
  intros Hd Hd' Hp Hq. split.
  - intros Heq.
    assert (d = d') as <-.
    { apply (f_equal (take 2)) in Heq. rewrite !node_key_take in Heq by done.
      unfold be_bytes in Heq. apply (f_equal (@rev _)) in Heq. rewrite !rev_involutive in Heq.
      apply le_bytes_inj in Heq; lia. }
    split; [done|]. apply prefix_bits_eq. intros i Hi.
    apply (f_equal (λ k, path_bit (drop 2 k) i)) in Heq.
    rewrite !node_key_bits in Heq by lia. rewrite bool_decide_eq_true_2 in Heq by done.
    by rewrite !andb_true_r in Heq.
  - intros [<- Hpre]. rewrite <- (take_drop 2 (node_key d p)), <- (take_drop 2 (node_key d q)).
    rewrite !node_key_take by done. f_equal. apply path_ext.
    + by rewrite !length_drop, !length_node_key.
    + rewrite length_drop, length_node_key by done. intros i Hi.
      rewrite !node_key_bits by (done || lia). case_bool_decide; [|by rewrite !andb_false_r].
      f_equal. by apply (proj1 (prefix_bits_eq d p q)).
Qed.

(** The depth can be read back from the first two bytes. *)
Lemma node_key_depth d p :
  (d ≤ 256)%nat → length p = 32%nat → be_val (take 2 (node_key d p)) = Z.of_nat d.
Proof.
  intros. rewrite node_key_take by done. unfold be_val, be_bytes.
  rewrite rev_involutive. apply le_val_le_bytes_small. simpl. lia.
Qed.
