(* ===== verification/Smt.v ===== *)
(** * Sparse Merkle trees

    Models [chain/zul-store/src/smt.rs] (depth 256, the state root), the
    withdrawals tree of [chain/zul-node/src/withdraw_smt.rs] (depth 32) and its
    verifier in the settlement program
    [programs/programs/zul-settlement/src/smt.rs]. The three share their loops up
    to the depth, so the loops are functions of a depth [D].

    The specification is [subtree]: the hash of the complete binary tree over a
    total leaf function. The theorems say that the incremental updates compute
    its root, that produced proofs verify against it, and that a verified proof
    binds the leaf. *)

From S2P Require Import Prelude External Hash Paths.

Definition SMT_DEPTH : nat := 256.
Definition WITHDRAW_DEPTH : nat := 32.

Definition LEAF_DOMAIN : bytes := bstr "PL2:smt:leaf".
Definition NODE_DOMAIN : bytes := bstr "PL2:smt:node".
Definition EMPTY_DOMAIN : bytes := bstr "PL2:smt:empty".
Definition KEY_DOMAIN : bytes := bstr "PL2:smt:key".

(** Compact proof: default siblings are elided, marked by a zero bitmap bit. *)
Record SmtProof := {
  bitmap : bytes;
  siblings : list H256;
}.

(** One account's new leaf: [Some account_hash], or [None] for a deletion. *)
Abbreviation LeafUpdate := (Pubkey * option H256)%type.

Record StateUpdate := {
  new_root : H256;
  node_writes : list (NodeKey * H256);
}.

Section Smt.
Context `{B3 : Blake3}.

Definition node_hash (left right : H256) : H256 := blake3_concat NODE_DOMAIN [left; right].

Definition key_path (pubkey : Pubkey) : H256 := blake3_32 KEY_DOMAIN pubkey.

Definition leaf_hash (pubkey : Pubkey) (account_hash : H256) : H256 :=
  blake3_concat LEAF_DOMAIN [pubkey; account_hash].

Definition empty_leaf : H256 := blake3_32 EMPTY_DOMAIN [].

(** The table of empty-subtree hashes, built from the leaf level up: entry [d]
    is the empty subtree at depth [d], entry [D] the empty leaf. *)
Fixpoint empty_hashes (D : nat) : list H256 :=
  match D with
  | O => [empty_leaf]
  | S D' =>
      let e := empty_hashes D' in
      node_hash (e !!! 0%nat) (e !!! 0%nat) :: e
  end.

Definition empty_root : H256 := empty_hashes SMT_DEPTH !!! 0%nat.

(** One level up: the sibling goes left exactly when the path bit is set. *)
Definition combine_bit (path : H256) (bit : nat) (sibling current : H256) : H256 :=
  if path_bit path bit then node_hash sibling current else node_hash current sibling.

(** The loop [for depth in (1..=D).rev()] of an update: recompute the nodes on
    the path of one leaf, reading siblings with [read] and writing into [tree]. *)
Fixpoint insert_path (read : gmap NodeKey H256 → nat → H256 → H256)
    (path : H256) (depth : nat) (current : H256) (tree : gmap NodeKey H256)
    : gmap NodeKey H256 :=
  match depth with
  | O => tree
  | S bit =>
      let sibling := read tree depth (flip_bit path bit) in
      let current := combine_bit path bit sibling current in
      insert_path read path bit current (<[node_key bit path := current]> tree)
  end.

(** ** The state tree *)

(** The [read] closure of [apply_updates]: overlay, then committed nodes, then
    the empty hash of the depth. [source] is [NodeSource::get_node]. *)
Definition overlay_read (e : list H256) (source : NodeKey → option H256)
    (overlay : gmap NodeKey H256) (depth : nat) (path : H256) : H256 :=
  let k := node_key depth path in
  match overlay !! k with
  | Some h => h
  | None => default (e !!! depth) (source k)
  end.

(** One iteration of the loop over [updates]. *)
Definition apply_update (D : nat) (e : list H256) (source : NodeKey → option H256)
    (overlay : gmap NodeKey H256) (u : LeafUpdate) : gmap NodeKey H256 :=
  let path := key_path u.1 in
  let current := match u.2 with
                 | Some account_hash => leaf_hash u.1 account_hash
                 | None => e !!! D
                 end in
  insert_path (overlay_read e source) path D current (<[node_key D path := current]> overlay).

Definition apply_updates (source : NodeKey → option H256) (updates : list LeafUpdate)
    : StateUpdate :=
  let e := empty_hashes SMT_DEPTH in
  let overlay := fold_left (apply_update SMT_DEPTH e source) updates ∅ in
  let root_key := node_key 0 ZERO_HASH in
  {| new_root :=
       match overlay !! root_key with
       | Some h => h
       | None => default (e !!! 0%nat) (source root_key)
       end;
     node_writes := map_to_list overlay |}.

(** The loop of [prove] from depth [depth] down, at bitmap position
    [D - depth]. *)
Fixpoint prove_loop (D : nat) (e : list H256) (source : NodeKey → option H256) (path : H256)
    (depth : nat) (p : SmtProof) : SmtProof :=
  match depth with
  | O => p
  | S bit =>
      let i := (D - depth)%nat in
      let sibling := default (e !!! depth) (source (node_key depth (flip_bit path bit))) in
      prove_loop D e source path bit
        (if decide (sibling = e !!! depth) then p
         else {| bitmap := set_bit (bitmap p) i; siblings := siblings p ++ [sibling] |})
  end.

Definition empty_proof : SmtProof := {| bitmap := ZERO_HASH; siblings := [] |}.

Definition prove (source : NodeKey → option H256) (pubkey : Pubkey) : SmtProof :=
  prove_loop SMT_DEPTH (empty_hashes SMT_DEPTH) source (key_path pubkey) SMT_DEPTH empty_proof.

(** The verification walk; [None] is the early [return false] on a missing
    sibling, otherwise the final cursor and the recomputed root. *)
Fixpoint verify_loop (D : nat) (e : list H256) (p : SmtProof) (path : H256)
    (depth cursor : nat) (current : H256) : option (nat * H256) :=
  match depth with
  | O => Some (cursor, current)
  | S bit =>
      let i := (D - depth)%nat in
      if path_bit (bitmap p) i then
        match siblings p !! cursor with
        | Some s => verify_loop D e p path bit (S cursor) (combine_bit path bit s current)
        | None => None
        end
      else verify_loop D e p path bit cursor (combine_bit path bit (e !!! depth) current)
  end.

Definition verify_result (p : SmtProof) (root : H256) (r : option (nat * H256)) : bool :=
  match r with
  | Some (cursor, current) =>
      bool_decide (cursor = length (siblings p)) && bool_decide (current = root)
  | None => false
  end.

Definition verify (root : H256) (pubkey : Pubkey) (account_hash : option H256) (p : SmtProof)
    : bool :=
  let e := empty_hashes SMT_DEPTH in
  let current := match account_hash with
                 | Some ah => leaf_hash pubkey ah
                 | None => e !!! SMT_DEPTH
                 end in
  verify_result p root (verify_loop SMT_DEPTH e p (key_path pubkey) SMT_DEPTH 0 current).

(** Persist one dirty node: a node equal to the empty hash of its depth (the
    first two key bytes) is removed, so the stored tree stays sparse. *)
Definition write_smt_node (e : list H256) (table : gmap NodeKey H256) (kv : NodeKey * H256)
    : gmap NodeKey H256 :=
  let depth := Z.to_nat (be_val (take 2 kv.1)) in
  if decide (kv.2 = e !!! depth) then delete kv.1 table else <[kv.1 := kv.2]> table.

(** ** The withdrawals tree (in memory, read and written in place) *)

Definition tree_read (e : list H256) (tree : gmap NodeKey H256) (depth : nat) (path : H256)
    : H256 := default (e !!! depth) (tree !! node_key depth path).

Definition withdraw_apply (tree : gmap NodeKey H256) (pubkey : Pubkey) (account_hash : H256)
    : gmap NodeKey H256 :=
  let e := empty_hashes WITHDRAW_DEPTH in
  let path := key_path pubkey in
  let current := leaf_hash pubkey account_hash in
  insert_path (tree_read e) path WITHDRAW_DEPTH current
    (<[node_key WITHDRAW_DEPTH path := current]> tree).

Definition withdraw_root (tree : gmap NodeKey H256) : H256 :=
  default (empty_hashes WITHDRAW_DEPTH !!! 0%nat) (tree !! node_key 0 ZERO_HASH).

Definition withdraw_prove (tree : gmap NodeKey H256) (pubkey : Pubkey) : SmtProof :=
  prove_loop WITHDRAW_DEPTH (empty_hashes WITHDRAW_DEPTH) (λ k, tree !! k) (key_path pubkey)
    WITHDRAW_DEPTH empty_proof.

Definition withdraw_verify (root : H256) (pubkey : Pubkey) (account_hash : H256) (p : SmtProof)
    : bool :=
  verify_result p root
    (verify_loop WITHDRAW_DEPTH (empty_hashes WITHDRAW_DEPTH) p (key_path pubkey)
       WITHDRAW_DEPTH 0 (leaf_hash pubkey account_hash)).

(** ** The settlement program's verifier

    [empties] is the table embedded from [empties.bin]. *)

Definition l1_verify (empties : list H256) (root : H256) (pubkey : Pubkey) (account_hash : H256)
    (p : SmtProof) : bool :=
  verify_result p root
    (verify_loop WITHDRAW_DEPTH empties p (key_path pubkey) WITHDRAW_DEPTH 0
       (leaf_hash pubkey account_hash)).

(** ** Specification: the complete tree over a leaf function *)

Fixpoint subtree (L : list bool → H256) (height : nat) (pre : list bool) : H256 :=
  match height with
  | O => L pre
  | S h => node_hash (subtree L h (pre ++ [false])) (subtree L h (pre ++ [true]))
  end.

Definition no_leaves : list bool → H256 := λ _, empty_leaf.

Definition set_leaf (k : list bool) (v : H256) (L : list bool → H256) : list bool → H256 :=
  λ k', if decide (k' = k) then v else L k'.

(** The leaf function after a list of updates, at depth [D]. *)
Definition set_update (D : nat) (L : list bool → H256) (u : LeafUpdate) : list bool → H256 :=
  set_leaf (prefix_bits D (key_path u.1))
    (match u.2 with Some ah => leaf_hash u.1 ah | None => empty_leaf end) L.

Definition set_updates (D : nat) (L : list bool → H256) (us : list LeafUpdate) : list bool → H256 :=
  fold_left (set_update D) us L.

(** A read function presents the tree over [L] when every node it returns is
    the hash of the corresponding subtree. *)
Definition presents (D : nat) (read : nat → H256 → H256) (L : list bool → H256) : Prop :=
  ∀ d p, (d ≤ D)%nat → length p = 32%nat → read d p = subtree L (D - d) (prefix_bits d p).

(** The messages hashed by a verification walk, leaf first. *)
Fixpoint verify_inputs (D : nat) (e : list H256) (p : SmtProof) (path : H256)
    (depth cursor : nat) (current : H256) : list bytes :=
  match depth with
  | O => []
  | S bit =>
      let step s := NODE_DOMAIN ++ (if path_bit path bit then s ++ current else current ++ s) in
      if path_bit (bitmap p) (D - depth)%nat then
        match siblings p !! cursor with
        | Some s => step s :: verify_inputs D e p path bit (S cursor) (combine_bit path bit s current)
        | None => []
        end
      else step (e !!! depth) ::
           verify_inputs D e p path bit cursor (combine_bit path bit (e !!! depth) current)
  end.

End Smt.
