(* ===== verification/SmtFacts.v ===== *)
(** * Correctness of the sparse Merkle trees

    Lemmas and properties about the definitions of [Smt]: updates compute the
    root of the specification tree, proofs produced from a tree verify, and a
    verified proof determines its leaf unless the messages hashed while
    verifying contain a collision. *)

From S2P Require Import Prelude External Hash Paths Smt.

(** Keep the numeral depths folded. *)
#[global] Arguments SMT_DEPTH : simpl never.
#[global] Arguments WITHDRAW_DEPTH : simpl never.
#[global] Strategy 1000 [SMT_DEPTH WITHDRAW_DEPTH].

Section Facts.
Context `{B3 : Blake3}.

(** ** Hash lengths *)

Lemma length_node_hash l r : length (node_hash l r) = 32%nat.
Proof. apply blake3_concat_length. Qed.

Lemma length_key_path pk : length (key_path pk) = 32%nat.
Proof. apply blake3_32_length. Qed.

Lemma length_leaf_hash pk ah : length (leaf_hash pk ah) = 32%nat.
Proof. apply blake3_concat_length. Qed.

Lemma length_combine_bit p b s c : length (combine_bit p b s c) = 32%nat.
Proof. unfold combine_bit. case_match; apply length_node_hash. Qed.

(** ** Empty subtrees *)

Lemma length_empty_hashes D : length (empty_hashes D) = S D.
Proof. induction D; simpl; auto. Qed.

Lemma empty_hashes_S D d : empty_hashes (S D) !!! S d = empty_hashes D !!! d.
Proof. done. Qed.

Lemma empty_hashes_spec D d pre :
  (d ≤ D)%nat → empty_hashes D !!! d = subtree no_leaves (D - d) pre.
Proof.
  revert d pre. induction D as [|D IH]; intros d pre Hd.
  - by replace d with 0%nat by lia.
  - destruct d as [|d].
    + change (empty_hashes (S D) !!! 0%nat)
        with (node_hash (empty_hashes D !!! 0%nat) (empty_hashes D !!! 0%nat)).
      simpl. apply f_equal2; rewrite <- (Nat.sub_0_r D) at 2; apply IH; lia.
    + rewrite empty_hashes_S. apply IH. lia.
Qed.

Lemma empty_hashes_last D : empty_hashes D !!! D = empty_leaf.
Proof. rewrite (empty_hashes_spec D D []) by lia. by rewrite Nat.sub_diag. Qed.

Lemma length_empty_hash D d : (d ≤ D)%nat → length (empty_hashes D !!! d) = 32%nat.
Proof.
  intros Hd. rewrite (empty_hashes_spec D d []) by done.
  destruct (D - d)%nat; [apply blake3_32_length|apply length_node_hash].
Qed.

(** ** Subtrees and leaf updates *)

Lemma subtree_ext L L' h pre :
  (∀ s, length s = h → L (pre ++ s) = L' (pre ++ s)) → subtree L h pre = subtree L' h pre.
Proof.
  revert pre. induction h as [|h IH]; intros pre H; simpl.
  - specialize (H [] eq_refl). by rewrite app_nil_r in H.
  - f_equal; apply IH; intros s Hs; rewrite <- !app_assoc; apply H; simpl; lia.
Qed.

Lemma subtree_set_leaf_off L k v h pre :
  take (length pre) k ≠ pre → subtree (set_leaf k v L) h pre = subtree L h pre.
Proof.
  intros Hoff. apply subtree_ext. intros s _. unfold set_leaf. case_decide as Heq; [|done].
  destruct Hoff. by rewrite <- Heq, take_app_length.
Qed.

Lemma take_prefix_bits d D p : (d ≤ D)%nat → take d (prefix_bits D p) = prefix_bits d p.
Proof.
  intros. unfold prefix_bits. rewrite List.firstn_map, take_seq. f_equal. f_equal. lia.
Qed.

Lemma set_leaf_off_path L v D d path p :
  (d ≤ D)%nat → prefix_bits d p ≠ prefix_bits d path →
  subtree (set_leaf (prefix_bits D path) v L) (D - d) (prefix_bits d p)
  = subtree L (D - d) (prefix_bits d p).
Proof.
  intros Hd Hne. apply subtree_set_leaf_off. rewrite length_prefix_bits, take_prefix_bits by done.
  congruence.
Qed.

(** The two children of a node on a path: the path goes one way, the flipped
    path the other. *)
Lemma subtree_children L h bit path :
  (bit < 8 * length path)%nat →
  subtree L (S h) (prefix_bits bit path)
  = combine_bit path bit (subtree L h (prefix_bits (S bit) (flip_bit path bit)))
      (subtree L h (prefix_bits (S bit) path)).
Proof.
  intros Hb. rewrite !prefix_bits_S, path_bit_flip_same, prefix_bits_flip by (done || lia).
  unfold combine_bit. simpl. by destruct (path_bit path bit).
Qed.

(** ** Updates *)

Section Insert.
Context (D : nat) (HD : (D ≤ 256)%nat).
Context (read : gmap NodeKey H256 → nat → H256 → H256).
(** Reading after a write sees the write, and otherwise the old value. *)
Context (read_insert : ∀ t k h d p,
  read (<[k := h]> t) d p = if decide (k = node_key d p) then h else read t d p).

(** The state of the loop at depth [d]: nodes on the path at depth [d] and
    below are those of the new tree, all others those of the old one. *)
Definition updated_below (L L' : list bool → H256) (path : H256) (d : nat)
    (t : gmap NodeKey H256) : Prop :=
  ∀ d' p, (d' ≤ D)%nat → length p = 32%nat →
    read t d' p = subtree (if decide ((d ≤ d')%nat ∧ prefix_bits d' p = prefix_bits d' path)
                           then L' else L) (D - d') (prefix_bits d' p).

Lemma updated_below_insert L L' path d t c :
  length path = 32%nat → (d ≤ D)%nat →
  c = subtree L' (D - d) (prefix_bits d path) →
  (∀ d' p, (d' ≤ D)%nat → length p = 32%nat →
    read t d' p = subtree (if decide ((d < d')%nat ∧ prefix_bits d' p = prefix_bits d' path)
                           then L' else L) (D - d') (prefix_bits d' p)) →
  updated_below L L' path d (<[node_key d path := c]> t).
Proof.
  intros Hp Hd -> Ht d' p Hd' Hlp. rewrite read_insert.
  destruct (decide (node_key d path = node_key d' p)) as [Hk|Hk].
  - apply node_key_inj in Hk as [<- Hpre]; [|lia..|done|done].
    rewrite decide_True by (split; [lia|done]). by rewrite Hpre.
  - rewrite Ht by done. apply f_equal with (f := λ L, subtree L _ _).
    destruct (decide (d < d' ∧ _)%nat) as [[? ?]|Hn].
    + rewrite decide_True by (split; [lia|done]). done.
    + rewrite decide_False; [done|]. intros [? Hpre].
      destruct (decide (d = d')) as [->|]; [|apply Hn; split; [lia|done]].
      apply Hk, node_key_inj; [lia..|done|done|]. done.
Qed.

Lemma insert_path_updates L path v d t c :
  length path = 32%nat → (d ≤ D)%nat → (D ≤ 8 * length path)%nat →
  let L' := set_leaf (prefix_bits D path) v L in
  c = subtree L' (D - d) (prefix_bits d path) →
  updated_below L L' path d t →
  updated_below L L' path 0 (insert_path read path d c t).
Proof.
  intros Hp Hd HDp L'. revert t c. induction d as [|bit IH]; intros t c Hc Ht; [done|].
  simpl. assert (Hb : (bit < 8 * length path)%nat) by lia.
  assert (Hsib : read t (S bit) (flip_bit path bit)
                 = subtree L' (D - S bit) (prefix_bits (S bit) (flip_bit path bit))).
  { rewrite Ht by (done || by rewrite length_flip_bit).
    rewrite decide_False by (intros [_ Heq]; by apply flip_off_path in Heq; [|lia..]).
    symmetry. apply set_leaf_off_path; [done|]. apply flip_off_path; lia. }
  assert (Hcur : combine_bit path bit (read t (S bit) (flip_bit path bit)) c
                 = subtree L' (D - bit) (prefix_bits bit path)).
  { rewrite Hsib, Hc. replace (D - bit)%nat with (S (D - S bit)) by lia.
    symmetry. by apply subtree_children. }
  apply IH; [lia|done|]. apply updated_below_insert; [done|lia|done|].
  intros d' p Hd' Hlp. rewrite Ht by done. done.
Qed.

(** Writing one leaf and recomputing its path presents the updated tree. *)
Lemma insert_path_presents L path v t :
  length path = 32%nat → (D ≤ 8 * length path)%nat →
  presents D (read t) L →
  presents D (read (insert_path read path D v (<[node_key D path := v]> t)))
    (set_leaf (prefix_bits D path) v L).
Proof.
  intros Hp HDp Ht. set (L' := set_leaf _ _ _).
  assert (Hv : v = subtree L' (D - D) (prefix_bits D path)).
  { rewrite Nat.sub_diag. simpl. unfold L', set_leaf. by rewrite decide_True. }
  assert (Hup : updated_below L L' path 0 (insert_path read path D v (<[node_key D path := v]> t))).
  { apply insert_path_updates; [done|done|done|done|].
    apply updated_below_insert; [done|done|done|].
    intros d' p Hd' Hlp. rewrite decide_False by lia. by apply Ht. }
  intros d p Hd Hlp. rewrite Hup by done.
  destruct (decide (_ ∧ _)) as [|Hn]; [done|].
  symmetry. apply set_leaf_off_path; [done|]. intros Heq. apply Hn. split; [lia|done].
Qed.
End Insert.

Lemma overlay_read_insert e source t k h d p :
  overlay_read e source (<[k := h]> t) d p
  = if decide (k = node_key d p) then h else overlay_read e source t d p.
Proof.
  unfold overlay_read. case_decide as Hk.
  - by rewrite Hk, lookup_insert_eq.
  - by rewrite lookup_insert_ne.
Qed.

Lemma tree_read_insert e t k h d p :
  tree_read e (<[k := h]> t) d p = if decide (k = node_key d p) then h else tree_read e t d p.
Proof.
  unfold tree_read. case_decide as Hk.
  - by rewrite Hk, lookup_insert_eq.
  - by rewrite lookup_insert_ne.
Qed.

(** The committed nodes present the tree over [L] (absent nodes are empty). *)
Definition source_presents (D : nat) (source : NodeKey → option H256) (L : list bool → H256)
    : Prop :=
  presents D (λ d p, default (empty_hashes D !!! d) (source (node_key d p))) L.

Lemma empty_source_presents D : source_presents D (λ _, None) no_leaves.
Proof. intros d p Hd Hp. simpl. by apply empty_hashes_spec. Qed.

Lemma apply_update_presents D source overlay L u :
  (D ≤ 256)%nat →
  presents D (overlay_read (empty_hashes D) source overlay) L →
  presents D
    (overlay_read (empty_hashes D) source (apply_update D (empty_hashes D) source overlay u))
    (set_update D L u).
Proof.
  intros HD Hov. unfold apply_update, set_update. rewrite empty_hashes_last.
  apply insert_path_presents; [done|apply overlay_read_insert|apply length_key_path| |done].
  rewrite length_key_path. lia.
Qed.

Lemma fold_updates_presents D source us :
  (D ≤ 256)%nat → ∀ overlay L,
  presents D (overlay_read (empty_hashes D) source overlay) L →
  presents D
    (overlay_read (empty_hashes D) source
       (fold_left (apply_update D (empty_hashes D) source) us overlay)) (set_updates D L us).
Proof.
  intros HD. induction us as [|u us IH]; intros overlay L Hov; [done|].
  simpl. apply IH. by apply apply_update_presents.
Qed.

Lemma overlay_read_empty D source L :
  source_presents D source L → presents D (overlay_read (empty_hashes D) source ∅) L.
Proof. intros Hs d p Hd Hp. unfold overlay_read. rewrite lookup_empty. by apply Hs. Qed.

(** The root read through an overlay that presents [L]. *)
Lemma overlay_root D source overlay L :
  presents D (overlay_read (empty_hashes D) source overlay) L →
  match overlay !! node_key 0 ZERO_HASH with
  | Some h => h
  | None => default (empty_hashes D !!! 0%nat) (source (node_key 0 ZERO_HASH))
  end = subtree L D [].
Proof.
  intros H. specialize (H 0%nat ZERO_HASH ltac:(lia) eq_refl).
  rewrite Nat.sub_0_r in H. exact H.
Qed.

Lemma smt_depth_le : (SMT_DEPTH ≤ 256)%nat.
Proof. unfold SMT_DEPTH. lia. Qed.

Lemma withdraw_depth_le : (WITHDRAW_DEPTH ≤ 256)%nat.
Proof. unfold WITHDRAW_DEPTH. lia. Qed.

Lemma apply_updates_root source L us :
  source_presents SMT_DEPTH source L →
  new_root (apply_updates source us) = subtree (set_updates SMT_DEPTH L us) SMT_DEPTH [].
Proof.
  intros Hs. apply overlay_root, fold_updates_presents; [apply smt_depth_le|].
  by apply overlay_read_empty.
Qed.

(** ** Persisting an update *)

Lemma write_nodes_lookup e kvs : ∀ table k,
  NoDup kvs.*1 →
  fold_left (write_smt_node e) kvs table !! k
  = match (list_to_map kvs : gmap NodeKey H256) !! k with
    | Some v => if decide (v = e !!! Z.to_nat (be_val (take 2 k))) then None else Some v
    | None => table !! k
    end.
Proof.
  induction kvs as [|[k' v] kvs IH]; intros table k Hnd; [done|].
  rewrite fmap_cons in Hnd. apply list.NoDup_cons in Hnd as [Hni Hnd]. simpl in *.
  rewrite IH by done. destruct (decide (k' = k)) as [->|Hne].
  - rewrite lookup_insert_eq, not_elem_of_list_to_map_1 by done.
    unfold write_smt_node. simpl. case_decide.
    + by rewrite lookup_delete_eq.
    + by rewrite lookup_insert_eq.
  - rewrite lookup_insert_ne by done. destruct (list_to_map kvs !! k); [done|].
    unfold write_smt_node. simpl. case_decide.
    + by rewrite lookup_delete_ne.
    + by rewrite lookup_insert_ne.
Qed.

(** Writing an overlay's nodes over a table that presents the old tree yields a
    table that presents the tree seen through the overlay. *)
Lemma write_nodes_presents D table overlay L :
  (D ≤ 256)%nat →
  presents D (overlay_read (empty_hashes D) (λ k, table !! k) overlay) L →
  source_presents D
    (λ k, fold_left (write_smt_node (empty_hashes D)) (map_to_list overlay) table !! k) L.
Proof.
  intros HD H d p Hd Hp. rewrite <- H by done. unfold overlay_read.
  rewrite write_nodes_lookup by apply NoDup_fst_map_to_list.
  rewrite list_to_map_to_list. destruct (overlay !! node_key d p) as [h|]; [|done].
  rewrite node_key_depth, Nat2Z.id by lia. by case_decide.
Qed.

(** ** Withdrawals tree *)

Definition withdraw_presents (tree : gmap NodeKey H256) (L : list bool → H256) : Prop :=
  presents WITHDRAW_DEPTH (tree_read (empty_hashes WITHDRAW_DEPTH) tree) L.

Lemma withdraw_empty_presents : withdraw_presents ∅ no_leaves.
Proof.
  intros d p Hd Hp. unfold tree_read. rewrite lookup_empty. by apply empty_hashes_spec.
Qed.

Lemma withdraw_apply_presents tree L pk ah :
  withdraw_presents tree L →
  withdraw_presents (withdraw_apply tree pk ah)
    (set_leaf (prefix_bits WITHDRAW_DEPTH (key_path pk)) (leaf_hash pk ah) L).
Proof.
  intros Ht. unfold withdraw_apply.
  apply insert_path_presents; [apply withdraw_depth_le|apply tree_read_insert|
    apply length_key_path| |done].
  rewrite length_key_path. pose proof withdraw_depth_le. lia.
Qed.

Lemma withdraw_root_spec tree L :
  withdraw_presents tree L → withdraw_root tree = subtree L WITHDRAW_DEPTH [].
Proof.
  intros H. specialize (H 0%nat ZERO_HASH ltac:(lia) eq_refl).
  rewrite Nat.sub_0_r in H. exact H.
Qed.

(** ** Completeness: produced proofs verify *)

Section Prove.
Context (D : nat) (HD : (D ≤ 256)%nat) (source : NodeKey → option H256) (path : H256).
Context (Hpath : length path = 32%nat).

Definition sibling_at (depth : nat) : H256 :=
  default (empty_hashes D !!! depth) (source (node_key depth (flip_bit path (depth - 1)))).

Definition non_default (depth : nat) : bool :=
  bool_decide (sibling_at depth ≠ empty_hashes D !!! depth).

(** The siblings a proof carries for depths [depth .. 1]. *)
Fixpoint carried (depth : nat) : list H256 :=
  match depth with
  | O => []
  | S bit => (if non_default depth then [sibling_at depth] else []) ++ carried bit
  end.

Lemma prove_loop_spec depth p :
  (depth ≤ D)%nat → length (bitmap p) = 32%nat →
  let p' := prove_loop D (empty_hashes D) source path depth p in
  siblings p' = siblings p ++ carried depth ∧
  (∀ i, (i < 256)%nat → path_bit (bitmap p') i
    = path_bit (bitmap p) i
      || (bool_decide (D - depth ≤ i < D)%nat && non_default (D - i))).
Proof.
  revert p. induction depth as [|bit IH]; intros p Hd Hb; simpl.
  - split; [by rewrite app_nil_r|]. intros i Hi. rewrite bool_decide_eq_false_2 by lia.
    by rewrite orb_false_r.
  - set (s := default _ _). set (p1 := if decide _ then _ else _).
    assert (Hs : s = sibling_at (S bit)).
    { unfold s, sibling_at. by rewrite Nat.sub_succ, Nat.sub_0_r. }
    assert (Hp1 : length (bitmap p1) = 32%nat).
    { unfold p1. case_decide; simpl; [done|]. by rewrite length_set_bit. }
    destruct (IH p1 ltac:(lia) Hp1) as [IHs IHb]. split.
    + rewrite IHs. unfold p1, non_default. rewrite <- Hs. case_decide as Hd0.
      * by rewrite bool_decide_eq_false_2 by (intros ?; done).
      * rewrite bool_decide_eq_true_2 by done. simpl. by rewrite <- app_assoc.
    + intros i Hi. rewrite IHb by done.
      assert (Hbit : path_bit (bitmap p1) i
        = path_bit (bitmap p) i || (bool_decide (i = (D - S bit)%nat) && non_default (S bit))).
      { unfold p1, non_default. rewrite <- Hs. case_decide as Hd0.
        - rewrite (bool_decide_eq_false_2 (s ≠ _)) by (intros ?; done).
          by rewrite andb_false_r, orb_false_r.
        - rewrite (bool_decide_eq_true_2 (s ≠ _)) by done. rewrite andb_true_r.
          simpl. apply path_bit_set. rewrite Hb. lia. }
      rewrite Hbit, <- orb_assoc. f_equal.
      destruct (decide (i = (D - S bit)%nat)) as [->|Hne].
      * replace (D - (D - S bit))%nat with (S bit) by lia.
        rewrite (bool_decide_eq_true_2 (_ = _)) by done.
        rewrite (bool_decide_eq_false_2 (D - bit ≤ _ < _)%nat) by lia.
        rewrite (bool_decide_eq_true_2 (D - S bit ≤ _ < _)%nat) by lia.
        by rewrite orb_false_r.
      * rewrite (bool_decide_eq_false_2 (i = _)) by done. simpl. f_equal.
        apply bool_decide_ext. lia.
Qed.

Lemma verify_loop_complete p depth cursor current :
  (depth ≤ D)%nat →
  (∀ i, (D - depth ≤ i < D)%nat → path_bit (bitmap p) i = non_default (D - i)) →
  drop cursor (siblings p) = carried depth → (cursor ≤ length (siblings p))%nat →
  ∀ L, source_presents D source L →
  current = subtree L (D - depth) (prefix_bits depth path) →
  verify_loop D (empty_hashes D) p path depth cursor current
  = Some (length (siblings p), subtree L D []).
Proof.
  intros Hd Hbm Hdrop Hc L HL Hcur. revert cursor current Hdrop Hc Hcur.
  induction depth as [|bit IH]; intros cursor current Hdrop Hc Hcur; simpl.
  - simpl in Hdrop. rewrite Nat.sub_0_r in Hcur. rewrite Hcur. f_equal. f_equal.
    apply (f_equal length) in Hdrop. rewrite length_drop in Hdrop. simpl in Hdrop. lia.
  - assert (Hsib : sibling_at (S bit)
                   = subtree L (D - S bit) (prefix_bits (S bit) (flip_bit path bit))).
    { unfold sibling_at. rewrite Nat.sub_succ, Nat.sub_0_r. apply HL; [done|].
      by rewrite length_flip_bit. }
    assert (Hup : combine_bit path bit (sibling_at (S bit)) current
                  = subtree L (D - bit) (prefix_bits bit path)).
    { rewrite Hsib, Hcur. replace (D - bit)%nat with (S (D - S bit)) by lia.
      symmetry. apply subtree_children. rewrite Hpath. lia. }
    rewrite Hbm by lia. replace (D - (D - S bit))%nat with (S bit) by lia.
    simpl in Hdrop. destruct (non_default (S bit)) eqn:Hnd; simpl in Hdrop.
    + assert (Hlk : siblings p !! cursor = Some (sibling_at (S bit))).
      { rewrite <- (Nat.add_0_r cursor), <- lookup_drop, Hdrop. done. }
      rewrite Hlk. apply IH; [lia|intros; apply Hbm; lia| | |done].
      * replace (S cursor) with (cursor + 1)%nat by lia. by rewrite <- drop_drop, Hdrop.
      * apply lookup_lt_Some in Hlk. lia.
    + unfold non_default in Hnd. apply bool_decide_eq_false, dec_stable in Hnd.
      rewrite <- Hnd. apply IH; [lia|intros; apply Hbm; lia|done|done|done].
Qed.

Lemma prove_then_verify L current root :
  source_presents D source L →
  current = L (prefix_bits D path) → root = subtree L D [] →
  let p := prove_loop D (empty_hashes D) source path D empty_proof in
  verify_result p root (verify_loop D (empty_hashes D) p path D 0 current) = true.
Proof.
  intros HL Hcur Hroot p.
  destruct (prove_loop_spec D empty_proof ltac:(lia) eq_refl) as [Hs Hb].
  fold p in Hs, Hb. simpl in Hs.
  rewrite (verify_loop_complete p D 0 current ltac:(lia)) with (L := L); [| |by rewrite Hs|lia|done|].
  - unfold verify_result. rewrite bool_decide_eq_true_2 by done.
    rewrite bool_decide_eq_true_2; done.
  - intros i Hi. rewrite Hb by lia. change (bitmap empty_proof) with (replicate 32 Byte.x00).
    rewrite zero_path_bit.
    rewrite bool_decide_eq_true_2 by lia. done.
  - by rewrite Nat.sub_diag.
Qed.
End Prove.

(** ** Soundness: a verified proof binds the leaf *)

Definition proof_wf (p : SmtProof) : Prop := Forall (λ s, length s = 32%nat) (siblings p).

(** One step up: equal parents mean equal children, or the two hashed messages
    collide. *)
Lemma combine_step_inj bit path1 path2 s1 s2 c1 c2 :
  path_bit path1 bit = path_bit path2 bit →
  length s1 = 32%nat → length s2 = 32%nat → length c1 = 32%nat → length c2 = 32%nat →
  combine_bit path1 bit s1 c1 = combine_bit path2 bit s2 c2 →
  c1 = c2 ∨
  collision_in [NODE_DOMAIN ++ (if path_bit path1 bit then s1 ++ c1 else c1 ++ s1);
                NODE_DOMAIN ++ (if path_bit path2 bit then s2 ++ c2 else c2 ++ s2)].
Proof.
  unfold combine_bit, node_hash, blake3_concat. cbn [concat]. intros <- ? ? ? ?.
  destruct (path_bit path1 bit); rewrite !app_nil_r; intros [Heq|?]%blake3_eq; auto;
    apply app_inv_head in Heq; apply app_inj_len in Heq as [? ?]; (congruence || auto).
Qed.

Section Sound.
Context (D : nat) (e : list H256) (He : ∀ d, (d ≤ D)%nat → length (e !!! d) = 32%nat).

(** The sibling used at one depth, with the cursor after it. *)
Definition step_sibling (p : SmtProof) (depth cursor : nat) : option (nat * H256) :=
  if path_bit (bitmap p) (D - depth)%nat
  then s ← siblings p !! cursor; Some (S cursor, s)
  else Some (cursor, e !!! depth).

Lemma step_sibling_length p depth cursor c' s :
  proof_wf p → (depth ≤ D)%nat → step_sibling p depth cursor = Some (c', s) → length s = 32%nat.
Proof.
  unfold step_sibling, proof_wf. intros Hwf Hd. case_match.
  - intros (s' & Hs & ?)%bind_Some. simplify_eq. exact (Forall_lookup_1 _ _ _ _ Hwf Hs).
  - intros ?. simplify_eq. by apply He.
Qed.

Lemma verify_loop_step p path bit cursor current :
  verify_loop D e p path (S bit) cursor current
  = '(c', s) ← step_sibling p (S bit) cursor;
    verify_loop D e p path bit c' (combine_bit path bit s current).
Proof.
  unfold step_sibling. cbn -[Nat.sub].
  case_match; [|done]. by destruct (siblings p !! cursor).
Qed.

Lemma verify_inputs_step p path bit cursor current c' s :
  step_sibling p (S bit) cursor = Some (c', s) →
  verify_inputs D e p path (S bit) cursor current
  = (NODE_DOMAIN ++ (if path_bit path bit then s ++ current else current ++ s))
    :: verify_inputs D e p path bit c' (combine_bit path bit s current).
Proof.
  unfold step_sibling. cbn -[Nat.sub].
  case_match; [|by intros [= <- <-]]. destruct (siblings p !! cursor); simpl; [|done].
  by intros [= <- <-].
Qed.

Lemma verify_loop_binds p q path1 path2 depth : ∀ k1 k2 c1 c2 n1 n2 root,
  (depth ≤ D)%nat → prefix_bits depth path1 = prefix_bits depth path2 →
  proof_wf p → proof_wf q → length c1 = 32%nat → length c2 = 32%nat →
  verify_loop D e p path1 depth k1 c1 = Some (n1, root) →
  verify_loop D e q path2 depth k2 c2 = Some (n2, root) →
  c1 = c2 ∨ collision_in (verify_inputs D e p path1 depth k1 c1
                          ++ verify_inputs D e q path2 depth k2 c2).
Proof.
  induction depth as [|bit IH]; intros k1 k2 c1 c2 n1 n2 root Hd Hpre Hp Hq Hc1 Hc2.
  { simpl. intros [= _ ->] [= _ ->]. by left. }
  rewrite !verify_loop_step.
  intros ([k1' s1] & Hs1 & Hv1)%bind_Some ([k2' s2] & Hs2 & Hv2)%bind_Some.
  rewrite (verify_inputs_step p _ _ _ _ _ _ Hs1), (verify_inputs_step q _ _ _ _ _ _ Hs2).
  assert (Hbit : path_bit path1 bit = path_bit path2 bit)
    by (apply (proj1 (prefix_bits_eq _ _ _) Hpre); lia).
  destruct (IH k1' k2' _ _ n1 n2 root ltac:(lia)
              (prefix_bits_mono bit (S bit) _ _ ltac:(lia) Hpre) Hp Hq
              (length_combine_bit _ _ _ _) (length_combine_bit _ _ _ _) Hv1 Hv2) as [Heq|Hcol].
  - pose proof (step_sibling_length _ _ _ _ _ Hp Hd Hs1) as Hl1.
    pose proof (step_sibling_length _ _ _ _ _ Hq Hd Hs2) as Hl2.
    destruct (combine_step_inj _ _ _ _ _ _ _ Hbit Hl1 Hl2 Hc1 Hc2 Heq) as [?|Hcol]; [by left|].
    right. eapply collision_in_mono; [|done]. set_solver.
  - right. eapply collision_in_mono; [|done]. set_solver.
Qed.
End Sound.

(** The messages hashed when verifying leaf [ah] of [pk] at depth [D]. *)
Definition leaf_input (pk : Pubkey) (ah : option H256) : bytes :=
  match ah with
  | Some h => LEAF_DOMAIN ++ pk ++ h
  | None => EMPTY_DOMAIN
  end.

Definition leaf_value (pk : Pubkey) (ah : option H256) : H256 :=
  match ah with Some h => leaf_hash pk h | None => empty_leaf end.

Definition verify_messages (D : nat) (pk : Pubkey) (ah : option H256) (p : SmtProof)
    : list bytes :=
  leaf_input pk ah
  :: verify_inputs D (empty_hashes D) p (key_path pk) D 0 (leaf_value pk ah).

Lemma leaf_value_input pk ah : leaf_value pk ah = blake3 (leaf_input pk ah).
Proof.
  destruct ah; [|done]. unfold leaf_value, leaf_input, leaf_hash, blake3_concat. cbn [concat].
  by rewrite app_nil_r.
Qed.

Lemma length_leaf_value pk ah : length (leaf_value pk ah) = 32%nat.
Proof. rewrite leaf_value_input. apply blake3_length. Qed.

Lemma leaf_input_inj pk1 pk2 a b :
  length pk1 = 32%nat → length pk2 = 32%nat →
  leaf_input pk1 a = leaf_input pk2 b → a = b ∧ (a ≠ None → pk1 = pk2).
Proof.
  intros Hl1 Hl2. destruct a as [a|], b as [b|]; unfold leaf_input.
  - intros [? ?]%app_inv_head%app_inj_len; [|congruence]. subst. done.
  - intros H. apply (f_equal length) in H. rewrite !length_app, Hl1 in H.
    change (length LEAF_DOMAIN) with 12%nat in H. change (length EMPTY_DOMAIN) with 13%nat in H. lia.
  - intros H. apply (f_equal length) in H. rewrite !length_app, Hl2 in H.
    change (length LEAF_DOMAIN) with 12%nat in H. change (length EMPTY_DOMAIN) with 13%nat in H. lia.
  - done.
Qed.

Lemma verify_result_true p root r :
  verify_result p root r = true ↔ r = Some (length (siblings p), root).
Proof.
  unfold verify_result. destruct r as [[c cur]|]; [|naive_solver].
  rewrite andb_true_iff, !bool_decide_eq_true. naive_solver.
Qed.

(** Two leaves verified at the same position of one root agree. *)
Lemma verify_binds D pk1 pk2 a b p q root :
  length pk1 = 32%nat → length pk2 = 32%nat →
  prefix_bits D (key_path pk1) = prefix_bits D (key_path pk2) →
  proof_wf p → proof_wf q →
  verify_result p root
    (verify_loop D (empty_hashes D) p (key_path pk1) D 0 (leaf_value pk1 a)) = true →
  verify_result q root
    (verify_loop D (empty_hashes D) q (key_path pk2) D 0 (leaf_value pk2 b)) = true →
  (a = b ∧ (a ≠ None → pk1 = pk2))
  ∨ collision_in (verify_messages D pk1 a p ++ verify_messages D pk2 b q).
Proof.
  intros Hl1 Hl2 Hpre Hp Hq H1%verify_result_true H2%verify_result_true.
  destruct (verify_loop_binds D (empty_hashes D) (length_empty_hash D) p q _ _ D
              0 0 _ _ _ _ root ltac:(lia) Hpre Hp Hq
              (length_leaf_value _ _) (length_leaf_value _ _) H1 H2) as [Heq|Hcol].
  - rewrite !leaf_value_input in Heq. apply blake3_eq in Heq as [Heq|Hcol].
    + left. by apply leaf_input_inj.
    + right. eapply collision_in_mono; [|done]. unfold verify_messages. set_solver.
  - right. eapply collision_in_mono; [|done]. unfold verify_messages. set_solver.
Qed.

Lemma verify_unfold root pk ah p :
  verify root pk ah p
  = verify_result p root
      (verify_loop SMT_DEPTH (empty_hashes SMT_DEPTH) p (key_path pk) SMT_DEPTH 0 (leaf_value pk ah)).
Proof. unfold verify. rewrite empty_hashes_last. by destruct ah. Qed.

(** ** Committed histories *)

(** Commit a batch of leaf updates to the persisted node table. *)
Definition commit_nodes (table : gmap NodeKey H256) (us : list LeafUpdate) : gmap NodeKey H256 :=
  fold_left (write_smt_node (empty_hashes SMT_DEPTH))
    (node_writes (apply_updates (λ k, table !! k) us)) table.

Lemma commit_nodes_presents table L us :
  source_presents SMT_DEPTH (λ k, table !! k) L →
  source_presents SMT_DEPTH (λ k, commit_nodes table us !! k) (set_updates SMT_DEPTH L us).
Proof.
  intros Hs. apply write_nodes_presents; [apply smt_depth_le|].
  apply fold_updates_presents; [apply smt_depth_le|]. by apply overlay_read_empty.
Qed.

Lemma set_updates_app D L us vs : set_updates D L (us ++ vs) = set_updates D (set_updates D L us) vs.
Proof. apply fold_left_app. Qed.

Lemma history_presents batches : ∀ table L,
  source_presents SMT_DEPTH (λ k, table !! k) L →
  source_presents SMT_DEPTH (λ k, fold_left commit_nodes batches table !! k)
    (set_updates SMT_DEPTH L (concat batches)).
Proof.
  induction batches as [|us batches IH]; intros table L Hs; [done|].
  cbn [fold_left concat]. rewrite set_updates_app. apply IH. by apply commit_nodes_presents.
Qed.

Lemma set_leaf_eq k v L : set_leaf k v L k = v.
Proof. unfold set_leaf. by rewrite decide_True. Qed.

Lemma set_leaf_ne k k' v L : k' ≠ k → set_leaf k v L k' = L k'.
Proof. unfold set_leaf. intros. by rewrite decide_False. Qed.

Lemma set_updates_other D L us k :
  (∀ u, u ∈ us → prefix_bits D (key_path u.1) ≠ k) → set_updates D L us k = L k.
Proof.
  revert L. induction us as [|u us IH]; intros L Hne; [done|].
  simpl. rewrite IH by (intros; apply Hne; set_solver).
  apply set_leaf_ne. intros Heq. apply (Hne u); [set_solver|done].
Qed.

Lemma key_path_bits pk1 pk2 :
  prefix_bits SMT_DEPTH (key_path pk1) = prefix_bits SMT_DEPTH (key_path pk2) →
  key_path pk1 = key_path pk2.
Proof.
  intros H. apply path_ext; [by rewrite !length_key_path|].
  rewrite length_key_path. intros i Hi. apply (proj1 (prefix_bits_eq _ _ _) H).
  unfold SMT_DEPTH. lia.
Qed.

Lemma set_updates_last D L us1 us2 pk ah :
  (∀ u, u ∈ us2 → prefix_bits D (key_path u.1) ≠ prefix_bits D (key_path pk)) →
  set_updates D L (us1 ++ (pk, ah) :: us2) (prefix_bits D (key_path pk)) = leaf_value pk ah.
Proof.
  intros H. rewrite set_updates_app. cbn [fold_left set_updates].
  change (fold_left (set_update D) us2 ?L) with (set_updates D L us2).
  rewrite set_updates_other by done. unfold set_update. by rewrite set_leaf_eq.
Qed.

(** Updates at distinct positions commute. *)
Lemma set_updates_perm_ext D us vs :
  us ≡ₚ vs → NoDup ((λ u : LeafUpdate, prefix_bits D (key_path u.1)) <$> us) →
  ∀ L L', (∀ k, L k = L' k) → ∀ k, set_updates D L us k = set_updates D L' vs k.
Proof.
  induction 1 as [|u us vs Hp IH|u v us|us vs ws Hp1 IH1 Hp2 IH2]; intros Hnd L L' HL k.
  - done.
  - simpl. rewrite fmap_cons in Hnd. apply list.NoDup_cons in Hnd as [_ Hnd].
    apply IH; [done|]. intros k'. unfold set_update, set_leaf. by case_decide.
  - simpl. rewrite !fmap_cons in Hnd. apply list.NoDup_cons in Hnd as [Hni Hnd].
    assert (Hne : prefix_bits D (key_path v.1) ≠ prefix_bits D (key_path u.1)) by set_solver.
    assert (Hsw : ∀ k, set_update D (set_update D L v) u k = set_update D (set_update D L' u) v k).
    { intros k'. unfold set_update, set_leaf. repeat case_decide; congruence || apply HL. }
    clear -Hsw. revert Hsw. generalize (set_update D (set_update D L v) u) as A.
    generalize (set_update D (set_update D L' u) v) as B. revert k.
    induction us as [|w us IH]; intros k B A Hsw; simpl; [done|].
    apply IH. intros k'. unfold set_update, set_leaf. by case_decide.
  - rewrite IH1 with (L' := L'); [|done|done]. apply IH2; [|done].
    by rewrite <- Hp1.
Qed.

Lemma subtree_eq L L' h pre : (∀ k, L k = L' k) → subtree L h pre = subtree L' h pre.
Proof. intros H. apply subtree_ext. auto. Qed.

Lemma set_updates_cons D L u us : set_updates D L (u :: us) = set_updates D (set_update D L u) us.
Proof. done. Qed.

Lemma set_updates_ext D us : ∀ L L',
  (∀ k, L k = L' k) → ∀ k, set_updates D L us k = set_updates D L' us k.
Proof.
  induction us as [|u us IH]; intros L L' H k; [done|].
  simpl. apply IH. intros k'. unfold set_update, set_leaf. by case_decide.
Qed.

(** Leaf functions that agree but at one position agree there too once it is set. *)
Lemma set_updates_agree D us k : ∀ L L',
  (∀ k', k' ≠ k → L k' = L' k') → ∀ k', k' ≠ k → set_updates D L us k' = set_updates D L' us k'.
Proof.
  induction us as [|u us IH]; intros L L' HL k' Hk; [by apply HL|].
  simpl. apply IH; [|done]. intros k2 Hk2. unfold set_update, set_leaf. case_decide; [done|by apply HL].
Qed.

Lemma set_updates_length D us : ∀ L,
  (∀ k, length (L k) = 32%nat) → ∀ k, length (set_updates D L us k) = 32%nat.
Proof.
  induction us as [|u us IH]; intros L H k; [done|].
  simpl. apply IH. intros k'. unfold set_update, set_leaf.
  case_decide; [|done]. apply (length_leaf_value u.1 u.2).
Qed.

Lemma length_no_leaves k : length (no_leaves k) = 32%nat.
Proof. apply blake3_length. Qed.

Lemma length_subtree L h : (∀ k, length (L k) = 32%nat) → ∀ pre, length (subtree L h pre) = 32%nat.
Proof. intros HL. destruct h; intros pre; [apply HL|apply length_node_hash]. Qed.

(** Proofs read off a presented tree are well formed. *)
Lemma prove_loop_wf D source path L :
  (D ≤ 256)%nat → length path = 32%nat → source_presents D source L →
  (∀ k, length (L k) = 32%nat) →
  proof_wf (prove_loop D (empty_hashes D) source path D empty_proof).
Proof.
  intros HD Hpath HL Hlen. unfold proof_wf.
  destruct (prove_loop_spec D HD source path Hpath D empty_proof ltac:(lia) eq_refl) as [-> _].
  cbn [app siblings empty_proof].
  assert (Hc : ∀ d, (d ≤ D)%nat → Forall (λ s, length s = 32%nat) (carried D source path d)).
  { induction d as [|bit IH]; intros Hd; cbn [carried]; [constructor|].
    apply Forall_app. split; [|apply IH; lia]. case_match; constructor; [|constructor].
    unfold sibling_at. rewrite (HL (S bit)); [by apply length_subtree|done|].
    by rewrite length_flip_bit. }
  by apply Hc.
Qed.

End Facts.
