(* ===== verification/SmtProps.v ===== *)
(** * Properties of the sparse Merkle trees

    The state tree refines its specification, its proofs are complete and bind
    the leaf, the root depends only on the final leaf set, and the withdrawals
    tree agrees with the settlement program's verifier. Each property with
    hypotheses is followed by a witness on the concrete hash of [External.Toy]. *)

From S2P Require Import Prelude External Hash Paths Smt SmtFacts.

Section Props.
Context `{B3 : Blake3}.

(** The root the persisted table presents. *)
Definition table_root (table : gmap NodeKey H256) : H256 :=
  new_root (apply_updates (λ k, table !! k) []).

(** The account hash the last update of a history leaves at [pk]. *)
Definition last_update (pk : Pubkey) (us : list LeafUpdate) : option H256 :=
  fold_left (λ acc u, if decide (key_path u.1 = key_path pk) then u.2 else acc) us None.

Lemma table_root_spec table L :
  source_presents SMT_DEPTH (λ k, table !! k) L → table_root table = subtree L SMT_DEPTH [].
Proof. intros H. unfold table_root. by rewrite (apply_updates_root _ L). Qed.

Lemma history_root batches :
  table_root (fold_left commit_nodes batches ∅)
  = subtree (set_updates SMT_DEPTH no_leaves (concat batches)) SMT_DEPTH [].
Proof.
  apply table_root_spec, history_presents.
  intros d p Hd Hp. rewrite lookup_empty. by apply (empty_source_presents SMT_DEPTH d p).
Qed.

Lemma last_update_leaf pk us :
  (∀ u, u ∈ us → key_path u.1 = key_path pk → u.1 = pk) →
  set_updates SMT_DEPTH no_leaves us (prefix_bits SMT_DEPTH (key_path pk))
  = leaf_value pk (last_update pk us).
Proof.
  induction us as [|u us IH] using rev_ind; intros Hu; [done|].
  rewrite set_updates_app. unfold last_update. rewrite fold_left_app.
  cbn [fold_left set_updates]. unfold set_update at 1.
  destruct (decide (key_path u.1 = key_path pk)) as [Heq|Hne].
  - rewrite Heq, set_leaf_eq, (Hu u) by set_solver. by destruct u.2.
  - rewrite set_leaf_ne; [apply IH; set_solver|].
    intros ?%key_path_bits. congruence.
Qed.

(** C6: whatever tree [L] the persisted node table presents, the batched
    update [apply_updates] returns the root of [L] with every update applied in
    order, and writing its dirty nodes back (empty nodes removed) leaves a
    table that presents exactly that tree at every depth and path. *)
Theorem apply_updates_refines table L us :
  source_presents SMT_DEPTH (λ k, table !! k) L →
  new_root (apply_updates (λ k, table !! k) us)
  = subtree (set_updates SMT_DEPTH L us) SMT_DEPTH [] ∧
  source_presents SMT_DEPTH (λ k, commit_nodes table us !! k) (set_updates SMT_DEPTH L us).
Proof.
  intros H. split; [by apply apply_updates_root|by apply commit_nodes_presents].
Qed.

(** The table left by a history, and the proofs read off it. *)
Lemma history_proof batches pk :
  (∀ u, u ∈ concat batches → key_path u.1 = key_path pk → u.1 = pk) →
  let table := fold_left commit_nodes batches ∅ in
  let p := prove (λ k, table !! k) pk in
  proof_wf p ∧ verify (table_root table) pk (last_update pk (concat batches)) p = true.
Proof.
  intros Hu table p.
  assert (Hpres : source_presents SMT_DEPTH (λ k, table !! k)
                    (set_updates SMT_DEPTH no_leaves (concat batches))).
  { apply history_presents. intros d q Hd Hq. rewrite lookup_empty.
    by apply (empty_source_presents SMT_DEPTH d q). }
  split.
  - apply (prove_loop_wf _ _ _ _ smt_depth_le (length_key_path pk) Hpres).
    apply set_updates_length, length_no_leaves.
  - rewrite verify_unfold.
    apply (prove_then_verify SMT_DEPTH smt_depth_le _ _ (length_key_path pk)) with (1 := Hpres).
    + by rewrite last_update_leaf.
    + apply history_root.
Qed.

(** C7: after any history of committed batches, the proof produced for a key
    verifies against the current root with the account hash of the last update
    to it: inclusion when that update wrote it, exclusion when it was deleted
    or never written. *)
Theorem state_proof_complete batches pk :
  (∀ u, u ∈ concat batches → key_path u.1 = key_path pk → u.1 = pk) →
  let table := fold_left commit_nodes batches ∅ in
  verify (table_root table) pk (last_update pk (concat batches)) (prove (λ k, table !! k) pk)
  = true.
Proof. intros Hu table. exact (proj2 (history_proof batches pk Hu)). Qed.

(** C8: two proofs verified for one account against one root speak of the same
    leaf, or two of the messages hashed while verifying them collide. *)
Theorem state_proof_sound root pk a b p q :
  length pk = 32%nat → proof_wf p → proof_wf q →
  verify root pk a p = true → verify root pk b q = true →
  a = b ∨ collision_in (verify_messages SMT_DEPTH pk a p ++ verify_messages SMT_DEPTH pk b q).
Proof.
  intros Hl Hp Hq. rewrite !verify_unfold. intros H1 H2.
  destruct (verify_binds SMT_DEPTH pk pk a b p q root) as [[? _]|?]; auto.
Qed.

(** The state root does not depend on the order of the account writes or on
    how they are split into batches, as long as they touch distinct leaves. *)
Theorem root_order_independent batches batches' :
  concat batches ≡ₚ concat batches' →
  NoDup ((λ u : LeafUpdate, prefix_bits SMT_DEPTH (key_path u.1)) <$> concat batches) →
  table_root (fold_left commit_nodes batches ∅) = table_root (fold_left commit_nodes batches' ∅).
Proof.
  intros Hp Hnd. rewrite !history_root. apply subtree_eq.
  by apply set_updates_perm_ext.
Qed.

(** Creating an account that was absent and deleting it in a later batch
    restores the root. *)
Theorem delete_restores_root batches pk ah :
  (∀ u, u ∈ concat batches → key_path u.1 ≠ key_path pk) →
  table_root (fold_left commit_nodes (batches ++ [[(pk, Some ah)]; [(pk, None)]]) ∅)
  = table_root (fold_left commit_nodes batches ∅).
Proof.
  intros Hu. rewrite !history_root. apply subtree_eq. intros k.
  rewrite concat_app, set_updates_app. cbn [concat app]. cbn [set_updates fold_left].
  unfold set_update. cbn [fst snd].
  destruct (decide (k = prefix_bits SMT_DEPTH (key_path pk))) as [->|Hne].
  - rewrite set_leaf_eq. symmetry. change empty_leaf with (no_leaves (prefix_bits SMT_DEPTH (key_path pk))).
    apply set_updates_other. intros u Hin ?%key_path_bits. by eapply Hu.
  - by rewrite !set_leaf_ne.
Qed.

(** ** The withdrawals tree *)

Definition withdraw_all (ws : list (Pubkey * H256)) : gmap NodeKey H256 :=
  fold_left (λ t w, withdraw_apply t w.1 w.2) ws ∅.

Definition as_updates (ws : list (Pubkey * H256)) : list LeafUpdate := prod_map id Some <$> ws.

Lemma withdraw_all_presents ws :
  withdraw_presents (withdraw_all ws) (set_updates WITHDRAW_DEPTH no_leaves (as_updates ws)).
Proof.
  induction ws as [|w ws IH] using rev_ind; [apply withdraw_empty_presents|].
  unfold withdraw_all, as_updates. rewrite fold_left_app, fmap_app, set_updates_app.
  by apply withdraw_apply_presents.
Qed.

Lemma withdraw_prove_wf ws pk : proof_wf (withdraw_prove (withdraw_all ws) pk).
Proof.
  eapply (prove_loop_wf _ _ _ _ withdraw_depth_le (length_key_path pk) (withdraw_all_presents ws)).
  apply set_updates_length, length_no_leaves.
Qed.

(** The node's proof of the last write at a position recomputes the root. *)
Lemma withdraw_prove_complete ws1 ws2 pk ah :
  (∀ w, w ∈ ws2 → prefix_bits WITHDRAW_DEPTH (key_path w.1) ≠ prefix_bits WITHDRAW_DEPTH (key_path pk)) →
  let tree := withdraw_all (ws1 ++ (pk, ah) :: ws2) in
  let p := withdraw_prove tree pk in
  proof_wf p ∧
  verify_result p (withdraw_root tree)
    (verify_loop WITHDRAW_DEPTH (empty_hashes WITHDRAW_DEPTH) p (key_path pk)
       WITHDRAW_DEPTH 0 (leaf_hash pk ah)) = true.
Proof.
  intros Hw tree p.
  pose proof (withdraw_all_presents (ws1 ++ (pk, ah) :: ws2)) as Hp. split.
  { apply withdraw_prove_wf. }
  apply (prove_then_verify WITHDRAW_DEPTH withdraw_depth_le _ _ (length_key_path pk)) with
    (L := set_updates WITHDRAW_DEPTH no_leaves (as_updates (ws1 ++ (pk, ah) :: ws2))).
  - exact Hp.
  - unfold as_updates. rewrite fmap_app, fmap_cons. symmetry.
    apply (set_updates_last WITHDRAW_DEPTH no_leaves _ _ pk (Some ah)).
    intros u (w & -> & Hin)%list_elem_of_fmap. by apply Hw.
  - by apply withdraw_root_spec.
Qed.

(** For every sequence of withdrawals whose last write at a position is
    [(pk, ah)], the node's proof is accepted by the settlement program's
    verifier against the withdrawals root, given the embedded table holds the
    empty-subtree hashes. *)
Theorem withdraw_proof_accepted empties ws1 ws2 pk ah :
  empties = empty_hashes WITHDRAW_DEPTH →
  (∀ w, w ∈ ws2 → prefix_bits WITHDRAW_DEPTH (key_path w.1) ≠ prefix_bits WITHDRAW_DEPTH (key_path pk)) →
  let tree := withdraw_all (ws1 ++ (pk, ah) :: ws2) in
  l1_verify empties (withdraw_root tree) pk ah (withdraw_prove tree pk) = true.
Proof. intros -> Hw tree. exact (proj2 (withdraw_prove_complete ws1 ws2 pk ah Hw)). Qed.

(** C39: a later withdrawal whose key shares the first 32 path bits overwrites an
    earlier one, whatever was withdrawn before, in between and after: the root is
    the root of a tree the earlier withdrawal was never put in; and when no
    further withdrawal goes to that position, any proof of the earlier one that the
    settlement program accepts exhibits a hash collision. *)
Theorem withdraw_prefix_overwrite ws1 mid ws2 pk1 ah1 pk2 ah2 p :
  length pk1 = 32%nat → length pk2 = 32%nat → pk1 ≠ pk2 →
  prefix_bits WITHDRAW_DEPTH (key_path pk1) = prefix_bits WITHDRAW_DEPTH (key_path pk2) →
  proof_wf p →
  let tree := withdraw_all (ws1 ++ (pk1, ah1) :: mid ++ (pk2, ah2) :: ws2) in
  withdraw_root tree = withdraw_root (withdraw_all (ws1 ++ mid ++ (pk2, ah2) :: ws2)) ∧
  ((∀ w, w ∈ ws2 → prefix_bits WITHDRAW_DEPTH (key_path w.1) ≠ prefix_bits WITHDRAW_DEPTH (key_path pk2)) →
   l1_verify (empty_hashes WITHDRAW_DEPTH) (withdraw_root tree) pk1 ah1 p = true →
   collision_in (verify_messages WITHDRAW_DEPTH pk1 (Some ah1) p
                 ++ verify_messages WITHDRAW_DEPTH pk2 (Some ah2) (withdraw_prove tree pk2))).
Proof.
  intros Hl1 Hl2 Hne Hpre Hp tree. split.
  - unfold tree. rewrite !(withdraw_root_spec _ _ (withdraw_all_presents _)). apply subtree_eq. intros k. unfold as_updates.
    rewrite !fmap_app, !fmap_cons, !fmap_app, !fmap_cons, !set_updates_app, !set_updates_cons, !set_updates_app, !set_updates_cons.
    apply set_updates_ext. intros k'. unfold set_update at 1 3, set_leaf. cbn [fst snd prod_map id]. case_decide as Hk; [done|].
    apply (set_updates_agree _ _ (prefix_bits WITHDRAW_DEPTH (key_path pk2))); [|done].
    intros k2 Hk2. unfold set_update, set_leaf. cbn [fst snd prod_map id]. rewrite decide_False by congruence. done.
  - intros Hw H1.
    destruct (withdraw_prove_complete (ws1 ++ (pk1, ah1) :: mid) ws2 pk2 ah2 Hw) as [Hq H2].
    rewrite <- app_assoc in Hq, H2. cbn [app] in Hq, H2. fold tree in Hq, H2.
    destruct (verify_binds WITHDRAW_DEPTH pk1 pk2 (Some ah1) (Some ah2) p (withdraw_prove tree pk2)
                (withdraw_root tree) Hl1 Hl2 Hpre Hp Hq H1 H2) as [[_ Hpk]|?]; [|done].
    exfalso. by apply Hne, Hpk.
Qed.

(** A withdrawal entered twice in a row leaves the root of one. *)
Lemma withdraw_repeat ws w :
  withdraw_root (withdraw_all (ws ++ [w; w])) = withdraw_root (withdraw_all (ws ++ [w])).
Proof.
  rewrite !(withdraw_root_spec _ _ (withdraw_all_presents _)). apply subtree_eq. intros k. unfold as_updates.
  rewrite !fmap_app, !set_updates_app. cbn [fmap list_fmap]. rewrite !set_updates_cons.
  unfold set_update, set_leaf. cbn. by case_decide.
Qed.

(** The last withdrawal at a position, if there is one. *)
Lemma last_at_position (ws : list (Pubkey * H256)) k :
  (∀ w, w ∈ ws → prefix_bits WITHDRAW_DEPTH (key_path w.1) ≠ k)
  ∨ ∃ ws1 w ws2, ws = ws1 ++ w :: ws2 ∧ prefix_bits WITHDRAW_DEPTH (key_path w.1) = k
      ∧ ∀ w', w' ∈ ws2 → prefix_bits WITHDRAW_DEPTH (key_path w'.1) ≠ k.
Proof.
  induction ws as [|w ws [IH|(ws1 & w' & ws2 & -> & Hw & Hl)]]; [left; set_solver| |].
  - destruct (decide (prefix_bits WITHDRAW_DEPTH (key_path w.1) = k)) as [Heq|Hne].
    + right. exists [], w, ws. done.
    + left. intros w' [->|Hw']%elem_of_cons; [done|by apply IH].
  - right. by exists (w :: ws1), w', ws2.
Qed.

(** The messages hashed when a claimed leaf is compared with a tree of
    withdrawals: by the verification of the claim, of the absence of its key and
    of each withdrawal's own proof. *)
Definition withdraw_messages (ws : list (Pubkey * H256)) (pk : Pubkey) (ah : H256) (p : SmtProof) : list bytes :=
  let tree := withdraw_all ws in
  verify_messages WITHDRAW_DEPTH pk (Some ah) p
  ++ verify_messages WITHDRAW_DEPTH pk None (withdraw_prove tree pk)
  ++ concat ((λ w, verify_messages WITHDRAW_DEPTH w.1 (Some w.2) (withdraw_prove tree w.1)) <$> ws).

Lemma withdraw_messages_mem ws pk ah p w m :
  w ∈ ws →
  m ∈ verify_messages WITHDRAW_DEPTH w.1 (Some w.2) (withdraw_prove (withdraw_all ws) w.1) →
  m ∈ withdraw_messages ws pk ah p.
Proof.
  intros Hw Hm. unfold withdraw_messages. rewrite !elem_of_app. right. right.
  apply list_elem_of_In, in_concat. eexists. split; [|apply list_elem_of_In, Hm].
  apply list_elem_of_In. apply list_elem_of_fmap. by exists w.
Qed.

(** A proof the settlement program accepts against the root of a tree of
    withdrawals is the proof of one of them, or exhibits a collision. *)
Lemma withdraw_proof_sound ws pk ah p :
  length pk = 32%nat → Forall (λ w, length w.1 = 32%nat) ws → proof_wf p →
  let tree := withdraw_all ws in
  l1_verify (empty_hashes WITHDRAW_DEPTH) (withdraw_root tree) pk ah p = true →
  (pk, ah) ∈ ws ∨ collision_in (withdraw_messages ws pk ah p).
Proof.
  intros Hpk Hws Hp tree H.
  destruct (last_at_position ws (prefix_bits WITHDRAW_DEPTH (key_path pk))) as [Hno|(ws1 & w & ws2 & Heq & Hw & Hl)].
  - pose proof (withdraw_all_presents ws) as Hpres. fold tree in Hpres.
    assert (Hwf : proof_wf (withdraw_prove tree pk)).
    { apply withdraw_prove_wf. }
    assert (Hv : verify_result (withdraw_prove tree pk) (withdraw_root tree)
        (verify_loop WITHDRAW_DEPTH (empty_hashes WITHDRAW_DEPTH) (withdraw_prove tree pk) (key_path pk)
           WITHDRAW_DEPTH 0 (leaf_value pk None)) = true).
    { apply (prove_then_verify WITHDRAW_DEPTH withdraw_depth_le _ _ (length_key_path pk)) with
        (L := set_updates WITHDRAW_DEPTH no_leaves (as_updates ws)); [exact Hpres| |by apply withdraw_root_spec].
      symmetry. apply set_updates_other. intros u (w & -> & Hin)%list_elem_of_fmap. by apply Hno. }
    destruct (verify_binds WITHDRAW_DEPTH pk pk (Some ah) None p (withdraw_prove tree pk)
                (withdraw_root tree) Hpk Hpk eq_refl Hp Hwf H Hv) as [[He _]|Hc]; [discriminate He|].
    right. eapply collision_in_mono; [|exact Hc]. intros x. unfold withdraw_messages.
    fold tree. rewrite !elem_of_app. tauto.
  - destruct w as [pk2 ah2]. cbn [fst] in Hw. rewrite <- Hw in Hl.
    destruct (withdraw_prove_complete ws1 ws2 pk2 ah2 Hl) as [Hwf Hv]. rewrite <- Heq in Hwf, Hv.
    fold tree in Hwf, Hv.
    assert (Hpk2 : length pk2 = 32%nat).
    { rewrite list.Forall_forall in Hws. apply (Hws (pk2, ah2)). rewrite Heq. apply elem_of_app. right. left. }
    destruct (verify_binds WITHDRAW_DEPTH pk pk2 (Some ah) (Some ah2) p (withdraw_prove tree pk2)
                (withdraw_root tree) Hpk Hpk2 (eq_sym Hw) Hp Hwf H Hv) as [[Hah Hpp]|Hc].
    + left. injection Hah as ->. rewrite (Hpp ltac:(discriminate)), Heq. apply elem_of_app. right. left.
    + right. eapply collision_in_mono; [|exact Hc]. intros x [Hx|Hx]%elem_of_app.
      * unfold withdraw_messages. rewrite !elem_of_app. tauto.
      * apply (withdraw_messages_mem ws pk ah p (pk2, ah2)); [|exact Hx].
        rewrite Heq. apply elem_of_app. right. left.
Qed.

End Props.

(** ** Witnesses *)

Module Example.
#[local] Existing Instance Toy.blake3_toy.

Definition pk (n : Z) : Pubkey := le_bytes 32 n.

Definition batches : list (list LeafUpdate) :=
  [[(pk 1, Some (pk 11)); (pk 2, Some (pk 12))]; [(pk 1, None); (pk 3, Some (pk 13))]].

Lemma apply_updates_refines_witness :
  new_root (apply_updates (λ k, (∅ : gmap NodeKey H256) !! k) [(pk 1, Some (pk 11))])
  = subtree (set_updates SMT_DEPTH no_leaves [(pk 1, Some (pk 11))]) SMT_DEPTH [].
Proof.
  refine (proj1 (apply_updates_refines ∅ no_leaves [(pk 1, Some (pk 11))] _)).
  intros d p Hd Hp. rewrite lookup_empty. exact (empty_source_presents SMT_DEPTH d p Hd Hp).
Defined.

Lemma state_proof_complete_witness :
  let table := fold_left commit_nodes batches ∅ in
  verify (table_root table) (pk 1) None (prove (λ k, table !! k) (pk 1)) = true.
Proof.
  refine (state_proof_complete batches (pk 1) _).
  intros u Hu. apply list_elem_of_In in Hu.
  repeat (destruct Hu as [<-|Hu]; [intros H; first [reflexivity|exfalso; revert H; vm_compute; discriminate]|]).
  destruct Hu.
Defined.

Definition example_batches : list (list LeafUpdate) := [[(pk 3, Some (pk 13))]].
Definition example_table := fold_left commit_nodes example_batches ∅.
Definition example_proof := prove (λ k, example_table !! k) (pk 3).

Lemma example_history :
  proof_wf example_proof ∧
  verify (table_root example_table) (pk 3) (last_update (pk 3) (concat example_batches))
    example_proof = true.
Proof.
  assert (Hu : ∀ u, u ∈ concat example_batches → key_path u.1 = key_path (pk 3) → u.1 = pk 3)
    by (intros u ->%list_elem_of_singleton _; reflexivity).
  unfold example_proof, example_table. exact (history_proof example_batches (pk 3) Hu).
Qed.

Lemma example_last : last_update (pk 3) (concat example_batches) = Some (pk 13).
Proof. unfold last_update. cbn [concat app example_batches fold_left]. by rewrite decide_True. Qed.

Lemma state_proof_sound_witness :
  Some (pk 13) = Some (pk 13) ∨
  collision_in (verify_messages SMT_DEPTH (pk 3) (Some (pk 13)) example_proof
                ++ verify_messages SMT_DEPTH (pk 3) (Some (pk 13)) example_proof).
Proof.
  destruct example_history as [Hwf Hv]. rewrite example_last in Hv.
  exact (state_proof_sound (table_root example_table) (pk 3) (Some (pk 13)) (Some (pk 13))
           example_proof example_proof eq_refl Hwf Hwf Hv Hv).
Defined.

Lemma root_order_independent_witness :
  table_root (fold_left commit_nodes [[(pk 1, Some (pk 11)); (pk 2, None)]] ∅)
  = table_root (fold_left commit_nodes [[(pk 2, None)]; [(pk 1, Some (pk 11))]] ∅).
Proof.
  refine (root_order_independent [[(pk 1, Some (pk 11)); (pk 2, None)]]
            [[(pk 2, None)]; [(pk 1, Some (pk 11))]] _ _).
  - cbn [concat app]. apply Permutation_swap.
  - apply (bool_decide_eq_true (NoDup _)). vm_compute. reflexivity.
Defined.

Lemma delete_restores_root_witness :
  table_root (fold_left commit_nodes (batches ++ [[(pk 4, Some (pk 14))]; [(pk 4, None)]]) ∅)
  = table_root (fold_left commit_nodes batches ∅).
Proof.
  refine (delete_restores_root batches (pk 4) (pk 14) _).
  intros u Hu. apply list_elem_of_In in Hu.
  repeat (destruct Hu as [<-|Hu]; [vm_compute; discriminate|]). destruct Hu.
Defined.

Lemma withdraw_proof_accepted_witness :
  let tree := withdraw_all [(pk 1, pk 11); (pk 2, pk 12)] in
  l1_verify (empty_hashes WITHDRAW_DEPTH) (withdraw_root tree) (pk 1) (pk 11)
    (withdraw_prove tree (pk 1)) = true.
Proof.
  refine (withdraw_proof_accepted (empty_hashes WITHDRAW_DEPTH) [] [(pk 2, pk 12)]
            (pk 1) (pk 11) eq_refl _).
  intros w ->%list_elem_of_singleton. vm_compute. discriminate.
Defined.

(** Two keys whose paths agree on 32 bits. *)
Definition twin1 : Pubkey :=
  pk 74077020344220578573698571206732620820485252624173592946441684681131980876064.
Definition twin2 : Pubkey :=
  pk 23931714986782846980191023413086556846406047172813409568552771630103963210092.

Lemma withdraw_prefix_overwrite_witness :
  withdraw_root (withdraw_all [(twin1, pk 11); (pk 7, pk 14); (twin2, pk 12); (pk 5, pk 13)])
  = withdraw_root (withdraw_all [(pk 7, pk 14); (twin2, pk 12); (pk 5, pk 13)]).
Proof.
  refine (proj1 (withdraw_prefix_overwrite [] [(pk 7, pk 14)] [(pk 5, pk 13)] twin1 (pk 11) twin2 (pk 12)
            empty_proof _ _ _ _ _)).
  - vm_compute; reflexivity.
  - vm_compute; reflexivity.
  - vm_compute; discriminate.
  - vm_compute; reflexivity.
  - constructor.
Defined.
End Example.
