(* ===== verification/L1Smt.v ===== *)
(** * The settlement program's copy of the tree

    Models [programs/programs/zul-settlement/src/smt.rs], which keeps its own
    hashing, path and verification code, reads the empty-subtree hashes from a
    table embedded from [empties.bin], and has to stay byte-for-byte identical to
    the node's [withdraw_smt.rs], whose table of empty hashes is modelled here
    too. [blake3] over successive [update]s is its digest of the concatenation.

    The theorem is that identity: with the table the program's own generator
    writes, its verifier is the node's, on every input; with any table of the
    size the type fixes it never indexes out of range and is the [l1_verify] the
    other files reason with. *)

From S2P Require Import Prelude External Hash Paths Smt SmtFacts.

(** [chunks_exact(n)]: the remainder is left out. *)
Definition chunks_exact {A} (n : nat) (l : list A) : list (list A) :=
  filter (λ c, length c = n) (chunks n l).

(** ** Constants of the program *)

Definition PROGRAM_SMT_DEPTH : nat := 32.
Definition PROGRAM_LEAF_DOMAIN : bytes := bstr "PL2:smt:leaf".
Definition PROGRAM_NODE_DOMAIN : bytes := bstr "PL2:smt:node".
Definition PROGRAM_EMPTY_DOMAIN : bytes := bstr "PL2:smt:empty".
Definition PROGRAM_KEY_DOMAIN : bytes := bstr "PL2:smt:key".

Section L1Smt.
Context `{B3 : Blake3}.

Definition hashv (slices : list bytes) : H256 := blake3 (concat slices).
Definition program_node_hash (left right : H256) : H256 := hashv [PROGRAM_NODE_DOMAIN; left; right].
Definition program_key_path (pubkey : Pubkey) : H256 := hashv [PROGRAM_KEY_DOMAIN; pubkey].
Definition program_leaf_hash (pubkey : Pubkey) (account_hash : H256) : H256 :=
  hashv [PROGRAM_LEAF_DOMAIN; pubkey; account_hash].

(** [table] is [EMPTIES]. *)
Definition program_empty_hashes (table : bytes) : list H256 := chunks_exact 32 table.

(** The loop [while d > 0 { d -= 1; e[d] = node_hash(&e[d + 1], &e[d + 1]); }]. *)
Fixpoint fill_empties (d : nat) (e : list H256) : list H256 :=
  match d with
  | O => e
  | S d' => fill_empties d' (<[d' := program_node_hash (e !!! d) (e !!! d)]> e)
  end.

Definition compute_empty_hashes : list H256 :=
  fill_empties PROGRAM_SMT_DEPTH
    (<[PROGRAM_SMT_DEPTH := hashv [PROGRAM_EMPTY_DOMAIN; []]]> (replicate (S PROGRAM_SMT_DEPTH) ZERO_HASH)).

(** [empties] of the node's withdrawals tree. *)
Definition withdraw_empties : list H256 :=
  fold_left (λ e d, <[d := node_hash (e !!! S d) (e !!! S d)]> e) (reverse (seq 0 WITHDRAW_DEPTH))
    (<[WITHDRAW_DEPTH := blake3_32 EMPTY_DOMAIN []]> (replicate (S WITHDRAW_DEPTH) ZERO_HASH)).

(** A bit of a byte array, indexed as the source does. *)
Definition bit_at (l : bytes) (bit : nat) : outcome () bool :=
  let? b := or_panic (l !! (bit / 8)%nat) in
  Ok (Z.eqb (Z.land (Z.shiftr (Z_of_byte b) (7 - Z.of_nat (bit mod 8))) 1) 1).

(** One iteration of the loop of [verify]; an error is the early [return false]. *)
Definition verify_step (empties : list H256) (proof : SmtProof) (path : H256) (st : nat * H256) (i : nat)
    : outcome () (nat * H256) :=
  let '(cursor, current) := st in
  let depth := (PROGRAM_SMT_DEPTH - i)%nat in
  let bit := (depth - 1)%nat in
  let? present := bit_at (bitmap proof) i in
  let? next := (if present
                then let? s := ok_or (siblings proof !! cursor) () in Ok (S cursor, s)
                else let? s := or_panic (empties !! depth) in Ok (cursor, s)) in
  let '(cursor, sibling) := next in
  let? is_right := bit_at path bit in
  Ok (cursor, if is_right then program_node_hash sibling current else program_node_hash current sibling).

Definition program_verify (table : bytes) (root : H256) (pubkey : Pubkey) (account_hash : H256) (proof : SmtProof)
    : outcome () bool :=
  let empties := program_empty_hashes table in
  let path := program_key_path pubkey in
  match ofold (verify_step empties proof path) (0%nat, program_leaf_hash pubkey account_hash) (seq 0 PROGRAM_SMT_DEPTH) with
  | Ok (cursor, current) =>
      Ok (bool_decide (cursor = length (siblings proof)) && bool_decide (current = root))
  | Err _ => Ok false
  | Panic => Panic
  end.

(** ** Hashes and tables *)

Lemma program_hashes_agree pubkey a b :
  program_node_hash a b = node_hash a b ∧ program_key_path pubkey = key_path pubkey
  ∧ program_leaf_hash pubkey a = leaf_hash pubkey a.
Proof.
  unfold program_node_hash, program_key_path, program_leaf_hash, hashv, node_hash, key_path, leaf_hash, blake3_32, blake3_concat.
  cbn [concat]. by rewrite !app_nil_r.
Qed.

Lemma fill_empties_spec D d :
  (d ≤ D)%nat → fill_empties d (replicate d ZERO_HASH ++ empty_hashes (D - d)) = empty_hashes D.
Proof.
  induction d as [|d IH]; intros Hd; [by rewrite Nat.sub_0_r|]. cbn [fill_empties].
  rewrite lookup_total_app_r by (rewrite length_replicate; lia). rewrite length_replicate, Nat.sub_diag.
  rewrite (proj1 (program_hashes_agree [] _ _)), replicate_S_end, <- app_assoc.
  rewrite insert_app_r_alt by (rewrite length_replicate; lia). rewrite length_replicate, Nat.sub_diag.
  cbn [app]. rewrite <- IH at 1 by lia. by replace (D - d)%nat with (S (D - S d)) by lia.
Qed.

Lemma blank_table D x : <[D := x]> (replicate (S D) ZERO_HASH) = replicate D ZERO_HASH ++ [x].
Proof.
  rewrite replicate_S_end, insert_app_r_alt by (rewrite length_replicate; lia).
  by rewrite length_replicate, Nat.sub_diag.
Qed.

Lemma compute_empty_hashes_spec : compute_empty_hashes = empty_hashes WITHDRAW_DEPTH.
Proof.
  unfold compute_empty_hashes. rewrite blank_table. change PROGRAM_SMT_DEPTH with WITHDRAW_DEPTH.
  rewrite <- (fill_empties_spec WITHDRAW_DEPTH WITHDRAW_DEPTH) by apply Nat.le_refl. by rewrite Nat.sub_diag.
Qed.

Lemma fill_fold d e :
  fold_left (λ e d, <[d := node_hash (e !!! S d) (e !!! S d)]> e) (reverse (seq 0 d)) e = fill_empties d e.
Proof.
  revert e; induction d as [|d IH]; intros e; [done|].
  rewrite seq_S, reverse_app. cbn [reverse rev_append app fold_left fill_empties Nat.add].
  apply IH.
Qed.

Lemma withdraw_empties_spec : withdraw_empties = empty_hashes WITHDRAW_DEPTH.
Proof.
  unfold withdraw_empties. rewrite fill_fold, blank_table.
  rewrite <- (fill_empties_spec WITHDRAW_DEPTH WITHDRAW_DEPTH) by apply Nat.le_refl. by rewrite Nat.sub_diag.
Qed.

Lemma chunks_concat_exact {A} n (ls : list (list A)) fuel :
  (0 < n)%nat → Forall (λ c, length c = n) ls → (length (concat ls) ≤ fuel)%nat → chunks_fuel fuel n (concat ls) = ls.
Proof.
  intros Hn Hls. revert fuel. induction Hls as [|c ls Hc _ IH]; intros fuel Hf; [by destruct fuel|].
  rewrite concat_cons in *. rewrite length_app in Hf. destruct fuel as [|fuel]; [lia|]. cbn [chunks_fuel].
  destruct c as [|x c]; [cbn in Hc; lia|]. cbn [app]. rewrite app_comm_cons, take_app_length', drop_app_length' by done.
  f_equal. apply IH. cbn in Hf. lia.
Qed.

Lemma chunks_exact_concat {A} n (ls : list (list A)) :
  (0 < n)%nat → Forall (λ c, length c = n) ls → chunks_exact n (concat ls) = ls.
Proof.
  intros Hn Hls. unfold chunks_exact, chunks. rewrite chunks_concat_exact by done.
  induction Hls as [|c ls Hc _ IH]; [done|]. by rewrite filter_cons_True, IH.
Qed.

Lemma empties_typed D : Forall (λ h, length h = 32%nat) (empty_hashes D).
Proof. induction D as [|D IH]; cbn [empty_hashes]; constructor; try done; apply blake3_length. Qed.

(** The table the program's generator writes is read back. *)
Lemma table_reads : program_empty_hashes (concat compute_empty_hashes) = empty_hashes WITHDRAW_DEPTH.
Proof. rewrite compute_empty_hashes_spec. apply chunks_exact_concat; [lia|apply empties_typed]. Qed.

(** ** The verifier *)

Lemma bit_at_path l bit : (bit < 8 * length l)%nat → bit_at l bit = Ok (path_bit l bit).
Proof.
  intros Hb. unfold bit_at, path_bit. assert (Hlt : (bit / 8 < length l)%nat) by (apply Nat.Div0.div_lt_upper_bound; lia).
  apply lookup_lt_is_Some in Hlt as [b Hb']. rewrite (list_lookup_total_correct _ _ _ Hb'), Hb'. done.
Qed.

Definition loop_result (r : option (nat * H256)) : outcome () (nat * H256) := ok_or r ().

Lemma verify_steps empties proof path depth cursor current :
  length empties = S WITHDRAW_DEPTH → length (bitmap proof) = 32%nat → length path = 32%nat → (depth ≤ WITHDRAW_DEPTH)%nat →
  ofold (verify_step empties proof path) (cursor, current) (seq (WITHDRAW_DEPTH - depth) depth)
  = loop_result (verify_loop WITHDRAW_DEPTH empties proof path depth cursor current).
Proof.
  intros He Hb Hp. revert cursor current. induction depth as [|depth IH]; intros cursor current Hd; [done|].
  cbn [seq ofold verify_loop]. unfold verify_step at 1. change PROGRAM_SMT_DEPTH with WITHDRAW_DEPTH.
  replace (S (WITHDRAW_DEPTH - S depth)) with (WITHDRAW_DEPTH - depth)%nat by lia.
  replace (WITHDRAW_DEPTH - (WITHDRAW_DEPTH - S depth))%nat with (S depth) by lia.
  rewrite Nat.sub_succ, Nat.sub_0_r.
  rewrite !bit_at_path by (rewrite ?Hb, ?Hp; unfold WITHDRAW_DEPTH in *; lia). cbn [obind].
  destruct (path_bit (bitmap proof) _).
  - destruct (siblings proof !! cursor) as [s|]; [|done]. cbn [ok_or obind].
    rewrite !(proj1 (program_hashes_agree [] _ _)). apply IH. lia.
  - assert (Hlt : (S depth < length empties)%nat) by lia. apply lookup_lt_is_Some in Hlt as [s Hs].
    rewrite Hs. cbn [or_panic obind]. rewrite !(proj1 (program_hashes_agree [] _ _)).
    rewrite IH by lia. unfold combine_bit. by rewrite (list_lookup_total_correct _ _ _ Hs).
Qed.

Lemma split_chunks {A} n k (l : list A) :
  length l = (n * k)%nat → ∃ ls, l = concat ls ∧ length ls = k ∧ Forall (λ c, length c = n) ls.
Proof.
  revert l; induction k as [|k IH]; intros l Hl.
  - exists []. rewrite Nat.mul_0_r in Hl. by apply nil_length_inv in Hl as ->.
  - destruct (IH (drop n l)) as (ls & Hd & Hk & Hls); [rewrite length_drop; lia|].
    exists (take n l :: ls). split_and!; [|by cbn; rewrite Hk|].
    + by rewrite concat_cons, <- Hd, take_drop.
    + constructor; [|done]. rewrite length_take. lia.
Qed.

Lemma table_length table :
  length table = (32 * S WITHDRAW_DEPTH)%nat → length (program_empty_hashes table) = S WITHDRAW_DEPTH.
Proof.
  intros (ls & -> & Hk & Hls)%split_chunks. unfold program_empty_hashes. by rewrite chunks_exact_concat by (lia || done).
Qed.

(** With a table of the size of [EMPTIES] the program's verifier returns, and what
    it returns is [l1_verify]. *)
Lemma program_verify_spec table root pubkey ah proof :
  length (program_empty_hashes table) = S WITHDRAW_DEPTH → length (bitmap proof) = 32%nat →
  program_verify table root pubkey ah proof = Ok (l1_verify (program_empty_hashes table) root pubkey ah proof).
Proof.
  intros Ht Hb. unfold program_verify, l1_verify. change PROGRAM_SMT_DEPTH with WITHDRAW_DEPTH.
  destruct (program_hashes_agree pubkey ah []) as (_ & -> & ->).
  pose proof (verify_steps (program_empty_hashes table) proof (key_path pubkey) WITHDRAW_DEPTH 0 (leaf_hash pubkey ah)
                Ht Hb (blake3_length _) (Nat.le_refl _)) as H.
  rewrite Nat.sub_diag in H. rewrite H. by destruct (verify_loop _ _ _ _ _ _ _) as [[c h]|].
Qed.

(** C15: the settlement program verifies what the node proves. On every root, account
    and proof its verifier returns without a panic the result of [l1_verify] for
    whatever table is embedded; with the table its own generator writes, it reads
    back exactly the node's empty hashes and gives the answer of the node's own
    verifier. *)
Theorem program_verifier_agrees table root pubkey ah proof :
  length table = (32 * S WITHDRAW_DEPTH)%nat → length (bitmap proof) = 32%nat →
  program_verify table root pubkey ah proof = Ok (l1_verify (program_empty_hashes table) root pubkey ah proof)
  ∧ (table = concat compute_empty_hashes →
     program_empty_hashes table = withdraw_empties
     ∧ program_verify table root pubkey ah proof = Ok (withdraw_verify root pubkey ah proof)).
Proof.
  intros Ht Hb. rewrite program_verify_spec by (done || by apply table_length). split; [done|].
  intros ->. rewrite table_reads, withdraw_empties_spec. split; reflexivity.
Qed.

Lemma length_table : length (concat compute_empty_hashes) = (32 * S WITHDRAW_DEPTH)%nat.
Proof.
  rewrite compute_empty_hashes_spec, <- (length_empty_hashes WITHDRAW_DEPTH).
  induction (empties_typed WITHDRAW_DEPTH) as [|h hs Hh _ IH]; [done|]. rewrite concat_cons, length_app, Hh. cbn. lia.
Qed.
End L1Smt.

Module Example.
#[local] Existing Instance Toy.blake3_toy.

Definition pk (n : Z) : Pubkey := le_bytes 32 n.
Definition tree : gmap NodeKey H256 := withdraw_apply (withdraw_apply ∅ (pk 1) (pk 11)) (pk 2) (pk 12).

(** A proof of the node, accepted by the program over its own table. *)
Lemma program_verifier_agrees_witness :
  program_verify (concat compute_empty_hashes) (withdraw_root tree) (pk 1) (pk 11) (withdraw_prove tree (pk 1)) = Ok true.
Proof.
  assert (Hb : length (bitmap (withdraw_prove tree (pk 1))) = 32%nat) by (vm_cast_no_check (@eq_refl nat 32%nat)).
  destruct (program_verifier_agrees _ (withdraw_root tree) (pk 1) (pk 11) _ length_table Hb) as [_ H].
  etrans; [exact (proj2 (H eq_refl))|]. vm_cast_no_check (@eq_refl (outcome () bool) (Ok true)).
Defined.
End Example.
