(* ===== verification/Merkle.v ===== *)
(** * The per-block transactions tree

    Models [chain/zul-primitives/src/merkle.rs]: a binary blake3 tree in which
    an odd node is promoted unchanged. The loop halves the level, so the number
    of leaves is enough fuel. Main fact: a root and a leaf count determine the
    leaves, up to a collision among the messages hashed to compute the root. *)

From S2P Require Import Prelude External Hash.

Module Merkle.

Definition LEAF_DOMAIN : bytes := bstr "PL2:merkle:leaf".
Definition NODE_DOMAIN : bytes := bstr "PL2:merkle:node".
Definition EMPTY_DOMAIN : bytes := bstr "PL2:merkle:empty".

Section Merkle.
Context `{B3 : Blake3}.

Definition leaf_hash (data : bytes) : H256 := blake3_32 LEAF_DOMAIN data.

Definition empty_root : H256 := blake3_32 EMPTY_DOMAIN [].

(** One pass over [level.chunks(2)]. *)
Fixpoint next_level (level : list H256) : list H256 :=
  match level with
  | a :: b :: rest => blake3_concat NODE_DOMAIN [a; b] :: next_level rest
  | [a] => [a]
  | [] => []
  end.

(** [while level.len() > 1], then [level[0]]. *)
Fixpoint reduce (fuel : nat) (level : list H256) : option H256 :=
  match level with
  | [] => None
  | [a] => Some a
  | _ => match fuel with
         | O => None
         | S fuel => reduce fuel (next_level level)
         end
  end.

Definition root_from_leaves (leaves : list H256) : H256 :=
  match leaves with
  | [] => empty_root
  | _ => default [] (reduce (length leaves) leaves)
  end.

Definition root_from_data (items : list bytes) : H256 :=
  root_from_leaves (leaf_hash <$> items).

(** The messages hashed for one level, and for the whole tree. *)
Fixpoint level_inputs (level : list H256) : list bytes :=
  match level with
  | a :: b :: rest => (NODE_DOMAIN ++ a ++ b) :: level_inputs rest
  | _ => []
  end.

Fixpoint tree_inputs (fuel : nat) (level : list H256) : list bytes :=
  match fuel with
  | O => []
  | S fuel => level_inputs level ++ tree_inputs fuel (next_level level)
  end.

Definition data_inputs (items : list bytes) : list bytes :=
  ((LEAF_DOMAIN ++.) <$> items) ++ tree_inputs (length items) (leaf_hash <$> items).

(** Induction two elements at a time. *)
Lemma pair_ind (P : list H256 → Prop) :
  P [] → (∀ a, P [a]) → (∀ a b l, P l → P (a :: b :: l)) → ∀ l, P l.
Proof.
  intros H0 H1 H2. assert (∀ l, P l ∧ ∀ a, P (a :: l)) as H; [|apply H].
  induction l as [|b l [IH1 IH2]]; split; auto.
Qed.

Lemma next_level_bound l :
  (2 * length (next_level l) ≤ S (length l) ∧ length l ≤ 2 * length (next_level l))%nat.
Proof. induction l as [| |a b l IH] using pair_ind; simpl; lia. Qed.

(** The loop always ends: the number of leaves is enough fuel. *)
Lemma reduce_total fuel l :
  (length l ≤ S fuel)%nat → l ≠ [] → ∃ r, reduce fuel l = Some r.
Proof.
  revert l. induction fuel as [|fuel IH]; intros [|a [|b l]] Hl Hne; simpl in *; eauto; try lia; try done.
  apply IH; [|done]. pose proof (next_level_bound l). simpl. lia.
Qed.

Lemma next_level_wf l :
  Forall (λ h, length h = 32%nat) l → Forall (λ h, length h = 32%nat) (next_level l).
Proof.
  induction l as [| |a b l IH] using pair_ind; simpl; intros H; [done|done|].
  inversion_clear H as [|? ? ? H']. inversion_clear H'. constructor; [apply blake3_length|auto].
Qed.

Lemma reduce_wf fuel : ∀ l r,
  Forall (λ h, length h = 32%nat) l → reduce fuel l = Some r → length r = 32%nat.
Proof.
  induction fuel as [|fuel IH]; intros [|a [|b l]] r Hl; cbn [reduce]; try done.
  1,2: intros [= <-]; by inversion_clear Hl.
  by apply IH, next_level_wf.
Qed.

Lemma root_from_data_length items : length (root_from_data items) = 32%nat.
Proof.
  unfold root_from_data, root_from_leaves. destruct items as [|x items]; [apply blake3_32_length|].
  set (l := leaf_hash <$> x :: items).
  assert (Hl : Forall (λ h, length h = 32%nat) l) by (apply Forall_fmap, Forall_true; intros; apply blake3_32_length).
  destruct (reduce_total (length l) l) as [r Hr]; [lia|done|]. change (leaf_hash x :: _) with l. rewrite Hr.
  by eapply reduce_wf.
Qed.

Lemma next_level_inj l1 : ∀ l2,
  length l1 = length l2 →
  Forall (λ h, length h = 32%nat) l1 → Forall (λ h, length h = 32%nat) l2 →
  next_level l1 = next_level l2 →
  l1 = l2 ∨ collision_in (level_inputs l1 ++ level_inputs l2).
Proof.
  induction l1 as [| |a b l IH] using pair_ind; intros l2 Hlen H1 H2 Heq;
    destruct l2 as [|a' [|b' l']]; simpl in Hlen; try lia; auto.
  cbn [next_level] in Heq. injection Heq as Hh Ht.
  inversion_clear H1 as [|? ? Ha Hb]; inversion_clear Hb as [|? ? Hb' Hl].
  inversion_clear H2 as [|? ? Ha' Hx]; inversion_clear Hx as [|? ? Hb'' Hl'].
  unfold blake3_concat in Hh. cbn [concat] in Hh. rewrite !app_nil_r in Hh.
  apply blake3_eq in Hh as [Hh|Hc].
  - apply app_inv_head in Hh. apply app_inj_len in Hh as [-> ->]; [|congruence].
    destruct (IH l') as [->|Hc]; auto; [lia|right].
    eapply collision_in_mono; [|done]. cbn [level_inputs]. set_solver.
  - right. eapply collision_in_mono; [|done]. cbn [level_inputs]. set_solver.
Qed.

Lemma reduce_inj fuel : ∀ l1 l2 r,
  (length l1 ≤ S fuel)%nat → length l1 = length l2 →
  Forall (λ h, length h = 32%nat) l1 → Forall (λ h, length h = 32%nat) l2 →
  reduce fuel l1 = Some r → reduce fuel l2 = Some r →
  l1 = l2 ∨ collision_in (tree_inputs fuel l1 ++ tree_inputs fuel l2).
Proof.
  induction fuel as [|fuel IH]; intros l1 l2 r Hf Hlen H1 H2 R1 R2;
    destruct l1 as [|a1 [|b1 l1]], l2 as [|a2 [|b2 l2]]; simpl in Hlen, Hf; try lia; auto;
    try (simpl in R1, R2; left; congruence); try discriminate.
  set (L1 := a1 :: b1 :: l1) in *. set (L2 := a2 :: b2 :: l2) in *.
  assert (Hn : length (next_level L1) = length (next_level L2)).
  { pose proof (next_level_bound L1). pose proof (next_level_bound L2).
    assert (length L1 = length L2) by (simpl; lia). lia. }
  destruct (IH (next_level L1) (next_level L2) r) as [Heq|Hc]; auto using next_level_wf.
  { pose proof (next_level_bound L1). simpl in *. lia. }
  - apply next_level_inj in Heq as [?|Hc]; [by left|right|simpl; lia|done|done].
    eapply collision_in_mono; [|done]. cbn [tree_inputs]. set_solver.
  - right. eapply collision_in_mono; [|done]. cbn [tree_inputs]. set_solver.
Qed.

Lemma leaf_hashes_wf items : Forall (λ h, length h = 32%nat) (leaf_hash <$> items).
Proof. apply Forall_fmap, Forall_true. intros. apply blake3_length. Qed.

Lemma leaf_hashes_inj items1 : ∀ items2,
  leaf_hash <$> items1 = leaf_hash <$> items2 →
  items1 = items2 ∨ collision_in (((LEAF_DOMAIN ++.) <$> items1) ++ ((LEAF_DOMAIN ++.) <$> items2)).
Proof.
  induction items1 as [|x items1 IH]; intros [|y items2] H; try discriminate; [by left|].
  rewrite !fmap_cons in H. injection H as Hh Ht.
  apply blake3_eq in Hh as [Hh|Hc].
  - apply app_inv_head in Hh as ->. destruct (IH _ Ht) as [->|Hc]; [by left|right].
    eapply collision_in_mono; [|done]. rewrite !fmap_cons. set_solver.
  - right. eapply collision_in_mono; [|done]. rewrite !fmap_cons. set_solver.
Qed.

(** Equal counts and equal roots: equal items, or a collision. *)
Lemma root_from_data_binds items1 items2 :
  length items1 = length items2 → root_from_data items1 = root_from_data items2 →
  items1 = items2 ∨ collision_in (data_inputs items1 ++ data_inputs items2).
Proof.
  intros Hlen Heq. destruct items1 as [|x l1]; [destruct items2; [by left|done]|].
  destruct items2 as [|y l2]; [done|].
  set (I1 := x :: l1) in *. set (I2 := y :: l2) in *.
  assert (Hl : ∀ I, length (leaf_hash <$> I) = length I) by (intros; apply length_fmap).
  destruct (reduce_total (length I1) (leaf_hash <$> I1)) as [r1 R1]; [rewrite Hl; lia|done|].
  destruct (reduce_total (length I2) (leaf_hash <$> I2)) as [r2 R2]; [rewrite Hl; lia|done|].
  assert (E1 : root_from_data I1 = r1).
  { change (root_from_data I1) with (default [] (reduce (length (leaf_hash <$> I1)) (leaf_hash <$> I1))).
    by rewrite Hl, R1. }
  assert (E2 : root_from_data I2 = r2).
  { change (root_from_data I2) with (default [] (reduce (length (leaf_hash <$> I2)) (leaf_hash <$> I2))).
    by rewrite Hl, R2. }
  subst r1 r2. rewrite <- Hlen in R2. rewrite <- Heq in R2.
  destruct (reduce_inj (length I1) (leaf_hash <$> I1) (leaf_hash <$> I2) _ ltac:(rewrite Hl; lia) ltac:(rewrite !Hl; done)
              (leaf_hashes_wf I1) (leaf_hashes_wf I2) R1 R2) as [Hh|Hc].
  - destruct (leaf_hashes_inj _ _ Hh) as [?|Hc]; [by left|right].
    eapply collision_in_mono; [|done]. unfold data_inputs. set_solver.
  - right. eapply collision_in_mono; [|done]. unfold data_inputs. rewrite <- Hlen. set_solver.
Qed.

End Merkle.
End Merkle.
