(* ===== verification/Block.v ===== *)
(** * Blocks, headers and execution metadata

    Models [chain/zul-primitives/src/block.rs] and [meta.rs]. The header hash is
    the L2 blockhash; a verified block is determined by it. *)

From S2P Require Import Prelude External Hash Merkle.

Definition HEADER_DOMAIN : bytes := bstr "PL2:block:header:v1".

Record BlockHeader := {
  slot : Z;
  parent_hash : H256;
  state_root : H256;
  transactions_root : H256;
  timestamp_ms : Z;
  transaction_count : Z;
}.

#[global] Instance BlockHeader_eq_dec : EqDecision BlockHeader.
Proof. solve_decision. Defined.
#[global] Instance BlockHeader_countable : Countable BlockHeader.
Proof.
  refine (inj_countable'
    (λ h, (slot h, parent_hash h, state_root h, transactions_root h, timestamp_ms h, transaction_count h))
    (λ '(a, b, c, d, e, f), Build_BlockHeader a b c d e f) _).
  by intros [].
Defined.

(** The status is [Result<(), TransactionError>]. *)
Record ExecutedTransactionMeta := {
  status : TransactionError + ();
  fee : Z;
  compute_units_consumed : Z;
  log_messages : list bytes;
  pre_balances : list Z;
  post_balances : list Z;
}.

Definition is_success (m : ExecutedTransactionMeta) : bool :=
  match status m with inr _ => true | inl _ => false end.

Section Block.
Context `{B3 : Blake3} `{ED : Ed25519} `{TX : SolanaTx}.
Context `{!Bincode BlockHeader} `{!Bincode VersionedTransaction}.

Definition header_bytes (h : BlockHeader) : bytes := HEADER_DOMAIN ++ serialize h.

Definition header_hash (h : BlockHeader) : H256 := blake3_32 HEADER_DOMAIN (serialize h).

(** [Hash::new_from_array] keeps the bytes. *)
Definition blockhash (h : BlockHeader) : H256 := header_hash h.

Record Block := {
  header : BlockHeader;
  transactions : list VersionedTransaction;
  sequencer_signature : Signature;
}.

Definition transactions_root_of (txs : list VersionedTransaction) : H256 :=
  Merkle.root_from_data (serialize <$> txs).

(** The two [debug_assert]s are absent from a release build. *)
Definition seal (h : BlockHeader) (txs : list VersionedTransaction) (sequencer : Keypair) : Block :=
  {| header := h;
     transactions := txs;
     sequencer_signature := sign_message sequencer (header_hash h) |}.

Definition verify_block (b : Block) (sequencer : Pubkey) : bool :=
  if decide (transaction_count (header b) ≠ Z.of_nat (length (transactions b))) then false
  else if decide (transactions_root (header b) ≠ transactions_root_of (transactions b)) then false
  else sig_verify (sequencer_signature b) sequencer (header_hash (header b)).

(** The messages hashed when a block is verified. *)
Definition block_inputs (b : Block) : list bytes :=
  header_bytes (header b) :: Merkle.data_inputs (serialize <$> transactions b).

Lemma verify_block_true b s :
  verify_block b s = true ↔
  transaction_count (header b) = Z.of_nat (length (transactions b)) ∧
  transactions_root (header b) = transactions_root_of (transactions b) ∧
  sig_verify (sequencer_signature b) s (header_hash (header b)) = true.
Proof.
  unfold verify_block.
  destruct (decide (transaction_count _ ≠ _)); [naive_solver|].
  destruct (decide (transactions_root _ ≠ _)); [naive_solver|].
  split; [|naive_solver]. intros. repeat split; try done; by apply dec_stable.
Qed.

(** A block sealed over a header that commits to its body verifies under
    the sequencer's key. *)
Theorem seal_verifies h txs kp :
  transaction_count h = Z.of_nat (length txs) → transactions_root h = transactions_root_of txs →
  verify_block (seal h txs kp) (pubkey_of kp) = true.
Proof.
  intros Hc Hr. apply verify_block_true. repeat split; [done|done|apply sig_verify_sign].
Qed.

(** C19: two verified blocks with one blockhash have the same header and the
    same transactions in the same order, or two of the messages hashed while
    verifying them collide. *)
Theorem blockhash_binds_block b1 b2 s1 s2 :
  verify_block b1 s1 = true → verify_block b2 s2 = true →
  blockhash (header b1) = blockhash (header b2) →
  (header b1 = header b2 ∧ transactions b1 = transactions b2)
  ∨ collision_in (block_inputs b1 ++ block_inputs b2).
Proof.
  intros (Hc1 & Hr1 & _)%verify_block_true (Hc2 & Hr2 & _)%verify_block_true Hh.
  apply blake3_eq in Hh as [Hh|Hc].
  2: { right. eapply collision_in_mono; [|done]. unfold block_inputs, header_bytes. set_solver. }
  apply app_inv_head, serialize_inj in Hh. rewrite <- Hh in Hc2, Hr2.
  rewrite Hr1 in Hr2. apply Merkle.root_from_data_binds in Hr2 as [Ht|Hc].
  - left. split; [done|]. apply (list_fmap_eq_inj serialize); [intros x y; apply serialize_inj|done].
  - right. eapply collision_in_mono; [|done]. unfold block_inputs. set_solver.
  - rewrite !length_fmap. lia.
Qed.

End Block.

Module Example.
#[local] Existing Instances Toy.blake3_toy Toy.ed25519_toy Toy.solana_toy.
#[local] Instance header_codec : Bincode BlockHeader := Toy.bincode_toy BlockHeader.
#[local] Instance tx_codec : Bincode VersionedTransaction := Toy.bincode_toy Toy.tx.

Definition tx1 : VersionedTransaction :=
  Toy.Build_tx [le_bytes 64 1] [le_bytes 32 1] [] ZERO_HASH true.
Definition tx2 : VersionedTransaction :=
  Toy.Build_tx [le_bytes 64 2] [le_bytes 32 2] [] ZERO_HASH true.
Definition body : list VersionedTransaction := [tx1; tx2; tx1].
Definition head : BlockHeader :=
  {| slot := 7; parent_hash := ZERO_HASH; state_root := ZERO_HASH;
     transactions_root := transactions_root_of body;
     timestamp_ms := 1000; transaction_count := 3 |}.
Definition sequencer : Keypair := le_bytes 32 9.

Lemma seal_verifies_witness : verify_block (seal head body sequencer) (pubkey_of sequencer) = true.
Proof. exact (seal_verifies head body sequencer eq_refl eq_refl). Defined.

Lemma sealed_verifies : verify_block (seal head body sequencer) (pubkey_of sequencer) = true.
Proof.
  apply verify_block_true. split; [reflexivity|]. split; [reflexivity|]. apply sig_verify_sign.
Qed.

Lemma blockhash_binds_block_witness :
  let b := seal head body sequencer in
  (header b = header b ∧ transactions b = transactions b)
  ∨ collision_in (block_inputs b ++ block_inputs b).
Proof.
  exact (blockhash_binds_block (seal head body sequencer) (seal head body sequencer)
           (pubkey_of sequencer) (pubkey_of sequencer) sealed_verifies sealed_verifies eq_refl).
Defined.
End Example.
