(* ===== verification/Sorting.v ===== *)
(** * Byte-string order and sorting

    The lexicographic order of [&[u8]] / [[u8; N]], used by redb's ordered
    tables and by [sort_by_key], and the stable sort of [slice::sort_by_key]. *)

From Stdlib Require Import Sorting.Sorted.
From stdpp Require Import sorting.
From S2P Require Import Prelude.

Fixpoint bytes_le (a b : bytes) : bool :=
  match a, b with
  | [], _ => true
  | _ :: _, [] => false
  | x :: a', y :: b' =>
      if Z_of_byte x <? Z_of_byte y then true
      else if Z_of_byte y <? Z_of_byte x then false
      else bytes_le a' b'
  end.

Definition bytes_lt (a b : bytes) : bool := negb (bytes_le b a).

Lemma bytes_le_refl a : bytes_le a a = true.
Proof. induction a as [|x a IH]; simpl; [done|]. by rewrite Z.ltb_irrefl. Qed.

Lemma bytes_le_total a : ∀ b, bytes_le a b = true ∨ bytes_le b a = true.
Proof.
  induction a as [|x a IH]; intros [|y b]; simpl; auto.
  destruct (Z.ltb_spec (Z_of_byte x) (Z_of_byte y)), (Z.ltb_spec (Z_of_byte y) (Z_of_byte x)); auto.
Qed.

Lemma bytes_le_antisym a : ∀ b, bytes_le a b = true → bytes_le b a = true → a = b.
Proof.
  induction a as [|x a IH]; intros [|y b]; simpl; try done.
  destruct (Z.ltb_spec (Z_of_byte x) (Z_of_byte y)), (Z.ltb_spec (Z_of_byte y) (Z_of_byte x));
    try done; try lia.
  intros. f_equal; [apply Z_of_byte_inj; lia|auto].
Qed.

Lemma bytes_le_trans a : ∀ b c, bytes_le a b = true → bytes_le b c = true → bytes_le a c = true.
Proof.
  induction a as [|x a IH]; intros [|y b] [|z c]; simpl; try done.
  destruct (Z.ltb_spec (Z_of_byte x) (Z_of_byte y)), (Z.ltb_spec (Z_of_byte y) (Z_of_byte x)),
    (Z.ltb_spec (Z_of_byte y) (Z_of_byte z)), (Z.ltb_spec (Z_of_byte z) (Z_of_byte y)),
    (Z.ltb_spec (Z_of_byte x) (Z_of_byte z)), (Z.ltb_spec (Z_of_byte z) (Z_of_byte x));
    try done; try lia; eauto.
Qed.

Lemma bytes_le_app p a b : bytes_le (p ++ a) (p ++ b) = bytes_le a b.
Proof. induction p as [|x p IH]; simpl; [done|]. by rewrite Z.ltb_irrefl. Qed.

Lemma le_val_app l k : le_val (l ++ k) = le_val l + 256 ^ Z.of_nat (length l) * le_val k.
Proof.
  induction l as [|x l IH]; cbn [app le_val length]; [simpl; lia|].
  rewrite IH, Nat2Z.inj_succ, Z.pow_succ_r by lia. lia.
Qed.

Lemma be_val_cons x a : be_val (x :: a) = Z_of_byte x * 256 ^ Z.of_nat (length a) + be_val a.
Proof. unfold be_val. simpl rev. rewrite le_val_app, length_rev. simpl. lia. Qed.

Lemma be_val_range a : 0 ≤ be_val a < 256 ^ Z.of_nat (length a).
Proof.
  unfold be_val. pose proof (le_val_nonneg (rev a)). pose proof (le_val_bound (rev a)).
  rewrite length_rev in *. lia.
Qed.

(** On byte strings of one length the order is the order of the big-endian
    numbers. *)
Lemma bytes_le_be_val a : ∀ b, length a = length b → bytes_le a b = (be_val a <=? be_val b).
Proof.
  induction a as [|x a IH]; intros [|y b] Hl; try done.
  simpl in Hl. injection Hl as Hl. rewrite !be_val_cons, <- Hl. cbn [bytes_le].
  pose proof (be_val_range a). pose proof (be_val_range b). rewrite <- Hl in *.
  set (P := 256 ^ Z.of_nat (length a)) in *.
  destruct (Z.ltb_spec (Z_of_byte x) (Z_of_byte y)); [symmetry; apply Z.leb_le; nia|].
  destruct (Z.ltb_spec (Z_of_byte y) (Z_of_byte x)); [symmetry; apply Z.leb_gt; nia|].
  replace (Z_of_byte x) with (Z_of_byte y) by lia. rewrite IH by done.
  destruct (Z.leb_spec (be_val a) (be_val b)); symmetry; [apply Z.leb_le|apply Z.leb_gt]; lia.
Qed.

Lemma be_val_be_bytes n z : 0 ≤ z < 256 ^ Z.of_nat n → be_val (be_bytes n z) = z.
Proof. intros. unfold be_val, be_bytes. rewrite rev_involutive. by apply le_val_le_bytes_small. Qed.

Lemma be_val_app a b : be_val (a ++ b) = be_val a * 256 ^ Z.of_nat (length b) + be_val b.
Proof. unfold be_val. rewrite rev_app_distr, le_val_app, length_rev. lia. Qed.

(** ** Stable insertion sort by a key order *)
Section Sort.
Context {A : Type} (le : A → A → bool).

Fixpoint insert_sorted (x : A) (l : list A) : list A :=
  match l with
  | [] => [x]
  | y :: l' => if le x y then x :: l else y :: insert_sorted x l'
  end.

Definition sort_by (l : list A) : list A := foldr insert_sorted [] l.

Lemma insert_sorted_perm x l : insert_sorted x l ≡ₚ x :: l.
Proof.
  induction l as [|y l IH]; simpl; [done|]. case_match; [done|].
  rewrite IH. by constructor.
Qed.

Lemma sort_by_perm l : sort_by l ≡ₚ l.
Proof. induction l as [|x l IH]; simpl; [done|]. by rewrite insert_sorted_perm, IH. Qed.

Context (le_total : ∀ x y, le x y = true ∨ le y x = true).
Context (le_trans : ∀ x y z, le x y = true → le y z = true → le x z = true).

Lemma insert_sorted_sorted x l :
  StronglySorted (λ a b, le a b = true) l → StronglySorted (λ a b, le a b = true) (insert_sorted x l).
Proof.
  induction l as [|y l IH]; intros Hs; simpl; [by repeat constructor|].
  apply StronglySorted_inv in Hs as [Hs Hall]. destruct (le x y) eqn:Hxy.
  - constructor; [by constructor|]. constructor; [done|].
    eapply Forall_impl; [|exact Hall]. simpl. eauto.
  - constructor; [by apply IH|]. rewrite insert_sorted_perm. constructor; [|done].
    destruct (le_total x y); congruence.
Qed.

Lemma sort_by_sorted l : StronglySorted (λ a b, le a b = true) (sort_by l).
Proof. induction l; simpl; [constructor|by apply insert_sorted_sorted]. Qed.

(** The sorted list depends only on the multiset when ties do not occur. *)
Lemma sort_by_perm_eq l l' :
  l ≡ₚ l' → (∀ x y, x ∈ l → y ∈ l → le x y = true → le y x = true → x = y) →
  sort_by l = sort_by l'.
Proof.
  intros Hp Hanti. eapply (StronglySorted_unique_strong (λ a b, le a b = true)).
  - intros x y Hx Hy. apply Hanti.
    + by rewrite <- (sort_by_perm l).
    + by rewrite Hp, <- (sort_by_perm l').
  - apply sort_by_sorted.
  - apply sort_by_sorted.
  - by rewrite !sort_by_perm.
Qed.
End Sort.
