(* ===== verification/Genesis.v ===== *)
(** * Genesis specification

    Models [chain/zul-primitives/src/genesis.rs]: validation, the fixed supply
    and the genesis hash. Loading is in [Process]; [validate] is what
    [from_toml_str] runs on the parsed value. *)

From S2P Require Import Prelude External Hash Sorting.

Definition GENESIS_DOMAIN : bytes := bstr "PL2:genesis:v1".

Record Allocation := {
  alloc_pubkey : Pubkey;
  alloc_lamports : Z;
}.

#[global] Instance Allocation_eq_dec : EqDecision Allocation.
Proof. solve_decision. Defined.

Record GenesisConfig := {
  chain_name : bytes;
  creation_time_ms : Z;
  sequencer : Pubkey;
  fee_collector : Pubkey;
  allocations : list Allocation;
}.

(** The field ranges of the Rust struct. *)
Definition genesis_ok (g : GenesisConfig) : Prop :=
  u64 (creation_time_ms g) ∧ length (sequencer g) = 32%nat ∧ length (fee_collector g) = 32%nat
  ∧ Forall (λ a, length (alloc_pubkey a) = 32%nat ∧ u64 (alloc_lamports a)) (allocations g).

Inductive GenesisError :=
| EmptyChainName
| ZeroLamportAllocation (pk : Pubkey)
| DuplicateAllocation (pk : Pubkey)
| SupplyOverflow.

(** The loop over allocations with its [HashSet]. *)
Fixpoint validate_allocations (seen : gset Pubkey) (allocs : list Allocation)
    : outcome GenesisError () :=
  match allocs with
  | [] => Ok ()
  | a :: rest =>
      if decide (alloc_lamports a = 0) then Err (ZeroLamportAllocation (alloc_pubkey a))
      else if decide (alloc_pubkey a ∈ seen) then Err (DuplicateAllocation (alloc_pubkey a))
      else validate_allocations ({[alloc_pubkey a]} ∪ seen) rest
  end.

Definition total_supply (g : GenesisConfig) : option Z :=
  foldl (λ acc a, x ← acc; checked_add x (alloc_lamports a)) (Some 0) (allocations g).

Definition genesis_validate (g : GenesisConfig) : outcome GenesisError () :=
  if decide (chain_name g = []) then Err EmptyChainName
  else let? _ := validate_allocations ∅ (allocations g) in
       let? _ := ok_or (total_supply g) SupplyOverflow in
       Ok ().

Definition alloc_le (a b : Allocation) : bool := bytes_le (alloc_pubkey a) (alloc_pubkey b).

Definition alloc_segments (a : Allocation) : list bytes :=
  [alloc_pubkey a; le_bytes 8 (alloc_lamports a)].

Definition genesis_segments (g : GenesisConfig) : list bytes :=
  [chain_name g; le_bytes 8 (creation_time_ms g); sequencer g; fee_collector g]
  ++ concat (alloc_segments <$> sort_by alloc_le (allocations g)).

Section Genesis.
Context `{B3 : Blake3}.

Definition genesis_hash (g : GenesisConfig) : H256 :=
  blake3_concat GENESIS_DOMAIN (genesis_segments g).

Definition genesis_input (g : GenesisConfig) : bytes :=
  GENESIS_DOMAIN ++ concat (genesis_segments g).

(** ** Validation *)

Lemma validate_allocations_ok allocs : ∀ seen,
  validate_allocations seen allocs = Ok () ↔
  Forall (λ a, alloc_lamports a ≠ 0 ∧ alloc_pubkey a ∉ seen) allocs
  ∧ NoDup (alloc_pubkey <$> allocs).
Proof.
  induction allocs as [|a allocs IH]; intros seen; cbn [validate_allocations].
  { split; [|done]. intros _. split; constructor. }
  rewrite fmap_cons, list.NoDup_cons, list.Forall_cons.
  destruct (decide (alloc_lamports a = 0)) as [Hz|Hz]; [naive_solver|].
  destruct (decide (alloc_pubkey a ∈ seen)) as [Hs|Hs]; [naive_solver|].
  rewrite IH, !list.Forall_forall, list_elem_of_fmap. set_solver.
Qed.

Lemma total_supply_sum l : ∀ acc,
  (∀ a, a ∈ l → 0 ≤ alloc_lamports a) →
  foldl (λ acc a, x ← acc; checked_add x (alloc_lamports a)) (Some acc) l
  = (let s := acc + foldr Z.add 0 (alloc_lamports <$> l) in
     if decide (s ≤ u64_max ∨ l = []) then Some s else None).
Proof.
  assert (Hnone : ∀ l, foldl (λ acc a, x ← acc; checked_add x (alloc_lamports a)) None l = None).
  { clear. induction l; simpl; done. }
  assert (Hnn : ∀ l, (∀ a, a ∈ l → 0 ≤ alloc_lamports a) →
                     0 ≤ foldr Z.add 0 (alloc_lamports <$> l)).
  { clear. induction l as [|a l IH]; intros H; [done|]. rewrite fmap_cons. cbn [foldr].
    specialize (IH ltac:(intros; apply H; by right)). pose proof (H a ltac:(by left)). lia. }
  induction l as [|a l IH]; intros acc Hpos.
  { cbv zeta. rewrite decide_True by auto. simpl. f_equal. lia. }
  cbn [foldl mbind option_bind]. rewrite fmap_cons. cbn [foldr]. cbv zeta.
  assert (Hl : ∀ a, a ∈ l → 0 ≤ alloc_lamports a) by (intros; apply Hpos; by right).
  specialize (Hnn l Hl). unfold checked_add at 2. destruct (decide (acc + _ ≤ u64_max)) as [Hle|Hgt].
  - rewrite IH by done. simpl.
    destruct (decide (acc + alloc_lamports a + foldr Z.add 0 (alloc_lamports <$> l) ≤ u64_max ∨ l = []))
      as [H|H].
    + rewrite decide_True; [f_equal; lia|]. left. destruct H as [?| ->]; simpl in *; lia.
    + rewrite decide_False; [done|]. intros [?|?]; [|done]. apply H. left. lia.
  - rewrite Hnone, decide_False; [done|]. intros [?|?]; [lia|done].
Qed.

(** [validate] accepts exactly the genesis files with a name, no zero
    allocation, no repeated address and a supply that fits in u64, and then the
    supply is the sum of the allocations. *)
Theorem genesis_validate_spec g :
  genesis_ok g →
  (genesis_validate g = Ok () ↔
   chain_name g ≠ [] ∧ NoDup (alloc_pubkey <$> allocations g)
   ∧ Forall (λ a, alloc_lamports a ≠ 0) (allocations g)
   ∧ foldr Z.add 0 (alloc_lamports <$> allocations g) ≤ u64_max)
  ∧ (genesis_validate g = Ok () →
     total_supply g = Some (foldr Z.add 0 (alloc_lamports <$> allocations g))).
Proof.
  intros (_ & _ & _ & Hall).
  assert (Hpos : ∀ a, a ∈ allocations g → 0 ≤ alloc_lamports a).
  { intros a Ha. rewrite list.Forall_forall in Hall. destruct (Hall a Ha) as [_ []]. lia. }
  unfold genesis_validate, total_supply. rewrite (total_supply_sum _ 0) by done. cbv zeta.
  rewrite Z.add_0_l. set (s := foldr _ _ _).
  assert (Hs : s ≤ u64_max ∨ allocations g = [] ↔ s ≤ u64_max).
  { split; [intros [|Hn]; [done|]|auto]. unfold s. rewrite Hn. simpl. unfold u64_max. lia. }
  pose proof (validate_allocations_ok (allocations g) ∅) as Hv.
  assert (Hf : Forall (λ a, alloc_lamports a ≠ 0 ∧ alloc_pubkey a ∉ (∅ : gset Pubkey)) (allocations g)
               ↔ Forall (λ a, alloc_lamports a ≠ 0) (allocations g)).
  { rewrite !list.Forall_forall. set_solver. }
  rewrite Hf in Hv.
  destruct (decide (chain_name g = [])) as [Hn|Hn]; [naive_solver|].
  destruct (validate_allocations ∅ (allocations g)) as [[]| |] eqn:Hval; simpl;
    [|naive_solver|naive_solver].
  destruct (decide (s ≤ u64_max ∨ _)); simpl; naive_solver.
Qed.

(** ** The genesis hash *)

Lemma alloc_sort_perm l l' :
  l ≡ₚ l' → NoDup (alloc_pubkey <$> l) → sort_by alloc_le l = sort_by alloc_le l'.
Proof.
  intros Hp Hnd. apply sort_by_perm_eq; [| |done|].
  - intros x y. apply bytes_le_total.
  - intros x y z. apply bytes_le_trans.
  - intros x y Hx Hy H1 H2. pose proof (bytes_le_antisym _ _ H1 H2) as Heq.
    apply list_elem_of_lookup in Hx as [i Hi]. apply list_elem_of_lookup in Hy as [j Hj].
    assert (i = j) as ->; [|congruence].
    apply (NoDup_lookup _ i j (alloc_pubkey x) Hnd); rewrite list_lookup_fmap.
    + by rewrite Hi.
    + by rewrite Hj, Heq.
Qed.

(** Reordering the allocations of a genesis file does not change the
    chain's identity. *)
Theorem genesis_hash_order g g' :
  chain_name g = chain_name g' → creation_time_ms g = creation_time_ms g' →
  sequencer g = sequencer g' → fee_collector g = fee_collector g' →
  allocations g ≡ₚ allocations g' → genesis_validate g = Ok () →
  genesis_hash g = genesis_hash g'.
Proof.
  intros H1 H2 H3 H4 Hp Hv. unfold genesis_hash, genesis_segments.
  rewrite H1, H2, H3, H4, (alloc_sort_perm _ _ Hp); [done|].
  unfold genesis_validate in Hv. destruct (decide _); [done|].
  apply obind_Ok in Hv as ([] & Hv & _). by apply validate_allocations_ok in Hv as [_ ?].
Qed.

Lemma alloc_segments_inj l : ∀ l',
  Forall (λ a, length (alloc_pubkey a) = 32%nat ∧ u64 (alloc_lamports a)) l →
  Forall (λ a, length (alloc_pubkey a) = 32%nat ∧ u64 (alloc_lamports a)) l' →
  concat (concat (alloc_segments <$> l)) = concat (concat (alloc_segments <$> l')) → l = l'.
Proof.
  induction l as [|a l IH]; intros [|b l'] H1 H2 Heq; [done| | |].
  - apply list.Forall_cons in H2 as [[Hb _] _]. apply (f_equal length) in Heq. simpl in Heq.
    rewrite !length_app in Heq. lia.
  - apply list.Forall_cons in H1 as [[Hb _] _]. apply (f_equal length) in Heq. simpl in Heq.
    rewrite !length_app in Heq. lia.
  - apply list.Forall_cons in H1 as [[Ha Ha'] H1]. apply list.Forall_cons in H2 as [[Hb Hb'] H2].
    rewrite !fmap_cons in Heq. cbn [concat alloc_segments app] in Heq.
    apply app_inj_len in Heq as [Hk Heq]; [|congruence].
    apply app_inj_len in Heq as [Hl Heq]; [|by rewrite !length_le_bytes].
    apply le64_inj in Hl; [|done|done]. rewrite (IH l' H1 H2 Heq).
    f_equal. destruct a, b; simpl in *; congruence.
Qed.

(** Between genesis files whose names have one length, the genesis hash
    identifies the file up to the order of its allocations, or the two hashed
    messages collide. *)
Theorem genesis_hash_binds g g' :
  genesis_ok g → genesis_ok g' → length (chain_name g) = length (chain_name g') →
  genesis_hash g = genesis_hash g' →
  (chain_name g = chain_name g' ∧ creation_time_ms g = creation_time_ms g' ∧
   sequencer g = sequencer g' ∧ fee_collector g = fee_collector g' ∧
   allocations g ≡ₚ allocations g')
  ∨ collision_in [genesis_input g; genesis_input g'].
Proof.
  intros (Ht & Hs & Hf & Ha) (Ht' & Hs' & Hf' & Ha') Hn [Heq|?]%blake3_eq; [left|by right].
  apply app_inv_head in Heq. unfold genesis_segments in Heq. rewrite !concat_app in Heq.
  cbn [concat] in Heq. rewrite !app_nil_r, <- !app_assoc in Heq.
  apply app_inj_len in Heq as [H1 Heq]; [|done].
  apply app_inj_len in Heq as [H2 Heq]; [|by rewrite !length_le_bytes].
  apply app_inj_len in Heq as [H3 Heq]; [|congruence].
  apply app_inj_len in Heq as [H4 Heq]; [|congruence].
  apply le64_inj in H2; [|done|done].
  apply alloc_segments_inj in Heq; [|by rewrite sort_by_perm|by rewrite sort_by_perm].
  repeat split; [done..|]. by rewrite <- (sort_by_perm alloc_le), Heq, sort_by_perm.
Qed.

(** Two files that spell the same bytes: the second one's name holds the
    first one's time and sequencer, and it allocates nothing. *)
Definition letters (n : nat) (b : byte) : bytes := replicate n b.

Definition genesis_one : GenesisConfig :=
  {| chain_name := bstr "zul"; creation_time_ms := le_val (letters 8 Byte.x61);
     sequencer := letters 32 Byte.x61; fee_collector := letters 32 Byte.x62;
     allocations := [{| alloc_pubkey := letters 32 Byte.x63;
                        alloc_lamports := le_val (letters 8 Byte.x64) |}] |}.

Definition genesis_two : GenesisConfig :=
  {| chain_name := bstr "zulaaaaaaaaaaaaaaaaaaaaaaaaaaaaaaaaaaaaaaaa";
     creation_time_ms := le_val (letters 8 Byte.x62);
     sequencer := letters 24 Byte.x62 ++ letters 8 Byte.x63;
     fee_collector := letters 24 Byte.x63 ++ letters 8 Byte.x64;
     allocations := [] |}.

(** Names of different lengths are not told apart: the name is hashed
    without its length, so two valid files, one allocating a supply and one
    allocating nothing, have one genesis hash whatever the hash function is. *)
Theorem genesis_hash_ambiguous :
  genesis_validate genesis_one = Ok () ∧ genesis_validate genesis_two = Ok () ∧
  total_supply genesis_one ≠ total_supply genesis_two ∧
  genesis_hash genesis_one = genesis_hash genesis_two.
Proof.
  split; [vm_compute; reflexivity|]. split; [vm_compute; reflexivity|].
  split; [vm_compute; discriminate|].
  unfold genesis_hash, blake3_concat. do 2 f_equal.
Qed.

End Genesis.

Module Example.
#[local] Existing Instance Toy.blake3_toy.

Definition pk (n : Z) : Pubkey := le_bytes 32 n.
Definition g1 : GenesisConfig :=
  {| chain_name := bstr "zul"; creation_time_ms := 5; sequencer := pk 1; fee_collector := pk 2;
     allocations := [{| alloc_pubkey := pk 9; alloc_lamports := 10 |};
                     {| alloc_pubkey := pk 3; alloc_lamports := 20 |}] |}.
Definition g2 : GenesisConfig :=
  {| chain_name := bstr "zul"; creation_time_ms := 5; sequencer := pk 1; fee_collector := pk 2;
     allocations := [{| alloc_pubkey := pk 3; alloc_lamports := 20 |};
                     {| alloc_pubkey := pk 9; alloc_lamports := 10 |}] |}.

Lemma g_ok l :
  Forall (λ a, length (alloc_pubkey a) = 32%nat ∧ u64 (alloc_lamports a)) l →
  genesis_ok {| chain_name := bstr "zul"; creation_time_ms := 5; sequencer := pk 1;
                fee_collector := pk 2; allocations := l |}.
Proof. intros H. split; [unfold u64, u64_max; simpl; lia|]. by repeat split. Qed.

Lemma genesis_validate_spec_witness : total_supply g1 = Some 30.
Proof.
  refine (proj2 (genesis_validate_spec g1 _) _); [|vm_compute; reflexivity].
  apply g_ok. repeat constructor; unfold u64_max; simpl; lia.
Defined.

Lemma genesis_hash_order_witness : genesis_hash g1 = genesis_hash g2.
Proof.
  refine (genesis_hash_order g1 g2 eq_refl eq_refl eq_refl eq_refl _ _).
  - apply Permutation_swap.
  - vm_compute. reflexivity.
Defined.

Lemma genesis_hash_binds_witness :
  (chain_name g1 = chain_name g2 ∧ creation_time_ms g1 = creation_time_ms g2 ∧
   sequencer g1 = sequencer g2 ∧ fee_collector g1 = fee_collector g2 ∧
   allocations g1 ≡ₚ allocations g2)
  ∨ collision_in [genesis_input g1; genesis_input g2].
Proof.
  refine (genesis_hash_binds g1 g2 _ _ eq_refl _);
    [apply g_ok; repeat constructor; unfold u64_max; simpl; lia..|vm_compute; reflexivity].
Defined.
End Example.
