(* ===== verification/Config.v ===== *)
(** * Node configuration

    Models [chain/zul-primitives/src/config.rs]: the sections with their serde
    defaults and [validate]. Paths, addresses and strings are byte strings; Loading
    is in [Process]. *)

From S2P Require Import Prelude Hash.

Inductive Network := Testnet | Mainnet.

#[global] Instance Network_eq_dec : EqDecision Network.
Proof. solve_decision. Defined.

Record NodeSection := {
  network : Network;
  data_dir : bytes;
  genesis_path : bytes;
  sequencer_key_path : bytes;
  slot_duration_ms : Z;
  heartbeat_ms : Z;
  mempool_capacity : Z;
  max_per_payer : Z;
}.

Record RpcSection := {
  http_addr : bytes;
  ws_addr : bytes;
  faucet_enabled : bool;
  faucet_max_lamports : Z;
  faucet_key_path : option bytes;
  metrics_addr : option bytes;
}.

Record L1Section := {
  l1_enabled : bool;
  rpc_url : bytes;
  settlement_program_id : bytes;
  da_log_program_id : bytes;
  bridge_authority_key_path : bytes;
  batch_interval_slots : Z;
  gas_mint : bytes;
}.

Record NodeConfig := {
  node : NodeSection;
  rpc : RpcSection;
  l1 : L1Section;
}.

Definition default_slot_duration : Z := DEFAULT_SLOT_DURATION_MS.
Definition default_heartbeat : Z := 10000.
Definition default_mempool_capacity : Z := 10000.
Definition default_max_per_payer : Z := 128.
Definition default_faucet_max : Z := 10000000000.
Definition default_batch_interval : Z := 120.

Definition default_l1 : L1Section :=
  {| l1_enabled := false; rpc_url := []; settlement_program_id := []; da_log_program_id := [];
     bridge_authority_key_path := []; batch_interval_slots := default_batch_interval;
     gas_mint := [] |}.

Inductive ConfigError :=
| SlotDurationZero
| FaucetNeedsKey
| FaucetOnMainnet
| L1NeedsRpcUrl
| L1NeedsProgram.

Definition config_validate (c : NodeConfig) : outcome ConfigError () :=
  if decide (slot_duration_ms (node c) = 0) then Err SlotDurationZero
  else if faucet_enabled (rpc c) && bool_decide (faucet_key_path (rpc c) = None) then Err FaucetNeedsKey
  else if bool_decide (network (node c) = Mainnet) && faucet_enabled (rpc c) then Err FaucetOnMainnet
  else if l1_enabled (l1 c) then
    if decide (rpc_url (l1 c) = []) then Err L1NeedsRpcUrl
    else if decide (settlement_program_id (l1 c) = []) then Err L1NeedsProgram
    else Ok ()
  else Ok ().

(** An accepted configuration has a positive slot time, a key for its
    faucet, no faucet on mainnet, and an L1 endpoint and program when settlement
    is on; every configuration with these is accepted. *)
Theorem config_validate_spec c :
  config_validate c = Ok () ↔
  slot_duration_ms (node c) ≠ 0
  ∧ (faucet_enabled (rpc c) = true →
     faucet_key_path (rpc c) ≠ None ∧ network (node c) = Testnet)
  ∧ (l1_enabled (l1 c) = true → rpc_url (l1 c) ≠ [] ∧ settlement_program_id (l1 c) ≠ []).
Proof.
  unfold config_validate. destruct (decide (slot_duration_ms _ = 0)); [naive_solver|].
  destruct (faucet_enabled _), (faucet_key_path _), (network _), (l1_enabled _); simpl;
    repeat case_decide; naive_solver.
Qed.
