(* ===== verification/Account.v ===== *)
(** * Stored accounts

    Models [chain/zul-store/src/account.rs]: the persistent account record and
    the account hash committed into the state tree. *)

From S2P Require Import Prelude External Hash.

Definition ACCOUNT_DOMAIN : bytes := bstr "PL2:account:v1".
Definition RENT_EXEMPT_RENT_EPOCH : Z := u64_max.

Record StoredAccount := {
  lamports : Z;
  data : bytes;
  owner : Pubkey;
  executable : bool;
  rent_epoch : Z;
}.

#[global] Instance StoredAccount_eq_dec : EqDecision StoredAccount.
Proof. solve_decision. Defined.
#[global] Instance StoredAccount_countable : Countable StoredAccount.
Proof.
  refine (inj_countable' (λ a, (lamports a, data a, owner a, executable a, rent_epoch a))
            (λ '(a, b, c, d, e), Build_StoredAccount a b c d e) _).
  by intros [].
Defined.

(** The field ranges of the Rust struct. *)
Definition account_ok (a : StoredAccount) : Prop :=
  u64 (lamports a) ∧ u64 (rent_epoch a) ∧ length (owner a) = 32%nat
  ∧ u64 (Z.of_nat (length (data a))).

Definition new_system (l : Z) : StoredAccount :=
  {| lamports := l; data := []; owner := system_program_id; executable := false;
     rent_epoch := RENT_EXEMPT_RENT_EPOCH |}.

Lemma new_system_ok l : u64 l → account_ok (new_system l).
Proof.
  intros Hl. split; [done|]. split; [unfold u64; simpl; unfold RENT_EXEMPT_RENT_EPOCH, u64_max; lia|].
  split; [done|]. unfold u64, u64_max. simpl. lia.
Qed.

Definition set_lamports (l : Z) (a : StoredAccount) : StoredAccount :=
  {| lamports := l; data := data a; owner := owner a; executable := executable a;
     rent_epoch := rent_epoch a |}.

Definition set_data (d : bytes) (a : StoredAccount) : StoredAccount :=
  {| lamports := lamports a; data := d; owner := owner a; executable := executable a;
     rent_epoch := rent_epoch a |}.

(** [AccountSharedData]: the SVM's account type, with the accessors' fields. *)
Record AccountSharedData := {
  sh_lamports : Z;
  sh_data : bytes;
  sh_owner : Pubkey;
  sh_executable : bool;
  sh_rent_epoch : Z;
}.

Definition from_shared (a : AccountSharedData) : StoredAccount :=
  {| lamports := sh_lamports a; data := sh_data a; owner := sh_owner a;
     executable := sh_executable a; rent_epoch := sh_rent_epoch a |}.

Definition to_shared (a : StoredAccount) : AccountSharedData :=
  {| sh_lamports := lamports a; sh_data := data a; sh_owner := owner a;
     sh_executable := executable a; sh_rent_epoch := rent_epoch a |}.

Lemma from_to_shared a : from_shared (to_shared a) = a.
Proof. by destruct a. Qed.

Lemma to_from_shared a : to_shared (from_shared a) = a.
Proof. by destruct a. Qed.

Section Account.
Context `{B3 : Blake3}.

Definition account_segments (a : StoredAccount) (pubkey : Pubkey) : list bytes :=
  [pubkey;
   le_bytes 8 (lamports a);
   owner a;
   [if executable a then Byte.x01 else Byte.x00];
   le_bytes 8 (rent_epoch a);
   le_bytes 8 (Z.of_nat (length (data a)));
   data a].

Definition account_hash (a : StoredAccount) (pubkey : Pubkey) : H256 :=
  blake3_concat ACCOUNT_DOMAIN (account_segments a pubkey).

Definition account_input (a : StoredAccount) (pubkey : Pubkey) : bytes :=
  ACCOUNT_DOMAIN ++ concat (account_segments a pubkey).

Lemma account_input_inj a b pk pk' :
  account_ok a → account_ok b → length pk = 32%nat → length pk' = 32%nat →
  account_input a pk = account_input b pk' → a = b ∧ pk = pk'.
Proof.
  intros (Hl & He & Ho & Hd) (Hl' & He' & Ho' & Hd') Hpk Hpk'.
  unfold account_input. intros H%app_inv_head. unfold account_segments in H.
  cbn [concat] in H. rewrite !app_nil_r in H.
  apply app_inj_len in H as [Hk H]; [|congruence].
  apply app_inj_len in H as [H1 H]; [|by rewrite !length_le_bytes].
  apply app_inj_len in H as [H2 H]; [|congruence].
  apply app_inj_len in H as [H3 H]; [|done].
  apply app_inj_len in H as [H4 H]; [|by rewrite !length_le_bytes].
  apply app_inj_len in H as [H5 H]; [|by rewrite !length_le_bytes].
  apply le64_inj in H1; [|done|done]. apply le64_inj in H4; [|done|done].
  destruct a, b; simpl in *. subst. split; [|done].
  f_equal. by destruct executable0, executable1.
Qed.

(** The account hash commits to every field and to the address: two
    accounts with one hash are the same account at the same address, or their
    two hashed messages collide. *)
Theorem account_hash_binds a b pk pk' :
  account_ok a → account_ok b → length pk = 32%nat → length pk' = 32%nat →
  account_hash a pk = account_hash b pk' →
  (a = b ∧ pk = pk') ∨ collision_in [account_input a pk; account_input b pk'].
Proof.
  intros Ha Hb Hp Hp' H%blake3_eq. destruct H as [H|H]; [left|by right].
  by apply account_input_inj.
Qed.

End Account.

Module Example.
#[local] Existing Instance Toy.blake3_toy.

Lemma account_hash_binds_witness :
  let a := new_system 42 in let pk := le_bytes 32 7 in
  (a = a ∧ pk = pk) ∨ collision_in [account_input a pk; account_input a pk].
Proof.
  refine (account_hash_binds (new_system 42) (new_system 42) (le_bytes 32 7) (le_bytes 32 7)
            _ _ eq_refl eq_refl eq_refl); apply new_system_ok; unfold u64, u64_max; lia.
Defined.
End Example.
