(* ===== verification/Queue.v ===== *)
(** * The recent-blockhash queue

    Models [chain/zul-store/src/queue.rs]: the entries in registration order
    with a hash index beside them, evicting from the front. *)

From S2P Require Import Prelude External Hash.

Record BlockhashQueue := {
  capacity : nat;
  entries : list (Z * H256);
  index : gmap H256 Z;
}.

(** [assert!(capacity > 0)] panics. *)
Definition with_capacity (cap : nat) : option BlockhashQueue :=
  if decide (0 < cap)%nat then Some {| capacity := cap; entries := []; index := ∅ |} else None.

Definition new_queue : BlockhashQueue :=
  {| capacity := BLOCKHASH_QUEUE_CAPACITY; entries := []; index := ∅ |}.

(** [while entries.len() > capacity { pop_front; index.remove }] *)
Fixpoint evict (cap : nat) (es : list (Z * H256)) (ix : gmap H256 Z)
    : list (Z * H256) * gmap H256 Z :=
  match es with
  | [] => (es, ix)
  | (s, evicted) :: rest =>
      if decide (cap < length es)%nat then evict cap rest (delete evicted ix) else (es, ix)
  end.

Definition register (q : BlockhashQueue) (sl : Z) (hash : H256) : BlockhashQueue :=
  let '(es, ix) := evict (capacity q) (entries q ++ [(sl, hash)]) (<[hash := sl]> (index q)) in
  {| capacity := capacity q; entries := es; index := ix |}.

Definition is_valid (q : BlockhashQueue) (hash : H256) : bool :=
  bool_decide (is_Some (index q !! hash)).

Definition latest (q : BlockhashQueue) : option (Z * H256) := list.last (entries q).

Definition queue_len (q : BlockhashQueue) : nat := length (entries q).

Section Codec.
Context `{!Bincode (nat * list (Z * H256))}.

(** The index is skipped by serde and rebuilt on load. *)
Definition to_bytes (q : BlockhashQueue) : bytes := serialize (capacity q, entries q).

Definition rebuild (es : list (Z * H256)) : gmap H256 Z :=
  fold_left (λ ix e, <[e.2 := e.1]> ix) es ∅.

Definition from_bytes (bs : bytes) : option BlockhashQueue :=
  '(cap, es) ← deserialize bs;
  Some {| capacity := cap; entries := es; index := rebuild es |}.

(** ** Facts *)

Definition hashes (es : list (Z * H256)) : list H256 := es.*2.

Definition index_matches (q : BlockhashQueue) : Prop :=
  ∀ h s, index q !! h = Some s ↔ (s, h) ∈ entries q.

(** The last [n] elements of a list. *)
Definition last_n {A} (n : nat) (l : list A) : list A := drop (length l - n) l.

Lemma last_n_app {A} n (l k : list A) : last_n n (last_n n l ++ k) = last_n n (l ++ k).
Proof.
  unfold last_n. destruct (decide (length l ≤ n)%nat).
  - replace (length l - n)%nat with 0%nat by lia. by rewrite drop_0.
  - rewrite <- (drop_app_le l k) by lia.
    rewrite length_drop, drop_drop, !length_app. f_equal. lia.
Qed.

Lemma last_n_idem {A} n (l : list A) : last_n n (last_n n l) = last_n n l.
Proof. pose proof (last_n_app n l []) as H. by rewrite !app_nil_r in H. Qed.

Lemma evict_entries cap es : ∀ ix, (evict cap es ix).1 = last_n cap es.
Proof.
  unfold last_n. induction es as [|[s h] es IH]; intros ix; [done|].
  cbn [evict]. destruct (decide _) as [Hlt|Hge].
  - rewrite IH. simpl in *. replace (S (length es) - cap)%nat with (S (length es - cap)) by lia. done.
  - replace (length ((s, h) :: es) - cap)%nat with 0%nat by lia. done.
Qed.

Lemma evict_index cap es : ∀ ix,
  NoDup (hashes es) → (∀ h s, ix !! h = Some s ↔ (s, h) ∈ es) →
  ∀ h s, (evict cap es ix).2 !! h = Some s ↔ (s, h) ∈ (evict cap es ix).1.
Proof.
  induction es as [|[s0 h0] es IH]; intros ix Hnd Hix h s; [apply Hix|].
  cbn [evict]. destruct (decide _); [|apply Hix].
  unfold hashes in Hnd. rewrite fmap_cons in Hnd. apply list.NoDup_cons in Hnd as [Hni Hnd].
  apply IH; [done|]. intros h' s'. rewrite lookup_delete_Some, Hix, elem_of_cons. simpl in Hni.
  split; [naive_solver|]. intros Hin. split; [|by right]. intros ->.
  apply Hni. change h' with ((s', h').2). by apply list_elem_of_fmap_2.
Qed.

Lemma register_entries q s h :
  entries (register q s h) = last_n (capacity q) (entries q ++ [(s, h)]).
Proof.
  unfold register. destruct (evict _ _ _) as [es ix] eqn:He. simpl.
  by rewrite <- (evict_entries _ _ (<[h := s]> (index q))), He.
Qed.

Lemma register_matches q s h :
  NoDup (hashes (entries q ++ [(s, h)])) → index_matches q → index_matches (register q s h).
Proof.
  intros Hnd Hq. unfold register.
  pose proof (evict_index (capacity q) (entries q ++ [(s, h)]) (<[h := s]> (index q)) Hnd) as H.
  destruct (evict _ _ _) as [es ix]. unfold index_matches. cbn in *. apply H. clear H. intros h' s'.
  unfold hashes in Hnd. rewrite fmap_app in Hnd. apply list.NoDup_app in Hnd as (_ & Hd & _).
  rewrite lookup_insert_Some, (Hq h' s'), elem_of_app, list_elem_of_singleton.
  split; [naive_solver|]. intros [Hin| [= -> ->]]; [|by left]. right. split; [|done].
  intros ->. apply (Hd h'); [|set_solver]. change h' with ((s', h').2). by apply list_elem_of_fmap_2.
Qed.

Lemma register_all_spec rs : ∀ q,
  index_matches q → NoDup (hashes (entries q ++ rs)) →
  entries q = last_n (capacity q) (entries q) →
  let q' := fold_left (λ q r, register q r.1 r.2) rs q in
  index_matches q' ∧ entries q' = last_n (capacity q) (entries q ++ rs).
Proof.
  induction rs as [|[s h] rs IH]; intros q Hm Hnd Hlast; cbn [fold_left fst snd].
  { by rewrite app_nil_r. }
  assert (Hcap : capacity (register q s h) = capacity q).
  { unfold register. by destruct (evict _ _ _). }
  change ((s, h) :: rs) with ([(s, h)] ++ rs) in Hnd |- *. rewrite app_assoc in Hnd |- *.
  destruct (IH (register q s h)) as [IHm IHe].
  - apply register_matches; [|done]. eapply sublist_NoDup; [exact Hnd|].
    unfold hashes. apply fmap_sublist. by apply sublist_inserts_r.
  - rewrite register_entries. eapply sublist_NoDup; [exact Hnd|].
    unfold hashes, last_n. apply fmap_sublist.
    apply sublist_app; [apply sublist_drop|done].
  - by rewrite Hcap, register_entries, last_n_idem.
  - split; [done|]. rewrite IHe, Hcap, register_entries, last_n_app. done.
Qed.

(** After registering any sequence of pairwise distinct block hashes, a
    hash is valid exactly when it is one of the last [capacity] registered, and
    [latest] is the last one. *)
Theorem queue_window cap q rs :
  with_capacity cap = Some q → NoDup (hashes rs) →
  let q' := fold_left (λ q r, register q r.1 r.2) rs q in
  (∀ h, is_valid q' h = true ↔ h ∈ hashes (last_n cap rs))
  ∧ latest q' = list.last rs.
Proof.
  unfold with_capacity. destruct (decide (0 < cap)%nat) as [Hc|]; intros Hq; [|done].
  injection Hq as <-. intros Hnd. set (q' := fold_left _ _ _).
  destruct (register_all_spec rs {| capacity := cap; entries := []; index := ∅ |}) as [Hm He];
    simpl; [|done| |].
  - intros h s. simpl. rewrite lookup_empty. set_solver.
  - unfold last_n. by rewrite drop_nil.
  - fold q' in Hm, He. simpl in He. split.
    + intros h. unfold is_valid. rewrite bool_decide_eq_true. unfold hashes.
      rewrite list_elem_of_fmap, <- He. unfold is_Some.
      setoid_rewrite (Hm h). split.
      * intros [s Hs]. by exists (s, h).
      * intros ([s h'] & -> & Hs). by exists s.
    + unfold latest. rewrite He. unfold last_n. destruct rs as [|r rs _] using rev_ind; [done|].
      rewrite drop_app_le by (rewrite length_app; simpl; lia). by rewrite !last_snoc.
Qed.

Lemma rebuild_matches es :
  NoDup (hashes es) → ∀ h s, rebuild es !! h = Some s ↔ (s, h) ∈ es.
Proof.
  unfold rebuild. induction es as [|[s0 h0] es IH] using rev_ind; intros Hnd h s.
  { simpl. rewrite lookup_empty. set_solver. }
  unfold hashes in Hnd. rewrite fmap_app in Hnd. apply list.NoDup_app in Hnd as (Hnd & Hd & _).
  rewrite fold_left_app. cbn [fold_left fst snd].
  rewrite lookup_insert_Some, IH, elem_of_app, list_elem_of_singleton by done.
  split; [naive_solver|]. intros [Hin| [= -> ->]]; [|by left]. right. split; [|done].
  intros ->. apply (Hd h); [|set_solver]. change h with ((s, h).2). by apply list_elem_of_fmap_2.
Qed.

Lemma rebuild_index cap es ix :
  index_matches {| capacity := cap; entries := es; index := ix |} → NoDup (hashes es) →
  rebuild es = ix.
Proof.
  intros Hm Hnd. apply map_eq. intros h. apply option_eq. intros s.
  rewrite rebuild_matches by done. symmetry. apply Hm.
Qed.

(** Saving and loading the queue is the identity as long as the retained
    hashes are distinct: the index, which is not serialized, is rebuilt. *)
Theorem queue_roundtrip q :
  index_matches q → NoDup (hashes (entries q)) → from_bytes (to_bytes q) = Some q.
Proof.
  intros Hm Hnd. unfold from_bytes, to_bytes. rewrite deserialize_serialize. simpl. f_equal.
  destruct q as [cap es ix]. simpl in *. f_equal. by apply (rebuild_index cap).
Qed.

(** When a full queue registers again the hash at its front, eviction
    drops the index entry of the new registration: the latest hash is reported
    invalid, until a save and load rebuilds the index. *)
Theorem reregistered_hash_invalid q s0 s h rest :
  (0 < capacity q)%nat → entries q = (s0, h) :: rest → length (entries q) = capacity q →
  let q' := register q s h in
  latest q' = Some (s, h) ∧ is_valid q' h = false
  ∧ ∃ q'', from_bytes (to_bytes q') = Some q'' ∧ is_valid q'' h = true.
Proof.
  intros Hc He Hl q'. assert (Hq' : q' = {| capacity := capacity q; entries := rest ++ [(s, h)];
                                     index := delete h (<[h := s]> (index q)) |}).
  { unfold q', register. rewrite He in Hl |- *. cbn [app evict].
    rewrite decide_True by (simpl in *; rewrite length_app; simpl; lia).
    assert (Hs : ∀ ix, evict (capacity q) (rest ++ [(s, h)]) ix = (rest ++ [(s, h)], ix)).
    { intros ix. destruct (rest ++ [(s, h)]) as [|[a b] l] eqn:Hr; [done|]. cbn [evict].
      rewrite decide_False; [done|]. rewrite <- Hr, length_app. simpl in *. lia. }
    by rewrite Hs. }
  rewrite Hq'. repeat split.
  - unfold latest. simpl. by rewrite last_snoc.
  - unfold is_valid. simpl. rewrite bool_decide_eq_false, lookup_delete_eq. by intros [].
  - unfold from_bytes, to_bytes. rewrite deserialize_serialize. simpl. eexists. split; [done|].
    unfold is_valid, rebuild. simpl. rewrite fold_left_app. simpl. rewrite lookup_insert_eq.
    by apply bool_decide_eq_true.
Qed.

End Codec.

Module Example.
#[local] Instance queue_codec : Bincode (nat * list (Z * H256)) := Toy.bincode_toy _.

Definition h (n : Z) : H256 := le_bytes 32 n.
Definition three : BlockhashQueue := {| capacity := 3; entries := []; index := ∅ |}.
Definition regs : list (Z * H256) := [(1, h 1); (2, h 2); (3, h 3); (4, h 4)].

Lemma queue_window_witness :
  latest (fold_left (λ q r, register q r.1 r.2) regs three) = Some (4, h 4).
Proof.
  refine (proj2 (queue_window 3 three regs eq_refl _)).
  apply (bool_decide_eq_true (NoDup _)). vm_compute. reflexivity.
Defined.

Definition full : BlockhashQueue :=
  {| capacity := 2; entries := [(1, h 1); (2, h 2)]; index := <[h 2 := 2]> {[h 1 := 1]} |}.

Lemma queue_roundtrip_witness : from_bytes (to_bytes full) = Some full.
Proof.
  refine (queue_roundtrip full _ _).
  - intros x s. unfold full. cbn [index entries].
    rewrite lookup_insert_Some, lookup_singleton_Some, !elem_of_cons, elem_of_nil.
    assert (h 2 ≠ h 1) by (vm_compute; discriminate). split.
    + intros [[<- <-]|[_ [<- <-]]]; auto.
    + intros [[= -> ->]|[[= -> ->]|[]]]; auto.
  - apply (bool_decide_eq_true (NoDup _)). vm_compute. reflexivity.
Defined.

Lemma reregistered_hash_invalid_witness : is_valid (register full 3 (h 1)) (h 1) = false.
Proof.
  refine (proj1 (proj2 (reregistered_hash_invalid full 1 3 (h 1) [(2, h 2)] _ eq_refl eq_refl))).
  simpl. lia.
Defined.
End Example.
