(* ===== verification/Store.v ===== *)
(** * The persistent store

    Models [chain/zul-store/src/store.rs]. Each redb table is a finite map from
    encoded keys to encoded values; a write transaction is a function on the
    record of tables, so a transaction that fails leaves the store as it was.
    Failures of the database engine itself (I/O) are not modelled. Iteration
    over a redb table is in ascending key order. *)

From S2P Require Import Prelude External Hash Paths Smt Sorting Genesis Account Block Queue.

Inductive StoreError :=
| Codec
| Invariant (msg : string).

Record TxLocator := {
  loc_slot : Z;
  loc_index : Z;
}.

#[global] Instance TxLocator_eq_dec : EqDecision TxLocator.
Proof. solve_decision. Defined.
#[global] Instance TxLocator_countable : Countable TxLocator.
Proof.
  refine (inj_countable' (λ l, (loc_slot l, loc_index l)) (λ '(a, b), Build_TxLocator a b) _).
  by intros [].
Defined.

Record Store := {
  t_accounts : gmap Pubkey bytes;
  t_blocks : gmap Z bytes;
  t_tx_loc : gmap Signature bytes;
  t_tx_meta : gmap Signature bytes;
  t_addr_sigs : gmap bytes Signature;
  t_smt : gmap NodeKey bytes;
  t_nullifiers : gmap bytes Z;
  t_meta : gmap string bytes;
}.

(** [Store::open] on a fresh file: all tables exist and are empty. *)
Definition open_store : Store :=
  {| t_accounts := ∅; t_blocks := ∅; t_tx_loc := ∅; t_tx_meta := ∅; t_addr_sigs := ∅;
     t_smt := ∅; t_nullifiers := ∅; t_meta := ∅ |}.

Definition META_GENESIS_HASH : string := "genesis_hash".
Definition META_STATE_ROOT : string := "state_root".
Definition META_LATEST_SLOT : string := "latest_slot".
Definition META_BLOCKHASH_QUEUE : string := "blockhash_queue".
Definition META_WITHDRAWALS_ROOT : string := "withdrawals_root".

(** [SmtSnapshot::get_node]: a value of the wrong length reads as absent. *)
Definition get_node (st : Store) (key : NodeKey) : option H256 :=
  v ← t_smt st !! key; if decide (length v = 32%nat) then Some v else None.

(** [!slot] and [!index], big-endian after the address. *)
Definition addr_sig_key (pubkey : Pubkey) (sl ix : Z) : bytes :=
  pubkey ++ be_bytes 8 (u64_max - sl) ++ be_bytes 4 (u32_max - ix).

Definition is_nullifier_spent (st : Store) (n : bytes) : bool :=
  bool_decide (is_Some (t_nullifiers st !! n)).

(** ** Metadata *)

Definition read_meta (st : Store) (key : string) : option bytes := t_meta st !! key.

Definition read_meta_h256 (st : Store) (key : string) : option H256 :=
  v ← read_meta st key; if decide (length v = 32%nat) then Some v else None.

Definition get_genesis_hash (st : Store) : option H256 := read_meta_h256 st META_GENESIS_HASH.

Definition get_state_root (st : Store) : option H256 := read_meta_h256 st META_STATE_ROOT.

Definition latest_slot (st : Store) : option Z :=
  v ← read_meta st META_LATEST_SLOT;
  if decide (length v = 8%nat) then Some (le_val v) else None.

Definition withdrawals_root (st : Store) : H256 :=
  default (replicate 32 Byte.x00) (read_meta_h256 st META_WITHDRAWALS_ROOT).

Definition set_meta (st : Store) (m : gmap string bytes) : Store :=
  {| t_accounts := t_accounts st; t_blocks := t_blocks st; t_tx_loc := t_tx_loc st;
     t_tx_meta := t_tx_meta st; t_addr_sigs := t_addr_sigs st; t_smt := t_smt st;
     t_nullifiers := t_nullifiers st; t_meta := m |}.

Definition set_withdrawals_root (st : Store) (root : H256) : Store :=
  set_meta st (<[META_WITHDRAWALS_ROOT := root]> (t_meta st)).

Section Store.
Context `{B3 : Blake3} `{TX : SolanaTx}.
Context `{!Bincode StoredAccount} `{!Bincode Block} `{!Bincode TxLocator}.
Context `{!Bincode ExecutedTransactionMeta} `{!Bincode (nat * list (Z * H256))}.

Definition load_blockhash_queue (st : Store) : outcome StoreError (option BlockhashQueue) :=
  match read_meta st META_BLOCKHASH_QUEUE with
  | Some bs => let? q := ok_or (from_bytes bs) Codec in Ok (Some q)
  | None => Ok None
  end.

(** ** State *)

Definition get_account (st : Store) (pk : Pubkey) : outcome StoreError (option StoredAccount) :=
  match t_accounts st !! pk with
  | Some bs => let? a := ok_or (deserialize bs) Codec in Ok (Some a)
  | None => Ok None
  end.

(** [store.get_account(key).ok().flatten()] *)
Definition get_account_ok (st : Store) (key : Pubkey) : option StoredAccount :=
  default None (ok_opt (get_account st key)).

Definition prepare_state_update (st : Store) (us : list LeafUpdate) : StateUpdate :=
  apply_updates (get_node st) us.

Definition prove_account (st : Store) (pk : Pubkey)
    : outcome StoreError (option StoredAccount * SmtProof) :=
  let? account := get_account st pk in
  Ok (account, prove (get_node st) pk).

Definition write_smt_nodes (table : gmap NodeKey bytes) (u : StateUpdate) : gmap NodeKey bytes :=
  fold_left (write_smt_node (empty_hashes SMT_DEPTH)) (node_writes u) table.

(** One account write of a block: insert the encoding, or remove. *)
Definition write_account (accounts : gmap Pubkey bytes) (w : Pubkey * option StoredAccount)
    : gmap Pubkey bytes :=
  match w.2 with
  | Some acc => <[w.1 := serialize acc]> accounts
  | None => delete w.1 accounts
  end.

(** ** Genesis *)

Definition genesis_writes (g : GenesisConfig) (extra : list (Pubkey * StoredAccount))
    : list (Pubkey * option StoredAccount) :=
  ((λ a, (alloc_pubkey a, Some (new_system (alloc_lamports a)))) <$> allocations g)
  ++ (prod_map id Some <$> extra).

(** The leaf update that goes with an account write. *)
Definition leaf_update (w : Pubkey * option StoredAccount) : LeafUpdate :=
  (w.1, (λ a, account_hash a w.1) <$> w.2).

Definition initialize_genesis (st : Store) (g : GenesisConfig)
    (extra : list (Pubkey * StoredAccount)) : outcome StoreError (Store * H256) :=
  let expected := genesis_hash g in
  match get_genesis_hash st with
  | Some existing =>
      if decide (existing ≠ expected)
      then Err (Invariant "database was initialized with a different genesis")
      else let? r := ok_or (get_state_root st) (Invariant "genesis present but no state root") in
           Ok (st, r)
  | None =>
      let ws := genesis_writes g extra in
      let update := prepare_state_update st (leaf_update <$> ws) in
      Ok ({| t_accounts := fold_left write_account ws (t_accounts st);
             t_blocks := t_blocks st; t_tx_loc := t_tx_loc st; t_tx_meta := t_tx_meta st;
             t_addr_sigs := t_addr_sigs st;
             t_smt := write_smt_nodes (t_smt st) update;
             t_nullifiers := t_nullifiers st;
             t_meta := <[META_STATE_ROOT := new_root update]>
                         (<[META_GENESIS_HASH := expected]> (t_meta st)) |},
          new_root update)
  end.

(** ** Blocks and transactions *)

Definition get_block (st : Store) (sl : Z) : outcome StoreError (option Block) :=
  match t_blocks st !! sl with
  | Some bs => let? b := ok_or (deserialize bs) Codec in Ok (Some b)
  | None => Ok None
  end.

(** A scan that stops once [limit] entries are out; the test follows the push,
    so a limit of zero still yields one entry. *)
Definition take_limit {A} (limit : Z) (l : list A) : list A :=
  take (Z.to_nat (Z.min (Z.max 1 limit) (Z.of_nat (length l)))) l.

Definition block_slots_in_range (st : Store) (from to limit : Z) : list Z :=
  take_limit limit
    (sort_by Z.leb (filter (λ s, from ≤ s ≤ to) (map_to_list (t_blocks st)).*1)).

Fixpoint scan_owner (owner_key : Pubkey) (limit : nat) (rows : list (Pubkey * bytes))
    (out : list (Pubkey * StoredAccount)) : outcome StoreError (list (Pubkey * StoredAccount)) :=
  match rows with
  | [] => Ok out
  | (k, v) :: rows =>
      let? account := ok_or (deserialize v) Codec in
      if decide (owner account = owner_key) then
        if decide (length k = 32%nat) then
          let out := out ++ [(k, account)] in
          if decide (limit ≤ length out)%nat then Ok out else scan_owner owner_key limit rows out
        else Err (Invariant "malformed account key")
      else scan_owner owner_key limit rows out
  end.

Definition key_le {A} (x y : bytes * A) : bool := bytes_le x.1 y.1.

Definition scan_accounts_by_owner (st : Store) (owner_key : Pubkey) (limit : nat)
    : outcome StoreError (list (Pubkey * StoredAccount)) :=
  scan_owner owner_key limit (sort_by key_le (map_to_list (t_accounts st))) [].

Definition get_transaction (st : Store) (sig : Signature)
    : outcome StoreError (option (TxLocator * VersionedTransaction * ExecutedTransactionMeta)) :=
  match t_tx_loc st !! sig with
  | None => Ok None
  | Some lb =>
      let? locator := ok_or (deserialize lb) Codec in
      match t_tx_meta st !! sig with
      | None => Err (Invariant "locator without meta")
      | Some mb =>
          let? meta := ok_or (deserialize mb) Codec in
          match t_blocks st !! loc_slot locator with
          | None => Err (Invariant "locator points at missing block")
          | Some bb =>
              let? block := ok_or (deserialize bb) Codec in
              let? tx := ok_or (transactions block !! Z.to_nat (loc_index locator))
                           (Invariant "locator index out of range") in
              Ok (Some (locator, tx, meta))
          end
      end
  end.

(** The decoding loop of [signatures_for_address]; slicing a short key panics. *)
Fixpoint scan_sigs (limit : nat) (rows : list (bytes * Signature)) (out : list (Signature * Z * Z))
    : outcome StoreError (list (Signature * Z * Z)) :=
  match rows with
  | [] => Ok out
  | (key, v) :: rows =>
      if decide (44 ≤ length key)%nat then
        if decide (length v = 64%nat) then
          let out := out ++ [(v, u64_max - be_val (slice 32 40 key), u32_max - be_val (slice 40 44 key))] in
          if decide (limit ≤ length out)%nat then Ok out else scan_sigs limit rows out
        else Err (Invariant "malformed signature in index")
      else Panic
  end.

Definition scan_start (address : Pubkey) (before : option (Z * Z)) : bytes :=
  match before with
  | Some (sl, ix) => addr_sig_key address sl ix
  | None => address ++ replicate 12 Byte.x00
  end.

Definition signatures_for_address (st : Store) (address : Pubkey) (before : option (Z * Z))
    (limit : nat) : outcome StoreError (list (Signature * Z * Z)) :=
  let start := scan_start address before in
  let stop := address ++ replicate 12 Byte.xff in
  scan_sigs limit
    (sort_by key_le (filter (λ r, bytes_lt start r.1 && bytes_le r.1 stop = true)
                       (map_to_list (t_addr_sigs st)))) [].

(** ** Commit *)

Record Indices := {
  ix_loc : gmap Signature bytes;
  ix_meta : gmap Signature bytes;
  ix_addr : gmap bytes Signature;
}.

(** One iteration of the loop over [transactions.zip(metas).enumerate()];
    [index as u32] keeps the low 32 bits. *)
Definition index_tx (sl : Z) (ts : Indices) (row : nat * (VersionedTransaction * ExecutedTransactionMeta))
    : outcome StoreError Indices :=
  let '(i, (tx, meta)) := row in
  let? sig := ok_or (head (signatures tx)) (Invariant "transaction without signature") in
  let ix := Z.of_nat i mod 2 ^ 32 in
  Ok {| ix_loc := <[sig := serialize {| loc_slot := sl; loc_index := ix |}]> (ix_loc ts);
        ix_meta := <[sig := serialize meta]> (ix_meta ts);
        ix_addr := fold_left (λ t address, <[addr_sig_key address sl ix := sig]> t)
                     (static_account_keys tx) (ix_addr ts) |}.

Definition enumerate {A} (l : list A) : list (nat * A) := imap (λ i x, (i, x)) l.

Definition commit_block (st : Store) (block : Block) (metas : list ExecutedTransactionMeta)
    (account_writes : list (Pubkey * option StoredAccount)) (state_update : StateUpdate)
    (queue : BlockhashQueue) (nullifiers : list bytes) : outcome StoreError Store :=
  let sl := slot (header block) in
  if decide (length metas ≠ length (transactions block))
  then Err (Invariant "metas must parallel block transactions")
  else if decide (state_root (header block) ≠ new_root state_update)
  then Err (Invariant "header state root does not match prepared update")
  else if match latest_slot st with Some latest => bool_decide (sl ≤ latest) | None => false end
  then Err (Invariant "non-monotonic slot")
  else
    let? ts := ofold (index_tx sl)
                 {| ix_loc := t_tx_loc st; ix_meta := t_tx_meta st; ix_addr := t_addr_sigs st |}
                 (enumerate (zip (transactions block) metas)) in
    Ok {| t_accounts := fold_left write_account account_writes (t_accounts st);
          t_blocks := <[sl := serialize block]> (t_blocks st);
          t_tx_loc := ix_loc ts; t_tx_meta := ix_meta ts; t_addr_sigs := ix_addr ts;
          t_smt := write_smt_nodes (t_smt st) state_update;
          t_nullifiers := fold_left (λ t n, <[n := sl]> t) nullifiers (t_nullifiers st);
          t_meta := <[META_BLOCKHASH_QUEUE := to_bytes queue]>
                      (<[META_STATE_ROOT := new_root state_update]>
                         (<[META_LATEST_SLOT := le_bytes 8 sl]> (t_meta st))) |}.

End Store.

(** Concrete codecs for the stored values. *)
Module StoreToy.
#[local] Instance meta_eq_dec : EqDecision ExecutedTransactionMeta.
Proof. solve_decision. Defined.
#[local] Instance meta_countable : Countable ExecutedTransactionMeta.
Proof.
  refine (inj_countable'
    (λ m, (status m, fee m, compute_units_consumed m, log_messages m, pre_balances m, post_balances m))
    (λ '(a, b, c, d, e, f), Build_ExecutedTransactionMeta a b c d e f) _).
  by intros [].
Defined.
#[local] Instance block_eq_dec : EqDecision (@Block Toy.solana_toy).
Proof.
  intros [h t s] [h' t' s'].
  destruct (decide (h = h')), (decide ((t : list Toy.tx) = t')), (decide (s = s'));
    [left; congruence|right; congruence..].
Defined.
#[local] Instance block_countable : Countable (@Block Toy.solana_toy).
Proof.
  refine (inj_countable' (λ b, (header b, (transactions b : list Toy.tx), sequencer_signature b))
            (λ '(a, b, c), @Build_Block Toy.solana_toy a b c) _).
  by intros [].
Defined.

Definition account_codec : Bincode StoredAccount := Toy.bincode_toy _.
Definition block_codec : Bincode (@Block Toy.solana_toy) := Toy.bincode_toy _.
Definition locator_codec : Bincode TxLocator := Toy.bincode_toy _.
Definition meta_codec : Bincode ExecutedTransactionMeta := Toy.bincode_toy _.
Definition queue_codec : Bincode (nat * list (Z * H256)) := Toy.bincode_toy _.
End StoreToy.
