(* ===== verification/StoreProps.v ===== *)
(** * Properties of the store

    The persisted tree commits to exactly the accounts of the accounts table,
    in every store reachable from a genesis by block commits; committed blocks
    and transactions are read back; the rejected commits are the ones the code
    names; genesis initialization is idempotent. *)

From Stdlib Require Import Sorting.Sorted.
From S2P Require Import Prelude External Hash Paths Smt SmtFacts Sorting Genesis Account Block Queue Store.

Section Tree.
Context `{B3 : Blake3}.

Definition all_32 {K} `{Countable K} (m : gmap K H256) : Prop :=
  map_Forall (λ _ h, length h = 32%nat) m.

Lemma insert_path_32 read path depth : ∀ current tree,
  all_32 tree → all_32 (insert_path read path depth current tree).
Proof.
  induction depth as [|bit IH]; intros current tree Ht; [done|].
  cbn [insert_path]. apply IH, map_Forall_insert_2; [apply length_combine_bit|done].
Qed.

Lemma fold_updates_32 D source us : ∀ overlay,
  all_32 overlay → all_32 (fold_left (apply_update D (empty_hashes D) source) us overlay).
Proof.
  induction us as [|u us IH]; intros overlay Ho; [done|].
  cbn [fold_left]. apply IH. unfold apply_update. apply insert_path_32.
  apply map_Forall_insert_2; [|done]. destruct u.2; [apply length_leaf_hash|].
  apply length_empty_hash. lia.
Qed.

Lemma write_nodes_32 e kvs : ∀ table,
  Forall (λ kv, length kv.2 = 32%nat) kvs → all_32 table →
  all_32 (fold_left (write_smt_node e) kvs table).
Proof.
  induction kvs as [|[k v] kvs IH]; intros table Hk Ht; [done|].
  inversion_clear Hk. cbn [fold_left]. apply IH; [done|]. unfold write_smt_node.
  case_decide; [by apply map_Forall_delete|by apply map_Forall_insert_2].
Qed.

Lemma get_node_32 st k : all_32 (t_smt st) → get_node st k = t_smt st !! k.
Proof.
  intros H. unfold get_node. destruct (t_smt st !! k) as [v|] eqn:Hv; [|done]. simpl.
  by rewrite decide_True by (exact (H k v Hv)).
Qed.

Lemma source_presents_ext D s s' L :
  (∀ k, s k = s' k) → source_presents D s L → source_presents D s' L.
Proof. intros H Hs d p Hd Hp. rewrite <- H. by apply Hs. Qed.

(** One committed batch on the persisted table. *)
Lemma write_smt_nodes_step st L us :
  all_32 (t_smt st) → source_presents SMT_DEPTH (get_node st) L →
  let u := prepare_state_update st us in
  let t := write_smt_nodes (t_smt st) u in
  all_32 t
  ∧ source_presents SMT_DEPTH (λ k, t !! k) (set_updates SMT_DEPTH L us)
  ∧ new_root u = subtree (set_updates SMT_DEPTH L us) SMT_DEPTH [].
Proof.
  intros H32 Hs u t. unfold t, u, write_smt_nodes, prepare_state_update. split_and!.
  - apply write_nodes_32; [|done]. apply list.Forall_forall. intros [k v] Hin.
    apply elem_of_map_to_list in Hin. cbn [snd].
    refine (fold_updates_32 SMT_DEPTH (get_node st) us ∅ _ k v Hin). apply map_Forall_empty.
  - apply write_nodes_presents; [apply smt_depth_le|].
    assert (Hp : presents SMT_DEPTH
      (overlay_read (empty_hashes SMT_DEPTH) (get_node st)
         (fold_left (apply_update SMT_DEPTH (empty_hashes SMT_DEPTH) (get_node st)) us ∅))
      (set_updates SMT_DEPTH L us)).
    { apply fold_updates_presents; [apply smt_depth_le|]. by apply overlay_read_empty. }
    intros d p Hd Hpl. rewrite <- (Hp d p Hd Hpl). unfold overlay_read.
    by rewrite get_node_32.
  - by apply apply_updates_root.
Qed.

End Tree.

Section Store.
Context `{B3 : Blake3} `{TX : SolanaTx}.
Context `{!Bincode StoredAccount} `{!Bincode Block} `{!Bincode TxLocator}.
Context `{!Bincode ExecutedTransactionMeta} `{!Bincode (nat * list (Z * H256))}.

(** The decoded account at an address. *)
Definition account_at (accounts : gmap Pubkey bytes) (pk : Pubkey) : option StoredAccount :=
  bs ← accounts !! pk; deserialize bs.

Definition account_leaf (accounts : gmap Pubkey bytes) (pk : Pubkey) : H256 :=
  leaf_value pk ((λ a, account_hash a pk) <$> account_at accounts pk).

Lemma account_at_write accounts w pk :
  account_at (write_account accounts w) pk = if decide (w.1 = pk) then w.2 else account_at accounts pk.
Proof.
  unfold account_at, write_account. destruct w as [k [a|]]; cbn [fst snd]; case_decide as Hk; subst.
  - rewrite lookup_insert_eq. simpl. apply deserialize_serialize.
  - by rewrite lookup_insert_ne.
  - by rewrite lookup_delete_eq.
  - by rewrite lookup_delete_ne.
Qed.

Definition decodes (accounts : gmap Pubkey bytes) : Prop :=
  map_Forall (λ _ bs, is_Some (deserialize (A := StoredAccount) bs)) accounts.

Lemma writes_decode ws : ∀ accounts,
  decodes accounts → decodes (fold_left write_account ws accounts).
Proof.
  induction ws as [|[k [a|]] ws IH]; intros accounts Hd; cbn [fold_left]; [done|apply IH..].
  - apply map_Forall_insert_2; [|done]. rewrite deserialize_serialize. by eexists.
  - by apply map_Forall_delete.
Qed.

Lemma get_account_at st pk :
  decodes (t_accounts st) → get_account st pk = Ok (account_at (t_accounts st) pk).
Proof.
  intros Hd. unfold get_account, account_at. destruct (t_accounts st !! pk) as [bs|] eqn:Hb; [|done].
  destruct (Hd _ _ Hb) as [a Ha]. simpl. by rewrite Ha.
Qed.

Section Reach.
(** The addresses in use; their tree positions are distinct. *)
Context (used : Pubkey → Prop).
Context (used_distinct : ∀ a b, used a → used b → key_path a = key_path b → a = b).

Lemma writes_leaves ws : ∀ L accounts,
  Forall (λ w : Pubkey * option StoredAccount, used w.1) ws →
  (∀ pk, used pk → L (prefix_bits SMT_DEPTH (key_path pk)) = account_leaf accounts pk) →
  ∀ pk, used pk →
  set_updates SMT_DEPTH L (leaf_update <$> ws) (prefix_bits SMT_DEPTH (key_path pk))
  = account_leaf (fold_left write_account ws accounts) pk.
Proof.
  induction ws as [|w ws IH]; intros L accounts Hu HL pk Hpk; [by apply HL|].
  inversion_clear Hu as [|? ? Hw Hws]. rewrite fmap_cons, set_updates_cons. cbn [fold_left].
  apply IH; [done| |done]. intros pk' Hpk'. unfold set_update, account_leaf.
  rewrite account_at_write. unfold leaf_update. cbn [fst snd].
  destruct (decide (w.1 = pk')) as [<-|Hne].
  - rewrite set_leaf_eq. by destruct w.2.
  - rewrite set_leaf_ne; [by apply HL|]. intros Heq%key_path_bits. apply Hne. symmetry. auto.
Qed.

(** The tree and the state root of a store commit to its accounts. *)
Definition store_commits (st : Store) : Prop :=
  decodes (t_accounts st) ∧ all_32 (t_smt st) ∧
  ∃ L, source_presents SMT_DEPTH (get_node st) L
       ∧ get_state_root st = Some (subtree L SMT_DEPTH [])
       ∧ (∀ k, length (L k) = 32%nat)
       ∧ (∀ pk, used pk → L (prefix_bits SMT_DEPTH (key_path pk)) = account_leaf (t_accounts st) pk).

(** Stores reachable from a genesis by the writer's operations; each block is
    committed with the update prepared for its own account writes. *)
Inductive reachable : Store → Prop :=
| reach_genesis g extra st root :
    Forall (λ w : Pubkey * option StoredAccount, used w.1) (genesis_writes g extra) →
    initialize_genesis open_store g extra = Ok (st, root) → reachable st
| reach_commit st st' block metas ws queue nullifiers :
    reachable st → Forall (λ w, used w.1) ws →
    commit_block st block metas ws (prepare_state_update st (leaf_update <$> ws)) queue nullifiers
    = Ok st' → reachable st'
| reach_withdrawals_root st root :
    reachable st → reachable (set_withdrawals_root st root).

Lemma commit_tables st st' block metas ws u queue nullifiers :
  commit_block st block metas ws u queue nullifiers = Ok st' →
  t_accounts st' = fold_left write_account ws (t_accounts st)
  ∧ t_smt st' = write_smt_nodes (t_smt st) u
  ∧ t_blocks st' = <[slot (header block) := serialize block]> (t_blocks st)
  ∧ t_nullifiers st' = fold_left (λ t n, <[n := slot (header block)]> t) nullifiers (t_nullifiers st)
  ∧ t_meta st' = <[META_BLOCKHASH_QUEUE := to_bytes queue]>
                   (<[META_STATE_ROOT := new_root u]>
                      (<[META_LATEST_SLOT := le_bytes 8 (slot (header block))]> (t_meta st)))
  ∧ ∃ ts, ofold (index_tx (slot (header block)))
            {| ix_loc := t_tx_loc st; ix_meta := t_tx_meta st; ix_addr := t_addr_sigs st |}
            (enumerate (zip (transactions block) metas)) = Ok ts
          ∧ t_tx_loc st' = ix_loc ts ∧ t_tx_meta st' = ix_meta ts ∧ t_addr_sigs st' = ix_addr ts.
Proof.
  unfold commit_block. destruct (decide _); [done|]. destruct (decide _); [done|].
  case_match; [done|]. intros (ts & Hts & Hst)%obind_Ok. injection Hst as <-. simpl.
  repeat split; eauto.
Qed.

Lemma genesis_tables st g extra st' r :
  get_genesis_hash st = None → initialize_genesis st g extra = Ok (st', r) →
  let ws := genesis_writes g extra in
  let u := prepare_state_update st (leaf_update <$> ws) in
  t_accounts st' = fold_left write_account ws (t_accounts st)
  ∧ t_smt st' = write_smt_nodes (t_smt st) u
  ∧ t_blocks st' = t_blocks st
  ∧ t_meta st' = <[META_STATE_ROOT := new_root u]> (<[META_GENESIS_HASH := genesis_hash g]> (t_meta st))
  ∧ r = new_root u.
Proof.
  intros Hn H ws u. unfold initialize_genesis in H. rewrite Hn in H. fold ws in H.
  change (prepare_state_update st (leaf_update <$> ws)) with u in H. clearbody u ws.
  cbv zeta in H. assert (∀ A B (a a' : A) (b b' : B), Ok (E := StoreError) (a, b) = Ok (a', b') → a = a' ∧ b = b')
    as Hinj by (intros; simplify_eq; done).
  apply Hinj in H as [<- <-]. done.
Qed.

Lemma genesis_tx_table st g extra st' r :
  get_genesis_hash st = None → initialize_genesis st g extra = Ok (st', r) →
  t_tx_loc st' = t_tx_loc st ∧ t_addr_sigs st' = t_addr_sigs st.
Proof.
  intros Hn H. unfold initialize_genesis in H. rewrite Hn in H. cbv zeta in H.
  revert H. generalize (prepare_state_update st (leaf_update <$> genesis_writes g extra)) as u. intros u H.
  assert (∀ A B (a a' : A) (b b' : B), Ok (E := StoreError) (a, b) = Ok (a', b') → a = a' ∧ b = b')
    as Hinj by (intros; simplify_eq; done).
  apply Hinj in H as [<- _]. done.
Qed.

Lemma state_root_read st root :
  t_meta st !! META_STATE_ROOT = Some root → length root = 32%nat → get_state_root st = Some root.
Proof.
  intros Hm Hl. unfold get_state_root, read_meta_h256, read_meta. rewrite Hm.
  cbn [mbind option_bind]. by rewrite decide_True.
Qed.

Lemma leaves_step st L ws st' :
  decodes (t_accounts st) → all_32 (t_smt st) → source_presents SMT_DEPTH (get_node st) L →
  (∀ k, length (L k) = 32%nat) →
  (∀ pk, used pk → L (prefix_bits SMT_DEPTH (key_path pk)) = account_leaf (t_accounts st) pk) →
  Forall (λ w, used w.1) ws →
  let u := prepare_state_update st (leaf_update <$> ws) in
  t_accounts st' = fold_left write_account ws (t_accounts st) →
  t_smt st' = write_smt_nodes (t_smt st) u →
  get_state_root st' = Some (new_root u) → store_commits st'.
Proof.
  intros Hd H32 Hs Hlen HL Hu u Ha Hsm Hr.
  destruct (write_smt_nodes_step st L (leaf_update <$> ws) H32 Hs) as (H32' & Hs' & Hroot).
  fold u in H32', Hs', Hroot. unfold store_commits. rewrite Ha. split_and!.
  - by apply writes_decode.
  - by rewrite Hsm.
  - exists (set_updates SMT_DEPTH L (leaf_update <$> ws)). split_and!.
    + eapply source_presents_ext; [|exact Hs']. intros k.
      rewrite get_node_32; rewrite Hsm; done.
    + by rewrite Hr, Hroot.
    + by apply set_updates_length.
    + by apply writes_leaves.
Qed.

Lemma length_new_root st us L :
  all_32 (t_smt st) → source_presents SMT_DEPTH (get_node st) L → (∀ k, length (L k) = 32%nat) →
  length (new_root (prepare_state_update st us)) = 32%nat.
Proof.
  intros H32 Hs Hlen. destruct (write_smt_nodes_step st L us H32 Hs) as (_ & _ & ->).
  apply length_subtree. by apply set_updates_length.
Qed.

Lemma reachable_commits st : reachable st → store_commits st.
Proof.
  induction 1 as [g extra st root Hu Hg|st st' block metas ws queue nullifiers Hr IH Hu Hc
                 |st root Hr IH].
  - apply genesis_tables in Hg as (Ha & Hsm & _ & Hm & _); [|done].
    assert (H0 : source_presents SMT_DEPTH (get_node open_store) no_leaves).
    { intros d p Hd Hp. unfold get_node. cbn [t_smt open_store]. rewrite lookup_empty.
      by apply (empty_source_presents SMT_DEPTH d p). }
    assert (H1 : all_32 (t_smt open_store)) by apply map_Forall_empty.
    eapply (leaves_step open_store no_leaves (genesis_writes g extra));
      [apply map_Forall_empty|exact H1|exact H0|apply length_no_leaves| |exact Hu|exact Ha|exact Hsm|].
    + intros pk _. unfold account_leaf, account_at. cbn [t_accounts open_store].
      by rewrite lookup_empty.
    + apply state_root_read; [by rewrite Hm, lookup_insert_eq|].
      by apply (length_new_root _ _ no_leaves H1 H0), length_no_leaves.
  - destruct IH as (Hd & H32 & L & Hs & _ & Hlen & HL).
    apply commit_tables in Hc as (Ha & Hsm & _ & _ & Hm & _).
    apply (leaves_step st L ws st' Hd H32 Hs Hlen HL Hu Ha Hsm).
    apply state_root_read; [by rewrite Hm, lookup_insert_ne, lookup_insert_eq|].
    by apply (length_new_root st _ L).
  - destruct IH as (Hd & H32 & L & Hs & Hroot & Hrest). split_and!; [done|done|].
    exists L. split_and!; [done| |apply Hrest|apply Hrest].
    rewrite <- Hroot. unfold get_state_root, read_meta_h256, read_meta.
    cbn [t_meta set_withdrawals_root set_meta]. by rewrite lookup_insert_ne.
Qed.

(** C18: in every store reachable from a genesis by block commits, asking for an
    account with its proof always succeeds, and the proof verifies against the
    committed state root for exactly the account returned: inclusion of its
    hash, or absence. *)
Theorem prove_account_verifies st pk :
  reachable st → used pk →
  ∃ root acc proof,
    get_state_root st = Some root ∧ prove_account st pk = Ok (acc, proof)
    ∧ verify root pk ((λ a, account_hash a pk) <$> acc) proof = true.
Proof.
  intros Hr Hpk. destruct (reachable_commits st Hr) as (Hd & H32 & L & Hs & Hroot & Hlen & HL).
  exists (subtree L SMT_DEPTH []), (account_at (t_accounts st) pk), (prove (get_node st) pk).
  split_and!; [done| |].
  - unfold prove_account. by rewrite get_account_at.
  - rewrite verify_unfold.
    apply (prove_then_verify SMT_DEPTH smt_depth_le _ _ (length_key_path pk)) with (L := L);
      [done| |done].
    symmetry. by apply HL.
Qed.

End Reach.

(** ** Reading back a commit *)

Lemma nullifiers_written ns sl : ∀ (t : gmap bytes Z) n,
  is_Some (fold_left (λ t n, <[n := sl]> t) ns t !! n) ↔ n ∈ ns ∨ is_Some (t !! n).
Proof.
  induction ns as [|m ns IH]; intros t n; cbn [fold_left]; [set_solver|].
  rewrite IH, elem_of_cons, lookup_insert_is_Some. destruct (decide (m = n)); naive_solver.
Qed.

Lemma account_at_writes ws : ∀ accounts pk,
  account_at (fold_left write_account ws accounts) pk
  = fold_left (λ acc w, if decide (w.1 = pk) then w.2 else acc) ws (account_at accounts pk).
Proof.
  induction ws as [|w ws IH]; intros accounts pk; [done|]. cbn [fold_left].
  by rewrite IH, account_at_write.
Qed.

(** The writes of a map, in any order, set each account to its entry. *)
Lemma account_at_map (m : gmap Pubkey (option StoredAccount)) accounts pk :
  account_at (fold_left write_account (map_to_list m) accounts) pk
  = match m !! pk with Some w => w | None => account_at accounts pk end.
Proof.
  rewrite account_at_writes.
  assert (Hg : ∀ l, NoDup l.*1 → ∀ acc,
    fold_left (λ acc (w : Pubkey * option StoredAccount), if decide (w.1 = pk) then w.2 else acc) l acc
    = match (list_to_map l : gmap Pubkey (option StoredAccount)) !! pk with Some w => w | None => acc end).
  { induction l as [|[k v] l IH]; intros Hnd acc; [by cbn|]. cbn [fmap list_fmap fst] in Hnd.
    apply list.NoDup_cons in Hnd as [Hni Hnd]. cbn [fold_left fst snd]. rewrite IH by done.
    rewrite list_to_map_cons. destruct (decide (k = pk)) as [->|Hne].
    - rewrite lookup_insert_eq. by rewrite not_elem_of_list_to_map_1.
    - by rewrite lookup_insert_ne. }
  rewrite Hg by apply NoDup_fst_map_to_list. by rewrite list_to_map_to_list.
Qed.

(** A committed block is read back at its slot, which was beyond the
    latest slot and becomes the latest; other blocks are untouched; every
    account reads as its last write in the block, or as before; the spent
    nullifiers are the block's added to the earlier ones; and the saved
    blockhash queue loads back. *)
Theorem commit_block_reads_back st st' block metas ws u queue nullifiers :
  u64 (slot (header block)) → decodes (t_accounts st) →
  index_matches queue → NoDup (hashes (entries queue)) →
  commit_block st block metas ws u queue nullifiers = Ok st' →
  get_block st' (slot (header block)) = Ok (Some block)
  ∧ (∀ s, s ≠ slot (header block) → get_block st' s = get_block st s)
  ∧ (∀ s, latest_slot st = Some s → s < slot (header block))
  ∧ latest_slot st' = Some (slot (header block))
  ∧ (∀ pk, get_account st' pk
           = Ok (fold_left (λ acc w, if decide (w.1 = pk) then w.2 else acc) ws
                   (account_at (t_accounts st) pk)))
  ∧ (∀ n, is_nullifier_spent st' n = true ↔ n ∈ nullifiers ∨ is_nullifier_spent st n = true)
  ∧ load_blockhash_queue st' = Ok (Some queue).
Proof.
  intros Hu Hd Hq Hnd Hc. pose proof Hc as Hc'.
  apply commit_tables in Hc' as (Ha & _ & Hb & Hn & Hm & _). split_and!.
  - unfold get_block. rewrite Hb, lookup_insert_eq. by rewrite deserialize_serialize.
  - intros s Hs. unfold get_block. by rewrite Hb, lookup_insert_ne.
  - intros s Hs. unfold commit_block in Hc. rewrite Hs in Hc.
    destruct (decide _) in Hc; [done|]. destruct (decide _) in Hc; [done|].
    destruct (bool_decide (slot (header block) ≤ s)) eqn:Hle; [done|].
    apply bool_decide_eq_false in Hle. lia.
  - unfold latest_slot, read_meta. rewrite Hm, !lookup_insert_ne, lookup_insert_eq by done.
    cbn [mbind option_bind]. rewrite decide_True by apply length_le_bytes.
    by rewrite le64_roundtrip.
  - intros pk. rewrite get_account_at, Ha; [by rewrite account_at_writes|].
    rewrite Ha. by apply writes_decode.
  - intros n. unfold is_nullifier_spent. rewrite !bool_decide_eq_true, Hn. apply nullifiers_written.
  - unfold load_blockhash_queue, read_meta. rewrite Hm, lookup_insert_eq.
    assert (Hr : from_bytes (to_bytes queue) = Some queue); [|by rewrite Hr].
    unfold from_bytes, to_bytes. rewrite deserialize_serialize. cbn [mbind option_bind].
    f_equal. destruct queue as [c es ix]. cbn in *. f_equal. by apply (rebuild_index c).
Qed.

(** ** Transactions *)

Definition first_sig (row : nat * (VersionedTransaction * ExecutedTransactionMeta)) : option Signature :=
  head (signatures row.2.1).

Lemma index_other sl rows : ∀ ts ts' sig,
  Forall (λ r, first_sig r ≠ Some sig) rows → ofold (index_tx sl) ts rows = Ok ts' →
  ix_loc ts' !! sig = ix_loc ts !! sig ∧ ix_meta ts' !! sig = ix_meta ts !! sig.
Proof.
  induction rows as [|[i [tx m]] rows IH]; intros ts ts' sig Hne H.
  { injection H as <-. done. }
  inversion_clear Hne as [|? ? Hs Hr]. cbn [ofold index_tx] in H.
  unfold first_sig in Hs. cbn [fst snd] in Hs.
  destruct (head (signatures tx)) as [s|]; [|done]. cbn [ok_or obind] in H.
  destruct (IH _ _ _ Hr H) as [-> ->]. cbn [ix_loc ix_meta].
  rewrite !lookup_insert_ne by congruence. done.
Qed.

Lemma index_found sl rows1 i tx m rows2 ts ts' sig :
  first_sig (i, (tx, m)) = Some sig → Forall (λ r, first_sig r ≠ Some sig) rows2 →
  ofold (index_tx sl) ts (rows1 ++ (i, (tx, m)) :: rows2) = Ok ts' →
  ix_loc ts' !! sig = Some (serialize {| loc_slot := sl; loc_index := Z.of_nat i mod 2 ^ 32 |})
  ∧ ix_meta ts' !! sig = Some (serialize m).
Proof.
  intros Hs Hr. rewrite ofold_app. intros (t1 & _ & H)%obind_Ok.
  cbn [ofold index_tx] in H. unfold first_sig in Hs. cbn [fst snd] in Hs.
  rewrite Hs in H. cbn [ok_or obind] in H.
  destruct (index_other _ _ _ _ _ Hr H) as [-> ->]. cbn [ix_loc ix_meta].
  by rewrite !lookup_insert_eq.
Qed.

Lemma enumerate_split {A} (l : list A) i x :
  l !! i = Some x →
  enumerate l = take i (enumerate l) ++ (i, x) :: drop (S i) (enumerate l).
Proof.
  intros H. symmetry. apply take_drop_middle. unfold enumerate. by rewrite list_lookup_imap, H.
Qed.

Lemma transaction_found st st' block metas ws u queue nullifiers i tx meta sig :
  commit_block st block metas ws u queue nullifiers = Ok st' →
  Z.of_nat (length (transactions block)) ≤ u32_max →
  transactions block !! i = Some tx → metas !! i = Some meta → head (signatures tx) = Some sig →
  (∀ j tx', (i < j)%nat → transactions block !! j = Some tx' → head (signatures tx') ≠ Some sig) →
  get_transaction st' sig
  = Ok (Some ({| loc_slot := slot (header block); loc_index := Z.of_nat i |}, tx, meta)).
Proof.
  intros Hc Hlen Htx Hmeta Hsig Hlast.
  apply commit_tables in Hc as (_ & _ & Hb & _ & _ & ts & Hts & Hl & Hm & _).
  assert (Hi : (i < length (transactions block))%nat) by (by eapply lookup_lt_Some).
  rewrite (enumerate_split _ i (tx, meta)) in Hts by (by rewrite lookup_zip_with, Htx, Hmeta).
  apply (index_found _ _ _ _ _ _ _ _ sig) in Hts as [Hloc Hmt]; [|done|].
  - unfold get_transaction. rewrite Hl, Hloc, Hm, Hmt. cbn [ok_or obind].
    rewrite !deserialize_serialize. cbn [ok_or obind loc_slot loc_index].
    rewrite Hb, lookup_insert_eq, deserialize_serialize. cbn [ok_or obind].
    unfold u32_max in Hlen. rewrite Z.mod_small by lia. by rewrite Nat2Z.id, Htx.
  - apply list.Forall_forall. intros [j [tx' m']] (k & Hk)%list_elem_of_lookup.
    rewrite lookup_drop in Hk. unfold enumerate in Hk. rewrite list_lookup_imap in Hk.
    apply fmap_Some in Hk as ([a b] & Hz & Heq). simplify_eq.
    apply lookup_zip_with_Some in Hz as (a' & b' & [= -> ->] & Ha & _).
    unfold first_sig. cbn [fst snd]. by apply (Hlast (S i + k)%nat a'); [lia|].
Qed.

(** A transaction of a committed block is found by its first signature,
    with its locator and its own metadata, unless a later transaction of the
    block has the same first signature. *)
Theorem committed_transaction_found st st' block metas ws u queue nullifiers i tx meta sig :
  commit_block st block metas ws u queue nullifiers = Ok st' →
  Z.of_nat (length (transactions block)) ≤ u32_max →
  transactions block !! i = Some tx → metas !! i = Some meta → head (signatures tx) = Some sig →
  (∀ j tx', (i < j)%nat → transactions block !! j = Some tx' → head (signatures tx') ≠ Some sig) →
  get_transaction st' sig
  = Ok (Some ({| loc_slot := slot (header block); loc_index := Z.of_nat i |}, tx, meta)).
Proof. apply transaction_found. Qed.

Lemma index_total sl rows : ∀ ts,
  is_ok (ofold (index_tx sl) ts rows) = true ↔ Forall (λ r, first_sig r ≠ None) rows.
Proof.
  induction rows as [|[i [tx m]] rows IH]; intros ts; cbn [ofold]; [done|].
  rewrite list.Forall_cons. unfold first_sig at 1. cbn [index_tx fst snd].
  destruct (head (signatures tx)); cbn [ok_or obind is_ok]; [|naive_solver].
  rewrite IH. naive_solver.
Qed.

Lemma zip_first_sigs (txs : list VersionedTransaction) (metas : list ExecutedTransactionMeta) :
  length metas = length txs →
  Forall (λ r, first_sig r ≠ None) (enumerate (zip txs metas)) ↔
  Forall (λ tx, signatures tx ≠ []) txs.
Proof.
  intros Hl. rewrite !Forall_lookup. unfold enumerate, first_sig. split.
  - intros H i tx Htx. destruct (lookup_lt_is_Some_2 metas i) as [m Hm].
    { rewrite Hl. by eapply lookup_lt_Some. }
    specialize (H i (i, (tx, m))). rewrite list_lookup_imap, lookup_zip_with, Htx, Hm in H.
    specialize (H eq_refl). cbn in H. by destruct (signatures tx).
  - intros H i [j [tx m]] Hr. rewrite list_lookup_imap in Hr.
    apply fmap_Some in Hr as ([a b] & Hz & Heq). simplify_eq.
    apply lookup_zip_with_Some in Hz as (a' & b' & [= -> ->] & Ha & _). cbn.
    specialize (H _ _ Ha). by destruct (signatures a').
Qed.

Lemma commit_accepts st block metas ws u queue nullifiers :
  (is_ok (commit_block st block metas ws u queue nullifiers) = true ↔
   length metas = length (transactions block)
   ∧ state_root (header block) = new_root u
   ∧ (∀ s, latest_slot st = Some s → s < slot (header block))
   ∧ Forall (λ tx, signatures tx ≠ []) (transactions block))
  ∧ commit_block st block metas ws u queue nullifiers ≠ Panic.
Proof.
  unfold commit_block.
  destruct (decide (length metas ≠ _)) as [|Hl%dec_stable]; [split; [|done]; naive_solver|].
  destruct (decide (state_root (header block) ≠ _)) as [|Hr%dec_stable]; [split; [|done]; naive_solver|].
  assert (Hslot : match latest_slot st with Some s => bool_decide (slot (header block) ≤ s) | None => false end
                  = false ↔ ∀ s, latest_slot st = Some s → s < slot (header block)).
  { destruct (latest_slot st) as [s|]; [|naive_solver]. rewrite bool_decide_eq_false. split.
    - intros H s' [= <-]. lia.
    - intros H. specialize (H s eq_refl). lia. }
  destruct (match latest_slot st with Some _ => _ | None => _ end) eqn:Hm.
  { split; [|done]. split; [done|]. intros (_ & _ & H & _). apply Hslot in H. congruence. }
  pose proof (proj1 Hslot eq_refl) as Hs. rewrite <- (zip_first_sigs _ metas) by done.
  set (ts0 := {| ix_loc := _; ix_meta := _; ix_addr := _ |}).
  rewrite <- (index_total (slot (header block)) _ ts0).
  assert (Hnp : ofold (index_tx (slot (header block))) ts0 (enumerate (zip (transactions block) metas)) ≠ Panic).
  { generalize (enumerate (zip (transactions block) metas)) as rows. clear.
    generalize ts0. intros ts rows. revert ts.
    induction rows as [|[i [tx m]] rows IH]; intros ts; cbn [ofold index_tx]; [done|].
    destruct (head (signatures tx)); cbn [ok_or obind]; [apply IH|done]. }
  destruct (ofold _ _ _); cbn [obind is_ok]; naive_solver.
Qed.

(** A commit is accepted exactly when the metadata parallels the
    transactions, the header carries the prepared root, the slot is beyond the
    latest one and every transaction is signed; it never panics. *)
Theorem commit_block_accepts st block metas ws u queue nullifiers :
  (is_ok (commit_block st block metas ws u queue nullifiers) = true ↔
   length metas = length (transactions block)
   ∧ state_root (header block) = new_root u
   ∧ (∀ s, latest_slot st = Some s → s < slot (header block))
   ∧ Forall (λ tx, signatures tx ≠ []) (transactions block))
  ∧ commit_block st block metas ws u queue nullifiers ≠ Panic.
Proof. apply commit_accepts. Qed.

(** ** Genesis *)

Lemma length_genesis_hash g : length (genesis_hash g) = 32%nat.
Proof. apply blake3_length. Qed.

Lemma fresh_presents : source_presents SMT_DEPTH (get_node open_store) no_leaves.
Proof.
  intros d p Hd Hp. unfold get_node. cbn [t_smt open_store]. rewrite lookup_empty.
  by apply (empty_source_presents SMT_DEPTH d p).
Qed.

(** Initializing a fresh database succeeds; repeating it with the same
    genesis changes nothing and returns the same root, whatever bootstrap
    accounts are passed; a genesis with another hash is refused. *)
Theorem initialize_genesis_idempotent g extra extra' g' :
  ∃ st root, initialize_genesis open_store g extra = Ok (st, root)
  ∧ initialize_genesis st g extra' = Ok (st, root)
  ∧ (genesis_hash g' ≠ genesis_hash g →
     initialize_genesis st g' extra'
     = Err (Invariant "database was initialized with a different genesis")).
Proof.
  destruct (initialize_genesis open_store g extra) as [[st root]|e|] eqn:Hg.
  2,3: by unfold initialize_genesis in Hg.
  exists st, root. split; [done|].
  apply genesis_tables in Hg as (_ & _ & _ & Hm & Hroot); [|done].
  assert (Hgh : get_genesis_hash st = Some (genesis_hash g)).
  { unfold get_genesis_hash, read_meta_h256, read_meta.
    rewrite Hm, lookup_insert_ne, lookup_insert_eq by done. cbn [mbind option_bind].
    by rewrite decide_True by apply length_genesis_hash. }
  assert (Hsr : get_state_root st = Some root).
  { apply state_root_read; [by rewrite Hm, lookup_insert_eq, Hroot|]. rewrite Hroot.
    apply (length_new_root _ _ no_leaves); [apply map_Forall_empty|apply fresh_presents|].
    apply length_no_leaves. }
  unfold initialize_genesis. rewrite Hgh. split.
  - rewrite decide_False by (intros ?; done). rewrite Hsr. done.
  - intros Hne. by rewrite decide_True by congruence.
Qed.

(** ** Signatures of an address *)

(** Every row of the index is a key made by [addr_sig_key] with a signature. *)
Definition index_wf (st : Store) : Prop :=
  map_Forall (λ k v, length v = 64%nat ∧
    ∃ pk s i, length pk = 32%nat ∧ u64 s ∧ u32 i ∧ k = addr_sig_key pk s i) (t_addr_sigs st).

Definition newer (x y : Signature * Z * Z) : Prop :=
  y.1.2 < x.1.2 ∨ y.1.2 = x.1.2 ∧ y.2 < x.2.

Definition older_than (before : option (Z * Z)) (s i : Z) : Prop :=
  match before with
  | Some (s0, i0) => s < s0 ∨ s = s0 ∧ i < i0
  | None => (s, i) ≠ (u64_max, u32_max)
  end.

Definition decode_row (r : bytes * Signature) : Signature * Z * Z :=
  (r.2, u64_max - be_val (slice 32 40 r.1), u32_max - be_val (slice 40 44 r.1)).

Lemma scan_sigs_take limit rows : ∀ out,
  Forall (λ r, (44 ≤ length r.1)%nat ∧ length r.2 = 64%nat) rows →
  scan_sigs limit rows out
  = Ok (out ++ take (Nat.max 1 (limit - length out)) (decode_row <$> rows)).
Proof.
  induction rows as [|[k v] rows IH]; intros out Hr; cbn [scan_sigs].
  { by rewrite fmap_nil, take_nil, app_nil_r. }
  inversion_clear Hr as [|? ? [Hk Hv] Hrs]. cbn [fst snd] in *.
  rewrite decide_True by done. rewrite decide_True by done. rewrite fmap_cons.
  rewrite length_app. cbn [length]. unfold decode_row at 1. cbn [fst snd].
  destruct (decide _) as [Hle|Hgt].
  - replace (Nat.max 1 (limit - length out)) with 1%nat by lia. done.
  - rewrite IH by done. rewrite length_app. cbn [length].
    replace (Nat.max 1 (limit - length out)) with (S (Nat.max 1 (limit - (length out + 1)))) by lia.
    cbn [take]. by rewrite <- app_assoc.
Qed.

(** The order of two index keys of one address. *)
Definition tail_val (s i : Z) : Z := (u64_max - s) * 2 ^ 32 + (u32_max - i).

Lemma addr_tail s i : u64 s → u32 i →
  be_val (be_bytes 8 (u64_max - s) ++ be_bytes 4 (u32_max - i)) = tail_val s i.
Proof.
  intros Hs Hi. rewrite be_val_app, length_be_bytes, !be_val_be_bytes.
  - done.
  - unfold u32, u32_max in *. simpl. lia.
  - unfold u64, u64_max in *. simpl. lia.
Qed.

Lemma addr_key_le a s i s' i' : u64 s → u32 i → u64 s' → u32 i' →
  bytes_le (addr_sig_key a s i) (addr_sig_key a s' i') = (tail_val s i <=? tail_val s' i').
Proof.
  intros. unfold addr_sig_key. rewrite bytes_le_app, bytes_le_be_val.
  - by rewrite !addr_tail.
  - by rewrite !length_app, !length_be_bytes.
Qed.

Lemma tail_val_lt s i s' i' : u32 i → u32 i' →
  tail_val s i < tail_val s' i' ↔ s' < s ∨ s' = s ∧ i' < i.
Proof. unfold tail_val, u32, u64_max, u32_max. lia. Qed.

Lemma decode_key sig a s i : length a = 32%nat → u64 s → u32 i →
  decode_row (addr_sig_key a s i, sig) = (sig, s, i).
Proof.
  intros Ha Hs Hi. unfold decode_row. cbn [fst snd]. unfold addr_sig_key.
  assert (H1 : slice 32 40 (a ++ be_bytes 8 (u64_max - s) ++ be_bytes 4 (u32_max - i))
               = be_bytes 8 (u64_max - s)).
  { unfold slice. rewrite drop_app_length' by done. rewrite take_app_length'; [done|].
    by rewrite length_be_bytes. }
  assert (H2 : slice 40 44 (a ++ be_bytes 8 (u64_max - s) ++ be_bytes 4 (u32_max - i))
               = be_bytes 4 (u32_max - i)).
  { unfold slice. rewrite app_assoc, drop_app_length'.
    - apply take_ge. rewrite length_be_bytes. lia.
    - by rewrite length_app, Ha, length_be_bytes. }
  rewrite H1, H2, !be_val_be_bytes.
  - f_equal; [f_equal|]; lia.
  - unfold u32, u32_max in *. simpl. lia.
  - unfold u64, u64_max in *. simpl. lia.
Qed.

Lemma addr_key_prefix a b s i p q :
  length a = 32%nat → length b = 32%nat → length p = 12%nat → length q = 12%nat →
  bytes_le (a ++ p) (addr_sig_key b s i) = true → bytes_le (addr_sig_key b s i) (a ++ q) = true →
  a = b.
Proof.
  intros Ha Hb Hp Hq H1 H2. unfold addr_sig_key in *.
  rewrite bytes_le_be_val in H1, H2 by (rewrite !length_app, !length_be_bytes; lia).
  apply Z.leb_le in H1, H2. rewrite !be_val_app, !length_app, !length_be_bytes in H1, H2.
  rewrite Hp in H1. rewrite Hq in H2.
  assert (Hr : be_val a = be_val b).
  { pose proof (be_val_range p) as P. pose proof (be_val_range q) as Q. rewrite Hp in P. rewrite Hq in Q.
    pose proof (be_val_range (be_bytes 8 (u64_max - s))) as R1.
    pose proof (be_val_range (be_bytes 4 (u32_max - i))) as R2. rewrite length_be_bytes in R1, R2.
    change (256 ^ Z.of_nat 8) with (2 ^ 64) in *. change (256 ^ Z.of_nat 4) with (2 ^ 32) in *.
    change (256 ^ Z.of_nat (8 + 4)) with (2 ^ 96) in *. change (256 ^ Z.of_nat 12) with (2 ^ 96) in *.
    lia. }
  unfold be_val in Hr. apply le_val_inj in Hr; [|rewrite !length_rev; congruence].
  rewrite <- (rev_involutive a), <- (rev_involutive b). by rewrite Hr.
Qed.

Lemma start_key address before s i :
  u64 s → u32 i → match before with Some (s0, i0) => u64 s0 ∧ u32 i0 | None => True end →
  bytes_lt (scan_start address before) (addr_sig_key address s i) = true ↔ older_than before s i.
Proof.
  intros Hs Hi Hb. unfold bytes_lt. rewrite negb_true_iff.
  destruct before as [[s0 i0]|]; cbn [scan_start older_than].
  - destruct Hb as [Hs0 Hi0]. rewrite addr_key_le, Z.leb_gt by done.
    rewrite tail_val_lt by done. done.
  - unfold addr_sig_key. rewrite bytes_le_app, bytes_le_be_val by (by rewrite length_app, !length_be_bytes).
    rewrite addr_tail, Z.leb_gt by done.
    change (be_val (replicate 12 Byte.x00)) with 0. unfold tail_val.
    unfold u64, u64_max, u32, u32_max in *. split.
    + intros H Heq. injection Heq as Hs' Hi'. lia.
    + intros H. destruct (decide (s = 2 ^ 64 - 1)) as [->|]; [|lia].
      destruct (decide (i = 2 ^ 32 - 1)) as [->|]; [done|lia].
Qed.

Lemma stop_key address s i : u64 s → u32 i →
  bytes_le (addr_sig_key address s i) (address ++ replicate 12 Byte.xff) = true.
Proof.
  intros Hs Hi. unfold addr_sig_key. rewrite bytes_le_app, bytes_le_be_val
    by (by rewrite length_app, !length_be_bytes). rewrite addr_tail, Z.leb_le by done.
  change (be_val (replicate 12 Byte.xff)) with (2 ^ 96 - 1). unfold tail_val.
  unfold u64, u64_max, u32, u32_max in *. lia.
Qed.

Lemma addr_sig_key_inj a s i b s' i' :
  length a = 32%nat → length b = 32%nat → u64 s → u32 i → u64 s' → u32 i' →
  addr_sig_key a s i = addr_sig_key b s' i' → a = b ∧ s = s' ∧ i = i'.
Proof.
  intros Ha Hb Hs Hi Hs' Hi' H. pose proof (decode_key [] a s i Ha Hs Hi) as D1.
  rewrite H, decode_key in D1 by done. injection D1 as -> ->.
  unfold addr_sig_key in H. apply app_inj_len in H as [-> _]; [done|congruence].
Qed.

Lemma length_scan_start address before :
  ∃ t, scan_start address before = address ++ t ∧ length t = 12%nat.
Proof.
  destruct before as [[s i]|]; eexists; (split; [reflexivity|]); [|done].
  by rewrite length_app, !length_be_bytes.
Qed.

Lemma bytes_lt_le a b : bytes_lt a b = true → bytes_le a b = true.
Proof.
  unfold bytes_lt. rewrite negb_true_iff. intros H. destruct (bytes_le_total a b); congruence.
Qed.

(** The rows of the range scan: exactly the entries of [address]. *)
Lemma scan_row st address before k v :
  index_wf st → length address = 32%nat →
  match before with Some (s0, i0) => u64 s0 ∧ u32 i0 | None => True end →
  (bytes_lt (scan_start address before) k && bytes_le k (address ++ replicate 12 Byte.xff) = true
   ∧ t_addr_sigs st !! k = Some v) ↔
  ∃ s i, u64 s ∧ u32 i ∧ k = addr_sig_key address s i ∧ older_than before s i
         ∧ t_addr_sigs st !! k = Some v.
Proof.
  intros Hwf Ha Hb. rewrite andb_true_iff. split.
  - intros [[Hlt Hle] Hk]. destruct (Hwf _ _ Hk) as (_ & pk & s & i & Hpk & Hs & Hi & ->).
    destruct (length_scan_start address before) as (t & Ht & Hlen).
    assert (address = pk) as <-.
    { refine (addr_key_prefix address pk s i t (replicate 12 Byte.xff) Ha Hpk Hlen eq_refl _ Hle).
      rewrite <- Ht. by apply bytes_lt_le. }
    exists s, i. split_and!; try done. by apply (start_key address before s i Hs Hi Hb).
  - intros (s & i & Hs & Hi & -> & Ho & Hk). split_and!; [|by apply stop_key|done].
    by apply start_key.
Qed.

Lemma sorted_decode address (l : list (bytes * Signature)) (P : Z → Z → Prop) :
  length address = 32%nat →
  (∀ k v, (k, v) ∈ l → ∃ s i, u64 s ∧ u32 i ∧ k = addr_sig_key address s i ∧ P s i) →
  NoDup l.*1 → StronglySorted (λ x y, key_le x y = true) l →
  StronglySorted newer (decode_row <$> l).
Proof.
  intros Ha Hl Hnd Hs. induction l as [|[k v] l IH]; [constructor|].
  apply StronglySorted_inv in Hs as [Hs Hall]. change (((k, v) :: l).*1) with (k :: l.*1) in Hnd.
  apply list.NoDup_cons in Hnd as [Hni Hnd]. rewrite fmap_cons.
  constructor; [apply IH; [|done|done]; intros k' v' Hin'; apply (Hl k' v'); by right|].
  apply list.Forall_forall. intros x ([k' v'] & -> & Hin)%list_elem_of_fmap.
  destruct (Hl k v ltac:(by left)) as (s & i & Hs1 & Hi1 & -> & _).
  destruct (Hl k' v' ltac:(by right)) as (s' & i' & Hs2 & Hi2 & -> & _).
  rewrite list.Forall_forall in Hall. specialize (Hall _ Hin). unfold key_le in Hall. cbn [fst] in Hall.
  rewrite addr_key_le, Z.leb_le in Hall by done. rewrite !decode_key by done.
  unfold newer. cbn. assert (tail_val s i ≠ tail_val s' i').
  { intros Heq. apply Hni. change (addr_sig_key address s i) with ((addr_sig_key address s i, v').1).
    apply list_elem_of_fmap_2'  with (x := (addr_sig_key address s' i', v')); [done|]. cbn.
    unfold tail_val, u64, u32, u64_max, u32_max in *.
    assert (s = s') as -> by lia. assert (i = i') as -> by lia. done. }
  assert (Hlt : tail_val s i < tail_val s' i') by lia.
  apply tail_val_lt in Hlt; [|done|done]. done.
Qed.

(** The signatures of an address come back newest first: the answer is the
    first [limit] (at least one) of a strictly descending list that holds
    exactly the indexed transactions of the address older than [before]. *)
Theorem signatures_newest_first st address before limit :
  index_wf st → length address = 32%nat →
  match before with Some (s0, i0) => u64 s0 ∧ u32 i0 | None => True end →
  ∃ rows,
    signatures_for_address st address before limit = Ok (take (Nat.max 1 limit) rows)
    ∧ StronglySorted newer rows
    ∧ (∀ sig s i, (sig, s, i) ∈ rows ↔
        u64 s ∧ u32 i ∧ older_than before s i
        ∧ t_addr_sigs st !! addr_sig_key address s i = Some sig).
Proof.
  intros Hwf Ha Hb. unfold signatures_for_address.
  set (f := filter _ (map_to_list (t_addr_sigs st))).
  assert (Hf : ∀ k v, (k, v) ∈ f ↔ ∃ s i, u64 s ∧ u32 i ∧ k = addr_sig_key address s i
                 ∧ older_than before s i ∧ t_addr_sigs st !! k = Some v).
  { intros k v. unfold f. rewrite list_elem_of_filter, elem_of_map_to_list. by apply scan_row. }
  set (sorted := sort_by key_le f).
  assert (Hso : ∀ r, r ∈ sorted ↔ r ∈ f) by (intros r; unfold sorted; by rewrite sort_by_perm).
  assert (Hrow : ∀ k v, (k, v) ∈ sorted → ∃ s i, u64 s ∧ u32 i ∧ k = addr_sig_key address s i
                 ∧ older_than before s i ∧ t_addr_sigs st !! k = Some v)
    by (intros k v; rewrite Hso, Hf; done).
  exists (decode_row <$> sorted). split_and!.
  - rewrite scan_sigs_take; [by rewrite Nat.sub_0_r|]. apply list.Forall_forall. intros [k v] Hin.
    destruct (Hrow _ _ Hin) as (s & i & Hs & Hi & -> & _ & Hk).
    destruct (Hwf _ _ Hk) as [Hv _]. split; [|done].
    unfold addr_sig_key. cbn [fst]. rewrite !length_app, Ha, !length_be_bytes. lia.
  - apply (sorted_decode address _ (older_than before)); [done| | |].
    + intros k v Hin. destruct (Hrow _ _ Hin) as (s & i & ? & ? & ? & ? & _). eauto 10.
    + unfold sorted. rewrite sort_by_perm. unfold f.
      apply (sublist_NoDup _ ((map_to_list (t_addr_sigs st)).*1)); [apply NoDup_fst_map_to_list|].
      apply fmap_sublist, sublist_filter.
    + apply sort_by_sorted; [intros x y; apply bytes_le_total|intros x y z; apply bytes_le_trans].
  - intros sig s i. rewrite list_elem_of_fmap. split.
    + intros ([k v] & Heq & Hin). destruct (Hrow _ _ Hin) as (s' & i' & Hs & Hi & -> & Ho & Hk).
      rewrite decode_key in Heq by done. injection Heq as -> -> ->. done.
    + intros (Hs & Hi & Ho & Hk). exists (addr_sig_key address s i, sig).
      rewrite decode_key by done. split; [done|]. apply Hso, Hf. eauto 10.
Qed.

End Store.

(** ** Witnesses *)

Module Example.
#[local] Existing Instances Toy.blake3_toy Toy.solana_toy.

#[local] Existing Instance StoreToy.account_codec.
#[local] Existing Instance StoreToy.block_codec.
#[local] Existing Instance StoreToy.locator_codec.
#[local] Existing Instance StoreToy.meta_codec.
#[local] Existing Instance StoreToy.queue_codec.

Definition pk (n : Z) : Pubkey := le_bytes 32 n.
Definition used (p : Pubkey) : Prop := p ∈ [pk 1; pk 2].

Lemma used_distinct a b : used a → used b → key_path a = key_path b → a = b.
Proof.
  assert (Hne : key_path (pk 1) ≠ key_path (pk 2)) by (vm_compute; discriminate).
  unfold used. intros Ha%list_elem_of_In Hb%list_elem_of_In Heq.
  destruct Ha as [<-|[<-|[]]], Hb as [<-|[<-|[]]];
    [exact eq_refl|destruct (Hne Heq)|destruct (Hne (eq_sym Heq))|exact eq_refl].
Qed.

Definition g : GenesisConfig :=
  {| chain_name := bstr "zul"; creation_time_ms := 5; sequencer := pk 8; fee_collector := pk 9;
     allocations := [{| alloc_pubkey := pk 1; alloc_lamports := 10 |}] |}.

Definition st0 : Store :=
  match initialize_genesis open_store g [] with Ok (st, _) => st | _ => open_store end.

Lemma st0_reachable : reachable used st0.
Proof.
  destruct (initialize_genesis open_store g []) as [[st r]|e|] eqn:Hg.
  - apply (reach_genesis used g [] st0 r); [repeat constructor|].
    unfold st0. rewrite Hg. exact eq_refl.
  - by unfold initialize_genesis in Hg.
  - by unfold initialize_genesis in Hg.
Qed.

Lemma prove_account_verifies_witness :
  ∃ root acc proof,
    get_state_root st0 = Some root ∧ prove_account st0 (pk 2) = Ok (acc, proof)
    ∧ verify root (pk 2) ((λ a, account_hash a (pk 2)) <$> acc) proof = true.
Proof.
  refine (prove_account_verifies used used_distinct st0 (pk 2) st0_reachable _).
  unfold used. right. left.
Defined.

Definition tx1 : VersionedTransaction :=
  Toy.Build_tx [le_bytes 64 1] [pk 1; pk 2] [] ZERO_HASH true.
Definition meta1 : ExecutedTransactionMeta :=
  {| status := inr (); fee := 5000; compute_units_consumed := 0; log_messages := [];
     pre_balances := []; post_balances := [] |}.
Definition update1 : StateUpdate := {| new_root := ZERO_HASH; node_writes := [] |}.
Definition block1 : Block :=
  {| header := {| slot := 3; parent_hash := ZERO_HASH; state_root := ZERO_HASH;
                  transactions_root := ZERO_HASH; timestamp_ms := 0; transaction_count := 1 |};
     transactions := [tx1]; sequencer_signature := [] |}.
Definition writes1 : list (Pubkey * option StoredAccount) := [(pk 1, Some (new_system 7))].
Definition st1 : Store :=
  match commit_block open_store block1 [meta1] writes1 update1 new_queue [pk 5] with
  | Ok st => st | _ => open_store end.

Lemma st1_committed :
  commit_block open_store block1 [meta1] writes1 update1 new_queue [pk 5] = Ok st1.
Proof. reflexivity. Qed.

Lemma commit_block_reads_back_witness :
  get_block st1 3 = Ok (Some block1).
Proof.
  refine (proj1 (commit_block_reads_back open_store st1 block1 [meta1] writes1 update1 new_queue [pk 5]
                   _ _ _ _ st1_committed)).
  - unfold u64, u64_max. simpl. lia.
  - apply map_Forall_empty.
  - intros h s. cbn. rewrite lookup_empty. set_solver.
  - constructor.
Defined.

Lemma committed_transaction_found_witness :
  get_transaction st1 (le_bytes 64 1)
  = Ok (Some ({| loc_slot := 3; loc_index := 0 |}, tx1, meta1)).
Proof.
  refine (committed_transaction_found open_store st1 block1 [meta1] writes1 update1 new_queue [pk 5]
            0 tx1 meta1 (le_bytes 64 1) st1_committed _ eq_refl eq_refl eq_refl _).
  - unfold u32_max. simpl. lia.
  - intros [|[|j]] tx' Hj Htx; [lia|discriminate Htx|discriminate Htx].
Defined.

Definition sigs_store : Store :=
  {| t_accounts := ∅; t_blocks := ∅; t_tx_loc := ∅; t_tx_meta := ∅;
     t_addr_sigs := <[addr_sig_key (pk 1) 3 0 := le_bytes 64 1]>
                      {[addr_sig_key (pk 1) 2 5 := le_bytes 64 2]};
     t_smt := ∅; t_nullifiers := ∅; t_meta := ∅ |}.

Lemma signatures_newest_first_witness :
  ∃ rows,
    signatures_for_address sigs_store (pk 1) None 10 = Ok (take 10 rows)
    ∧ StronglySorted newer rows
    ∧ (∀ sig s i, (sig, s, i) ∈ rows ↔
        u64 s ∧ u32 i ∧ older_than None s i
        ∧ t_addr_sigs sigs_store !! addr_sig_key (pk 1) s i = Some sig).
Proof.
  refine (signatures_newest_first sigs_store (pk 1) None 10 _ eq_refl I).
  intros k v. cbn [t_addr_sigs sigs_store].
  rewrite lookup_insert_Some, lookup_singleton_Some. intros [[<- <-]|[_ [<- <-]]].
  - split; [reflexivity|]. exists (pk 1), 3, 0. unfold u64, u32, u64_max, u32_max. repeat split; lia.
  - split; [reflexivity|]. exists (pk 1), 2, 5. unfold u64, u32, u64_max, u32_max. repeat split; lia.
Defined.
End Example.
