(* ===== verification/WrappedSpl.v ===== *)
(** * Wrapped SPL tokens

    Models [chain/zul-primitives/src/wrapped_spl.rs]: the exact byte layouts of
    an SPL mint and token account, and the derived addresses. Rust's in-place
    setters slice the data, so they panic on data that is too short; here they
    return [None] then. Solana's program-derived address function is an
    interface. *)

From S2P Require Import Prelude External Hash.

Definition bytes_of_Zs (l : list Z) : bytes := byte_of_Z <$> l.

Definition TOKEN_PROGRAM_ID : Pubkey := bytes_of_Zs
  [6; 221; 246; 225; 215; 101; 161; 147; 217; 203; 225; 70; 206; 235; 121; 172; 28; 180; 133; 237;
   95; 91; 55; 145; 58; 140; 245; 133; 126; 255; 0; 169].

Definition ATA_PROGRAM_ID : Pubkey := bytes_of_Zs
  [140; 151; 37; 143; 78; 36; 137; 241; 187; 61; 16; 41; 20; 142; 13; 131; 11; 90; 19; 153; 218;
   255; 16; 132; 4; 142; 123; 216; 219; 233; 248; 89].

Definition WRAPPED_MINT_DOMAIN : bytes := bstr "PL2:bridge:wrapped-mint:v1".

Definition BRIDGE_MINT_AUTHORITY : Pubkey :=
  [Byte.x06; Byte.x21] ++ replicate 29 Byte.x00 ++ [Byte.x02].

Definition MINT_LEN : nat := 82.
Definition ACCOUNT_LEN : nat := 165.

(** [Pubkey::find_program_address(seeds, program).0] and the parsed wSOL mint. *)
Class SolanaAddresses := {
  find_program_address : list bytes → Pubkey → Pubkey;
  native_sol_mint : Pubkey;
}.

Section Addresses.
Context `{B3 : Blake3} `{SA : SolanaAddresses}.

Definition wrapped_mint_address (l1_mint : Pubkey) : Pubkey :=
  blake3_32 WRAPPED_MINT_DOMAIN l1_mint.

Definition associated_token_address (owner mint : Pubkey) : Pubkey :=
  find_program_address [owner; TOKEN_PROGRAM_ID; mint] ATA_PROGRAM_ID.

End Addresses.

(** Offsets and lengths below are fixed and in range of the freshly allocated
    vector, so the writes of the packers never panic on 32-byte keys. *)
Definition pack_mint (mint_authority : Pubkey) (supply decimals : Z) : bytes :=
  le_bytes 4 1 ++ mint_authority ++ le_bytes 8 supply ++ [byte_of_Z decimals; Byte.x01]
  ++ replicate 36 Byte.x00.

Definition mint_supply (d : bytes) : option Z := le_val <$> get_range 36 44 d.

Definition mint_decimals (d : bytes) : option Z := Z_of_byte <$> d !! 44%nat.

Definition set_mint_supply (d : bytes) (supply : Z) : option bytes := copy_at 36 (le_bytes 8 supply) d.

Definition pack_token_account (mint owner : Pubkey) (amount : Z) : bytes :=
  mint ++ owner ++ le_bytes 8 amount ++ replicate 36 Byte.x00 ++ [Byte.x01] ++ replicate 56 Byte.x00.

Definition token_account_amount (d : bytes) : option Z := le_val <$> get_range 64 72 d.

Definition set_token_account_amount (d : bytes) (amount : Z) : option bytes :=
  copy_at 64 (le_bytes 8 amount) d.

Definition rent_exempt_lamports (data_len : nat) : Z := (128 + Z.of_nat data_len) * 3480 * 2.

(** ** Facts *)

Lemma get_range_app_mid {A} (a b c : list A) n m :
  length a = n → (n + length b)%nat = m → get_range n m (a ++ b ++ c) = Some b.
Proof.
  intros Ha Hm. unfold get_range. rewrite decide_True by (rewrite !length_app; lia).
  rewrite slice_app_r by lia. rewrite Ha, Nat.sub_diag, slice_app_l by lia.
  f_equal. apply slice_full. lia.
Qed.

(** A field written in place reads back, and nothing else moves. *)
Lemma set_field_spec off (d : bytes) v :
  u64 v →
  match copy_at off (le_bytes 8 v) d with
  | Some d' =>
      (off + 8 ≤ length d)%nat ∧ length d' = length d
      ∧ le_val <$> get_range off (off + 8) d' = Some v
      ∧ ∀ i, (i < off ∨ off + 8 ≤ i)%nat → d' !! i = d !! i
  | None => (length d < off + 8)%nat
  end.
Proof.
  intros Hv. destruct (copy_at off (le_bytes 8 v) d) as [d'|] eqn:Hc.
  - pose proof Hc as Hc'. unfold copy_at in Hc'. rewrite length_le_bytes in Hc'.
    case_decide; [|done]. clear Hc'. pose proof (copy_at_length _ _ _ _ Hc) as Hl.
    pose proof (copy_at_slice_eq _ _ _ _ Hc) as Hs. rewrite length_le_bytes in Hs.
    split_and!; [done|done| |].
    + unfold get_range. rewrite decide_True by lia.
      cbn [fmap option_fmap option_map]. by rewrite Hs, le64_roundtrip.
    + intros i Hi. apply (copy_at_lookup_ne _ _ _ _ _ Hc). by rewrite length_le_bytes.
  - unfold copy_at in Hc. rewrite length_le_bytes in Hc. case_decide; [done|lia].
Qed.

Lemma pack_token_account_amount mint owner amount :
  length mint = 32%nat → length owner = 32%nat → u64 amount →
  token_account_amount (pack_token_account mint owner amount) = Some amount
  ∧ length (pack_token_account mint owner amount) = ACCOUNT_LEN.
Proof.
  intros Hm Ho Ha. unfold token_account_amount, pack_token_account. split.
  - rewrite app_assoc.
    rewrite (get_range_app_mid (mint ++ owner) (le_bytes 8 amount)).
    + cbn [fmap option_fmap option_map]. by rewrite le64_roundtrip.
    + rewrite length_app. lia.
    + by rewrite length_le_bytes.
  - rewrite !length_app, length_le_bytes, !length_replicate, Hm, Ho. done.
Qed.

Lemma pack_mint_fields authority supply decimals :
  length authority = 32%nat → u64 supply → 0 ≤ decimals < 256 →
  mint_supply (pack_mint authority supply decimals) = Some supply
  ∧ mint_decimals (pack_mint authority supply decimals) = Some decimals
  ∧ length (pack_mint authority supply decimals) = MINT_LEN.
Proof.
  intros Ha Hs Hd. unfold mint_supply, mint_decimals, pack_mint. split_and!.
  - rewrite app_assoc.
    rewrite (get_range_app_mid (le_bytes 4 1 ++ authority) (le_bytes 8 supply)).
    + cbn [fmap option_fmap option_map]. by rewrite le64_roundtrip.
    + rewrite length_app, length_le_bytes. lia.
    + by rewrite length_le_bytes.
  - rewrite !app_assoc, <- app_assoc. rewrite lookup_app_r.
    + rewrite !length_app, !length_le_bytes, Ha. cbn [Nat.add Nat.sub app lookup list_lookup].
      cbn [fmap option_fmap option_map].
      by rewrite Z_of_byte_of_Z, Z.mod_small.
    + rewrite !length_app, !length_le_bytes, Ha. lia.
  - rewrite !length_app, !length_le_bytes, length_replicate, Ha. done.
Qed.

(** The token layouts read back: a packed account holds its amount and a
    packed mint its supply and decimals, at Solana's sizes; setting the amount
    of any account long enough reads back and leaves every other byte (delegate,
    state, close authority) untouched, and panics exactly on data shorter than
    72 bytes. *)
Theorem wrapped_layout_roundtrip mint owner amount supply decimals (d : bytes) v :
  length mint = 32%nat → length owner = 32%nat → u64 amount → u64 supply →
  0 ≤ decimals < 256 → u64 v →
  token_account_amount (pack_token_account mint owner amount) = Some amount
  ∧ length (pack_token_account mint owner amount) = ACCOUNT_LEN
  ∧ mint_supply (pack_mint owner supply decimals) = Some supply
  ∧ mint_decimals (pack_mint owner supply decimals) = Some decimals
  ∧ length (pack_mint owner supply decimals) = MINT_LEN
  ∧ match set_token_account_amount d v with
    | Some d' => (72 ≤ length d)%nat ∧ length d' = length d ∧ token_account_amount d' = Some v
                 ∧ ∀ i, (i < 64 ∨ 72 ≤ i)%nat → d' !! i = d !! i
    | None => (length d < 72)%nat
    end.
Proof.
  intros Hm Ho Ha Hs Hd Hv. pose proof (pack_token_account_amount mint owner amount Hm Ho Ha) as [? ?].
  pose proof (pack_mint_fields owner supply decimals Ho Hs Hd) as (? & ? & ?).
  split_and!; try done. exact (set_field_spec 64 d v Hv).
Qed.

Module Example.
Lemma wrapped_layout_roundtrip_witness :
  token_account_amount (pack_token_account (le_bytes 32 1) (le_bytes 32 2) 77) = Some 77.
Proof.
  refine (proj1 (wrapped_layout_roundtrip (le_bytes 32 1) (le_bytes 32 2) 77 5 9 [] 3
                   eq_refl eq_refl _ _ _ _)); unfold u64, u64_max; lia.
Defined.

#[local] Instance addresses_toy : SolanaAddresses :=
  {| find_program_address seeds program := take 32 (concat seeds ++ program);
     native_sol_mint := le_bytes 32 6 |}.
End Example.
