(* ===== verification/Field.v ===== *)
(** * The BN254 scalar field and Poseidon

    Models [chain/zul-privacy/src/field.rs] and [poseidon.rs]. A field element
    is an integer in [0, p); [from_le_bytes_mod_order] reduces. The Poseidon
    permutation (light-poseidon) is an interface: functions of one to four field
    elements into the field. *)

From S2P Require Import Prelude External Hash.

(** The BN254 scalar field modulus. *)
Definition FR_MODULUS : Z :=
  21888242871839275222246405745257275088548364400416034343698204186575808495617.

Definition is_fr (x : Z) : Prop := 0 ≤ x < FR_MODULUS.

Abbreviation Fr := Z.
Abbreviation FieldBytes := bytes.

(** [Fr::from_le_bytes_mod_order] *)
Definition from_le_bytes_mod_order (bs : bytes) : Fr := le_val bs mod FR_MODULUS.

Definition fr_to_bytes (x : Fr) : FieldBytes := le_bytes 32 x.

Definition fr_from_bytes (bs : FieldBytes) : option Fr :=
  let fr := from_le_bytes_mod_order bs in
  if decide (fr_to_bytes fr = bs) then Some fr else None.

(** [Fr::from(u64)]; every u64 is below the modulus. *)
Definition fr_from_u64 (v : Z) : Fr := v.

Lemma FR_MODULUS_bound : FR_MODULUS < 256 ^ Z.of_nat 32.
Proof. reflexivity. Qed.

Lemma FR_MODULUS_pos : 0 < FR_MODULUS.
Proof. reflexivity. Qed.

#[global] Opaque FR_MODULUS.

Lemma length_fr_to_bytes x : length (fr_to_bytes x) = 32%nat.
Proof. apply length_le_bytes. Qed.

Lemma le_val_fr_to_bytes x : is_fr x → le_val (fr_to_bytes x) = x.
Proof.
  intros Hx. apply le_val_le_bytes_small. pose proof FR_MODULUS_bound. unfold is_fr in Hx. lia.
Qed.

(** Field elements round-trip through their bytes. *)
Lemma fr_from_to_bytes x : is_fr x → fr_from_bytes (fr_to_bytes x) = Some x.
Proof.
  intros Hx. unfold fr_from_bytes, from_le_bytes_mod_order.
  rewrite le_val_fr_to_bytes by done. rewrite Z.mod_small by done. by rewrite decide_True.
Qed.

Lemma fr_from_bytes_Some bs x : fr_from_bytes bs = Some x ↔ is_fr x ∧ bs = fr_to_bytes x.
Proof.
  split.
  - unfold fr_from_bytes. case_decide as Hd; [|done]. intros [= <-]. split; [|done].
    unfold is_fr, from_le_bytes_mod_order. apply Z.mod_pos_bound, FR_MODULUS_pos.
  - intros [Hx ->]. by apply fr_from_to_bytes.
Qed.

Lemma fr_to_bytes_inj x y : is_fr x → is_fr y → fr_to_bytes x = fr_to_bytes y → x = y.
Proof.
  intros Hx Hy H. apply (f_equal le_val) in H. by rewrite !le_val_fr_to_bytes in H.
Qed.

Lemma u64_is_fr x : u64 x → is_fr x.
Proof.
  unfold u64, is_fr. assert (u64_max < FR_MODULUS) by (with_strategy transparent [FR_MODULUS] reflexivity).
  lia.
Qed.

(** ** Poseidon *)

Class Poseidon := {
  hash1 : Fr → Fr;
  hash2 : Fr → Fr → Fr;
  hash3 : Fr → Fr → Fr → Fr;
  hash4 : Fr → Fr → Fr → Fr → Fr;
  hash2_fr : ∀ a b, is_fr (hash2 a b);
  hash3_fr : ∀ a b c, is_fr (hash3 a b c);
}.

Definition native_asset_id : Fr := 0.

Definition asset_id_for_mint (mint : Pubkey) : Fr := from_le_bytes_mod_order mint.

Section Notes.
Context `{P : Poseidon}.

Definition note_secret (owner_pk blinding : Fr) : Fr := hash2 owner_pk blinding.

Definition note_commitment_from_secret (asset_id : Fr) (amount : Z) (secret : Fr) : Fr :=
  hash3 asset_id (fr_from_u64 amount) secret.

Definition note_commitment (asset_id : Fr) (amount : Z) (owner_pk blinding : Fr) : Fr :=
  note_commitment_from_secret asset_id amount (note_secret owner_pk blinding).

Definition nullifier (commitment : Fr) (leaf_index : Z) (spending_key : Fr) : Fr :=
  hash3 commitment (fr_from_u64 leaf_index) spending_key.

Definition tree_node (left right : Fr) : Fr := hash2 left right.

End Notes.

(** A concrete arithmetic hash in place of Poseidon. *)
Definition poseidon_toy : Poseidon.
Proof.
  refine {| hash1 a := (7 * a + 1) mod FR_MODULUS;
            hash2 a b := 1 + (31 * a + 17 * b + 2) mod (FR_MODULUS - 1);
            hash3 a b c := (101 * a + 57 * b + 13 * c + 3) mod FR_MODULUS;
            hash4 a b c d := (1009 * a + 501 * b + 77 * c + 5 * d + 4) mod FR_MODULUS |};
    intros; [|apply Z.mod_pos_bound, FR_MODULUS_pos].
  assert (1 < FR_MODULUS) by (with_strategy transparent [FR_MODULUS] reflexivity).
  pose proof (Z.mod_pos_bound (31 * a + 17 * b + 2) (FR_MODULUS - 1) ltac:(lia)). unfold is_fr. lia.
Defined.
