(* ===== verification/PoolState.v ===== *)
(** * The shielded pool's note tree

    Models [chain/zul-privacy/src/state.rs]: the append-only Poseidon tree kept
    as its filled left siblings, with a ring buffer of recent roots. The
    reference is [tree], the complete tree over the inserted leaves padded with
    the empty leaf. *)

From S2P Require Import Prelude External Hash Field.

Definition TREE_DEPTH : nat := 26.
Definition ROOT_HISTORY : nat := 64.
Definition EMPTY_LEAF : Fr := 770212417220141184.

Inductive PoolStateError := StateTreeFull | StateCorrupt.

Record PoolState := {
  filled_subtrees : list FieldBytes;
  roots : list FieldBytes;
  current_root_index : nat;
  next_leaf_index : nat;
}.

#[global] Instance PoolState_eq_dec : EqDecision PoolState.
Proof. solve_decision. Defined.
#[global] Instance PoolState_countable : Countable PoolState.
Proof.
  refine (inj_countable'
    (λ s, (filled_subtrees s, roots s, current_root_index s, next_leaf_index s))
    (λ '(a, b, c, d), Build_PoolState a b c d) _).
  by intros [].
Defined.

(** [1u64 << TREE_DEPTH] *)
Definition capacity : Z := Z.shiftl 1 (Z.of_nat TREE_DEPTH).

Section PoolState.
Context `{P : Poseidon}.

(** [zero_hashes()[level]]: the empty subtree of a height. *)
Fixpoint zero_hash (level : nat) : Fr :=
  match level with
  | O => EMPTY_LEAF
  | S l => let z := zero_hash l in tree_node z z
  end.

Definition pool_new : PoolState :=
  {| filled_subtrees := (λ l, fr_to_bytes (zero_hash l)) <$> seq 0 TREE_DEPTH;
     roots := fr_to_bytes (zero_hash TREE_DEPTH) :: replicate (ROOT_HISTORY - 1) (replicate 32 Byte.x00);
     current_root_index := 0;
     next_leaf_index := 0 |}.

Definition current_root (s : PoolState) : FieldBytes := roots s !!! current_root_index s.

Definition is_known_root (s : PoolState) (candidate : FieldBytes) : bool :=
  if decide (candidate = replicate 32 Byte.x00) then false
  else existsb (λ r, bool_decide (r = candidate)) (roots s).

(** The loop [for level in 0..TREE_DEPTH] from [level], [fuel] levels left; the
    siblings written before a corrupt one is met stay written. *)
Fixpoint insert_loop (fuel level node_index : nat) (current : Fr) (filled : list FieldBytes)
    : list FieldBytes * outcome PoolStateError Fr :=
  match fuel with
  | O => (filled, Ok current)
  | S fuel =>
      if Nat.even node_index then
        insert_loop fuel (S level) (node_index / 2) (tree_node current (zero_hash level))
          (<[level := fr_to_bytes current]> filled)
      else
        match fr_from_bytes (filled !!! level) with
        | Some left_fr =>
            insert_loop fuel (S level) (node_index / 2) (tree_node left_fr current) filled
        | None => (filled, Err StateCorrupt)
        end
  end.

Definition pool_insert (s : PoolState) (leaf : Fr) : PoolState * outcome PoolStateError nat :=
  let index := next_leaf_index s in
  if decide (capacity ≤ Z.of_nat index) then (s, Err StateTreeFull)
  else
    match insert_loop TREE_DEPTH 0 index leaf (filled_subtrees s) with
    | (filled, Ok current) =>
        let cri := ((current_root_index s + 1) mod ROOT_HISTORY)%nat in
        ({| filled_subtrees := filled;
            roots := <[cri := fr_to_bytes current]> (roots s);
            current_root_index := cri;
            next_leaf_index := S (next_leaf_index s) |}, Ok index)
    | (filled, Err e) =>
        ({| filled_subtrees := filled; roots := roots s;
            current_root_index := current_root_index s;
            next_leaf_index := next_leaf_index s |}, Err e)
    | (filled, Panic) => (s, Panic)
    end.

(** ** Reference *)

(** The node of height [h] and index [i] of the padded tree over [ls]. *)
Fixpoint tree (ls : list Fr) (h i : nat) : Fr :=
  match h with
  | O => default EMPTY_LEAF (ls !! i)
  | S h => tree_node (tree ls h (2 * i)) (tree ls h (2 * i + 1))
  end.

Definition tree_root (ls : list Fr) : Fr := tree ls TREE_DEPTH 0.

Lemma tree_root_eq ls : tree_root ls = tree ls TREE_DEPTH 0.
Proof. reflexivity. Qed.

#[local] Opaque TREE_DEPTH.

(** The state that holds the leaves [ls]: its filled siblings and its recent
    roots are those of the reference tree. *)
Record represents (s : PoolState) (ls : list Fr) : Prop := {
  rep_next : next_leaf_index s = length ls;
  rep_filled_len : length (filled_subtrees s) = TREE_DEPTH;
  rep_filled : ∀ l, (l < TREE_DEPTH)%nat → Nat.odd (length ls / 2 ^ l) = true →
    filled_subtrees s !!! l = fr_to_bytes (tree ls l (length ls / 2 ^ l - 1));
  rep_roots_len : length (roots s) = ROOT_HISTORY;
  rep_index : current_root_index s = (length ls mod ROOT_HISTORY)%nat;
  rep_recent : ∀ k, (k ≤ length ls)%nat → (length ls < k + ROOT_HISTORY)%nat →
    roots s !! (k mod ROOT_HISTORY)%nat = Some (fr_to_bytes (tree_root (take k ls)));
  rep_unused : ∀ k, (length ls < k < ROOT_HISTORY)%nat → roots s !! k = Some (replicate 32 Byte.x00);
}.

Lemma tree_fr ls h i : Forall is_fr ls → is_fr EMPTY_LEAF → is_fr (tree ls h i).
Proof.
  intros Hls He. destruct h; cbn [tree]; [|apply hash2_fr].
  destruct (ls !! i) eqn:Hi; [|done]. by eapply Forall_lookup_1 in Hi.
Qed.

(** A subtree depends only on the leaves under it. *)
Lemma tree_ext h : ∀ ls ls' i,
  (∀ j, (i * 2 ^ h ≤ j < (i + 1) * 2 ^ h)%nat → ls !! j = ls' !! j) → tree ls h i = tree ls' h i.
Proof.
  induction h as [|h IH]; intros ls ls' i H; cbn [tree].
  - rewrite H; [done|]. simpl. lia.
  - rewrite (IH ls ls' (2 * i)%nat), (IH ls ls' (2 * i + 1)%nat); [done| |];
      intros j Hj; apply H; rewrite Nat.pow_succ_r'; nia.
Qed.

Lemma tree_empty h : ∀ ls i, (length ls ≤ i * 2 ^ h)%nat → tree ls h i = zero_hash h.
Proof.
  induction h as [|h IH]; intros ls i H; cbn [tree zero_hash].
  - rewrite lookup_ge_None_2; [done|]. simpl in H. lia.
  - rewrite Nat.pow_succ_r' in H. rewrite !IH; [done|nia|nia].
Qed.

Lemma div_pow_S n l : (n / 2 ^ S l = n / 2 ^ l / 2)%nat.
Proof. rewrite Nat.pow_succ_r', Nat.mul_comm. by rewrite Nat.Div0.div_div. Qed.

Lemma div_pow_bounds n l : (n / 2 ^ l * 2 ^ l ≤ n < (n / 2 ^ l + 1) * 2 ^ l)%nat.
Proof.
  pose proof (Nat.pow_nonzero 2 l ltac:(lia)). pose proof (Nat.div_mod n (2 ^ l) ltac:(lia)).
  pose proof (Nat.mod_upper_bound n (2 ^ l) ltac:(lia)). nia.
Qed.

Lemma lookup_snoc_lt (ls : list Fr) leaf j : (j < length ls)%nat → (ls ++ [leaf]) !! j = ls !! j.
Proof. intros. by rewrite lookup_app_l. Qed.

(** Subtrees left of the inserted leaf are unchanged. *)
Lemma tree_snoc ls leaf h i :
  ((i + 1) * 2 ^ h ≤ length ls)%nat → tree (ls ++ [leaf]) h i = tree ls h i.
Proof. intros H. apply tree_ext. intros j Hj. apply lookup_snoc_lt. lia. Qed.

(** The parent on the path of the inserted leaf. *)
Lemma tree_path_step ls leaf l :
  let m := (length ls / 2 ^ l)%nat in
  tree (ls ++ [leaf]) (S l) (m / 2)
  = if Nat.even m then tree_node (tree (ls ++ [leaf]) l m) (zero_hash l)
    else tree_node (tree ls l (m - 1)) (tree (ls ++ [leaf]) l m).
Proof.
  intros m. pose proof (div_pow_bounds (length ls) l) as Hb. fold m in Hb. cbn [tree].
  pose proof (Nat.div2_div m). destruct (Nat.even m) eqn:He.
  - apply Nat.even_spec in He as [k Hk]. assert (m / 2 = k)%nat as -> by (symmetry; apply (Nat.div_unique _ _ _ 0); lia).
    rewrite <- Hk. f_equal. apply tree_empty. rewrite length_app. cbn [length]. lia.
  - assert (Ho : Nat.odd m = true) by (by rewrite <- Nat.negb_even, He).
    apply Nat.odd_spec in Ho as [k Hk]. assert (m / 2 = k)%nat as -> by (symmetry; apply (Nat.div_unique _ _ _ 1); lia).
    replace (2 * k + 1)%nat with m by lia. replace (2 * k)%nat with (m - 1)%nat by lia.
    f_equal. apply tree_snoc. nia.
Qed.

Lemma insert_loop_spec D ls leaf fuel : ∀ level filled,
  Forall is_fr ls → is_fr EMPTY_LEAF →
  (level + fuel = D)%nat → length filled = D →
  (∀ l, (level ≤ l < D)%nat → Nat.odd (length ls / 2 ^ l) = true →
        filled !!! l = fr_to_bytes (tree ls l (length ls / 2 ^ l - 1))) →
  ∃ filled',
    insert_loop fuel level (length ls / 2 ^ level) (tree (ls ++ [leaf]) level (length ls / 2 ^ level)) filled
    = (filled', Ok (tree (ls ++ [leaf]) D (length ls / 2 ^ D)))
    ∧ length filled' = D
    ∧ (∀ l, (l < level)%nat → filled' !!! l = filled !!! l)
    ∧ (∀ l, (level ≤ l < D)%nat →
         filled' !!! l = if Nat.even (length ls / 2 ^ l)
                         then fr_to_bytes (tree (ls ++ [leaf]) l (length ls / 2 ^ l))
                         else filled !!! l).
Proof.
  induction fuel as [|fuel IH]; intros level filled Hls He HD Hlen Hf; cbn [insert_loop].
  { exists filled. replace D with level by lia. split_and!; [done|lia|done|lia]. }
  pose proof (tree_path_step ls leaf level) as Hstep. cbv zeta in Hstep.
  rewrite <- div_pow_S in Hstep |- *.
  set (m := (length ls / 2 ^ level)%nat) in *. destruct (Nat.even m) eqn:Hev.
  - rewrite <- Hstep.
    destruct (IH (S level) (<[level := fr_to_bytes (tree (ls ++ [leaf]) level m)]> filled))
      as (f' & Hrun & Hl' & Hlow & Hhigh); try done; [lia|by rewrite length_insert| |].
    { intros l Hl Ho. rewrite list_lookup_total_insert_ne by lia. apply Hf; [lia|done]. }
    exists f'. split_and!; [done|done| |].
    + intros l Hl. rewrite Hlow, list_lookup_total_insert_ne by lia. done.
    + intros l Hl. destruct (decide (l = level)) as [->|Hne].
      * fold m. rewrite Hev, Hlow by lia. apply list_lookup_total_insert_eq. lia.
      * rewrite Hhigh by lia. destruct (Nat.even (length ls / 2 ^ l)); [done|].
        by rewrite list_lookup_total_insert_ne by lia.
  - rewrite (Hf level); [|lia|by rewrite <- Nat.negb_even; fold m; rewrite Hev]. fold m.
    rewrite fr_from_to_bytes by (by apply tree_fr). rewrite <- Hstep.
    destruct (IH (S level) filled) as (f' & Hrun & Hl' & Hlow & Hhigh); try done; [lia| |].
    { intros l Hl Ho. apply Hf; [lia|done]. }
    exists f'. split_and!; [done|done| |].
    + intros l Hl. apply Hlow. lia.
    + intros l Hl. destruct (decide (l = level)) as [->|Hne]; [|apply Hhigh; lia].
      fold m. rewrite Hev. apply Hlow. lia.
Qed.

(** Arithmetic modulo the ring size. *)
Lemma ring_next n : ((n mod ROOT_HISTORY + 1) mod ROOT_HISTORY = (n + 1) mod ROOT_HISTORY)%nat.
Proof. by rewrite Nat.Div0.add_mod_idemp_l. Qed.

Lemma ring_distinct n k :
  (k ≤ n)%nat → (n + 1 < k + ROOT_HISTORY)%nat → (k mod ROOT_HISTORY ≠ (n + 1) mod ROOT_HISTORY)%nat.
Proof.
  intros Hk Hn Heq. pose proof (Nat.div_mod k ROOT_HISTORY ltac:(done)).
  pose proof (Nat.div_mod (n + 1) ROOT_HISTORY ltac:(done)). rewrite Heq in *.
  assert (k / ROOT_HISTORY ≤ (n + 1) / ROOT_HISTORY)%nat by (apply Nat.Div0.div_le_mono; lia).
  destruct (decide (k / ROOT_HISTORY = (n + 1) / ROOT_HISTORY)%nat); nia.
Qed.

Lemma filled_next ls leaf l filled' (filled : list FieldBytes) :
  (Nat.odd (length ls / 2 ^ l) = true →
   filled !!! l = fr_to_bytes (tree ls l (length ls / 2 ^ l - 1))) →
  filled' = (if Nat.even (length ls / 2 ^ l)
             then fr_to_bytes (tree (ls ++ [leaf]) l (length ls / 2 ^ l)) else filled !!! l) →
  Nat.odd ((length ls + 1) / 2 ^ l) = true →
  filled' = fr_to_bytes (tree (ls ++ [leaf]) l ((length ls + 1) / 2 ^ l - 1)).
Proof.
  intros Hf -> Ho. pose proof (div_pow_bounds (length ls) l) as Hb.
  pose proof (div_pow_bounds (length ls + 1) l) as Hb'.
  set (m := (length ls / 2 ^ l)%nat) in *. set (m' := ((length ls + 1) / 2 ^ l)%nat) in *.
  pose proof (Nat.pow_nonzero 2 l ltac:(lia)).
  assert (m ≤ m')%nat by (apply Nat.Div0.div_le_mono; lia).
  assert (m' ≤ m + 1)%nat by (apply (Nat.mul_le_mono_pos_r _ _ (2 ^ l)); lia).
  assert (Hm : m' = m ∨ m' = (m + 1)%nat) by lia.
  destruct (Nat.even m) eqn:Hev.
  - destruct Hm as [Hm|Hm]; rewrite Hm in *.
    + rewrite <- Nat.negb_even, Hev in Ho. done.
    + by replace (m + 1 - 1)%nat with m by lia.
  - rewrite Hf by (by rewrite <- Nat.negb_even, Hev). destruct Hm as [Hm|Hm]; rewrite Hm in *.
    + f_equal. symmetry. apply tree_snoc.
      assert (m ≠ 0)%nat by (intros Hm0; by rewrite Hm0 in Hev).
      replace (m - 1 + 1)%nat with m by lia. lia.
    + rewrite Nat.odd_add, <- (Nat.negb_even m), Hev in Ho. done.
Qed.

(** The whole loop, from the leaf to the root. *)
Lemma insert_loop_root D ls leaf filled :
  Forall is_fr ls → is_fr EMPTY_LEAF → length filled = D → (length ls < 2 ^ D)%nat →
  (∀ l, (l < D)%nat → Nat.odd (length ls / 2 ^ l) = true →
        filled !!! l = fr_to_bytes (tree ls l (length ls / 2 ^ l - 1))) →
  ∃ filled',
    insert_loop D 0 (length ls) leaf filled = (filled', Ok (tree (ls ++ [leaf]) D 0))
    ∧ length filled' = D
    ∧ (∀ l, (l < D)%nat →
         filled' !!! l = if Nat.even (length ls / 2 ^ l)
                         then fr_to_bytes (tree (ls ++ [leaf]) l (length ls / 2 ^ l))
                         else filled !!! l).
Proof.
  intros Hls He Hlen Hcap Hf.
  destruct (insert_loop_spec D ls leaf D 0 filled) as (f' & Hrun & Hl' & _ & Hhigh); try done.
  { intros l Hl Ho. apply Hf; [lia|done]. }
  rewrite Nat.pow_0_r, Nat.div_1_r in Hrun. cbn [tree] in Hrun.
  rewrite lookup_app_r, Nat.sub_diag in Hrun by lia.
  rewrite (Nat.div_small (length ls)) in Hrun by done.
  exists f'. split_and!; [exact Hrun|done|]. intros l Hl. apply Hhigh. lia.
Qed.

Lemma capacity_nat n : Z.of_nat n < capacity → (n < 2 ^ TREE_DEPTH)%nat.
Proof. 
  intros H. apply Nat2Z.inj_lt. rewrite Nat2Z.inj_pow.
  unfold capacity in H. by rewrite Z.shiftl_1_l in H.
Qed.

Lemma pool_insert_represents s ls leaf :
  represents s ls → Forall is_fr ls → is_fr EMPTY_LEAF → Z.of_nat (length ls) < capacity →
  ∃ s', pool_insert s leaf = (s', Ok (length ls)) ∧ represents s' (ls ++ [leaf]).
Proof.
  intros [Hn Hfl Hf Hrl Hri Hrec Hun] Hls He Hcap. unfold pool_insert. rewrite Hn.
  rewrite decide_False by lia.
  destruct (insert_loop_root TREE_DEPTH ls leaf (filled_subtrees s) Hls He Hfl (capacity_nat _ Hcap) Hf)
    as (f' & Hrun & Hl' & Hhigh).
  rewrite <- tree_root_eq in Hrun.
  rewrite Hrun, Hri, ring_next. eexists. split; [reflexivity|].
  assert (Hlen : length (ls ++ [leaf]) = (length ls + 1)%nat) by (by rewrite length_app).
  split; cbn [next_leaf_index filled_subtrees roots current_root_index]; rewrite ?Hlen.
  - lia.
  - done.
  - intros l Hl Ho. eapply filled_next; [intros; apply (Hf l); done|apply Hhigh; lia|done].
  - by rewrite length_insert.
  - done.
  - intros k Hk Hw. destruct (decide (k = (length ls + 1)%nat)) as [->|Hne].
    + rewrite list_lookup_insert_eq, take_ge; [done|rewrite Hlen; lia|].
      rewrite Hrl. by apply Nat.mod_upper_bound.
    + rewrite list_lookup_insert_ne by (apply not_eq_sym, ring_distinct; lia).
      rewrite take_app_le by lia. apply Hrec; lia.
  - intros k Hk. rewrite list_lookup_insert_ne; [apply Hun; lia|].
    rewrite Nat.mod_small; lia.
Qed.

Lemma pool_new_represents : represents pool_new [].
Proof.
  split; cbn [length].
  - done.
  - unfold pool_new. cbn [filled_subtrees]. by rewrite length_fmap, length_seq.
  - intros l _ Ho. rewrite Nat.Div0.div_0_l in Ho. done.
  - reflexivity.
  - reflexivity.
  - intros k Hk _. replace k with 0%nat by lia. cbn [take]. rewrite Nat.Div0.mod_0_l.
    cbn [lookup list_lookup roots pool_new]. rewrite tree_root_eq, tree_empty; [done|]. simpl. lia.
  - intros k Hk. cbn [roots pool_new]. destruct k as [|k]; [lia|].
    cbn [lookup list_lookup]. apply lookup_replicate_2. unfold ROOT_HISTORY in *. lia.
Qed.

(** The roots a represented state knows: the last [ROOT_HISTORY] ones. *)
Lemma known_root_spec s ls r :
  represents s ls →
  is_known_root s r = true ↔
  r ≠ replicate 32 Byte.x00 ∧
  ∃ k, (k ≤ length ls)%nat ∧ (length ls < k + ROOT_HISTORY)%nat
       ∧ r = fr_to_bytes (tree_root (take k ls)).
Proof.
  intros [_ _ _ Hrl _ Hrec Hun]. unfold is_known_root. case_decide as Hz; [naive_solver|].
  rewrite existsb_exists. setoid_rewrite bool_decide_eq_true. split.
  - intros (x & Hin & ->). split; [done|]. apply list_elem_of_In in Hin.
    apply list_elem_of_lookup in Hin as [j Hj].
    assert (Hlt : (j < ROOT_HISTORY)%nat) by (rewrite <- Hrl; by eapply lookup_lt_Some).
    destruct (decide (length ls < j)%nat) as [Hgt|Hle].
    { exfalso. apply Hz. rewrite Hun in Hj by lia. by injection Hj as <-. }
    pose proof (Nat.div_mod (length ls) ROOT_HISTORY ltac:(done)) as Hd.
    pose proof (Nat.mod_upper_bound (length ls) ROOT_HISTORY ltac:(done)) as Hm.
    set (q := (length ls / ROOT_HISTORY)%nat) in *. set (t := (length ls mod ROOT_HISTORY)%nat) in *.
    set (k := if decide (j ≤ t)%nat then (ROOT_HISTORY * q + j)%nat else (ROOT_HISTORY * (q - 1) + j)%nat).
    assert (Hq : (t < j → 0 < q)%nat) by (intros; destruct q; lia).
    assert (Hk : (k mod ROOT_HISTORY = j)%nat).
    { unfold k. destruct (decide _); rewrite Nat.add_comm, Nat.mul_comm, Nat.Div0.mod_add;
        by apply Nat.mod_small. }
    assert (Hb : (k ≤ length ls ∧ length ls < k + ROOT_HISTORY)%nat).
    { unfold k. destruct (decide _); [lia|]. specialize (Hq ltac:(lia)). nia. }
    exists k. split_and!; [lia|lia|]. rewrite <- Hk, Hrec in Hj by lia. by injection Hj as <-.
  - intros (_ & k & H1 & H2 & ->). eexists. split; [|done].
    apply list_elem_of_In. eapply list_elem_of_lookup_2. by apply Hrec.
Qed.

Lemma EMPTY_LEAF_fr : is_fr EMPTY_LEAF.
Proof. apply u64_is_fr. unfold u64, EMPTY_LEAF, u64_max. lia. Qed.

Definition pool_inserts (s : PoolState) (ls : list Fr) : PoolState :=
  fold_left (λ s leaf, (pool_insert s leaf).1) ls s.

Lemma pool_inserts_represents ls :
  Forall is_fr ls → Z.of_nat (length ls) ≤ capacity → represents (pool_inserts pool_new ls) ls.
Proof.
  induction ls as [|leaf ls IH] using rev_ind; intros Hls Hc; [apply pool_new_represents|].
  apply list.Forall_app in Hls as [Hls _]. rewrite length_app in Hc. cbn [length] in Hc.
  destruct (pool_insert_represents _ ls leaf (IH Hls ltac:(lia)) Hls EMPTY_LEAF_fr ltac:(lia))
    as (s' & Hs' & Hrep).
  unfold pool_inserts in *. rewrite fold_left_app. cbn [fold_left]. by rewrite Hs'.
Qed.

Lemma represents_root s ls : represents s ls → current_root s = fr_to_bytes (tree_root ls).
Proof.
  intros [_ _ _ _ Hi Hr _]. unfold current_root. rewrite Hi.
  apply list_lookup_total_correct. rewrite Hr; [|lia|unfold ROOT_HISTORY; lia].
  by rewrite take_ge by lia.
Qed.

Lemma insert_full s ls leaf :
  represents s ls → capacity ≤ Z.of_nat (length ls) → pool_insert s leaf = (s, Err StateTreeFull).
Proof. intros H Hc. unfold pool_insert. by rewrite (rep_next _ _ H), decide_True. Qed.

(** C14: the incremental tree is the reference tree: after inserting any
    sequence of field elements that fits, the current root is the root of the
    complete padded tree over them, the recognised roots are exactly those of
    the last 64 states (never the zero string), the next insertion returns the
    next index, and a full tree refuses without changing. *)
Theorem pool_tree_refines ls leaf :
  Forall is_fr ls → Z.of_nat (length ls) ≤ capacity →
  let s := pool_inserts pool_new ls in
  current_root s = fr_to_bytes (tree_root ls)
  ∧ (∀ r, is_known_root s r = true ↔
       r ≠ replicate 32 Byte.x00 ∧
       ∃ k, (k ≤ length ls)%nat ∧ (length ls < k + ROOT_HISTORY)%nat
            ∧ r = fr_to_bytes (tree_root (take k ls)))
  ∧ (pool_insert s leaf).2
    = (if decide (Z.of_nat (length ls) < capacity) then Ok (length ls) else Err StateTreeFull)
  ∧ (Z.of_nat (length ls) = capacity → (pool_insert s leaf).1 = s).
Proof.
  intros Hls Hc s. pose proof (pool_inserts_represents ls Hls Hc) as Hr. fold s in Hr. split_and!.
  - by apply represents_root.
  - intros r. by apply known_root_spec.
  - case_decide as Hd.
    + by destruct (pool_insert_represents s ls leaf Hr Hls EMPTY_LEAF_fr Hd) as (s' & -> & _).
    + by rewrite (insert_full s ls leaf Hr) by lia.
  - intros Heq. by rewrite (insert_full s ls leaf Hr) by lia.
Qed.

(** [to_bytes] / [from_bytes]. *)
Context `{!Bincode PoolState}.

Definition pool_to_bytes (s : PoolState) : bytes := serialize s.

Definition pool_from_bytes (bs : bytes) : outcome PoolStateError PoolState :=
  ok_or (deserialize bs) StateCorrupt.

End PoolState.

Module Example.
#[local] Existing Instance poseidon_toy.

Lemma pool_tree_refines_witness :
  current_root (pool_inserts pool_new [11; 12; 13]) = fr_to_bytes (tree_root [11; 12; 13]).
Proof.
  refine (proj1 (pool_tree_refines [11; 12; 13] 14 _ _)).
  - repeat constructor; apply u64_is_fr; unfold u64, u64_max; lia.
  - vm_compute. discriminate.
Defined.
End Example.
