(* ===== verification/PoolProcessor.v ===== *)
(** * The shielded pool's state machine

    Models [chain/zul-privacy/src/instruction.rs] and [processor.rs]. The traits
    [NullifierSet] and [ProofVerifier] are type classes. Rust mutates the state
    and the nullifier set through [&mut], so each operation returns both
    together with its result: an error does not by itself undo a mutation. *)

From S2P Require Import Prelude External Hash Field PoolState.

(** ** Instructions *)

Inductive Asset :=
| Native
| Spl (mint : bytes).

#[global] Instance Asset_eq_dec : EqDecision Asset.
Proof. solve_decision. Defined.

Inductive PoolInstruction :=
| Shield (asset : Asset) (amount : Z) (secret : FieldBytes) (encrypted_note : bytes)
| Transfer (proof : bytes) (root : FieldBytes) (nf0 nf1 : FieldBytes) (cm0 cm1 : FieldBytes)
    (fee : Z) (note0 note1 : bytes)
| Unshield (proof : bytes) (root : FieldBytes) (nf : FieldBytes) (change_commitment : FieldBytes)
    (asset : Asset) (amount : Z) (recipient : Pubkey) (encrypted_change_note : bytes).

#[global] Instance Asset_countable : Countable Asset.
Proof.
  refine (inj_countable' (λ a, match a with Native => None | Spl m => Some m end)
            (λ o, match o with None => Native | Some m => Spl m end) _).
  by intros [].
Defined.
#[global] Instance PoolInstruction_eq_dec : EqDecision PoolInstruction.
Proof. solve_decision. Defined.
#[global] Instance PoolInstruction_countable : Countable PoolInstruction.
Proof.
  refine (inj_countable' (λ i, match i with
      | Shield a v s n => inl (a, v, s, n)
      | Transfer p r x y c d f n m => inr (inl (p, r, x, y, c, d, f, n, m))
      | Unshield p r x c a v k n => inr (inr (p, r, x, c, a, v, k, n)) end)
    (λ x, match x with
      | inl (a, v, s, n) => Shield a v s n
      | inr (inl (p, r, x, y, c, d, f, n, m)) => Transfer p r x y c d f n m
      | inr (inr (p, r, x, c, a, v, k, n)) => Unshield p r x c a v k n end) _).
  by intros [].
Defined.

Definition is_native (a : Asset) : bool := match a with Native => true | Spl _ => false end.

Inductive PoolError :=
| BadField | UnknownRoot | DoubleSpend | DuplicateNullifier | ZeroAmount | TreeFull
| InvalidProof | NoVerifyingKey.

#[global] Instance PoolError_eq_dec : EqDecision PoolError.
Proof. solve_decision. Defined.

Inductive PoolEffect :=
| DepositToVault (asset : Asset) (amount : Z)
| WithdrawFromVault (asset : Asset) (amount : Z) (recipient : Pubkey)
| PayFee (amount : Z).

Record NoteEvent := {
  leaf_index : nat;
  commitment : FieldBytes;
  encrypted_note : bytes;
}.

Record PoolOutcome := {
  effects : list PoolEffect;
  note_events : list NoteEvent;
}.

(** ** The traits *)

Class NullifierSet (N : Type) := {
  contains : N → FieldBytes → bool;
  nf_insert : N → FieldBytes → N;
  contains_insert : ∀ s n m, contains (nf_insert s n) m = bool_decide (n = m) || contains s m;
}.

Class ProofVerifier := {
  verify_transfer : bytes → list Fr → bool;
  verify_unshield : bytes → list Fr → bool;
}.

Definition asset_id_fr (a : Asset) : Fr :=
  match a with
  | Native => native_asset_id
  | Spl mint => asset_id_for_mint mint
  end.

(** Case analysis on the guards of an operation, in program order. *)
Ltac split_checks :=
  repeat match goal with
  | |- context [negb ?b] => destruct b eqn:?; cbn [negb]
  | |- context [decide ?Q] => destruct (decide Q)
  | |- context [contains ?a ?b || contains ?c ?d] =>
      destruct (contains a b) eqn:?; destruct (contains c d) eqn:?; cbn [orb]
  | |- context [if contains ?a ?b then _ else _] => destruct (contains a b) eqn:?
  | |- context [match ?x with Some _ => _ | None => _ end] => destruct x eqn:?
  | |- context [match ?x with (_, _) => _ end] => destruct x as [? []] eqn:?
  end.

Section Processor.
Context `{P : Poseidon} `{V : ProofVerifier} {N : Type} `{NS : !NullifierSet N}.

(** Append one commitment and describe it as an event. *)
Definition insert_note (s : PoolState) (cm : FieldBytes) (enc : bytes)
    : PoolState * outcome PoolError NoteEvent :=
  match fr_from_bytes cm with
  | None => (s, Err BadField)
  | Some leaf =>
      match pool_insert s leaf with
      | (s', Ok i) => (s', Ok {| leaf_index := i; commitment := cm; encrypted_note := enc |})
      | (s', Err _) => (s', Err TreeFull)
      | (s', Panic) => (s', Panic)
      end
  end.

Fixpoint insert_notes (s : PoolState) (notes : list (FieldBytes * bytes))
    : PoolState * outcome PoolError (list NoteEvent) :=
  match notes with
  | [] => (s, Ok [])
  | (cm, enc) :: notes =>
      match insert_note s cm enc with
      | (s', Ok ev) =>
          match insert_notes s' notes with
          | (s'', Ok evs) => (s'', Ok (ev :: evs))
          | r => r
          end
      | (s', Err e) => (s', Err e)
      | (s', Panic) => (s', Panic)
      end
  end.

Definition shield (s : PoolState) (asset : Asset) (amount : Z) (secret : FieldBytes) (enc : bytes)
    : PoolState * outcome PoolError PoolOutcome :=
  if decide (amount = 0) then (s, Err ZeroAmount)
  else
    match fr_from_bytes secret with
    | None => (s, Err BadField)
    | Some secret_fr =>
        let commitment_fr := note_commitment_from_secret (asset_id_fr asset) amount secret_fr in
        match pool_insert s commitment_fr with
        | (s', Ok i) =>
            (s', Ok {| effects := [DepositToVault asset amount];
                       note_events := [{| leaf_index := i; commitment := fr_to_bytes commitment_fr;
                                          encrypted_note := enc |}] |})
        | (s', Err _) => (s', Err TreeFull)
        | (s', Panic) => (s', Panic)
        end
    end.

Definition transfer_inputs (root nf0 nf1 cm0 cm1 : FieldBytes) (fee : Z) : option (list Fr) :=
  r ← fr_from_bytes root; n0 ← fr_from_bytes nf0; n1 ← fr_from_bytes nf1;
  c0 ← fr_from_bytes cm0; c1 ← fr_from_bytes cm1; Some [r; n0; n1; c0; c1; fr_from_u64 fee].

Definition transfer (s : PoolState) (ns : N) (proof : bytes) (root nf0 nf1 cm0 cm1 : FieldBytes)
    (fee : Z) (note0 note1 : bytes) : PoolState * N * outcome PoolError PoolOutcome :=
  if negb (is_known_root s root) then (s, ns, Err UnknownRoot)
  else if decide (nf0 = nf1) then (s, ns, Err DuplicateNullifier)
  else if contains ns nf0 || contains ns nf1 then (s, ns, Err DoubleSpend)
  else
    match transfer_inputs root nf0 nf1 cm0 cm1 fee with
    | None => (s, ns, Err BadField)
    | Some public_inputs =>
        if negb (verify_transfer proof public_inputs) then (s, ns, Err InvalidProof)
        else
          let ns' := nf_insert (nf_insert ns nf0) nf1 in
          match insert_notes s [(cm0, note0); (cm1, note1)] with
          | (s', Ok evs) =>
              (s', ns', Ok {| effects := if decide (0 < fee) then [PayFee fee] else [];
                              note_events := evs |})
          | (s', Err e) => (s', ns', Err e)
          | (s', Panic) => (s', ns', Panic)
          end
    end.

Definition unshield_inputs (root nf cm : FieldBytes) (asset : Asset) (amount : Z) (recipient : Pubkey)
    : option (list Fr) :=
  r ← fr_from_bytes root; n ← fr_from_bytes nf; c ← fr_from_bytes cm;
  Some [r; n; c; asset_id_fr asset; fr_from_u64 amount; from_le_bytes_mod_order recipient].

Definition unshield (s : PoolState) (ns : N) (proof : bytes) (root nf cm : FieldBytes)
    (asset : Asset) (amount : Z) (recipient : Pubkey) (enc : bytes)
    : PoolState * N * outcome PoolError PoolOutcome :=
  if decide (amount = 0) then (s, ns, Err ZeroAmount)
  else if negb (is_known_root s root) then (s, ns, Err UnknownRoot)
  else if contains ns nf then (s, ns, Err DoubleSpend)
  else
    match unshield_inputs root nf cm asset amount recipient with
    | None => (s, ns, Err BadField)
    | Some public_inputs =>
        if negb (verify_unshield proof public_inputs) then (s, ns, Err InvalidProof)
        else
          let ns' := nf_insert ns nf in
          match insert_note s cm enc with
          | (s', Ok ev) =>
              (s', ns', Ok {| effects := [WithdrawFromVault asset amount recipient];
                              note_events := [ev] |})
          | (s', Err e) => (s', ns', Err e)
          | (s', Panic) => (s', ns', Panic)
          end
    end.

Definition process (s : PoolState) (ns : N) (ix : PoolInstruction)
    : PoolState * N * outcome PoolError PoolOutcome :=
  match ix with
  | Shield asset amount secret enc =>
      let '(s', r) := shield s asset amount secret enc in (s', ns, r)
  | Transfer proof root nf0 nf1 cm0 cm1 fee n0 n1 =>
      transfer s ns proof root nf0 nf1 cm0 cm1 fee n0 n1
  | Unshield proof root nf cm asset amount recipient enc =>
      unshield s ns proof root nf cm asset amount recipient enc
  end.

(** ** Facts *)

Definition nullifiers_of (ix : PoolInstruction) : list FieldBytes :=
  match ix with
  | Shield _ _ _ _ => []
  | Transfer _ _ nf0 nf1 _ _ _ _ _ => [nf0; nf1]
  | Unshield _ _ nf _ _ _ _ _ => [nf]
  end.

(** An accepted instruction spends fresh, distinct nullifiers; whatever the
    result, the set only gains the instruction's own nullifiers. *)
Lemma process_nullifiers s ns ix s' ns' r :
  process s ns ix = (s', ns', r) →
  (∀ m, contains ns m = true → contains ns' m = true)
  ∧ (∀ m, contains ns' m = true → contains ns m = true ∨ m ∈ nullifiers_of ix)
  ∧ (is_ok r = true →
     NoDup (nullifiers_of ix)
     ∧ ∀ n, n ∈ nullifiers_of ix → contains ns n = false ∧ contains ns' n = true).
Proof.
  destruct ix as [asset amount secret enc|proof root nf0 nf1 cm0 cm1 fee n0 n1
                 |proof root nf cm asset amount recipient enc]; cbn [process nullifiers_of].
  - destruct (shield _ _ _ _ _) as [s1 r1]. intros [= <- <- <-]. split_and!; [done|auto|].
    intros _. split; [constructor|set_solver].
  - unfold transfer. split_checks; intros [= <- <- <-]; split_and!; try done; auto;
      try (intros m Hm; rewrite !contains_insert, Hm, !orb_true_r; done);
      try (intros m; rewrite !contains_insert, !orb_true_iff, !bool_decide_eq_true; set_solver).
    all: intros _; split; [apply NoDup_cons_2; [set_solver|apply NoDup_singleton]|].
    all: intros m Hm; apply elem_of_cons in Hm as [->|Hm]; [|apply list_elem_of_singleton in Hm as ->];
      (split; [done|]); rewrite !contains_insert, !orb_true_iff, !bool_decide_eq_true; auto.
  - unfold unshield. split_checks; intros [= <- <- <-]; split_and!; try done; auto;
      try (intros m Hm; rewrite !contains_insert, Hm, !orb_true_r; done);
      try (intros m; rewrite !contains_insert, !orb_true_iff, !bool_decide_eq_true; set_solver).
    all: intros _; split; [apply NoDup_singleton|].
    all: intros m ->%list_elem_of_singleton; split; [done|].
    all: rewrite contains_insert, orb_true_iff, bool_decide_eq_true; auto.
Qed.

(** Run a list of instructions; the nullifiers of the accepted ones. *)
Fixpoint run_pool (s : PoolState) (ns : N) (ixs : list PoolInstruction)
    : PoolState * N * list FieldBytes :=
  match ixs with
  | [] => (s, ns, [])
  | ix :: ixs =>
      let '(s', ns', r) := process s ns ix in
      let '(s'', ns'', spent) := run_pool s' ns' ixs in
      (s'', ns'', (if is_ok r then nullifiers_of ix else []) ++ spent)
  end.

Lemma run_pool_fresh ixs : ∀ s ns s' ns' spent,
  run_pool s ns ixs = (s', ns', spent) →
  NoDup spent ∧ ∀ n, n ∈ spent → contains ns n = false ∧ contains ns' n = true.
Proof.
  induction ixs as [|ix ixs IH]; intros s ns s' ns' spent; cbn [run_pool].
  { intros [= <- <- <-]. split; [constructor|set_solver]. }
  destruct (process s ns ix) as [[s1 ns1] r] eqn:Hp.
  destruct (run_pool s1 ns1 ixs) as [[s2 ns2] sp] eqn:Hrun. intros [= <- <- <-].
  destruct (IH _ _ _ _ _ Hrun) as [Hnd Hsp].
  destruct (process_nullifiers _ _ _ _ _ _ Hp) as (Hmono & _ & Hok).
  assert (Hkeep : ∀ m, contains ns1 m = true → contains ns2 m = true).
  { clear -Hrun. revert s1 ns1 s2 ns2 sp Hrun.
    induction ixs as [|ix ixs IH]; intros s1 ns1 s2 ns2 sp; cbn [run_pool].
    - intros [= <- <- <-]. done.
    - destruct (process s1 ns1 ix) as [[s3 ns3] r3] eqn:Hp3.
      destruct (run_pool s3 ns3 ixs) as [[s4 ns4] sp4] eqn:Hr4. intros [= <- <- <-] m Hm.
      eapply IH; [exact Hr4|].
      exact (proj1 (process_nullifiers _ _ _ _ _ _ Hp3) m Hm). }
  assert (Hfresh : ∀ n, n ∈ sp → contains ns n = false).
  { intros n Hn. destruct (contains ns n) eqn:Hc; [|done].
    apply Hmono in Hc. destruct (Hsp n Hn). congruence. }
  destruct (is_ok r); [destruct (Hok eq_refl) as [Hnd1 Hix]|cbn [app]].
  - split.
    + apply list.NoDup_app. split_and!; [done| |done].
      intros n Hn Hn'. destruct (Hix n Hn), (Hsp n Hn'). congruence.
    + intros n [Hn|Hn]%elem_of_app; [|split; [by apply Hfresh|by apply Hsp]].
      destruct (Hix n Hn). auto.
  - split; [done|]. intros n Hn. split; [by apply Hfresh|by apply Hsp].
Qed.

(** C11: no double spend: over any sequence of pool instructions, whatever the
    proofs, the nullifiers of the accepted ones are pairwise distinct, none was
    spent before, and all of them are spent afterwards. *)
Theorem no_double_spend ixs s ns :
  let r := run_pool s ns ixs in
  NoDup r.2 ∧ ∀ n, n ∈ r.2 → contains ns n = false ∧ contains r.1.2 n = true.
Proof. intros r. destruct r as [[s' ns'] spent] eqn:Hr. exact (run_pool_fresh _ _ _ _ _ _ Hr). Qed.

(** ** Effect on the tree *)

Lemma insert_note_represents s ls cm enc :
  represents s ls → Forall is_fr ls → Z.of_nat (length ls) < PoolState.capacity →
  match fr_from_bytes cm with
  | None => insert_note s cm enc = (s, Err BadField)
  | Some leaf => ∃ s', insert_note s cm enc
      = (s', Ok {| leaf_index := length ls; commitment := cm; encrypted_note := enc |})
      ∧ represents s' (ls ++ [leaf]) ∧ Forall is_fr (ls ++ [leaf])
  end.
Proof.
  intros Hr Hls Hc. unfold insert_note. destruct (fr_from_bytes cm) as [leaf|] eqn:Hl; [|done].
  destruct (pool_insert_represents s ls leaf Hr Hls EMPTY_LEAF_fr Hc) as (s' & -> & Hr').
  exists s'. split_and!; [done|done|]. apply list.Forall_app. split; [done|].
  apply fr_from_bytes_Some in Hl as [? _]. by apply Forall_singleton.
Qed.

(** The leaves an accepted instruction appends. *)
Definition new_leaves (ix : PoolInstruction) : option (list Fr) :=
  match ix with
  | Shield asset amount secret _ =>
      x ← fr_from_bytes secret; Some [note_commitment_from_secret (asset_id_fr asset) amount x]
  | Transfer _ _ _ _ cm0 cm1 _ _ _ =>
      a ← fr_from_bytes cm0; b ← fr_from_bytes cm1; Some [a; b]
  | Unshield _ _ _ cm _ _ _ _ => c ← fr_from_bytes cm; Some [c]
  end.

Lemma transfer_inputs_fields root nf0 nf1 cm0 cm1 fee l :
  transfer_inputs root nf0 nf1 cm0 cm1 fee = Some l →
  ∃ a b, fr_from_bytes cm0 = Some a ∧ fr_from_bytes cm1 = Some b.
Proof.
  unfold transfer_inputs. intros (? & _ & H)%bind_Some. apply bind_Some in H as (? & _ & H).
  apply bind_Some in H as (? & _ & H). apply bind_Some in H as (a & Ha & H).
  apply bind_Some in H as (b & Hb & _). eauto.
Qed.

Lemma unshield_inputs_fields root nf cm asset amount recipient l :
  unshield_inputs root nf cm asset amount recipient = Some l → ∃ c, fr_from_bytes cm = Some c.
Proof.
  unfold unshield_inputs. intros (? & _ & H)%bind_Some. apply bind_Some in H as (? & _ & H).
  apply bind_Some in H as (c & Hc & _). eauto.
Qed.

(** With room for two leaves, an instruction either appends exactly its leaves
    or fails and changes nothing. *)
Lemma process_represents s ns ls ix s' ns' r :
  represents s ls → Forall is_fr ls → Z.of_nat (length ls) + 2 ≤ PoolState.capacity →
  process s ns ix = (s', ns', r) →
  match r with
  | Ok out => ∃ new, new_leaves ix = Some new ∧ represents s' (ls ++ new) ∧ Forall is_fr (ls ++ new)
      ∧ commitment <$> note_events out = fr_to_bytes <$> new
      ∧ leaf_index <$> note_events out = seq (length ls) (length new)
  | Err _ => s' = s ∧ ns' = ns
  | Panic => False
  end.
Proof.
  intros Hr Hls Hc. destruct ix as [asset amount secret enc|proof root nf0 nf1 cm0 cm1 fee n0 n1
                 |proof root nf cm asset amount recipient enc]; cbn [process new_leaves].
  - unfold shield. destruct (decide (amount = 0)); [by intros [= <- <- <-]|].
    destruct (fr_from_bytes secret) as [x|]; [|by intros [= <- <- <-]].
    set (leaf := note_commitment_from_secret _ _ _).
    destruct (pool_insert_represents s ls leaf Hr Hls EMPTY_LEAF_fr ltac:(lia)) as (s1 & -> & Hr1).
    intros [= <- <- <-]. exists [leaf]. split_and!; [done|done| |done|done].
    apply list.Forall_app. split; [done|]. apply Forall_singleton, hash3_fr.
  - unfold transfer. destruct (is_known_root s root); cbn [negb]; [|by intros [= <- <- <-]].
    destruct (decide _); [by intros [= <- <- <-]|].
    destruct (_ || _); [by intros [= <- <- <-]|].
    destruct (transfer_inputs _ _ _ _ _ _) as [l|] eqn:Hi; [|by intros [= <- <- <-]].
    destruct (verify_transfer _ _); cbn [negb]; [|by intros [= <- <- <-]].
    apply transfer_inputs_fields in Hi as (a & b & Ha & Hb). cbn [insert_notes].
    pose proof (insert_note_represents s ls cm0 n0 Hr Hls ltac:(lia)) as H1. rewrite Ha in H1.
    destruct H1 as (s1 & -> & Hr1 & Hls1).
    pose proof (insert_note_represents s1 _ cm1 n1 Hr1 Hls1
                  ltac:(rewrite length_app; cbn [length]; lia)) as H2.
    rewrite Hb in H2. destruct H2 as (s2 & -> & Hr2 & Hls2).
    intros [= <- <- <-]. exists [a; b]. rewrite Ha, Hb.
    apply fr_from_bytes_Some in Ha as [_ ->], Hb as [_ ->].
    rewrite <- app_assoc in Hr2, Hls2. split_and!; [done|done|done|done|].
    cbn. by rewrite length_app, Nat.add_comm.
  - unfold unshield. destruct (decide _); [by intros [= <- <- <-]|].
    destruct (is_known_root s root); cbn [negb]; [|by intros [= <- <- <-]].
    destruct (contains _ _); [by intros [= <- <- <-]|].
    destruct (unshield_inputs _ _ _ _ _ _) as [l|] eqn:Hi; [|by intros [= <- <- <-]].
    destruct (verify_unshield _ _); cbn [negb]; [|by intros [= <- <- <-]].
    apply unshield_inputs_fields in Hi as (a & Ha).
    pose proof (insert_note_represents s ls cm enc Hr Hls ltac:(lia)) as H1. rewrite Ha in H1.
    destruct H1 as (s1 & -> & Hr1 & Hls1).
    intros [= <- <- <-]. exists [a]. rewrite Ha. apply fr_from_bytes_Some in Ha as [_ ->].
    by split_and!.
Qed.

(** C32: on a pool state holding the leaves [ls] with two free places, an
    instruction either succeeds, appending exactly its commitments (for a
    shield, the commitment to the public asset and amount) and reporting each
    with its leaf index, or fails and leaves tree and nullifiers unchanged; it
    never panics. *)
Theorem process_refines_tree s ns ls ix s' ns' r :
  represents s ls → Forall is_fr ls → Z.of_nat (length ls) + 2 ≤ PoolState.capacity →
  process s ns ix = (s', ns', r) →
  match r with
  | Ok out => ∃ new, new_leaves ix = Some new ∧ represents s' (ls ++ new)
      ∧ commitment <$> note_events out = fr_to_bytes <$> new
      ∧ leaf_index <$> note_events out = seq (length ls) (length new)
  | Err _ => s' = s ∧ ns' = ns
  | Panic => False
  end.
Proof.
  intros Hr Hls Hc Hp. pose proof (process_represents _ _ _ _ _ _ _ Hr Hls Hc Hp) as H.
  destruct r as [out| |]; [|done|done]. destruct H as (new & ? & ? & _ & ? & ?). eauto 10.
Qed.

(** A transfer that passes every check on a tree with a single free place
    fails with [TreeFull] although both its nullifiers are now spent and its
    first commitment is in the tree. *)
Theorem transfer_last_leaf s ns ls proof root nf0 nf1 cm0 cm1 fee n0 n1 inputs :
  represents s ls → Forall is_fr ls → Z.of_nat (length ls) + 1 = PoolState.capacity →
  is_known_root s root = true → nf0 ≠ nf1 → contains ns nf0 = false → contains ns nf1 = false →
  transfer_inputs root nf0 nf1 cm0 cm1 fee = Some inputs → verify_transfer proof inputs = true →
  ∃ s' ns', process s ns (Transfer proof root nf0 nf1 cm0 cm1 fee n0 n1) = (s', ns', Err TreeFull)
  ∧ contains ns' nf0 = true ∧ contains ns' nf1 = true ∧ next_leaf_index s' = S (length ls).
Proof.
  intros Hr Hls Hc Hroot Hne H0 H1 Hi Hv. cbn [process]. unfold transfer.
  rewrite Hroot, decide_False, H0, H1, Hi, Hv by done. cbn [negb orb].
  apply transfer_inputs_fields in Hi as (a & b & Ha & Hb). cbn [insert_notes].
  pose proof (insert_note_represents s ls cm0 n0 Hr Hls ltac:(lia)) as Hn. rewrite Ha in Hn.
  destruct Hn as (s1 & -> & Hr1 & _). unfold insert_note. rewrite Hb.
  rewrite (insert_full s1 _ b Hr1) by (rewrite length_app; cbn [length]; lia).
  eexists _, _. split; [done|].
  rewrite !contains_insert, !orb_true_iff, !bool_decide_eq_true. split_and!; [auto|auto|].
  rewrite (rep_next _ _ Hr1), length_app. cbn [length]. lia.
Qed.

End Processor.

(** ** Witnesses *)

Module Example.
#[local] Existing Instance poseidon_toy.

#[local] Instance accept_all : ProofVerifier :=
  {| verify_transfer _ _ := true; verify_unshield _ _ := true |}.

#[local] Instance set_nullifiers : NullifierSet (gset FieldBytes).
Proof.
  refine {| contains s n := bool_decide (n ∈ s); nf_insert s n := {[n]} ∪ s |}.
  intros s n m. apply eq_bool_prop_intro. rewrite orb_True, !bool_decide_spec.
  rewrite elem_of_union, elem_of_singleton. naive_solver.
Defined.

Definition f (n : Z) : FieldBytes := fr_to_bytes n.
Definition spend : PoolInstruction :=
  Unshield [] (current_root pool_new) (f 5) (f 6) Native 10 (f 7) [].

(** The second spend of one nullifier is refused. *)
Lemma second_spend_refused : (run_pool pool_new (∅ : gset FieldBytes) [spend; spend]).2 = [f 5].
Proof. vm_compute. reflexivity. Qed.

Definition deposit : PoolInstruction := Shield Native 10 (f 9) [].
Definition deposit_result := process pool_new (∅ : gset FieldBytes) deposit.

Lemma process_refines_tree_witness :
  match deposit_result.2 with
  | Ok out => ∃ new, new_leaves deposit = Some new ∧ represents deposit_result.1.1 ([] ++ new)
      ∧ commitment <$> note_events out = fr_to_bytes <$> new
      ∧ leaf_index <$> note_events out = seq 0 (length new)
  | Err _ => deposit_result.1.1 = pool_new ∧ deposit_result.1.2 = ∅
  | Panic => False
  end.
Proof.
  refine (process_refines_tree pool_new (∅ : gset FieldBytes) [] deposit
            deposit_result.1.1 deposit_result.1.2 deposit_result.2 pool_new_represents _ _ _).
  - constructor.
  - vm_compute. discriminate.
  - unfold deposit_result. by destruct (process _ _ _) as [[? ?] ?].
Defined.

(** A tree with a single free place. *)
Definition many : nat := Z.to_nat (PoolState.capacity - 1).
Definition nearly_full : list Fr := replicate many 1.

Lemma many_eq : Z.of_nat many + 1 = PoolState.capacity.
Proof. unfold many. rewrite Z2Nat.id; [lia|]. vm_compute. discriminate. Qed.

Lemma one_fr : is_fr 1.
Proof. apply u64_is_fr. unfold u64, u64_max. lia. Qed.

Lemma nearly_full_fr : Forall is_fr nearly_full.
Proof. apply Forall_replicate, one_fr. Qed.

Lemma nearly_full_length : length nearly_full = many.
Proof. apply length_replicate. Qed.

Lemma nearly_full_represents : represents (pool_inserts pool_new nearly_full) nearly_full.
Proof.
  apply pool_inserts_represents; [apply nearly_full_fr|].
  rewrite nearly_full_length. pose proof many_eq. lia.
Qed.

Definition last_root : FieldBytes := fr_to_bytes (tree_root nearly_full).

Lemma root_positive h i ls : 0 < tree ls (S h) i.
Proof.
  cbn [tree tree_node hash2 poseidon_toy].
  set (x := 31 * _ + _ + 2). assert (1 < FR_MODULUS) by (vm_compute; reflexivity).
  pose proof (Z.mod_pos_bound x (FR_MODULUS - 1) ltac:(lia)). lia.
Qed.

Lemma tree_root_fr : is_fr (tree_root nearly_full).
Proof. apply tree_fr; [apply nearly_full_fr|apply EMPTY_LEAF_fr]. Qed.

Lemma last_root_known : is_known_root (pool_inserts pool_new nearly_full) last_root = true.
Proof.
  apply (known_root_spec _ _ _ nearly_full_represents). split.
  - intros Hz. apply (f_equal le_val) in Hz. unfold last_root in Hz.
    rewrite le_val_fr_to_bytes in Hz by apply tree_root_fr.
    pose proof (root_positive 25 0 nearly_full). rewrite tree_root_eq in Hz.
    change TREE_DEPTH with 26%nat in Hz.
    change (le_val (replicate 32 Byte.x00)) with 0 in Hz. lia.
  - exists (length nearly_full). split_and!; [lia|unfold ROOT_HISTORY; lia|].
    unfold last_root. by rewrite take_ge by lia.
Qed.

Lemma transfer_last_leaf_witness :
  ∃ s' ns', process (pool_inserts pool_new nearly_full) (∅ : gset FieldBytes)
              (Transfer [] last_root (f 1) (f 2) (f 3) (f 4) 0 [] []) = (s', ns', Err TreeFull)
  ∧ contains ns' (f 1) = true ∧ contains ns' (f 2) = true
  ∧ next_leaf_index s' = S (length nearly_full).
Proof.
  refine (transfer_last_leaf (pool_inserts pool_new nearly_full) (∅ : gset FieldBytes) nearly_full
            [] last_root (f 1) (f 2) (f 3) (f 4) 0 [] []
            [tree_root nearly_full; 1; 2; 3; 4; 0] nearly_full_represents nearly_full_fr _
            last_root_known _ _ _ _ eq_refl).
  - rewrite nearly_full_length. exact many_eq.
  - intros Heq. apply fr_to_bytes_inj in Heq; [discriminate| |]; apply u64_is_fr; unfold u64, u64_max; lia.
  - reflexivity.
  - reflexivity.
  - unfold transfer_inputs, last_root, f.
    rewrite (fr_from_to_bytes _ tree_root_fr), !fr_from_to_bytes; [reflexivity|..];
      apply u64_is_fr; unfold u64, u64_max; lia.
Defined.
End Example.
