(* ===== verification/Groth16.v ===== *)
(** * The pool's proof verifier

    Models [chain/zul-privacy/src/verifier.rs] and [verifying_keys.rs]: the wire
    format of curve points, proofs and verifying keys, and the verifier the node
    gives the pool's processor ([PoolProcessor.ProofVerifier]). A base field
    element is an integer below the modulus. The curve checks and the pairing
    equation are arkworks': an interface of which only one fact is used, that
    (0, 0) is on neither curve.

    The encodings are canonical in both directions, so an accepted proof has one
    byte string; and without keys nothing is accepted. *)

From S2P Require Import Prelude External Hash Field PoolState PoolProcessor.

(** The BN254 base field modulus. *)
Definition FQ_MODULUS : Z :=
  21888242871839275222246405745257275088696311157297823662689037894645226208583.

Abbreviation Fq := Z.

Inductive G1Affine := G1_identity | G1_point (x y : Fq).
(** Coordinates in the quadratic extension: [x = x0 + x1 u]. *)
Inductive G2Affine := G2_identity | G2_point (x0 x1 y0 y1 : Fq).

Record Proof_ := {
  pr_a : G1Affine;
  pr_b : G2Affine;
  pr_c : G1Affine;
}.

Record VerifyingKey := {
  alpha_g1 : G1Affine;
  beta_g2 : G2Affine;
  gamma_g2 : G2Affine;
  delta_g2 : G2Affine;
  gamma_abc_g1 : list G1Affine;
}.

(** arkworks: on the curve and in the right subgroup, and the pairing check. *)
Class Bn254 := {
  g1_valid : Fq → Fq → bool;
  g2_valid : Fq → Fq → Fq → Fq → bool;
  verify_proof : VerifyingKey → Proof_ → list Fr → option bool;
  g1_zero : g1_valid 0 0 = false;
  g2_zero : g2_valid 0 0 0 0 = false;
}.

Inductive VerifierError :=
| BadPoint | BadVerifyingKey | BadProof
| InputCount (expected actual : Z).

Definition PROOF_BYTES : nat := 256.

(** ** Encoding *)

(** Big-endian bytes of a value. *)
Definition fq_to_be (x : Fq) : bytes := rev (le_bytes 32 x).

Definition g1_to_be (p : G1Affine) : bytes :=
  match p with
  | G1_identity => replicate 64 Byte.x00
  | G1_point x y => fq_to_be x ++ fq_to_be y
  end.

Definition g2_to_be (p : G2Affine) : bytes :=
  match p with
  | G2_identity => replicate 128 Byte.x00
  | G2_point x0 x1 y0 y1 => fq_to_be x1 ++ fq_to_be x0 ++ fq_to_be y1 ++ fq_to_be y0
  end.

Definition proof_to_bytes (p : Proof_) : bytes :=
  g1_to_be (pr_a p) ++ g2_to_be (pr_b p) ++ g1_to_be (pr_c p).

(** [n_public] is [len - 1], which panics on a key without points in a debug
    build and wraps in a release build: [None] stands for both. *)
Definition verifying_key_to_bytes (vk : VerifyingKey) : option bytes :=
  if decide (gamma_abc_g1 vk = []) then None
  else Some (le_bytes 4 (Z.of_nat (length (gamma_abc_g1 vk) - 1)) ++ g1_to_be (alpha_g1 vk)
             ++ g2_to_be (beta_g2 vk) ++ g2_to_be (gamma_g2 vk) ++ g2_to_be (delta_g2 vk)
             ++ concat (g1_to_be <$> gamma_abc_g1 vk)).

(** ** Decoding *)

Section Verifier.
Context `{BN : Bn254}.

Definition fq_from_be (bs : bytes) : outcome VerifierError Fq :=
  if decide (length bs ≠ 32%nat) then Err BadPoint
  else
    let fq := le_val (rev bs) mod FQ_MODULUS in
    if decide (fq_to_be fq ≠ bs) then Err BadPoint else Ok fq.

Definition g1_from_be (bs : bytes) : outcome VerifierError G1Affine :=
  if decide (length bs ≠ 64%nat) then Err BadPoint
  else
    let? x := fq_from_be (take 32 bs) in
    let? y := fq_from_be (drop 32 bs) in
    if decide (x = 0 ∧ y = 0) then Ok G1_identity
    else if negb (g1_valid x y) then Err BadPoint else Ok (G1_point x y).

Definition g2_from_be (bs : bytes) : outcome VerifierError G2Affine :=
  if decide (length bs ≠ 128%nat) then Err BadPoint
  else
    let? x_c1 := fq_from_be (slice 0 32 bs) in
    let? x_c0 := fq_from_be (slice 32 64 bs) in
    let? y_c1 := fq_from_be (slice 64 96 bs) in
    let? y_c0 := fq_from_be (slice 96 128 bs) in
    if decide (x_c0 = 0 ∧ x_c1 = 0 ∧ y_c0 = 0 ∧ y_c1 = 0) then Ok G2_identity
    else if negb (g2_valid x_c0 x_c1 y_c0 y_c1) then Err BadPoint
    else Ok (G2_point x_c0 x_c1 y_c0 y_c1).

Definition bad_proof {A} (r : outcome VerifierError A) : outcome VerifierError A := map_err (λ _, BadProof) r.

Definition parse_proof (bs : bytes) : outcome VerifierError Proof_ :=
  if decide (length bs ≠ PROOF_BYTES) then Err BadProof
  else
    let? a := bad_proof (g1_from_be (slice 0 64 bs)) in
    let? b := bad_proof (g2_from_be (slice 64 192 bs)) in
    let? c := bad_proof (g1_from_be (slice 192 256 bs)) in
    Ok {| pr_a := a; pr_b := b; pr_c := c |}.

(** The loop over the points, from an offset on. *)
Fixpoint parse_points (n offset : nat) (bs : bytes) : outcome VerifierError (list G1Affine) :=
  match n with
  | O => Ok []
  | S n =>
      let? p := g1_from_be (slice offset (offset + 64) bs) in
      let? ps := parse_points n (offset + 64) bs in
      Ok (p :: ps)
  end.

Definition parse_verifying_key (bs : bytes) : outcome VerifierError VerifyingKey :=
  if decide (length bs < 4 + 64 + 128 * 3 + 64)%nat then Err BadVerifyingKey
  else
    let n_public := le_val (slice 0 4 bs) in
    if decide (Z.of_nat (length bs) ≠ 4 + 64 + 128 * 3 + (n_public + 1) * 64) then Err BadVerifyingKey
    else
      let? alpha := g1_from_be (slice 4 68 bs) in
      let? beta := g2_from_be (slice 68 196 bs) in
      let? gamma := g2_from_be (slice 196 324 bs) in
      let? delta := g2_from_be (slice 324 452 bs) in
      let? points := parse_points (Z.to_nat n_public + 1) 452 bs in
      Ok {| alpha_g1 := alpha; beta_g2 := beta; gamma_g2 := gamma; delta_g2 := delta; gamma_abc_g1 := points |}.

Definition verify (vk : VerifyingKey) (proof_bytes : bytes) (public_inputs : list Fr) : outcome VerifierError bool :=
  if decide (length public_inputs + 1 ≠ length (gamma_abc_g1 vk))%nat
  then Err (InputCount (Z.of_nat (length (gamma_abc_g1 vk) - 1)) (Z.of_nat (length public_inputs)))
  else
    let? proof := parse_proof proof_bytes in
    ok_or (verify_proof vk proof public_inputs) BadProof.

(** ** Keys *)

Record VerifyingKeys := {
  vk_transfer : option VerifyingKey;
  vk_unshield : option VerifyingKey;
}.

Definition unconfigured : VerifyingKeys := {| vk_transfer := None; vk_unshield := None |}.

Definition load_keys (transfer_vk unshield_vk : bytes) : outcome VerifierError VerifyingKeys :=
  let? t := parse_verifying_key transfer_vk in
  let? u := parse_verifying_key unshield_vk in
  Ok {| vk_transfer := Some t; vk_unshield := Some u |}.

Definition is_configured (k : VerifyingKeys) : bool :=
  match vk_transfer k, vk_unshield k with Some _, Some _ => true | _, _ => false end.

(** [load_pool_keys] of the node's [main.rs]: the two files when both can be
    read and parsed, no keys otherwise. *)
Definition load_pool_keys (transfer_file unshield_file : option bytes) : VerifyingKeys :=
  match transfer_file, unshield_file with
  | Some t, Some u => match load_keys t u with Ok keys => keys | _ => unconfigured end
  | _, _ => unconfigured
  end.

Definition accepts (key : option VerifyingKey) (proof : bytes) (public_inputs : list Fr) : bool :=
  match key with
  | Some vk => match verify vk proof public_inputs with Ok b => b | _ => false end
  | None => false
  end.

Definition Groth16Verifier (keys : VerifyingKeys) : ProofVerifier := {|
  verify_transfer := accepts (vk_transfer keys);
  verify_unshield := accepts (vk_unshield keys);
|}.

(** ** Canonical encodings *)

Definition is_fq (x : Fq) : Prop := 0 ≤ x < FQ_MODULUS.

Lemma FQ_MODULUS_bound : 0 < FQ_MODULUS < 256 ^ Z.of_nat 32.
Proof. split; reflexivity. Qed.
#[local] Opaque FQ_MODULUS.

Lemma length_fq_to_be x : length (fq_to_be x) = 32%nat.
Proof. unfold fq_to_be. by rewrite length_rev, length_le_bytes. Qed.

Lemma fq_from_be_Ok bs x : fq_from_be bs = Ok x ↔ is_fq x ∧ bs = fq_to_be x.
Proof.
  unfold fq_from_be. split.
  - case_decide as Hl; [done|]. case_decide as Hc; [done|]. intros [= <-].
    split; [|done]. apply Z.mod_pos_bound, FQ_MODULUS_bound.
  - intros [Hx ->]. rewrite decide_False by (intros Hn; apply Hn, length_fq_to_be).
    assert (Hv : le_val (rev (fq_to_be x)) mod FQ_MODULUS = x).
    { unfold fq_to_be. rewrite rev_involutive, le_val_le_bytes_small; [by apply Z.mod_small|].
      pose proof FQ_MODULUS_bound. unfold is_fq in Hx. lia. }
    rewrite Hv. by rewrite decide_False by (intros Hn; by apply Hn).
Qed.

Definition g1_wf (p : G1Affine) : Prop :=
  match p with
  | G1_identity => True
  | G1_point x y => is_fq x ∧ is_fq y ∧ g1_valid x y = true
  end.

Definition g2_wf (p : G2Affine) : Prop :=
  match p with
  | G2_identity => True
  | G2_point x0 x1 y0 y1 => is_fq x0 ∧ is_fq x1 ∧ is_fq y0 ∧ is_fq y1 ∧ g2_valid x0 x1 y0 y1 = true
  end.

Lemma fq_zero : is_fq 0 ∧ fq_to_be 0 = replicate 32 Byte.x00.
Proof. split; [pose proof FQ_MODULUS_bound; unfold is_fq; lia|reflexivity]. Qed.

Lemma length_g1_to_be p : length (g1_to_be p) = 64%nat.
Proof. destruct p; cbn [g1_to_be]; [done|]. by rewrite length_app, !length_fq_to_be. Qed.

Lemma length_g2_to_be p : length (g2_to_be p) = 128%nat.
Proof. destruct p; cbn [g2_to_be]; [done|]. by rewrite !length_app, !length_fq_to_be. Qed.

(** The parts of an encoding. *)
Ltac point_len := rewrite ?length_app, ?length_le_bytes, ?length_fq_to_be, ?length_g1_to_be, ?length_g2_to_be; lia.
Ltac pick_point := pick_field_with ltac:(point_len).

(** A point's coordinates, the identity as (0, 0). *)
Lemma g1_from_be_coords x y :
  is_fq x → is_fq y →
  g1_from_be (fq_to_be x ++ fq_to_be y)
  = if decide (x = 0 ∧ y = 0) then Ok G1_identity
    else if negb (g1_valid x y) then Err BadPoint else Ok (G1_point x y).
Proof.
  intros Hx Hy. unfold g1_from_be. rewrite decide_False by (rewrite length_app, !length_fq_to_be; intros Hn; by apply Hn).
  rewrite take_app_length', drop_app_length' by (by rewrite length_fq_to_be).
  rewrite (proj2 (fq_from_be_Ok _ x) (conj Hx eq_refl)), (proj2 (fq_from_be_Ok _ y) (conj Hy eq_refl)). done.
Qed.

Lemma g1_from_be_Ok bs p : g1_from_be bs = Ok p ↔ g1_wf p ∧ bs = g1_to_be p.
Proof.
  split.
  - intros H. pose proof H as H0. unfold g1_from_be in H0. case_decide as Hl; [done|].
    apply obind_Ok in H0 as (x & [Hx Hbx]%fq_from_be_Ok & H0). apply obind_Ok in H0 as (y & [Hy Hby]%fq_from_be_Ok & _).
    assert (Hbs : bs = fq_to_be x ++ fq_to_be y) by (by rewrite <- Hbx, <- Hby, take_drop).
    rewrite Hbs, g1_from_be_coords in H by done. rewrite Hbs. case_decide as Hz.
    + injection H as <-. destruct Hz as [-> ->]. split; [done|]. by rewrite (proj2 fq_zero).
    + destruct (g1_valid x y) eqn:Hv; [|done]. injection H as <-. done.
  - intros [Hp ->]. destruct p as [|x y]; cbn [g1_to_be].
    + change (replicate 64 Byte.x00) with (replicate 32 Byte.x00 ++ replicate 32 Byte.x00).
      rewrite <- (proj2 fq_zero), g1_from_be_coords by apply fq_zero. done.
    + destruct Hp as (Hx & Hy & Hv). rewrite g1_from_be_coords by done. rewrite decide_False, Hv; [done|].
      intros [-> ->]. rewrite g1_zero in Hv. done.
Qed.

Lemma g2_from_be_coords x0 x1 y0 y1 :
  is_fq x0 → is_fq x1 → is_fq y0 → is_fq y1 →
  g2_from_be (fq_to_be x1 ++ fq_to_be x0 ++ fq_to_be y1 ++ fq_to_be y0)
  = if decide (x0 = 0 ∧ x1 = 0 ∧ y0 = 0 ∧ y1 = 0) then Ok G2_identity
    else if negb (g2_valid x0 x1 y0 y1) then Err BadPoint else Ok (G2_point x0 x1 y0 y1).
Proof.
  intros H1 H2 H3 H4. unfold g2_from_be. rewrite decide_False by (rewrite !length_app, !length_fq_to_be; intros Hn; by apply Hn).
  set (bs := fq_to_be x1 ++ fq_to_be x0 ++ fq_to_be y1 ++ fq_to_be y0).
  replace (slice 0 32 bs) with (fq_to_be x1) by (symmetry; unfold bs; pick_point).
  replace (slice 32 64 bs) with (fq_to_be x0) by (symmetry; unfold bs; pick_point).
  replace (slice 64 96 bs) with (fq_to_be y1) by (symmetry; unfold bs; pick_point).
  replace (slice 96 128 bs) with (fq_to_be y0) by (symmetry; unfold bs; pick_point).
  rewrite (proj2 (fq_from_be_Ok _ x1) (conj H2 eq_refl)), (proj2 (fq_from_be_Ok _ x0) (conj H1 eq_refl)).
  rewrite (proj2 (fq_from_be_Ok _ y1) (conj H4 eq_refl)), (proj2 (fq_from_be_Ok _ y0) (conj H3 eq_refl)). done.
Qed.

(** Bytes of a known length are their slices. *)
Lemma cut {A} a b c (l : list A) : (a ≤ b ≤ c)%nat → slice a c l = slice a b l ++ slice b c l.
Proof.
  intros H. unfold slice. replace (c - a)%nat with ((b - a) + (c - b))%nat by lia.
  rewrite <- take_take_drop, drop_drop. do 3 f_equal. lia.
Qed.

Lemma g2_from_be_Ok bs p : g2_from_be bs = Ok p ↔ g2_wf p ∧ bs = g2_to_be p.
Proof.
  split.
  - intros H. pose proof H as H0. unfold g2_from_be in H0. case_decide as Hl; [done|].
    apply obind_Ok in H0 as (x1 & [Hx1 Hb1]%fq_from_be_Ok & H0).
    apply obind_Ok in H0 as (x0 & [Hx0 Hb2]%fq_from_be_Ok & H0).
    apply obind_Ok in H0 as (y1 & [Hy1 Hb3]%fq_from_be_Ok & H0).
    apply obind_Ok in H0 as (y0 & [Hy0 Hb4]%fq_from_be_Ok & _).
    assert (Hbs : bs = fq_to_be x1 ++ fq_to_be x0 ++ fq_to_be y1 ++ fq_to_be y0).
    { rewrite <- Hb1, <- Hb2, <- Hb3, <- Hb4, <- !cut by lia. symmetry. by apply slice_full. }
    rewrite Hbs, g2_from_be_coords in H by done. rewrite Hbs. case_decide as Hz.
    + injection H as <-. destruct Hz as (-> & -> & -> & ->). split; [done|]. by rewrite (proj2 fq_zero).
    + destruct (g2_valid x0 x1 y0 y1) eqn:Hv; [|done]. injection H as <-. done.
  - intros [Hp ->]. destruct p as [|x0 x1 y0 y1]; cbn [g2_to_be].
    + change (replicate 128 Byte.x00)
        with (replicate 32 Byte.x00 ++ replicate 32 Byte.x00 ++ replicate 32 Byte.x00 ++ replicate 32 Byte.x00).
      rewrite <- (proj2 fq_zero), g2_from_be_coords by apply fq_zero. done.
    + destruct Hp as (Hx0 & Hx1 & Hy0 & Hy1 & Hv). rewrite g2_from_be_coords by done.
      rewrite decide_False, Hv; [done|]. intros (-> & -> & -> & ->). rewrite g2_zero in Hv. done.
Qed.

Definition proof_valid (p : Proof_) : Prop := g1_wf (pr_a p) ∧ g2_wf (pr_b p) ∧ g1_wf (pr_c p).

Lemma bad_proof_Ok {A} (r : outcome VerifierError A) a : bad_proof r = Ok a ↔ r = Ok a.
Proof. destruct r; cbn; split; congruence. Qed.

Lemma parse_proof_Ok bs p : parse_proof bs = Ok p ↔ proof_valid p ∧ bs = proof_to_bytes p.
Proof.
  unfold parse_proof. split.
  - case_decide as Hl; [done|]. intros (a & [Ha Hba]%bad_proof_Ok%g1_from_be_Ok & H)%obind_Ok.
    apply obind_Ok in H as (b & [Hb Hbb]%bad_proof_Ok%g2_from_be_Ok & H).
    apply obind_Ok in H as (c & [Hc Hbc]%bad_proof_Ok%g1_from_be_Ok & H). injection H as <-. split; [done|].
    unfold proof_to_bytes. cbn [pr_a pr_b pr_c]. rewrite <- Hba, <- Hbb, <- Hbc, <- !cut by lia.
    symmetry. by apply slice_full.
  - destruct p as [a b c]. intros [(Ha & Hb & Hc) ->]. cbn [pr_a pr_b pr_c] in *. unfold proof_to_bytes. cbn [pr_a pr_b pr_c].
    rewrite decide_False by (intros Hn; apply Hn; unfold PROOF_BYTES; point_len).
    set (bs := g1_to_be a ++ g2_to_be b ++ g1_to_be c).
    replace (slice 0 64 bs) with (g1_to_be a) by (symmetry; unfold bs; pick_point).
    replace (slice 64 192 bs) with (g2_to_be b) by (symmetry; unfold bs; pick_point).
    replace (slice 192 256 bs) with (g1_to_be c) by (symmetry; unfold bs; pick_point).
    rewrite (proj2 (g1_from_be_Ok _ a) (conj Ha eq_refl)), (proj2 (g2_from_be_Ok _ b) (conj Hb eq_refl)).
    rewrite (proj2 (g1_from_be_Ok _ c) (conj Hc eq_refl)). done.
Qed.

(** *** Keys *)

Lemma length_points ps : length (concat (g1_to_be <$> ps)) = (64 * length ps)%nat.
Proof.
  induction ps as [|p ps IH]; [done|]. cbn [fmap list_fmap concat length]. rewrite length_app, length_g1_to_be. 
  change (map g1_to_be ps) with (g1_to_be <$> ps). lia.
Qed.

Lemma parse_points_Ok n : ∀ off bs ps,
  (off + 64 * n ≤ length bs)%nat →
  (parse_points n off bs = Ok ps ↔ length ps = n ∧ Forall g1_wf ps
     ∧ slice off (off + 64 * n) bs = concat (g1_to_be <$> ps)).
Proof.
  induction n as [|n IH]; intros off bs ps Hl; cbn [parse_points].
  { rewrite Nat.add_0_r. unfold slice. rewrite Nat.sub_diag, take_0. split.
    - intros [= <-]. split_and!; [done|constructor|done].
    - intros (Hn & _ & _). apply nil_length_inv in Hn as ->. done. }
  replace (off + 64 * S n)%nat with (off + 64 + 64 * n)%nat by lia.
  rewrite (cut off (off + 64) (off + 64 + 64 * n)) by lia. split.
  - intros (p & [Hp Hbp]%g1_from_be_Ok & H)%obind_Ok. apply obind_Ok in H as (ps' & Hps & [= <-]).
    apply IH in Hps as (Hn & Hwf & Hsl); [|lia]. cbn [length fmap list_fmap concat].
    split_and!; [lia|by constructor|]. by rewrite Hbp, Hsl.
  - intros (Hn & Hwf & Hsl). destruct ps as [|p ps]; [done|]. apply list.Forall_cons in Hwf as [Hp Hwf].
    cbn [fmap list_fmap concat] in Hsl. apply app_inj_1 in Hsl as [H1 H2]; cycle 1.
    { rewrite length_slice, length_g1_to_be by lia. lia. }
    rewrite (proj2 (g1_from_be_Ok _ p) (conj Hp H1)). cbn [obind].
    rewrite (proj2 (IH (off + 64)%nat bs ps ltac:(lia))); [done|]. split_and!; [cbn in Hn; lia|done|done].
Qed.

Definition key_valid (vk : VerifyingKey) : Prop :=
  g1_wf (alpha_g1 vk) ∧ g2_wf (beta_g2 vk) ∧ g2_wf (gamma_g2 vk) ∧ g2_wf (delta_g2 vk)
  ∧ Forall g1_wf (gamma_abc_g1 vk) ∧ 1 ≤ Z.of_nat (length (gamma_abc_g1 vk)) ≤ 2 ^ 32.

Lemma parse_key_sound bs vk :
  parse_verifying_key bs = Ok vk → key_valid vk ∧ verifying_key_to_bytes vk = Some bs.
Proof.
  unfold parse_verifying_key. case_decide as Hl; [done|]. case_decide as Hn; [done|].
  set (n := le_val (slice 0 4 bs)) in *.
  assert (Hn32 : 0 ≤ n < 2 ^ 32).
  { unfold n. split; [apply le_val_nonneg|]. pose proof (le_val_bound (slice 0 4 bs)) as H.
    rewrite length_slice in H by lia. exact H. }
  intros (a & [Ha Hba]%g1_from_be_Ok & H)%obind_Ok.
  apply obind_Ok in H as (b & [Hb Hbb]%g2_from_be_Ok & H). apply obind_Ok in H as (c & [Hc Hbc]%g2_from_be_Ok & H).
  apply obind_Ok in H as (d & [Hd Hbd]%g2_from_be_Ok & H). apply obind_Ok in H as (ps & Hps & [= <-]).
  apply parse_points_Ok in Hps as (Hlen & Hwf & Hsl); [|lia].
  split; [split_and!; cbn; try done; lia|]. unfold verifying_key_to_bytes. cbn [alpha_g1 beta_g2 gamma_g2 delta_g2 gamma_abc_g1].
  rewrite decide_False by (intros ->; cbn in Hlen; lia). f_equal.
  assert (Hpre : le_bytes 4 (Z.of_nat (length ps - 1)) = slice 0 4 bs).
  { replace (Z.of_nat (length ps - 1)) with n by lia.
    rewrite <- (le_bytes_le_val (slice 0 4 bs)), length_slice by lia. done. }
  rewrite Hpre, <- Hba, <- Hbb, <- Hbc, <- Hbd, <- Hsl, <- !cut by lia. apply slice_full. lia.
Qed.

Lemma parse_key_complete bs vk :
  key_valid vk → verifying_key_to_bytes vk = Some bs → parse_verifying_key bs = Ok vk.
Proof.
  destruct vk as [a b c d ps]. intros (Ha & Hb & Hc & Hd & Hwf & Hlen) H.
  cbn [alpha_g1 beta_g2 gamma_g2 delta_g2 gamma_abc_g1] in *. unfold verifying_key_to_bytes in H. cbn [alpha_g1 beta_g2 gamma_g2 delta_g2 gamma_abc_g1] in H.
  case_decide as Hne; [done|]. apply (inj Some) in H. subst bs.
  set (n := Z.of_nat (length ps - 1)) in *. assert (Hn : 0 ≤ n < 2 ^ 32) by lia.
  pose proof (length_points ps) as Hlp. set (tail := concat (g1_to_be <$> ps)) in *.
  set (bs := le_bytes 4 n ++ g1_to_be a ++ g2_to_be b ++ g2_to_be c ++ g2_to_be d ++ tail).
  assert (Hbs : length bs = (452 + 64 * length ps)%nat) by (unfold bs; point_len).
  unfold parse_verifying_key. rewrite decide_False by lia.
  assert (Hpre : slice 0 4 bs = le_bytes 4 n) by (unfold bs; pick_point).
  rewrite Hpre, le_val_le_bytes_small by (cbn; lia). rewrite decide_False by lia.
  replace (slice 4 68 bs) with (g1_to_be a) by (symmetry; unfold bs; pick_point).
  replace (slice 68 196 bs) with (g2_to_be b) by (symmetry; unfold bs; pick_point).
  replace (slice 196 324 bs) with (g2_to_be c) by (symmetry; unfold bs; pick_point).
  replace (slice 324 452 bs) with (g2_to_be d) by (symmetry; unfold bs; pick_point).
  rewrite (proj2 (g1_from_be_Ok _ a) (conj Ha eq_refl)), (proj2 (g2_from_be_Ok _ b) (conj Hb eq_refl)).
  rewrite (proj2 (g2_from_be_Ok _ c) (conj Hc eq_refl)), (proj2 (g2_from_be_Ok _ d) (conj Hd eq_refl)). cbn [obind].
  rewrite (proj2 (parse_points_Ok (Z.to_nat n + 1) 452 bs ps ltac:(lia))); [done|].
  split_and!; [lia|done|]. fold tail. unfold bs. pick_point.
Qed.

(** C20: the wire format is canonical: a proof is accepted for parsing exactly when
    its bytes are the encoding of points on the curves, and the same holds of a
    verifying key. So encoding and parsing are inverse to each other, and no
    proof or key has a second encoding. *)
Theorem encodings_canonical :
  (∀ bs p, parse_proof bs = Ok p ↔ proof_valid p ∧ bs = proof_to_bytes p)
  ∧ (∀ bs vk, parse_verifying_key bs = Ok vk ↔ key_valid vk ∧ verifying_key_to_bytes vk = Some bs).
Proof.
  split; [apply parse_proof_Ok|]. intros bs vk. split; [apply parse_key_sound|]. intros [H1 H2]. by apply parse_key_complete.
Qed.

(** ** The pool without keys *)

(** The keys are loaded together or not at all. *)
Lemma load_pool_keys_cases t u :
  load_pool_keys t u = unconfigured ∨ is_configured (load_pool_keys t u) = true.
Proof.
  unfold load_pool_keys, load_keys. destruct t as [t|]; [|by left]. destruct u as [u|]; [|by left].
  destruct (parse_verifying_key t); [|by left..]. cbn [obind]. destruct (parse_verifying_key u); [|by left..]. by right.
Qed.

Context `{P : Poseidon} {N : Type} `{NS : !NullifierSet N}.

(** Without a key a spending instruction is refused, and nothing changes. *)
Lemma unconfigured_rejects s (ns : N) ix :
  nullifiers_of ix ≠ [] → ∃ e, process (V := Groth16Verifier unconfigured) s ns ix = (s, ns, Err e).
Proof.
  destruct ix; cbn [nullifiers_of process]; [done|intros _..].
  - unfold transfer. cbn [verify_transfer Groth16Verifier unconfigured vk_transfer accepts negb].
    repeat case_match; eauto.
  - unfold unshield. cbn [verify_unshield Groth16Verifier unconfigured vk_unshield accepts negb].
    repeat case_match; eauto.
Qed.

(** What is accepted is a shield, which spends nothing. *)
Lemma unconfigured_shields s (ns : N) ix s' ns' r :
  process (V := Groth16Verifier unconfigured) s ns ix = (s', ns', r) →
  ns' = ns ∧ (is_ok r = true → nullifiers_of ix = [])
  ∧ ∀ o, r = Ok o → ∃ asset amount, effects o = [DepositToVault asset amount].
Proof.
  destruct (decide (nullifiers_of ix = [])) as [Hs|Hs].
  - destruct ix as [asset amount secret enc| |]; [|discriminate Hs..]. cbn [process]. unfold shield.
    repeat case_match; intros [= <- <- <-]; (split; [done|]); (split; [done|]); intros out Ho; simplify_eq; eauto.
  - destruct (unconfigured_rejects s ns ix Hs) as [e ->]. by intros [= <- <- <-].
Qed.

(** C23: safe by default: as long as one of the two key files is missing or does not
    parse, the pool accepts no transfer and no unshield, whatever is sent: they
    leave the note tree and the nullifiers as they are, an accepted instruction
    only moves value into the vault, and over any sequence of instructions
    nothing is spent. *)
Theorem unconfigured_pool_closed t u :
  is_configured (load_pool_keys t u) = false →
  let V := Groth16Verifier (load_pool_keys t u) in
  ∀ s (ns : N),
  (∀ ix, nullifiers_of ix ≠ [] → ∃ e, process (V := V) s ns ix = (s, ns, Err e))
  ∧ (∀ ix s' ns' o, process (V := V) s ns ix = (s', ns', Ok o) →
       ∃ asset amount, effects o = [DepositToVault asset amount])
  ∧ ∀ ixs, (run_pool (V := V) s ns ixs).1.2 = ns ∧ (run_pool (V := V) s ns ixs).2 = [].
Proof.
  intros Hc V. destruct (load_pool_keys_cases t u) as [Hu|Hu]; [|congruence]. unfold V. rewrite Hu. intros s ns.
  split_and!; [apply unconfigured_rejects| |].
  - intros ix s' ns' o Hp. by apply (unconfigured_shields s ns ix s' ns' (Ok o) Hp).
  - intros ixs. revert s. induction ixs as [|ix ixs IH]; intros s; cbn [run_pool]; [done|].
    destruct (process (V := Groth16Verifier unconfigured) s ns ix) as [[s1 ns1] r] eqn:Hp.
    destruct (unconfigured_shields s ns ix s1 ns1 r Hp) as (-> & Hsp & _). specialize (IH s1).
    destruct (run_pool (V := Groth16Verifier unconfigured) s1 ns ixs) as [[s2 ns2] sp]. cbn [fst snd] in *.
    destruct IH as [-> ->]. split; [done|]. destruct (is_ok r); [by rewrite Hsp|done].
Qed.

End Verifier.

(** ** Witnesses *)

Module Example.
#[local] Existing Instances poseidon_toy PoolProcessor.Example.set_nullifiers.

(** Curves on which only one point lies, and a verifier that looks at nothing. *)
#[local] Instance bn_toy : Bn254.
Proof.
  by refine {| g1_valid x y := bool_decide (x = 1 ∧ y = 2); g2_valid x0 x1 y0 y1 := bool_decide (x0 = 1 ∧ y0 = 2);
               verify_proof _ _ _ := Some true |}.
Defined.

Lemma unconfigured_pool_closed_witness :
  is_configured (load_pool_keys None None) = false
  ∧ (run_pool (V := Groth16Verifier (load_pool_keys None None)) pool_new (∅ : gset FieldBytes)
       [Unshield [] [] [] [] Native 5 [] []]).2 = [].
Proof.
  split; [reflexivity|].
  exact (proj2 (proj2 (proj2 (unconfigured_pool_closed None None eq_refl pool_new (∅ : gset FieldBytes)))
                 [Unshield [] [] [] [] Native 5 [] []])).
Defined.
End Example.
