(* ===== verification/PoolService.v ===== *)
(** * The node-integrated shielded pool

    Models [chain/zul-privacy/src/service.rs]: one block's pool transactions run
    over the committed store, an overlay of lamport balances seeded with the
    block's earlier results, and an overlay of wrapped-token accounts. *)

From S2P Require Import Prelude External Hash Smt Genesis Account Block Queue Store WrappedSpl Field PoolState PoolProcessor.

Definition pool_key (last : byte) : Pubkey := [Byte.x05; Byte.x21] ++ replicate 29 Byte.x00 ++ [last].
Definition POOL_PROGRAM_ID : Pubkey := pool_key Byte.x00.
Definition POOL_STATE_ADDRESS : Pubkey := pool_key Byte.x01.
Definition POOL_VAULT_ADDRESS : Pubkey := pool_key Byte.x02.

Record PoolConfig := {
  pool_state : Pubkey;
  vault : Pubkey;
  collector : Pubkey;
  flat_fee : Z;
}.

Definition pool_config (state_key vault_key fee_key : Pubkey) : PoolConfig :=
  {| pool_state := state_key; vault := vault_key; collector := fee_key;
     flat_fee := LAMPORTS_PER_SIGNATURE |}.

Inductive PoolServiceError :=
| PoolStoreError (e : StoreError)
| CorruptState
| PoolFailed (e : PoolError)
| InsufficientFunds (what : string).

(** Committed nullifiers and those spent earlier in the block. *)
Record BlockNullifiers := {
  nf_store : Store;
  within : gset FieldBytes;
  newly : list FieldBytes;
}.

#[global] Instance block_nullifiers : NullifierSet BlockNullifiers.
Proof.
  refine {| contains s n := bool_decide (n ∈ within s) || is_nullifier_spent (nf_store s) n;
            nf_insert s n := {| nf_store := nf_store s; within := {[n]} ∪ within s;
                                newly := newly s ++ [n] |} |}.
  intros s n m. cbn. apply eq_bool_prop_intro. rewrite !orb_True, !bool_decide_spec.
  rewrite elem_of_union, elem_of_singleton. naive_solver.
Defined.

Section Service.
Context `{B3 : Blake3} `{TX : SolanaTx} `{SA : SolanaAddresses} `{P : Poseidon} `{V : ProofVerifier}.
Context `{!Bincode StoredAccount} `{!Bincode PoolState}.
Context (cfg : PoolConfig) (store : Store).

Definition genesis_pool_account : Pubkey * StoredAccount :=
  (pool_state cfg,
   {| lamports := 1; data := pool_to_bytes pool_new; owner := POOL_PROGRAM_ID;
      executable := false; rent_epoch := RENT_EXEMPT_RENT_EPOCH |}).

Definition load_state : outcome PoolServiceError PoolState :=
  let? acc := map_err PoolStoreError (get_account store (pool_state cfg)) in
  match acc with
  | Some a => map_err (λ _, CorruptState) (pool_from_bytes (data a))
  | None => Ok pool_new
  end.

(** [store.get_account(key).ok().flatten()] *)
Definition read_account (key : Pubkey) : option StoredAccount := get_account_ok store key.

Definition balance (overlay : gmap Pubkey Z) (key : Pubkey) : Z :=
  match overlay !! key with
  | Some v => v
  | None => match read_account key with Some a => lamports a | None => 0 end
  end.

(** Both balances are read before either is written. *)
Definition move_lamports (overlay : gmap Pubkey Z) (from to : Pubkey) (amount : Z) : gmap Pubkey Z :=
  let from_bal := balance overlay from in
  let to_bal := balance overlay to in
  <[to := sat_add to_bal amount]> (<[from := sat_sub from_bal amount]> overlay).

Definition token_balance (tokens : gmap Pubkey StoredAccount) (mint owner_key : Pubkey) : Z :=
  let ata := associated_token_address owner_key (wrapped_mint_address mint) in
  match tokens !! ata with
  | Some acc => default 0 (token_account_amount (data acc))
  | None => default 0 (a ← read_account ata; token_account_amount (data a))
  end.

Definition token_account (tokens : gmap Pubkey StoredAccount) (wmint owner_key : Pubkey)
    : StoredAccount :=
  let ata := associated_token_address owner_key wmint in
  match tokens !! ata with
  | Some acc => acc
  | None =>
      default {| lamports := rent_exempt_lamports ACCOUNT_LEN;
                 data := pack_token_account wmint owner_key 0;
                 owner := TOKEN_PROGRAM_ID; executable := false;
                 rent_epoch := RENT_EXEMPT_RENT_EPOCH |} (read_account ata)
  end.

(** Set the token amount of an account; [None] when its data is too short. *)
Definition with_amount (acc : StoredAccount) (f : Z → Z) : option StoredAccount :=
  d ← set_token_account_amount (data acc) (f (default 0 (token_account_amount (data acc))));
  Some (set_data d acc).

Definition move_wrapped (tokens : gmap Pubkey StoredAccount) (mint from_owner to_owner : Pubkey)
    (amount : Z) : option (gmap Pubkey StoredAccount) :=
  let wmint := wrapped_mint_address mint in
  let from_ata := associated_token_address from_owner wmint in
  let to_ata := associated_token_address to_owner wmint in
  from ← with_amount (token_account tokens wmint from_owner) (λ b, sat_sub b amount);
  let tokens := <[from_ata := from]> tokens in
  to ← with_amount (token_account tokens wmint to_owner) (λ b, sat_add b amount);
  Some (<[to_ata := to]> tokens).

(** The running state of a block's pool transactions. *)
Record PoolRun := {
  run_state : PoolState;
  run_nullifiers : BlockNullifiers;
  overlay : gmap Pubkey Z;
  token_overlay : gmap Pubkey StoredAccount;
  run_events : list NoteEvent;
}.

(** The fund checks made before any mutation. *)
Definition precheck (r : PoolRun) (fee_payer : Pubkey) (ix : PoolInstruction)
    : outcome PoolServiceError () :=
  let fee := flat_fee cfg in
  match ix with
  | Shield asset amount _ _ =>
      let fee_need := match asset with Native => sat_add amount fee | Spl _ => fee end in
      if decide (balance (overlay r) fee_payer < fee_need) then Err (InsufficientFunds "shield fee")
      else match asset with
           | Spl mint => if decide (token_balance (token_overlay r) mint fee_payer < amount)
                         then Err (InsufficientFunds "shield token") else Ok ()
           | Native => Ok ()
           end
  | Transfer _ _ _ _ _ _ tfee _ _ =>
      if decide (balance (overlay r) fee_payer < fee) then Err (InsufficientFunds "transfer fee")
      else if decide (balance (overlay r) (vault cfg) < tfee) then Err (InsufficientFunds "pool fee")
      else Ok ()
  | Unshield _ _ _ _ asset amount _ _ =>
      if decide (balance (overlay r) fee_payer < fee) then Err (InsufficientFunds "unshield fee")
      else match asset with
           | Native => if decide (balance (overlay r) (vault cfg) < amount)
                       then Err (InsufficientFunds "vault") else Ok ()
           | Spl mint => if decide (token_balance (token_overlay r) mint (vault cfg) < amount)
                         then Err (InsufficientFunds "vault token") else Ok ()
           end
  end.

(** One public fund movement. *)
Definition apply_effect (fee_payer : Pubkey) (acc : gmap Pubkey Z * gmap Pubkey StoredAccount)
    (e : PoolEffect) : outcome PoolServiceError (gmap Pubkey Z * gmap Pubkey StoredAccount) :=
  let '(ov, tokens) := acc in
  match e with
  | DepositToVault Native amount => Ok (move_lamports ov fee_payer (vault cfg) amount, tokens)
  | DepositToVault (Spl mint) amount =>
      let? t := or_panic (move_wrapped tokens mint fee_payer (vault cfg) amount) in Ok (ov, t)
  | WithdrawFromVault Native amount recipient =>
      Ok (move_lamports ov (vault cfg) recipient amount, tokens)
  | WithdrawFromVault (Spl mint) amount recipient =>
      let? t := or_panic (move_wrapped tokens mint (vault cfg) recipient amount) in Ok (ov, t)
  | PayFee amount => Ok (move_lamports ov (vault cfg) (collector cfg) amount, tokens)
  end.

(** A rejected instruction keeps whatever the processor already changed. *)
Definition apply_one (r : PoolRun) (fee_payer : Pubkey) (ix : PoolInstruction)
    : PoolRun * outcome PoolServiceError () :=
  match precheck r fee_payer ix with
  | Err e => (r, Err e)
  | Panic => (r, Panic)
  | Ok _ =>
      match process (run_state r) (run_nullifiers r) ix with
      | (s', ns', Err e) =>
          ({| run_state := s'; run_nullifiers := ns'; overlay := overlay r;
              token_overlay := token_overlay r; run_events := run_events r |}, Err (PoolFailed e))
      | (s', ns', Panic) => (r, Panic)
      | (s', ns', Ok out) =>
          let ov := move_lamports (overlay r) fee_payer (collector cfg) (flat_fee cfg) in
          match ofold (apply_effect fee_payer) (ov, token_overlay r) (effects out) with
          | Ok (ov', tokens') =>
              ({| run_state := s'; run_nullifiers := ns'; overlay := ov'; token_overlay := tokens';
                  run_events := run_events r ++ note_events out |}, Ok ())
          | Err e => (r, Err e)
          | Panic => (r, Panic)
          end
      end
  end.

(** The store write for an overlay balance. *)
Definition lamport_write (pubkey : Pubkey) (l : Z)
    : outcome PoolServiceError (option StoredAccount) :=
  let? acc := map_err PoolStoreError (get_account store pubkey) in
  if decide (l = 0 ∧ acc = None) then Ok None
  else Ok (Some (set_lamports l (default (new_system 0) acc))).

Record PoolBlockResult := {
  account_writes : list (Pubkey * option StoredAccount);
  nullifiers : list FieldBytes;
  result_events : list NoteEvent;
  statuses : list (outcome PoolServiceError ());
}.

(** The loop over a block's transactions; a panic ends it. *)
Fixpoint run_txs (r : PoolRun) (dirty : bool) (sts : list (outcome PoolServiceError ()))
    (txs : list (Pubkey * PoolInstruction))
    : outcome PoolServiceError (PoolRun * bool * list (outcome PoolServiceError ())) :=
  match txs with
  | [] => Ok (r, dirty, sts)
  | (payer, ix) :: txs =>
      match apply_one r payer ix with
      | (r', Ok u) => run_txs r' true (sts ++ [Ok u]) txs
      | (r', Err e) => run_txs r' dirty (sts ++ [Err e]) txs
      | (r', Panic) => Panic
      end
  end.

Definition start_run (s : PoolState) (seed : gmap Pubkey Z) : PoolRun :=
  {| run_state := s;
     run_nullifiers := {| nf_store := store; within := ∅; newly := [] |};
     overlay := seed; token_overlay := ∅; run_events := [] |}.

Definition process_block_seeded (txs : list (Pubkey * PoolInstruction)) (seed : gmap Pubkey Z)
    : outcome PoolServiceError PoolBlockResult :=
  match txs with
  | [] => Ok {| account_writes := []; nullifiers := []; result_events := []; statuses := [] |}
  | _ =>
      let? s := load_state in
      let? (r, dirty, sts) := run_txs (start_run s seed) false [] txs in
      let? lamport_writes :=
        ofold (λ ws kv, let? w := lamport_write kv.1 kv.2 in Ok (ws ++ [(kv.1, w)]))
          [] (map_to_list (overlay r)) in
      let token_writes := (λ kv, (kv.1, Some kv.2)) <$> map_to_list (token_overlay r) in
      let? state_writes :=
        if dirty then
          let? acc := map_err PoolStoreError (get_account store (pool_state cfg)) in
          Ok [(pool_state cfg,
               Some (set_data (pool_to_bytes (run_state r)) (default genesis_pool_account.2 acc)))]
        else Ok [] in
      Ok {| account_writes := lamport_writes ++ token_writes ++ state_writes;
            nullifiers := newly (run_nullifiers r);
            result_events := run_events r;
            statuses := sts |}
  end.

Definition process_block (txs : list (Pubkey * PoolInstruction))
    : outcome PoolServiceError PoolBlockResult := process_block_seeded txs ∅.

(** ** Lamport conservation *)

Lemma balance_insert ov key v k :
  balance (<[key := v]> ov) k = if decide (k = key) then v else balance ov k.
Proof.
  unfold balance. case_decide as Hk; [subst; by rewrite lookup_insert_eq|].
  by rewrite lookup_insert_ne.
Qed.

Lemma balance_move ov from to amount k :
  balance (move_lamports ov from to amount) k
  = if decide (k = to) then sat_add (balance ov to) amount
    else if decide (k = from) then sat_sub (balance ov from) amount
    else balance ov k.
Proof. unfold move_lamports. by rewrite !balance_insert. Qed.

(** A move from an account to itself is not the identity: the account
    gains the amount, so lamports are created. *)
Theorem self_move_mints ov key amount :
  balance ov key + amount ≤ u64_max →
  balance (move_lamports ov key key amount) key = balance ov key + amount.
Proof. intros Hle. rewrite balance_move, decide_True by done. unfold sat_add. lia. Qed.

(** ** A whole block of pool transactions *)

Definition effects_of (ix : PoolInstruction) : list PoolEffect :=
  match ix with
  | Shield asset amount _ _ => [DepositToVault asset amount]
  | Transfer _ _ _ _ _ _ fee _ _ => if decide (0 < fee) then [PayFee fee] else []
  | Unshield _ _ _ _ asset amount recipient _ => [WithdrawFromVault asset amount recipient]
  end.

Lemma process_effects s ns ix s' ns' out :
  process (N := BlockNullifiers) s ns ix = (s', ns', Ok out) → effects out = effects_of ix.
Proof.
  destruct ix; cbn [process effects_of].
  - unfold shield. destruct (decide _); [done|]. destruct (fr_from_bytes _); [|done].
    destruct (pool_insert _ _) as [s1 []]; intros Heq; by simplify_eq.
  - unfold transfer. split_checks; intros Heq; simplify_eq; done.
  - unfold unshield. split_checks; intros Heq; simplify_eq; done.
Qed.

(** Lamports an accepted instruction adds to the vault: an unshield to the vault
    itself adds its amount instead of taking it. *)
Definition vault_delta (ix : PoolInstruction) : Z :=
  match ix with
  | Shield Native amount _ _ => amount
  | Transfer _ _ _ _ _ _ fee _ _ => - fee
  | Unshield _ _ _ _ Native amount recipient _ => if decide (recipient = vault cfg) then amount else - amount
  | _ => 0
  end.

(** Lamports an accepted transaction creates by moving them from an account to
    itself: the flat fee of a payer that is the collector, and an unshield to the
    vault. *)
Definition self_minted (tx : Pubkey * PoolInstruction) : Z :=
  (if decide (tx.1 = collector cfg) then flat_fee cfg else 0)
  + match tx.2 with
    | Unshield _ _ _ _ Native amount recipient _ => if decide (recipient = vault cfg) then amount else 0
    | _ => 0
    end.

(** The parties of a transaction are among [keys], its amounts are those of their
    type, and nobody signs for the vault. *)
Definition parties_ok (keys : list Pubkey) (tx : Pubkey * PoolInstruction) : Prop :=
  tx.1 ∈ keys ∧ tx.1 ≠ vault cfg ∧
  match tx.2 with
  | Shield _ amount _ _ => u64 amount
  | Transfer _ _ _ _ _ _ fee _ _ => u64 fee
  | Unshield _ _ _ _ _ amount recipient _ => u64 amount ∧ recipient ∈ keys
  end.

(** The token accounts a run has written are associated token addresses. *)
Definition token_key (k : Pubkey) : Prop := ∃ o m, k = associated_token_address o (wrapped_mint_address m).
Definition token_keys (tokens : gmap Pubkey StoredAccount) : Prop := ∀ k, is_Some (tokens !! k) → token_key k.

Lemma token_keys_insert tokens k a : token_keys tokens → token_key k → token_keys (<[k := a]> tokens).
Proof.
  intros Ht Hk k'. destruct (decide (k = k')) as [->|]; [done|]. rewrite lookup_insert_ne by done. apply Ht.
Qed.

Lemma move_wrapped_keys tokens mint from to amount tokens' :
  token_keys tokens → move_wrapped tokens mint from to amount = Some tokens' → token_keys tokens'.
Proof.
  unfold move_wrapped. intros Ht. destruct (with_amount _ _); [|done]. cbn [mbind option_bind].
  destruct (with_amount _ _); [|done]. cbn [mbind option_bind]. intros [= <-].
  apply token_keys_insert; [apply token_keys_insert; [done|]|]; by eexists _, _.
Qed.

Lemma effect_keys payer e : ∀ acc acc',
  token_keys acc.2 → apply_effect payer acc e = Ok acc' → token_keys acc'.2.
Proof.
  intros [ov tokens] acc' Ht. destruct e as [[|m] a|[|m] a r|a]; cbn [apply_effect]; try (by intros [= <-]).
  all: destruct (move_wrapped _ _ _ _ _) eqn:Hm; [|done]; cbn [or_panic obind]; intros [= <-]; by eapply move_wrapped_keys.
Qed.

Lemma effects_keys payer es : ∀ acc acc',
  token_keys acc.2 → ofold (apply_effect payer) acc es = Ok acc' → token_keys acc'.2.
Proof.
  induction es as [|e es IH]; intros acc acc' Ht; cbn [ofold]; [by intros [= <-]|].
  intros (a1 & H1 & H)%obind_Ok. eapply IH; [by eapply effect_keys|exact H].
Qed.

Section Conserve.
Context (keys : list Pubkey) (keys_nodup : NoDup keys).
Context (vault_in : vault cfg ∈ keys) (collector_in : collector cfg ∈ keys).
Context (vault_collector : vault cfg ≠ collector cfg) (fee_u64 : u64 (flat_fee cfg)).

Definition sound (ov : gmap Pubkey Z) : Prop := ∀ k, 0 ≤ balance ov k.

(** A funded move is exact, and between an account and itself adds the amount. *)
Lemma move_sound ov from to amount :
  let minted := if decide (from = to) then amount else 0 in
  sound ov → from ∈ keys → to ∈ keys → 0 ≤ amount ≤ balance ov from →
  total keys (balance ov) + minted ≤ u64_max →
  let ov' := move_lamports ov from to amount in
  sound ov' ∧ total keys (balance ov') = total keys (balance ov) + minted
  ∧ ∀ k, balance ov' k = balance ov k + ((if decide (k = to) then amount else 0)
                                          + (if decide (k = from ∧ from ≠ to) then - amount else 0)).
Proof.
  intros minted Hpos Hf Ht Ha Hle ov'.
  assert (Hb : balance ov to + amount ≤ u64_max).
  { unfold minted in Hle. destruct (decide (from = to)) as [->|Hne].
    { pose proof (total_bound keys _ _ (λ k _, Hpos k) Ht). lia. }
    assert (Hsum : balance ov from + balance ov to ≤ total keys (balance ov)); [|lia].
    rewrite (total_ext keys _ (λ k, (if decide (k = from) then 0 else balance ov k)
                                 + (if decide (k = from) then balance ov from else 0))).
    - rewrite total_add, total_point by done.
      pose proof (total_bound keys (λ k, if decide (k = from) then 0 else balance ov k) to) as Hb.
      cbn in Hb. rewrite decide_False in Hb by done.
      specialize (Hb ltac:(intros k _; case_decide; [lia|apply Hpos]) Ht). lia.
    - intros k _. case_decide; subst; lia. }
  assert (Hex : ∀ k, balance ov' k = balance ov k + ((if decide (k = to) then amount else 0)
                      + (if decide (k = from ∧ from ≠ to) then - amount else 0))).
  { intros k. unfold ov'. rewrite balance_move. unfold sat_add, sat_sub.
    destruct (decide (k = to)) as [->|]; [rewrite decide_False by naive_solver; lia|].
    destruct (decide (k = from)) as [->|]; [rewrite decide_True by done; lia|].
    rewrite decide_False by naive_solver. lia. }
  split_and!; [| |exact Hex].
  - intros k. rewrite Hex. specialize (Hpos k). destruct (decide (k = from ∧ from ≠ to)) as [[Hk Hd]|];
      [rewrite Hk in *; rewrite decide_False by done; lia|destruct (decide (k = to)); lia].
  - rewrite (total_ext _ _ _ (λ k _, Hex k)), total_add. rewrite total_add, total_point by done. unfold minted.
    destruct (decide (from = to)) as [->|Hne].
    + rewrite (total_ext _ (λ k, if decide (k = to ∧ to ≠ to) then - amount else 0) (λ _, 0))
        by (intros k _; cbn beta; rewrite decide_False by naive_solver; lia).
      rewrite total_zero. lia.
    + rewrite (total_ext _ (λ k, if decide (k = from ∧ from ≠ to) then - amount else 0) (λ k, if decide (k = from) then - amount else 0))
        by (intros k _; repeat case_decide; naive_solver).
      rewrite total_point by done. lia.
Qed.

(** What an accepted instruction's effects do to the lamport overlay, once
    the fee has been charged. *)
Lemma effects_sound payer ix ov tokens ov' tokens' :
  let minted := self_minted (payer, ix) - (if decide (payer = collector cfg) then flat_fee cfg else 0) in
  sound ov → parties_ok keys (payer, ix) → total keys (balance ov) + minted ≤ u64_max →
  match ix with
  | Shield Native amount _ _ => amount ≤ balance ov payer
  | Transfer _ _ _ _ _ _ fee _ _ => fee ≤ balance ov (vault cfg)
  | Unshield _ _ _ _ Native amount _ _ => amount ≤ balance ov (vault cfg)
  | _ => True
  end →
  ofold (apply_effect payer) (ov, tokens) (effects_of ix) = Ok (ov', tokens') →
  sound ov' ∧ total keys (balance ov') = total keys (balance ov) + minted
  ∧ balance ov' (vault cfg) = balance ov (vault cfg) + vault_delta ix.
Proof.
  intros minted Hs (Hpin & Hpv & Hix) Hle Hfund. unfold minted, self_minted in *. cbn [fst snd] in *.
  destruct ix as [[|mint] amount sec enc|pr rt nf0 nf1 cm0 cm1 fee n0 n1
                 |pr rt nf cm [|mint] amount recipient enc]; cbn [effects_of vault_delta] in *.
  - cbn [ofold apply_effect obind]. intros [= <- <-]. unfold u64 in Hix.
    destruct (move_sound ov payer (vault cfg) amount) as (Hs' & Ht & Hex); [done..|lia|rewrite decide_False by done; lia|].
    rewrite decide_False in Ht by done.
    split_and!; [done|lia|]. rewrite Hex, decide_True, decide_False by naive_solver. lia.
  - cbn [ofold apply_effect obind]. destruct (move_wrapped _ _ _ _ _); [|done].
    cbn [or_panic obind]. intros [= <- _]. split_and!; [done|lia|lia].
  - unfold u64 in Hix. destruct (decide (0 < fee)) as [Hfee|Hfee].
    + cbn [ofold apply_effect obind]. intros [= <- <-].
      destruct (move_sound ov (vault cfg) (collector cfg) fee) as (Hs' & Ht & Hex); [done..|lia|rewrite decide_False by done; lia|].
      rewrite decide_False in Ht by done.
      split_and!; [done|lia|]. rewrite Hex, decide_False, decide_True by naive_solver. lia.
    + cbn [ofold]. intros [= <- _]. split_and!; [done|lia|lia].
  - cbn [ofold apply_effect obind]. intros [= <- <-]. destruct Hix as (Hu & Hrin). unfold u64 in Hu.
    destruct (move_sound ov (vault cfg) recipient amount) as (Hs' & Ht & Hex); [done..|lia| |].
    { destruct (decide (vault cfg = recipient)), (decide (recipient = vault cfg)); try congruence; lia. }
    destruct (decide (recipient = vault cfg)) as [->|Hne].
    + rewrite decide_True in Ht by done. split_and!; [done|lia|]. rewrite Hex, decide_True, decide_False by naive_solver. lia.
    + rewrite decide_False in Ht by congruence. split_and!; [done|lia|].
      rewrite Hex, decide_False, decide_True by naive_solver. lia.
  - cbn [ofold apply_effect obind]. destruct (move_wrapped _ _ _ _ _); [|done].
    cbn [or_panic obind]. intros [= <- _]. split_and!; [done|lia|lia].
Qed.

Lemma self_minted_nonneg payer ix : parties_ok keys (payer, ix) →
  0 ≤ self_minted (payer, ix) - (if decide (payer = collector cfg) then flat_fee cfg else 0).
Proof.
  intros (_ & _ & Hix). unfold self_minted. cbn [fst snd] in *. unfold u64 in *.
  destruct ix as [| |? ? ? ? [|] amount ? ?]; try lia. destruct Hix as [Hu _]. unfold u64 in Hu. repeat case_decide; lia.
Qed.

Lemma apply_one_sound r payer ix r' res :
  sound (overlay r) → token_keys (token_overlay r) → parties_ok keys (payer, ix) →
  total keys (balance (overlay r)) + self_minted (payer, ix) < u64_max →
  apply_one r payer ix = (r', res) →
  sound (overlay r') ∧ token_keys (token_overlay r')
  ∧ total keys (balance (overlay r'))
    = total keys (balance (overlay r)) + (if is_ok res then self_minted (payer, ix) else 0)
  ∧ balance (overlay r') (vault cfg)
    = balance (overlay r) (vault cfg) + (if is_ok res then vault_delta ix else 0).
Proof.
  intros Hs Htk Hok Hle. unfold apply_one. pose proof (self_minted_nonneg payer ix Hok) as Hsm.
  destruct (precheck r payer ix) as [[]|e|] eqn:Hpre;
    [|intros [= <- <-]; cbn; split_and!; [done|done|lia|lia]..].
  destruct (process _ _ _) as [[s' ns'] [out|e|]] eqn:Hp;
    [|intros [= <- <-]; cbn; split_and!; [done|done|lia|lia]..].
  apply process_effects in Hp. rewrite Hp. clear Hp.
  pose proof Hok as (Hpin & Hpv & Hix). cbn [fst snd] in *. unfold u64 in fee_u64.
  assert (Hfee : flat_fee cfg ≤ balance (overlay r) payer ∧
    match ix with
    | Shield Native amount _ _ => amount + flat_fee cfg ≤ balance (overlay r) payer
    | Transfer _ _ _ _ _ _ fee _ _ => fee ≤ balance (overlay r) (vault cfg)
    | Unshield _ _ _ _ Native amount _ _ => amount ≤ balance (overlay r) (vault cfg)
    | _ => True
    end).
  { pose proof (total_bound keys _ payer (λ k _, Hs k) Hpin) as Hb.
    assert (Hlt : total keys (balance (overlay r)) < u64_max) by (case_decide; lia).
    unfold precheck in Hpre. clear Hle Hsm.
    destruct ix as [[|mint] amount sec enc| |pr rt nf cm [|mint] amount recipient enc];
      cbn in Hpre; unfold sat_add in Hpre; repeat (case_decide; try done); unfold u64 in *; lia. }
  destruct Hfee as [Hfee Hfund].
  destruct (move_sound (overlay r) payer (collector cfg) (flat_fee cfg)) as (Hs1 & Ht1 & Hex1); [done..|lia|case_decide; lia|].
  set (ov1 := move_lamports _ _ _ _) in *.
  destruct (ofold _ _ _) as [[ov' tokens']|e|] eqn:Ho;
    [|intros [= <- <-]; cbn; split_and!; [done|done|lia|lia]..].
  intros [= <- <-]. cbn [overlay token_overlay is_ok].
  assert (Hv1 : balance ov1 (vault cfg) = balance (overlay r) (vault cfg)).
  { rewrite Hex1, !decide_False by naive_solver. lia. }
  assert (Hp1 : balance (overlay r) payer - flat_fee cfg ≤ balance ov1 payer).
  { rewrite Hex1. repeat case_decide; lia. }
  destruct (effects_sound payer ix ov1 (token_overlay r) ov' tokens' Hs1 Hok) as (Hs2 & Ht2 & Hv2).
  - rewrite Ht1. case_decide; lia.
  - destruct ix as [[|mint] amount sec enc| |pr rt nf cm [|mint] amount recipient enc]; lia || done.
  - done.
  - split_and!; [done|exact (effects_keys _ _ (ov1, token_overlay r) (ov', tokens') Htk Ho)|lia|lia].
Qed.

(** What the accepted transactions add up to. *)
Definition accepted (f : Pubkey * PoolInstruction → Z) (txs : list (Pubkey * PoolInstruction))
    (sts : list (outcome PoolServiceError ())) : Z :=
  foldr Z.add 0 (zip_with (λ tx st, if is_ok st then f tx else 0) txs sts).

Definition could_mint (txs : list (Pubkey * PoolInstruction)) : Z := foldr (λ tx acc, self_minted tx + acc) 0 txs.

Lemma could_mint_nonneg txs : Forall (parties_ok keys) txs → 0 ≤ could_mint txs.
Proof.
  unfold u64 in fee_u64. induction 1 as [|[payer ix] txs Hok _ IH]; [done|]. unfold could_mint in *. cbn [foldr].
  pose proof (self_minted_nonneg payer ix Hok). case_decide; lia.
Qed.

Lemma run_txs_sound txs : ∀ r dirty sts r' dirty' sts',
  sound (overlay r) → token_keys (token_overlay r) → Forall (parties_ok keys) txs →
  total keys (balance (overlay r)) + could_mint txs < u64_max →
  run_txs r dirty sts txs = Ok (r', dirty', sts') →
  ∃ new, sts' = sts ++ new ∧ length new = length txs
  ∧ token_keys (token_overlay r')
  ∧ total keys (balance (overlay r')) = total keys (balance (overlay r)) + accepted self_minted txs new
  ∧ balance (overlay r') (vault cfg)
    = balance (overlay r) (vault cfg) + accepted (λ tx, vault_delta tx.2) txs new.
Proof.
  induction txs as [|[payer ix] txs IH]; intros r dirty sts r' dirty' sts' Hs Htk Hok Hle; cbn [run_txs].
  { intros [= <- <- <-]. exists []. rewrite app_nil_r. unfold accepted. cbn. split_and!; try done; lia. }
  apply list.Forall_cons in Hok as [Htx Hok]. pose proof (could_mint_nonneg txs Hok) as Hcm.
  unfold could_mint in Hle. cbn [foldr] in Hle. fold (could_mint txs) in Hle.
  destruct (apply_one r payer ix) as [r1 res] eqn:Ha.
  destruct (apply_one_sound r payer ix r1 res Hs Htk Htx ltac:(lia) Ha) as (Hs1 & Htk1 & Ht1 & Hv1).
  pose proof (self_minted_nonneg payer ix Htx) as Hsm.
  assert (Hsm0 : 0 ≤ self_minted (payer, ix)) by (unfold u64 in fee_u64; case_decide; lia).
  destruct res as [[]|e|]; intros Hrun; [| |done]; cbn [is_ok] in Ht1, Hv1;
    destruct (IH _ _ _ _ _ _ Hs1 Htk1 Hok ltac:(lia) Hrun) as (new & -> & Hlen & Hk' & Ht' & Hv').
  - exists (Ok () :: new). rewrite <- app_assoc. split_and!; [done|simpl; lia|done|..]; unfold accepted in *; cbn in *; lia.
  - exists (Err e :: new). rewrite <- app_assoc. split_and!; [done|simpl; lia|done|..]; unfold accepted in *; cbn in *; lia.
Qed.

(** No balance leaves the overlay. *)
Lemma move_grows ov from to amount : dom ov ⊆ dom (move_lamports ov from to amount).
Proof. unfold move_lamports. rewrite !dom_insert. set_solver. Qed.

Lemma effects_grow payer es : ∀ acc acc',
  ofold (apply_effect payer) acc es = Ok acc' → dom acc.1 ⊆ dom acc'.1.
Proof.
  induction es as [|e es IH]; intros acc acc'; cbn [ofold]; [by intros [= <-]|].
  intros (a1 & H1 & H)%obind_Ok. etrans; [|exact (IH _ _ H)]. destruct acc as [ov tokens].
  destruct e as [[|m] a|[|m] a r|a]; cbn [apply_effect] in H1;
    try (injection H1 as <-; apply move_grows); apply obind_Ok in H1 as (t & _ & [= <-]); done.
Qed.

Lemma run_txs_grow txs : ∀ r dirty sts r' dirty' sts',
  run_txs r dirty sts txs = Ok (r', dirty', sts') → dom (overlay r) ⊆ dom (overlay r').
Proof.
  induction txs as [|[payer ix] txs IH]; intros r dirty sts r' dirty' sts'; cbn [run_txs]; [by intros [= <- _ _]|].
  destruct (apply_one r payer ix) as [r1 res] eqn:Ha. assert (Hg : dom (overlay r) ⊆ dom (overlay r1)).
  { unfold apply_one in Ha. destruct (precheck r payer ix); [|by injection Ha as <- _..].
    destruct (process _ _ _) as [[s1 ns1] [out|e|]]; [|by injection Ha as <- _..].
    destruct (ofold _ _ _) as [[ov1 t1]| |] eqn:Hf; [|by injection Ha as <- _..]. injection Ha as <- _. cbn [overlay].
    etrans; [apply move_grows|exact (effects_grow _ _ _ _ Hf)]. }
  destruct res as [u|e|]; intros H; [| |done]; (etrans; [exact Hg|exact (IH _ _ _ _ _ _ H)]).
Qed.

(** An account's lamports once the block's pool writes are applied, in order, over
    the balances the block started from. *)
Definition lamports_then (res : PoolBlockResult) (seed : gmap Pubkey Z) (k : Pubkey) : Z :=
  match insert_entries id (account_writes res) (∅ : gmap Pubkey (option StoredAccount)) !! k with
  | Some w => default 0 (lamports <$> w)
  | None => balance seed k
  end.

Lemma lamport_writes_ok l : ∀ ws0 ws,
  ofold (λ ws kv, let? w := lamport_write kv.1 kv.2 in Ok (ws ++ [(kv.1, w)])) ws0 l = Ok ws →
  ∃ new, ws = ws0 ++ new ∧ new.*1 = l.*1
  ∧ Forall2 (λ kv w, default 0 (lamports <$> w.2) = kv.2) l new.
Proof.
  induction l as [|[k v] l IH]; intros ws0 ws; cbn [ofold].
  { intros [= <-]. exists []. by rewrite app_nil_r. }
  intros (ws1 & Hw & H)%obind_Ok. apply obind_Ok in Hw as (w & Hw & [= <-]).
  apply IH in H as (new & -> & Hk & Hv). exists ((k, w) :: new). rewrite <- app_assoc. split_and!; [done| |].
  - cbn [fmap list_fmap fst]. by rewrite Hk.
  - constructor; [|done]. cbn [fst snd] in *. unfold lamport_write in Hw. apply obind_Ok in Hw as (acc & _ & Hw).
    case_decide as Hd; injection Hw as <-; [by destruct Hd as [-> _]|done].
Qed.

(** C31: a block's pool transactions conserve lamports, but for what self-moves
    create. Over any set of accounts that holds the parties, the vault and the fee
    collector (two different accounts), and no token account nor the pool's own,
    when nobody signs for the vault and what could be there at most fits 64 bits,
    the lamports after the writes of the block are what they were before it plus, for each accepted
    transaction, the flat fee when its payer is the collector and the amount of an
    unshield to the vault (the code moves lamports from an account to itself by
    adding them); nothing else is created, lost or saturated, and the vault
    changes by exactly the accepted shields, unshields and shielded fees. *)
Theorem pool_block_conserves txs seed res :
  txs ≠ [] → sound seed → Forall (parties_ok keys) txs →
  total keys (balance seed) + could_mint txs < u64_max →
  (∀ k, k ∈ keys → k ≠ pool_state cfg ∧ ¬ token_key k) →
  process_block_seeded txs seed = Ok res →
  length (statuses res) = length txs
  ∧ total keys (lamports_then res seed) = total keys (balance seed) + accepted self_minted txs (statuses res)
  ∧ lamports_then res seed (vault cfg)
    = balance seed (vault cfg) + accepted (λ tx, vault_delta tx.2) txs (statuses res).
Proof.
  intros Hne Hs Hok Hle Hkeys H. unfold process_block_seeded in H. destruct txs as [|tx txs]; [done|].
  apply obind_Ok in H as (s & _ & H). apply obind_Ok in H as ([[r dirty] sts] & Hrun & H).
  apply obind_Ok in H as (lw & Hlw & H). apply obind_Ok in H as (sw & Hsw & H). injection H as <-.
  pose proof (run_txs_grow _ _ _ _ _ _ _ Hrun) as Hgrow. cbn [overlay start_run] in Hgrow.
  apply run_txs_sound in Hrun as (new & -> & Hlen & Hk & Ht & Hv); [|done| |done|done].
  2:{ intros k [a Ha]. cbn [token_overlay start_run] in Ha. by rewrite lookup_empty in Ha. }
  cbn [app] in *. cbn [statuses]. split; [exact Hlen|]. apply lamport_writes_ok in Hlw as (ws & -> & Hk1 & Hv1). cbn [app].
  assert (Hthen : ∀ k, k ∈ keys → lamports_then
      {| account_writes := ws ++ ((λ kv, (kv.1, Some kv.2)) <$> map_to_list (token_overlay r)) ++ sw;
         nullifiers := newly (run_nullifiers r); result_events := run_events r; statuses := new |} seed k
      = balance (overlay r) k); [|split; [rewrite (total_ext _ _ _ Hthen); exact Ht|by rewrite Hthen]].
  intros k Hin. destruct (Hkeys k Hin) as [Hps Hnt]. unfold lamports_then. cbn [account_writes].
  rewrite insert_entries_app, insert_entries_other, insert_entries_lookup.
  - destruct (list_to_map ws !! k) as [w|] eqn:Hw.
    + apply elem_of_list_to_map_2 in Hw. apply list_elem_of_lookup_1 in Hw as [i Hi].
      destruct (Forall2_lookup_r _ _ _ _ _ Hv1 Hi) as ([k' v] & Hkv & He).
      assert (k' = k) as ->.
      { apply (f_equal (λ l, l !! i)) in Hk1. rewrite !list_lookup_fmap, Hi, Hkv in Hk1. by injection Hk1. }
      apply list_elem_of_lookup_2, elem_of_map_to_list in Hkv. unfold balance. rewrite Hkv. exact He.
    + rewrite lookup_empty. apply not_elem_of_list_to_map_2 in Hw. rewrite Hk1 in Hw.
      assert (Hov : overlay r !! k = None).
      { apply eq_None_not_Some. intros [v Hv0]. apply Hw, list_elem_of_fmap. exists (k, v). split; [done|].
        by apply elem_of_map_to_list. }
      unfold balance. rewrite Hov. apply not_elem_of_dom in Hov.
      assert (Hseed : seed !! k = None) by (apply not_elem_of_dom; intros Hd; by apply Hov, Hgrow).
      by rewrite Hseed.
  - rewrite Hk1. apply NoDup_fst_map_to_list.
  - rewrite fmap_app, not_elem_of_app. split.
    + rewrite <- list_fmap_compose. intros ([k' a] & -> & Ha)%list_elem_of_fmap. apply elem_of_map_to_list in Ha.
      apply Hnt, Hk. by eexists.
    + destruct dirty; [|injection Hsw as <-; apply not_elem_of_nil].
      apply obind_Ok in Hsw as (acc & _ & [= <-]). cbn. intros ->%list_elem_of_singleton. done.
Qed.
End Conserve.
End Service.

(** ** Witnesses *)

Module Example.
#[local] Existing Instances Toy.blake3_toy poseidon_toy.
#[local] Instance accept_all : ProofVerifier :=
  {| verify_transfer _ _ := true; verify_unshield _ _ := true |}.
#[local] Instance account_codec : Bincode StoredAccount := Toy.bincode_toy _.
#[local] Instance pool_codec : Bincode PoolState := Toy.bincode_toy _.
#[local] Instance addresses : SolanaAddresses :=
  {| find_program_address seeds program := Byte.xff :: take 31 (concat seeds ++ program);
     native_sol_mint := le_bytes 32 6 |}.

Definition pk (n : Z) : Pubkey := le_bytes 32 n.
Definition cfg : PoolConfig := pool_config (pk 100) (pk 101) (pk 102).
Definition keys : list Pubkey := [pk 1; pk 101; pk 102].
Definition seed : gmap Pubkey Z := {[pk 1 := 50000]}.

(** A shield, a shield its payer cannot fund, and an unshield to the vault itself. *)
Definition txs : list (Pubkey * PoolInstruction) :=
  [(pk 1, Shield Native 7000 (fr_to_bytes 9) []); (pk 1, Shield Native 90000 (fr_to_bytes 9) []);
   (pk 1, Unshield [] (current_root pool_new) (fr_to_bytes 5) (fr_to_bytes 6) Native 3000 (pk 101) [])].
Definition no_result : PoolBlockResult :=
  {| account_writes := []; nullifiers := []; result_events := []; statuses := [] |}.
Definition result := process_block_seeded cfg open_store txs seed.
Definition written : PoolBlockResult := match result with Ok r => r | _ => no_result end.

Lemma result_ok : result = Ok written.
Proof.
  assert (Hok : is_ok result = true) by (vm_compute; reflexivity).
  unfold written. by destruct result.
Qed.

Lemma seed_balance k : balance open_store seed k = if decide (k = pk 1) then 50000 else 0.
Proof.
  unfold balance, seed. destruct (decide (k = pk 1)) as [->|Hk]; [by rewrite lookup_singleton_eq|].
  by rewrite lookup_singleton_ne by congruence.
Qed.

(** Two of the three transactions are accepted; the last one creates 3000 lamports. *)
Lemma pool_block_conserves_witness :
  (length (statuses written) = length txs
   ∧ total keys (lamports_then open_store written seed)
     = total keys (balance open_store seed) + accepted (self_minted cfg) txs (statuses written)
   ∧ lamports_then open_store written seed (vault cfg)
     = balance open_store seed (vault cfg) + accepted (λ tx, vault_delta cfg tx.2) txs (statuses written))
  ∧ accepted (self_minted cfg) txs (statuses written) = 3000
  ∧ accepted (λ tx, vault_delta cfg tx.2) txs (statuses written) = 10000.
Proof.
  split; [|split; vm_compute; reflexivity].
  refine (pool_block_conserves cfg open_store keys _ _ _ _ _ txs seed written _ _ _ _ _ _).
  - apply (bool_decide_eq_true (NoDup _)). vm_compute. reflexivity.
  - unfold keys. right. left.
  - unfold keys. right. right. left.
  - vm_compute. discriminate.
  - unfold u64, u64_max. cbn. unfold LAMPORTS_PER_SIGNATURE. lia.
  - discriminate.
  - intros k. rewrite seed_balance. case_decide; lia.
  - unfold keys. repeat constructor; unfold u64, u64_max; cbn [fst snd];
      try (vm_compute; discriminate); try (by rewrite !elem_of_cons; auto).
  - vm_compute. reflexivity.
  - intros k Hk. split; [|intros (o & m & ->)].
    + intros ->. revert Hk. apply (bool_decide_eq_false (_ ∈ _)). vm_compute. reflexivity.
    + unfold keys in Hk. rewrite !elem_of_cons in Hk. unfold associated_token_address in Hk.
      cbn [find_program_address addresses] in Hk. destruct Hk as [Hk|[Hk|[Hk|Hk]]]; [discriminate Hk..|].
      by apply elem_of_nil in Hk.
  - exact result_ok.
Defined.

Lemma self_move_mints_witness :
  balance open_store (move_lamports open_store seed (pk 1) (pk 1) 10) (pk 1)
  = balance open_store seed (pk 1) + 10.
Proof.
  refine (self_move_mints open_store seed (pk 1) 10 _). vm_compute. discriminate.
Defined.
End Example.
