(* ===== verification/Mempool.v ===== *)
(** * The mempool

    Models [chain/zul-node/src/mempool.rs]: a bounded FIFO queue with a set of
    pending signatures and a count of queued transactions per fee payer. *)

From S2P Require Import Prelude External Hash.

Inductive MempoolError := Full | Duplicate | Unsigned | PayerLimit.

Section Mempool.
Context `{TX : SolanaTx}.

Record Mempool := {
  mp_capacity : Z;
  mp_max_per_payer : Z;
  queue : list VersionedTransaction;
  pending : gset Signature;
  per_payer : gmap Pubkey Z;
}.

Definition fee_payer (tx : VersionedTransaction) : option Pubkey := head (static_account_keys tx).

Definition first_signature (tx : VersionedTransaction) : option Signature := head (signatures tx).

Definition new_mempool (cap limit : Z) : Mempool :=
  {| mp_capacity := cap; mp_max_per_payer := Z.max limit 1;
     queue := []; pending := ∅; per_payer := ∅ |}.

Definition push (m : Mempool) (tx : VersionedTransaction) : outcome MempoolError (Mempool * Signature) :=
  let? sig := ok_or (first_signature tx) Unsigned in
  let? payer := ok_or (fee_payer tx) Unsigned in
  if decide (sig ∈ pending m) then Err Duplicate
  else if decide (mp_max_per_payer m ≤ default 0 (per_payer m !! payer)) then Err PayerLimit
  else if decide (mp_capacity m ≤ Z.of_nat (length (queue m))) then Err Full
  else Ok ({| mp_capacity := mp_capacity m; mp_max_per_payer := mp_max_per_payer m;
              queue := queue m ++ [tx];
              pending := {[sig]} ∪ pending m;
              per_payer := <[payer := default 0 (per_payer m !! payer) + 1]> (per_payer m) |}, sig).

(** The bookkeeping for one drained transaction; the counter is a [usize]. *)
Definition forget (acc : gset Signature * gmap Pubkey Z) (tx : VersionedTransaction)
    : gset Signature * gmap Pubkey Z :=
  let pend := match first_signature tx with Some sig => acc.1 ∖ {[sig]} | None => acc.1 end in
  let counts :=
    match fee_payer tx with
    | Some payer =>
        match acc.2 !! payer with
        | Some count =>
            let c := (count - 1) mod 2 ^ 64 in
            if decide (c = 0) then delete payer acc.2 else <[payer := c]> acc.2
        | None => acc.2
        end
    | None => acc.2
    end in
  (pend, counts).

Definition drain (m : Mempool) (max : nat) : Mempool * list VersionedTransaction :=
  let n := Nat.min max (length (queue m)) in
  let drained := take n (queue m) in
  let acc := fold_left forget drained (pending m, per_payer m) in
  ({| mp_capacity := mp_capacity m; mp_max_per_payer := mp_max_per_payer m;
      queue := drop n (queue m); pending := acc.1; per_payer := acc.2 |}, drained).

(** ** Invariant *)

(** How many queued transactions a payer has. *)
Definition payer_count (q : list VersionedTransaction) (p : Pubkey) : Z :=
  Z.of_nat (length (filter (λ tx, fee_payer tx = Some p) q)).

Record books (q : list VersionedTransaction) (pend : gset Signature) (counts : gmap Pubkey Z) : Prop := {
  books_signed : Forall (λ tx, is_Some (first_signature tx) ∧ is_Some (fee_payer tx)) q;
  books_nodup : NoDup (first_signature <$> q);
  books_pending : ∀ sig, sig ∈ pend ↔ Some sig ∈ first_signature <$> q;
  books_counts : ∀ p, counts !! p = if decide (payer_count q p = 0) then None else Some (payer_count q p);
}.

Record mempool_inv (m : Mempool) : Prop := {
  inv_books : books (queue m) (pending m) (per_payer m);
  inv_capacity : Z.of_nat (length (queue m)) ≤ Z.max 0 (mp_capacity m);
  inv_payer : ∀ p, payer_count (queue m) p ≤ mp_max_per_payer m;
}.

Lemma payer_count_cons tx q p :
  payer_count (tx :: q) p = (if decide (fee_payer tx = Some p) then 1 else 0) + payer_count q p.
Proof. unfold payer_count. rewrite filter_cons. case_decide; cbn [length]; lia. Qed.

Lemma payer_count_snoc tx q p :
  payer_count (q ++ [tx]) p = payer_count q p + (if decide (fee_payer tx = Some p) then 1 else 0).
Proof.
  unfold payer_count. rewrite list.filter_app, length_app, filter_cons, filter_nil.
  case_decide; cbn [length]; lia.
Qed.

Lemma payer_count_nonneg q p : 0 ≤ payer_count q p.
Proof. unfold payer_count. lia. Qed.

Lemma new_mempool_inv cap limit : 0 ≤ cap → mempool_inv (new_mempool cap limit).
Proof.
  intros Hc. split; [split| |]; cbn.
  - constructor.
  - constructor.
  - intros sig. set_solver.
  - intros p. by rewrite lookup_empty.
  - lia.
  - intros p. unfold payer_count. cbn. lia.
Qed.

(** What a push adds. *)
Lemma push_adds m tx mp sig :
  push m tx = Ok (mp, sig) →
  queue mp = queue m ++ [tx] ∧ mp_capacity mp = mp_capacity m ∧ first_signature tx = Some sig.
Proof.
  unfold push. intros (sg & Hsg & Hp)%obind_Ok. apply ok_or_Ok in Hsg.
  apply obind_Ok in Hp as (py & Hpy & Hp). repeat (destruct (decide _) in Hp; [done|]).
  by injection Hp as <- <-.
Qed.

Lemma push_inv m tx m' sig : mempool_inv m → push m tx = Ok (m', sig) → mempool_inv m'.
Proof.
  intros [[Hsg Hnd Hp Hcnt] Hcap Hmax]. unfold push.
  intros (s & Hs & H)%obind_Ok. apply ok_or_Ok in Hs.
  apply obind_Ok in H as (payer & Hpay & H). apply ok_or_Ok in Hpay.
  destruct (decide (s ∈ pending m)) as [|Hni]; [done|].
  destruct (decide (mp_max_per_payer m ≤ _)) as [|Hlim]; [done|].
  destruct (decide (mp_capacity m ≤ _)) as [|Hroom]; [done|].
  injection H as <- <-. split; [split| |]; cbn [queue pending per_payer mp_capacity mp_max_per_payer].
  - apply list.Forall_app. split; [done|]. apply Forall_singleton. rewrite Hs, Hpay. split; by eexists.
  - rewrite fmap_app. apply list.NoDup_app. split_and!; [done| |apply NoDup_singleton].
    intros o Ho Heq. apply list_elem_of_singleton in Heq as ->. apply Hni, Hp. by rewrite <- Hs.
  - intros sig. rewrite elem_of_union, elem_of_singleton, Hp, fmap_app, elem_of_app, fmap_cons, fmap_nil.
    rewrite list_elem_of_singleton, Hs.
    naive_solver.
  - intros p. rewrite payer_count_snoc. pose proof (payer_count_nonneg (queue m) p).
    destruct (decide (fee_payer tx = Some p)) as [Heq|Hne].
    + assert (p = payer) as -> by congruence. rewrite lookup_insert_eq, Hcnt.
      rewrite (decide_False (P := _ + 1 = 0)) by lia. f_equal. case_decide; simpl; lia.
    + rewrite lookup_insert_ne by congruence. rewrite Z.add_0_r. apply Hcnt.
  - rewrite length_app. cbn [length]. lia.
  - intros p. rewrite payer_count_snoc. destruct (decide _) as [Heq|]; [|specialize (Hmax p); lia].
    assert (p = payer) as -> by congruence. rewrite Hcnt in Hlim. case_decide; simpl in Hlim; lia.
Qed.

Lemma forget_books tx q pend counts :
  Z.of_nat (length (tx :: q)) ≤ u64_max → books (tx :: q) pend counts →
  books q (forget (pend, counts) tx).1 (forget (pend, counts) tx).2.
Proof.
  intros Hlen [Hsg Hnd Hp Hcnt]. apply list.Forall_cons in Hsg as [[[s Hs] [payer Hpay]] Hsg].
  rewrite fmap_cons in Hnd. apply list.NoDup_cons in Hnd as [Hni Hnd].
  unfold forget. rewrite Hs, Hpay. cbn [fst snd]. split; [done|done| |].
  - intros sig. rewrite elem_of_difference, elem_of_singleton, Hp, fmap_cons, elem_of_cons, Hs.
    split; [naive_solver|]. intros Hin. split; [by right|]. intros ->. apply Hni. by rewrite Hs.
  - intros p. pose proof (Hcnt payer) as Hc. rewrite payer_count_cons, (decide_True (P := fee_payer tx = Some payer)) in Hc by done.
    pose proof (payer_count_nonneg q payer) as Hnn.
    assert (Hle : payer_count q payer < 2 ^ 64).
    { unfold payer_count. pose proof (length_filter (λ tx, fee_payer tx = Some payer) q).
      cbn [length] in Hlen. unfold u64_max in Hlen. lia. }
    rewrite (decide_False (P := _ = 0)) in Hc by lia. rewrite Hc.
    replace (1 + payer_count q payer - 1) with (payer_count q payer) by lia.
    rewrite Z.mod_small by lia. specialize (Hcnt p). rewrite payer_count_cons in Hcnt.
    destruct (decide (p = payer)) as [->|Hne].
    + destruct (decide (payer_count q payer = 0)); [apply lookup_delete_eq|apply lookup_insert_eq].
    + rewrite (decide_False (P := fee_payer tx = Some p)) in Hcnt by congruence.
      rewrite Z.add_0_l in Hcnt.
      destruct (decide (payer_count q payer = 0));
        [rewrite lookup_delete_ne by done|rewrite lookup_insert_ne by done]; exact Hcnt.
Qed.

Lemma drain_books n : ∀ q pend counts,
  (n ≤ length q)%nat → Z.of_nat (length q) ≤ u64_max → books q pend counts →
  let acc := fold_left forget (take n q) (pend, counts) in
  books (drop n q) acc.1 acc.2.
Proof.
  induction n as [|n IH]; intros [|tx q] pend counts Hn Hlen Hb; cbn [take drop fold_left];
    try (cbn in Hn; lia); try done.
  destruct (forget (pend, counts) tx) as [pend' counts'] eqn:Hf.
  pose proof (forget_books tx q pend counts Hlen Hb) as Hb'. rewrite Hf in Hb'.
  apply IH; [cbn in Hn; lia|cbn in Hlen; lia|done].
Qed.

Lemma payer_count_drop n q p : payer_count (drop n q) p ≤ payer_count q p.
Proof.
  unfold payer_count. rewrite <- (take_drop n q) at 2. rewrite list.filter_app, length_app. lia.
Qed.

Lemma drain_inv m max :
  Z.of_nat (length (queue m)) ≤ u64_max → mempool_inv m → mempool_inv (drain m max).1.
Proof.
  intros Hlen [Hb Hcap Hmax]. unfold drain. cbn [fst]. split; cbn [queue pending per_payer mp_capacity mp_max_per_payer].
  - apply drain_books; [lia|done|done].
  - rewrite length_drop. lia.
  - intros p. pose proof (payer_count_drop (Nat.min max (length (queue m))) (queue m) p).
    specialize (Hmax p). lia.
Qed.

(** The operations in any order. *)
Inductive mempool_op := OpPush (tx : VersionedTransaction) | OpDrain (max : nat).

Definition mempool_step (m : Mempool) (op : mempool_op) : Mempool :=
  match op with
  | OpPush tx => match push m tx with Ok (m', _) => m' | _ => m end
  | OpDrain max => (drain m max).1
  end.

Lemma step_config m op :
  mp_capacity (mempool_step m op) = mp_capacity m
  ∧ mp_max_per_payer (mempool_step m op) = mp_max_per_payer m.
Proof.
  destruct op as [tx|max]; cbn; [|done]. unfold push.
  destruct (ok_or (first_signature tx) Unsigned); cbn; [|done|done].
  destruct (ok_or (fee_payer tx) Unsigned); cbn; [|done|done].
  repeat (destruct (decide _); [done|]). done.
Qed.

Lemma steps_config ops : ∀ m,
  mp_capacity (fold_left mempool_step ops m) = mp_capacity m
  ∧ mp_max_per_payer (fold_left mempool_step ops m) = mp_max_per_payer m.
Proof.
  induction ops as [|op ops IH]; intros m; [done|]. cbn [fold_left].
  destruct (IH (mempool_step m op)) as [-> ->]. apply step_config.
Qed.

Lemma steps_inv ops : ∀ m,
  0 ≤ mp_capacity m ≤ u64_max → mempool_inv m → mempool_inv (fold_left mempool_step ops m).
Proof.
  induction ops as [|op ops IH]; intros m Hc Hm; [done|]. cbn [fold_left].
  apply IH; [by destruct (step_config m op) as [-> _]|].
  destruct op as [tx|max]; cbn [mempool_step].
  - destruct (push m tx) as [[m' sig]| |] eqn:Hp; [by eapply push_inv|done|done].
  - apply drain_inv; [|done]. destruct Hm as [_ Hcap _]. lia.
Qed.

(** C35: after any sequence of pushes and drains the mempool holds at most its
    capacity, at most the limit per fee payer, no two transactions with one
    signature, and its indexes are exactly those of the queue; a drain returns
    the oldest transactions in arrival order and leaves the rest. *)
Theorem mempool_bounded cap limit ops max :
  0 ≤ cap ≤ u64_max →
  let m := fold_left mempool_step ops (new_mempool cap limit) in
  Z.of_nat (length (queue m)) ≤ cap
  ∧ (∀ p, payer_count (queue m) p ≤ Z.max limit 1)
  ∧ NoDup (first_signature <$> queue m)
  ∧ (∀ sig, sig ∈ pending m ↔ Some sig ∈ first_signature <$> queue m)
  ∧ (∀ p, default 0 (per_payer m !! p) = payer_count (queue m) p)
  ∧ queue m = (drain m max).2 ++ queue (drain m max).1
  ∧ length (drain m max).2 = Nat.min max (length (queue m)).
Proof.
  intros Hc m.
  pose proof (steps_inv ops (new_mempool cap limit) Hc (new_mempool_inv cap limit ltac:(lia))) as Hinv.
  fold m in Hinv. assert (Hcfg : mp_capacity m = cap ∧ mp_max_per_payer m = Z.max limit 1).
  { exact (steps_config ops (new_mempool cap limit)). }
  destruct Hinv as [[_ Hnd Hp Hcnt] Hcap Hmax]. destruct Hcfg as [Hcc Hcl]. rewrite Hcc in Hcap. rewrite Hcl in Hmax.
  split_and!; [lia|done|done|done| | |].
  - intros p. rewrite Hcnt. case_decide; simpl; lia.
  - unfold drain. cbn. by rewrite take_drop.
  - unfold drain. cbn. rewrite length_take. lia.
Qed.

(** A push is accepted exactly when the transaction has a signature and a
    fee payer, is not already queued, its payer is under the limit and there is
    room; it then joins the end of the queue. *)
Theorem push_accepts m tx :
  mempool_inv m →
  (is_ok (push m tx) = true ↔
   ∃ sig payer, first_signature tx = Some sig ∧ fee_payer tx = Some payer
     ∧ Some sig ∉ first_signature <$> queue m
     ∧ payer_count (queue m) payer < mp_max_per_payer m
     ∧ Z.of_nat (length (queue m)) < mp_capacity m)
  ∧ ∀ m' sig, push m tx = Ok (m', sig) → queue m' = queue m ++ [tx].
Proof.
  intros [[_ _ Hp Hcnt] _ _]. unfold push.
  destruct (first_signature tx) as [sig|]; cbn [ok_or obind]; [|split; [naive_solver|done]].
  destruct (fee_payer tx) as [payer|]; cbn [ok_or obind]; [|split; [naive_solver|done]].
  assert (Hd : default 0 (per_payer m !! payer) = payer_count (queue m) payer)
    by (rewrite Hcnt; case_decide; simpl; lia).
  rewrite Hd. pose proof (Hp sig) as Hps.
  destruct (decide (sig ∈ pending m)); [split; [|done]; naive_solver|].
  destruct (decide (mp_max_per_payer m ≤ _)); [split; [split; [done|intros (? & ? & ? & ? & ? & ? & ?); simplify_eq; lia]|done]|].
  destruct (decide (mp_capacity m ≤ _)); [split; [split; [done|intros (? & ? & ? & ? & ? & ? & ?); simplify_eq; lia]|done]|].
  split.
  - split; [|done]. intros _. exists sig, payer. split_and!; try done; [naive_solver|lia|lia].
  - by intros m' s [= <- <-].
Qed.

End Mempool.

Module Example.
#[local] Existing Instance Toy.solana_toy.

Definition tx (n : Z) : VersionedTransaction :=
  Toy.Build_tx [le_bytes 64 n] [le_bytes 32 1] [] ZERO_HASH true.

Lemma mempool_bounded_witness :
  let m := fold_left mempool_step [OpPush (tx 1); OpPush (tx 2); OpPush (tx 1); OpDrain 1]
             (new_mempool 10 2) in
  Z.of_nat (length (queue m)) ≤ 10.
Proof.
  refine (proj1 (mempool_bounded 10 2 [OpPush (tx 1); OpPush (tx 2); OpPush (tx 1); OpDrain 1] 1 _)).
  unfold u64_max. lia.
Defined.

Lemma push_accepts_witness : is_ok (push (new_mempool 10 2) (tx 1)) = true.
Proof.
  refine (proj2 (proj1 (push_accepts (new_mempool 10 2) (tx 1) _)) _).
  - apply new_mempool_inv. lia.
  - exists (le_bytes 64 1), (le_bytes 32 1). split; [reflexivity|]. split; [reflexivity|].
    split; [cbn; set_solver|]. split; vm_compute; reflexivity.
Defined.
End Example.
