(* ===== verification/NodeBridge.v ===== *)
(** * Recognizing bridge and pool transactions

    Models the pure parts of [chain/zul-node/src/bridge.rs] (withdrawal
    commitments, receipt addresses, parsing) and [pool.rs] (recognizing pool
    transactions, their metadata), together with the withdrawal hashes of the
    settlement program, which are the same functions. *)

From S2P Require Import Prelude External Hash Account Block PoolProcessor PoolService.

Definition bridge_key (last : byte) : Pubkey := [Byte.x06; Byte.x21] ++ replicate 29 Byte.x00 ++ [last].
Definition BRIDGE_RECEIPT_OWNER : Pubkey := bridge_key Byte.x00.
Definition BRIDGE_WITHDRAW_PROGRAM_ID : Pubkey := bridge_key Byte.x01.
Definition RECEIPT_DOMAIN : bytes := bstr "PL2:bridge:deposit-receipt:v1".
Definition WITHDRAW_DOMAIN : bytes := bstr "PL2:bridge:withdraw:v1".
Definition WITHDRAW_ADDR_DOMAIN : bytes := bstr "PL2:bridge:withdraw-addr:v1".
Definition NATIVE_ASSET_ID : bytes := replicate 32 Byte.x00.
Definition POOL_TX_FEE : Z := LAMPORTS_PER_SIGNATURE.

Section Bridge.
Context `{B3 : Blake3} `{TX : SolanaTx} `{!Bincode PoolInstruction}.

Definition deposit_receipt_address (l1_signature : bytes) : Pubkey :=
  blake3_32 RECEIPT_DOMAIN l1_signature.

Definition withdrawal_pubkey (recipient : Pubkey) (nonce : Z) : Pubkey :=
  blake3_concat WITHDRAW_ADDR_DOMAIN [recipient; le_bytes 8 nonce].

Definition withdrawal_account_hash (recipient asset_id : bytes) (amount nonce : Z) : H256 :=
  blake3_concat WITHDRAW_DOMAIN [recipient; asset_id; le_bytes 8 amount; le_bytes 8 nonce].

(** [programs/zul-settlement/src/smt.rs]: the same hashes through [hashv]. *)
Definition l1_withdrawal_account_hash (recipient asset_id : bytes) (amount nonce : Z) : H256 :=
  blake3 (concat [WITHDRAW_DOMAIN; recipient; asset_id; le_bytes 8 amount; le_bytes 8 nonce]).

Definition l1_withdrawal_pubkey (recipient : bytes) (nonce : Z) : H256 :=
  blake3 (concat [WITHDRAW_ADDR_DOMAIN; recipient; le_bytes 8 nonce]).

Record WithdrawTx := {
  w_transaction : VersionedTransaction;
  w_fee_payer : Pubkey;
  w_recipient : bytes;
  w_asset_id : bytes;
  w_amount : Z;
  w_nonce : Z;
}.

Definition parse_withdraw (tx : VersionedTransaction) : option (Pubkey * bytes * bytes * Z * Z) :=
  match instructions tx with
  | [ix] =>
      let keys := static_account_keys tx in
      program ← keys !! Z.to_nat (program_id_index ix);
      if decide (program ≠ BRIDGE_WITHDRAW_PROGRAM_ID) then None
      else
        fee_payer ← head keys;
        let d := ix_data ix in
        recipient ← get_range 0 32 d;
        if decide (length d = 48%nat) then
          Some (fee_payer, recipient, NATIVE_ASSET_ID, le_val (slice 32 40 d), le_val (slice 40 48 d))
        else if decide (length d = 80%nat) then
          Some (fee_payer, recipient, slice 32 64 d, le_val (slice 64 72 d), le_val (slice 72 80 d))
        else None
  | _ => None
  end.

Definition partition_withdraw_step (acc : list WithdrawTx * list VersionedTransaction)
    (tx : VersionedTransaction) : list WithdrawTx * list VersionedTransaction :=
  match parse_withdraw tx with
  | Some (fee_payer, recipient, asset_id, amount, nonce) =>
      (acc.1 ++ [{| w_transaction := tx; w_fee_payer := fee_payer; w_recipient := recipient;
                    w_asset_id := asset_id; w_amount := amount; w_nonce := nonce |}], acc.2)
  | None => (acc.1, acc.2 ++ [tx])
  end.

Definition partition_withdraws (txs : list VersionedTransaction)
    : list WithdrawTx * list VersionedTransaction :=
  fold_left partition_withdraw_step txs ([], []).

Record PoolTx := {
  p_transaction : VersionedTransaction;
  p_fee_payer : Pubkey;
  p_instruction : PoolInstruction;
}.

Definition try_parse_pool_tx (tx : VersionedTransaction) : option (Pubkey * PoolInstruction) :=
  match instructions tx with
  | [ix] =>
      let keys := static_account_keys tx in
      program ← keys !! Z.to_nat (program_id_index ix);
      if decide (program ≠ POOL_PROGRAM_ID) then None
      else
        fee_payer ← head keys;
        instruction ← deserialize (ix_data ix);
        Some (fee_payer, instruction)
  | _ => None
  end.

Definition partition_step (acc : list PoolTx * list VersionedTransaction) (tx : VersionedTransaction)
    : list PoolTx * list VersionedTransaction :=
  match try_parse_pool_tx tx with
  | Some (fee_payer, instruction) =>
      (acc.1 ++ [{| p_transaction := tx; p_fee_payer := fee_payer; p_instruction := instruction |}], acc.2)
  | None => (acc.1, acc.2 ++ [tx])
  end.

Definition partition (txs : list VersionedTransaction) : list PoolTx * list VersionedTransaction :=
  fold_left partition_step txs ([], []).

Definition pool_meta (success : bool) (status_err : option bytes) (fee_paid pre post : Z)
    (logs : list bytes) : ExecutedTransactionMeta :=
  {| status := if success then inr () else inl (InstructionErrorCustom 0 1);
     fee := fee_paid;
     compute_units_consumed := 0;
     log_messages := match status_err with
                     | Some e => [bstr "Program log: pool rejected: " ++ e]
                     | None => logs
                     end;
     pre_balances := [pre];
     post_balances := [post] |}.

Definition lamports_in_writes (writes : list (Pubkey * option StoredAccount)) (key : Pubkey) : option Z :=
  w ← head (filter (λ w, w.1 = key) writes);
  Some (match w.2 with Some a => lamports a | None => 0 end).

(** ** Facts *)

(** The wire layouts of a withdrawal instruction. *)
Definition withdraw_data (recipient : bytes) (asset : option bytes) (amount nonce : Z) : bytes :=
  recipient ++ default [] asset ++ le_bytes 8 amount ++ le_bytes 8 nonce.

Lemma slice_tail (a b c : bytes) n m :
  length a = n → (n + length b)%nat = m → slice n m (a ++ b ++ c) = b.
Proof.
  intros Ha Hm. rewrite slice_app_r by lia. rewrite Ha, Nat.sub_diag, slice_app_l by lia.
  apply slice_full. lia.
Qed.

Lemma slice_tail_end (a b : bytes) n m :
  length a = n → (n + length b)%nat = m → slice n m (a ++ b) = b.
Proof. intros Ha Hm. rewrite <- (app_nil_r b) at 1. by apply slice_tail. Qed.

(** A single-instruction transaction to the withdraw program carrying
    either wire layout is parsed back to exactly the recipient, asset, amount
    and nonce it was built from, with the first key as payer. *)
Theorem parse_withdraw_roundtrip tx ix keys payer recipient asset amount nonce :
  instructions tx = [ix] → static_account_keys tx = payer :: keys →
  (payer :: keys) !! Z.to_nat (program_id_index ix) = Some BRIDGE_WITHDRAW_PROGRAM_ID →
  ix_data ix = withdraw_data recipient asset amount nonce →
  length recipient = 32%nat → match asset with Some a => length a = 32%nat | None => True end →
  u64 amount → u64 nonce →
  parse_withdraw tx = Some (payer, recipient, default NATIVE_ASSET_ID asset, amount, nonce).
Proof.
  intros Hix Hk Hprog Hd Hr Ha Hamt Hn. unfold parse_withdraw. rewrite Hix, Hk. cbv zeta.
  rewrite Hprog. cbn [mbind option_bind head]. rewrite decide_False by (intros Hc; by apply Hc).
  rewrite Hd. unfold withdraw_data.
  assert (Hrec : get_range 0 32 (recipient ++ default [] asset ++ le_bytes 8 amount ++ le_bytes 8 nonce)
                 = Some recipient).
  { unfold get_range. rewrite decide_True by (rewrite length_app; lia).
    rewrite slice_app_l by lia. f_equal. by apply slice_full. }
  rewrite Hrec. cbn [mbind option_bind].
  destruct asset as [a|]; cbn [default from_option id app]; rewrite !length_app, !length_le_bytes, Hr.
  - rewrite Ha, decide_False, decide_True by lia.
    rewrite (slice_tail recipient a) by lia.
    rewrite !app_assoc, <- (app_assoc (recipient ++ a)).
    rewrite (slice_tail (recipient ++ a) (le_bytes 8 amount)) by (rewrite ?length_app, ?length_le_bytes; lia).
    rewrite app_assoc.
    rewrite (slice_tail_end ((recipient ++ a) ++ le_bytes 8 amount))
      by (rewrite ?length_app, ?length_le_bytes; lia).
    by rewrite !le64_roundtrip.
  - rewrite decide_True by lia.
    rewrite (slice_tail recipient (le_bytes 8 amount)) by (rewrite ?length_le_bytes; lia).
    rewrite app_assoc, (slice_tail_end (recipient ++ le_bytes 8 amount))
      by (rewrite ?length_app, ?length_le_bytes; lia).
    by rewrite !le64_roundtrip.
Qed.

(** The node and the settlement program commit to a withdrawal alike. *)
Lemma withdrawal_hashes_agree recipient asset_id amount nonce :
  withdrawal_account_hash recipient asset_id amount nonce
  = l1_withdrawal_account_hash recipient asset_id amount nonce
  ∧ withdrawal_pubkey recipient nonce = l1_withdrawal_pubkey recipient nonce.
Proof. done. Qed.

Definition withdrawal_input (recipient asset_id : bytes) (amount nonce : Z) : bytes :=
  WITHDRAW_DOMAIN ++ recipient ++ asset_id ++ le_bytes 8 amount ++ le_bytes 8 nonce.

Lemma withdrawal_input_inj r a m n r' a' m' n' :
  length r = 32%nat → length r' = 32%nat → length a = 32%nat → length a' = 32%nat →
  u64 m → u64 m' → u64 n → u64 n' →
  withdrawal_input r a m n = withdrawal_input r' a' m' n' → r = r' ∧ a = a' ∧ m = m' ∧ n = n'.
Proof.
  intros Hr Hr' Ha Ha' Hm Hm' Hn Hn' H. unfold withdrawal_input in H. apply app_inv_head in H.
  apply app_inj_len in H as [-> H]; [|congruence]. apply app_inj_len in H as [-> H]; [|congruence].
  apply app_inj_len in H as [H1 H2]; [|by rewrite !length_le_bytes].
  apply le64_inj in H1; [|done|done]. apply le64_inj in H2; [|done|done]. done.
Qed.

Lemma withdrawal_account_hash_eq r a m n :
  withdrawal_account_hash r a m n = blake3 (withdrawal_input r a m n).
Proof.
  unfold withdrawal_account_hash, blake3_concat, withdrawal_input. cbn [concat]. by rewrite app_nil_r.
Qed.

(** The commitment binds who is paid what: two withdrawals with one account
    hash have the same recipient, asset, amount and nonce, or their hashed
    messages collide; and the settlement program computes the same hashes. *)
Theorem withdrawal_hash_binds r a m n r' a' m' n' :
  length r = 32%nat → length r' = 32%nat → length a = 32%nat → length a' = 32%nat →
  u64 m → u64 m' → u64 n → u64 n' →
  withdrawal_account_hash r a m n = l1_withdrawal_account_hash r' a' m' n' →
  (r = r' ∧ a = a' ∧ m = m' ∧ n = n')
  ∨ collision_in [withdrawal_input r a m n; withdrawal_input r' a' m' n'].
Proof.
  intros Hr Hr' Ha Ha' Hm Hm' Hn Hn' H.
  rewrite <- (proj1 (withdrawal_hashes_agree r' a' m' n')), !withdrawal_account_hash_eq in H.
  apply blake3_eq in H as [H|H]; [left|by right]. by apply withdrawal_input_inj.
Qed.

(** The types of a parsed withdrawal. *)
Definition withdraw_wf (w : WithdrawTx) : Prop :=
  length (w_recipient w) = 32%nat ∧ length (w_asset_id w) = 32%nat ∧ u64 (w_amount w) ∧ u64 (w_nonce w).

Lemma parse_withdraw_wf tx payer recipient asset amount nonce :
  parse_withdraw tx = Some (payer, recipient, asset, amount, nonce) →
  length recipient = 32%nat ∧ length asset = 32%nat ∧ u64 amount ∧ u64 nonce.
Proof.
  unfold parse_withdraw. destruct (instructions tx) as [|ix [|]]; try done.
  destruct (_ !! _) as [prog|]; [|done]. cbn [mbind option_bind]. case_decide; [done|].
  destruct (head _) as [fp|]; [|done]. cbn [mbind option_bind].
  destruct (get_range 0 32 (ix_data ix)) as [r|] eqn:Hr; [|done]. cbn [mbind option_bind].
  unfold get_range in Hr. case_decide; [|done]. injection Hr as <-.
  repeat case_decide; [| |done]; intros [= <- <- <- <- <-]; split_and!;
    try apply le_val_u64; rewrite ?length_slice; solve [reflexivity|lia].
Qed.

Lemma partition_withdraws_wf txs : Forall withdraw_wf (partition_withdraws txs).1.
Proof.
  unfold partition_withdraws. induction txs as [|tx txs IH] using rev_ind; [constructor|].
  rewrite fold_left_app. cbn [fold_left]. unfold partition_withdraw_step at 1.
  destruct (parse_withdraw tx) as [[[[[fp r] a] m] n]|] eqn:Hp; [|exact IH].
  apply list.Forall_app. split; [exact IH|]. apply Forall_singleton.
  by apply parse_withdraw_wf in Hp.
Qed.

(** Partitioning keeps every transaction exactly once, in order. *)
Lemma partition_withdraws_spec txs :
  (partition_withdraws txs).2 = filter (λ tx, parse_withdraw tx = None) txs
  ∧ w_transaction <$> (partition_withdraws txs).1 = filter (λ tx, parse_withdraw tx ≠ None) txs.
Proof.
  unfold partition_withdraws. induction txs as [|tx txs [IH1 IH2]] using rev_ind; [done|].
  rewrite fold_left_app, !list.filter_app, !filter_cons, !filter_nil. cbn [fold_left].
  unfold partition_withdraw_step at 1 3.
  destruct (parse_withdraw tx) as [[[[[? ?] ?] ?] ?]|]; cbn [fst snd];
    (destruct (decide (_ = None)); [|]); (destruct (decide (_ ≠ None)); [|]); try done;
    rewrite ?fmap_app, IH1, IH2, ?app_nil_r; done.
Qed.

Definition to_withdraw (tx : VersionedTransaction) : option WithdrawTx :=
  (λ '(fee_payer, recipient, asset_id, amount, nonce),
     {| w_transaction := tx; w_fee_payer := fee_payer; w_recipient := recipient;
        w_asset_id := asset_id; w_amount := amount; w_nonce := nonce |}) <$> parse_withdraw tx.

Lemma partition_withdraws_omap txs : (partition_withdraws txs).1 = omap to_withdraw txs.
Proof.
  unfold partition_withdraws. induction txs as [|tx txs IH] using rev_ind; [done|].
  rewrite fold_left_app, omap_app. cbn [fold_left omap list_omap].
  unfold partition_withdraw_step at 1, to_withdraw at 2.
  destruct (parse_withdraw tx) as [[[[[? ?] ?] ?] ?]|]; cbn [fst snd fmap option_fmap option_map];
    rewrite IH; [done|]. by rewrite app_nil_r.
Qed.

Lemma to_withdraw_transaction tx w : to_withdraw tx = Some w → w_transaction w = tx.
Proof.
  unfold to_withdraw. destruct (parse_withdraw tx) as [[[[[? ?] ?] ?] ?]|]; [|done]. by intros [= <-].
Qed.

Lemma to_withdraw_None tx : parse_withdraw tx = None → to_withdraw tx = None.
Proof. unfold to_withdraw. by intros ->. Qed.

(** Parsing a block's withdrawal transactions again gives the same list. *)
Lemma partition_withdraws_idem txs :
  (partition_withdraws (w_transaction <$> (partition_withdraws txs).1)).1 = (partition_withdraws txs).1.
Proof.
  rewrite !partition_withdraws_omap. induction txs as [|tx txs IH]; [done|].
  cbn [omap list_omap]. destruct (to_withdraw tx) as [w|] eqn:Hw; [|done].
  cbn [fmap list_fmap omap list_omap]. rewrite (to_withdraw_transaction _ _ Hw), Hw. f_equal. exact IH.
Qed.

Lemma partition_spec txs :
  (partition txs).2 = filter (λ tx, try_parse_pool_tx tx = None) txs
  ∧ p_transaction <$> (partition txs).1 = filter (λ tx, try_parse_pool_tx tx ≠ None) txs.
Proof.
  unfold partition. induction txs as [|tx txs [IH1 IH2]] using rev_ind; [done|].
  rewrite fold_left_app, !list.filter_app, !filter_cons, !filter_nil. cbn [fold_left].
  unfold partition_step at 1 3.
  destruct (try_parse_pool_tx tx) as [[? ?]|]; cbn [fst snd];
    (destruct (decide (_ = None)); [|]); (destruct (decide (_ ≠ None)); [|]); try done;
    rewrite ?fmap_app, IH1, IH2, ?app_nil_r; done.
Qed.

End Bridge.

Module Example.
#[local] Existing Instances Toy.blake3_toy Toy.solana_toy.

Definition pk (n : Z) : Pubkey := le_bytes 32 n.
Definition ix : CompiledInstruction :=
  {| program_id_index := 1; ix_accounts := [];
     ix_data := withdraw_data (pk 5) (Some (pk 6)) 1000 7 |}.
Definition tx : VersionedTransaction :=
  Toy.Build_tx [le_bytes 64 1] [pk 1; BRIDGE_WITHDRAW_PROGRAM_ID] [ix] ZERO_HASH true.

Lemma parse_withdraw_roundtrip_witness :
  parse_withdraw tx = Some (pk 1, pk 5, pk 6, 1000, 7).
Proof.
  refine (parse_withdraw_roundtrip tx ix [BRIDGE_WITHDRAW_PROGRAM_ID] (pk 1) (pk 5) (Some (pk 6)) 1000 7
            eq_refl eq_refl eq_refl eq_refl eq_refl eq_refl _ _); unfold u64, u64_max; lia.
Defined.

Lemma withdrawal_hash_binds_witness :
  (pk 1 = pk 1 ∧ pk 2 = pk 2 ∧ 3 = 3 ∧ 4 = 4)
  ∨ collision_in [withdrawal_input (pk 1) (pk 2) 3 4; withdrawal_input (pk 1) (pk 2) 3 4].
Proof.
  refine (withdrawal_hash_binds (pk 1) (pk 2) 3 4 (pk 1) (pk 2) 3 4
            eq_refl eq_refl eq_refl eq_refl _ _ _ _ eq_refl); unfold u64, u64_max; lia.
Defined.
End Example.
