(* ===== verification/Executor.v ===== *)
(** * Block execution over the SVM

    Models [chain/zul-executor/src]: the account callback with its per-block
    overlay, the sysvar accounts, the builtin registry, the reserved keys and
    [Executor::execute_block]. The SVM itself (sanitizing, budgets, running the
    batch) is third-party: an interface whose laws are the documented facts the
    executor relies on. *)

From S2P Require Import Prelude External Hash Smt Genesis Account Block Queue Store.

Inductive ExecutorError :=
| ExecStore (e : StoreError)
| Setup.

Inductive BlockRelation := Ancestor | Equal | Descendant.

(** [SequencerForkGraph::relationship] *)
Definition relationship (a b : Z) : BlockRelation :=
  match Z.compare a b with Lt => Ancestor | Eq => Equal | Gt => Descendant end.

(** ** The SVM *)

Record FeeDetails := {
  transaction_fee : Z;
  prioritization_fee : Z;
}.

Definition total_fee (f : FeeDetails) : Z := sat_add (transaction_fee f) (prioritization_fee f).

Inductive ProcessedTransaction :=
| FeesOnly (fees : FeeDetails) (rollback_accounts : list (Pubkey * AccountSharedData))
    (load_error : TransactionError)
| Executed (fees : FeeDetails) (accounts : list (Pubkey * AccountSharedData))
    (result : TransactionError + ()) (executed_units : Z) (logs : option (list bytes)).

Record ProcessingEnvironment := {
  env_slot : Z;
  env_epoch : Z;
  env_blockhash : H256;
  env_lamports_per_signature : Z;
}.

(** What the executor calls. A batch yields one result per transaction, and a
    sanitized transaction keeps its first signature. *)
Class Svm `{TX : SolanaTx} := {
  SanitizedTransaction : Type;
  BudgetLimits : Type;
  CheckedTransactionDetails : Type;
  try_create : gset Pubkey → VersionedTransaction → bytes → TransactionError + SanitizedTransaction;
  san_signature : SanitizedTransaction → Signature;
  account_keys : SanitizedTransaction → list Pubkey;
  is_writable : SanitizedTransaction → nat → bool;
  num_transaction_signatures : SanitizedTransaction → Z;
  num_ed25519_signatures : SanitizedTransaction → Z;
  num_secp256k1_signatures : SanitizedTransaction → Z;
  num_secp256r1_signatures : SanitizedTransaction → Z;
  process_compute_budget_instructions : SanitizedTransaction → TransactionError + BudgetLimits;
  get_prioritization_fee : BudgetLimits → Z;
  checked_details : BudgetLimits → FeeDetails → CheckedTransactionDetails;
  load_and_execute : (Pubkey → option AccountSharedData) → ProcessingEnvironment →
    list SanitizedTransaction → list CheckedTransactionDetails →
    list (TransactionError + ProcessedTransaction);
  try_create_signature : ∀ keys tx h s,
    try_create keys tx h = inr s → head (signatures tx) = Some (san_signature s);
  load_and_execute_length : ∀ view env batch checks,
    length checks = length batch → length (load_and_execute view env batch checks) = length batch;
}.

(** Identifiers of [solana_sdk_ids] and the sysvar crates, the values of the
    static sysvars, the entry points of the native programs, the preloaded
    program binaries, and whether the program runtime environment builds. *)
Class SdkIds := {
  bpf_loader : Pubkey; bpf_loader_deprecated : Pubkey; bpf_loader_upgradeable : Pubkey;
  loader_v4 : Pubkey; compute_budget : Pubkey; native_loader : Pubkey; stake : Pubkey;
  vote : Pubkey; config_id : Pubkey; address_lookup_table : Pubkey;
  ed25519_program : Pubkey; secp256k1_program : Pubkey; secp256r1_program : Pubkey;
  sysvar_id : Pubkey; clock_id : Pubkey; epoch_schedule_id : Pubkey; epoch_rewards_id : Pubkey;
  instructions_id : Pubkey; last_restart_slot_id : Pubkey; recent_blockhashes_id : Pubkey;
  rent_id : Pubkey; slot_hashes_id : Pubkey; slot_history_id : Pubkey; stake_history_id : Pubkey;
  EpochSchedule : Type; without_warmup : EpochSchedule; get_epoch : EpochSchedule → Z → Z;
  Rent : Type; rent_default : Rent;
  RecentEntry : Type; entry_default : RecentEntry;
  BuiltinFunction : Type;
  system_entrypoint : BuiltinFunction; loader_entrypoint : BuiltinFunction;
  loader_v4_entrypoint : BuiltinFunction; budget_entrypoint : BuiltinFunction;
  spl_programs : list (Pubkey * AccountSharedData);
  core_bpf_programs : list (Pubkey * AccountSharedData);
  runtime_environment_ok : bool;
}.

Record Clock := {
  clock_slot : Z;
  epoch_start_timestamp : Z;
  clock_epoch : Z;
  leader_schedule_epoch : Z;
  unix_timestamp : Z;
}.

(** ** Builtins and reserved keys *)

Section Builtins.
Context `{IDS : SdkIds}.

Record BuiltinSpec := {
  program_id : Pubkey;
  name : string;
  entrypoint : BuiltinFunction;
}.

Definition builtin_account (n : string) : AccountSharedData :=
  {| sh_lamports := 1; sh_data := bstr n; sh_owner := native_loader; sh_executable := true;
     sh_rent_epoch := RENT_EXEMPT_RENT_EPOCH |}.

Definition default_builtins : list BuiltinSpec :=
  [ {| program_id := system_program_id; name := "system_program"; entrypoint := system_entrypoint |};
    {| program_id := bpf_loader_upgradeable; name := "solana_bpf_loader_upgradeable_program";
       entrypoint := loader_entrypoint |};
    {| program_id := bpf_loader; name := "solana_bpf_loader_program"; entrypoint := loader_entrypoint |};
    {| program_id := loader_v4; name := "solana_loader_v4_program"; entrypoint := loader_v4_entrypoint |};
    {| program_id := compute_budget; name := "compute_budget_program"; entrypoint := budget_entrypoint |} ].

Definition reserved_account_keys : gset Pubkey :=
  list_to_set
    [ system_program_id; bpf_loader; bpf_loader_deprecated; bpf_loader_upgradeable; loader_v4;
      compute_budget; native_loader; stake; vote; config_id; address_lookup_table;
      ed25519_program; secp256k1_program; secp256r1_program;
      sysvar_id; clock_id; epoch_schedule_id; epoch_rewards_id; instructions_id;
      last_restart_slot_id; recent_blockhashes_id; rent_id; slot_hashes_id; slot_history_id;
      stake_history_id ].

End Builtins.

(** ** Sysvars *)

Section Sysvars.
Context `{IDS : SdkIds} `{!Bincode Clock}.

Definition sysvar_account {A} `{!Bincode A} (value : A) : AccountSharedData :=
  {| sh_lamports := 1; sh_data := serialize value; sh_owner := sysvar_id; sh_executable := false;
     sh_rent_epoch := RENT_EXEMPT_RENT_EPOCH |}.

Definition epoch_schedule : EpochSchedule := without_warmup.

Definition epoch_for_slot (sl : Z) : Z := get_epoch epoch_schedule sl.

(** [ms / 1000] of a u64 fits an i64, so the cast keeps it. *)
Definition clock_account (sl timestamp : Z) : Pubkey * AccountSharedData :=
  let epoch := get_epoch epoch_schedule sl in
  (clock_id,
   sysvar_account {| clock_slot := sl; epoch_start_timestamp := timestamp / 1000;
                     clock_epoch := epoch; leader_schedule_epoch := epoch;
                     unix_timestamp := timestamp / 1000 |}).

Definition static_sysvar_accounts `{!Bincode Rent} `{!Bincode EpochSchedule}
    `{!Bincode (list RecentEntry)} : list (Pubkey * AccountSharedData) :=
  [ (rent_id, sysvar_account rent_default);
    (epoch_schedule_id, sysvar_account epoch_schedule);
    (recent_blockhashes_id, sysvar_account [entry_default]) ].

End Sysvars.

(** ** The account callback *)

Section Executor.
Context `{TX : SolanaTx} `{SVM : !Svm} `{IDS : SdkIds}.
Context `{!Bincode Clock} `{!Bincode StoredAccount} `{!Bincode Block} `{!Bincode TxLocator}.
Context `{!Bincode ExecutedTransactionMeta}.
Context `{!Bincode Rent} `{!Bincode EpochSchedule} `{!Bincode (list RecentEntry)}.

Record StoreCallback := {
  cb_store : Store;
  cb_overlay : gmap Pubkey AccountSharedData;
}.

Definition new_callback (st : Store) : StoreCallback := {| cb_store := st; cb_overlay := ∅ |}.

Definition set_account (cb : StoreCallback) (key : Pubkey) (a : AccountSharedData) : StoreCallback :=
  {| cb_store := cb_store cb; cb_overlay := <[key := a]> (cb_overlay cb) |}.

Definition cb_get (cb : StoreCallback) (key : Pubkey) : option AccountSharedData :=
  match cb_overlay cb !! key with
  | Some a => Some a
  | None => to_shared <$> get_account_ok (cb_store cb) key
  end.

Definition cb_lamports (cb : StoreCallback) (key : Pubkey) : Z :=
  default 0 (sh_lamports <$> cb_get cb key).

(** Zero-lamport accounts become deletions. *)
Definition shared_write (a : AccountSharedData) : option StoredAccount :=
  if decide (sh_lamports a = 0) then None else Some (from_shared a).

Definition take_overlay_writes (cb : StoreCallback)
    : list (Pubkey * option StoredAccount) * StoreCallback :=
  (prod_map id shared_write <$> map_to_list (cb_overlay cb),
   {| cb_store := cb_store cb; cb_overlay := ∅ |}).

(** ** The executor *)

(** The batch processor and feature sets are the SVM's. *)
Record Executor := {
  ex_fee_collector : Pubkey;
  builtin_specs : list BuiltinSpec;
  reserved_keys : gset Pubkey;
}.

Definition new_executor (collector : Pubkey) (extra_builtins : list BuiltinSpec)
    : outcome ExecutorError Executor :=
  if runtime_environment_ok then
    Ok {| ex_fee_collector := collector; builtin_specs := default_builtins ++ extra_builtins;
          reserved_keys := reserved_account_keys |}
  else Err Setup.

Definition genesis_accounts (ex : Executor) : list (Pubkey * StoredAccount) :=
  ((λ spec, (program_id spec, from_shared (builtin_account (name spec)))) <$> builtin_specs ex)
  ++ (prod_map id from_shared <$> static_sysvar_accounts)
  ++ (prod_map id from_shared <$> spl_programs)
  ++ (prod_map id from_shared <$> core_bpf_programs).

Record BlockExecutionInput := {
  in_slot : Z;
  in_timestamp_ms : Z;
  parent_blockhash : H256;
  in_transactions : list VersionedTransaction;
  in_queue : BlockhashQueue;
}.

Record BlockExecutionOutput := {
  included : list (VersionedTransaction * ExecutedTransactionMeta);
  dropped : list (Signature * TransactionError);
  out_account_writes : list (Pubkey * option StoredAccount);
  fees_collected : Z;
}.

(** The transactions that passed the checks: the parallel vectors
    [sanitized_batch], [check_results] and [originals] as rows. *)
Record Prepared := {
  pre_dropped : list (Signature * TransactionError);
  rows : list (SanitizedTransaction * CheckedTransactionDetails * VersionedTransaction);
  seen_signatures : gset Signature;
}.

Definition signature_count (s : SanitizedTransaction) : Z :=
  sat_add (sat_add (sat_add (num_transaction_signatures s) (num_ed25519_signatures s))
             (num_secp256k1_signatures s)) (num_secp256r1_signatures s).

Definition drop_tx (p : Prepared) (sig : Signature) (e : TransactionError) : Prepared :=
  {| pre_dropped := pre_dropped p ++ [(sig, e)]; rows := rows p; seen_signatures := seen_signatures p |}.

(** The checks after the replay check: signature, recency, sanitizing, budget. *)
Definition check_tx (ex : Executor) (queue : BlockhashQueue) (tx : VersionedTransaction)
    : TransactionError + (SanitizedTransaction * CheckedTransactionDetails) :=
  match verify_and_hash_message tx with
  | None => inl SignatureFailure
  | Some message_hash =>
      if negb (is_valid queue (recent_blockhash tx)) then inl BlockhashNotFound
      else match try_create (reserved_keys ex) tx message_hash with
           | inl e => inl e
           | inr sanitized =>
               match process_compute_budget_instructions sanitized with
               | inl e => inl e
               | inr limits =>
                   let fees := {| transaction_fee := sat_mul (signature_count sanitized) LAMPORTS_PER_SIGNATURE;
                                  prioritization_fee := get_prioritization_fee limits |} in
                   inr (sanitized, checked_details limits fees)
               end
           end
  end.

(** One iteration of the sanitize, verify and budget loop. *)
Definition prepare_tx (ex : Executor) (st : Store) (queue : BlockhashQueue) (p : Prepared)
    (tx : VersionedTransaction) : outcome ExecutorError Prepared :=
  match head (signatures tx) with
  | None => Ok p
  | Some sig =>
      if decide (sig ∈ seen_signatures p) then Ok (drop_tx p sig AlreadyProcessed)
      else
        let p := {| pre_dropped := pre_dropped p; rows := rows p;
                    seen_signatures := {[sig]} ∪ seen_signatures p |} in
        let? found := map_err ExecStore (get_transaction st sig) in
        match found with
        | Some _ => Ok (drop_tx p sig AlreadyProcessed)
        | None =>
            match check_tx ex queue tx with
            | inl e => Ok (drop_tx p sig e)
            | inr (sanitized, checks) =>
                Ok {| pre_dropped := pre_dropped p; rows := rows p ++ [(sanitized, checks, tx)];
                      seen_signatures := seen_signatures p |}
            end
        end
  end.

Definition prepare (ex : Executor) (st : Store) (queue : BlockhashQueue)
    (txs : list VersionedTransaction) : outcome ExecutorError Prepared :=
  ofold (prepare_tx ex st queue) {| pre_dropped := []; rows := []; seen_signatures := ∅ |} txs.

(** The running results of the collecting loop. *)
Record Collected := {
  final_accounts : gmap Pubkey AccountSharedData;
  c_included : list (VersionedTransaction * ExecutedTransactionMeta);
  c_dropped : list (Signature * TransactionError);
  c_fees : Z;
}.

Definition lamports_of (cb : StoreCallback) (final : gmap Pubkey AccountSharedData) (key : Pubkey) : Z :=
  match final !! key with Some a => sh_lamports a | None => cb_lamports cb key end.

(** The account states a processed transaction leaves: all rollback accounts,
    or the writable ones of an executed transaction. *)
Definition written_accounts (s : SanitizedTransaction) (r : ProcessedTransaction)
    : list (Pubkey * AccountSharedData) :=
  match r with
  | FeesOnly _ rollback _ => rollback
  | Executed _ accounts _ _ _ =>
      snd <$> filter (λ ia, is_writable s ia.1 = true) (enumerate accounts)
  end.

Definition processed_fees (r : ProcessedTransaction) : FeeDetails :=
  match r with FeesOnly f _ _ => f | Executed f _ _ _ _ => f end.

Definition insert_all (ws : list (Pubkey * AccountSharedData)) (final : gmap Pubkey AccountSharedData)
    : gmap Pubkey AccountSharedData := insert_entries id ws final.

Definition processed_meta (r : ProcessedTransaction) (pre post : list Z) : ExecutedTransactionMeta :=
  match r with
  | FeesOnly f _ load_error =>
      {| status := inl load_error; fee := total_fee f; compute_units_consumed := 0;
         log_messages := []; pre_balances := pre; post_balances := post |}
  | Executed f _ result units logs =>
      {| status := result; fee := total_fee f; compute_units_consumed := units;
         log_messages := default [] logs; pre_balances := pre; post_balances := post |}
  end.

Definition collect_one (cb : StoreCallback) (c : Collected)
    (row : (TransactionError + ProcessedTransaction) *
           (SanitizedTransaction * CheckedTransactionDetails * VersionedTransaction)) : Collected :=
  let '(result, (sanitized, _, original)) := row in
  let balances final := lamports_of cb final <$> account_keys sanitized in
  match result with
  | inl e =>
      {| final_accounts := final_accounts c; c_included := c_included c;
         c_dropped := c_dropped c ++ [(san_signature sanitized, e)]; c_fees := c_fees c |}
  | inr r =>
      let final := insert_all (written_accounts sanitized r) (final_accounts c) in
      let meta := processed_meta r (balances (final_accounts c)) (balances final) in
      {| final_accounts := final; c_included := c_included c ++ [(original, meta)];
         c_dropped := c_dropped c; c_fees := sat_add (c_fees c) (total_fee (processed_fees r)) |}
  end.

Definition credit_collector (ex : Executor) (cb : StoreCallback) (final : gmap Pubkey AccountSharedData)
    (fees : Z) : gmap Pubkey AccountSharedData :=
  if decide (0 < fees) then
    let collector :=
      match final !! ex_fee_collector ex with
      | Some a => a
      | None => default (to_shared (new_system 0)) (cb_get cb (ex_fee_collector ex))
      end in
    <[ex_fee_collector ex :=
        {| sh_lamports := sat_add (sh_lamports collector) fees; sh_data := sh_data collector;
           sh_owner := sh_owner collector; sh_executable := sh_executable collector;
           sh_rent_epoch := sh_rent_epoch collector |}]> final
  else final.

Definition merge_writes (cb : StoreCallback) (final : gmap Pubkey AccountSharedData)
    : gmap Pubkey (option StoredAccount) :=
  insert_entries shared_write (map_to_list final) (insert_entries id (take_overlay_writes cb).1 ∅).

Definition block_callback (st : Store) (input : BlockExecutionInput) : StoreCallback :=
  let clock := clock_account (in_slot input) (in_timestamp_ms input) in
  set_account (new_callback st) clock.1 clock.2.

Definition block_results (cb : StoreCallback) (input : BlockExecutionInput) (p : Prepared)
    : list (TransactionError + ProcessedTransaction) :=
  load_and_execute (cb_get cb)
    {| env_slot := in_slot input; env_epoch := epoch_for_slot (in_slot input);
       env_blockhash := parent_blockhash input; env_lamports_per_signature := LAMPORTS_PER_SIGNATURE |}
    (rows p).*1.*1 (rows p).*1.*2.

Definition collect (cb : StoreCallback) (p : Prepared)
    (results : list (TransactionError + ProcessedTransaction)) : Collected :=
  fold_left (collect_one cb) (zip results (rows p))
    {| final_accounts := ∅; c_included := []; c_dropped := pre_dropped p; c_fees := 0 |}.

Definition execute_block (ex : Executor) (st : Store) (input : BlockExecutionInput)
    : outcome ExecutorError BlockExecutionOutput :=
  let cb := block_callback st input in
  let? p := prepare ex st (in_queue input) (in_transactions input) in
  let c := collect cb p (block_results cb input p) in
  let final := credit_collector ex cb (final_accounts c) (c_fees c) in
  Ok {| included := c_included c; dropped := c_dropped c;
        out_account_writes := map_to_list (merge_writes cb final);
        fees_collected := c_fees c |}.

(** ** What a block includes and drops *)

Definition tx_signature (tx : VersionedTransaction) : option Signature := head (signatures tx).

Abbreviation row_type := (SanitizedTransaction * CheckedTransactionDetails * VersionedTransaction)%type.

(** A row passed every check before execution. *)
Definition row_ok (ex : Executor) (st : Store) (queue : BlockhashQueue) (row : row_type) : Prop :=
  tx_signature row.2 = Some (san_signature row.1.1)
  ∧ get_transaction st (san_signature row.1.1) = Ok None
  ∧ check_tx ex queue row.2 = inr row.1.

Record prepared_inv (ex : Executor) (st : Store) (queue : BlockhashQueue)
    (txs : list VersionedTransaction) (p : Prepared) : Prop := {
  pi_sublist : (rows p).*2 `sublist_of` txs;
  pi_rows : Forall (row_ok ex st queue) (rows p);
  pi_nodup : NoDup ((λ row : row_type, san_signature row.1.1) <$> rows p);
  pi_seen : ∀ row, row ∈ rows p → san_signature row.1.1 ∈ seen_signatures p;
  pi_perm : omap tx_signature txs
            ≡ₚ ((λ row : row_type, san_signature row.1.1) <$> rows p) ++ (pre_dropped p).*1;
}.

Lemma check_tx_inr ex queue tx row :
  check_tx ex queue tx = inr row →
  is_Some (verify_and_hash_message tx) ∧ is_valid queue (recent_blockhash tx) = true
  ∧ tx_signature tx = Some (san_signature row.1).
Proof.
  unfold check_tx. destruct (verify_and_hash_message tx) as [h|]; [|done].
  destruct (is_valid queue (recent_blockhash tx)); cbn [negb]; [|done].
  destruct (try_create _ _ _) as [|s] eqn:Hs; [done|].
  destruct (process_compute_budget_instructions s); [done|]. intros [= <-].
  split_and!; [by eexists|done|by eapply try_create_signature].
Qed.

Lemma drop_tx_inv ex st queue txs p tx sig e seen :
  prepared_inv ex st queue txs p → tx_signature tx = Some sig → seen_signatures p ⊆ seen →
  prepared_inv ex st queue (txs ++ [tx])
    (drop_tx {| pre_dropped := pre_dropped p; rows := rows p; seen_signatures := seen |} sig e).
Proof.
  intros [Hs Hr Hn Hseen Hp] Hsig Hsub. split; cbn [drop_tx rows pre_dropped seen_signatures].
  - by apply sublist_inserts_r.
  - done.
  - done.
  - intros row Hrow. by apply Hsub, Hseen.
  - rewrite omap_app. cbn [omap list_omap]. rewrite Hsig, Hp, fmap_app. cbn. by rewrite <- app_assoc.
Qed.

Lemma prepare_tx_inv ex st queue txs p tx p' :
  prepared_inv ex st queue txs p → prepare_tx ex st queue p tx = Ok p' →
  prepared_inv ex st queue (txs ++ [tx]) p'.
Proof.
  intros Hi. unfold prepare_tx. destruct (head (signatures tx)) as [sig|] eqn:Hsig.
  2: { intros [= <-]. destruct Hi as [Hs Hr Hn Hseen Hp]. split; try done; [by apply sublist_inserts_r|].
       rewrite omap_app. cbn [omap list_omap]. unfold tx_signature at 2. by rewrite Hsig, app_nil_r. }
  destruct (decide (sig ∈ seen_signatures p)) as [|Hfresh].
  { intros [= <-]. destruct p as [d r sn]. by eapply (drop_tx_inv _ _ _ _ {| pre_dropped := d |}). }
  cbn zeta. intros (found & Hg & H)%obind_Ok.
  destruct (get_transaction st sig) as [found'|?|] eqn:Hget; cbn in Hg; [|done|done].
  injection Hg as ->. destruct found as [f|].
  { injection H as <-. apply drop_tx_inv; [done|done|set_solver]. }
  destruct (check_tx ex queue tx) as [e|[s ck]] eqn:Hck; injection H as <-.
  { apply drop_tx_inv; [done|done|set_solver]. }
  pose proof (check_tx_inr _ _ _ _ Hck) as (_ & _ & Hss). cbn in Hss.
  assert (san_signature s = sig) as Hseq by (unfold tx_signature in Hss; congruence).
  destruct Hi as [Hs Hr Hn Hseen Hp]. split; cbn [rows pre_dropped seen_signatures].
  - rewrite fmap_app. by apply sublist_app.
  - apply list.Forall_app. split; [done|]. apply Forall_singleton. split_and!; cbn; congruence.
  - rewrite fmap_app. apply list.NoDup_app. split_and!; [done| |apply NoDup_singleton].
    intros x (row & -> & Hrow)%list_elem_of_fmap Hx. apply list_elem_of_singleton in Hx. cbn in Hx.
    apply Hfresh. rewrite <- Hseq, <- Hx. by apply Hseen.
  - intros row [Hrow|Hrow]%elem_of_app; [apply Hseen in Hrow; set_solver|].
    apply list_elem_of_singleton in Hrow as ->. cbn. set_solver.
  - rewrite omap_app, Hp, fmap_app. cbn [omap list_omap fmap list_fmap fst snd].
    unfold tx_signature. rewrite Hsig, Hseq, <- !app_assoc. f_equiv. apply Permutation_app_comm.
Qed.

Lemma prepare_inv ex st queue txs : ∀ done p p',
  prepared_inv ex st queue done p → ofold (prepare_tx ex st queue) p txs = Ok p' →
  prepared_inv ex st queue (done ++ txs) p'.
Proof.
  induction txs as [|tx txs IH]; intros dn p p' Hi H; cbn [ofold] in H.
  - injection H as <-. by rewrite app_nil_r.
  - apply obind_Ok in H as (q & Hq & H). rewrite cons_middle, app_assoc.
    eapply IH; [|done]. by eapply prepare_tx_inv.
Qed.

Lemma prepare_spec ex st queue txs p :
  prepare ex st queue txs = Ok p → prepared_inv ex st queue txs p.
Proof.
  intros H. apply (prepare_inv ex st queue txs [] _ p) in H; [done|].
  split; cbn; [constructor|constructor|constructor|set_solver|done].
Qed.

(** The collecting loop keeps the order of the rows and loses none. *)
Lemma collect_spec ex st queue cb rs : ∀ results c,
  Forall (row_ok ex st queue) rs → length results = length rs →
  let c' := fold_left (collect_one cb) (zip results rs) c in
  (∃ new, c_included c' = c_included c ++ new ∧ new.*1 `sublist_of` rs.*2)
  ∧ (tx_signature <$> (c_included c').*1) ++ (Some <$> (c_dropped c').*1)
    ≡ₚ ((tx_signature <$> (c_included c).*1) ++ (Some <$> (c_dropped c).*1))
       ++ ((λ row : row_type, Some (san_signature row.1.1)) <$> rs).
Proof.
  induction rs as [|row rs IH]; intros [|result results] c Hok Hlen; try done; cbn [zip_with fold_left].
  { cbv zeta. split; [exists []; rewrite app_nil_r; done|]. by rewrite app_nil_r. }
  apply list.Forall_cons in Hok as [(Hsig & _ & _) Hok]. cbv zeta.
  destruct (IH results (collect_one cb c (result, row)) Hok ltac:(cbn in Hlen; lia)) as ((new & Hinc & Hsub) & Hp).
  destruct row as [[s ck] tx]. cbn in Hsig. destruct result as [e|r].
  - split; [exists new; split; [exact Hinc|by constructor]|].
    rewrite Hp. cbn [collect_one c_included c_dropped fmap list_fmap fst snd].
    rewrite !fmap_app. cbn [fmap list_fmap fst snd]. by rewrite <- !app_assoc.
  - split.
    + eexists. split; [rewrite Hinc; cbn [collect_one c_included]; by rewrite <- app_assoc|].
      cbn [app fmap list_fmap fst snd]. by constructor.
    + rewrite Hp. cbn [collect_one c_included c_dropped fmap list_fmap fst snd].
      rewrite !fmap_app. cbn [fmap list_fmap fst snd]. rewrite Hsig.
      rewrite <- !app_assoc. apply Permutation_app_head. cbn [app]. apply Permutation_middle.
Qed.

(** Execution fails only where the store does. *)
Lemma execute_total ex st input :
  (∀ sig, ∃ found, get_transaction st sig = Ok found) → ∃ out, execute_block ex st input = Ok out.
Proof.
  intros Hst. unfold execute_block, prepare.
  destruct (ofold_total (prepare_tx ex st (in_queue input)) (in_transactions input)) with
    (a := {| pre_dropped := []; rows := []; seen_signatures := ∅ |}) as [p Hp].
  - intros p tx _. unfold prepare_tx. destruct (head (signatures tx)) as [sig|]; [|by eexists].
    case_decide; [by eexists|]. destruct (Hst sig) as [found ->]. cbn [map_err obind].
    destruct found; [by eexists|]. destruct (check_tx _ _ _) as [|[? ?]]; by eexists.
  - rewrite Hp. by eexists.
Qed.

(** A block of one transaction that passes the checks and runs. *)
Lemma execute_single ex st input tx sig s ck r :
  let cb := block_callback st input in
  in_transactions input = [tx] → tx_signature tx = Some sig → get_transaction st sig = Ok None →
  check_tx ex (in_queue input) tx = inr (s, ck) →
  block_results cb input {| pre_dropped := []; rows := [(s, ck, tx)]; seen_signatures := ∅ |} = [inr r] →
  ∃ out, execute_block ex st input = Ok out ∧ (included out).*1 = [tx]
    ∧ out_account_writes out
      = map_to_list (merge_writes cb (credit_collector ex cb (insert_all (written_accounts s r) ∅)
                                        (sat_add 0 (total_fee (processed_fees r))))).
Proof.
  intros cb Hin Hsig Hnone Hck Hres. unfold execute_block, prepare. rewrite Hin. cbn [ofold]. unfold prepare_tx.
  unfold tx_signature in Hsig. rewrite Hsig. cbn [seen_signatures]. rewrite decide_False by apply not_elem_of_empty.
  cbv zeta. rewrite Hnone. cbn [map_err obind]. rewrite Hck. cbn [obind pre_dropped rows app].
  eexists. split; [done|]. fold cb. unfold block_results in *. cbn [rows] in *. rewrite Hres. done.
Qed.

(** What an executed transaction leaves in an account it may write. *)
Lemma written_lookup s fees accounts result units logs i k a :
  NoDup accounts.*1 → accounts !! i = Some (k, a) → is_writable s i = true →
  insert_all (written_accounts s (Executed fees accounts result units logs)) ∅ !! k = Some a.
Proof.
  intros Hnd Hi Hw. unfold insert_all. cbn [written_accounts].
  assert (Hsub : (filter (λ ia : nat * (Pubkey * AccountSharedData), is_writable s ia.1 = true) (enumerate accounts)).*2
                 `sublist_of` accounts).
  { assert (He : (enumerate accounts).*2 = accounts).
    { unfold enumerate. rewrite fmap_imap. apply list_eq. intros j. rewrite list_lookup_imap. by destruct (accounts !! j). }
    rewrite <- He at 2. apply fmap_sublist, sublist_filter. }
  rewrite insert_entries_lookup.
  - rewrite (elem_of_list_to_map_1 _ k a); [done| |].
    + eapply sublist_NoDup; [exact Hnd|by apply fmap_sublist].
    + apply list_elem_of_fmap. exists (i, (k, a)). split; [done|]. apply list_elem_of_filter. split; [done|].
      unfold enumerate. apply elem_of_lookup_imap. by exists i, (k, a).
  - eapply sublist_NoDup; [exact Hnd|by apply fmap_sublist].
Qed.

(** The fees go to the collector's account only. *)
Lemma credit_other ex cb final fees k :
  k ≠ ex_fee_collector ex → credit_collector ex cb final fees !! k = final !! k.
Proof. intros Hk. unfold credit_collector. case_decide; [by apply lookup_insert_ne|done]. Qed.

Lemma merge_final cb final k a :
  final !! k = Some a → merge_writes cb final !! k = Some (shared_write a).
Proof. intros Hf. unfold merge_writes. by rewrite insert_entries_map, Hf. Qed.

Lemma execute_partition ex st input out :
  execute_block ex st input = Ok out →
  (included out).*1 `sublist_of` in_transactions input
  ∧ Forall (λ tx, is_Some (verify_and_hash_message tx)
                  ∧ is_valid (in_queue input) (recent_blockhash tx) = true
                  ∧ ∃ sig, tx_signature tx = Some sig ∧ get_transaction st sig = Ok None)
      (included out).*1
  ∧ NoDup (tx_signature <$> (included out).*1)
  ∧ Some <$> omap tx_signature (in_transactions input)
    ≡ₚ (tx_signature <$> (included out).*1) ++ (Some <$> (dropped out).*1).
Proof.
  unfold execute_block. intros (p & Hp & H)%obind_Ok. injection H as <-.
  cbn [included dropped]. apply prepare_spec in Hp as [Hs Hr Hn _ Hperm].
  unfold collect. set (cb := block_callback st input). set (results := block_results cb input p).
  assert (Hlen : length results = length (rows p)).
  { unfold results, block_results. rewrite load_and_execute_length; by rewrite !length_fmap. }
  destruct (collect_spec ex st (in_queue input) cb (rows p) results
    {| final_accounts := ∅; c_included := []; c_dropped := pre_dropped p; c_fees := 0 |} Hr Hlen)
    as ((new & -> & Hsub) & Hc). cbn [c_included app c_dropped] in *.
  assert (Hrow : ∀ tx, tx ∈ new.*1 → ∃ row, row ∈ rows p ∧ tx = row.2).
  { intros tx Hin. apply (sublist_subseteq _ _ Hsub) in Hin as (row & -> & Hrow)%list_elem_of_fmap.
    eauto. }
  split_and!.
  - by etrans.
  - apply list.Forall_forall. intros tx (row & Hin & ->)%Hrow.
    rewrite list.Forall_forall in Hr. destruct (Hr _ Hin) as (Hsig & Hget & Hck).
    apply check_tx_inr in Hck as (Hv & Hq & _). split_and!; [done|done|]. eauto.
  - apply (sublist_NoDup _ (tx_signature <$> (rows p).*2)); [|by apply fmap_sublist].
    rewrite <- list_fmap_compose.
    rewrite (Forall_fmap_ext_1 _ (Some ∘ (λ row : row_type, san_signature row.1.1)));
      [rewrite list_fmap_compose; apply NoDup_fmap_2; [apply _|done]|].
    eapply list.Forall_impl; [exact Hr|]. intros row (Hsig & _ & _). exact Hsig.
  - rewrite Hperm, fmap_app, <- list_fmap_compose. rewrite Hc. apply Permutation_app_comm.
Qed.

(** A block includes a subsequence of the transactions it was given, each
    with a verified signature, a recent blockhash and a first signature never
    committed before, no two alike; and every signed transaction is accounted
    for exactly once, either included or reported as dropped. *)
Theorem execute_block_partition ex st input out :
  execute_block ex st input = Ok out →
  (included out).*1 `sublist_of` in_transactions input
  ∧ Forall (λ tx, is_Some (verify_and_hash_message tx)
                  ∧ is_valid (in_queue input) (recent_blockhash tx) = true
                  ∧ ∃ sig, tx_signature tx = Some sig ∧ get_transaction st sig = Ok None)
      (included out).*1
  ∧ NoDup (tx_signature <$> (included out).*1)
  ∧ Some <$> omap tx_signature (in_transactions input)
    ≡ₚ (tx_signature <$> (included out).*1) ++ (Some <$> (dropped out).*1).
Proof. apply execute_partition. Qed.

(** ** Lamports *)

(** An account's lamports once the block's writes are committed. *)
Definition lamports_after (st : Store) (writes : list (Pubkey * option StoredAccount)) (k : Pubkey) : Z :=
  match (list_to_map writes : gmap Pubkey (option StoredAccount)) !! k with
  | Some w => default 0 (lamports <$> w)
  | None => default 0 (lamports <$> get_account_ok st k)
  end.

(** Each processed transaction leaves the accounts' lamports short of exactly
    its fee, and no balance is negative: the SVM moves lamports and debits the
    fee, and credits it to nobody. *)
Fixpoint balanced (keys : list Pubkey) (cb : StoreCallback) (final : gmap Pubkey AccountSharedData)
    (rs : list ((TransactionError + ProcessedTransaction) * row_type)) : Prop :=
  match rs with
  | [] => True
  | (inl _, _) :: rs => balanced keys cb final rs
  | (inr r, row) :: rs =>
      let final' := insert_all (written_accounts row.1.1 r) final in
      (0 ≤ total_fee (processed_fees r) ∧ (∀ k, 0 ≤ lamports_of cb final' k)
       ∧ total keys (lamports_of cb final') + total_fee (processed_fees r)
         = total keys (lamports_of cb final))
      ∧ balanced keys cb final' rs
  end.

Definition meta_fees (l : list (VersionedTransaction * ExecutedTransactionMeta)) : Z :=
  foldr (λ x acc, fee x.2 + acc) 0 l.

Lemma meta_fees_app l l' : meta_fees (l ++ l') = meta_fees l + meta_fees l'.
Proof. induction l as [|x l IH]; [done|]. unfold meta_fees in *. cbn [app foldr]. lia. Qed.

Lemma processed_meta_fee r pre post : fee (processed_meta r pre post) = total_fee (processed_fees r).
Proof. by destruct r. Qed.

Lemma collect_balanced keys cb rs : ∀ c,
  balanced keys cb (final_accounts c) rs → (∀ k, 0 ≤ lamports_of cb (final_accounts c) k) →
  0 ≤ c_fees c → c_fees c = meta_fees (c_included c) →
  total keys (lamports_of cb (final_accounts c)) + c_fees c ≤ u64_max →
  let c' := fold_left (collect_one cb) rs c in
  total keys (lamports_of cb (final_accounts c')) + c_fees c'
    = total keys (lamports_of cb (final_accounts c)) + c_fees c
  ∧ (∀ k, 0 ≤ lamports_of cb (final_accounts c') k) ∧ 0 ≤ c_fees c'
  ∧ c_fees c' = meta_fees (c_included c').
Proof.
  induction rs as [|[[e|r] [[s ck] tx]] rs IH]; intros c Hb Hn Hf Hm Hle; cbn [fold_left]; [done| |].
  - apply (IH (collect_one cb c (inl e, (s, ck, tx)))); done.
  - destruct Hb as [(Hfee & Hn' & Ht) Hb]. cbn [fst snd] in *.
    set (c1 := collect_one cb c (inr r, (s, ck, tx))).
    pose proof (total_nonneg keys _ (λ k _, Hn' k)) as Htn.
    assert (Hc1 : c_fees c1 = c_fees c + total_fee (processed_fees r)).
    { cbn [c1 collect_one c_fees]. apply sat_add_exact. lia. }
    destruct (IH c1) as (H1 & H2 & H3 & H4); [done|done|lia| | |].
    + rewrite Hc1. cbn [c1 collect_one c_included]. rewrite meta_fees_app, Hm. cbn [meta_fees foldr snd].
      rewrite processed_meta_fee. lia.
    + rewrite Hc1. cbn [c1 collect_one final_accounts]. lia.
    + split_and!; [|done|done|done]. rewrite H1, Hc1. cbn [c1 collect_one final_accounts]. lia.
Qed.

Lemma credit_lamports ex cb final fees k :
  0 ≤ fees → lamports_of cb final (ex_fee_collector ex) + fees ≤ u64_max →
  lamports_of cb (credit_collector ex cb final fees) k
  = lamports_of cb final k + (if decide (k = ex_fee_collector ex) then fees else 0).
Proof.
  intros Hf Hle. unfold credit_collector. destruct (decide (0 < fees)) as [Hp|Hp].
  2: { case_decide; lia. }
  destruct (decide (k = ex_fee_collector ex)) as [->|Hne].
  - unfold lamports_of at 1. rewrite lookup_insert_eq. cbn [sh_lamports].
    assert (Hl : sh_lamports (match final !! ex_fee_collector ex with
                              | Some a => a
                              | None => default (to_shared (new_system 0)) (cb_get cb (ex_fee_collector ex))
                              end) = lamports_of cb final (ex_fee_collector ex)).
    { unfold lamports_of, cb_lamports. destruct (final !! ex_fee_collector ex); [done|].
      by destruct (cb_get cb (ex_fee_collector ex)). }
    rewrite Hl. by apply sat_add_exact.
  - unfold lamports_of. rewrite lookup_insert_ne by congruence. lia.
Qed.

Lemma shared_write_lamports a : default 0 (lamports <$> shared_write a) = sh_lamports a.
Proof. unfold shared_write. by case_decide. Qed.

Lemma merged_lamports cb final k :
  lamports_after (cb_store cb) (map_to_list (merge_writes cb final)) k = lamports_of cb final k.
Proof.
  unfold lamports_after. rewrite list_to_map_to_list. unfold merge_writes.
  rewrite insert_entries_map. unfold lamports_of.
  destruct (final !! k) as [a|]; [apply shared_write_lamports|].
  rewrite insert_entries_lookup.
  2: { cbn [take_overlay_writes fst]. rewrite <- list_fmap_compose. apply NoDup_fst_map_to_list. }
  cbn [take_overlay_writes fst]. unfold cb_lamports, cb_get.
  assert (Hl : (list_to_map (prod_map id shared_write <$> map_to_list (cb_overlay cb)) : gmap _ _) !! k
               = shared_write <$> cb_overlay cb !! k).
  { rewrite <- (list_to_map_to_list (cb_overlay cb)) at 2.
    rewrite <- lookup_fmap. f_equal. by rewrite list_to_map_fmap. }
  rewrite Hl. destruct (cb_overlay cb !! k) as [a|]; cbn [fmap option_fmap option_map].
  - apply shared_write_lamports.
  - rewrite lookup_empty. by destruct (get_account_ok (cb_store cb) k).
Qed.

(** C26: a block conserves lamports: when the SVM debits exactly the fees, the
    fees reported are the sum of the included transactions' fees and all of
    them reach the collector, so the total over any set of accounts that holds
    the collector and every party is the same once the block's writes are
    committed as before it (with the refreshed clock account in place). *)
Theorem execute_block_conserves ex st input out keys :
  let cb := block_callback st input in
  execute_block ex st input = Ok out →
  NoDup keys → ex_fee_collector ex ∈ keys → (∀ k, 0 ≤ cb_lamports cb k) →
  total keys (cb_lamports cb) ≤ u64_max →
  (∀ p, prepare ex st (in_queue input) (in_transactions input) = Ok p →
        balanced keys cb ∅ (zip (block_results cb input p) (rows p))) →
  total keys (lamports_after st (out_account_writes out)) = total keys (cb_lamports cb)
  ∧ fees_collected out = meta_fees (included out).
Proof.
  intros cb H Hnd Hcol Hn Hle Hbal. unfold execute_block in H. fold cb in H.
  apply obind_Ok in H as (p & Hp & H). injection H as <-. specialize (Hbal p Hp).
  set (c0 := {| final_accounts := ∅; c_included := []; c_dropped := pre_dropped p; c_fees := 0 |}).
  assert (H0 : total keys (lamports_of cb (final_accounts c0)) = total keys (cb_lamports cb)).
  { apply total_ext. intros k _. unfold lamports_of. cbn. by rewrite lookup_empty. }
  destruct (collect_balanced keys cb (zip (block_results cb input p) (rows p)) c0) as (Ht & Hn' & Hf & Hm);
    [exact Hbal|intros k; unfold lamports_of; cbn; rewrite lookup_empty; apply Hn|done|done|cbn [c_fees c0]; lia|].
  cbn [out_account_writes fees_collected included]. unfold collect. fold c0. split; [|done].
  set (c' := fold_left _ _ c0) in *.
  rewrite (total_ext _ _ (lamports_of cb (credit_collector ex cb (final_accounts c') (c_fees c'))));
    [|intros k _; apply (merged_lamports cb)].
  pose proof (total_bound keys _ _ (λ k _, Hn' k) Hcol) as Hb. cbn [c_fees c0] in Ht.
  rewrite (total_ext _ _ (λ k, lamports_of cb (final_accounts c') k
                               + (if decide (k = ex_fee_collector ex) then c_fees c' else 0)))
    by (intros k _; apply credit_lamports; lia).
  rewrite total_add, total_point by done. lia.
Qed.

End Executor.

(** ** A small SVM that charges each payer the signature fee *)

Module ExecToy.
#[local] Existing Instance Toy.solana_toy.

#[global] Instance Clock_eq_dec : EqDecision Clock.
Proof. solve_decision. Defined.
#[global] Instance Clock_countable : Countable Clock.
Proof.
  refine (inj_countable'
    (λ c, (clock_slot c, epoch_start_timestamp c, clock_epoch c, leader_schedule_epoch c, unix_timestamp c))
    (λ '(a, b, c, d, e), Build_Clock a b c d e) _).
  by intros [].
Defined.

Definition id (n : Z) : Pubkey := le_bytes 32 (1000 + n).

Definition ids_toy : SdkIds := {|
  bpf_loader := id 1; bpf_loader_deprecated := id 2; bpf_loader_upgradeable := id 3;
  loader_v4 := id 4; compute_budget := id 5; native_loader := id 6; stake := id 7; vote := id 8;
  config_id := id 9; address_lookup_table := id 10; ed25519_program := id 11;
  secp256k1_program := id 12; secp256r1_program := id 13; sysvar_id := id 14; clock_id := id 15;
  epoch_schedule_id := id 16; epoch_rewards_id := id 17; instructions_id := id 18;
  last_restart_slot_id := id 19; recent_blockhashes_id := id 20; rent_id := id 21;
  slot_hashes_id := id 22; slot_history_id := id 23; stake_history_id := id 24;
  EpochSchedule := (); without_warmup := (); get_epoch := λ _ s, s / 432000;
  Rent := (); rent_default := (); RecentEntry := (); entry_default := ();
  BuiltinFunction := (); system_entrypoint := (); loader_entrypoint := ();
  loader_v4_entrypoint := (); budget_entrypoint := ();
  spl_programs := []; core_bpf_programs := []; runtime_environment_ok := true;
|}.

Definition charge (view : Pubkey → option AccountSharedData) (t : Toy.tx)
    : TransactionError + ProcessedTransaction :=
  match head (Toy.t_keys t) with
  | Some payer =>
      match view payer with
      | Some a =>
          if decide (5000 ≤ sh_lamports a) then
            inr (FeesOnly {| transaction_fee := 5000; prioritization_fee := 0 |}
                   [(payer, {| sh_lamports := sh_lamports a - 5000; sh_data := sh_data a;
                               sh_owner := sh_owner a; sh_executable := sh_executable a;
                               sh_rent_epoch := sh_rent_epoch a |})] (OtherTransactionError 0))
          else inl (OtherTransactionError 1)
      | None => inl (OtherTransactionError 2)
      end
  | None => inl (OtherTransactionError 3)
  end.

(** A batch in which each transaction sees the accounts as they were. *)
Definition svm_of (run : (Pubkey → option AccountSharedData) → Toy.tx → TransactionError + ProcessedTransaction) : Svm.
Proof.
  refine {|
    SanitizedTransaction := Toy.tx; BudgetLimits := (); CheckedTransactionDetails := FeeDetails;
    try_create := λ _ t _, match head (Toy.t_signatures t) with
                           | Some _ => inr t | None => inl (OtherTransactionError 4) end;
    san_signature := λ t, default [] (head (Toy.t_signatures t));
    account_keys := Toy.t_keys; is_writable := λ _ _, true;
    num_transaction_signatures := λ t, Z.of_nat (length (Toy.t_signatures t));
    num_ed25519_signatures := λ _, 0; num_secp256k1_signatures := λ _, 0;
    num_secp256r1_signatures := λ _, 0;
    process_compute_budget_instructions := λ _, inr ();
    get_prioritization_fee := λ _, 0; checked_details := λ _ f, f;
    load_and_execute := λ view _ batch _, run view <$> batch |}.
  - intros keys t h s Hs. cbn. destruct (head (Toy.t_signatures t)) eqn:He; [|done].
    injection Hs as <-. by rewrite He.
  - intros. by rewrite length_fmap.
Defined.

Definition svm_toy : Svm := svm_of charge.
End ExecToy.

Module Example.
#[local] Existing Instance Toy.solana_toy.
#[local] Existing Instance ExecToy.ids_toy.
#[local] Existing Instance ExecToy.svm_toy.
#[local] Instance clock_codec : Bincode Clock := Toy.bincode_toy Clock.
#[local] Existing Instance StoreToy.account_codec.
#[local] Existing Instance StoreToy.block_codec.
#[local] Existing Instance StoreToy.locator_codec.
#[local] Existing Instance StoreToy.meta_codec.
#[local] Instance unit_codec : Bincode () := Toy.bincode_toy ().
#[local] Instance units_codec : Bincode (list ()) := Toy.bincode_toy (list ()).

Definition pk (n : Z) : Pubkey := le_bytes 32 n.
Definition tx (n : Z) (payer : Z) : VersionedTransaction :=
  Toy.Build_tx [le_bytes 64 n] [pk payer] [] ZERO_HASH true.
Definition ex : Executor :=
  {| ex_fee_collector := pk 9; builtin_specs := []; reserved_keys := ∅ |}.
Definition st : Store :=
  {| t_accounts := {[pk 1 := serialize (new_system 20000)]}; t_blocks := ∅; t_tx_loc := ∅;
     t_tx_meta := ∅; t_addr_sigs := ∅; t_smt := ∅; t_nullifiers := ∅; t_meta := ∅ |}.
Definition input : BlockExecutionInput :=
  {| in_slot := 1; in_timestamp_ms := 1500; parent_blockhash := ZERO_HASH;
     in_transactions := [tx 1 1; tx 1 1; tx 2 2];
     in_queue := register new_queue 0 ZERO_HASH |}.
Definition out : BlockExecutionOutput :=
  match execute_block ex st input with
  | Ok o => o
  | _ => {| included := []; dropped := []; out_account_writes := []; fees_collected := 0 |}
  end.

Lemma out_ok : execute_block ex st input = Ok out.
Proof. vm_compute. exact eq_refl. Qed.

Lemma execute_block_partition_witness :
  (included out).*1 = [tx 1 1]
  ∧ Some <$> omap tx_signature (in_transactions input)
    ≡ₚ (tx_signature <$> (included out).*1) ++ (Some <$> (dropped out).*1).
Proof.
  split; [vm_compute; exact eq_refl|].
  exact (proj2 (proj2 (proj2 (execute_block_partition ex st input out out_ok)))).
Defined.

Definition prep : Prepared :=
  match prepare ex st (in_queue input) (in_transactions input) with
  | Ok p => p
  | _ => {| pre_dropped := []; rows := []; seen_signatures := ∅ |}
  end.

Lemma lamports_before k :
  cb_lamports (block_callback st input) k
  = if decide (k = ExecToy.id 15) then 1 else if decide (k = pk 1) then 20000 else 0.
Proof.
  unfold cb_lamports, cb_get, block_callback, set_account. cbn [cb_overlay cb_store new_callback].
  destruct (decide (k = ExecToy.id 15)) as [->|Hk]; [vm_compute; exact eq_refl|].
  rewrite lookup_insert_ne by (intros Heq; apply Hk; rewrite <- Heq; exact eq_refl).
  rewrite lookup_empty. destruct (decide (k = pk 1)) as [->|Hk1]; [vm_compute; exact eq_refl|].
  unfold get_account_ok, get_account. cbn [t_accounts st].
  rewrite lookup_singleton_ne by congruence. exact eq_refl.
Qed.

Definition fees_5000 : FeeDetails := {| transaction_fee := 5000; prioritization_fee := 0 |}.

Lemma zipped : zip (block_results (block_callback st input) input prep) (rows prep)
  = [(inr (FeesOnly fees_5000 [(pk 1, to_shared (new_system 15000))] (OtherTransactionError 0)),
      (tx 1 1, fees_5000, tx 1 1));
     (inl (OtherTransactionError 2), (tx 2 2, fees_5000, tx 2 2))].
Proof. vm_compute. exact eq_refl. Qed.

Lemma input_balanced p :
  prepare ex st (in_queue input) (in_transactions input) = Ok p →
  balanced [pk 1; pk 2; pk 9] (block_callback st input) ∅
    (zip (block_results (block_callback st input) input p) (rows p)).
Proof.
  intros Hp. assert (p = prep) as -> by (unfold prep; by rewrite Hp). rewrite zipped.
  cbn [balanced]. split; [|done]. split_and!.
  - by vm_compute.
  - intros k. unfold lamports_of, insert_all, insert_entries. cbn [written_accounts fold_left fst snd].
    destruct (decide (k = pk 1)) as [->|Hk]; [by rewrite lookup_insert_eq|].
    rewrite lookup_insert_ne by congruence. rewrite lookup_empty, lamports_before.
    repeat case_decide; lia.
  - by vm_compute.
Qed.

Lemma execute_block_conserves_witness :
  total [pk 1; pk 2; pk 9] (lamports_after st (out_account_writes out))
    = total [pk 1; pk 2; pk 9] (cb_lamports (block_callback st input))
  ∧ fees_collected out = meta_fees (included out).
Proof.
  apply (execute_block_conserves ex st input out [pk 1; pk 2; pk 9] out_ok).
  - apply (bool_decide_eq_true_1 _). vm_compute. exact eq_refl.
  - set_solver.
  - intros k. rewrite lamports_before. repeat case_decide; lia.
  - vm_compute. discriminate.
  - exact input_balanced.
Defined.
End Example.
