(* ===== verification/NodeLedger.v ===== *)
(** * Deposits and withdrawals on the node's write set

    Models the ledger half of [chain/zul-node/src/node.rs]: [apply_deposits],
    [credit_wrapped_spl], [burn_wrapped_spl] and [apply_withdraws], which work
    on the account writes of the block being produced over the committed store;
    and [DepositEvent] of [zul-bridge/src/client.rs]. *)

From stdpp Require Import pretty.
From S2P Require Import Prelude External Hash Account Block Queue Store StoreProps WrappedSpl PoolProcessor NodeBridge Executor.

Record DepositEvent := {
  l1_signature : bytes;
  dep_mint : option Pubkey;
  dep_decimals : Z;
  dep_amount : Z;
  l2_recipient : Pubkey;
}.

Abbreviation Writes := (gmap Pubkey (option StoredAccount)).

Section Ledger.
Context `{B3 : Blake3} `{TX : SolanaTx} `{SA : SolanaAddresses}.
Context `{!Bincode StoredAccount}.
(** [self.options.gas_mint], [self.fee_collector] and the committed store. *)
Context (gas_mint : option Pubkey) (fee_collector : Pubkey) (st : Store).

(** [writes.get(key).cloned().flatten()] *)
Definition in_writes (writes : Writes) (key : Pubkey) : option StoredAccount :=
  default None (writes !! key).

(** [a.or(b)] on options. *)
Definition opt_or {A} (a b : option A) : option A := match a with Some x => Some x | None => b end.

(** [writes.get(key).cloned().flatten().or(self.store.get_account(key)?)] *)
Definition read_through (writes : Writes) (key : Pubkey) : outcome StoreError (option StoredAccount) :=
  let? stored := get_account st key in
  Ok (opt_or (in_writes writes key) stored).

(** The same read with the store's error dropped. *)
Definition read_through_ok (writes : Writes) (key : Pubkey) : option StoredAccount :=
  opt_or (in_writes writes key) (get_account_ok st key).

Definition token_account_of (len : nat) (d : bytes) : StoredAccount :=
  {| lamports := rent_exempt_lamports len; data := d; owner := TOKEN_PROGRAM_ID;
     executable := false; rent_epoch := u64_max |}.

Definition credit_wrapped_spl (l1_mint recipient : Pubkey) (amount decimals : Z) (writes : Writes)
    : outcome StoreError Writes :=
  let wmint := wrapped_mint_address l1_mint in
  let? mint_acc := read_through writes wmint in
  let? mint_acc :=
    match mint_acc with
    | Some acc =>
        let supply := sat_add (default 0 (mint_supply (data acc))) amount in
        let? d := or_panic (set_mint_supply (data acc) supply) in
        Ok (set_data d acc)
    | None => Ok (token_account_of MINT_LEN (pack_mint BRIDGE_MINT_AUTHORITY amount decimals))
    end in
  let writes := <[wmint := Some mint_acc]> writes in
  let ata := associated_token_address recipient wmint in
  let? ata_acc := read_through writes ata in
  let? ata_acc :=
    match ata_acc with
    | Some acc =>
        let bal := sat_add (default 0 (token_account_amount (data acc))) amount in
        let? d := or_panic (set_token_account_amount (data acc) bal) in
        Ok (set_data d acc)
    | None => Ok (token_account_of ACCOUNT_LEN (pack_token_account wmint recipient amount))
    end in
  Ok (<[ata := Some ata_acc]> writes).

Definition credits_native_gas (d : DepositEvent) : bool :=
  match dep_mint d with
  | Some m => bool_decide (Some m = gas_mint)
  | None => bool_decide (gas_mint = None)
  end.

Definition receipt_account (d : DepositEvent) : StoredAccount :=
  {| lamports := 0; data := le_bytes 8 (dep_amount d) ++ l2_recipient d;
     owner := BRIDGE_RECEIPT_OWNER; executable := false; rent_epoch := u64_max |}.

(** The credit of one deposit, native or wrapped. *)
Definition credit_deposit (d : DepositEvent) (writes : Writes) : outcome StoreError Writes :=
  if credits_native_gas d then
    let? account := read_through writes (l2_recipient d) in
    let account := default (new_system 0) account in
    Ok (<[l2_recipient d := Some (set_lamports (sat_add (lamports account) (dep_amount d)) account)]> writes)
  else
    let '(mint, decimals) :=
      match dep_mint d with
      | Some m => (m, dep_decimals d)
      | None => (native_sol_mint, 9)
      end in
    credit_wrapped_spl mint (l2_recipient d) (dep_amount d) decimals writes.

(** One iteration of [apply_deposits]; the counter is a [usize]. *)
Definition apply_deposit (acc : Writes * nat) (d : DepositEvent) : outcome StoreError (Writes * nat) :=
  let '(writes, credited) := acc in
  let receipt := deposit_receipt_address (l1_signature d) in
  if decide (is_Some (writes !! receipt)) then Ok (writes, credited)
  else
    let? existing := get_account st receipt in
    match existing with
    | Some _ => Ok (writes, credited)
    | None =>
        let? writes := credit_deposit d writes in
        Ok (<[receipt := Some (receipt_account d)]> writes, S credited)
    end.

Definition apply_deposits (ds : list DepositEvent) (writes : Writes)
    : outcome StoreError (Writes * nat) := ofold apply_deposit (writes, 0%nat) ds.

(** The writes are returned also on an error: the caller carries on with them. *)
Definition burn_wrapped_spl (l1_mint owner_key : Pubkey) (amount : Z) (writes : Writes)
    : Writes * outcome StoreError bool :=
  if decide (amount = 0) then (writes, Ok false)
  else
    let wmint := wrapped_mint_address l1_mint in
    let ata := associated_token_address owner_key wmint in
    match read_through writes ata with
    | Err e => (writes, Err e)
    | Panic => (writes, Panic)
    | Ok None => (writes, Ok false)
    | Ok (Some acc) =>
        let bal := default 0 (token_account_amount (data acc)) in
        if decide (bal < amount) then (writes, Ok false)
        else
          match set_token_account_amount (data acc) (bal - amount) with
          | None => (writes, Panic)
          | Some d =>
              let writes := <[ata := Some (set_data d acc)]> writes in
              match read_through writes wmint with
              | Err e => (writes, Err e)
              | Panic => (writes, Panic)
              | Ok None => (writes, Ok true)
              | Ok (Some macc) =>
                  let supply := sat_sub (default 0 (mint_supply (data macc))) amount in
                  match set_mint_supply (data macc) supply with
                  | None => (writes, Panic)
                  | Some md => (<[wmint := Some (set_data md macc)]> writes, Ok true)
                  end
              end
          end
    end.

Definition is_native_withdraw (w : WithdrawTx) : bool :=
  bool_decide (w_asset_id w = NATIVE_ASSET_ID)
  || match gas_mint with Some m => bool_decide (m = w_asset_id w) | None => false end.

Definition needed_native (w : WithdrawTx) : Z :=
  if is_native_withdraw w then sat_add (w_amount w) POOL_TX_FEE else POOL_TX_FEE.

(** The burn: the payer's balance afterwards when the withdrawal is funded. *)
Definition burn_withdraw (w : WithdrawTx) (writes : Writes) : outcome StoreError (Writes * option Z) :=
  match read_through_ok writes (w_fee_payer w) with
  | Some acc =>
      if decide (needed_native w ≤ lamports acc ∧ 0 < w_amount w) then
        let? (writes, token_ok) :=
          if is_native_withdraw w then Ok (writes, true)
          else match burn_wrapped_spl (w_asset_id w) (w_fee_payer w) (w_amount w) writes with
               | (ws, Ok b) => Ok (ws, b)
               | (ws, Err _) => Ok (ws, false)
               | (_, Panic) => Panic
               end in
        if (token_ok : bool) then
          let post := lamports acc - needed_native w in
          Ok (<[w_fee_payer w := Some (set_lamports post acc)]> writes, Some post)
        else Ok (writes, None)
      else Ok (writes, None)
  | None => Ok (writes, None)
  end.

Definition leaf_of (w : WithdrawTx) : Pubkey * H256 :=
  (withdrawal_pubkey (w_recipient w) (w_nonce w),
   withdrawal_account_hash (w_recipient w) (w_asset_id w) (w_amount w) (w_nonce w)).

Definition withdraw_log (w : WithdrawTx) : bytes :=
  bstr ("Program log: withdraw " +:+ pretty (w_amount w) +:+ " to L1, nonce " +:+ pretty (w_nonce w)).

Record WithdrawRun := {
  wr_writes : Writes;
  wr_included : list (VersionedTransaction * ExecutedTransactionMeta);
  leaves : list (Pubkey * H256);
}.

Definition pay_fee (writes : Writes) : Writes :=
  let collector := default (new_system 0) (read_through_ok writes fee_collector) in
  <[fee_collector := Some (set_lamports (sat_add (lamports collector) POOL_TX_FEE) collector)]> writes.

Definition apply_withdraw (r : WithdrawRun) (w : WithdrawTx) : outcome StoreError WithdrawRun :=
  let? (writes, post) := burn_withdraw w (wr_writes r) in
  match post with
  | Some post =>
      Ok {| wr_writes := pay_fee writes;
            wr_included := wr_included r
              ++ [(w_transaction w, pool_meta true None POOL_TX_FEE 0 post [withdraw_log w])];
            leaves := leaves r ++ [leaf_of w] |}
  | None =>
      Ok {| wr_writes := writes;
            wr_included := wr_included r
              ++ [(w_transaction w,
                   pool_meta false (Some (bstr "insufficient balance for withdrawal")) 0 0 0 [])];
            leaves := leaves r |}
  end.

Definition apply_withdraws (ws : list WithdrawTx) (writes : Writes)
    (inc : list (VersionedTransaction * ExecutedTransactionMeta)) : outcome StoreError WithdrawRun :=
  ofold apply_withdraw {| wr_writes := writes; wr_included := inc; leaves := [] |} ws.

(** ** Exactly-once credits *)

Definition receipt_of (d : DepositEvent) : Pubkey := deposit_receipt_address (l1_signature d).

(** A deposit counts as credited when its receipt is in the block's writes or
    in the store. *)
Definition credited (writes : Writes) (d : DepositEvent) : Prop :=
  is_Some (writes !! receipt_of d) ∨ ∃ a, get_account st (receipt_of d) = Ok (Some a).

Lemma apply_deposit_skip writes n d :
  credited writes d → apply_deposit (writes, n) d = Ok (writes, n).
Proof.
  intros Hc. unfold apply_deposit. fold (receipt_of d).
  destruct (decide (is_Some (writes !! receipt_of d))) as [|Hn]; [done|].
  destruct Hc as [?|[a Ha]]; [done|]. by rewrite Ha.
Qed.

Lemma apply_deposits_skip ds : ∀ writes n,
  (∀ d, d ∈ ds → credited writes d) → ofold apply_deposit (writes, n) ds = Ok (writes, n).
Proof.
  induction ds as [|d ds IH]; intros writes n Hc; cbn [ofold]; [done|].
  rewrite apply_deposit_skip by (apply Hc; left). cbn [obind]. apply IH. intros. apply Hc. by right.
Qed.

(** Crediting only ever puts accounts in place: no entry is lost or cleared. *)
Definition extends (w w' : Writes) : Prop :=
  (∀ k, is_Some (w !! k) → is_Some (w' !! k)) ∧ (∀ k, w !! k ≠ Some None → w' !! k ≠ Some None).

Lemma extends_refl w : extends w w.
Proof. done. Qed.

Lemma extends_trans w1 w2 w3 : extends w1 w2 → extends w2 w3 → extends w1 w3.
Proof. intros [? ?] [? ?]. split; eauto. Qed.

Lemma extends_insert w w' k a : extends w w' → extends w (<[k := Some a]> w').
Proof.
  intros [H1 H2]. split; intros k' Hk; destruct (decide (k = k')) as [->|Hne].
  - rewrite lookup_insert_eq. by eexists.
  - rewrite lookup_insert_ne by done. by apply H1.
  - by rewrite lookup_insert_eq.
  - rewrite lookup_insert_ne by done. by apply H2.
Qed.

Lemma credit_wrapped_extends m r amount decimals w w' :
  credit_wrapped_spl m r amount decimals w = Ok w' → extends w w'.
Proof.
  unfold credit_wrapped_spl. cbv zeta.
  intros (a1 & _ & H)%obind_Ok. apply obind_Ok in H as (a2 & _ & H).
  apply obind_Ok in H as (a3 & _ & H). apply obind_Ok in H as (a4 & _ & H). injection H as <-.
  apply extends_insert, extends_insert, extends_refl.
Qed.

Lemma credit_extends d w w' : credit_deposit d w = Ok w' → extends w w'.
Proof.
  unfold credit_deposit. destruct (credits_native_gas d).
  - intros (a & _ & H)%obind_Ok. injection H as <-. apply extends_insert, extends_refl.
  - destruct (match dep_mint d with Some m => _ | None => _ end) as [m dec].
    apply credit_wrapped_extends.
Qed.

Lemma apply_deposit_extends w n d w' n' :
  apply_deposit (w, n) d = Ok (w', n') → extends w w' ∧ credited w' d.
Proof.
  unfold apply_deposit. fold (receipt_of d). destruct (decide _) as [Hin|Hin].
  { intros [= <- <-]. split; [apply extends_refl|by left]. }
  intros (ex & Hex & H)%obind_Ok. destruct ex as [a|].
  { injection H as <- <-. split; [apply extends_refl|right; eauto]. }
  apply obind_Ok in H as (w1 & Hw1 & H). injection H as <- <-.
  split; [by apply extends_insert, credit_extends with d|left; rewrite lookup_insert_eq; by eexists].
Qed.

Lemma apply_deposits_extends ds : ∀ w n w' n',
  ofold apply_deposit (w, n) ds = Ok (w', n') → extends w w' ∧ ∀ d, d ∈ ds → credited w' d.
Proof.
  induction ds as [|d ds IH]; intros w n w' n' H; cbn [ofold] in H.
  { injection H as <- <-. split; [apply extends_refl|set_solver]. }
  apply obind_Ok in H as ([w1 n1] & H1 & H). apply apply_deposit_extends in H1 as [He1 Hc1].
  apply IH in H as [He Hc]. split; [by eapply extends_trans|].
  intros d' [->|Hd']%elem_of_cons; [|by apply Hc].
  destruct Hc1 as [Hw|Hs]; [left; by apply He|by right].
Qed.

End Ledger.

Section ExactlyOnce.
Context `{B3 : Blake3} `{TX : SolanaTx} `{SA : SolanaAddresses}.
Context `{!Bincode StoredAccount}.

Lemma committed_receipt (st st' : Store) (w : Writes) (k : Pubkey) :
  decodes (t_accounts st) → t_accounts st' = fold_left write_account (map_to_list w) (t_accounts st) →
  get_account st' k = Ok (match w !! k with Some a => a | None => account_at (t_accounts st) k end).
Proof.
  intros Hd Ht. rewrite get_account_at, Ht by (rewrite Ht; by apply writes_decode).
  by rewrite account_at_map.
Qed.

(** Once the block's writes are committed every event handed over has its receipt. *)
Lemma credited_committed gas_mint (st st' : Store) ds w w' n d :
  apply_deposits gas_mint st ds w = Ok (w', n) →
  decodes (t_accounts st) → (∀ d, d ∈ ds → w !! receipt_of d ≠ Some None) →
  t_accounts st' = fold_left write_account (map_to_list w') (t_accounts st) →
  d ∈ ds → ∃ a, get_account st' (receipt_of d) = Ok (Some a).
Proof.
  intros H Hd Hnone Ht Hd'. unfold apply_deposits in *.
  pose proof (apply_deposits_extends gas_mint st ds _ _ _ _ H) as [[_ He] Hc].
  rewrite (committed_receipt st st' w') by done.
  pose proof (He _ (Hnone d Hd')) as Hn. destruct (Hc d Hd') as [[o Ho]|[a Ha]].
  - rewrite Ho. destruct o as [a|]; [by eexists|congruence].
  - rewrite get_account_at in Ha by done. injection Ha as Ha.
    destruct (w' !! receipt_of d) as [[b|]|] eqn:Hw'; [by eexists|done|]. exists a. by rewrite Ha.
Qed.

(** C16: deposits are credited exactly once. Whatever list of events the watcher
    hands over, repeating any of them in the same block changes nothing, and
    once the block's writes are committed, handing the same events over again
    credits nothing (provided no receipt of theirs was deleted by an earlier
    write of the block). *)
Theorem deposits_exactly_once gas_mint (st st' : Store) ds ds2 w w' n w2 :
  apply_deposits gas_mint st ds w = Ok (w', n) → ds2 ⊆ ds →
  decodes (t_accounts st) → (∀ d, d ∈ ds → w !! receipt_of d ≠ Some None) →
  t_accounts st' = fold_left write_account (map_to_list w') (t_accounts st) →
  apply_deposits gas_mint st (ds ++ ds2) w = Ok (w', n)
  ∧ apply_deposits gas_mint st' ds w2 = Ok (w2, 0%nat).
Proof.
  intros H Hsub Hd Hnone Ht. split.
  - unfold apply_deposits in *. pose proof (apply_deposits_extends gas_mint st ds _ _ _ _ H) as [_ Hc].
    rewrite ofold_app, H. cbn [obind]. apply apply_deposits_skip. auto.
  - apply apply_deposits_skip. intros d Hd'. right. by eapply credited_committed.
Qed.

End ExactlyOnce.

(** ** Accounting *)

Section Accounting.
Context `{B3 : Blake3} `{TX : SolanaTx} `{SA : SolanaAddresses}.
Context `{!Bincode StoredAccount}.
Context (gas_mint : option Pubkey) (fee_collector : Pubkey) (st : Store).

(** An account's lamports once the writes are committed. *)
Definition committed (w : Writes) (k : Pubkey) : Z :=
  match w !! k with
  | Some a => default 0 (lamports <$> a)
  | None => default 0 (lamports <$> get_account_ok st k)
  end.

Lemma committed_insert w k a k' :
  committed (<[k := Some a]> w) k' = if decide (k' = k) then lamports a else committed w k'.
Proof.
  unfold committed. case_decide as Hk; [subst; by rewrite lookup_insert_eq|].
  by rewrite lookup_insert_ne.
Qed.

(** An account's lamports as the ledger reads them: of an account that an earlier
    write of the block deleted it sees what the store holds. *)
Definition stored_lamports (k : Pubkey) : Z := default 0 (lamports <$> get_account_ok st k).
Definition seen (w : Writes) (k : Pubkey) : Z := default 0 (lamports <$> read_through_ok st w k).

(** What the store holds of an account that was deleted in [w] and is back in [w']. *)
Definition revived (w w' : Writes) (k : Pubkey) : Z :=
  if decide (w !! k = Some None ∧ w' !! k ≠ Some None) then stored_lamports k else 0.

(** Later writes that delete nothing. *)
Definition no_deletes (w w' : Writes) : Prop := ∀ k, w !! k ≠ Some None → w' !! k ≠ Some None.

Lemma no_deletes_insert w w' k a : no_deletes w w' → no_deletes w (<[k := Some a]> w').
Proof.
  intros Hw k' Hk'. destruct (decide (k = k')) as [->|]; [by rewrite lookup_insert_eq|].
  rewrite lookup_insert_ne by done. by apply Hw.
Qed.

Lemma no_deletes_trans w1 w2 w3 : no_deletes w1 w2 → no_deletes w2 w3 → no_deletes w1 w3.
Proof. intros H1 H2 k Hk. by apply H2, H1. Qed.

(** On accounts that are not deleted the ledger reads the committed balance. *)
Lemma read_committed w k : w !! k ≠ Some None → seen w k = committed w k.
Proof.
  intros Hk. unfold seen, read_through_ok, in_writes, committed.
  destruct (w !! k) as [[a|]|]; [done|done|]. done.
Qed.

Lemma seen_deleted w k : w !! k = Some None → seen w k = stored_lamports k ∧ committed w k = 0.
Proof. intros Hk. unfold seen, read_through_ok, in_writes, committed. by rewrite Hk. Qed.

Lemma seen_insert w k a k' :
  seen (<[k := Some a]> w) k' = if decide (k' = k) then lamports a else seen w k'.
Proof.
  unfold seen, read_through_ok, in_writes. case_decide as Hk; [subst; by rewrite lookup_insert_eq|].
  by rewrite lookup_insert_ne.
Qed.

(** What changes in the balances as read changes in the committed ones, but for
    the accounts that come back. *)
Lemma total_revived (keys : list Pubkey) w w' v :
  no_deletes w w' → total keys (seen w') = total keys (seen w) + v →
  total keys (committed w') = total keys (committed w) + v + total keys (revived w w').
Proof.
  intros Hw Hv.
  assert (He : total keys (λ k, committed w' k + seen w k) = total keys (λ k, committed w k + revived w w' k + seen w' k)).
  { apply total_ext. intros k _. unfold revived. specialize (Hw k).
    destruct (decide (w !! k = Some None)) as [Hd|Hd].
    - destruct (seen_deleted w k Hd) as [-> ->]. destruct (decide (w' !! k = Some None)) as [Hd'|Hd'].
      + destruct (seen_deleted w' k Hd') as [-> ->]. rewrite decide_False by (by intros []). lia.
      + rewrite decide_True by done. rewrite (read_committed w') by done. lia.
    - rewrite decide_False by (by intros []). rewrite !read_committed by auto. lia. }
  rewrite !total_add in He. lia.
Qed.

Lemma read_through_ok_eq w k r : read_through st w k = Ok r → read_through_ok st w k = r.
Proof.
  unfold read_through, read_through_ok, get_account_ok. destruct (get_account st k); cbn; [|done|done].
  by intros [= <-].
Qed.

(** Adding [v] lamports to one account of the list. *)
Lemma total_insert (keys : list Pubkey) w k a v :
  NoDup keys → k ∈ keys → lamports a = seen w k + v →
  total keys (seen (<[k := Some a]> w)) = total keys (seen w) + v.
Proof.
  intros Hnd Hin Ha.
  rewrite (total_ext _ _ (λ k', seen w k' + (if decide (k' = k) then v else 0))).
  - by rewrite total_add, total_point.
  - intros k' _. rewrite seen_insert. case_decide; subst; lia.
Qed.


Definition sum_of {A} (f : A → Z) (l : list A) : Z := foldr (λ x acc, f x + acc) 0 l.

Lemma sum_of_app {A} (f : A → Z) l l' : sum_of f (l ++ l') = sum_of f l + sum_of f l'.
Proof. unfold sum_of. induction l as [|x l IH]; cbn [app foldr]; lia. Qed.

Lemma sum_of_nonneg {A} (f : A → Z) l : (∀ x, x ∈ l → 0 ≤ f x) → 0 ≤ sum_of f l.
Proof.
  intros H. induction l as [|x l IH]; cbn; [lia|]. pose proof (H x ltac:(left)).
  unfold sum_of in IH. specialize (IH ltac:(intros; apply H; by right)). lia.
Qed.

(** *** Deposits *)



(** Crediting native deposits never fails. *)
Lemma native_deposits_total ds :
  decodes (t_accounts st) → Forall (λ d, credits_native_gas gas_mint d = true) ds →
  ∀ w, ∃ r, apply_deposits gas_mint st ds w = Ok r.
Proof.
  intros Hd Hds w. apply ofold_total. intros [w1 n] d Hin. rewrite list.Forall_forall in Hds.
  unfold apply_deposit. case_decide; [by eexists|]. rewrite get_account_at by done. cbn [obind].
  destruct (account_at _ _); [by eexists|]. unfold credit_deposit. rewrite (Hds d Hin).
  unfold read_through. rewrite get_account_at by done. by eexists.
Qed.

(** What the events pay to an account. *)
Definition paid_to (k : Pubkey) (ds : list DepositEvent) : Z :=
  sum_of dep_amount (filter (λ d, l2_recipient d = k) ds).

Lemma paid_to_cons k d ds :
  paid_to k (d :: ds) = (if decide (l2_recipient d = k) then dep_amount d else 0) + paid_to k ds.
Proof. unfold paid_to. rewrite filter_cons. by case_decide. Qed.

Lemma paid_to_nonneg k ds : Forall (λ d, 0 ≤ dep_amount d) ds → 0 ≤ paid_to k ds.
Proof.
  intros Hds. apply sum_of_nonneg. intros d [_ Hd]%list_elem_of_filter. rewrite list.Forall_forall in Hds. by apply Hds.
Qed.

(** A fresh native deposit: the recipient's new balance, and the receipt. *)
Lemma fresh_native_step w n d :
  decodes (t_accounts st) → credits_native_gas gas_mint d = true → receipt_of d ≠ l2_recipient d →
  w !! receipt_of d = None → get_account st (receipt_of d) = Ok None →
  ∃ a, apply_deposit gas_mint st (w, n) d
       = Ok (<[receipt_of d := Some (receipt_account d)]> (<[l2_recipient d := Some a]> w), S n)
    ∧ (w !! l2_recipient d ≠ Some None → lamports a = sat_add (committed w (l2_recipient d)) (dep_amount d)).
Proof.
  intros Hd Hnat Hne Hw Hst. unfold apply_deposit. fold (receipt_of d).
  rewrite decide_False by (rewrite Hw; by intros []). rewrite Hst. cbn [obind]. unfold credit_deposit. rewrite Hnat.
  destruct (read_through st w (l2_recipient d)) as [r|e|] eqn:Hr.
  2,3: unfold read_through in Hr; by rewrite get_account_at in Hr by done.
  cbn [obind]. eexists. split; [done|]. intros Hi. cbn [set_lamports lamports].
  rewrite <- read_committed by done. unfold seen. rewrite (read_through_ok_eq _ _ _ Hr). by destruct r.
Qed.

(** Fresh native deposits are all credited: every account that is none of their
    receipts ends with what it had and what they pay to it, each gets its receipt,
    and nothing else is written. *)
Lemma fresh_native_apply ds : ∀ w n,
  decodes (t_accounts st) → NoDup (receipt_of <$> ds) →
  (∀ d d', d ∈ ds → d' ∈ ds → receipt_of d ≠ l2_recipient d') →
  Forall (λ d, credits_native_gas gas_mint d = true ∧ 0 ≤ dep_amount d ∧ w !! receipt_of d = None
               ∧ get_account st (receipt_of d) = Ok None) ds →
  ∃ w', ofold (apply_deposit gas_mint st) (w, n) ds = Ok (w', (n + length ds)%nat)
    ∧ (∀ k, k ∉ receipt_of <$> ds → w !! k ≠ Some None → 0 ≤ committed w k →
           committed w k + paid_to k ds ≤ u64_max → committed w' k = committed w k + paid_to k ds)
    ∧ (∀ d, d ∈ ds → w' !! receipt_of d = Some (Some (receipt_account d)))
    ∧ ∀ k, k ∉ receipt_of <$> ds → k ∉ l2_recipient <$> ds → w' !! k = w !! k.
Proof.
  induction ds as [|d ds IH]; intros w n Hd Hnd Hne Hds; cbn [ofold length].
  { exists w. rewrite Nat.add_0_r. split_and!; [done| |by intros d ?%not_elem_of_nil|done]. intros k _ _ _ _. cbn. lia. }
  apply list.Forall_cons in Hds as [(Hnat & Ha & Hw & Hst) Hds]. rewrite fmap_cons, list.NoDup_cons in Hnd. destruct Hnd as [Hni Hnd].
  destruct (fresh_native_step w n d) as (a & -> & Hlam); [done|done|apply Hne; by left|done|done|]. cbn [obind].
  set (w1 := <[receipt_of d := _]> _).
  destruct (IH w1 (S n)) as (w' & Hw' & Hk & Hrec & Hoth); [done|done|intros d1 d2 H1 H2; apply Hne; by right| |].
  { rewrite list.Forall_forall in Hds |- *. intros d' Hd'. destruct (Hds d' Hd') as (H1 & H2 & H3 & H4).
    split_and!; [done|done| |done]. unfold w1. rewrite !lookup_insert_ne; [done| |].
    - apply not_eq_sym, Hne; [by right|by left].
    - intros He. apply Hni. rewrite He. by apply list_elem_of_fmap_2. }
  exists w'. split; [by rewrite <- Nat.add_succ_comm|].
  assert (Hnr : receipt_of d ∉ l2_recipient <$> ds).
  { intros (d' & He & Hd')%list_elem_of_fmap. apply (Hne d d'); [by left|by right|done]. }
  split_and!.
  2:{ intros d' [->|Hd']%elem_of_cons; [|by apply Hrec]. rewrite Hoth by done. unfold w1. by rewrite lookup_insert_eq. }
  2:{ intros k Hkr Hkl. rewrite fmap_cons, not_elem_of_cons in Hkr, Hkl. rewrite Hoth by naive_solver.
      unfold w1. by rewrite !lookup_insert_ne by naive_solver. }
  intros k Hkr Hkw Hk0 Hku.
  rewrite fmap_cons, not_elem_of_cons in Hkr. destruct Hkr as [Hkd Hkr]. rewrite paid_to_cons in Hku |- *.
  assert (Hpos : 0 ≤ paid_to k ds) by (apply paid_to_nonneg; eapply list.Forall_impl; [exact Hds|]; naive_solver).
  assert (Hc : committed w1 k = committed w k + (if decide (l2_recipient d = k) then dep_amount d else 0)).
  { unfold w1. rewrite committed_insert, decide_False, committed_insert by done.
    destruct (decide (k = l2_recipient d)) as [->|Hx]; [|rewrite decide_False by done; lia].
    rewrite decide_True in Hku |- * by done. rewrite Hlam by done. apply sat_add_exact. lia. }
  rewrite Hk; [rewrite Hc; lia|done| |rewrite Hc; case_decide; lia|rewrite Hc; lia].
  unfold w1. rewrite lookup_insert_ne by done.
  destruct (decide (l2_recipient d = k)) as [->|]; [by rewrite lookup_insert_eq|by rewrite lookup_insert_ne].
Qed.


(** *** Withdrawals *)

(** Native withdrawals never fail, and each is recorded, burned or not. *)
Lemma native_withdraws_total ws :
  Forall (λ w, is_native_withdraw gas_mint w = true) ws →
  ∀ w inc, ∃ r, apply_withdraws gas_mint fee_collector st ws w inc = Ok r
    ∧ ∀ tx, tx ∈ w_transaction <$> ws → ∃ meta, (tx, meta) ∈ wr_included r.
Proof.
  intros Hws w inc. unfold apply_withdraws. induction ws as [|wd ws IH] using rev_ind.
  { eexists. split; [done|]. intros tx Htx. by apply not_elem_of_nil in Htx. }
  apply list.Forall_app in Hws as [Hws [Hwd _]%list.Forall_cons]. destruct (IH Hws) as (r & Hr & Hin).
  rewrite ofold_app, Hr. cbn [obind ofold].
  assert (Hb : ∃ x, burn_withdraw gas_mint st wd (wr_writes r) = Ok x).
  { unfold burn_withdraw. destruct (read_through_ok _ _ _); [|by eexists]. case_decide; [|by eexists].
    rewrite Hwd. by eexists. }
  destruct Hb as [[w1 post] Hb].
  assert (Ha : ∃ r' meta, apply_withdraw gas_mint fee_collector st r wd = Ok r'
                 ∧ wr_included r' = wr_included r ++ [(w_transaction wd, meta)]).
  { unfold apply_withdraw. rewrite Hb. cbn [obind]. destruct post; by eexists _, _. }
  destruct Ha as (r' & meta & -> & Hinc). exists r'. split; [done|]. intros tx. rewrite fmap_app, Hinc.
  intros [Htx|Htx]%elem_of_app.
  - destruct (Hin tx Htx) as [m Hm]. exists m. apply elem_of_app. by left.
  - apply list_elem_of_singleton in Htx as ->. exists meta. apply elem_of_app. right. by apply list_elem_of_singleton.
Qed.

(** Writes that move no lamports, as the ledger reads them. *)
Definition same_lamports (w w' : Writes) : Prop := (∀ k, seen w' k = seen w k) ∧ no_deletes w w'.

Lemma same_lamports_insert w w' k a d :
  same_lamports w w' → read_through st w' k = Ok (Some a) → same_lamports w (<[k := Some (set_data d a)]> w').
Proof.
  intros [Hs Hk] Ha%read_through_ok_eq. split; [|by apply no_deletes_insert].
  intros k'. rewrite seen_insert. case_decide; [|done]. subst k'. rewrite <- Hs. unfold seen. by rewrite Ha.
Qed.

Lemma burn_same m o amount w : same_lamports w (burn_wrapped_spl st m o amount w).1.
Proof.
  assert (Hrefl : same_lamports w w) by (split; [done|by intros k Hk]).
  unfold burn_wrapped_spl. destruct (decide (amount = 0)); [done|]. cbv zeta.
  set (wmint := wrapped_mint_address m). set (ata := associated_token_address o wmint).
  destruct (read_through st w ata) as [[acc|]| |] eqn:Hra; [|done..].
  destruct (decide (_ < amount)); [done|].
  destruct (set_token_account_amount _ _) as [d|]; [|done].
  assert (H1 : same_lamports w (<[ata := Some (set_data d acc)]> w)) by by apply same_lamports_insert.
  destruct (read_through st (<[ata := Some (set_data d acc)]> w) wmint) as [[macc|]| |] eqn:Hrm; [|done..].
  destruct (set_mint_supply _ _) as [md|]; [|done]. cbn [fst]. by apply same_lamports_insert.
Qed.

(** What a funded withdrawal takes off the native supply, fee aside. *)
Definition native_burn (w : WithdrawTx) : Z :=
  if is_native_withdraw gas_mint w then w_amount w else 0.

Lemma burn_withdraw_total keys w x w' post :
  NoDup keys → (∀ k, k ∈ keys → 0 ≤ seen w k) →
  w_fee_payer x ∈ keys → w_amount x ≤ u64_max - POOL_TX_FEE →
  burn_withdraw gas_mint st x w = Ok (w', post) →
  no_deletes w w' ∧ (∀ k, k ∈ keys → 0 ≤ seen w' k) ∧
  total keys (seen w')
  = total keys (seen w) - match post with Some _ => native_burn x + POOL_TX_FEE | None => 0 end.
Proof.
  intros Hnd Hn Hin Hamt. unfold burn_withdraw. assert (Hrefl : no_deletes w w) by by intros k Hk.
  destruct (read_through_ok st w (w_fee_payer x)) as [acc|] eqn:Hr.
  2: { intros [= <- <-]. split_and!; [done|done|lia]. }
  destruct (decide _) as [[Hfund Hpos]|]; [|intros [= <- <-]; split_and!; [done|done|lia]].
  intros ([w1 ok] & Hb & H)%obind_Ok.
  assert (Hs : same_lamports w w1).
  { destruct (is_native_withdraw gas_mint x); [by injection Hb as <- <-|].
    pose proof (burn_same (w_asset_id x) (w_fee_payer x) (w_amount x) w) as Hs.
    destruct (burn_wrapped_spl _ _ _ _ _) as [w2 [b| |]]; try done; by injection Hb as <- <-. }
  destruct Hs as [Hs Hk1].
  assert (Ht1 : total keys (seen w1) = total keys (seen w)) by (apply total_ext; auto).
  assert (Hn1 : ∀ k, k ∈ keys → 0 ≤ seen w1 k) by (intros k Hk; rewrite Hs; by apply Hn).
  destruct ok; injection H as <- <-; [|split_and!; [done|done|lia]].
  assert (Hneed : needed_native gas_mint x = native_burn x + POOL_TX_FEE).
  { unfold needed_native, native_burn. destruct (is_native_withdraw gas_mint x); [|lia].
    apply sat_add_exact. lia. }
  split_and!; [by apply no_deletes_insert| |].
  { intros k Hk. rewrite seen_insert. case_decide; [cbn [set_lamports lamports]; lia|by apply Hn1]. }
  rewrite (total_insert keys w1 (w_fee_payer x) _ (- (native_burn x + POOL_TX_FEE))); [lia|done|done|].
  cbn [set_lamports lamports]. rewrite Hs, Hneed. unfold seen. rewrite Hr. cbn. lia.
Qed.

(** The withdrawals whose transactions were recorded as successful. *)
Definition succeeded (ws : list WithdrawTx) (metas : list ExecutedTransactionMeta) : list WithdrawTx :=
  fst <$> filter (λ p, is_success p.2 = true) (zip ws metas).

Lemma succeeded_cons x ws m metas :
  succeeded (x :: ws) (m :: metas) = (if is_success m then [x] else []) ++ succeeded ws metas.
Proof.
  unfold succeeded. cbn [zip_with]. rewrite filter_cons. cbn [snd].
  destruct (is_success m); [by rewrite decide_True|by rewrite decide_False].
Qed.

(** Every withdrawal transaction is included, in order, and the leaves are those
    of the successful ones. *)
Lemma withdraw_shape ws : ∀ r r',
  ofold (apply_withdraw gas_mint fee_collector st) r ws = Ok r' →
  ∃ metas, length metas = length ws
    ∧ wr_included r' = wr_included r ++ zip (w_transaction <$> ws) metas
    ∧ leaves r' = leaves r ++ (leaf_of <$> succeeded ws metas).
Proof.
  induction ws as [|x ws IH]; intros r r' H; cbn [ofold] in H.
  { injection H as <-. exists []. cbn. by rewrite !app_nil_r. }
  apply obind_Ok in H as (r1 & H1 & H). apply IH in H as (metas & Hlen & Hinc & Hlv).
  unfold apply_withdraw in H1. apply obind_Ok in H1 as ([w1 post] & _ & H1).
  destruct post as [post|]; injection H1 as <-; cbn [wr_included leaves] in *.
  - exists (pool_meta true None POOL_TX_FEE 0 post [withdraw_log x] :: metas).
    rewrite succeeded_cons. cbn [length]. rewrite Hlen, Hinc, Hlv, <- !app_assoc. done.
  - exists (pool_meta false (Some (bstr "insufficient balance for withdrawal")) 0 0 0 [] :: metas).
    rewrite succeeded_cons. cbn [length]. rewrite Hlen, Hinc, Hlv, <- !app_assoc. done.
Qed.

Lemma pay_fee_total keys w :
  NoDup keys → (∀ k, k ∈ keys → 0 ≤ seen w k) → fee_collector ∈ keys →
  total keys (seen w) + POOL_TX_FEE ≤ u64_max →
  no_deletes w (pay_fee fee_collector st w)
  ∧ (∀ k, k ∈ keys → 0 ≤ seen (pay_fee fee_collector st w) k)
  ∧ total keys (seen (pay_fee fee_collector st w)) = total keys (seen w) + POOL_TX_FEE.
Proof.
  intros Hnd Hn Hc Hle. unfold pay_fee. pose proof (total_bound keys _ _ Hn Hc) as Hb.
  set (col := default (new_system 0) (read_through_ok st w fee_collector)).
  assert (Hcol : lamports col = seen w fee_collector)
    by (unfold seen, col; by destruct (read_through_ok st w fee_collector)).
  assert (Hsat : sat_add (lamports col) POOL_TX_FEE = seen w fee_collector + POOL_TX_FEE)
    by (rewrite Hcol; apply sat_add_exact; lia).
  split_and!.
  - apply no_deletes_insert. by intros k Hk.
  - intros k Hk. rewrite seen_insert. case_decide; [|by apply Hn].
    cbn [set_lamports lamports]. rewrite Hsat. specialize (Hn _ Hc). unfold POOL_TX_FEE, LAMPORTS_PER_SIGNATURE. lia.
  - apply total_insert; [done|done|]. by cbn [set_lamports lamports].
Qed.

Lemma pool_meta_success b e f pre post logs : is_success (pool_meta b e f pre post logs) = b.
Proof. by destruct b. Qed.

Lemma native_withdraws_burn keys ws : ∀ r r',
  NoDup keys → (∀ k, k ∈ keys → 0 ≤ seen (wr_writes r) k) →
  fee_collector ∈ keys → total keys (seen (wr_writes r)) ≤ u64_max →
  Forall (λ x, w_fee_payer x ∈ keys ∧ 0 ≤ w_amount x ≤ u64_max - POOL_TX_FEE) ws →
  ofold (apply_withdraw gas_mint fee_collector st) r ws = Ok r' →
  no_deletes (wr_writes r) (wr_writes r')
  ∧ ∃ metas, length metas = length ws
    ∧ wr_included r' = wr_included r ++ zip (w_transaction <$> ws) metas
    ∧ leaves r' = leaves r ++ (leaf_of <$> succeeded ws metas)
    ∧ total keys (seen (wr_writes r'))
      = total keys (seen (wr_writes r)) - sum_of native_burn (succeeded ws metas).
Proof.
  induction ws as [|x ws IH]; intros r r' Hnd Hn Hc Hle Hws H; cbn [ofold] in H.
  { injection H as <-. split; [by intros k Hk|]. exists []. cbn. rewrite !app_nil_r. split_and!; try done. lia. }
  apply list.Forall_cons in Hws as [[Hin Hamt] Hws]. apply obind_Ok in H as (r1 & H1 & H).
  unfold apply_withdraw in H1. apply obind_Ok in H1 as ([w1 post] & Hb & H1).
  apply (burn_withdraw_total keys) in Hb as (Hk1 & Hn1 & Ht1); [|done..|lia].
  assert (Hnb : 0 ≤ native_burn x) by (unfold native_burn; destruct (is_native_withdraw _ _); lia).
  destruct post as [post|]; injection H1 as <-.
  - destruct (pay_fee_total keys w1) as (Hk2 & Hn2 & Ht2); [done..|lia|].
    apply IH in H as (Hk & metas & Hlen & Hinc & Hlv & Ht); cbn [wr_writes wr_included leaves] in *; [|done..|lia|done].
    split; [by eapply no_deletes_trans; [exact Hk1|eapply no_deletes_trans]|].
    exists (pool_meta true None POOL_TX_FEE 0 post [withdraw_log x] :: metas).
    rewrite succeeded_cons, pool_meta_success. split_and!.
    + cbn [length]. by rewrite Hlen.
    + rewrite Hinc, <- app_assoc. done.
    + rewrite Hlv, <- app_assoc. done.
    + rewrite Ht, sum_of_app, Ht2, Ht1. unfold sum_of at 2. cbn [foldr]. lia.
  - apply IH in H as (Hk & metas & Hlen & Hinc & Hlv & Ht); cbn [wr_writes wr_included leaves] in *; [|done..|lia|done].
    split; [by eapply no_deletes_trans|].
    exists (pool_meta false (Some (bstr "insufficient balance for withdrawal")) 0 0 0 [] :: metas).
    rewrite succeeded_cons, pool_meta_success. split_and!.
    + cbn [length]. by rewrite Hlen.
    + rewrite Hinc, <- app_assoc. done.
    + done.
    + rewrite Ht, Ht1. cbn [app]. lia.
Qed.

(** C28: withdrawals burn exactly what they promise on L1: every withdrawal
    transaction is included in order, the leaves handed to the withdrawals tree
    are those of the successful ones, and over any set of accounts holding the
    payers and the collector the committed lamports fall by exactly the native
    amounts of the successful withdrawals (the fee moves to the collector, and
    burning wrapped tokens moves no lamports), as long as the total fits 64 bits.
    Against this the code sets, and the
    equation counts, the stored balance of every account that an earlier write of
    the same block had deleted and a withdrawal or its fee brings back; it is zero
    in a block that deletes none of them. *)
Theorem withdraws_burn_exactly keys ws r r' :
  NoDup keys → (∀ k, k ∈ keys → 0 ≤ seen (wr_writes r) k) →
  fee_collector ∈ keys → total keys (seen (wr_writes r)) ≤ u64_max →
  Forall (λ x, w_fee_payer x ∈ keys ∧ 0 ≤ w_amount x ≤ u64_max - POOL_TX_FEE) ws →
  ofold (apply_withdraw gas_mint fee_collector st) r ws = Ok r' →
  ∃ metas, length metas = length ws
    ∧ wr_included r' = wr_included r ++ zip (w_transaction <$> ws) metas
    ∧ leaves r' = leaves r ++ (leaf_of <$> succeeded ws metas)
    ∧ total keys (committed (wr_writes r'))
      = total keys (committed (wr_writes r)) - sum_of native_burn (succeeded ws metas)
        + total keys (revived (wr_writes r) (wr_writes r')).
Proof.
  intros Hnd Hn Hc Hle Hws H.
  destruct (native_withdraws_burn keys ws r r' Hnd Hn Hc Hle Hws H) as (Hk & metas & H1 & H2 & H3 & H4).
  exists metas. split_and!; [done..|]. rewrite (total_revived keys _ _ _ Hk H4). lia.
Qed.

(** *** Wrapped tokens *)

(** Balance of a token account and supply of a mint, as the ledger reads them. *)
Definition tokens_at (w : Writes) (ata : Pubkey) : Z :=
  default 0 (a ← read_through_ok st w ata; token_account_amount (data a)).
Definition supply_at (w : Writes) (wmint : Pubkey) : Z :=
  default 0 (a ← read_through_ok st w wmint; mint_supply (data a)).

Lemma read_insert w k a k' :
  read_through_ok st (<[k := Some a]> w) k' = if decide (k' = k) then Some a else read_through_ok st w k'.
Proof.
  unfold read_through_ok, in_writes. case_decide as Hk; [subst; by rewrite lookup_insert_eq|].
  by rewrite lookup_insert_ne.
Qed.

Lemma amount_written d d' v :
  u64 v → set_token_account_amount d v = Some d' → token_account_amount d' = Some v.
Proof.
  intros Hv Hc. pose proof (set_field_spec 64 d v Hv) as H. unfold set_token_account_amount in Hc.
  rewrite Hc in H. by apply H.
Qed.

Lemma supply_written d d' v : u64 v → set_mint_supply d v = Some d' → mint_supply d' = Some v.
Proof.
  intros Hv Hc. pose proof (set_field_spec 36 d v Hv) as H. unfold set_mint_supply in Hc.
  rewrite Hc in H. by apply H.
Qed.

Lemma tokens_u64 w k : u64 (tokens_at w k).
Proof.
  unfold tokens_at. destruct (read_through_ok st w k) as [a|]; cbn; [|unfold u64, u64_max; lia].
  unfold token_account_amount, get_range. case_decide; cbn; [|unfold u64, u64_max; lia].
  apply le_val_u64. unfold slice. rewrite length_take, length_drop. lia.
Qed.

Lemma supply_u64 w k : u64 (supply_at w k).
Proof.
  unfold supply_at. destruct (read_through_ok st w k) as [a|]; cbn; [|unfold u64, u64_max; lia].
  unfold mint_supply, get_range. case_decide; cbn; [|unfold u64, u64_max; lia].
  apply le_val_u64. unfold slice. rewrite length_take, length_drop. lia.
Qed.

Lemma wrapped_credit m o amount decimals w w' :
  let wmint := wrapped_mint_address m in
  let ata := associated_token_address o wmint in
  wmint ≠ ata → length o = 32%nat → u64 amount → 0 ≤ decimals < 256 →
  credit_wrapped_spl st m o amount decimals w = Ok w' →
  tokens_at w' ata = sat_add (tokens_at w ata) amount
  ∧ supply_at w' wmint = sat_add (supply_at w wmint) amount.
Proof.
  intros wmint ata Hne Ho Ha Hdec. pose proof (tokens_u64 w ata) as Ht. pose proof (supply_u64 w wmint) as Hs.
  assert (Hw : length wmint = 32%nat) by apply blake3_32_length.
  unfold credit_wrapped_spl. cbv zeta. fold wmint. fold ata.
  intros (r1 & Hr1 & H)%obind_Ok. apply obind_Ok in H as (m1 & Hm1 & H).
  apply obind_Ok in H as (r2 & Hr2 & H). apply obind_Ok in H as (a1 & Ha1 & H). injection H as <-.
  apply read_through_ok_eq in Hr1, Hr2. rewrite read_insert, decide_False in Hr2 by done.
  unfold tokens_at, supply_at in *. rewrite !read_insert.
  rewrite (decide_True (P := ata = ata)), (decide_False (P := wmint = ata)), (decide_True (P := wmint = wmint)) by done.
  rewrite Hr1 in *. rewrite Hr2 in *. cbn [mbind option_bind]. split.
  + destruct r2 as [acc|]; cbn [mbind option_bind] in *.
    * apply obind_Ok in Ha1 as (d & Hd & Ha1). injection Ha1 as <-. cbn [set_data data].
      destruct (set_token_account_amount _ _) eqn:Hset in Hd; [|done]. injection Hd as ->.
      by rewrite (amount_written _ _ _ (sat_add_u64 _ _ Ht Ha) Hset).
    * injection Ha1 as <-. cbn [token_account_of data].
      rewrite (proj1 (pack_token_account_amount wmint o amount Hw Ho Ha)). cbn.
      unfold sat_add. destruct Ha. lia.
  + destruct r1 as [acc|]; cbn [mbind option_bind] in *.
    * apply obind_Ok in Hm1 as (d & Hd & Hm1). injection Hm1 as <-. cbn [set_data data].
      destruct (set_mint_supply _ _) eqn:Hset in Hd; [|done]. injection Hd as ->.
      by rewrite (supply_written _ _ _ (sat_add_u64 _ _ Hs Ha) Hset).
    * injection Hm1 as <-. cbn [token_account_of data].
      rewrite (proj1 (pack_mint_fields BRIDGE_MINT_AUTHORITY amount decimals eq_refl Ha Hdec)). cbn.
      unfold sat_add. destruct Ha. lia.
Qed.

Lemma wrapped_burn m o amount w w' b :
  let wmint := wrapped_mint_address m in
  let ata := associated_token_address o wmint in
  wmint ≠ ata → u64 amount → burn_wrapped_spl st m o amount w = (w', Ok b) →
  if b then 0 < amount ≤ tokens_at w ata ∧ tokens_at w' ata = tokens_at w ata - amount
            ∧ supply_at w' wmint = sat_sub (supply_at w wmint) amount
  else w' = w ∧ (amount = 0 ∨ tokens_at w ata < amount).
Proof.
  intros wmint ata Hne Ha. pose proof (tokens_u64 w ata) as Ht. pose proof (supply_u64 w wmint) as Hs.
  unfold burn_wrapped_spl. destruct (decide (amount = 0)) as [->|Hnz].
  { intros [= <- <-]. auto. }
  cbv zeta. fold wmint. fold ata.
  destruct (read_through st w ata) as [r| |] eqn:Hr; [|done|done]. apply read_through_ok_eq in Hr.
  unfold tokens_at in *. rewrite Hr in *. destruct r as [acc|]; cbn [mbind option_bind] in *.
  2: { intros [= <- <-]. cbn. split; [done|]. right. destruct Ha. lia. }
  destruct (decide (_ < amount)) as [Hlt|Hge]; [intros [= <- <-]; auto|].
  destruct (set_token_account_amount _ _) as [d|] eqn:Hset; [|done].
  assert (Hu : u64 (default 0 (token_account_amount (data acc)) - amount)) by (unfold u64 in *; lia).
  pose proof (amount_written _ _ _ Hu Hset) as Hf.
  destruct (read_through st _ wmint) as [r2| |] eqn:Hr2; [|done|done]. apply read_through_ok_eq in Hr2.
  rewrite read_insert, decide_False in Hr2 by done. unfold supply_at in *. rewrite Hr2 in *.
  destruct r2 as [macc|]; cbn [mbind option_bind] in *.
  + destruct (set_mint_supply _ _) as [md|] eqn:Hms; [|done]. intros [= <- <-].
    rewrite !read_insert. rewrite (decide_False (P := ata = wmint)), (decide_True (P := ata = ata)), (decide_True (P := wmint = wmint)) by done.
    cbn [mbind option_bind set_data data]. rewrite Hf, (supply_written _ _ _ (sat_sub_u64 _ _ Hs Ha) Hms).
    cbn. split_and!; [destruct Ha; lia|lia|done|done].
  + intros [= <- <-]. rewrite !read_insert, (decide_True (P := ata = ata)), (decide_False (P := wmint = ata)) by done.
    cbn [mbind option_bind set_data data]. rewrite Hf, Hr2.
    cbn. split_and!; [destruct Ha; lia|lia|done|]. unfold sat_sub. destruct Ha. lia.
Qed.

(** Crediting a wrapped token moves the recipient's token balance and the
    mint's supply up by the amount, creating either account on first use; and
    burning it for a withdrawal moves both down by the amount (the supply
    stopping at zero), only when the balance covers it. *)
Theorem wrapped_token_accounting m o amount decimals w :
  let wmint := wrapped_mint_address m in
  let ata := associated_token_address o wmint in
  wmint ≠ ata → length o = 32%nat → u64 amount → 0 ≤ decimals < 256 →
  (∀ w', credit_wrapped_spl st m o amount decimals w = Ok w' →
     tokens_at w' ata = sat_add (tokens_at w ata) amount
     ∧ supply_at w' wmint = sat_add (supply_at w wmint) amount)
  ∧ (∀ w' b, burn_wrapped_spl st m o amount w = (w', Ok b) →
     if b then 0 < amount ≤ tokens_at w ata ∧ tokens_at w' ata = tokens_at w ata - amount
               ∧ supply_at w' wmint = sat_sub (supply_at w wmint) amount
     else w' = w ∧ (amount = 0 ∨ tokens_at w ata < amount)).
Proof.
  intros wmint ata Hne Ho Ha Hdec. split; intros.
  - by eapply wrapped_credit.
  - by eapply wrapped_burn.
Qed.

(** Crediting an account whose data has no room for the amount panics. *)
Lemma short_account_panics m o amount decimals w acc :
  let wmint := wrapped_mint_address m in
  let ata := associated_token_address o wmint in
  decodes (t_accounts st) → wmint ≠ ata → w !! ata = None →
  get_account st ata = Ok (Some acc) → (length (data acc) < 72)%nat →
  credit_wrapped_spl st m o amount decimals w = Panic.
Proof.
  intros wmint ata Hd Hne Hw Hacc Hlen. unfold credit_wrapped_spl. fold wmint. fold ata.
  unfold read_through at 1. rewrite get_account_at by done. cbn [obind].
  destruct (match opt_or _ _ with Some acc => _ | None => _ end) as [mint|e|] eqn:Hm; [| |done].
  2:{ by destruct (opt_or _ _); [destruct (set_mint_supply _ _)|]. }
  cbn [obind]. unfold read_through, in_writes. rewrite Hacc, lookup_insert_ne, Hw by done. cbn [obind default opt_or from_option id].
  assert (set_token_account_amount (data acc) (sat_add (default 0 (token_account_amount (data acc))) amount) = None) as ->; [|done].
  unfold set_token_account_amount, copy_at. apply decide_False. rewrite length_le_bytes. lia.
Qed.

(** An account deleted earlier in the block comes back: the read falls
    through to the committed store, so a deposit to it writes the deleted
    account's stored balance plus the amount. *)
Theorem deleted_account_resurrected d w n stored :
  credits_native_gas gas_mint d = true → l2_recipient d ≠ receipt_of d →
  w !! l2_recipient d = Some None → get_account st (l2_recipient d) = Ok (Some stored) →
  w !! receipt_of d = None → get_account st (receipt_of d) = Ok None →
  lamports stored + dep_amount d ≤ u64_max →
  committed w (l2_recipient d) = 0
  ∧ ∃ w', apply_deposit gas_mint st (w, n) d = Ok (w', S n)
          ∧ committed w' (l2_recipient d) = lamports stored + dep_amount d.
Proof.
  intros Hnat Hne Hw Hst Hr Hgr Hle. split; [unfold committed; by rewrite Hw|].
  unfold apply_deposit. fold (receipt_of d). rewrite decide_False by (rewrite Hr; by intros [? ?]).
  rewrite Hgr. cbn [obind]. unfold credit_deposit. rewrite Hnat. unfold read_through.
  rewrite Hst. cbn [obind]. unfold in_writes. rewrite Hw. cbn [default from_option id opt_or].
  eexists. split; [done|]. rewrite committed_insert, decide_False by done.
  rewrite committed_insert, decide_True by done. cbn [set_lamports lamports]. by apply sat_add_exact.
Qed.

End Accounting.

Module Example.
#[local] Existing Instance Toy.blake3_toy.
#[local] Existing Instance Toy.solana_toy.
#[local] Existing Instance WrappedSpl.Example.addresses_toy.
#[local] Existing Instance StoreToy.account_codec.

Definition pk (n : Z) : Pubkey := le_bytes 32 n.
Definition st : Store :=
  {| t_accounts := {[pk 1 := serialize (new_system 20000)]}; t_blocks := ∅; t_tx_loc := ∅;
     t_tx_meta := ∅; t_addr_sigs := ∅; t_smt := ∅; t_nullifiers := ∅; t_meta := ∅ |}.
Definition dep : DepositEvent :=
  {| l1_signature := bstr "sig-1"; dep_mint := None; dep_decimals := 9; dep_amount := 500;
     l2_recipient := pk 1 |}.
Definition keys : list Pubkey := [pk 1; pk 9].

Lemma keys_nodup : NoDup keys.
Proof. apply (bool_decide_eq_true_1 _). vm_compute. exact eq_refl. Qed.

Lemma st_decodes : decodes (t_accounts st).
Proof.
  unfold decodes. cbn [t_accounts st]. apply map_Forall_singleton. rewrite deserialize_serialize. by eexists.
Qed.

Definition w1 : Writes :=
  match apply_deposits None st [dep] ∅ with Ok (w, _) => w | _ => ∅ end.
Lemma w1_ok : apply_deposits None st [dep] ∅ = Ok (w1, 1%nat).
Proof. vm_cast_no_check (eq_refl (Ok (E := StoreError) (w1, 1%nat))). Qed.

Definition st1 : Store :=
  {| t_accounts := fold_left write_account (map_to_list w1) (t_accounts st); t_blocks := ∅;
     t_tx_loc := ∅; t_tx_meta := ∅; t_addr_sigs := ∅; t_smt := ∅; t_nullifiers := ∅; t_meta := ∅ |}.

Lemma deposits_exactly_once_witness :
  apply_deposits None st [dep; dep] ∅ = Ok (w1, 1%nat)
  ∧ apply_deposits None st1 [dep] ∅ = Ok (∅, 0%nat).
Proof.
  refine (deposits_exactly_once None st st1 [dep] [dep] ∅ w1 1 ∅ w1_ok _ st_decodes _ eq_refl).
  - set_solver.
  - intros d _. by rewrite lookup_empty.
Defined.

Lemma before (w : Writes) k : k ∈ keys → w = ∅ ∨ w = {[pk 1 := None]} → 0 ≤ seen st w k.
Proof.
  intros Hk [-> | ->]; apply list_elem_of_In in Hk; destruct Hk as [<-|[<-|[]]]; vm_compute; discriminate.
Qed.

(** The recipient was deleted earlier in the block, and comes back. *)
Definition gone : Writes := {[pk 1 := None]}.
Definition w2 : Writes :=
  match apply_deposits None st [dep] gone with Ok (w, _) => w | _ => ∅ end.



Definition wd : WithdrawTx :=
  {| w_transaction := Toy.Build_tx [le_bytes 64 1] [pk 1] [] ZERO_HASH true; w_fee_payer := pk 1;
     w_recipient := pk 5; w_asset_id := NATIVE_ASSET_ID; w_amount := 700; w_nonce := 3 |}.
Definition run0 : WithdrawRun := {| wr_writes := ∅; wr_included := []; leaves := [] |}.
Definition run1 : WithdrawRun :=
  match ofold (apply_withdraw None (pk 9) st) run0 [wd] with Ok r => r | _ => run0 end.
Lemma run1_ok : ofold (apply_withdraw None (pk 9) st) run0 [wd] = Ok run1.
Proof. vm_cast_no_check (eq_refl (Ok (E := StoreError) run1)). Qed.

Lemma withdraws_burn_exactly_witness :
  (∃ metas, length metas = length [wd]
    ∧ wr_included run1 = [] ++ zip (w_transaction <$> [wd]) metas
    ∧ leaves run1 = [] ++ (leaf_of <$> succeeded [wd] metas)
    ∧ total keys (committed st (wr_writes run1))
      = total keys (committed st ∅) - sum_of (native_burn None) (succeeded [wd] metas)
        + total keys (revived st ∅ (wr_writes run1)))
  ∧ total keys (revived st ∅ (wr_writes run1)) = 0.
Proof.
  split; [|vm_compute; reflexivity].
  refine (withdraws_burn_exactly None (pk 9) st keys [wd] run0 run1 keys_nodup _ _ _ _ run1_ok).
  - intros k Hk. apply before; [exact Hk|left; reflexivity].
  - right. left.
  - vm_compute. discriminate.
  - apply Forall_singleton. split; [left|cbn; unfold u64_max, POOL_TX_FEE, LAMPORTS_PER_SIGNATURE; lia].
Defined.

Lemma wrapped_token_accounting_witness :
  let wmint := wrapped_mint_address (pk 7) in
  let ata := associated_token_address (pk 2) wmint in
  ∃ w', credit_wrapped_spl st (pk 7) (pk 2) 40 6 ∅ = Ok w'
     ∧ tokens_at st w' ata = sat_add (tokens_at st ∅ ata) 40
     ∧ supply_at st w' wmint = sat_add (supply_at st ∅ wmint) 40.
Proof.
  assert (Hok : is_ok (credit_wrapped_spl st (pk 7) (pk 2) 40 6 ∅) = true) by (vm_compute; reflexivity).
  destruct (credit_wrapped_spl st (pk 7) (pk 2) 40 6 ∅) as [w'|e|] eqn:Hc; [|discriminate Hok..].
  exists w'. split; [reflexivity|].
  refine (proj1 (wrapped_token_accounting st (pk 7) (pk 2) 40 6 ∅ _ eq_refl _ _) w' Hc).
  - intros H. vm_compute in H. discriminate H.
  - unfold u64, u64_max. lia.
  - lia.
Defined.

Lemma deleted_account_resurrected_witness :
  committed st {[pk 1 := None]} (pk 1) = 0
  ∧ ∃ w', apply_deposit None st ({[pk 1 := None]}, 0%nat) dep = Ok (w', 1%nat)
          ∧ committed st w' (pk 1) = 20000 + 500.
Proof.
  refine (deleted_account_resurrected None st dep {[pk 1 := None]} 0 (new_system 20000) eq_refl _ _ _ _ _ _).
  - intros H. vm_compute in H. discriminate H.
  - apply lookup_singleton_eq.
  - vm_compute. exact eq_refl.
  - vm_compute. exact eq_refl.
  - vm_compute. exact eq_refl.
  - vm_compute. discriminate.
Defined.

End Example.
