(* ===== verification/Node.v ===== *)
(** * The sequencer node

    Models [chain/zul-node/src/node.rs] over the components it owns: the store,
    the executor, the shielded pool, the mempool, the chain tip, the queue of
    L1 deposits and the in-memory withdrawals tree. Each
    operation is a function on the node's state, as if nothing ran beside it
    ([Interleave] cuts submission and production where the code releases its
    locks); the clock reading is an argument. The block notifications are in [RpcServer];
    tracing is left out, and the text of a pool error is a parameter. *)

From S2P Require Import Prelude External Hash Paths Smt SmtProps Merkle Genesis Account Block Queue Store StoreProps WrappedSpl Field PoolState PoolProcessor PoolService Mempool NodeBridge Executor NodeLedger.

Inductive NodeError :=
| NodeStore (e : StoreError)
| NodeExec (e : ExecutorError)
| NodePool (e : PoolServiceError)
| NodeMsg (msg : string).

Inductive BackendError :=
| Rejected (msg : string)
| FaucetDisabled
| FaucetLimit
| Internal (e : NodeError).

Section Node.
Context `{B3 : Blake3} `{ED : Ed25519} `{TX : SolanaTx} `{SA : SolanaAddresses} `{P : Poseidon}.
Context `{V : ProofVerifier} `{SVM : !Svm} `{IDS : SdkIds}.
Context `{!Bincode StoredAccount} `{!Bincode PoolState} `{!Bincode Block} `{!Bincode BlockHeader}.
Context `{!Bincode VersionedTransaction} `{!Bincode TxLocator} `{!Bincode ExecutedTransactionMeta}.
Context `{!Bincode (nat * list (Z * H256))} `{!Bincode PoolInstruction} `{!Bincode Clock}.
Context `{!Bincode Rent} `{!Bincode EpochSchedule} `{!Bincode (list RecentEntry)}.
(** [PoolServiceError::to_string] and [system_instruction::transfer] in a
    transaction signed by the faucet. *)
Context (pool_error_text : PoolServiceError → bytes).
Context (signed_transfer : Keypair → Pubkey → Z → H256 → VersionedTransaction).

Record NodeOptions := {
  slot_duration : Z;
  heartbeat : Z;
  opt_mempool_capacity : Z;
  opt_max_per_payer : Z;
  max_block_transactions : nat;
  faucet : option Keypair;
  faucet_max_lamports : Z;
  opt_gas_mint : option Pubkey;
}.

Definition default_options : NodeOptions :=
  {| slot_duration := DEFAULT_SLOT_DURATION_MS; heartbeat := 10000; opt_mempool_capacity := 10000;
     opt_max_per_payer := 128; max_block_transactions := 1024; faucet := None;
     faucet_max_lamports := 10000000000; opt_gas_mint := None |}.

Record ChainTip := {
  tip_queue : BlockhashQueue;
  tip_slot : Z;
  tip_blockhash : H256;
  last_block_unix_ms : Z;
}.

(** [tip] is behind a lock that a panic poisons while it is held for writing. *)
Record Node := {
  store : Store;
  executor : Executor;
  pool_cfg : PoolConfig;
  node_sequencer : Keypair;
  node_fee_collector : Pubkey;
  tip : ChainTip;
  tip_poisoned : bool;
  mempool : Mempool;
  options : NodeOptions;
  draining : bool;
  total_txs : Z;
  pending_deposits : list DepositEvent;
  withdrawals : gmap NodeKey H256;
}.

(** ** Start-up *)

(** [.first().and_then(|sig| store.get_transaction(sig).ok().flatten())
    .map(|(_, _, meta)| meta.status.is_ok()).unwrap_or(false)] *)
Definition withdraw_succeeded (st : Store) (w : WithdrawTx) : bool :=
  match head (signatures (w_transaction w)) with
  | Some sig =>
      match ok_opt (get_transaction st sig) with
      | Some (Some (_, _, meta)) => is_success meta
      | _ => false
      end
  | None => false
  end.

Definition rebuild_withdraw (st : Store) (tree : gmap NodeKey H256) (w : WithdrawTx) : gmap NodeKey H256 :=
  if withdraw_succeeded st w then withdraw_apply tree (leaf_of w).1 (leaf_of w).2 else tree.

Definition rebuild_block (st : Store) (tree : gmap NodeKey H256) (sl : Z)
    : outcome StoreError (gmap NodeKey H256) :=
  let? block := get_block st sl in
  match block with
  | None => Ok tree
  | Some block => Ok (fold_left (rebuild_withdraw st) (partition_withdraws (transactions block)).1 tree)
  end.

Definition rebuild_tree (st : Store) (tree : gmap NodeKey H256) : outcome StoreError (gmap NodeKey H256) :=
  let latest := default 0 (latest_slot st) in
  if decide (0 < latest)
  then ofold (rebuild_block st) tree (block_slots_in_range st 1 latest u64_max)
  else Ok tree.

Definition rebuild_withdrawals (n : Node) : outcome NodeError Node :=
  let? tree := map_err NodeStore (rebuild_tree (store n) (withdrawals n)) in
  Ok {| store := set_withdrawals_root (store n) (withdraw_root tree); executor := executor n;
        pool_cfg := pool_cfg n; node_sequencer := node_sequencer n;
        node_fee_collector := node_fee_collector n; tip := tip n; tip_poisoned := tip_poisoned n; mempool := mempool n;
        options := options n; draining := draining n; total_txs := total_txs n;
        pending_deposits := pending_deposits n; withdrawals := tree |}.

(** The tip restored from the store, or the genesis hash on first boot. *)
Definition restore_tip (st : Store) (genesis_h : H256) : outcome NodeError (BlockhashQueue * Z * H256) :=
  match latest_slot st with
  | Some latest =>
      let? q := map_err NodeStore (load_blockhash_queue st) in
      let? q := ok_or q (NodeMsg "store has blocks but no blockhash queue") in
      let? b := map_err NodeStore (get_block st latest) in
      let? b := ok_or b (NodeMsg "latest slot missing") in
      Ok (q, latest, header_hash (header b))
  | None => Ok (register new_queue 0 genesis_h, 0, genesis_h)
  end.

Definition new_node (st : Store) (g : GenesisConfig) (sequencer_kp : Keypair)
    (extra_builtins : list BuiltinSpec) (opts : NodeOptions) (now : Z) : outcome NodeError Node :=
  if decide (pubkey_of sequencer_kp ≠ sequencer g)
  then Err (NodeMsg "sequencer keypair does not match genesis sequencer")
  else
    let? ex := map_err NodeExec (new_executor (fee_collector g) extra_builtins) in
    let cfg := pool_config POOL_STATE_ADDRESS POOL_VAULT_ADDRESS (fee_collector g) in
    let? (st, _) := map_err NodeStore
        (initialize_genesis st g (genesis_accounts ex ++ [genesis_pool_account cfg])) in
    let? (q, sl, bh) := restore_tip st (genesis_hash g) in
    rebuild_withdrawals
      {| store := st; executor := ex; pool_cfg := cfg; node_sequencer := sequencer_kp;
         node_fee_collector := fee_collector g;
         tip := {| tip_queue := q; tip_slot := sl; tip_blockhash := bh; last_block_unix_ms := now |};
         tip_poisoned := false;
         mempool := new_mempool (opt_mempool_capacity opts) (opt_max_per_payer opts);
         options := opts; draining := false; total_txs := 0; pending_deposits := [];
         withdrawals := ∅ |}.

(** ** Small operations *)

Definition with_queues (n : Node) (mp : Mempool) (ds : list DepositEvent) : Node :=
  {| store := store n; executor := executor n; pool_cfg := pool_cfg n;
     node_sequencer := node_sequencer n; node_fee_collector := node_fee_collector n; tip := tip n; tip_poisoned := tip_poisoned n;
     mempool := mp; options := options n; draining := draining n; total_txs := total_txs n;
     pending_deposits := ds; withdrawals := withdrawals n |}.

Definition enqueue_deposits (n : Node) (ds : list DepositEvent) : Node :=
  with_queues n (mempool n) (pending_deposits n ++ ds).

Definition begin_draining (n : Node) : Node :=
  {| store := store n; executor := executor n; pool_cfg := pool_cfg n;
     node_sequencer := node_sequencer n; node_fee_collector := node_fee_collector n; tip := tip n; tip_poisoned := tip_poisoned n;
     mempool := mempool n; options := options n; draining := true; total_txs := total_txs n;
     pending_deposits := pending_deposits n; withdrawals := withdrawals n |}.

(** [self.tip.read().unwrap()] *)
Definition read_tip {E} (n : Node) : outcome E ChainTip := if tip_poisoned n then Panic else Ok (tip n).

Definition last_block_age_ms {E} (n : Node) (now : Z) : outcome E Z :=
  let? t := read_tip n in Ok (sat_sub now (last_block_unix_ms t)).

Definition mempool_depth (n : Node) : nat := length (queue (mempool n)).

Definition is_healthy {E} (n : Node) (now : Z) : outcome E bool :=
  if draining n then Ok false
  else
    let? age := last_block_age_ms n now in
    Ok (bool_decide (age < Z.max (sat_mul (heartbeat (options n)) 3) 30000)).

Definition compute_withdrawal_proof (n : Node) (recipient asset_id : bytes) (amount nonce : Z)
    : outcome NodeError (H256 * SmtProof) :=
  let leaf := withdrawal_pubkey recipient nonce in
  let ah := withdrawal_account_hash recipient asset_id amount nonce in
  let proof := withdraw_prove (withdrawals n) leaf in
  let root := withdraw_root (withdrawals n) in
  if withdraw_verify root leaf ah proof then Ok (root, proof)
  else Err (NodeMsg "withdrawal commitment not found (not yet committed?)").

(** ** Admission *)

Definition admit_tx (n : Node) (tx : VersionedTransaction) : outcome BackendError Signature :=
  match head (signatures tx) with
  | None => Err (Rejected "missing signature")
  | Some sig =>
      match verify_and_hash_message tx with
      | None => Err (Rejected "signature verification failed")
      | Some _ =>
          let? t := read_tip n in
          if negb (is_valid (tip_queue t) (recent_blockhash tx))
          then Err (Rejected "blockhash not found")
          else
            let? found := map_err (λ e, Internal (NodeStore e)) (get_transaction (store n) sig) in
            match found with
            | Some _ => Err (Rejected "already processed")
            | None => Ok sig
            end
      end
  end.

Definition submit_transaction (n : Node) (tx : VersionedTransaction)
    : Node * outcome BackendError Signature :=
  match admit_tx n tx with
  | Err e => (n, Err e)
  | Panic => (n, Panic)
  | Ok sig =>
      match push (mempool n) tx with
      | Ok (mp, _) => (with_queues n mp (pending_deposits n), Ok sig)
      | Err Duplicate => (n, Ok sig)
      | Err Full => (n, Err (Rejected "mempool full"))
      | Err PayerLimit => (n, Err (Rejected "fee payer has too many pending transactions"))
      | Err Unsigned => (n, Err (Rejected "missing signature"))
      | Panic => (n, Panic)
      end
  end.

Definition request_airdrop (n : Node) (pubkey : Pubkey) (amount : Z)
    : Node * outcome BackendError Signature :=
  match faucet (options n) with
  | None => (n, Err FaucetDisabled)
  | Some kp =>
      if decide (amount = 0 ∨ faucet_max_lamports (options n) < amount) then (n, Err FaucetLimit)
      else
        match read_tip n with
        | Ok t => submit_transaction n (signed_transfer kp pubkey amount (tip_blockhash t))
        | Err e => (n, Err e)
        | Panic => (n, Panic)
        end
  end.

Record SimulationResult := {
  sim_err : option TransactionError;
  sim_logs : list bytes;
  units_consumed : Z;
}.

Definition simulate_transaction (n : Node) (tx : VersionedTransaction) (now : Z)
    : outcome BackendError SimulationResult :=
  let? t := read_tip n in
  let input := {| in_slot := wadd (tip_slot t) 1; in_timestamp_ms := now;
                  parent_blockhash := tip_blockhash t; in_transactions := [tx];
                  in_queue := tip_queue t |} in
  let? out := map_err (λ e, Internal (NodeExec e)) (execute_block (executor n) (store n) input) in
  match included out, dropped out with
  | (_, meta) :: _, _ =>
      Ok {| sim_err := match status meta with inl e => Some e | inr _ => None end;
            sim_logs := log_messages meta; units_consumed := compute_units_consumed meta |}
  | [], (_, e) :: _ => Ok {| sim_err := Some e; sim_logs := []; units_consumed := 0 |}
  | [], [] => Err (Internal (NodeMsg "empty simulation output"))
  end.

(** ** Block production *)

(** A pool write over an account the SVM wrote keeps the SVM's fields and takes
    the pool's lamports. *)
Definition merge_pool_write (writes : Writes) (kv : Pubkey * option StoredAccount) : Writes :=
  let merged :=
    match writes !! kv.1, kv.2 with
    | Some (Some svm_account), Some pool_account => Some (set_lamports (lamports pool_account) svm_account)
    | _, other => other
    end in
  <[kv.1 := merged]> writes.

(** The account writes, transactions and nullifiers gathered for a block. *)
Record Draft := {
  d_writes : Writes;
  d_included : list (VersionedTransaction * ExecutedTransactionMeta);
  d_nullifiers : list bytes;
}.

Definition pool_included (writes : Writes) (row : PoolTx * outcome PoolServiceError ())
    : VersionedTransaction * ExecutedTransactionMeta :=
  let ok := is_ok row.2 in
  let post := default 0 (lamports_in_writes (map_to_list writes) (p_fee_payer row.1)) in
  (p_transaction row.1,
   pool_meta ok (match row.2 with Err e => Some (pool_error_text e) | _ => None end)
     (if ok then POOL_TX_FEE else 0) 0 post []).

Definition pool_phase (n : Node) (d : Draft) (pool_txs : list PoolTx) : outcome NodeError Draft :=
  match pool_txs with
  | [] => Ok d
  | _ =>
      let seed := omap (λ acc, lamports <$> acc) (d_writes d) in
      let? res := map_err NodePool
          (process_block_seeded (pool_cfg n) (store n)
             ((λ pt, (p_fee_payer pt, p_instruction pt)) <$> pool_txs) seed) in
      let writes := fold_left merge_pool_write (account_writes res) (d_writes d) in
      Ok {| d_writes := writes;
            d_included := d_included d ++ (pool_included writes <$> zip pool_txs (statuses res));
            d_nullifiers := nullifiers res |}
  end.

(** Everything before sealing: execution, pool, deposits and withdrawals. *)
Definition draft_block (n : Node) (txs : list VersionedTransaction) (deposits : list DepositEvent)
    (timestamp : Z) : outcome NodeError (Draft * list (Pubkey * H256)) :=
  let '(withdraw_txs, rest) := partition_withdraws txs in
  let '(pool_txs, regular_txs) := partition rest in
  let? output := map_err NodeExec
      (execute_block (executor n) (store n)
         {| in_slot := wadd (tip_slot (tip n)) 1; in_timestamp_ms := timestamp;
            parent_blockhash := tip_blockhash (tip n); in_transactions := regular_txs;
            in_queue := tip_queue (tip n) |}) in
  let? d := pool_phase n {| d_writes := insert_entries id (out_account_writes output) ∅;
                            d_included := included output; d_nullifiers := [] |} pool_txs in
  let? (writes, _) := map_err NodeStore
      (apply_deposits (opt_gas_mint (options n)) (store n) deposits (d_writes d)) in
  let? r := map_err NodeStore
      (apply_withdraws (opt_gas_mint (options n)) (node_fee_collector n) (store n)
         withdraw_txs writes (d_included d)) in
  Ok ({| d_writes := wr_writes r; d_included := wr_included r; d_nullifiers := d_nullifiers d |}, leaves r).

Definition seal_draft (n : Node) (d : Draft) (timestamp : Z) : Block * StateUpdate :=
  let update := prepare_state_update (store n) (leaf_update <$> map_to_list (d_writes d)) in
  let txs := (d_included d).*1 in
  (seal {| slot := wadd (tip_slot (tip n)) 1; parent_hash := tip_blockhash (tip n);
           state_root := new_root update; transactions_root := transactions_root_of txs;
           timestamp_ms := timestamp; transaction_count := Z.of_nat (length txs) mod 2 ^ 32 |}
     txs (node_sequencer n), update).

(** The new withdrawals tree, with its root published when there are leaves. *)
Definition publish_leaves (st : Store) (tree : gmap NodeKey H256) (ls : list (Pubkey * H256))
    : Store * gmap NodeKey H256 :=
  match ls with
  | [] => (st, tree)
  | _ =>
      let tree := fold_left (λ t l, withdraw_apply t l.1 l.2) ls tree in
      (set_withdrawals_root st (withdraw_root tree), tree)
  end.

(** Commit a draft on top of the tip. *)
Definition commit_draft (n : Node) (d : Draft) (ls : list (Pubkey * H256)) (timestamp : Z)
    : outcome NodeError Node :=
  let '(block, update) := seal_draft n d timestamp in
  let sl := slot (header block) in
  let bh := header_hash (header block) in
  let q := register (tip_queue (tip n)) sl bh in
  let? st := map_err NodeStore
      (commit_block (store n) block (d_included d).*2 (map_to_list (d_writes d)) update q (d_nullifiers d)) in
  let '(st, tree) := publish_leaves st (withdrawals n) ls in
  Ok {| store := st; executor := executor n; pool_cfg := pool_cfg n; node_sequencer := node_sequencer n;
        node_fee_collector := node_fee_collector n;
        tip := {| tip_queue := q; tip_slot := sl; tip_blockhash := bh; last_block_unix_ms := timestamp |};
        tip_poisoned := tip_poisoned n;
        mempool := mempool n; options := options n; draining := draining n;
        total_txs := wadd (total_txs n) (transaction_count (header block));
        pending_deposits := pending_deposits n; withdrawals := tree |}.

Definition heartbeat_due (n : Node) (now : Z) : bool :=
  bool_decide (heartbeat (options n) ≤ sat_sub now (last_block_unix_ms (tip n))).

(** The panic of an attempt that holds the lock for writing. *)
Definition poison (n : Node) : Node :=
  {| store := store n; executor := executor n; pool_cfg := pool_cfg n;
     node_sequencer := node_sequencer n; node_fee_collector := node_fee_collector n; tip := tip n;
     tip_poisoned := true; mempool := mempool n; options := options n; draining := draining n;
     total_txs := total_txs n; pending_deposits := pending_deposits n; withdrawals := withdrawals n |}.

(** The mempool and the deposit queue are drained first and stay drained on an
    error. The tip is then locked, for reading when there is no work and for
    writing from there to the end. *)
Definition try_produce_block (n : Node) (now : Z) : Node * outcome NodeError (option Z) :=
  let '(mp, txs) := drain (mempool n) (max_block_transactions (options n)) in
  let deposits := pending_deposits n in
  let n := with_queues n mp [] in
  if tip_poisoned n then (n, Panic)
  else if bool_decide (txs = []) && bool_decide (deposits = []) && negb (heartbeat_due n now)
  then (n, Ok None)
  else
    match (let? (d, ls) := draft_block n txs deposits now in commit_draft n d ls now) with
    | Ok n' => (n', Ok (Some (tip_slot (tip n'))))
    | Err e => (n, Err e)
    | Panic => (poison n, Panic)
    end.

End Node.
