(* ===== verification/NodeChain.v ===== *)
(** * The chain a node builds

    Invariants of the node of [chain/zul-node/src/node.rs] over any sequence of
    its operations, restarts included, each operation taken as a whole: the stored
    blocks form one hash-linked chain from genesis, no transaction is committed
    twice, and the withdrawals tree in memory is the one a restart rebuilds.
    [Interleave] cuts the operations where their locks are released. *)

From stdpp Require Import sorting.
From S2P Require Import Prelude External Hash Paths Smt SmtFacts SmtProps Merkle Sorting Genesis Account Block Queue Store StoreProps WrappedSpl Field PoolState PoolProcessor PoolService Mempool NodeBridge Executor NodeLedger Node.

Section Chain.
Context `{B3 : Blake3} `{ED : Ed25519} `{TX : SolanaTx} `{SA : SolanaAddresses} `{P : Poseidon}.
Context `{V : ProofVerifier} `{SVM : !Svm} `{IDS : SdkIds}.
Context `{!Bincode StoredAccount} `{!Bincode PoolState} `{!Bincode Block} `{!Bincode BlockHeader}.
Context `{!Bincode VersionedTransaction} `{!Bincode TxLocator} `{!Bincode ExecutedTransactionMeta}.
Context `{!Bincode (nat * list (Z * H256))} `{!Bincode PoolInstruction} `{!Bincode Clock}.
Context `{!Bincode Rent} `{!Bincode EpochSchedule} `{!Bincode (list RecentEntry)}.
Context (pool_error_text : PoolServiceError → bytes).
Context (signed_transfer : Keypair → Pubkey → Z → H256 → VersionedTransaction).

(** ** What a draft contains *)

Lemma zip_fst_sublist {A B C} (f : A → C) (l : list A) : ∀ k : list B,
  ((λ row, f row.1) <$> zip l k) `sublist_of` f <$> l.
Proof.
  induction l as [|x l IH]; intros [|y k]; cbn [zip_with fmap list_fmap]; try apply sublist_nil_l.
  constructor. apply IH.
Qed.

Lemma pool_phase_shape n d pts d' :
  pool_phase pool_error_text n d pts = Ok d' →
  ∃ new, d_included d' = d_included d ++ new ∧ new.*1 `sublist_of` p_transaction <$> pts.
Proof.
  unfold pool_phase. destruct pts as [|pt pts].
  { intros [= <-]. exists []. by rewrite app_nil_r. }
  cbv zeta. intros (res & _ & H)%obind_Ok. injection H as <-. eexists. split; [done|].
  rewrite <- list_fmap_compose. apply (zip_fst_sublist p_transaction (pt :: pts)).
Qed.

(** The included transactions come from the drained ones, each at most once;
    the withdrawals among them, read back from the block, are the drained
    withdrawals; and the leaves are those of the successful ones. *)
Lemma draft_shape n txs ds now d ls :
  draft_block pool_error_text n txs ds now = Ok (d, ls) →
  (d_included d).*1 ⊆+ txs
  ∧ ∃ pre ws metas,
      (partition_withdraws (d_included d).*1).1 = ws ∧ length metas = length ws
      ∧ d_included d = pre ++ zip (w_transaction <$> ws) metas
      ∧ ls = leaf_of <$> succeeded ws metas.
Proof.
  unfold draft_block. destruct (partition_withdraws txs) as [ws rest] eqn:Hpw.
  destruct (partition rest) as [pts reg] eqn:Hpp.
  intros (out & Hout & H)%obind_Ok. apply obind_Ok in H as (d1 & Hd1 & H).
  apply obind_Ok in H as ([w k] & _ & H). apply obind_Ok in H as (r & Hr & H). injection H as <- <-.
  destruct (execute_block _ _ _) as [o| |] eqn:Hex in Hout; cbn in Hout; [|done|done]. injection Hout as ->.
  apply execute_partition in Hex as (Hsub & _). cbn [in_transactions] in Hsub.
  apply pool_phase_shape in Hd1 as (new & Hd1 & Hnew). cbn [d_included] in Hd1.
  destruct (apply_withdraws _ _ _ _ _ _) as [r'| |] eqn:Hw in Hr; cbn in Hr; [|done|done]. injection Hr as ->.
  apply withdraw_shape in Hw as (metas & Hlen & Hinc & Hlv). cbn [wr_included leaves app] in Hinc, Hlv.
  pose proof (partition_withdraws_spec txs) as [Hrest Hws]. rewrite Hpw in Hrest, Hws. cbn [fst snd] in Hrest, Hws.
  pose proof (partition_spec rest) as [Hreg Hpts]. rewrite Hpp in Hreg, Hpts. cbn [fst snd] in Hreg, Hpts.
  cbn [d_included].
  assert (Hfst : (wr_included r).*1 = ((included out).*1 ++ new.*1) ++ (w_transaction <$> ws)).
  { rewrite Hinc, Hd1, !fmap_app. f_equal. apply fst_zip. rewrite length_fmap. lia. }
  assert (Hother : (included out).*1 ++ new.*1 ⊆+ rest).
  { rewrite <- (filter_app_complement (λ tx, try_parse_pool_tx tx = None) rest).
    apply submseteq_app; [|]; apply sublist_submseteq; [by rewrite <- Hreg|by rewrite <- Hpts]. }
  split.
  - rewrite Hfst, <- (filter_app_complement (λ tx, parse_withdraw tx = None) txs).
    apply submseteq_app; [by rewrite <- Hrest|by rewrite Hws].
  - exists (d_included d1), ws, metas. split_and!; [|done|done|done].
    rewrite Hfst, partition_withdraws_omap, omap_app.
    assert (Hnone : omap to_withdraw ((included out).*1 ++ new.*1) = []).
    { apply elem_of_nil_inv. intros x (tx & Htx & Hx)%list_elem_of_omap.
      apply (elem_of_submseteq _ _ _ Htx) in Hother as Hin. rewrite Hrest in Hin.
      apply list_elem_of_filter in Hin as [Hp _]. by rewrite to_withdraw_None in Hx. }
    rewrite Hnone, <- partition_withdraws_omap. cbn [app].
    pose proof (partition_withdraws_idem txs) as Hid. by rewrite Hpw in Hid.
Qed.

(** A transaction for the executor: neither a withdrawal nor a pool transaction. *)
Definition regular (tx : VersionedTransaction) : Prop := parse_withdraw tx = None ∧ try_parse_pool_tx tx = None.

(** The executor looks its transactions up in the store; nothing else in a draft
    does. *)
Lemma draft_regular n txs ds now d ls tx :
  draft_block pool_error_text n txs ds now = Ok (d, ls) → tx ∈ (d_included d).*1 → regular tx →
  ∃ sig, first_signature tx = Some sig ∧ get_transaction (store n) sig = Ok None.
Proof.
  unfold draft_block. destruct (partition_withdraws txs) as [ws rest] eqn:Hpw.
  destruct (partition rest) as [pts reg] eqn:Hpp.
  intros (out & Hout & H)%obind_Ok. apply obind_Ok in H as (d1 & Hd1 & H).
  apply obind_Ok in H as ([w k] & _ & H). apply obind_Ok in H as (r & Hr & H). injection H as <- <-.
  destruct (execute_block _ _ _) as [o| |] eqn:Hex in Hout; cbn in Hout; [|done|done]. injection Hout as ->.
  apply execute_partition in Hex as (_ & Hchk & _). rewrite list.Forall_forall in Hchk.
  apply pool_phase_shape in Hd1 as (new & Hd1 & Hnew). cbn [d_included] in Hd1.
  destruct (apply_withdraws _ _ _ _ _ _) as [r'| |] eqn:Hw in Hr; cbn in Hr; [|done|done]. injection Hr as ->.
  apply withdraw_shape in Hw as (metas & Hlen & Hinc & _). cbn [wr_included app] in Hinc.
  pose proof (proj2 (partition_withdraws_spec txs)) as Hws. rewrite Hpw in Hws. cbn [fst] in Hws.
  pose proof (proj2 (partition_spec rest)) as Hpts. rewrite Hpp in Hpts. cbn [fst] in Hpts.
  cbn [d_included]. rewrite Hinc, Hd1, !fmap_app, fst_zip by (rewrite length_fmap; lia).
  intros Hin [Hnw Hnp]. apply elem_of_app in Hin as [[Hin|Hin]%elem_of_app|Hin].
  - destruct (Hchk tx Hin) as (_ & _ & Hs). exact Hs.
  - apply (sublist_subseteq _ _ Hnew) in Hin. rewrite Hpts in Hin. by apply list_elem_of_filter in Hin as [[] _].
  - rewrite Hws in Hin. by apply list_elem_of_filter in Hin as [[] _].
Qed.

(** ** Blocks of a chain in the store *)

Definition hash_of (b : Block) : H256 := header_hash (header b).

(** The block at a slot when the blocks occupy slots 1, 2, ... *)
Definition blocks_at (bs : list Block) (s : Z) : option Block :=
  if decide (1 ≤ s) then bs !! Z.to_nat (s - 1) else None.

Definition holds (st : Store) (bs : list Block) : Prop :=
  ∀ s, t_blocks st !! s = serialize <$> blocks_at bs s.

(** The store answers with exactly these blocks. *)
Definition stores_chain (st : Store) (bs : list Block) : Prop :=
  ∀ s, get_block st s = Ok (blocks_at bs s).

Lemma stores_chain_unique st bs bs' : stores_chain st bs → stores_chain st bs' → bs = bs'.
Proof.
  intros H H'. apply list_eq. intros i.
  assert (Hat : ∀ l : list Block, blocks_at l (Z.of_nat i + 1) = l !! i).
  { intros l. unfold blocks_at. rewrite decide_True by lia. f_equal. lia. }
  specialize (H (Z.of_nat i + 1)). specialize (H' (Z.of_nat i + 1)). rewrite Hat in H, H'. congruence.
Qed.

Lemma blocks_at_snoc bs b s :
  blocks_at (bs ++ [b]) s = if decide (s = Z.of_nat (length bs) + 1) then Some b else blocks_at bs s.
Proof.
  unfold blocks_at. destruct (decide (1 ≤ s)) as [Hs|Hs].
  - destruct (decide (s = _)) as [->|Hne].
    + replace (Z.to_nat (Z.of_nat (length bs) + 1 - 1)) with (length bs) by lia. by apply list_lookup_middle.
    + destruct (decide (Z.to_nat (s - 1) < length bs)%nat) as [Hlt|Hge]; [by apply lookup_app_l|].
      rewrite (lookup_ge_None_2 bs) by lia. apply lookup_ge_None_2. rewrite length_app. cbn. lia.
  - by rewrite decide_False by lia.
Qed.

Lemma holds_next st bs : holds st bs → t_blocks st !! (Z.of_nat (length bs) + 1) = None.
Proof.
  intros H. rewrite H. unfold blocks_at. rewrite decide_True by lia.
  rewrite lookup_ge_None_2 by lia. done.
Qed.

Lemma holds_get_block st bs s : holds st bs → get_block st s = Ok (blocks_at bs s).
Proof.
  intros H. unfold get_block. rewrite H. destruct (blocks_at bs s) as [b|]; [|done].
  cbn. by rewrite deserialize_serialize.
Qed.

Lemma holds_snoc st st' bs b :
  holds st bs → slot (header b) = Z.of_nat (length bs) + 1 →
  t_blocks st' = <[slot (header b) := serialize b]> (t_blocks st) → holds st' (bs ++ [b]).
Proof.
  intros H Hs Ht s. rewrite Ht, Hs, blocks_at_snoc. case_decide as Hd.
  - subst s. by rewrite lookup_insert_eq.
  - rewrite lookup_insert_ne by congruence. apply H.
Qed.

Lemma seqZ_sorted k : ∀ m, StronglySorted (λ a b, (a <=? b) = true) (seqZ m (Z.of_nat k)).
Proof.
  induction k as [|k IH]; intros m; [rewrite seqZ_nil by lia; constructor|].
  rewrite seqZ_cons by lia. replace (Z.pred (Z.of_nat (S k))) with (Z.of_nat k) by lia.
  constructor; [apply IH|]. apply list.Forall_forall. intros x [i Hi]%list_elem_of_lookup.
  apply lookup_seqZ in Hi as [-> _]. apply Z.leb_le. lia.
Qed.

(** A scan of a range of a chain's slots finds them all, in order. *)
Lemma slots_in_range st bs first last limit :
  holds st bs → 1 ≤ first → last ≤ Z.of_nat (length bs) → last - first < limit →
  block_slots_in_range st first last limit = seqZ first (last - first + 1).
Proof.
  intros H Hf Hl Hlim. unfold block_slots_in_range. set (keys := filter _ _).
  assert (Hp : keys ≡ₚ seqZ first (last - first + 1)).
  { apply NoDup_Permutation; [|apply NoDup_seqZ|].
    - unfold keys. apply list.NoDup_filter, NoDup_fst_map_to_list.
    - intros s. unfold keys. rewrite list_elem_of_filter, elem_of_seqZ. split; [intros [? _]; lia|].
      intros Hs. split; [lia|]. apply list_elem_of_fmap.
      destruct (lookup_lt_is_Some_2 bs (Z.to_nat (s - 1))) as [b Hb]; [lia|].
      exists (s, serialize b). split; [done|]. apply elem_of_map_to_list. rewrite H.
      unfold blocks_at. rewrite decide_True by lia. by rewrite Hb. }
  assert (Hsort : sort_by Z.leb keys = seqZ first (last - first + 1)).
  { eapply (StronglySorted_unique_strong (λ a b, (a <=? b) = true)).
    - intros x y _ _ Hx Hy. apply Z.leb_le in Hx, Hy. lia.
    - apply sort_by_sorted; intros.
      + destruct (Z.le_ge_cases x y); [left|right]; by apply Z.leb_le.
      + rewrite !Z.leb_le in *. lia.
    - replace (seqZ first (last - first + 1)) with (seqZ first (Z.of_nat (Z.to_nat (last - first + 1))))
        by (unfold seqZ; by rewrite Nat2Z.id).
      apply seqZ_sorted.
    - by rewrite sort_by_perm. }
  rewrite Hsort. unfold take_limit. apply take_ge. rewrite length_seqZ. lia.
Qed.

(** The slots scanned by a rebuild are 1, 2, ... in order. *)
Lemma slots_of_chain st bs :
  holds st bs → Z.of_nat (length bs) ≤ u64_max →
  block_slots_in_range st 1 (Z.of_nat (length bs)) u64_max = seqZ 1 (Z.of_nat (length bs)).
Proof. intros H Hle. rewrite (slots_in_range st bs) by (done || lia). f_equal. lia. Qed.

(** ** The withdrawals tree of a chain *)

Definition rebuild_list (st : Store) (tree : gmap NodeKey H256) (bs : list Block) : gmap NodeKey H256 :=
  fold_left (λ t b, fold_left (rebuild_withdraw st) (partition_withdraws (transactions b)).1 t) bs tree.

Lemma rebuild_blocks st bs : ∀ pre tree,
  holds st (pre ++ bs) →
  ofold (rebuild_block st) tree (seqZ (Z.of_nat (length pre) + 1) (Z.of_nat (length bs)))
  = Ok (rebuild_list st tree bs).
Proof.
  induction bs as [|b bs IH]; intros pre tree H; cbn [length rebuild_list fold_left].
  { by rewrite seqZ_nil by lia. }
  rewrite seqZ_cons by lia. cbn [ofold]. unfold rebuild_block at 1.
  rewrite (holds_get_block _ _ _ H). unfold blocks_at. rewrite decide_True by lia.
  replace (Z.to_nat (Z.of_nat (length pre) + 1 - 1)) with (length pre) by lia.
  rewrite list_lookup_middle by done. cbn [obind].
  specialize (IH (pre ++ [b])). rewrite <- app_assoc, length_app in IH. cbn [length app] in IH.
  replace (Z.succ (Z.of_nat (length pre) + 1)) with (Z.of_nat (length pre + 1) + 1) by lia.
  replace (Z.pred (Z.of_nat (S (length bs)))) with (Z.of_nat (length bs)) by lia. by apply IH.
Qed.

Lemma rebuild_tree_chain st bs tree :
  holds st bs → Z.of_nat (length bs) ≤ u64_max →
  default 0 (latest_slot st) = Z.of_nat (length bs) →
  rebuild_tree st tree = Ok (rebuild_list st tree bs).
Proof.
  intros H Hle Hl. unfold rebuild_tree. rewrite Hl. destruct (decide (0 < _)) as [Hp|Hp].
  - rewrite slots_of_chain by done. exact (rebuild_blocks st bs [] tree H).
  - destruct bs; [done|cbn in Hp; lia].
Qed.

(** The successful withdrawals recorded in a chain, oldest first. *)
Definition successful_withdrawals (st : Store) (bs : list Block) : list WithdrawTx :=
  filter (λ w, withdraw_succeeded st w = true)
    (concat ((λ b, (partition_withdraws (transactions b)).1) <$> bs)).

Lemma fold_selected {T A B} (f : T → B → T) (p : A → bool) (h : A → B) l : ∀ t,
  fold_left (λ t x, if p x then f t (h x) else t) l t
  = fold_left f (h <$> filter (λ x, p x = true) l) t.
Proof.
  induction l as [|x l IH]; intros t; [done|]. cbn [fold_left]. rewrite filter_cons, IH.
  destruct (p x) eqn:Hp; [by rewrite decide_True|by rewrite decide_False].
Qed.

Lemma fold_nested {T A B} (f : T → B → T) (h : A → list B) l : ∀ t,
  fold_left (λ t x, fold_left f (h x) t) l t = fold_left f (concat (h <$> l)) t.
Proof.
  induction l as [|x l IH]; intros t; [done|]. cbn [fold_left fmap list_fmap concat].
  by rewrite IH, fold_left_app.
Qed.

Lemma rebuild_list_all st bs :
  rebuild_list st ∅ bs = withdraw_all (leaf_of <$> successful_withdrawals st bs).
Proof.
  unfold rebuild_list. rewrite (fold_nested (rebuild_withdraw st)). unfold rebuild_withdraw.
  exact (fold_selected (λ t x, withdraw_apply t x.1 x.2) (withdraw_succeeded st) leaf_of _ ∅).
Qed.

Lemma withdraw_root_length ws : length (withdraw_root (withdraw_all ws)) = 32%nat.
Proof.
  rewrite (withdraw_root_spec _ _ (withdraw_all_presents ws)).
  apply length_subtree. apply set_updates_length, length_no_leaves.
Qed.

Lemma published_root st root :
  length root = 32%nat → withdrawals_root (set_withdrawals_root st root) = root.
Proof.
  intros Hl. unfold withdrawals_root, read_meta_h256, read_meta. cbn [t_meta set_withdrawals_root set_meta].
  rewrite lookup_insert_eq. cbn [mbind option_bind]. by rewrite decide_True.
Qed.

(** ** The index of addresses *)

(** What one transaction adds, and a block. *)
Definition index_row (sl : Z) (t : gmap bytes Signature) (row : nat * VersionedTransaction) : gmap bytes Signature :=
  match first_signature row.2 with
  | Some sig => fold_left (λ t a, <[addr_sig_key a sl (Z.of_nat row.1 mod 2 ^ 32) := sig]> t)
                  (static_account_keys row.2) t
  | None => t
  end.

Definition index_block (t : gmap bytes Signature) (b : Block) : gmap bytes Signature :=
  fold_left (index_row (slot (header b))) (enumerate (transactions b)) t.

Lemma index_addrs sl rows : ∀ ts ts',
  ofold (index_tx sl) ts rows = Ok ts' →
  ix_addr ts' = fold_left (index_row sl) ((λ r, (r.1, r.2.1)) <$> rows) (ix_addr ts).
Proof.
  induction rows as [|[i [tx m]] rows IH]; intros ts ts' H; [by injection H as <-|].
  cbn [ofold] in H. apply obind_Ok in H as (ts1 & H1 & H). rewrite (IH _ _ H).
  cbn [fmap list_fmap fold_left fst snd]. f_equal. unfold index_tx in H1.
  apply obind_Ok in H1 as (sig & Hs & H1). apply ok_or_Ok in Hs. injection H1 as <-.
  cbn [ix_addr]. unfold index_row, first_signature. cbn [fst snd]. by rewrite Hs.
Qed.

Lemma lookup_zip_Some' {A B} (l : list A) (k : list B) i x y :
  l !! i = Some x → k !! i = Some y → zip l k !! i = Some (x, y).
Proof. intros Hl Hk. apply lookup_zip_with_Some. eauto. Qed.

(** ** One commit *)

Section Commit.
Context (st st' : Store) (block : Block) (metas : list ExecutedTransactionMeta).
Context (ws : list (Pubkey * option StoredAccount)) (u : StateUpdate) (q : BlockhashQueue) (ns : list bytes).
Context (Hc : commit_block st block metas ws u q ns = Ok st').

(** Transactions of other signatures keep their records. *)
Lemma commit_tables_other sig :
  (∀ tx, tx ∈ transactions block → first_signature tx ≠ Some sig) →
  t_tx_loc st' !! sig = t_tx_loc st !! sig ∧ t_tx_meta st' !! sig = t_tx_meta st !! sig.
Proof.
  intros Hne. apply commit_tables in Hc as (_ & _ & _ & _ & _ & ts & Hts & -> & -> & _).
  apply (index_other _ _ _ _ sig) in Hts; [done|].
  apply list.Forall_forall. intros [i [tx m]] (k & Hk)%list_elem_of_lookup.
  unfold enumerate in Hk. rewrite list_lookup_imap in Hk.
  apply fmap_Some in Hk as ([a b] & Hz & Heq). simplify_eq.
  apply lookup_zip_with_Some in Hz as (a' & b' & [= -> ->] & Ha & _).
  apply (Hne a'). by eapply list_elem_of_lookup_2.
Qed.

Lemma get_transaction_kept sig x :
  (∀ tx, tx ∈ transactions block → first_signature tx ≠ Some sig) →
  t_blocks st !! slot (header block) = None →
  get_transaction st sig = Ok (Some x) → get_transaction st' sig = Ok (Some x).
Proof.
  intros Hne Hfree. destruct (commit_tables_other sig Hne) as [Hl Hm].
  apply commit_tables in Hc as (_ & _ & Hb & _). unfold get_transaction. rewrite Hl, Hm.
  destruct (t_tx_loc st !! sig) as [lb|]; [|done].
  destruct (ok_or (deserialize lb) Codec) as [loc| |]; cbn [obind]; [|done|done].
  destruct (t_tx_meta st !! sig) as [mb|]; [|done].
  destruct (ok_or (deserialize mb) Codec) as [meta| |]; cbn [obind]; [|done|done].
  destruct (t_blocks st !! loc_slot loc) as [bb|] eqn:Hbb; [|done].
  rewrite Hb, lookup_insert_ne, Hbb by congruence. done.
Qed.

Lemma get_transaction_none_kept sig :
  (∀ tx, tx ∈ transactions block → first_signature tx ≠ Some sig) →
  t_tx_loc st !! sig = None → get_transaction st' sig = Ok None.
Proof.
  intros Hne Hn. destruct (commit_tables_other sig Hne) as [Hl _].
  unfold get_transaction. by rewrite Hl, Hn.
Qed.

Context (Hlen : Z.of_nat (length (transactions block)) ≤ u32_max).
Context (Hnd : NoDup (first_signature <$> transactions block)).

Lemma get_transaction_new i tx meta sig :
  transactions block !! i = Some tx → metas !! i = Some meta → first_signature tx = Some sig →
  get_transaction st' sig
  = Ok (Some ({| loc_slot := slot (header block); loc_index := Z.of_nat i |}, tx, meta)).
Proof.
  intros Htx Hm Hsig. eapply (transaction_found st st'); [exact Hc|done|done|done|done|].
  intros j tx' Hij Htx' Hsame. rewrite NoDup_alt in Hnd.
  specialize (Hnd i j (Some sig)). rewrite !list_lookup_fmap, Htx, Htx' in Hnd. cbn in Hnd.
  unfold first_signature in Hnd, Hsig. rewrite Hsig, Hsame in Hnd. specialize (Hnd eq_refl eq_refl). lia.
Qed.

Lemma metas_parallel : length metas = length (transactions block).
Proof.
  assert (Hok : is_ok (commit_block st block metas ws u q ns) = true) by by rewrite Hc.
  by apply commit_accepts in Hok as (? & _).
Qed.

(** A signature is recorded when it was, or when the block carries it. *)
Lemma committed_sigs sig :
  is_Some (t_tx_loc st' !! sig) ↔
  is_Some (t_tx_loc st !! sig) ∨ sig ∈ omap first_signature (transactions block).
Proof.
  destruct (decide (sig ∈ omap first_signature (transactions block))) as [Hin|Hni].
  - split; [by right|]. intros _. apply list_elem_of_omap in Hin as (tx & Htx & Hsig).
    apply list_elem_of_lookup in Htx as [i Hi].
    destruct (lookup_lt_is_Some_2 metas i) as [m Hm].
    { rewrite metas_parallel. by eapply lookup_lt_Some. }
    pose proof (get_transaction_new i tx m sig Hi Hm Hsig) as Hg. unfold get_transaction in Hg.
    destruct (t_tx_loc st' !! sig); [by eexists|done].
  - assert (Hne : ∀ tx, tx ∈ transactions block → first_signature tx ≠ Some sig).
    { intros tx Htx Hsig. apply Hni, list_elem_of_omap. eauto. }
    destruct (commit_tables_other sig Hne) as [-> _]. naive_solver.
Qed.

(** The records of the whole index stay sound. *)
Lemma index_sound :
  t_blocks st !! slot (header block) = None →
  (∀ sig, is_Some (t_tx_loc st !! sig) → ∃ x, get_transaction st sig = Ok (Some x)) →
  ∀ sig, is_Some (t_tx_loc st' !! sig) → ∃ x, get_transaction st' sig = Ok (Some x).
Proof.
  intros Hfree Hix sig Hs. apply committed_sigs in Hs.
  destruct (decide (sig ∈ omap first_signature (transactions block))) as [Hin|Hni].
  - apply list_elem_of_omap in Hin as (tx & Htx & Hsig). apply list_elem_of_lookup in Htx as [i Hi].
    destruct (lookup_lt_is_Some_2 metas i) as [m Hm].
    { rewrite metas_parallel. by eapply lookup_lt_Some. }
    eexists. by eapply get_transaction_new.
  - destruct Hs as [Hs|]; [|done]. destruct (Hix _ Hs) as [x Hx]. exists x.
    apply get_transaction_kept; [|done|done]. intros tx Htx Hsig. apply Hni, list_elem_of_omap. eauto.
Qed.

(** The entries the block adds to the index of addresses. *)
Lemma committed_addrs : t_addr_sigs st' = index_block (t_addr_sigs st) block.
Proof.
  pose proof metas_parallel as Hp.
  apply commit_tables in Hc as (_ & _ & _ & _ & _ & ts & Hts & _ & _ & ->).
  apply index_addrs in Hts. rewrite Hts. cbn [ix_addr]. unfold index_block. f_equal.
  unfold enumerate. rewrite fmap_imap. apply list_eq. intros k. rewrite !list_lookup_imap.
  destruct (transactions block !! k) as [tx|] eqn:Htx.
  - destruct (lookup_lt_is_Some_2 metas k) as [m Hm]; [rewrite Hp; by eapply lookup_lt_Some|].
    by rewrite (lookup_zip_Some' _ _ _ _ _ Htx Hm).
  - rewrite lookup_ge_None_2; [done|]. rewrite length_zip_with. apply lookup_ge_None_1 in Htx. lia.
Qed.

(** Withdrawals of earlier blocks keep their outcome. *)
Lemma succeeded_kept w :
  t_blocks st !! slot (header block) = None →
  (∀ sig, is_Some (t_tx_loc st !! sig) → ∃ x, get_transaction st sig = Ok (Some x)) →
  (∀ tx sig, tx ∈ transactions block → first_signature tx = Some sig →
             first_signature (w_transaction w) ≠ Some sig) →
  withdraw_succeeded st' w = withdraw_succeeded st w.
Proof.
  intros Hfree Hix Hne. unfold withdraw_succeeded. fold (first_signature (w_transaction w)).
  destruct (first_signature (w_transaction w)) as [sig|] eqn:Hsig; [|done].
  assert (Hne' : ∀ tx, tx ∈ transactions block → first_signature tx ≠ Some sig)
    by (intros tx Htx Hs; by apply (Hne tx sig)).
  destruct (t_tx_loc st !! sig) eqn:Hl.
  - destruct (Hix sig ltac:(by eexists)) as [x Hx]. by rewrite (get_transaction_kept _ _ Hne' Hfree Hx), Hx.
  - rewrite (get_transaction_none_kept _ Hne' Hl). unfold get_transaction. by rewrite Hl.
Qed.

Lemma rebuild_list_kept bs : ∀ tree,
  t_blocks st !! slot (header block) = None →
  (∀ sig, is_Some (t_tx_loc st !! sig) → ∃ x, get_transaction st sig = Ok (Some x)) →
  (∀ b tx sig, b ∈ bs → tx ∈ transactions b → first_signature tx = Some sig →
               sig ∉ omap first_signature (transactions block)) →
  rebuild_list st' tree bs = rebuild_list st tree bs.
Proof.
  intros tree Hfree Hix Hdisj. unfold rebuild_list. revert tree.
  induction bs as [|b bs IH]; intros tree; [done|]. cbn [fold_left].
  rewrite IH by (intros; eapply Hdisj; [by right|done..]). f_equal.
  assert (Hw : ∀ w, w ∈ (partition_withdraws (transactions b)).1 →
                    withdraw_succeeded st' w = withdraw_succeeded st w).
  { intros w Hw. apply succeeded_kept; [done|done|]. intros tx sig Htx Hsig Hs.
    rewrite partition_withdraws_omap in Hw. apply list_elem_of_omap in Hw as (txw & Htxw & Hto).
    apply to_withdraw_transaction in Hto. rewrite Hto in Hs.
    apply (Hdisj b txw sig ltac:(left) Htxw Hs), list_elem_of_omap. eauto. }
  revert Hw. generalize (partition_withdraws (transactions b)).1 as l. clear. intros l. revert tree.
  induction l as [|w l IH]; intros tree Hw; [done|]. cbn [fold_left].
  unfold rebuild_withdraw at 2 4. rewrite Hw by left. apply IH. intros. apply Hw. by right.
Qed.

(** The withdrawals of the new block add the leaves of the successful ones. *)
Lemma rebuild_new pre l ms : ∀ tree,
  zip (transactions block) metas = pre ++ zip (w_transaction <$> l) ms → length ms = length l →
  Forall (λ w, is_Some (first_signature (w_transaction w))) l →
  fold_left (rebuild_withdraw st') l tree
  = fold_left (λ t x, withdraw_apply t x.1 x.2) (leaf_of <$> succeeded l ms) tree.
Proof.
  revert pre ms. induction l as [|w l IH]; intros pre [|m ms] tree Hz Hl Hs; try done.
  apply list.Forall_cons in Hs as [[sig Hsig] Hs].
  rewrite succeeded_cons, fmap_app, fold_left_app. cbn [fold_left].
  assert (Hi : zip (transactions block) metas !! length pre = Some (w_transaction w, m)).
  { rewrite Hz. cbn [fmap list_fmap zip_with]. by apply list_lookup_middle. }
  apply lookup_zip_with_Some in Hi as (tx & m' & [= <- <-] & Htx & Hm).
  pose proof (get_transaction_new _ _ _ _ Htx Hm Hsig) as Hg.
  assert (Hsucc : withdraw_succeeded st' w = is_success m).
  { unfold withdraw_succeeded. fold (first_signature (w_transaction w)). by rewrite Hsig, Hg. }
  unfold rebuild_withdraw at 2. rewrite Hsucc.
  rewrite (IH (pre ++ [(w_transaction w, m)]) ms); [|by rewrite <- app_assoc|cbn in Hl; lia|done].
  by destruct (is_success m).
Qed.

End Commit.

(** What a store knows of a transaction is never taken back. *)
Definition tx_kept (st st' : Store) : Prop :=
  ∀ sig x, get_transaction st sig = Ok (Some x) → get_transaction st' sig = Ok (Some x).

(** ** The chain invariant *)

Section Invariant.
Context (g : GenesisConfig).

Fixpoint linked (prev : H256) (k : Z) (bs : list Block) : Prop :=
  match bs with
  | [] => True
  | b :: bs => slot (header b) = k ∧ parent_hash (header b) = prev
               ∧ verify_block b (sequencer g) = true ∧ linked (hash_of b) (k + 1) bs
  end.

Definition last_hash (bs : list Block) : H256 := default (genesis_hash g) (hash_of <$> list.last bs).

Definition chain_sigs (bs : list Block) : list Signature :=
  omap first_signature (concat (transactions <$> bs)).

Definition state_tree_ok (st : Store) : Prop :=
  all_32 (t_smt st) ∧ ∃ L, source_presents SMT_DEPTH (get_node st) L ∧ ∀ k, length (L k) = 32%nat.

(** The indexes hold exactly the chain's transactions. *)
Record chain_indexed (st : Store) (bs : list Block) : Prop := {
  ci_addrs : t_addr_sigs st = fold_left index_block bs ∅;
  ci_found s b i tx sig :
    blocks_at bs s = Some b → transactions b !! i = Some tx → first_signature tx = Some sig →
    ∃ meta, get_transaction st sig = Ok (Some ({| loc_slot := s; loc_index := Z.of_nat i |}, tx, meta));
  ci_blocks : Forall (λ b, Z.of_nat (length (transactions b)) ≤ u32_max
                           ∧ Forall (λ tx, is_Some (first_signature tx)) (transactions b)) bs;
}.

Record store_chain (st : Store) (bs : list Block) : Prop := {
  sc_genesis : get_genesis_hash st = Some (genesis_hash g);
  sc_root : is_Some (get_state_root st);
  sc_tree : state_tree_ok st;
  sc_len : Z.of_nat (length bs) ≤ u64_max;
  sc_latest : latest_slot st = match bs with [] => None | _ => Some (Z.of_nat (length bs)) end;
  sc_holds : holds st bs;
  sc_linked : linked (genesis_hash g) 1 bs;
  sc_sigs : ∀ sig, is_Some (t_tx_loc st !! sig) ↔ sig ∈ chain_sigs bs;
  sc_nodup : NoDup (chain_sigs bs);
  sc_index : ∀ sig, is_Some (t_tx_loc st !! sig) → ∃ x, get_transaction st sig = Ok (Some x);
  sc_indexed : chain_indexed st bs;
}.

(** What holds of the stored blocks whether or not a transaction is repeated in
    them. *)
Record store_links (st : Store) (bs : list Block) : Prop := {
  sl_genesis : get_genesis_hash st = Some (genesis_hash g);
  sl_root : is_Some (get_state_root st);
  sl_tree : state_tree_ok st;
  sl_len : Z.of_nat (length bs) ≤ u64_max;
  sl_latest : latest_slot st = match bs with [] => None | _ => Some (Z.of_nat (length bs)) end;
  sl_holds : holds st bs;
  sl_linked : linked (genesis_hash g) 1 bs;
  sl_sigs : ∀ sig, is_Some (t_tx_loc st !! sig) ↔ sig ∈ chain_sigs bs;
  sl_index : ∀ sig, is_Some (t_tx_loc st !! sig) → ∃ x, get_transaction st sig = Ok (Some x);
}.

Lemma chain_links st bs : store_chain st bs → store_links st bs.
Proof. intros []. by split. Qed.

Lemma links_chain st bs :
  store_links st bs → NoDup (chain_sigs bs) → chain_indexed st bs → store_chain st bs.
Proof. intros []. by split. Qed.

Record chain_ok (n : Node) (bs : list Block) : Prop := {
  co_store : store_chain (store n) bs;
  co_seq : pubkey_of (node_sequencer n) = sequencer g;
  co_slot : tip_slot (tip n) = Z.of_nat (length bs);
  co_hash : tip_blockhash (tip n) = last_hash bs;
  co_queue : bs ≠ [] → ∃ q, load_blockhash_queue (store n) = Ok (Some q)
                            ∧ entries q = entries (tip_queue (tip n));
  co_tree : rebuild_list (store n) ∅ bs = withdrawals n;
  co_published : withdrawals_root (store n) = withdraw_root (withdrawals n);
}.

Lemma chain_sigs_snoc bs b :
  chain_sigs (bs ++ [b]) = chain_sigs bs ++ omap first_signature (transactions b).
Proof. unfold chain_sigs. rewrite fmap_app, concat_app, omap_app. cbn. by rewrite app_nil_r. Qed.

Lemma chain_sigs_in bs b tx sig :
  b ∈ bs → tx ∈ transactions b → first_signature tx = Some sig → sig ∈ chain_sigs bs.
Proof.
  intros Hb Htx Hs. apply list_elem_of_omap. exists tx. split; [|done].
  apply list_elem_of_In, in_concat. exists (transactions b). rewrite <- !list_elem_of_In.
  split; [|done]. apply list_elem_of_fmap. eauto.
Qed.

Lemma last_hash_snoc bs b : last_hash (bs ++ [b]) = hash_of b.
Proof. unfold last_hash. by rewrite last_snoc. Qed.

Lemma linked_snoc bs b : ∀ prev k,
  linked prev k (bs ++ [b]) ↔
  linked prev k bs ∧ slot (header b) = k + Z.of_nat (length bs)
  ∧ parent_hash (header b) = default prev (hash_of <$> list.last bs)
  ∧ verify_block b (sequencer g) = true.
Proof.
  induction bs as [|b' bs IH]; intros prev k; cbn [app linked length].
  { cbn. rewrite Z.add_0_r. naive_solver. }
  rewrite IH. replace (k + 1 + Z.of_nat (length bs)) with (k + Z.of_nat (S (length bs))) by lia.
  assert (Hl : default prev (hash_of <$> list.last (b' :: bs)) = default (hash_of b') (hash_of <$> list.last bs)).
  { rewrite last_cons. by destruct (list.last bs). }
  rewrite Hl. naive_solver.
Qed.

(** Publishing a withdrawals root touches nothing the chain depends on. *)
Lemma publish_links st bs root : store_links st bs → store_links (set_withdrawals_root st root) bs.
Proof.
  intros [H1 H2 H3 H4 H5 H6 H7 H8 H9]. split; try done.
  - unfold get_genesis_hash, read_meta_h256, read_meta in *. cbn [t_meta set_withdrawals_root set_meta].
    by rewrite lookup_insert_ne.
  - unfold get_state_root, read_meta_h256, read_meta in *. cbn [t_meta set_withdrawals_root set_meta].
    by rewrite lookup_insert_ne.
  - unfold latest_slot, read_meta in *. cbn [t_meta set_withdrawals_root set_meta].
    by rewrite lookup_insert_ne.
Qed.

Lemma publish_chain st bs root : store_chain st bs → store_chain (set_withdrawals_root st root) bs.
Proof.
  intros Hsc. apply links_chain; [by apply publish_links, chain_links|apply Hsc|].
  destruct (sc_indexed _ _ Hsc) as [? ? ?]. by split.
Qed.

Lemma publish_queue st root : load_blockhash_queue (set_withdrawals_root st root) = load_blockhash_queue st.
Proof.
  unfold load_blockhash_queue, read_meta. cbn [t_meta set_withdrawals_root set_meta].
  by rewrite lookup_insert_ne.
Qed.

Lemma publish_rebuild st root tree bs :
  rebuild_list (set_withdrawals_root st root) tree bs = rebuild_list st tree bs.
Proof. done. Qed.

(** ** Committing a block extends the chain *)

Lemma omap_all_Some {A B} (f : A → option B) l :
  Forall (λ x, is_Some (f x)) l → Some <$> omap f l = f <$> l.
Proof.
  induction 1 as [|x l [y Hy] _ IH]; [done|]. cbn [omap list_omap fmap list_fmap]. rewrite Hy.
  cbn [fmap list_fmap]. by rewrite IH.
Qed.

Lemma nodup_omap_sigs (txs : list VersionedTransaction) :
  Forall (λ tx, is_Some (first_signature tx)) txs → NoDup (first_signature <$> txs) →
  NoDup (omap first_signature txs).
Proof. intros Hs Hn. rewrite <- omap_all_Some in Hn by done. by apply NoDup_fmap_1 in Hn. Qed.

Lemma commit_indexed st st' bs b metas writes u q ns :
  chain_indexed st bs → holds st bs → slot (header b) = Z.of_nat (length bs) + 1 →
  Z.of_nat (length (transactions b)) ≤ u32_max →
  Forall (λ tx, is_Some (first_signature tx)) (transactions b) →
  NoDup (first_signature <$> transactions b) →
  (∀ sig, sig ∈ omap first_signature (transactions b) → sig ∉ chain_sigs bs) →
  commit_block st b metas writes u q ns = Ok st' → chain_indexed st' (bs ++ [b]).
Proof.
  intros [Ha Hf Hb] Hh Hslot Hlen Hsig Hnd Hfresh Hc. split.
  - rewrite (committed_addrs _ _ _ _ _ _ _ _ Hc), Ha, fold_left_app. done.
  - intros s b' i tx sig. rewrite blocks_at_snoc. case_decide as Hs.
    + intros [= <-] Htx Hsg. destruct (lookup_lt_is_Some_2 metas i) as [m Hm].
      { rewrite (metas_parallel _ _ _ _ _ _ _ _ Hc). by eapply lookup_lt_Some. }
      exists m. rewrite Hs, <- Hslot. by eapply get_transaction_new.
    + intros Hb' Htx Hsg. destruct (Hf s b' i tx sig Hb' Htx Hsg) as [m Hm]. exists m.
      eapply get_transaction_kept; [exact Hc| | |exact Hm].
      * intros tx' Htx' Hs'. apply (Hfresh sig); [apply list_elem_of_omap; eauto|].
        apply (chain_sigs_in bs b' tx); [|by eapply list_elem_of_lookup_2|done].
        unfold blocks_at in Hb'. case_decide; [by eapply list_elem_of_lookup_2|done].
      * rewrite Hslot. by apply holds_next.
  - apply list.Forall_app. split; [done|]. by apply Forall_singleton.
Qed.

Lemma commit_links st st' bs b metas writes q ns :
  store_links st bs → Z.of_nat (length bs) < u64_max →
  slot (header b) = Z.of_nat (length bs) + 1 → parent_hash (header b) = last_hash bs →
  verify_block b (sequencer g) = true →
  Z.of_nat (length (transactions b)) ≤ u32_max →
  NoDup (first_signature <$> transactions b) →
  commit_block st b metas writes (prepare_state_update st (leaf_update <$> writes)) q ns = Ok st' →
  store_links st' (bs ++ [b])
  ∧ ∃ q', load_blockhash_queue st' = Ok (Some q') ∧ entries q' = entries q.
Proof.
  intros [H1 H2 [H32 (L & HL & HLl)] H4 H5 H6 H7 H8 H10] Hlt Hslot Hpar Hver Hlen Hnd Hc.
  pose proof (holds_next _ _ H6) as Hfree. rewrite <- Hslot in Hfree.
  pose proof (commit_tables _ _ _ _ _ _ _ _ Hc) as (_ & Hsmt & Hb & _ & Hm & _).
  destruct (write_smt_nodes_step st L (leaf_update <$> writes) H32 HL) as (H32' & HL' & _).
  rewrite <- Hsmt in H32', HL'.
  assert (Hu : u64 (Z.of_nat (length bs) + 1)) by (unfold u64; lia).
  split; [split|].
  - unfold get_genesis_hash, read_meta_h256, read_meta in *. rewrite Hm. by rewrite !lookup_insert_ne.
  - rewrite (state_root_read st' (new_root (prepare_state_update st (leaf_update <$> writes)))).
    + by eexists.
    + rewrite Hm, lookup_insert_ne, lookup_insert_eq by done. done.
    + by eapply length_new_root.
  - split; [done|]. exists (set_updates SMT_DEPTH L (leaf_update <$> writes)). split.
    + eapply source_presents_ext; [|exact HL']. intros k. by rewrite get_node_32.
    + by apply set_updates_length.
  - rewrite length_app. cbn [length]. lia.
  - assert (Hl : latest_slot st' = Some (slot (header b))).
    { unfold latest_slot, read_meta. rewrite Hm, !lookup_insert_ne, lookup_insert_eq by done.
      cbn [mbind option_bind]. rewrite decide_True by apply length_le_bytes.
      rewrite le64_roundtrip; [done|]. by rewrite Hslot. }
    rewrite Hl, Hslot, length_app. cbn [length]. destruct bs; cbn [app length]; f_equal; lia.
  - by eapply holds_snoc.
  - apply linked_snoc. split_and!; [done|lia|done|done].
  - intros sig. rewrite (committed_sigs _ _ _ _ _ _ _ _ Hc) by done.
    rewrite H8, chain_sigs_snoc, elem_of_app. done.
  - by eapply index_sound.
  - unfold load_blockhash_queue, read_meta. rewrite Hm, lookup_insert_eq. unfold from_bytes, to_bytes.
    rewrite deserialize_serialize. cbn. eexists. split; [done|]. done.
Qed.

Lemma commit_chain st st' bs b metas writes q ns :
  store_chain st bs → Z.of_nat (length bs) < u64_max →
  slot (header b) = Z.of_nat (length bs) + 1 → parent_hash (header b) = last_hash bs →
  verify_block b (sequencer g) = true →
  Z.of_nat (length (transactions b)) ≤ u32_max →
  Forall (λ tx, is_Some (first_signature tx)) (transactions b) →
  NoDup (first_signature <$> transactions b) →
  (∀ sig, sig ∈ omap first_signature (transactions b) → sig ∉ chain_sigs bs) →
  commit_block st b metas writes (prepare_state_update st (leaf_update <$> writes)) q ns = Ok st' →
  store_chain st' (bs ++ [b])
  ∧ ∃ q', load_blockhash_queue st' = Ok (Some q') ∧ entries q' = entries q.
Proof.
  intros Hsc Hlt Hslot Hpar Hver Hlen Hsig Hnd Hfresh Hc.
  destruct (commit_links st st' bs b metas writes q ns) as [Hl Hq]; [by apply chain_links|done..|].
  split; [|exact Hq]. apply links_chain; [exact Hl| |].
  - rewrite chain_sigs_snoc. apply list.NoDup_app. split_and!; [apply Hsc| |by apply nodup_omap_sigs].
    intros x Hx Hx'. by apply (Hfresh x).
  - eapply commit_indexed; [apply Hsc|apply Hsc|done..].
Qed.

(** What the node knows of the transactions it drains. *)
Record drained_ok (bs : list Block) (txs : list VersionedTransaction) : Prop := {
  dr_len : Z.of_nat (length txs) ≤ u32_max;
  dr_signed : Forall (λ tx, is_Some (first_signature tx)) txs;
  dr_nodup : NoDup (first_signature <$> txs);
  dr_fresh : ∀ tx sig, tx ∈ txs → first_signature tx = Some sig → sig ∉ chain_sigs bs;
}.

(** The part of it that does not depend on the chain. *)
Record batch_ok (txs : list VersionedTransaction) : Prop := {
  ba_len : Z.of_nat (length txs) ≤ u32_max;
  ba_signed : Forall (λ tx, is_Some (first_signature tx)) txs;
  ba_nodup : NoDup (first_signature <$> txs);
}.

Lemma drained_batch bs txs : drained_ok bs txs → batch_ok txs.
Proof. intros []. by split. Qed.

Lemma batch_sub txs txs' : batch_ok txs → txs' ⊆+ txs → batch_ok txs'.
Proof.
  intros [H1 H2 H3] Hs. split.
  - apply submseteq_length in Hs. lia.
  - apply list.Forall_forall. intros x Hx. rewrite list.Forall_forall in H2.
    by apply H2, (elem_of_submseteq _ _ _ Hx).
  - apply (fmap_submseteq first_signature), submseteq_Permutation in Hs as [k Hk].
    rewrite Hk in H3. by apply list.NoDup_app in H3 as (? & _).
Qed.

Lemma drained_sub bs txs txs' : drained_ok bs txs → txs' ⊆+ txs → drained_ok bs txs'.
Proof.
  intros Hd Hs. destruct (batch_sub _ _ (drained_batch _ _ Hd) Hs) as [H1 H2 H3]. split; try done.
  intros tx sig Htx. apply (dr_fresh _ _ Hd). by eapply elem_of_submseteq.
Qed.

Lemma seal_draft_fields n d now :
  let b := (seal_draft n d now).1 in
  transactions b = (d_included d).*1 ∧ slot (header b) = wadd (tip_slot (tip n)) 1
  ∧ parent_hash (header b) = tip_blockhash (tip n) ∧ timestamp_ms (header b) = now
  ∧ (seal_draft n d now).2 = prepare_state_update (store n) (leaf_update <$> map_to_list (d_writes d))
  ∧ state_root (header b) = new_root (seal_draft n d now).2
  ∧ (Z.of_nat (length (d_included d).*1) ≤ u32_max →
     verify_block b (pubkey_of (node_sequencer n)) = true).
Proof.
  cbv zeta. unfold seal_draft. cbn [fst snd seal header transactions slot parent_hash timestamp_ms state_root].
  split; [exact eq_refl|]. split; [exact eq_refl|]. split; [exact eq_refl|]. split; [exact eq_refl|].
  split; [exact eq_refl|]. split; [exact eq_refl|].
  intros Hlen. apply verify_block_true. cbn [seal header transactions transaction_count transactions_root].
  split; [apply Z.mod_small; unfold u32_max in Hlen; lia|].
  split; [exact eq_refl|apply sig_verify_sign].
Qed.

(** A node whose tip is the last of the stored blocks. *)
Record tip_links (n : Node) (bs : list Block) : Prop := {
  tl_store : store_links (store n) bs;
  tl_seq : pubkey_of (node_sequencer n) = sequencer g;
  tl_slot : tip_slot (tip n) = Z.of_nat (length bs);
  tl_hash : tip_blockhash (tip n) = last_hash bs;
  tl_queue : bs ≠ [] → ∃ q, load_blockhash_queue (store n) = Ok (Some q)
                            ∧ entries q = entries (tip_queue (tip n));
}.

Lemma ok_links n bs : chain_ok n bs → tip_links n bs.
Proof. intros [Hsc ? ? ? ? _ _]. split; [by apply chain_links|done..]. Qed.

(** The block a draft of drained transactions is sealed into, which the store
    never refuses. *)
Lemma seal_commits n bs txs ds now d ls :
  tip_links n bs → Z.of_nat (length bs) < u64_max → batch_ok txs →
  draft_block pool_error_text n txs ds now = Ok (d, ls) →
  ∃ b st', let u := prepare_state_update (store n) (leaf_update <$> map_to_list (d_writes d)) in
    let q := register (tip_queue (tip n)) (slot (header b)) (hash_of b) in
    seal_draft n d now = (b, u)
    ∧ commit_block (store n) b (d_included d).*2 (map_to_list (d_writes d)) u q (d_nullifiers d) = Ok st'
    ∧ store_links st' (bs ++ [b]) ∧ (∃ q', load_blockhash_queue st' = Ok (Some q') ∧ entries q' = entries q)
    ∧ transactions b = (d_included d).*1 ∧ timestamp_ms (header b) = now
    ∧ length (state_root (header b)) = 32%nat ∧ slot (header b) = Z.of_nat (length bs) + 1
    ∧ parent_hash (header b) = last_hash bs ∧ verify_block b (sequencer g) = true.
Proof.
  intros [Hsl Hseq Hslot Hhash Hq] Hlt Hb Hd. apply draft_shape in Hd as (Hsub & _).
  destruct (batch_sub _ _ Hb Hsub) as [Hlen Hsig Hnd]. destruct (seal_draft n d now) as [b u] eqn:Hseal.
  pose proof (seal_draft_fields n d now) as (Htxs & Hbs & Hbp & Hbt & Hu & Hroot & Hver).
  rewrite Hseal in Htxs, Hbs, Hbp, Hbt, Hu, Hroot, Hver. cbn [fst snd] in *. clear Hseal.
  specialize (Hver Hlen). rewrite Hseq in Hver. rewrite Hhash in Hbp. rewrite <- Htxs in Hlen, Hsig, Hnd.
  rewrite Hslot, wadd_exact in Hbs by lia.
  set (q := register (tip_queue (tip n)) (slot (header b)) (hash_of b)).
  assert (Hok : is_ok (commit_block (store n) b (d_included d).*2 (map_to_list (d_writes d)) u q (d_nullifiers d)) = true).
  { apply commit_accepts. split_and!; [by rewrite Htxs, !length_fmap|done| |].
    - intros s Hs. rewrite (sl_latest _ _ Hsl) in Hs. assert (s = Z.of_nat (length bs)) by (destruct bs; congruence). lia.
    - eapply list.Forall_impl; [exact Hsig|]. intros tx [sig Hs] Hnil. unfold first_signature in Hs. by rewrite Hnil in Hs. }
  destruct (commit_block _ _ _ _ _ _ _) as [st'|e|] eqn:Hc in Hok; [|done..]. exists b, st'. cbv zeta.
  rewrite Hu in Hc. pose proof Hc as Hc0. eapply commit_links in Hc0 as [Hl Hq']; [|exact Hsl|done..].
  split_and!; [by rewrite <- Hu|exact Hc|exact Hl|exact Hq'|done|done| |done|done|done].
  rewrite Hroot, Hu. destruct (sl_tree _ _ Hsl) as (H32 & L & HL & Hl32). by eapply length_new_root.
Qed.

(** Sealing and committing a draft of drained transactions always succeeds and
    extends the chain by one block with exactly the drafted transactions. *)
Lemma commit_draft_step n bs txs ds now d ls :
  chain_ok n bs → Z.of_nat (length bs) < u64_max → drained_ok bs txs →
  draft_block pool_error_text n txs ds now = Ok (d, ls) →
  ∃ n' b, commit_draft n d ls now = Ok n' ∧ chain_ok n' (bs ++ [b])
    ∧ transactions b = (d_included d).*1 ∧ timestamp_ms (header b) = now ∧ length (state_root (header b)) = 32%nat
    ∧ mempool n' = mempool n ∧ options n' = options n ∧ tx_kept (store n) (store n')
    ∧ t_accounts (store n') = fold_left write_account (map_to_list (d_writes d)) (t_accounts (store n))
    ∧ ∀ i tx meta sig, d_included d !! i = Some (tx, meta) → first_signature tx = Some sig →
        ∃ loc, get_transaction (store n') sig = Ok (Some (loc, tx, meta)).
Proof.
  intros Hok Hlt Hdr Hd. pose proof Hok as [Hsc Hseq Hslot Hhash Hq Htree Hpub].
  destruct (seal_commits n bs txs ds now d ls (ok_links _ _ Hok) Hlt (drained_batch _ _ Hdr) Hd)
    as (b & st' & Hseal & Hc & Hsl & (q' & Hq' & Heq) & Htxs & Hbt & Hr32 & Hbs & Hbp & Hver). cbv zeta in Hseal, Hc.
  apply draft_shape in Hd as (Hsub & pre & l & ms & Hpart & Hlms & Hinc & ->).
  pose proof (drained_sub _ _ _ Hdr Hsub) as [Hlen Hsig Hnd Hfresh].
  unfold commit_draft. rewrite Hseal. rewrite <- Htxs in *.
  assert (Hfr : ∀ sig, sig ∈ omap first_signature (transactions b) → sig ∉ chain_sigs bs).
  { intros sig (tx & Htx & Hs)%list_elem_of_omap. by eapply Hfresh. }
  pose proof Hc as Hc0. eapply commit_chain in Hc0 as (Hsc' & _); [|exact Hsc|done..].
  assert (Hnew : rebuild_list st' ∅ (bs ++ [b])
                 = fold_left (λ t x, withdraw_apply t x.1 x.2) (leaf_of <$> succeeded l ms) (withdrawals n)).
  { unfold rebuild_list. rewrite fold_left_app. cbn [fold_left]. fold (rebuild_list st' ∅ bs).
    rewrite (rebuild_list_kept (store n) st' b (d_included d).*2 _ _ _ _ Hc bs ∅).
    - rewrite Htree, Hpart. eapply (rebuild_new (store n) st' b); [exact Hc|done|done| |done|].
      + rewrite Htxs, zip_fst_snd. exact Hinc.
      + apply list.Forall_forall. intros w Hw. rewrite <- Hpart, partition_withdraws_omap in Hw.
        apply list_elem_of_omap in Hw as (tx & Htx & Hto). apply to_withdraw_transaction in Hto as ->.
        rewrite list.Forall_forall in Hsig. by apply Hsig.
    - rewrite Hbs. apply holds_next, Hsc.
    - apply Hsc.
    - intros b' tx sig Hb' Htx Hs Hin. by eapply (Hfr sig), chain_sigs_in. }
  assert (Hfound : ∀ i tx meta sig, d_included d !! i = Some (tx, meta) → first_signature tx = Some sig →
            ∃ loc, get_transaction st' sig = Ok (Some (loc, tx, meta))).
  { intros i tx meta sig Hi Hsg. eexists. eapply (get_transaction_new (store n) st' b); [exact Hc|done|done| | |done].
    - rewrite Htxs, list_lookup_fmap, Hi. exact eq_refl.
    - rewrite list_lookup_fmap, Hi. exact eq_refl. }
  assert (Hkept : tx_kept (store n) st').
  { intros sig x Hx. eapply (get_transaction_kept (store n) st' b); [exact Hc| |rewrite Hbs; apply holds_next, Hsc|exact Hx].
    intros tx Htx Hs. apply (Hfr sig); [apply list_elem_of_omap; eauto|]. apply (sc_sigs _ _ Hsc).
    unfold get_transaction in Hx. by destruct (t_tx_loc (store n) !! sig). }
  assert (Hacc : t_accounts st' = fold_left write_account (map_to_list (d_writes d)) (t_accounts (store n)))
    by by apply commit_tables in Hc as (? & _).
  unfold hash_of in Hc. rewrite Hc. cbn [map_err obind]. unfold publish_leaves.
  destruct (leaf_of <$> succeeded l ms) as [|x xs] eqn:Hls.
  - eexists _, b. split; [done|]. split_and!; [|done..|exact Hkept|exact Hacc|exact Hfound].
    split; cbn [store tip tip_slot tip_blockhash tip_queue node_sequencer withdrawals]; try done.
    + rewrite length_app. cbn [length]. lia.
    + by rewrite last_hash_snoc.
    + intros _. by exists q'.
    + rewrite <- Hpub. unfold withdrawals_root, read_meta_h256, read_meta.
      apply commit_tables in Hc as (_ & _ & _ & _ & -> & _). by rewrite !lookup_insert_ne.
  - eexists _, b. split; [done|]. split_and!; [|done..|exact Hkept|exact Hacc|exact Hfound].
    split; cbn [store tip tip_slot tip_blockhash tip_queue node_sequencer withdrawals]; try done.
    + by apply publish_chain.
    + rewrite length_app. cbn [length]. lia.
    + by rewrite last_hash_snoc.
    + intros _. rewrite publish_queue. by exists q'.
    + apply published_root. rewrite <- Hnew, rebuild_list_all. apply withdraw_root_length.
Qed.

(** ** Restoring a node *)

Lemma genesis_store_chain extra st root :
  initialize_genesis open_store g extra = Ok (st, root) → store_chain st [].
Proof.
  intros Hg. pose proof (genesis_tx_table open_store g extra st root eq_refl Hg) as [Htx Hta].
  cbn [t_tx_loc t_addr_sigs open_store] in Htx, Hta.
  apply genesis_tables in Hg as (_ & Hsmt & Hb & Hm & Hroot); [|done].
  destruct (write_smt_nodes_step open_store no_leaves (leaf_update <$> genesis_writes g extra))
    as (H32 & HL & _); [apply map_Forall_empty|apply fresh_presents|].
  rewrite <- Hsmt in H32, HL.
  split.
  - unfold get_genesis_hash, read_meta_h256, read_meta. rewrite Hm, lookup_insert_ne, lookup_insert_eq by done.
    cbn [mbind option_bind]. by rewrite decide_True by apply length_genesis_hash.
  - exists root. apply state_root_read; [by rewrite Hm, lookup_insert_eq, Hroot|]. rewrite Hroot.
    apply (length_new_root _ _ no_leaves); [apply map_Forall_empty|apply fresh_presents|].
    apply length_no_leaves.
  - split; [done|]. eexists. split.
    + eapply source_presents_ext; [|exact HL]. intros k. by rewrite get_node_32.
    + apply set_updates_length, length_no_leaves.
  - by vm_compute.
  - unfold latest_slot, read_meta. rewrite Hm, !lookup_insert_ne by done. exact eq_refl.
  - intros s. rewrite Hb. cbn [t_blocks open_store]. rewrite lookup_empty. unfold blocks_at.
    by case_decide.
  - exact I.
  - intros sig. rewrite Htx, lookup_empty. cbn. split; [by intros [? ?]|by intros ?%not_elem_of_nil].
  - constructor.
  - intros sig. rewrite Htx, lookup_empty. by intros [? ?].
  - split; [|by intros s b i tx sig Hb'; unfold blocks_at in Hb'; case_decide|constructor].
    exact Hta.
Qed.

Lemma genesis_again extra st bs :
  store_links st bs → ∃ root, initialize_genesis st g extra = Ok (st, root).
Proof.
  intros Hsl. unfold initialize_genesis. rewrite (sl_genesis _ _ Hsl).
  rewrite decide_False by (intros Hn; by apply Hn). destruct (sl_root _ _ Hsl) as [r ->]. by exists r.
Qed.

Lemma blocks_at_last bs :
  blocks_at bs (Z.of_nat (length bs)) = list.last bs.
Proof.
  unfold blocks_at. rewrite last_lookup. destruct bs as [|b bs]; [done|].
  rewrite decide_True by (cbn; lia). f_equal. cbn [length]. lia.
Qed.

Definition queue_saved (st : Store) (bs : list Block) : Prop :=
  bs ≠ [] → ∃ q, load_blockhash_queue st = Ok (Some q).

Lemma restore_chain st bs :
  store_links st bs → queue_saved st bs →
  ∃ q, restore_tip st (genesis_hash g) = Ok (q, Z.of_nat (length bs), last_hash bs)
       ∧ (bs ≠ [] → load_blockhash_queue st = Ok (Some q)).
Proof.
  intros Hsl Hq. unfold restore_tip. rewrite (sl_latest _ _ Hsl).
  destruct bs as [|b0 bs0] eqn:Hbs; [eexists; split; [done|done]|]. rewrite <- Hbs in *.
  destruct (Hq ltac:(congruence)) as [q Hl]. exists q. split; [|done].
  rewrite Hl. cbn [map_err obind ok_or].
  rewrite (holds_get_block st bs) by apply Hsl. rewrite blocks_at_last.
  unfold last_hash, hash_of. destruct (list.last bs) as [b|] eqn:Hlast; [done|].
  apply last_None in Hlast. congruence.
Qed.

(** The configuration a node is started with. *)
Definition options_ok (opts : NodeOptions) : Prop :=
  0 ≤ opt_mempool_capacity opts ≤ u64_max ∧ Z.of_nat (max_block_transactions opts) ≤ u32_max.

(** What sealing gives a header beyond its place in the chain. *)
Definition sealed_ok (b : Block) : Prop := length (state_root (header b)) = 32%nat ∧ u64 (timestamp_ms (header b)).

Record node_inv (n : Node) (bs : list Block) : Prop := {
  ni_chain : chain_ok n bs;
  ni_mempool : mempool_inv (mempool n);
  ni_capacity : 0 ≤ mp_capacity (mempool n) ≤ u64_max;
  ni_block : Z.of_nat (max_block_transactions (options n)) ≤ u32_max;
  ni_fresh : ∀ tx sig, tx ∈ queue (mempool n) → first_signature tx = Some sig → sig ∉ chain_sigs bs;
  ni_sealed : Forall sealed_ok bs;
}.

(** The accounts a node adds to the genesis allocations. *)
Definition boot_accounts (extra : list BuiltinSpec) : list (Pubkey * StoredAccount) :=
  genesis_accounts {| ex_fee_collector := fee_collector g; builtin_specs := default_builtins ++ extra;
                      reserved_keys := reserved_account_keys |}
  ++ [genesis_pool_account (pool_config POOL_STATE_ADDRESS POOL_VAULT_ADDRESS (fee_collector g))].

(** What a node is when it has started on stored blocks. *)
Record started (st : Store) (bs : list Block) (kp : Keypair) (opts : NodeOptions) (now : Z) (n : Node) : Prop := {
  sd_seq : node_sequencer n = kp;
  sd_slot : tip_slot (tip n) = Z.of_nat (length bs);
  sd_hash : tip_blockhash (tip n) = last_hash bs;
  sd_time : last_block_unix_ms (tip n) = now;
  sd_queue : bs ≠ [] → load_blockhash_queue st = Ok (Some (tip_queue (tip n)));
  sd_tree : withdrawals n = rebuild_list st ∅ bs;
  sd_store : store n = set_withdrawals_root st (withdraw_root (withdrawals n));
  sd_mempool : mempool n = new_mempool (opt_mempool_capacity opts) (opt_max_per_payer opts);
  sd_options : options n = opts;
}.

(** Starting on a chain's store always succeeds with the sequencer's key. *)
Lemma start_on_links st st0 bs kp extra opts now root :
  pubkey_of kp = sequencer g → runtime_environment_ok = true →
  initialize_genesis st0 g (boot_accounts extra) = Ok (st, root) →
  store_links st bs → queue_saved st bs →
  ∃ n, new_node st0 g kp extra opts now = Ok n ∧ started st bs kp opts now n.
Proof.
  intros Hkp Henv Hg Hsl Hq. unfold new_node. rewrite decide_False by (intros Hn; by apply Hn).
  unfold new_executor. rewrite Henv. cbn [map_err obind]. cbv zeta. fold (boot_accounts extra). rewrite Hg. cbn [map_err obind].
  destruct (restore_chain st bs Hsl Hq) as (q & Hr & Hqs). rewrite Hr. cbn [obind].
  unfold rebuild_withdrawals. cbn [store withdrawals].
  assert (Hl : default 0 (latest_slot st) = Z.of_nat (length bs))
    by (rewrite (sl_latest _ _ Hsl); by destruct bs).
  rewrite (rebuild_tree_chain st bs) by (done || apply Hsl). cbn [map_err obind].
  eexists. split; [done|]. by split.
Qed.

(** A node that has started is at the tip of the stored blocks. *)
Lemma started_links st bs kp opts now n :
  pubkey_of kp = sequencer g → store_links st bs → started st bs kp opts now n → tip_links n bs.
Proof.
  intros Hkp Hsl []. split; [|by subst|done|done|].
  - rewrite sd_store0. by apply publish_links.
  - intros Hne. rewrite sd_store0, publish_queue. eauto.
Qed.

(** It restores the chain when nothing is repeated in it. *)
Lemma start_on_chain st st0 bs kp extra opts now root :
  pubkey_of kp = sequencer g → runtime_environment_ok = true → options_ok opts →
  initialize_genesis st0 g (boot_accounts extra) = Ok (st, root) →
  store_chain st bs → queue_saved st bs → Forall sealed_ok bs →
  ∃ n, new_node st0 g kp extra opts now = Ok n ∧ node_inv n bs ∧ started st bs kp opts now n.
Proof.
  intros Hkp Henv [Hcap Hmax] Hg Hsc Hq Hsl.
  destruct (start_on_links st st0 bs kp extra opts now root Hkp Henv Hg (chain_links _ _ Hsc) Hq) as (n & Hn & Hs).
  exists n. split_and!; [exact Hn| |exact Hs]. destruct (started_links _ _ _ _ _ _ Hkp (chain_links _ _ Hsc) Hs) as [_ ? ? ? ?].
  destruct Hs as [Hseq _ _ _ _ Htree Hst Hm Ho]. split; rewrite ?Hm, ?Ho; try done.
  - split; try done; rewrite Hst.
    + by apply publish_chain.
    + done.
    + apply published_root. rewrite Htree, rebuild_list_all. apply withdraw_root_length.
  - apply new_mempool_inv; lia.
  - intros tx sig Htx. by apply not_elem_of_nil in Htx.
Qed.

(** ** Operations in any order *)

Inductive node_step : Node → Node → Prop :=
| step_submit n tx n' r : submit_transaction n tx = (n', r) → node_step n n'
| step_airdrop n key amount n' r :
    request_airdrop signed_transfer n key amount = (n', r) → node_step n n'
| step_deposits n ds : node_step n (enqueue_deposits n ds)
| step_draining n : node_step n (begin_draining n)
| step_produce n now n' r :
    u64 now → tip_slot (tip n) < u64_max → try_produce_block pool_error_text n now = (n', r) → node_step n n'
| step_restart n kp extra opts now n' :
    options_ok opts → new_node (store n) g kp extra opts now = Ok n' → node_step n n'.

Inductive node_reachable : Node → Prop :=
| reach_boot kp extra opts now n :
    options_ok opts → new_node open_store g kp extra opts now = Ok n → node_reachable n
| reach_step n n' : node_reachable n → node_step n n' → node_reachable n'.

Lemma new_node_ok st kp extra opts now n :
  new_node st g kp extra opts now = Ok n →
  pubkey_of kp = sequencer g ∧ runtime_environment_ok = true.
Proof.
  unfold new_node. destruct (decide (pubkey_of kp ≠ sequencer g)) as [|Hkp%dec_stable]; [done|].
  unfold new_executor. destruct runtime_environment_ok; [done|]. done.
Qed.

Lemma boot_state kp extra opts now n :
  options_ok opts → new_node open_store g kp extra opts now = Ok n →
  node_inv n [] ∧ ∃ ws, t_accounts (store n) = fold_left write_account ws ∅.
Proof.
  intros Ho Hn. destruct (new_node_ok _ _ _ _ _ _ Hn) as [Hkp Henv].
  destruct (initialize_genesis open_store g (boot_accounts extra)) as [[st root]|e|] eqn:Hg.
  2,3: by unfold initialize_genesis in Hg.
  destruct (start_on_chain st open_store [] kp extra opts now root) as (n1 & Hn1 & Hi & Hs);
    [done|done|done|exact Hg|by eapply genesis_store_chain|by intros Hne|done|].
  rewrite Hn in Hn1. injection Hn1 as <-. split; [done|].
  apply genesis_tables in Hg as (Ht & _); [|done]. rewrite (sd_store _ _ _ _ _ _ Hs). by eexists.
Qed.

Lemma boot_inv kp extra opts now n :
  options_ok opts → new_node open_store g kp extra opts now = Ok n → node_inv n [].
Proof. intros Ho Hn. by apply (boot_state kp extra opts now). Qed.

Lemma restart_inv n bs kp extra opts now :
  node_inv n bs → options_ok opts → pubkey_of kp = sequencer g → runtime_environment_ok = true →
  ∃ n', new_node (store n) g kp extra opts now = Ok n' ∧ node_inv n' bs
    ∧ withdrawals n' = withdrawals n
    ∧ (bs ≠ [] → entries (tip_queue (tip n')) = entries (tip_queue (tip n)))
    ∧ store n' = set_withdrawals_root (store n) (withdraw_root (withdrawals n)).
Proof.
  intros [[Hsc Hseq Hslot Hhash Hq Htree _] Hm Hcap Hmax Hfr Hsl] Ho Hkp Henv.
  destruct (genesis_again (boot_accounts extra) _ _ (chain_links _ _ Hsc)) as [root Hg].
  destruct (start_on_chain (store n) (store n) bs kp extra opts now root)
    as (n' & Hn' & Hi & [_ _ _ _ Hqq Hw Hst _ _]); [done|done|done|exact Hg|done| |done|].
  { intros Hne. destruct (Hq Hne) as (q & Hl & _). eauto. }
  exists n'. split_and!; [done|done|congruence| |congruence].
  intros Hne. specialize (Hqq Hne). destruct (Hq Hne) as (q & Hl & He). congruence.
Qed.

Lemma submit_inv n bs tx n' r :
  node_inv n bs → submit_transaction n tx = (n', r) → node_inv n' bs.
Proof.
  intros Hi. unfold submit_transaction. destruct (admit_tx n tx) as [sig|e|] eqn:Ha; [|by intros [= <- _]..].
  destruct (push (mempool n) tx) as [[mp s]|[]|] eqn:Hp; try by intros [= <- _].
  intros [= <- _]. destruct Hi as [Hc Hm Hcap Hmax Hfr Hsl].
  pose proof (push_inv _ _ _ _ Hm Hp) as Hm'.
  destruct (push_adds _ _ _ _ Hp) as (Hqu & Hcp & Hs).
  split; cbn [with_queues mempool options]; [|done|by rewrite Hcp|done| |done].
  - destruct Hc. by split.
  - rewrite Hqu. intros tx' sig' [Htx|Htx]%elem_of_app; [by apply Hfr|].
    apply list_elem_of_singleton in Htx as ->. intros Hs'.
    unfold admit_tx in Ha. unfold first_signature in Hs'. rewrite Hs' in Ha.
    destruct (verify_and_hash_message tx); [|done]. apply obind_Ok in Ha as (t & _ & Ha). destruct (negb _); [done|].
    apply obind_Ok in Ha as (found & Hf & Ha). destruct found; [done|].
    destruct (get_transaction (store n) sig') as [o| |] eqn:Hg; cbn in Hf; [|done|done]. injection Hf as ->.
    intros Hin. apply (sc_sigs _ _ (co_store _ _ Hc)) in Hin.
    apply (sc_index _ _ (co_store _ _ Hc)) in Hin as [x Hx]. congruence.
Qed.

(** An airdrop submits a transaction or nothing. *)
Lemma airdrop_submits n key amount n' r :
  request_airdrop signed_transfer n key amount = (n', r) →
  n' = n ∨ ∃ tx, submit_transaction n tx = (n', r).
Proof.
  unfold request_airdrop. destruct (faucet (options n)); [|intros [= <- _]; by left].
  case_decide; [intros [= <- _]; by left|]. unfold read_tip. destruct (tip_poisoned n); [intros [= <- _]; by left|].
  intros Hs. right. by eexists.
Qed.

(** What is drained can be committed, and what stays queued stays fresh. *)
Lemma drain_split m k bs :
  mempool_inv m → Z.of_nat k ≤ u32_max →
  (∀ tx sig, tx ∈ queue m → first_signature tx = Some sig → sig ∉ chain_sigs bs) →
  drained_ok bs (drain m k).2
  ∧ (∀ tx sig, tx ∈ queue (drain m k).1 → first_signature tx = Some sig →
       sig ∉ chain_sigs bs ∧ sig ∉ omap first_signature (drain m k).2).
Proof.
  intros [[Hsg Hnd _ _] _ _] Hk Hfr.
  assert (Happ : queue m = (drain m k).2 ++ queue (drain m k).1) by (unfold drain; cbn; by rewrite take_drop).
  rewrite Happ in Hsg, Hnd, Hfr. rewrite fmap_app in Hnd.
  apply list.Forall_app in Hsg as [Hsg _]. apply list.NoDup_app in Hnd as (Hnd & Hdis & _).
  split; [split|].
  - unfold drain. cbn. rewrite length_take. lia.
  - eapply list.Forall_impl; [exact Hsg|]. by intros x [? _].
  - done.
  - intros tx sig Htx. apply Hfr. apply elem_of_app. by left.
  - intros tx sig Htx Hs. split; [apply (Hfr tx); [apply elem_of_app; by right|done]|].
    intros (tx' & Htx' & Hs')%list_elem_of_omap. apply (Hdis (Some sig)).
    + apply list_elem_of_fmap. exists tx'. by rewrite Hs'.
    + apply list_elem_of_fmap. exists tx. by rewrite Hs.
Qed.

Lemma chain_ok_queues n bs mp ds : chain_ok n bs → chain_ok (with_queues n mp ds) bs.
Proof. intros []. by split. Qed.

Lemma poison_inv n bs : node_inv n bs → node_inv (poison n) bs.
Proof. intros [[] ]. by split. Qed.

(** A production attempt keeps the chain, or extends it by one block made of
    drained transactions; it extends it whenever the draft succeeds. *)
Lemma produce_inv n bs now n' r :
  node_inv n bs → u64 now → tip_slot (tip n) < u64_max →
  try_produce_block pool_error_text n now = (n', r) →
  (node_inv n' bs ∧ r ≠ Ok (Some (tip_slot (tip n'))) ∧ tip n' = tip n ∧ store n' = store n)
  ∨ ∃ b, node_inv n' (bs ++ [b]) ∧ r = Ok (Some (Z.of_nat (length bs) + 1)) ∧ tx_kept (store n) (store n')
         ∧ (∃ ws, t_accounts (store n') = fold_left write_account ws (t_accounts (store n)))
         ∧ transactions b ⊆+ (drain (mempool n) (max_block_transactions (options n))).2
         ∧ timestamp_ms (header b) = now.
Proof.
  intros [Hc Hm Hcap Hmax Hfr Hsl] Hnow Hlt. unfold try_produce_block.
  destruct (drain (mempool n) (max_block_transactions (options n))) as [mp txs] eqn:Hd.
  pose proof (drain_split (mempool n) (max_block_transactions (options n)) bs Hm Hmax Hfr) as [Hdr Hrest].
  assert (Hmp : mempool_inv mp ∧ mp_capacity mp = mp_capacity (mempool n)).
  { split; [|unfold drain in Hd; by injection Hd as <- _].
    replace mp with (drain (mempool n) (max_block_transactions (options n))).1 by by rewrite Hd.
    apply drain_inv; [|done]. destruct Hm as [_ Hq _]. lia. }
  rewrite Hd in Hdr, Hrest. cbn [fst snd] in Hdr, Hrest. destruct Hmp as [Hmp Hmc].
  set (n0 := with_queues n mp []).
  assert (Hc0 : chain_ok n0 bs) by by apply chain_ok_queues.
  assert (Hi0 : node_inv n0 bs).
  { split; cbn [n0 with_queues mempool options]; [done|done|by rewrite Hmc|done| |done].
    intros tx sig Htx Hs. by apply (Hrest tx). }
  destruct (tip_poisoned n0); [intros [= <- <-]; left; done|].
  destruct (_ && _ && _).
  { intros [= <- <-]. left. done. }
  destruct (draft_block pool_error_text n0 txs (pending_deposits n) now) as [[d ls]|e|] eqn:Hdraft;
    cbn [obind]; [|intros [= <- <-]; left; by split_and!; [try apply poison_inv|..]..].
  rewrite (co_slot _ _ Hc) in Hlt.
  destruct (commit_draft_step n0 bs txs _ now d ls Hc0 Hlt Hdr Hdraft)
    as (n1 & b & Hcm & Hc1 & Htb & Htime & Hr32 & Hm1 & Ho1 & Hkept & Hacc & _).
  rewrite Hcm. intros [= <- <-]. right. exists b.
  assert (Hsub : transactions b ⊆+ txs) by (rewrite Htb; by apply draft_shape in Hdraft as [? _]).
  split_and!; [|by rewrite (co_slot _ _ Hc1), length_app, Nat2Z.inj_add|exact Hkept|by eexists|done|done].
  split; rewrite ?Hm1, ?Ho1; cbn [n0 with_queues mempool options]; [done|done|by rewrite Hmc|done| |].
  2:{ apply list.Forall_app. split; [done|]. constructor; [|constructor]. split; [done|by rewrite Htime]. }
  intros tx sig Htx Hs. rewrite chain_sigs_snoc, not_elem_of_app. split; [by apply (Hrest tx)|].
  intros (tx' & Htx' & Hs')%list_elem_of_omap. apply (proj2 (Hrest tx sig Htx Hs)), list_elem_of_omap.
  exists tx'. split; [by eapply elem_of_submseteq|done].
Qed.

Lemma submit_store n tx n' r : submit_transaction n tx = (n', r) → store n' = store n.
Proof.
  unfold submit_transaction. destruct (admit_tx n tx); [|by intros [= <- _]..].
  destruct (push (mempool n) tx) as [[mp s]|[]|]; by intros [= <- _].
Qed.

Lemma kept_refl st : tx_kept st st.
Proof. by intros sig x. Qed.

(** Every step keeps the chain or extends it by one block, and keeps what the
    store knows of its transactions. *)
Lemma step_kept n bs n' : node_inv n bs → node_step n n' → tx_kept (store n) (store n').
Proof.
  intros Hi Hstep. destruct Hstep as [nd tx nd' r Hs|nd key amount nd' r Hs|nd ds|nd|nd now nd' r Hnow Hlt Hs|nd kp extra opts now nd' Ho Hs].
  - rewrite (submit_store _ _ _ _ Hs). apply kept_refl.
  - apply airdrop_submits in Hs as [->|[tx Hs]]; [apply kept_refl|]. rewrite (submit_store _ _ _ _ Hs). apply kept_refl.
  - apply kept_refl.
  - apply kept_refl.
  - destruct (produce_inv _ _ _ _ _ Hi Hnow Hlt Hs) as [(_ & _ & _ & ->)|(b & _ & _ & Hk & _)]; [apply kept_refl|exact Hk].
  - destruct (new_node_ok _ _ _ _ _ _ Hs) as [Hkp Henv].
    destruct (restart_inv _ _ kp extra opts now Hi Ho Hkp Henv) as (n1 & Hn1 & _ & _ & _ & Hst).
    rewrite Hs in Hn1. injection Hn1 as <-. rewrite Hst. by intros sig x.
Qed.

(** Stored accounts always decode. *)
Lemma step_decodes n bs n' :
  node_inv n bs → node_step n n' → decodes (t_accounts (store n)) → decodes (t_accounts (store n')).
Proof.
  intros Hi Hstep Hd. destruct Hstep as [nd tx nd' r Hs|nd key amount nd' r Hs|nd ds|nd|nd now nd' r Hnow Hlt Hs|nd kp extra opts now nd' Ho Hs].
  - by rewrite (submit_store _ _ _ _ Hs).
  - apply airdrop_submits in Hs as [->|[tx Hs]]; [done|]. by rewrite (submit_store _ _ _ _ Hs).
  - done.
  - done.
  - destruct (produce_inv _ _ _ _ _ Hi Hnow Hlt Hs) as [(_ & _ & _ & ->)|(b & _ & _ & _ & [ws ->] & _)]; [done|].
    by apply writes_decode.
  - destruct (new_node_ok _ _ _ _ _ _ Hs) as [Hkp Henv].
    destruct (restart_inv _ _ kp extra opts now Hi Ho Hkp Henv) as (n1 & Hn1 & _ & _ & _ & Hst).
    rewrite Hs in Hn1. injection Hn1 as <-. by rewrite Hst.
Qed.

Lemma step_inv n bs n' :
  node_inv n bs → node_step n n' → node_inv n' bs ∨ ∃ b, node_inv n' (bs ++ [b]).
Proof.
  intros Hi Hstep. destruct Hstep as [nd tx nd' r Hs|nd key amount nd' r Hs|nd ds|nd|nd now nd' r Hnow Hlt Hs|nd kp extra opts now nd' Ho Hs].
  - left. by eapply submit_inv.
  - left. apply airdrop_submits in Hs as [->|[tx Hs]]; [done|]. by eapply submit_inv.
  - left. destruct Hi. split; try done. by apply chain_ok_queues.
  - left. destruct Hi as [[] ]. by split.
  - destruct (produce_inv _ _ _ _ _ Hi Hnow Hlt Hs) as [(? & _)|(b & ? & _)]; eauto.
  - left. destruct (new_node_ok _ _ _ _ _ _ Hs) as [Hkp Henv].
    destruct (restart_inv _ _ kp extra opts now Hi Ho Hkp Henv) as (n1 & Hn1 & ? & _).
    rewrite Hs in Hn1. by injection Hn1 as <-.
Qed.

Lemma reachable_inv n : node_reachable n → ∃ bs, node_inv n bs.
Proof.
  induction 1 as [kp extra opts now n Ho Hn|n n' _ [bs Hi] Hstep].
  - exists []. by eapply boot_inv.
  - destruct (step_inv n bs n' Hi Hstep) as [?|[b ?]]; eauto.
Qed.

Lemma reachable_decodes n : node_reachable n → decodes (t_accounts (store n)).
Proof.
  induction 1 as [kp extra opts now n Ho Hn|n n' Hr IH Hstep].
  - destruct (boot_state kp extra opts now n Ho Hn) as [_ [ws ->]]. apply writes_decode, map_Forall_empty.
  - destruct (reachable_inv n Hr) as [bs Hi]. by eapply step_decodes.
Qed.

(** A fresh node: nothing queued, the genesis hash as the tip, the genesis
    accounts and no transactions. *)
Record fresh (extra : list BuiltinSpec) (opts : NodeOptions) (now : Z) (n : Node) : Prop := {
  fr_mempool : mempool n = new_mempool (opt_mempool_capacity opts) (opt_max_per_payer opts);
  fr_deposits : pending_deposits n = [];
  fr_slot : tip_slot (tip n) = 0;
  fr_time : last_block_unix_ms (tip n) = now;
  fr_lock : tip_poisoned n = false;
  fr_options : options n = opts;
  fr_queue : tip_queue (tip n) = register new_queue 0 (genesis_hash g);
  fr_accounts : t_accounts (store n) = fold_left write_account (genesis_writes g (boot_accounts extra)) ∅;
  fr_index : t_tx_loc (store n) = ∅;
  fr_collector : node_fee_collector n = fee_collector g;
  fr_executor : ex_fee_collector (executor n) = fee_collector g;
}.

Lemma boot_reachable kp (extra : list BuiltinSpec) opts now :
  options_ok opts → pubkey_of kp = sequencer g → runtime_environment_ok = true →
  ∃ n, node_reachable n ∧ new_node open_store g kp extra opts now = Ok n ∧ fresh extra opts now n.
Proof.
  intros Ho Hkp Henv.
  destruct (initialize_genesis open_store g (boot_accounts extra)) as [[st root]|e|] eqn:Hg.
  2,3: by unfold initialize_genesis in Hg.
  pose proof (genesis_store_chain _ _ _ Hg) as Hsc.
  destruct (start_on_chain st open_store [] kp extra opts now root) as (n & Hn & _);
    [done|done|done|exact Hg|done|by intros Hne|done|].
  exists n. split; [by eapply reach_boot|]. split; [exact Hn|].
  pose proof (proj1 (genesis_tx_table open_store g _ st root eq_refl Hg)) as Htx.
  pose proof (genesis_tables open_store g _ st root eq_refl Hg) as [Hacc _].
  unfold new_node in Hn. rewrite decide_False in Hn by (intros Hne; by apply Hne).
  unfold new_executor in Hn. rewrite Henv in Hn. cbn [map_err obind] in Hn. cbv zeta in Hn.
  fold (boot_accounts extra) in Hn. rewrite Hg in Hn. cbn [map_err obind] in Hn.
  unfold restore_tip in Hn. rewrite (sc_latest _ _ Hsc) in Hn. cbn [obind] in Hn.
  unfold rebuild_withdrawals in Hn. apply obind_Ok in Hn as (tree & _ & Hn). injection Hn as <-.
  by split.
Qed.


(** The withdrawals of a chain keep their outcome and are only added to. *)
Lemma withdrawals_kept st st' bs :
  store_chain st bs → tx_kept st st' → successful_withdrawals st' bs = successful_withdrawals st bs.
Proof.
  intros Hsc Hk. apply list_filter_iff_elem. intros w Hw.
  apply list_elem_of_In, in_concat in Hw as (l & Hl & Hw).
  apply list_elem_of_In, list_elem_of_fmap in Hl as (b & -> & Hb). apply list_elem_of_In in Hw.
  rewrite partition_withdraws_omap in Hw. apply list_elem_of_omap in Hw as (tx & Htx & Hto%to_withdraw_transaction).
  unfold withdraw_succeeded. rewrite Hto. fold (first_signature tx).
  destruct (first_signature tx) as [sig|] eqn:Hs; [|done].
  destruct (sc_index _ _ Hsc sig) as [x Hx]; [by eapply (sc_sigs _ _ Hsc), chain_sigs_in|]. by rewrite (Hk sig x Hx), Hx.
Qed.

Lemma withdrawals_grow st st' bs more :
  store_chain st bs → tx_kept st st' →
  successful_withdrawals st bs `prefix_of` successful_withdrawals st' (bs ++ more).
Proof.
  intros Hsc Hk. rewrite <- (withdrawals_kept st st' bs) by done. unfold successful_withdrawals.
  rewrite fmap_app, concat_app, list.filter_app. by eexists.
Qed.

Lemma published_withdrawals n bs :
  chain_ok n bs → withdrawals_root (store n) = withdraw_root (withdraw_all (leaf_of <$> successful_withdrawals (store n) bs)).
Proof. intros Hc. by rewrite (co_published _ _ Hc), <- (co_tree _ _ Hc), rebuild_list_all. Qed.

(** What a reachable node publishes about withdrawals: the tree of those its
    blocks record as successful, and its root. *)
Lemma reachable_withdrawals n bs :
  node_reachable n → stores_chain (store n) bs →
  withdrawals n = withdraw_all (leaf_of <$> successful_withdrawals (store n) bs)
  ∧ withdrawals_root (store n) = withdraw_root (withdrawals n)
  ∧ Forall withdraw_wf (successful_withdrawals (store n) bs).
Proof.
  intros (bs0 & Hi)%reachable_inv Hbs. destruct (ni_chain _ _ Hi) as [Hsc _ _ _ _ Htree Hpub].
  rewrite (stores_chain_unique (store n) bs bs0 Hbs) in *
    by (intros s; apply holds_get_block, Hsc).
  split_and!; [|exact Hpub|].
  - by rewrite <- Htree, rebuild_list_all.
  - apply list.Forall_forall. intros w [_ Hw]%list_elem_of_filter.
    apply list_elem_of_In, in_concat in Hw as (l & Hl & Hw). apply list_elem_of_In, list_elem_of_fmap in Hl as (b & -> & _).
    pose proof (partition_withdraws_wf (transactions b)) as Hf. rewrite list.Forall_forall in Hf.
    apply Hf, list_elem_of_In, Hw.
Qed.

(** A transaction for the executor, or a withdrawal of gas: neither a pool
    transaction nor a withdrawal of a wrapped token. *)
Definition plain_tx (gas_mint : option Pubkey) (tx : VersionedTransaction) : bool :=
  match to_withdraw tx with
  | Some w => is_native_withdraw gas_mint w
  | None => bool_decide (try_parse_pool_tx tx = None)
  end.

(** A reachable store answers every lookup of a transaction. *)
Lemma found_total st bs : store_chain st bs → ∀ sig, ∃ found, get_transaction st sig = Ok found.
Proof.
  intros Hsc sig. destruct (t_tx_loc st !! sig) eqn:Hl.
  - destruct (sc_index _ _ Hsc sig) as [x Hx]; [by rewrite Hl|]. by eexists.
  - exists None. unfold get_transaction. by rewrite Hl.
Qed.

(** Plain transactions and native deposits always draft, with every withdrawal
    among them in the block. *)
Lemma plain_draft n bs txs ds now :
  store_chain (store n) bs → decodes (t_accounts (store n)) →
  Forall (λ tx, plain_tx (opt_gas_mint (options n)) tx = true) txs →
  Forall (λ d, credits_native_gas (opt_gas_mint (options n)) d = true) ds →
  ∃ d ls, draft_block pool_error_text n txs ds now = Ok (d, ls)
    ∧ ∀ tx, tx ∈ txs → is_Some (to_withdraw tx) → ∃ meta, (tx, meta) ∈ d_included d.
Proof.
  intros Hsc Hdec Htx Hds. unfold draft_block.
  pose proof (partition_withdraws_omap txs) as Hw. pose proof (proj1 (partition_withdraws_spec txs)) as Hrest.
  destruct (partition_withdraws txs) as [ws rest]. cbn [fst snd] in Hw, Hrest. rewrite list.Forall_forall in Htx.
  assert (Hp : partition rest = ([], rest)).
  { assert (Hf : ∀ tx, tx ∈ rest → try_parse_pool_tx tx = None).
    { intros tx. rewrite Hrest. intros [Hn Hin]%list_elem_of_filter. specialize (Htx tx Hin). unfold plain_tx in Htx.
      rewrite (to_withdraw_None _ Hn) in Htx. by apply bool_decide_eq_true in Htx. }
    pose proof (partition_spec rest) as [H2 H1]. destruct (partition rest) as [pts reg]. cbn [fst snd] in *.
    assert (pts = []) as -> by (apply (fmap_nil_inv p_transaction); rewrite H1; apply list_filter_none; intros tx ? []; auto).
    f_equal. rewrite H2. by apply list_filter_all. }
  rewrite Hp. match goal with |- context [execute_block ?ex ?st ?i] =>
    destruct (execute_total ex st i (found_total _ _ Hsc)) as [out ->] end.
  cbn [map_err obind pool_phase d_writes d_included].
  destruct (native_deposits_total (opt_gas_mint (options n)) (store n) ds Hdec Hds
    (insert_entries id (out_account_writes out) ∅)) as [[w k] ->]. cbn [map_err obind].
  destruct (native_withdraws_total (opt_gas_mint (options n)) (node_fee_collector n) (store n) ws) with
    (w := w) (inc := included out) as (r & -> & Hinc).
  { apply list.Forall_forall. intros wd. rewrite Hw. intros (tx & Hin & Hto)%list_elem_of_omap.
    specialize (Htx tx Hin). unfold plain_tx in Htx. by rewrite Hto in Htx. }
  eexists _, _. split; [done|]. cbn [d_included]. intros tx Hin [wd Hto]. apply Hinc, list_elem_of_fmap.
  exists wd. split; [by rewrite (to_withdraw_transaction _ _ Hto)|]. rewrite Hw. apply list_elem_of_omap. by exists tx.
Qed.

(** A production attempt whose draft succeeds commits the next block. *)
Lemma produce_commits n bs now d ls mp txs :
  node_inv n bs → tip_poisoned n = false → tip_slot (tip n) < u64_max →
  drain (mempool n) (max_block_transactions (options n)) = (mp, txs) →
  (txs ≠ [] ∨ pending_deposits n ≠ [] ∨ heartbeat_due n now = true) →
  draft_block pool_error_text (with_queues n mp []) txs (pending_deposits n) now = Ok (d, ls) →
  ∃ n' b, try_produce_block pool_error_text n now = (n', Ok (Some (tip_slot (tip n) + 1)))
    ∧ chain_ok n' (bs ++ [b]) ∧ transactions b = (d_included d).*1
    ∧ last_block_unix_ms (tip n') = now ∧ tip_slot (tip n') = tip_slot (tip n) + 1
    ∧ tip_poisoned n' = false
    ∧ t_accounts (store n') = fold_left write_account (map_to_list (d_writes d)) (t_accounts (store n))
    ∧ ∀ i tx meta sig, d_included d !! i = Some (tx, meta) → first_signature tx = Some sig →
        ∃ loc, get_transaction (store n') sig = Ok (Some (loc, tx, meta)).
Proof.
  intros Hi Hlock Hlt Hd Hwork Hdraft.
  destruct (drain_split _ _ bs (ni_mempool _ _ Hi) (ni_block _ _ Hi) (ni_fresh _ _ Hi)) as [Hdr _].
  rewrite Hd in Hdr. cbn [snd] in Hdr. pose proof (co_slot _ _ (ni_chain _ _ Hi)) as Hslot.
  destruct (commit_draft_step (with_queues n mp []) bs txs _ now d ls
    (chain_ok_queues _ _ _ _ (ni_chain _ _ Hi)) ltac:(lia) Hdr Hdraft)
    as (n' & b & Hcm & Hc' & Htb & _ & _ & _ & _ & _ & Hacc & Hfound).
  exists n', b. unfold try_produce_block. rewrite Hd.
  assert (Hb : bool_decide (txs = []) && bool_decide (pending_deposits n = [])
               && negb (heartbeat_due (with_queues n mp []) now) = false).
  { change (heartbeat_due (with_queues n mp []) now) with (heartbeat_due n now).
    destruct Hwork as [Hw|[Hw| ->]]; [rewrite (bool_decide_eq_false_2 _ Hw)|rewrite (bool_decide_eq_false_2 _ Hw)|];
      by rewrite ?andb_false_r. }
  change (tip_poisoned (with_queues n mp [])) with (tip_poisoned n). rewrite Hlock, Hb, Hdraft. cbn [obind]. rewrite Hcm.
  assert (Hs' : tip_slot (tip n') = tip_slot (tip n) + 1)
    by (rewrite (co_slot _ _ Hc'), length_app, Nat2Z.inj_add, Hslot; done).
  rewrite Hs'. split_and!; [done|done|done| |done| |exact Hacc|exact Hfound].
  all: unfold commit_draft in Hcm; destruct (seal_draft _ _ _) as [b' u'].
  all: apply obind_Ok in Hcm as (st' & _ & Hcm); destruct (publish_leaves _ _ _) in Hcm; by injection Hcm as <-.
Qed.

(** Whatever comes of an attempt, it empties the deposit queue, takes what it
    drains from the mempool, and keeps the configuration. *)
Lemma produce_queues n now n' r :
  try_produce_block pool_error_text n now = (n', r) →
  mempool n' = (drain (mempool n) (max_block_transactions (options n))).1
  ∧ pending_deposits n' = [] ∧ options n' = options n ∧ executor n' = executor n.
Proof.
  unfold try_produce_block. destruct (drain _ _) as [mp txs]. cbn [fst].
  destruct (tip_poisoned _); [by intros [= <- _]|]. destruct (_ && _ && _); [by intros [= <- _]|].
  destruct (draft_block _ _ _ _ _) as [[d ls]|e|]; cbn [obind]; [|by intros [= <- _]..].
  destruct (commit_draft _ _ _ _) as [n1|e|] eqn:Hc; [|by intros [= <- _]..]. intros [= <- _].
  unfold commit_draft in Hc. destruct (seal_draft _ _ _) as [b u]. apply obind_Ok in Hc as (st & _ & Hc).
  destruct (publish_leaves _ _ _) in Hc. by injection Hc as <-.
Qed.

(** A block registers its hash, and the lock was and stays sound. *)
Lemma produce_registers n now n' s :
  try_produce_block pool_error_text n now = (n', Ok (Some s)) →
  (∃ sl bh, tip_queue (tip n') = register (tip_queue (tip n)) sl bh)
  ∧ tip_poisoned n' = false ∧ tip_slot (tip n') = s.
Proof.
  unfold try_produce_block. destruct (drain _ _) as [mp txs].
  destruct (tip_poisoned _) eqn:Hlock; [done|]. destruct (_ && _ && _); [done|].
  destruct (draft_block _ _ _ _ _) as [[d ls]|e|]; cbn [obind]; [|done..].
  destruct (commit_draft _ _ _ _) as [n1|e|] eqn:Hc; [|done..]. intros [= <- <-].
  unfold commit_draft in Hc. destruct (seal_draft _ _ _) as [b u]. apply obind_Ok in Hc as (st & _ & Hc).
  destruct (publish_leaves _ _ _) in Hc. injection Hc as <-. split_and!; [by eexists _, _|exact Hlock|done].
Qed.

(** What is in no block is not found, and the other way round. *)
Lemma not_found st bs sig : store_chain st bs → get_transaction st sig = Ok None ↔ sig ∉ chain_sigs bs.
Proof.
  intros Hsc. rewrite <- (sc_sigs _ _ Hsc). split.
  - intros Hg Hs. apply (sc_index _ _ Hsc) in Hs as [x Hx]. congruence.
  - intros Hs. unfold get_transaction. destruct (t_tx_loc st !! sig); [|done]. destruct Hs. by eexists.
Qed.

(** C24: production makes progress: from any reachable node below the last slot
    number, as long as no attempt has panicked while it held the tip's lock, an
    attempt with work or a due heartbeat whose draft succeeds commits the next
    block with the attempt's timestamp (the store never refuses it). The draft
    always succeeds when no transaction is a pool transaction or withdraws a
    wrapped token and every deposit is one of gas, whatever they do otherwise;
    and every withdrawal among them is then in the store with its outcome. *)
Theorem production_progress n now mp txs :
  node_reachable n → tip_poisoned n = false → tip_slot (tip n) < u64_max →
  drain (mempool n) (max_block_transactions (options n)) = (mp, txs) →
  (txs ≠ [] ∨ pending_deposits n ≠ [] ∨ heartbeat_due n now = true) →
  let commits n' := try_produce_block pool_error_text n now = (n', Ok (Some (tip_slot (tip n) + 1)))
    ∧ last_block_unix_ms (tip n') = now ∧ tip_slot (tip n') = tip_slot (tip n) + 1 ∧ tip_poisoned n' = false in
  (∀ d ls, draft_block pool_error_text (with_queues n mp []) txs (pending_deposits n) now = Ok (d, ls) → ∃ n', commits n')
  ∧ (Forall (λ tx, plain_tx (opt_gas_mint (options n)) tx = true) txs →
     Forall (λ d, credits_native_gas (opt_gas_mint (options n)) d = true) (pending_deposits n) →
     ∃ n', commits n' ∧ ∀ tx sig, tx ∈ txs → is_Some (to_withdraw tx) → first_signature tx = Some sig →
       ∃ loc meta, get_transaction (store n') sig = Ok (Some (loc, tx, meta))).
Proof.
  intros Hn Hlock Hlt Hd Hwork commits. pose proof (reachable_inv n Hn) as [bs Hi].
  assert (Hgen := λ d ls Hdr, produce_commits n bs now d ls mp txs Hi Hlock Hlt Hd Hwork Hdr).
  split.
  - intros d ls Hdr. destruct (Hgen d ls Hdr) as (n' & b & H1 & _ & _ & H2 & H3 & H4 & _). by exists n'.
  - intros Htxs Hds.
    destruct (plain_draft (with_queues n mp []) bs txs (pending_deposits n) now) as (d & ls & Hdr & Hinc);
      [apply (co_store _ _ (ni_chain _ _ Hi))|exact (reachable_decodes n Hn)|done|done|].
    destruct (Hgen d ls Hdr) as (n' & b & H1 & _ & _ & H2 & H3 & H4 & _ & Hfound). exists n'. split; [by split_and!|].
    intros tx sig Htx Hto Hsig. destruct (Hinc tx Htx Hto) as [meta Hm]. apply list_elem_of_lookup_1 in Hm as [k Hk].
    destruct (Hfound k tx meta sig Hk Hsig) as [loc Hloc]. eauto.
Qed.

(** ** A funded withdrawal is burned *)

(** A block without transactions of its own writes only the clock. *)
Lemma execute_empty ex st input :
  in_transactions input = [] →
  ∃ a, execute_block ex st input
       = Ok {| included := []; dropped := []; out_account_writes := [(clock_id, a)]; fees_collected := 0 |}.
Proof.
  intros Hi. unfold execute_block. rewrite Hi. unfold prepare. cbn [ofold obind]. unfold collect. cbn [rows].
  eexists. rewrite zip_with_nil_r. cbn [fold_left c_included c_dropped c_fees final_accounts pre_dropped].
  unfold credit_collector. rewrite decide_False by lia. unfold merge_writes. rewrite map_to_list_empty.
  unfold insert_entries at 1. cbn [fold_left]. cbn [take_overlay_writes fst block_callback set_account cb_overlay new_callback].
  rewrite insert_empty, map_to_list_singleton. unfold insert_entries. cbn [fmap list_fmap fold_left prod_map].
  rewrite insert_empty, map_to_list_singleton. exact eq_refl.
Qed.

(** A lone funded native withdrawal drafts to itself, marked successful. *)
Lemma withdrawal_draft n tx w acc now :
  to_withdraw tx = Some w → w_asset_id w = NATIVE_ASSET_ID → 0 < w_amount w → w_fee_payer w ≠ clock_id →
  get_account (store n) (w_fee_payer w) = Ok (Some acc) →
  sat_add (w_amount w) POOL_TX_FEE ≤ lamports acc →
  ∃ d meta, draft_block pool_error_text n [tx] [] now = Ok (d, [leaf_of w])
    ∧ d_included d = [(tx, meta)] ∧ is_success meta = true
    ∧ (w_fee_payer w ≠ node_fee_collector n →
       d_writes d !! w_fee_payer w = Some (Some (set_lamports (lamports acc - sat_add (w_amount w) POOL_TX_FEE) acc))).
Proof.
  intros Hw Ha Hpos Hclock Hacc Hle. unfold draft_block.
  assert (Hp : partition_withdraws [tx] = ([w], [])).
  { pose proof (partition_withdraws_omap [tx]) as H1. pose proof (partition_withdraws_spec [tx]) as [H2 _].
    destruct (partition_withdraws [tx]) as [l r]. cbn [fst snd omap list_omap] in *. rewrite Hw in H1. subst l.
    f_equal. rewrite H2, filter_cons, filter_nil. rewrite decide_False; [done|]. intros Hn.
    by rewrite (to_withdraw_None _ Hn) in Hw. }
  rewrite Hp. cbn [partition fold_left].
  match goal with |- context [execute_block ?ex ?st ?i] => destruct (execute_empty ex st i eq_refl) as [a ->] end.
  cbn [obind map_err pool_phase apply_deposits ofold d_writes d_included included out_account_writes].
  unfold apply_withdraws. cbn [ofold]. unfold apply_withdraw at 1. cbn [wr_writes].
  assert (Hr : read_through_ok (store n) (insert_entries id [(clock_id, a)] ∅) (w_fee_payer w) = Some acc).
  { unfold read_through_ok, in_writes, insert_entries. cbn [fold_left fst].
    rewrite lookup_insert_ne, lookup_empty by congruence. unfold get_account_ok. by rewrite Hacc. }
  unfold burn_withdraw. rewrite Hr.
  assert (Hnat : is_native_withdraw (opt_gas_mint (options n)) w = true)
    by (unfold is_native_withdraw; by rewrite bool_decide_eq_true_2).
  unfold needed_native. rewrite Hnat, decide_True by (split; [done|lia]).
  cbn [obind map_err app wr_included leaves]. eexists _, _.
  split; [done|]. apply to_withdraw_transaction in Hw as ->. split_and!; [done|done|].
  intros Hcol. cbn [d_writes wr_writes]. unfold pay_fee. by rewrite lookup_insert_ne, lookup_insert_eq by congruence.
Qed.

(** The block of a lone funded withdrawal. *)
Lemma record_withdrawal n mp tx w acc now :
  node_reachable n → tip_poisoned n = false → u64 now → tip_slot (tip n) < u64_max →
  drain (mempool n) (max_block_transactions (options n)) = (mp, [tx]) → pending_deposits n = [] →
  to_withdraw tx = Some w → w_asset_id w = NATIVE_ASSET_ID → 0 < w_amount w → w_fee_payer w ≠ clock_id →
  get_account (store n) (w_fee_payer w) = Ok (Some acc) →
  sat_add (w_amount w) POOL_TX_FEE ≤ lamports acc →
  ∃ n' bs ws, try_produce_block pool_error_text n now = (n', Ok (Some (tip_slot (tip n) + 1)))
    ∧ node_reachable n' ∧ stores_chain (store n') bs ∧ successful_withdrawals (store n') bs = ws ++ [w]
    ∧ ∃ bs0 b, bs = bs0 ++ [b] ∧ Z.of_nat (length bs0) = tip_slot (tip n) ∧ transactions b = [tx].
Proof.
  intros Hn Hlock Hnow Hlt Hd Hp Hw Ha Hpos Hclock Hacc Hle. pose proof (reachable_inv n Hn) as [bs Hi].
  destruct (withdrawal_draft (with_queues n mp []) tx w acc now) as (d & meta & Hdraft & Hinc & Hs & _); [done..|].
  rewrite <- Hp in Hdraft.
  destruct (produce_commits n bs now d _ mp [tx] Hi Hlock Hlt Hd ltac:(by left) Hdraft)
    as (n' & b & Hprod & Hc & Htxs & _ & _ & _ & _ & Hfound).
  exists n', (bs ++ [b]), (successful_withdrawals (store n') bs).
  split_and!; [done|eapply reach_step; [exact Hn|by eapply step_produce]
    |intros k; apply holds_get_block, (co_store _ _ Hc)|
    |exists bs, b; split_and!; [done|by rewrite (co_slot _ _ (ni_chain _ _ Hi))|by rewrite Htxs, Hinc]].
  assert (Hsg : is_Some (first_signature tx)).
  { destruct (drain_split _ _ bs (ni_mempool _ _ Hi) (ni_block _ _ Hi) (ni_fresh _ _ Hi)) as [[_ Hsg _ _] _].
    rewrite Hd in Hsg. cbn [snd] in Hsg. by apply list.Forall_cons in Hsg as [? _]. }
  destruct Hsg as [sig Hsg]. destruct (Hfound 0%nat tx meta sig) as [loc Hg]; [by rewrite Hinc|done|].
  unfold successful_withdrawals. rewrite fmap_app, concat_app, list.filter_app. f_equal.
  cbn [fmap list_fmap concat]. rewrite app_nil_r, Htxs, Hinc. cbn [fmap list_fmap fst].
  rewrite partition_withdraws_omap. cbn [omap list_omap]. rewrite Hw, filter_cons, filter_nil.
  rewrite decide_True; [done|]. unfold withdraw_succeeded. rewrite (to_withdraw_transaction _ _ Hw).
  fold (first_signature tx). by rewrite Hsg, Hg.
Qed.

(** C22: a funded withdrawal is burned: when the next block would hold one native
    withdrawal whose payer owns the amount and the fee, and the tip's lock is not
    poisoned, the production attempt commits that block, the new node is reachable again, and its chain records
    the withdrawal as successful, after everything it recorded before. *)
Theorem funded_withdrawal_recorded n mp tx w acc now :
  node_reachable n → tip_poisoned n = false → u64 now → tip_slot (tip n) < u64_max →
  drain (mempool n) (max_block_transactions (options n)) = (mp, [tx]) → pending_deposits n = [] →
  to_withdraw tx = Some w → w_asset_id w = NATIVE_ASSET_ID → 0 < w_amount w → w_fee_payer w ≠ clock_id →
  get_account (store n) (w_fee_payer w) = Ok (Some acc) →
  sat_add (w_amount w) POOL_TX_FEE ≤ lamports acc →
  ∃ n' bs ws, try_produce_block pool_error_text n now = (n', Ok (Some (tip_slot (tip n) + 1)))
    ∧ node_reachable n' ∧ stores_chain (store n') bs ∧ successful_withdrawals (store n') bs = ws ++ [w].
Proof.
  intros Hn Hlock Hnow Hlt Hd Hp Hw Ha Hpos Hclock Hacc Hle.
  destruct (record_withdrawal n mp tx w acc now) as (n' & bs & ws & H1 & H2 & H3 & H4 & _); [done..|].
  exists n', bs, ws. by split_and!.
Qed.

End Invariant.

End Chain.

Module Example.
#[local] Existing Instances Toy.blake3_toy Toy.ed25519_toy Toy.solana_toy poseidon_toy.
#[local] Existing Instances ExecToy.ids_toy ExecToy.svm_toy WrappedSpl.Example.addresses_toy.
#[local] Existing Instances StoreToy.account_codec StoreToy.block_codec StoreToy.locator_codec.
#[local] Existing Instances StoreToy.meta_codec StoreToy.queue_codec.
#[local] Instance accept_all : ProofVerifier :=
  {| verify_transfer _ _ := true; verify_unshield _ _ := true |}.
#[local] Instance header_codec : Bincode BlockHeader := Toy.bincode_toy BlockHeader.
#[local] Instance tx_codec : Bincode VersionedTransaction := Toy.bincode_toy Toy.tx.
#[local] Instance state_codec : Bincode PoolState := Toy.bincode_toy PoolState.
#[local] Instance instruction_codec : Bincode PoolInstruction := Toy.bincode_toy PoolInstruction.
#[local] Instance clock_codec : Bincode Clock := Toy.bincode_toy Clock.
#[local] Instance rent_codec : Bincode Rent := Toy.bincode_toy ().
#[local] Instance schedule_codec : Bincode EpochSchedule := Toy.bincode_toy ().
#[local] Instance entries_codec : Bincode (list RecentEntry) := Toy.bincode_toy (list ()).

Definition pk (n : Z) : Pubkey := le_bytes 32 n.
Definition g : GenesisConfig :=
  {| chain_name := bstr "zul"; creation_time_ms := 5; sequencer := pk 8; fee_collector := pk 9;
     allocations := [{| alloc_pubkey := pk 1; alloc_lamports := 1000000 |}] |}.
Definition error_text (e : PoolServiceError) : bytes := [].
Definition transfer_toy (kp : Keypair) (to : Pubkey) (amount : Z) (h : H256) : VersionedTransaction :=
  Toy.Build_tx [le_bytes 64 amount] [kp] [] h true.
Definition seq_key : Keypair := pk 8.
Definition opts : NodeOptions := default_options.

Lemma opts_ok : options_ok opts.
Proof. split; [unfold u64_max; cbn; lia|unfold u32_max; cbn [opts default_options max_block_transactions]; lia]. Qed.

Lemma booted_reachable : ∃ n, node_reachable error_text transfer_toy g n ∧ fresh g [] opts 0 n.
Proof.
  assert (Hb : ∃ n, node_reachable error_text transfer_toy g n ∧ new_node open_store g seq_key [] opts 0 = Ok n
                    ∧ fresh g [] opts 0 n)
    by exact (boot_reachable error_text transfer_toy g seq_key [] opts 0 opts_ok eq_refl eq_refl).
  destruct Hb as (n & Hr & _ & Hf). by exists n.
Qed.


(** A withdrawal of 60 lamports by the genesis account, on the genesis hash. *)
Definition wtx : VersionedTransaction :=
  Toy.Build_tx [le_bytes 64 77] [pk 1; BRIDGE_WITHDRAW_PROGRAM_ID]
    [{| program_id_index := 1; ix_accounts := []; ix_data := withdraw_data (pk 5) None 60 3 |}]
    (genesis_hash g) true.
Definition wd : WithdrawTx :=
  {| w_transaction := wtx; w_fee_payer := pk 1; w_recipient := pk 5; w_asset_id := NATIVE_ASSET_ID;
     w_amount := 60; w_nonce := 3 |}.

Lemma wtx_parses : to_withdraw wtx = Some wd.
Proof. vm_cast_no_check (@eq_refl (option WithdrawTx) (Some wd)). Qed.

Definition fresh_mempool : Mempool := new_mempool (opt_mempool_capacity opts) (opt_max_per_payer opts).
Definition mempool1 : Mempool := match push fresh_mempool wtx with Ok (m, _) => m | _ => fresh_mempool end.

Lemma wtx_pushed : push fresh_mempool wtx = Ok (mempool1, le_bytes 64 77).
Proof. vm_cast_no_check (@eq_refl (outcome MempoolError (Mempool * Signature)) (Ok (mempool1, le_bytes 64 77))). Qed.

Lemma wtx_drained : (drain mempool1 (max_block_transactions opts)).2 = [wtx].
Proof. vm_cast_no_check (@eq_refl (list VersionedTransaction) [wtx]). Qed.

Lemma wtx_blockhash : is_valid (register new_queue 0 (genesis_hash g)) (recent_blockhash wtx) = true.
Proof. vm_cast_no_check (@eq_refl bool true). Qed.

Lemma payer_account :
  (match fold_left write_account (genesis_writes g (boot_accounts g [])) ∅ !! pk 1 with
   | Some bs => let? a := ok_or (deserialize bs) Codec in Ok (Some a)
   | None => Ok None
   end : outcome StoreError (option StoredAccount)) = Ok (Some (new_system 1000000)).
Proof. vm_cast_no_check (@eq_refl (outcome StoreError (option StoredAccount)) (Ok (Some (new_system 1000000)))). Qed.

Lemma wtx_queued : queue mempool1 = [wtx].
Proof. vm_cast_no_check (@eq_refl (list VersionedTransaction) [wtx]). Qed.

(** A fresh node takes the withdrawal. *)
Lemma wtx_admitted extra o now n : fresh g extra o now n → admit_tx n wtx = Ok (le_bytes 64 77).
Proof.
  intros [_ _ _ _ Hlock _ Hq _ Hi _ _].
  unfold admit_tx. change (head (signatures wtx)) with (Some (le_bytes 64 77)). cbv iota.
  change (verify_and_hash_message wtx) with (Some (genesis_hash g)). cbv iota.
  unfold read_tip. rewrite Hlock. cbn [obind]. rewrite Hq, wtx_blockhash. cbn [negb]. unfold get_transaction.
  rewrite Hi, lookup_empty. exact eq_refl.
Qed.

(** A node with the withdrawal in its mempool, which would still take it. *)
Lemma queued : ∃ n, node_reachable error_text transfer_toy g n ∧ tip_poisoned n = false
  ∧ mempool n = mempool1 ∧ options n = opts ∧ pending_deposits n = [] ∧ tip_slot (tip n) = 0
  ∧ get_account (store n) (pk 1) = Ok (Some (new_system 1000000))
  ∧ admit_tx n wtx = Ok (le_bytes 64 77) ∧ node_fee_collector n = pk 9.
Proof.
  destruct booted_reachable as (n & Hr & Hfr). pose proof (wtx_admitted _ _ _ _ Hfr) as Had.
  destruct Hfr as [Hm Hp Hs Ht Hlock Ho Hq Ha Hi Hf _].
  exists (with_queues n mempool1 (pending_deposits n)).
  split; [|split_and!; [exact Hlock|exact eq_refl|exact Ho|exact Hp|exact Hs| |exact Had|exact Hf]].
  - eapply reach_step; [exact Hr|]. eapply (step_submit _ _ _ n wtx). unfold submit_transaction.
    rewrite Had, Hm. fold fresh_mempool. rewrite wtx_pushed. exact eq_refl.
  - cbn [with_queues store]. unfold get_account. rewrite Ha. exact payer_account.
Qed.

Lemma submitted : ∃ n mp, node_reachable error_text transfer_toy g n ∧ tip_poisoned n = false
  ∧ drain (mempool n) (max_block_transactions (options n)) = (mp, [wtx]) ∧ pending_deposits n = []
  ∧ tip_slot (tip n) = 0 ∧ get_account (store n) (pk 1) = Ok (Some (new_system 1000000)).
Proof.
  destruct queued as (n & Hr & Hlock & Hm & Ho & Hp & Hs & Ha & _ & _).
  exists n, (drain mempool1 (max_block_transactions opts)).1.
  split_and!; [exact Hr|exact Hlock| |exact Hp|exact Hs|exact Ha].
  rewrite Hm, Ho, <- wtx_drained. apply surjective_pairing.
Qed.

Lemma burned :
  ∃ n n' bs ws, try_produce_block error_text n 9 = (n', Ok (Some (tip_slot (tip n) + 1)))
    ∧ node_reachable error_text transfer_toy g n' ∧ stores_chain (store n') bs
    ∧ successful_withdrawals (store n') bs = ws ++ [wd] ∧ ∃ b, bs = [b] ∧ transactions b = [wtx].
Proof.
  destruct submitted as (n & mp & Hr & Hlock & Hd & Hp & Hs & Ha). exists n.
  assert (Hnow : u64 9) by (unfold u64, u64_max; lia).
  assert (Hlt : tip_slot (tip n) < u64_max) by (rewrite Hs; unfold u64_max; lia).
  assert (Hle : sat_add (w_amount wd) POOL_TX_FEE ≤ lamports (new_system 1000000)) by (vm_compute; discriminate).
  assert (Hck : w_fee_payer wd ≠ clock_id) by (vm_compute; discriminate).
  destruct (record_withdrawal error_text transfer_toy g n mp wtx wd (new_system 1000000) 9
           Hr Hlock Hnow Hlt Hd Hp wtx_parses eq_refl eq_refl Hck Ha Hle)
    as (n' & bs & ws & H1 & H2 & H3 & H4 & bs0 & b & Hbs & Hlen & Htx).
  exists n', bs, ws. split; [exact H1|]. split; [exact H2|]. split; [exact H3|]. split; [exact H4|].
  exists b. split; [|exact Htx]. rewrite Hs in Hlen. destruct bs0; [exact Hbs|cbn in Hlen; lia].
Qed.

Lemma funded_withdrawal_recorded_witness :
  ∃ n n' bs ws, try_produce_block error_text n 9 = (n', Ok (Some (tip_slot (tip n) + 1)))
    ∧ node_reachable error_text transfer_toy g n' ∧ stores_chain (store n') bs
    ∧ successful_withdrawals (store n') bs = ws ++ [wd].
Proof.
  destruct submitted as (n & mp & Hr & Hlock & Hd & Hp & Hs & Ha). exists n.
  assert (Hnow : u64 9) by (unfold u64, u64_max; lia).
  assert (Hlt : tip_slot (tip n) < u64_max) by (rewrite Hs; unfold u64_max; lia).
  assert (Hle : sat_add (w_amount wd) POOL_TX_FEE ≤ lamports (new_system 1000000)) by (vm_compute; discriminate).
  assert (Hck : w_fee_payer wd ≠ clock_id) by (vm_compute; discriminate).
  exact (funded_withdrawal_recorded error_text transfer_toy g n mp wtx wd (new_system 1000000) 9
           Hr Hlock Hnow Hlt Hd Hp wtx_parses eq_refl eq_refl Hck Ha Hle).
Defined.

Lemma production_progress_witness :
  ∃ n n' loc meta, node_reachable error_text transfer_toy g n
    ∧ try_produce_block error_text n 9 = (n', Ok (Some 1)) ∧ tip_poisoned n' = false
    ∧ get_transaction (store n') (le_bytes 64 77) = Ok (Some (loc, wtx, meta)).
Proof.
  destruct submitted as (n & mp & Hr & Hlock & Hd & Hp & Hs & Ha). exists n.
  assert (Hlt : tip_slot (tip n) < u64_max) by (rewrite Hs; unfold u64_max; lia).
  destruct (proj2 (production_progress error_text transfer_toy g n 9 mp [wtx] Hr Hlock Hlt Hd ltac:(left; discriminate)))
    as (n' & (Hn' & _ & _ & Hl) & Hw).
  - apply Forall_singleton. unfold plain_tx. rewrite wtx_parses. reflexivity.
  - rewrite Hp. constructor.
  - destruct (Hw wtx (le_bytes 64 77)) as (loc & meta & Hg); [left|rewrite wtx_parses; by eexists|reflexivity|].
    exists n', loc, meta. rewrite Hs in Hn'. split; [exact Hr|]. split; [exact Hn'|]. split; [exact Hl|exact Hg].
Defined.
End Example.
