(* ===== verification/Interleave.v ===== *)
(** * Submissions and block production side by side

    The operations of [chain/zul-node/src/node.rs] cut where the code releases
    its locks. A submission reads the tip, then the store, and then pushes to the
    mempool, each under its own lock; a production attempt drains the mempool,
    then the deposits, and only then holds the tip while it executes and commits
    (the store's commit is one transaction). Any number of submissions run
    beside the one producer. The theorems say what of the chain survives every
    schedule, and which replay one schedule allows. *)

From S2P Require Import Prelude External Hash Paths Smt SmtFacts SmtProps Merkle Genesis Account Block Queue Store StoreProps WrappedSpl Field PoolState PoolProcessor PoolService Mempool NodeBridge Executor NodeLedger Node NodeChain.

Section Interleave.
Context `{B3 : Blake3} `{ED : Ed25519} `{TX : SolanaTx} `{SA : SolanaAddresses} `{P : Poseidon}.
Context `{V : ProofVerifier} `{SVM : !Svm} `{IDS : SdkIds}.
Context `{!Bincode StoredAccount} `{!Bincode PoolState} `{!Bincode Block} `{!Bincode BlockHeader}.
Context `{!Bincode VersionedTransaction} `{!Bincode TxLocator} `{!Bincode ExecutedTransactionMeta}.
Context `{!Bincode (nat * list (Z * H256))} `{!Bincode PoolInstruction} `{!Bincode Clock}.
Context `{!Bincode Rent} `{!Bincode EpochSchedule} `{!Bincode (list RecentEntry)}.
Context (pool_error_text : PoolServiceError → bytes).
Context (signed_transfer : Keypair → Pubkey → Z → H256 → VersionedTransaction) (g : GenesisConfig).

(** ** The pieces between two locks *)

(** [admit] up to the end of the block that holds the tip for reading. *)
Definition admit_checks (n : Node) (tx : VersionedTransaction) : outcome BackendError Signature :=
  match head (signatures tx) with
  | None => Err (Rejected "missing signature")
  | Some sig =>
      match verify_and_hash_message tx with
      | None => Err (Rejected "signature verification failed")
      | Some _ =>
          let? t := read_tip n in
          if negb (is_valid (tip_queue t) (recent_blockhash tx))
          then Err (Rejected "blockhash not found")
          else Ok sig
      end
  end.

(** The rest of [admit]: the lookup in the store, without a lock of the node. *)
Definition admit_lookup (n : Node) (sig : Signature) : outcome BackendError Signature :=
  let? found := map_err (λ e, Internal (NodeStore e)) (get_transaction (store n) sig) in
  match found with
  | Some _ => Err (Rejected "already processed")
  | None => Ok sig
  end.

(** The push of [submit_transaction], under the mempool's lock. *)
Definition push_submission (n : Node) (tx : VersionedTransaction) : Node :=
  match push (mempool n) tx with
  | Ok (mp, _) => with_queues n mp (pending_deposits n)
  | _ => n
  end.

(** [try_produce_block] after it has drained both queues: what it took is no
    longer in them, whatever they hold by now. *)
Definition finish_block (n : Node) (txs : list VersionedTransaction) (deposits : list DepositEvent) (now : Z)
    : Node * outcome NodeError (option Z) :=
  if tip_poisoned n then (n, Panic)
  else if bool_decide (txs = []) && bool_decide (deposits = []) && negb (heartbeat_due n now)
  then (n, Ok None)
  else
    match (let? (d, ls) := draft_block pool_error_text n txs deposits now in commit_draft n d ls now) with
    | Ok n' => (n', Ok (Some (tip_slot (tip n'))))
    | Err e => (n, Err e)
    | Panic => (poison n, Panic)
    end.

(** ** Schedules *)

(** How far a submission in flight has come. *)
Inductive Stage := Checked | Looked.

(** Where the producer is, with what it has taken. *)
Inductive Producer :=
| Waiting
| TookTxs (txs : list VersionedTransaction)
| TookAll (txs : list VersionedTransaction) (deposits : list DepositEvent).

Record World := {
  w_node : Node;
  flight : list (Stage * VersionedTransaction);
  producer : Producer;
}.

Definition taken (p : Producer) : list VersionedTransaction :=
  match p with Waiting => [] | TookTxs txs | TookAll txs _ => txs end.

Inductive Action :=
| SubmitCheck (tx : VersionedTransaction)
| SubmitLookup (i : nat)
| SubmitPush (i : nat)
| TakeTxs
| TakeDeposits
| Execute (now : Z)
| HandDeposits (ds : list DepositEvent)
| StartDraining
| Reboot (kp : Keypair) (extra : list BuiltinSpec) (opts : NodeOptions) (now : Z).

Definition at_rest (n : Node) : World := {| w_node := n; flight := []; producer := Waiting |}.

(** One piece of one thread. A submission that fails leaves, a restart loses what
    is in memory. *)
Definition act (w : World) (a : Action) : World :=
  let n := w_node w in
  match a with
  | SubmitCheck tx =>
      match admit_checks n tx with
      | Ok _ => {| w_node := n; flight := flight w ++ [(Checked, tx)]; producer := producer w |}
      | _ => w
      end
  | SubmitLookup i =>
      match flight w !! i with
      | Some (Checked, tx) =>
          match head (signatures tx) with
          | Some sig =>
              match admit_lookup n sig with
              | Ok _ => {| w_node := n; flight := <[i := (Looked, tx)]> (flight w); producer := producer w |}
              | _ => {| w_node := n; flight := delete i (flight w); producer := producer w |}
              end
          | None => w
          end
      | _ => w
      end
  | SubmitPush i =>
      match flight w !! i with
      | Some (Looked, tx) =>
          {| w_node := push_submission n tx; flight := delete i (flight w); producer := producer w |}
      | _ => w
      end
  | TakeTxs =>
      match producer w with
      | Waiting =>
          let '(mp, txs) := drain (mempool n) (max_block_transactions (options n)) in
          {| w_node := with_queues n mp (pending_deposits n); flight := flight w; producer := TookTxs txs |}
      | _ => w
      end
  | TakeDeposits =>
      match producer w with
      | TookTxs txs => {| w_node := with_queues n (mempool n) []; flight := flight w;
                          producer := TookAll txs (pending_deposits n) |}
      | _ => w
      end
  | Execute now =>
      match producer w with
      | TookAll txs ds => {| w_node := (finish_block n txs ds now).1; flight := flight w; producer := Waiting |}
      | _ => w
      end
  | HandDeposits ds => {| w_node := enqueue_deposits n ds; flight := flight w; producer := producer w |}
  | StartDraining => {| w_node := begin_draining n; flight := flight w; producer := producer w |}
  | Reboot kp extra opts now =>
      match new_node (store n) g kp extra opts now with Ok n' => at_rest n' | _ => w end
  end.

Definition schedule (w : World) (acts : list Action) : World := fold_left act acts w.

(** Clock readings are 64-bit, slots do not run out, and a restart comes up. *)
Definition allowed (w : World) (a : Action) : Prop :=
  match a with
  | Execute now => u64 now ∧ tip_slot (tip (w_node w)) < u64_max
  | Reboot kp extra opts now => options_ok opts ∧ is_ok (new_node (store (w_node w)) g kp extra opts now) = true
  | _ => True
  end.

(** A push is late when, since its lookup, the producer has taken or committed a
    transaction with the same signature. *)
Definition late (w : World) (a : Action) : bool :=
  match a with
  | SubmitPush i =>
      match flight w !! i with
      | Some (Looked, tx) =>
          match first_signature tx with
          | Some sig => bool_decide (sig ∈ omap first_signature (taken (producer w)))
                        || negb (is_ok (admit_lookup (w_node w) sig))
          | None => false
          end
      | _ => false
      end
  | _ => false
  end.

(** Worlds some schedule reaches from a first boot, with whether no push of it
    was late. *)
Inductive reached : bool → World → Prop :=
| reached_boot kp extra opts now n :
    options_ok opts → new_node open_store g kp extra opts now = Ok n → reached true (at_rest n)
| reached_act b w a : reached b w → allowed w a → reached (b && negb (late w a)) (act w a).

(** ** The operations of [Node] are the serial schedules *)

Lemma admit_pieces n tx :
  admit_tx n tx = let? sig := admit_checks n tx in admit_lookup n sig.
Proof.
  unfold admit_tx, admit_checks, admit_lookup. destruct (head (signatures tx)); [|done].
  destruct (verify_and_hash_message tx); [|done]. unfold read_tip. destruct (tip_poisoned n); [done|]. cbn [obind].
  by destruct (negb _).
Qed.

Lemma admit_checks_sig n tx sig : admit_checks n tx = Ok sig → first_signature tx = Some sig.
Proof.
  unfold admit_checks, first_signature. destruct (head (signatures tx)) as [s|]; [|done].
  destruct (verify_and_hash_message tx); [|done]. intros (t & _ & Hc)%obind_Ok. destruct (negb _) in Hc; [done|].
  by injection Hc as ->.
Qed.

Lemma admit_sig n tx sig : admit_tx n tx = Ok sig → first_signature tx = Some sig.
Proof.
  rewrite admit_pieces. intros (s & Hc & Hl)%obind_Ok. unfold admit_lookup in Hl.
  apply obind_Ok in Hl as ([x|] & _ & [= <-]). by apply admit_checks_sig in Hc.
Qed.

Lemma schedule_app w l l' : schedule w (l ++ l') = schedule (schedule w l) l'.
Proof. apply fold_left_app. Qed.

(** A submission whose pieces nothing comes between, wherever the producer is. *)
Lemma submit_alone n tx p :
  schedule {| w_node := n; flight := []; producer := p |} [SubmitCheck tx; SubmitLookup 0; SubmitPush 0]
  = {| w_node := (submit_transaction n tx).1; flight := []; producer := p |}.
Proof.
  unfold submit_transaction. rewrite admit_pieces. unfold schedule. cbn [fold_left act w_node].
  destruct (admit_checks n tx) as [sig|e|] eqn:Hc; cbn [obind]; [|done..].
  pose proof (admit_checks_sig _ _ _ Hc) as Hs. unfold first_signature in Hs.
  cbn [flight app lookup list_lookup]. rewrite Hs. cbn [w_node flight producer].
  destruct (admit_lookup n sig) as [s|e|]; [|done..]. cbn. unfold push_submission.
  by destruct (push (mempool n) tx) as [[mp s']|[]|].
Qed.

Lemma serial_submit n tx :
  schedule (at_rest n) [SubmitCheck tx; SubmitLookup 0; SubmitPush 0] = at_rest (submit_transaction n tx).1.
Proof. apply submit_alone. Qed.

(** The producer takes both queues. *)
Lemma take_both n mp txs :
  drain (mempool n) (max_block_transactions (options n)) = (mp, txs) →
  schedule (at_rest n) [TakeTxs; TakeDeposits]
  = {| w_node := with_queues n mp []; flight := []; producer := TookAll txs (pending_deposits n) |}.
Proof. intros Hd. unfold schedule, at_rest. cbn [fold_left act w_node producer flight]. by rewrite Hd. Qed.

Lemma serial_produce n now :
  schedule (at_rest n) [TakeTxs; TakeDeposits; Execute now]
  = at_rest (try_produce_block pool_error_text n now).1.
Proof.
  unfold try_produce_block. destruct (drain _ _) as [mp txs] eqn:Hd.
  rewrite (schedule_app _ [TakeTxs; TakeDeposits] [Execute now]), (take_both _ _ _ Hd). reflexivity.
Qed.

(** ** What every schedule keeps *)

(** No block repeats a signature, and no transaction of the executor carries a
    signature of an earlier block. *)
Definition replay_free (bs : list Block) : Prop :=
  ∀ pre b post, bs = pre ++ b :: post →
    NoDup (first_signature <$> transactions b)
    ∧ ∀ tx sig, tx ∈ transactions b → regular tx → first_signature tx = Some sig → sig ∉ chain_sigs pre.

Lemma replay_free_snoc bs b :
  replay_free bs → NoDup (first_signature <$> transactions b) →
  (∀ tx sig, tx ∈ transactions b → regular tx → first_signature tx = Some sig → sig ∉ chain_sigs bs) →
  replay_free (bs ++ [b]).
Proof.
  intros Hr Hnd Hnew pre b' post Heq. destruct post as [|c post _] using rev_ind.
  - apply app_inj_tail in Heq as [-> ->]. done.
  - rewrite app_comm_cons, app_assoc in Heq. apply app_inj_tail in Heq as [-> _]. by eapply Hr.
Qed.

(** What holds as long as no push is late: nothing taken or queued is stored, and
    nothing queued is taken. *)
Record fresh_world (w : World) (bs : list Block) : Prop := {
  fw_chain : NoDup (chain_sigs bs);
  fw_taken tx sig : tx ∈ taken (producer w) → first_signature tx = Some sig → sig ∉ chain_sigs bs;
  fw_queue tx sig : tx ∈ queue (mempool (w_node w)) → first_signature tx = Some sig →
    sig ∉ chain_sigs bs ∧ sig ∉ omap first_signature (taken (producer w));
}.

Record world_inv (calm : bool) (w : World) (bs : list Block) : Prop := {
  wi_links : tip_links g (w_node w) bs;
  wi_mempool : mempool_inv (mempool (w_node w));
  wi_capacity : 0 ≤ mp_capacity (mempool (w_node w)) ≤ u64_max;
  wi_block : Z.of_nat (max_block_transactions (options (w_node w))) ≤ u32_max;
  wi_taken : batch_ok (taken (producer w));
  wi_replay : replay_free bs;
  wi_fresh : calm = true → fresh_world w bs;
}.

Lemma batch_nil : batch_ok [].
Proof. split; [done|constructor|constructor]. Qed.

Lemma queues_links n bs mp ds : tip_links g n bs → tip_links g (with_queues n mp ds) bs.
Proof. intros []. by split. Qed.

Lemma poison_links n bs : tip_links g n bs → tip_links g (poison n) bs.
Proof. intros []. by split. Qed.

(** A signature the lookup does not find is in no block. *)
Lemma lookup_fresh n bs sig s : tip_links g n bs → admit_lookup n sig = Ok s → sig ∉ chain_sigs bs.
Proof.
  intros Hl Ha Hin. apply (sl_sigs _ _ _ (tl_store _ _ _ Hl)) in Hin.
  apply (sl_index _ _ _ (tl_store _ _ _ Hl)) in Hin as [x Hx]. unfold admit_lookup in Ha. by rewrite Hx in Ha.
Qed.

(** A draft that succeeds is committed: one more block with what it includes. *)
Lemma finish_commits n bs txs ds now d ls :
  tip_links g n bs → tip_poisoned n = false → tip_slot (tip n) < u64_max → batch_ok txs →
  (txs ≠ [] ∨ ds ≠ [] ∨ heartbeat_due n now = true) →
  draft_block pool_error_text n txs ds now = Ok (d, ls) →
  ∃ n' b, (finish_block n txs ds now).1 = n' ∧ tip_links g n' (bs ++ [b])
    ∧ transactions b = (d_included d).*1 ∧ mempool n' = mempool n ∧ options n' = options n
    ∧ pending_deposits n' = pending_deposits n ∧ tip_poisoned n' = false
    ∧ node_fee_collector n' = node_fee_collector n
    ∧ withdrawals n' = fold_left (λ t l, withdraw_apply t l.1 l.2) ls (withdrawals n)
    ∧ t_accounts (store n') = fold_left write_account (map_to_list (d_writes d)) (t_accounts (store n)).
Proof.
  intros Hl Hlock Hlt Hb Hwork Hd. rewrite (tl_slot _ _ _ Hl) in Hlt.
  destruct (seal_commits pool_error_text g n bs txs ds now d ls Hl Hlt Hb Hd)
    as (b & st' & Hseal & Hc & Hsl & (q' & Hq' & Heq) & Htxs & _ & _ & Hbs & _ & _). cbv zeta in Hseal, Hc.
  assert (Hacc : t_accounts st' = fold_left write_account (map_to_list (d_writes d)) (t_accounts (store n)))
    by by apply commit_tables in Hc as (? & _).
  assert (Hpub : ∀ root, tip_links g
    {| store := set_withdrawals_root st' root; executor := executor n; pool_cfg := pool_cfg n;
       node_sequencer := node_sequencer n; node_fee_collector := node_fee_collector n;
       tip := {| tip_queue := register (tip_queue (tip n)) (slot (header b)) (hash_of b);
                 tip_slot := slot (header b); tip_blockhash := hash_of b; last_block_unix_ms := now |};
       tip_poisoned := tip_poisoned n; mempool := mempool n; options := options n; draining := draining n;
       total_txs := wadd (total_txs n) (transaction_count (header b));
       pending_deposits := pending_deposits n;
       withdrawals := fold_left (λ t l, withdraw_apply t l.1 l.2) ls (withdrawals n) |} (bs ++ [b])).
  { intros root. split; cbn [store tip tip_slot tip_blockhash tip_queue node_sequencer].
    - by apply publish_links.
    - apply Hl.
    - rewrite length_app, Hbs. cbn [length]. lia.
    - by rewrite last_hash_snoc.
    - intros _. rewrite publish_queue. by exists q'. }
  unfold finish_block. rewrite Hlock.
  assert (Hbusy : bool_decide (txs = []) && bool_decide (ds = []) && negb (heartbeat_due n now) = false).
  { destruct Hwork as [Hw|[Hw| ->]]; [rewrite (bool_decide_eq_false_2 _ Hw)|rewrite (bool_decide_eq_false_2 _ Hw)|];
      by rewrite ?andb_false_r. }
  rewrite Hbusy, Hd. cbn [obind]. unfold commit_draft. rewrite Hseal. unfold hash_of in Hc. rewrite Hc. cbn [map_err obind].
  unfold publish_leaves. destruct ls as [|l ls].
  - eexists _, b. split; [done|]. split_and!; try done. destruct (Hpub []) as [_ H2 H3 H4 _].
    split; [exact Hsl|exact H2|exact H3|exact H4|]. intros _. by exists q'.
  - eexists _, b. split; [done|]. split_and!; try done. apply Hpub.
Qed.

(** An attempt keeps the blocks, or adds one made of what it took. *)
Lemma finish_links n bs txs ds now :
  let n' := (finish_block n txs ds now).1 in
  tip_links g n bs → tip_slot (tip n) < u64_max → batch_ok txs →
  mempool n' = mempool n ∧ options n' = options n
  ∧ (tip_links g n' bs
     ∨ ∃ b, tip_links g n' (bs ++ [b]) ∧ transactions b ⊆+ txs
            ∧ ∀ tx sig, tx ∈ transactions b → regular tx → first_signature tx = Some sig → sig ∉ chain_sigs bs).
Proof.
  intros n' Hl Hlt Hb. subst n'. destruct (tip_poisoned n) eqn:Hlock; [unfold finish_block; rewrite Hlock; by split_and!; [..|left]|].
  destruct (bool_decide (txs = []) && bool_decide (ds = []) && negb (heartbeat_due n now)) eqn:Hidle.
  { unfold finish_block. rewrite Hlock, Hidle. by split_and!; [..|left]. }
  assert (Hwork : txs ≠ [] ∨ ds ≠ [] ∨ heartbeat_due n now = true).
  { destruct (decide (txs = [])) as [->|]; [|by left]. destruct (decide (ds = [])) as [->|]; [|by right; left].
    right. right. by destruct (heartbeat_due n now). }
  destruct (draft_block pool_error_text n txs ds now) as [[d ls]|e|] eqn:Hd.
  - destruct (finish_commits n bs txs ds now d ls Hl Hlock Hlt Hb Hwork Hd) as (n' & b & -> & Hl' & Htx & Hm & Ho & _).
    split_and!; [done|done|]. right. exists b. split_and!; [done|rewrite Htx; by apply draft_shape in Hd as [? _]|].
    intros tx sig Hin Hreg Hsig. rewrite Htx in Hin.
    destruct (draft_regular _ _ _ _ _ _ _ tx Hd Hin Hreg) as (sig' & Hs' & Hg).
    assert (sig' = sig) as -> by congruence. apply (lookup_fresh n bs sig sig Hl). unfold admit_lookup. by rewrite Hg.
  - unfold finish_block. rewrite Hlock, Hidle, Hd. by split_and!; [..|left].
  - unfold finish_block. rewrite Hlock, Hidle, Hd. split_and!; [done|done|left; by apply poison_links].
Qed.

Lemma boot_world kp extra opts now n :
  options_ok opts → new_node open_store g kp extra opts now = Ok n → world_inv true (at_rest n) [].
Proof.
  intros Ho Hn. destruct (boot_inv g kp extra opts now n Ho Hn) as [Hc Hm Hcap Hmax Hfr _].
  split; try done; [by apply ok_links|apply batch_nil|by intros [] ? ?|].
  intros _. split; [constructor|by intros tx sig ?%not_elem_of_nil|]. intros tx sig Htx Hs.
  split; [by apply (Hfr tx)|apply not_elem_of_nil].
Qed.

Lemma reboot_world c n bs kp extra opts now n' fl p :
  world_inv c {| w_node := n; flight := fl; producer := p |} bs → options_ok opts →
  new_node (store n) g kp extra opts now = Ok n' → world_inv c (at_rest n') bs.
Proof.
  intros [Hl _ _ _ _ Hr Hf] [Hcap Hmax] Hn. cbn [w_node] in Hl. destruct (new_node_ok _ _ _ _ _ _ _ Hn) as [Hkp Henv].
  destruct (genesis_again g (boot_accounts g extra) _ _ (tl_store _ _ _ Hl)) as [root Hg].
  destruct (start_on_links g (store n) (store n) bs kp extra opts now root) as (n1 & Hn1 & Hs);
    [done|done|exact Hg|apply Hl| |].
  { intros Hne. destruct (tl_queue _ _ _ Hl Hne) as (q & Hq & _). eauto. }
  rewrite Hn in Hn1. injection Hn1 as <-. split; cbn [at_rest w_node producer taken].
  - eapply started_links; [exact Hkp|apply Hl|exact Hs].
  - rewrite (sd_mempool _ _ _ _ _ _ _ Hs). apply new_mempool_inv. lia.
  - by rewrite (sd_mempool _ _ _ _ _ _ _ Hs).
  - by rewrite (sd_options _ _ _ _ _ _ _ Hs).
  - apply batch_nil.
  - exact Hr.
  - intros Hc. split; [apply Hf, Hc|by intros tx sig ?%not_elem_of_nil|].
    cbn [at_rest w_node]. rewrite (sd_mempool _ _ _ _ _ _ _ Hs). by intros tx sig ?%not_elem_of_nil.
Qed.

(** Taking transactions out of the mempool. *)
Lemma take_world c w bs mp txs :
  world_inv c w bs → producer w = Waiting →
  drain (mempool (w_node w)) (max_block_transactions (options (w_node w))) = (mp, txs) →
  world_inv c {| w_node := with_queues (w_node w) mp (pending_deposits (w_node w));
                 flight := flight w; producer := TookTxs txs |} bs.
Proof.
  intros [Hl Hm Hcap Hmax _ Hr Hf] Hp Hd.
  destruct (drain_split _ _ [] Hm Hmax) as [Hdr Hrest]; [by intros ? ? _ _ ?%not_elem_of_nil|].
  rewrite Hd in Hdr, Hrest. cbn [fst snd] in Hdr, Hrest.
  assert (Hmp : mempool_inv mp ∧ mp_capacity mp = mp_capacity (mempool (w_node w))).
  { split; [|unfold drain in Hd; by injection Hd as <- _].
    replace mp with (drain (mempool (w_node w)) (max_block_transactions (options (w_node w)))).1 by by rewrite Hd.
    apply drain_inv; [|done]. destruct Hm as [_ Hq _]. lia. }
  destruct Hmp as [Hmp Hmc]. split; cbn [w_node with_queues mempool options producer taken]; try done.
  - by apply queues_links.
  - by rewrite Hmc.
  - by eapply drained_batch.
  - intros Hc. destruct (Hf Hc) as [Hn _ Hqf].
    assert (Happ : queue (mempool (w_node w)) = txs ++ queue mp)
      by (unfold drain in Hd; injection Hd as <- <-; cbn; by rewrite take_drop).
    split; cbn [w_node with_queues mempool producer taken]; [done| |].
    + intros tx sig Htx Hs. apply (Hqf tx); [|done]. rewrite Happ. apply elem_of_app. by left.
    + intros tx sig Htx Hs. split; [|by apply (Hrest tx)]. apply (Hqf tx); [|done]. rewrite Happ. apply elem_of_app. by right.
Qed.

(** Pushing a submission; it stays fresh unless the push is late. *)
Lemma push_world c w bs i tx :
  world_inv c w bs → flight w !! i = Some (Looked, tx) →
  world_inv (c && negb (late w (SubmitPush i)))
    {| w_node := push_submission (w_node w) tx; flight := delete i (flight w); producer := producer w |} bs.
Proof.
  intros [Hl Hm Hcap Hmax Hb Hr Hf] Hi. unfold push_submission.
  destruct (push (mempool (w_node w)) tx) as [[mp sig]|e|] eqn:Hp.
  2,3: split; try done; intros [Hc _]%andb_true_iff; destruct (Hf Hc); by split.
  destruct (push_adds _ _ _ _ Hp) as (Hq & Hmc & Hs).
  split; cbn [w_node with_queues mempool options producer]; try done.
  - by apply queues_links.
  - by eapply push_inv.
  - by rewrite Hmc.
  - intros [Hc Hlate%negb_true_iff]%andb_true_iff. destruct (Hf Hc) as [Hn Ht Hqf].
    cbn [late] in Hlate. rewrite Hi, Hs in Hlate. apply orb_false_iff in Hlate as [Hnt%bool_decide_eq_false Hlk%negb_false_iff].
    split; cbn [w_node with_queues mempool producer]; [done|done|].
    rewrite Hq. intros tx' sig' [Hin|Hin]%elem_of_app Hs'; [by apply (Hqf tx')|].
    apply list_elem_of_singleton in Hin as ->. assert (sig' = sig) as -> by congruence. split; [|done].
    destruct (admit_lookup (w_node w) sig) as [s0|e|] eqn:Ha; [|done..]. by eapply lookup_fresh.
Qed.

(** Executing what was taken. *)
Lemma execute_world c w bs txs ds now :
  world_inv c w bs → producer w = TookAll txs ds → tip_slot (tip (w_node w)) < u64_max →
  ∃ bs', world_inv c {| w_node := (finish_block (w_node w) txs ds now).1; flight := flight w; producer := Waiting |} bs'.
Proof.
  intros [Hl Hm Hcap Hmax Hb Hr Hf] Hp Hlt. rewrite Hp in Hb. cbn [taken] in Hb.
  destruct (finish_links (w_node w) bs txs ds now Hl Hlt Hb) as (Hmp & Ho & [Hl'|(b & Hl' & Hsub & Hreg)]).
  - exists bs. split; cbn [w_node producer taken]; rewrite ?Hmp, ?Ho; try done; [apply batch_nil|].
    intros Hc. destruct (Hf Hc) as [Hn _ Hqf]. split; cbn [w_node producer taken]; rewrite ?Hmp; [done|by intros ? ? ?%not_elem_of_nil|].
    intros tx sig Htx Hs. split; [by apply (Hqf tx)|apply not_elem_of_nil].
  - exists (bs ++ [b]). destruct (batch_sub _ _ Hb Hsub) as [_ Hsg Hnd].
    split; cbn [w_node producer taken]; rewrite ?Hmp, ?Ho; try done; [apply batch_nil|by apply replay_free_snoc|].
    intros Hc. destruct (Hf Hc) as [Hn Ht Hqf]. rewrite Hp in Ht, Hqf. cbn [taken] in Ht, Hqf.
    split; cbn [w_node producer taken]; rewrite ?Hmp, ?chain_sigs_snoc.
    + apply list.NoDup_app. split_and!; [done| |by apply nodup_omap_sigs].
      intros x Hx (tx & Htx & Hs)%list_elem_of_omap. apply (Ht tx x); [by eapply elem_of_submseteq|done|done].
    + by intros ? ? ?%not_elem_of_nil.
    + intros tx sig Htx Hs. destruct (Hqf tx sig Htx Hs) as [H1 H2]. split; [|apply not_elem_of_nil].
      apply not_elem_of_app. split; [done|]. intros (tx' & Htx' & Hs')%list_elem_of_omap.
      apply H2, list_elem_of_omap. exists tx'. split; [by eapply elem_of_submseteq|done].
Qed.

Lemma flight_irrelevant c w bs fl :
  world_inv c w bs → world_inv c {| w_node := w_node w; flight := fl; producer := producer w |} bs.
Proof. intros [? ? ? ? ? ? Hf]. split; try done. intros Hc. destruct (Hf Hc). by split. Qed.

Lemma act_inv c w bs a :
  world_inv c w bs → allowed w a → ∃ bs', world_inv (c && negb (late w a)) (act w a) bs'.
Proof.
  intros Hi Ha. destruct a as [tx|i|i| | |now|ds| |kp extra opts now]; cbn [act];
    try (cbn [late negb]; rewrite andb_true_r).
  - destruct (admit_checks _ _); [|by exists bs..]. exists bs. by apply flight_irrelevant.
  - destruct (flight w !! i) as [[[] tx]|]; [|by exists bs..]. destruct (head (signatures tx)); [|by exists bs].
    destruct (admit_lookup _ _); exists bs; by apply flight_irrelevant.
  - destruct (flight w !! i) as [[[] tx]|] eqn:Hf.
    + exists bs. cbn [late]. rewrite Hf. by rewrite andb_true_r.
    + exists bs. by apply push_world.
    + exists bs. cbn [late]. rewrite Hf. by rewrite andb_true_r.
  - destruct (producer w) eqn:Hp; [|by exists bs..]. destruct (drain _ _) as [mp txs] eqn:Hd. exists bs. by eapply take_world.
  - destruct (producer w) as [|txs|] eqn:Hp; [by exists bs| |by exists bs]. exists bs.
    destruct Hi as [Hl ? ? ? Hb ? Hf]. rewrite Hp in Hb. split; try done; [by apply queues_links|].
    intros Hc. destruct (Hf Hc) as [? Ht Hq]. rewrite Hp in Ht, Hq. by split.
  - destruct (producer w) as [| |txs ds] eqn:Hp; [by exists bs..|]. destruct Ha as [_ Hlt]. by eapply execute_world.
  - exists bs. destruct Hi as [Hl ? ? ? ? ? Hf]. split; try done; [by apply queues_links|]. intros Hc. destruct (Hf Hc). by split.
  - exists bs. destruct Hi as [[] ? ? ? ? ? Hf]. split; try done. intros Hc. destruct (Hf Hc). by split.
  - destruct Ha as [Ho Hok]. destruct (new_node _ _ _ _ _ _) as [n'|e|] eqn:Hn; [|done..]. exists bs.
    destruct w as [n fl p]. by eapply reboot_world.
Qed.

Lemma reached_inv c w : reached c w → ∃ bs, world_inv c w bs.
Proof.
  induction 1 as [kp extra opts now n Ho Hn|c w a _ [bs Hi] Ha].
  - exists []. by eapply boot_world.
  - by eapply act_inv.
Qed.

(** C1: whatever the schedule of submissions (each in three pieces), deposits,
    production attempts (each in three pieces, failed and panicking ones
    included) and restarts, the store holds exactly one chain: blocks at slots 1,
    2, ... up to the tip, each verifying under the genesis sequencer and carrying
    the hash of the one before it, the first that of the genesis. No block
    repeats a signature, and no transaction that runs in the executor carries a
    signature of an earlier block. When no push of the schedule is late, that is,
    comes after the producer has taken or committed a transaction of the same
    signature, no two transactions of the whole chain have the same signature,
    withdrawals and pool transactions included. *)
Theorem interleaved_chain c w :
  reached c w →
  ∃ bs, stores_chain (store (w_node w)) bs
    ∧ linked g (genesis_hash g) 1 bs
    ∧ tip_slot (tip (w_node w)) = Z.of_nat (length bs) ∧ tip_blockhash (tip (w_node w)) = last_hash g bs
    ∧ replay_free bs ∧ (c = true → NoDup (chain_sigs bs)).
Proof.
  intros (bs & [Hl _ _ _ _ Hr Hf])%reached_inv. exists bs.
  split_and!; [|apply Hl|apply Hl|apply Hl|exact Hr|intros Hc; apply (fw_chain _ _ (Hf Hc))].
  intros s. apply holds_get_block, Hl.
Qed.

(** ** Every run of whole operations is a schedule without late pushes *)

Lemma reached_calm w a : reached true w → allowed w a → late w a = false → reached true (act w a).
Proof. intros Hr Ha Hl. pose proof (reached_act true w a Hr Ha) as H. by rewrite Hl in H. Qed.

Lemma reached_submit n tx : reached true (at_rest n) → reached true (at_rest (submit_transaction n tx).1).
Proof.
  intros Hr. rewrite <- serial_submit. unfold schedule. cbn [fold_left].
  apply reached_calm; [apply reached_calm; [by apply reached_calm|done|done]|done|].
  unfold at_rest. cbn [act w_node flight producer]. destruct (admit_checks n tx); [|done..].
  cbn [flight app lookup list_lookup]. destruct (head (signatures tx)) as [sig|] eqn:Hs; [|by cbn].
  cbn [w_node flight producer]. destruct (admit_lookup n sig) eqn:Ha; [|done..].
  cbn. unfold first_signature. by rewrite Hs, Ha.
Qed.

Lemma serial_reached n : node_reachable pool_error_text signed_transfer g n → reached true (at_rest n).
Proof.
  induction 1 as [kp extra opts now n Ho Hn|n n' _ IH Hstep]; [by eapply reached_boot|].
  destruct Hstep as [nd tx nd' r Hs|nd key amount nd' r Hs|nd ds|nd|nd now nd' r Hnow Hlt Hs|nd kp extra opts now nd' Ho Hs].
  - pose proof (reached_submit nd tx IH) as H. by rewrite Hs in H.
  - apply airdrop_submits in Hs as [->|[tx Hs]]; [exact IH|].
    pose proof (reached_submit nd tx IH) as H. by rewrite Hs in H.
  - exact (reached_calm _ (HandDeposits ds) IH I eq_refl).
  - exact (reached_calm _ StartDraining IH I eq_refl).
  - assert (H : reached true (schedule (at_rest nd) [TakeTxs; TakeDeposits; Execute now])).
    { unfold schedule. cbn [fold_left]. apply reached_calm; [apply reached_calm; [by apply reached_calm|done|done]| |done].
      split; [exact Hnow|]. cbn [at_rest act w_node producer]. by destruct (drain _ _). }
    by rewrite serial_produce, Hs in H.
  - assert (Hal : allowed (at_rest nd) (Reboot kp extra opts now)) by (split; [exact Ho|cbn [w_node at_rest]; by rewrite Hs]).
    pose proof (reached_calm (at_rest nd) (Reboot kp extra opts now) IH Hal eq_refl) as H. cbn [act w_node at_rest] in H.
    by rewrite Hs in H.
Qed.

(** Whatever is submitted and taken without executing is within the rules. *)
Lemma reached_quiet c w acts :
  reached c w → Forall (λ a, ∀ w', allowed w' a) acts → ∃ c', reached c' (schedule w acts).
Proof.
  intros Hr Ha. revert c w Hr. induction Ha as [|a acts Ha _ IH]; intros c w Hr; [by exists c|].
  exact (IH _ _ (reached_act c w a Hr (Ha w))).
Qed.

(** ** The replay a late push allows *)

Section Race.
Context (n : Node) (tx : VersionedTransaction) (w : WithdrawTx) (sig : Signature) (acc : StoredAccount).

(** A native withdrawal by an account that is neither the clock nor the fee
    collector. *)
Record native_withdrawal : Prop := {
  nw_parsed : to_withdraw tx = Some w;
  nw_native : w_asset_id w = NATIVE_ASSET_ID;
  nw_amount : 0 < w_amount w;
  nw_clock : w_fee_payer w ≠ clock_id;
  nw_collector : w_fee_payer w ≠ node_fee_collector n;
}.

(** The block of a lone funded withdrawal, on any chain. *)
Lemma withdrawal_block m bs a now :
  native_withdrawal → node_fee_collector m = node_fee_collector n →
  tip_links g m bs → tip_poisoned m = false → tip_slot (tip m) < u64_max → is_Some (first_signature tx) →
  decodes (t_accounts (store m)) → get_account (store m) (w_fee_payer w) = Ok (Some a) →
  sat_add (w_amount w) POOL_TX_FEE ≤ lamports a →
  ∃ m' b, (finish_block m [tx] [] now).1 = m' ∧ tip_links g m' (bs ++ [b]) ∧ transactions b = [tx]
    ∧ mempool m' = mempool m ∧ options m' = options m ∧ pending_deposits m' = pending_deposits m
    ∧ tip_poisoned m' = false ∧ node_fee_collector m' = node_fee_collector n
    ∧ withdrawals m' = withdraw_apply (withdrawals m) (leaf_of w).1 (leaf_of w).2
    ∧ decodes (t_accounts (store m'))
    ∧ get_account (store m') (w_fee_payer w)
      = Ok (Some (set_lamports (lamports a - sat_add (w_amount w) POOL_TX_FEE) a)).
Proof.
  intros [Hw Ha Hpos Hclock Hcol] Hfc Hl Hlock Hlt Hsg Hdec Hacc Hle.
  destruct (withdrawal_draft pool_error_text m tx w a now) as (d & meta & Hd & Hinc & _ & Hwr); [done..|].
  assert (Hb : batch_ok [tx]).
  { split; [done|by apply Forall_singleton|apply NoDup_singleton]. }
  destruct (finish_commits m bs [tx] [] now d _ Hl Hlock Hlt Hb ltac:(by left) Hd)
    as (m' & b & Hf & Hl' & Htx & Hm & Ho & Hp & Hk & Hc & Hwd & Hat).
  exists m', b. rewrite Hinc in Htx.
  split_and!; [exact Hf|exact Hl'|exact Htx|exact Hm|exact Ho|exact Hp|exact Hk|congruence|exact Hwd|rewrite Hat; by apply writes_decode|].
  rewrite (committed_receipt _ _ _ _ Hdec Hat), Hwr by congruence. done.
Qed.

(** The schedule: the producer takes the withdrawal, a second submission of the
    same transaction goes through, and the producer finishes and goes around. *)
Definition race (now1 now2 : Z) : list Action :=
  [TakeTxs; TakeDeposits; SubmitCheck tx; SubmitLookup 0; SubmitPush 0; Execute now1;
   TakeTxs; TakeDeposits; Execute now2].

(** A mempool with one transaction takes it again once it is drained. *)
Lemma drain_again m k :
  mempool_inv m → queue m = [tx] → (0 < k)%nat →
  (drain m k).2 = [tx] ∧ queue (drain m k).1 = []
  ∧ (mempool_inv (drain m k).1 → ∃ m', push (drain m k).1 tx = Ok (m', default [] (first_signature tx)) ∧ queue m' = [tx]).
Proof.
  intros [[Hsg _ _ _] Hcap Hpay] Hq Hk. rewrite Hq in Hsg. apply list.Forall_cons in Hsg as [[[s Hs] [p Hp]] _].
  assert (Hd : (drain m k).2 = [tx] ∧ queue (drain m k).1 = []
               ∧ mp_max_per_payer (drain m k).1 = mp_max_per_payer m ∧ mp_capacity (drain m k).1 = mp_capacity m).
  { unfold drain. rewrite Hq. cbn [fst snd queue length mp_max_per_payer mp_capacity].
    replace (Nat.min k 1) with 1%nat by lia. split_and!; reflexivity. }
  destruct Hd as (Hd1 & Hd2 & Hd3 & Hd4). revert Hd2 Hd3 Hd4. generalize (drain m k).1 as m1. intros m1 Hd2 Hd3 Hd4.
  split_and!; [exact Hd1|exact Hd2|]. intros Hi.
  specialize (Hpay p). rewrite Hq in Hcap, Hpay. rewrite payer_count_cons, decide_True in Hpay by done.
  pose proof (payer_count_nonneg [] p). cbn [length] in Hcap.
  assert (Hok : is_ok (push m1 tx) = true).
  { apply (push_accepts m1 tx Hi). exists s, p. rewrite Hd2, Hd3, Hd4. cbn [length].
    split_and!; [exact Hs|exact Hp|apply not_elem_of_nil|lia|lia]. }
  destruct (push m1 tx) as [[m' s']|e|] eqn:Hpu; [|done..].
  exists m'. destruct (push_adds _ _ _ _ Hpu) as (Hq' & _ & Hs'). rewrite Hs'. split; [done|]. by rewrite Hq', Hd2.
Qed.

(** The worlds of the race, piece by piece. *)
Lemma race_worlds mp mp2 mp3 n3 now1 now2 :
  admit_tx n tx = Ok sig → pending_deposits n = [] →
  drain (mempool n) (max_block_transactions (options n)) = (mp, [tx]) → push mp tx = Ok (mp2, sig) →
  (finish_block (with_queues n mp2 []) [tx] [] now1).1 = n3 → pending_deposits n3 = [] →
  drain (mempool n3) (max_block_transactions (options n3)) = (mp3, [tx]) →
  schedule (at_rest n) (race now1 now2) = at_rest (finish_block (with_queues n3 mp3 []) [tx] [] now2).1
  ∧ (reached true (at_rest n) → u64 now1 → u64 now2 → tip_slot (tip n) < u64_max → tip_slot (tip n3) < u64_max →
     ∃ c, reached c (schedule (at_rest n) (race now1 now2))).
Proof.
  intros Ha Hp Hd Hpu Hf Hp3 Hd3.
  assert (Hs : (submit_transaction (with_queues n mp []) tx).1 = with_queues n mp2 []).
  { unfold submit_transaction. change (admit_tx (with_queues n mp []) tx) with (admit_tx n tx). rewrite Ha.
    cbn [with_queues mempool]. rewrite Hpu. reflexivity. }
  change (race now1 now2) with ([TakeTxs; TakeDeposits] ++ [SubmitCheck tx; SubmitLookup 0; SubmitPush 0]
    ++ [Execute now1] ++ [TakeTxs; TakeDeposits] ++ [Execute now2]).
  assert (H1 : schedule (at_rest n) ([TakeTxs; TakeDeposits] ++ [SubmitCheck tx; SubmitLookup 0; SubmitPush 0])
               = {| w_node := with_queues n mp2 []; flight := []; producer := TookAll [tx] [] |})
    by by rewrite schedule_app, (take_both _ _ _ Hd), submit_alone, Hs, Hp.
  assert (H2 : schedule (schedule (at_rest n) ([TakeTxs; TakeDeposits] ++ [SubmitCheck tx; SubmitLookup 0; SubmitPush 0]))
                 [Execute now1] = at_rest n3) by (rewrite H1, <- Hf; reflexivity).
  assert (H3 : schedule (at_rest n3) [TakeTxs; TakeDeposits]
               = {| w_node := with_queues n3 mp3 []; flight := []; producer := TookAll [tx] [] |})
    by by rewrite (take_both _ _ _ Hd3), Hp3.
  rewrite app_assoc, schedule_app, schedule_app, H2, schedule_app, H3. split; [reflexivity|].
  intros Hr Hu1 Hu2 Hlt Hlt3.
  destruct (reached_quiet _ _ ([TakeTxs; TakeDeposits] ++ [SubmitCheck tx; SubmitLookup 0; SubmitPush 0]) Hr) as [c1 Hr1];
    [by repeat constructor|].
  assert (Hr2 : ∃ c2, reached c2 (at_rest n3)).
  { rewrite H1 in Hr1, H2. rewrite <- H2. eexists. by apply (reached_act c1 _ (Execute now1) Hr1). }
  destruct Hr2 as [c2 Hr2]. destruct (reached_quiet _ _ [TakeTxs; TakeDeposits] Hr2) as [c3 Hr3]; [by repeat constructor|].
  rewrite H3 in Hr3. eexists. by apply (reached_act c3 _ (Execute now2) Hr3).
Qed.

(** C27: a withdrawal can be committed twice. Withdrawals (and pool transactions)
    are not looked up in the store when a block is produced, so the only guard is
    the one at submission, and it can be passed between the drain of the mempool
    and the commit: when an idle node with only a native withdrawal queued goes
    through the schedule in which the same transaction is submitted again while
    the producer holds it, the next two blocks both carry it, the payer pays the
    amount and the fee twice, and the withdrawals tree has the root of one. *)
Theorem withdrawal_replayed now1 now2 :
  node_reachable pool_error_text signed_transfer g n → native_withdrawal →
  tip_poisoned n = false → tip_slot (tip n) + 1 < u64_max → u64 now1 → u64 now2 →
  queue (mempool n) = [tx] → (0 < max_block_transactions (options n))%nat → pending_deposits n = [] →
  admit_tx n tx = Ok sig → get_account (store n) (w_fee_payer w) = Ok (Some acc) →
  lamports acc ≤ u64_max → 2 * (w_amount w + POOL_TX_FEE) ≤ lamports acc →
  let n' := w_node (schedule (at_rest n) (race now1 now2)) in
  (∃ c, reached c (schedule (at_rest n) (race now1 now2)))
  ∧ (∃ bs b1 b2, stores_chain (store n) bs ∧ stores_chain (store n') (bs ++ [b1; b2])
               ∧ transactions b1 = [tx] ∧ transactions b2 = [tx])
  ∧ get_account (store n') (w_fee_payer w)
    = Ok (Some (set_lamports (lamports acc - 2 * (w_amount w + POOL_TX_FEE)) acc))
  ∧ withdraw_root (withdrawals n') = withdraw_root (withdraw_apply (withdrawals n) (leaf_of w).1 (leaf_of w).2).
Proof.
  intros Hr Hnw Hlock Hlt Hu1 Hu2 Hq Hk Hp Ha Hacc Hmax Hfund n'.
  pose proof (reachable_inv _ _ _ n Hr) as [bs Hi]. pose proof (reachable_decodes _ _ _ n Hr) as Hdec.
  pose proof (ok_links _ _ _ (ni_chain _ _ _ Hi)) as Hl. pose proof (nw_amount Hnw) as Hpos.
  assert (Hneed : sat_add (w_amount w) POOL_TX_FEE = w_amount w + POOL_TX_FEE).
  { apply sat_add_exact. unfold POOL_TX_FEE, LAMPORTS_PER_SIGNATURE in *. lia. }
  destruct (drain_again (mempool n) _ (ni_mempool _ _ _ Hi) Hq Hk) as (Hd1 & Hd2 & Hpush).
  destruct Hpush as (mp2 & Hpu & Hq2).
  { apply drain_inv; [|apply Hi]. destruct (ni_mempool _ _ _ Hi) as [_ Hc _]. pose proof (ni_capacity _ _ _ Hi). lia. }
  pose proof (admit_sig _ _ _ Ha) as Hsig.
  rewrite Hsig in Hpu. cbn [default from_option id] in Hpu.
  destruct (withdrawal_block (with_queues n mp2 []) bs acc now1) as
    (n3 & b1 & Hf1 & Hl1 & Htx1 & Hm1 & Ho1 & Hp1 & Hk1 & Hc1 & Hw1 & Hdec1 & Hacc1);
    [done|done|by apply queues_links|done|cbn [with_queues tip]; lia|by rewrite Hsig|done|done|unfold POOL_TX_FEE, LAMPORTS_PER_SIGNATURE in *; lia|].
  assert (Hd3 : (drain mp2 (max_block_transactions (options n))).2 = [tx]).
  { unfold drain. rewrite Hq2. cbn [snd length]. by replace (Nat.min _ 1) with 1%nat by lia. }
  destruct (drain mp2 _) as [mp3 txs] eqn:Hd4 in Hd3. cbn [snd] in Hd3. subst txs.
  pose proof (race_worlds _ mp2 mp3 n3 now1 now2 Ha Hp ltac:(rewrite <- Hd1; apply surjective_pairing) Hpu Hf1 Hp1
    ltac:(rewrite Hm1, Ho1; exact Hd4)) as [Hsched Hrun].
  assert (Hlt3 : tip_slot (tip n3) < u64_max)
    by (rewrite (tl_slot _ _ _ Hl1), length_app; rewrite (tl_slot _ _ _ Hl) in Hlt; cbn [length]; lia).
  destruct (withdrawal_block (with_queues n3 mp3 []) (bs ++ [b1]) (set_lamports (lamports acc - sat_add (w_amount w) POOL_TX_FEE) acc) now2)
    as (n4 & b2 & Hf2 & Hl2 & Htx2 & _ & _ & _ & _ & _ & Hw2 & _ & Hacc2);
    [done|exact Hc1|by apply queues_links|exact Hk1|exact Hlt3|by rewrite Hsig|exact Hdec1|exact Hacc1|cbn [lamports set_lamports]; lia|].
  assert (n' = n4) as ->. { unfold n'. rewrite Hsched. cbn [at_rest w_node]. exact Hf2. }
  split_and!.
  - apply Hrun; [by apply serial_reached|done|done|lia|exact Hlt3].
  - exists bs, b1, b2. rewrite <- app_assoc in Hl2. split_and!; [intros s; apply holds_get_block, Hl|intros s; apply holds_get_block, Hl2|done|done].
  - rewrite Hacc2, Hneed. unfold set_lamports. cbn [lamports data owner executable rent_epoch].
    by replace (lamports acc - (w_amount w + POOL_TX_FEE) - (w_amount w + POOL_TX_FEE))
      with (lamports acc - 2 * (w_amount w + POOL_TX_FEE)) by lia.
  - rewrite Hw2. cbn [with_queues withdrawals]. rewrite Hw1. cbn [with_queues withdrawals].
    rewrite <- (co_tree _ _ _ (ni_chain _ _ _ Hi)), rebuild_list_all.
    destruct (leaf_of w) as [l1 l2] eqn:Hlf. cbn [fst snd].
    pose proof (withdraw_repeat (leaf_of <$> successful_withdrawals (store n) bs) (l1, l2)) as H.
    unfold withdraw_all in *. rewrite !fold_left_app in H. exact H.
Qed.

End Race.
End Interleave.

Module Example.
Import NodeChain.Example.
#[local] Existing Instances Toy.blake3_toy Toy.ed25519_toy Toy.solana_toy poseidon_toy.
#[local] Existing Instances ExecToy.ids_toy ExecToy.svm_toy WrappedSpl.Example.addresses_toy.
#[local] Existing Instances StoreToy.account_codec StoreToy.block_codec StoreToy.locator_codec.
#[local] Existing Instances StoreToy.meta_codec StoreToy.queue_codec accept_all.
#[local] Existing Instances header_codec tx_codec state_codec instruction_codec clock_codec rent_codec.
#[local] Existing Instances schedule_codec entries_codec.

(** A node with one block, in which the producer has just taken the queues while
    the withdrawal of that block is submitted again and refused. *)
Definition busy (n : Node) : World :=
  schedule error_text g (at_rest n) [TakeTxs; SubmitCheck wtx; TakeDeposits; SubmitLookup 0; SubmitPush 0].

Lemma interleaved_chain_witness :
  ∃ n c b, reached error_text g c (busy n) ∧ transactions b = [wtx]
  ∧ ∃ bs, stores_chain (store n) [b] ∧ stores_chain (store (w_node (busy n))) bs ∧ linked g (genesis_hash g) 1 bs
    ∧ tip_slot (tip (w_node (busy n))) = Z.of_nat (length bs) ∧ replay_free bs.
Proof.
  destruct burned as (_ & n & bs0 & _ & _ & Hr & Hbs & _ & b & -> & Htx).
  destruct (reached_quiet error_text g true (at_rest n)
    [TakeTxs; SubmitCheck wtx; TakeDeposits; SubmitLookup 0; SubmitPush 0]) as [c Hc].
  - exact (serial_reached error_text transfer_toy g n Hr).
  - repeat constructor.
  - exists n, c, b. split; [exact Hc|]. split; [exact Htx|].
    destruct (interleaved_chain error_text g c (busy n) Hc) as (bs & H1 & H2 & H3 & _ & H4 & _).
    exists bs. split; [exact Hbs|]. split; [exact H1|]. split; [exact H2|]. split; [exact H3|exact H4].
Defined.

Lemma withdrawal_replayed_witness :
  ∃ n n', node_reachable error_text transfer_toy g n
  ∧ n' = w_node (schedule error_text g (at_rest n) (race wtx 9 10))
  ∧ (∃ bs b1 b2, stores_chain (store n') (bs ++ [b1; b2]) ∧ transactions b1 = [wtx] ∧ transactions b2 = [wtx])
  ∧ get_account (store n') (pk 1) = Ok (Some (new_system 989880)).
Proof.
  destruct queued as (n & Hr & Hlock & Hm & Ho & Hp & Hs & Ha & Had & Hf).
  destruct (withdrawal_replayed error_text transfer_toy g n wtx wd (le_bytes 64 77) (new_system 1000000) 9 10)
    as (_ & (bs & b1 & b2 & _ & H1 & H2 & H3) & H4 & _); [exact Hr|..|exact Hp|exact Had|exact Ha| | |].
  - split; [exact wtx_parses|reflexivity|reflexivity|vm_compute; discriminate|rewrite Hf; vm_compute; discriminate].
  - exact Hlock.
  - rewrite Hs. unfold u64_max. lia.
  - unfold u64, u64_max. lia.
  - unfold u64, u64_max. lia.
  - rewrite Hm. exact wtx_queued.
  - rewrite Ho. cbn [opts default_options max_block_transactions]. lia.
  - vm_compute. discriminate.
  - vm_compute. discriminate.
  - eexists n, _. split; [exact Hr|]. split; [reflexivity|]. split; [|exact H4].
    exists bs, b1, b2. split; [exact H1|]. split; [exact H2|exact H3].
Defined.
End Example.
