(* ===== verification/Settlement.v ===== *)
(** * The L1 settlement and bridge program

    Models [programs/programs/zul-settlement/src/lib.rs] and
    [programs/programs/zul-da-log/src/lib.rs]. The accounts an instruction names
    are derived from seeds, so the program's state is one record: the config
    account, the batch accounts by number, the claim accounts by recipient and
    nonce, the lamports of the vault and its token balance per mint. An
    instruction that fails leaves no trace (the runtime reverts it). What the
    runtime and the token programs do is an interface: whether a payer can pay,
    whether the vault may be left with a balance (rent), whether tokens may
    move, what a token transfer delivers, and the extensions of a mint. Whoever
    submits an instruction is taken to pay for the accounts it creates. *)

From S2P Require Import Prelude External Hash Paths Smt SmtFacts SmtProps NodeBridge NodeLedger.

(** ** Data *)

Inductive SettlementError :=
| Unauthorized | NonSequentialBatch | InvalidSlotRange | ZeroAmount | Overflow | InvalidProof
| UnsupportedMintExtension
| AccountMissing | AccountInUse | TransferFailed.

Record Config := {
  cfg_authority : Pubkey;
  batch_count : Z;
  total_deposited : Z;
  bump : Z;
  vault_bump : Z;
}.

Record Batch := {
  b_batch_no : Z;
  b_first_slot : Z;
  b_last_slot : Z;
  b_state_root : H256;
  b_withdrawals_root : H256;
  b_da_hash : H256;
  b_chunk_count : Z;
  posted_at : Z;
}.

Record WithdrawalClaim := {
  c_recipient : Pubkey;
  c_amount : Z;
  c_nonce : Z;
  claimed_at : Z;
}.

Inductive L1Event :=
| BatchPosted (batch_no first_slot last_slot : Z) (state_root da_hash : H256)
| Deposited (depositor : Pubkey) (amount : Z) (l2_recipient : Pubkey) (mint : option Pubkey) (decimals : Z)
| Withdrawn (recipient : Pubkey) (amount nonce : Z).

Record L1State := {
  l1_config : option Config;
  batches : gmap Z Batch;
  claims : gmap (Pubkey * Z) WithdrawalClaim;
  vault_lamports : Z;
  vault_tokens : gmap Pubkey Z;
  l1_events : list L1Event;
}.

Inductive ExtensionType :=
| TransferHook | PermanentDelegate | NonTransferable | DefaultAccountState
| ConfidentialTransferMint | ConfidentialTransferFeeConfig
| TransferFeeConfig | MetadataPointer | TokenMetadata | OtherExtension (code : Z).

(** What the runtime and the token programs answer. A token transfer takes the
    amount from its source and delivers at most that. *)
Class L1Runtime := {
  vault_key : Pubkey;
  can_pay : Pubkey → Z → bool;
  may_leave : Z → bool;
  can_pay_tokens : Pubkey → Pubkey → Z → bool;
  can_release : Pubkey → Pubkey → Z → bool;
  mint_extensions : Pubkey → option (list ExtensionType);
  mint_decimals_of : Pubkey → Z;
  delivers : Pubkey → Z → Z;
  delivers_bound : ∀ mint amount, 0 ≤ amount → 0 ≤ delivers mint amount ≤ amount;
}.

Definition is_dangerous_extension (e : ExtensionType) : bool :=
  match e with
  | TransferHook | PermanentDelegate | NonTransferable | DefaultAccountState
  | ConfidentialTransferMint | ConfidentialTransferFeeConfig => true
  | _ => false
  end.

Section Settlement.
Context `{B3 : Blake3} `{TX : SolanaTx} `{RT : L1Runtime}.
(** The table embedded from [empties.bin]. *)
Context (empties : list H256).

Definition require_safe_mint (mint : Pubkey) : outcome SettlementError () :=
  match mint_extensions mint with
  | None => Err UnsupportedMintExtension
  | Some exts => if existsb is_dangerous_extension exts then Err UnsupportedMintExtension else Ok ()
  end.

Definition emit (e : L1Event) (s : L1State) : L1State :=
  {| l1_config := l1_config s; batches := batches s; claims := claims s;
     vault_lamports := vault_lamports s; vault_tokens := vault_tokens s; l1_events := l1_events s ++ [e] |}.

(** ** Instructions *)

(** [init] on the config account fails when it exists. *)
Definition initialize (s : L1State) (authority : Pubkey) (bump0 vault_bump0 : Z)
    : outcome SettlementError L1State :=
  match l1_config s with
  | Some _ => Err AccountInUse
  | None =>
      Ok {| l1_config := Some {| cfg_authority := authority; batch_count := 0; total_deposited := 0;
                                 bump := bump0; vault_bump := vault_bump0 |};
            batches := batches s; claims := claims s; vault_lamports := vault_lamports s;
            vault_tokens := vault_tokens s; l1_events := l1_events s |}
  end.

Definition post_batch (s : L1State) (authority : Pubkey) (now : Z)
    (batch_no first_slot last_slot : Z) (state_root withdrawals_root da_hash : H256) (chunk_count : Z)
    : outcome SettlementError L1State :=
  let? cfg := ok_or (l1_config s) AccountMissing in
  if decide (is_Some (batches s !! batch_no)) then Err AccountInUse
  else if decide (authority ≠ cfg_authority cfg) then Err Unauthorized
  else if decide (batch_no ≠ batch_count cfg) then Err NonSequentialBatch
  else if decide (last_slot < first_slot) then Err InvalidSlotRange
  else
    let? count := ok_or (checked_add (batch_count cfg) 1) Overflow in
    let batch := {| b_batch_no := batch_no; b_first_slot := first_slot; b_last_slot := last_slot;
                    b_state_root := state_root; b_withdrawals_root := withdrawals_root;
                    b_da_hash := da_hash; b_chunk_count := chunk_count; posted_at := now |} in
    Ok (emit (BatchPosted batch_no first_slot last_slot state_root da_hash)
          {| l1_config := Some {| cfg_authority := cfg_authority cfg; batch_count := count;
                                  total_deposited := total_deposited cfg; bump := bump cfg;
                                  vault_bump := vault_bump cfg |};
             batches := <[batch_no := batch]> (batches s); claims := claims s;
             vault_lamports := vault_lamports s; vault_tokens := vault_tokens s;
             l1_events := l1_events s |}).

Definition deposit_sol (s : L1State) (depositor : Pubkey) (amount : Z) (l2_recipient : Pubkey)
    : outcome SettlementError L1State :=
  let? cfg := ok_or (l1_config s) AccountMissing in
  if decide (amount ≤ 0) then Err ZeroAmount
  else if negb (can_pay depositor amount) then Err TransferFailed
  else
    let? lamports := ok_or (checked_add (vault_lamports s) amount) TransferFailed in
    let? total := ok_or (checked_add (total_deposited cfg) amount) Overflow in
    Ok (emit (Deposited depositor amount l2_recipient None 9)
          {| l1_config := Some {| cfg_authority := cfg_authority cfg; batch_count := batch_count cfg;
                                  total_deposited := total; bump := bump cfg;
                                  vault_bump := vault_bump cfg |};
             batches := batches s; claims := claims s; vault_lamports := lamports;
             vault_tokens := vault_tokens s; l1_events := l1_events s |}).

Definition deposit_spl (s : L1State) (depositor mint : Pubkey) (amount : Z) (l2_recipient : Pubkey)
    : outcome SettlementError L1State :=
  let? cfg := ok_or (l1_config s) AccountMissing in
  if decide (amount ≤ 0) then Err ZeroAmount
  else
    let? _ := require_safe_mint mint in
    if negb (can_pay_tokens mint depositor amount) then Err TransferFailed
    else
      let before := default 0 (vault_tokens s !! mint) in
      let? after := ok_or (checked_add before (delivers mint amount)) TransferFailed in
      let? received := ok_or (checked_sub after before) Overflow in
      if decide (received ≤ 0) then Err ZeroAmount
      else Ok (emit (Deposited depositor received l2_recipient (Some mint) (mint_decimals_of mint))
                 {| l1_config := l1_config s; batches := batches s; claims := claims s;
                    vault_lamports := vault_lamports s;
                    vault_tokens := <[mint := after]> (vault_tokens s); l1_events := l1_events s |}).

(** The checks the two claims share: the batch and an unused claim account, a
    positive amount, and the inclusion proof. *)
Definition check_claim (s : L1State) (recipient asset_id : Pubkey) (batch_no amount nonce : Z)
    (proof : SmtProof) : outcome SettlementError () :=
  let? _ := ok_or (l1_config s) AccountMissing in
  let? batch := ok_or (batches s !! batch_no) AccountMissing in
  if decide (is_Some (claims s !! (recipient, nonce))) then Err AccountInUse
  else if decide (amount ≤ 0) then Err ZeroAmount
  else if l1_verify empties (b_withdrawals_root batch) (l1_withdrawal_pubkey recipient nonce)
            (l1_withdrawal_account_hash recipient asset_id amount nonce) proof
  then Ok () else Err InvalidProof.

(** Record the claim and announce it. *)
Definition record_claim (s : L1State) (recipient : Pubkey) (amount nonce now : Z)
    (lamports : Z) (tokens : gmap Pubkey Z) : L1State :=
  emit (Withdrawn recipient amount nonce)
    {| l1_config := l1_config s; batches := batches s;
       claims := <[(recipient, nonce) := {| c_recipient := recipient; c_amount := amount;
                                            c_nonce := nonce; claimed_at := now |}]> (claims s);
       vault_lamports := lamports; vault_tokens := tokens; l1_events := l1_events s |}.

(** A transfer from the vault to itself brings back what it delivers. *)
Definition claim_withdrawal_spl (s : L1State) (recipient mint : Pubkey) (now batch_no amount nonce : Z)
    (proof : SmtProof) : outcome SettlementError L1State :=
  let? _ := check_claim s recipient mint batch_no amount nonce proof in
  if negb (can_release mint recipient amount) then Err TransferFailed
  else
    let? rest := ok_or (checked_sub (default 0 (vault_tokens s !! mint)) amount) TransferFailed in
    let rest := if decide (recipient = vault_key) then rest + delivers mint amount else rest in
    Ok (record_claim s recipient amount nonce now (vault_lamports s) (<[mint := rest]> (vault_tokens s))).

(** A transfer of the vault to itself changes nothing. *)
Definition claim_withdrawal (s : L1State) (recipient : Pubkey) (now batch_no amount nonce : Z)
    (proof : SmtProof) : outcome SettlementError L1State :=
  let? _ := check_claim s recipient NATIVE_ASSET_ID batch_no amount nonce proof in
  let? rest := ok_or (checked_sub (vault_lamports s) amount) TransferFailed in
  let rest := if decide (recipient = vault_key) then vault_lamports s else rest in
  if negb (may_leave rest) then Err TransferFailed
  else Ok (record_claim s recipient amount nonce now rest (vault_tokens s)).

(** ** The data-availability log *)

Definition MAX_CHUNK_BYTES : Z := 900.

Inductive DaError := EmptyChunk | ChunkTooLarge | IndexOutOfRange.

Record ChunkPosted := {
  ck_batch_no : Z;
  ck_index : Z;
  ck_count : Z;
  ck_len : Z;
}.

Definition post_chunk (batch_no chunk_index chunk_count : Z) (d : bytes) : outcome DaError ChunkPosted :=
  if decide (d = []) then Err EmptyChunk
  else if decide (MAX_CHUNK_BYTES < Z.of_nat (length d)) then Err ChunkTooLarge
  else if decide (chunk_count ≤ chunk_index) then Err IndexOutOfRange
  else Ok {| ck_batch_no := batch_no; ck_index := chunk_index; ck_count := chunk_count;
             ck_len := Z.of_nat (length d) mod 2 ^ 32 |}.

(** ** Histories *)

(** A payout made by a claim: native lamports, or tokens of a mint. *)
Record Payout := {
  po_recipient : Pubkey;
  po_nonce : Z;
  po_asset : Pubkey;
  po_amount : Z;
  po_batch : Z;
  po_proof : SmtProof;
  po_native : bool;
}.

Definition po_key (p : Payout) : Pubkey * Z := (po_recipient p, po_nonce p).

(** The types of a claim's arguments. *)
Definition payout_wf (p : Payout) : Prop :=
  length (po_recipient p) = 32%nat ∧ length (po_asset p) = 32%nat ∧ u64 (po_amount p) ∧ u64 (po_nonce p)
  ∧ proof_wf (po_proof p) ∧ (po_native p = true → po_asset p = NATIVE_ASSET_ID).

(** Any sequence of instructions, by anyone, with the payouts they made; the
    vault may also be sent lamports and tokens directly. *)
Inductive l1_reach : L1State → list Payout → Prop :=
| reach_start v toks :
    0 ≤ v → map_Forall (λ _ t, 0 ≤ t) toks →
    l1_reach {| l1_config := None; batches := ∅; claims := ∅; vault_lamports := v;
                vault_tokens := toks; l1_events := [] |} []
| reach_init s ps authority b vb s' :
    l1_reach s ps → initialize s authority b vb = Ok s' → l1_reach s' ps
| reach_batch s ps authority now no first last sr wr da cc s' :
    l1_reach s ps → post_batch s authority now no first last sr wr da cc = Ok s' → l1_reach s' ps
| reach_deposit_sol s ps depositor amount r s' :
    l1_reach s ps → deposit_sol s depositor amount r = Ok s' → l1_reach s' ps
| reach_deposit_spl s ps depositor mint amount r s' :
    l1_reach s ps → deposit_spl s depositor mint amount r = Ok s' → l1_reach s' ps
| reach_claim s ps p now s' :
    l1_reach s ps → payout_wf p → po_native p = true →
    claim_withdrawal s (po_recipient p) now (po_batch p) (po_amount p) (po_nonce p) (po_proof p) = Ok s' →
    l1_reach s' (ps ++ [p])
| reach_claim_spl s ps p now s' :
    l1_reach s ps → payout_wf p → po_native p = false →
    claim_withdrawal_spl s (po_recipient p) (po_asset p) now (po_batch p) (po_amount p) (po_nonce p)
      (po_proof p) = Ok s' →
    l1_reach s' (ps ++ [p])
| reach_gift s ps v mint t :
    l1_reach s ps → 0 ≤ v → 0 ≤ t →
    l1_reach {| l1_config := l1_config s; batches := batches s; claims := claims s;
                vault_lamports := vault_lamports s + v;
                vault_tokens := <[mint := default 0 (vault_tokens s !! mint) + t]> (vault_tokens s);
                l1_events := l1_events s |} ps.

Definition sum_z {A} (f : A → Z) (l : list A) : Z := foldr (λ x acc, f x + acc) 0 l.

Lemma sum_z_app {A} (f : A → Z) l l' : sum_z f (l ++ l') = sum_z f l + sum_z f l'.
Proof. unfold sum_z. induction l as [|x l IH]; cbn [app foldr]; lia. Qed.

(** What was deposited of an asset ([None] for SOL), by the events. *)
Definition event_deposit (asset : option Pubkey) (e : L1Event) : Z :=
  match e with
  | Deposited _ amount _ mint _ => if decide (mint = asset) then amount else 0
  | _ => 0
  end.

Definition deposited (asset : option Pubkey) (s : L1State) : Z := sum_z (event_deposit asset) (l1_events s).

Definition paid_native (p : Payout) : Z := if po_native p then po_amount p else 0.
Definition paid_mint (mint : Pubkey) (p : Payout) : Z :=
  if po_native p then 0 else if decide (po_asset p = mint) then po_amount p else 0.

(** The batch a payout was proved against, and the check it passed. *)
Definition proven (s : L1State) (p : Payout) : Prop :=
  0 < po_amount p ∧ payout_wf p ∧
  ∃ b, batches s !! po_batch p = Some b ∧
    l1_verify empties (b_withdrawals_root b) (l1_withdrawal_pubkey (po_recipient p) (po_nonce p))
      (l1_withdrawal_account_hash (po_recipient p) (po_asset p) (po_amount p) (po_nonce p)) (po_proof p) = true.

Record l1_inv (s : L1State) (ps : list Payout) : Prop := {
  li_claims : ∀ k, is_Some (claims s !! k) ↔ k ∈ po_key <$> ps;
  li_nodup : NoDup (po_key <$> ps);
  li_proven : Forall (proven s) ps;
  li_sol : deposited None s ≤ vault_lamports s + sum_z paid_native ps;
  li_vault : 0 ≤ vault_lamports s;
  li_tokens : ∀ m, deposited (Some m) s ≤ default 0 (vault_tokens s !! m) + sum_z (paid_mint m) ps;
  li_tokens_pos : ∀ m, 0 ≤ default 0 (vault_tokens s !! m);
  li_batches : ∀ k, is_Some (batches s !! k) ↔ 0 ≤ k < default 0 (batch_count <$> l1_config s);
  li_batch : map_Forall (λ k b, b_batch_no b = k ∧ b_first_slot b ≤ b_last_slot b) (batches s);
  li_count : 0 ≤ default 0 (batch_count <$> l1_config s);
  li_total : default 0 (total_deposited <$> l1_config s) = deposited None s;
}.

Lemma check_claim_Ok s recipient asset no amount nonce proof :
  check_claim s recipient asset no amount nonce proof = Ok () ↔
  is_Some (l1_config s) ∧ claims s !! (recipient, nonce) = None ∧ 0 < amount ∧
  ∃ b, batches s !! no = Some b ∧
    l1_verify empties (b_withdrawals_root b) (l1_withdrawal_pubkey recipient nonce)
      (l1_withdrawal_account_hash recipient asset amount nonce) proof = true.
Proof.
  unfold check_claim. destruct (l1_config s) as [cfg|]; cbn [ok_or obind]; [|naive_solver].
  destruct (batches s !! no) as [b|]; cbn [ok_or obind]; [|naive_solver].
  destruct (decide (is_Some (claims s !! (recipient, nonce)))) as [[c Hc]|Hc].
  { rewrite Hc. naive_solver. }
  apply eq_None_not_Some in Hc. destruct (decide (amount ≤ 0)) as [Hle|Hgt].
  { split; [done|]. intros (_ & _ & ? & _). lia. }
  destruct (l1_verify _ _ _ _ _) eqn:Hv.
  - split; [|done]. intros _. split_and!; [by eexists|done|lia|]. eauto.
  - split; [done|]. intros (_ & _ & _ & b' & [= <-] & Hv'). congruence.
Qed.

Lemma deposited_emit asset e s : deposited asset (emit e s) = deposited asset s + event_deposit asset e.
Proof. unfold deposited, emit. cbn [l1_events]. rewrite sum_z_app. cbn. lia. Qed.

(** A payout keeps being proven as batches are added. *)
Lemma proven_mono s s' ps :
  (∀ k b, batches s !! k = Some b → batches s' !! k = Some b) →
  Forall (proven s) ps → Forall (proven s') ps.
Proof.
  intros Hb Hp. eapply list.Forall_impl; [exact Hp|]. intros p (Ha & Hn & b & Hk & Hv).
  split_and!; [done|done|]. eauto.
Qed.

(** The bookkeeping of a claim, whatever it pays from. *)
Lemma claim_inv s ps p now lamports toks :
  l1_inv s ps → payout_wf p →
  check_claim s (po_recipient p) (po_asset p) (po_batch p) (po_amount p) (po_nonce p) (po_proof p) = Ok () →
  0 ≤ lamports → (∀ m, 0 ≤ default 0 (toks !! m)) →
  vault_lamports s ≤ lamports + paid_native p →
  (∀ m, default 0 (vault_tokens s !! m) ≤ default 0 (toks !! m) + paid_mint m p) →
  l1_inv (record_claim s (po_recipient p) (po_amount p) (po_nonce p) now lamports toks) (ps ++ [p]).
Proof.
  intros [H1 H2 H3 H4 H5 H6 H7 H8 H9 Hcnt H10] Hwf Hc Hl Ht Hsol Htok.
  apply check_claim_Ok in Hc as (_ & Hnew & Hpos & b & Hb & Hv).
  split; unfold record_claim; rewrite ?deposited_emit; cbn [emit claims batches vault_lamports vault_tokens l1_config event_deposit].
  - intros k. rewrite fmap_app, elem_of_app, <- H1, lookup_insert_is_Some. cbn [fmap list_fmap].
    rewrite list_elem_of_singleton. change (po_recipient p, po_nonce p) with (po_key p).
    destruct (decide (po_key p = k)); naive_solver.
  - rewrite fmap_app. apply list.NoDup_app. split_and!; [done| |apply NoDup_singleton].
    intros k Hk Hk'. apply list_elem_of_singleton in Hk' as ->. apply H1 in Hk.
    unfold po_key in Hk. rewrite Hnew in Hk. by destruct Hk.
  - apply list.Forall_app. split.
    + eapply proven_mono; [|exact H3]. done.
    + apply Forall_singleton. split_and!; [done|done|]. exists b. done.
  - rewrite sum_z_app. unfold sum_z at 2. cbn [foldr]. unfold deposited in *. cbn [l1_events]. lia.
  - done.
  - intros m. specialize (H6 m). specialize (Htok m). rewrite deposited_emit, sum_z_app.
    unfold sum_z at 2. cbn [foldr event_deposit]. unfold deposited in *. cbn [l1_events]. lia.
  - done.
  - done.
  - done.
  - done.
  - rewrite H10. unfold deposited. cbn [l1_events]. lia.
Qed.

Lemma initialize_inv s ps authority b vb s' :
  l1_inv s ps → initialize s authority b vb = Ok s' → l1_inv s' ps.
Proof.
  intros [H1 H2 H3 H4 H5 H6 H7 H8 H9 Hcnt H10]. unfold initialize.
  destruct (l1_config s) as [c|] eqn:Hc; [done|]. intros [= <-]. by split.
Qed.

Lemma post_batch_inv s ps authority now no first last sr wr da cc s' :
  l1_inv s ps → post_batch s authority now no first last sr wr da cc = Ok s' → l1_inv s' ps.
Proof.
  intros [H1 H2 H3 H4 H5 H6 H7 H8 H9 Hcnt H10]. unfold post_batch.
  intros (cfg & Hcfg & H)%obind_Ok. apply ok_or_Ok in Hcfg.
  destruct (decide (is_Some (batches s !! no))) as [|Hno]; [done|].
  destruct (decide (authority ≠ _)); [done|]. destruct (decide (no ≠ _)) as [|Hseq%dec_stable]; [done|].
  destruct (decide (last < first)) as [|Hslots]; [done|].
  apply obind_Ok in H as (count & Hcount & H). apply ok_or_Ok in Hcount.
  apply checked_add_Some in Hcount as [-> Hov]. injection H as <-.
  rewrite Hcfg in H8, Hcnt, H10. cbn in H8, Hcnt, H10. apply eq_None_not_Some in Hno.
  split; rewrite ?deposited_emit; cbn [emit claims batches vault_lamports vault_tokens l1_config event_deposit]; try done.
  - eapply proven_mono; [|exact H3]. intros k b Hb. cbn [emit batches]. rewrite lookup_insert_ne; [done|congruence].
  - unfold deposited in *. cbn [l1_events]. lia.
  - intros m. rewrite deposited_emit. cbn [event_deposit]. specialize (H6 m). unfold deposited in *. cbn [l1_events]. lia.
  - intros k. cbn. rewrite lookup_insert_is_Some, H8. destruct (decide (no = k)) as [->|Hne].
    + split; [lia|naive_solver].
    + subst no. split; [intros [?|[_ ?]]; [done|lia]|]. intros Hk. right. split; [done|lia].
  - apply map_Forall_insert_2; [|done]. cbn. split; [done|lia].
  - cbn. lia.
  - cbn [fmap option_fmap option_map default from_option id total_deposited]. rewrite H10.
    unfold deposited. cbn [l1_events]. lia.
Qed.

Lemma deposit_sol_inv s ps depositor amount r s' :
  l1_inv s ps → deposit_sol s depositor amount r = Ok s' → l1_inv s' ps.
Proof.
  intros [H1 H2 H3 H4 H5 H6 H7 H8 H9 Hcnt H10]. unfold deposit_sol.
  intros (cfg & Hcfg & H)%obind_Ok. apply ok_or_Ok in Hcfg.
  destruct (decide (amount ≤ 0)) as [|Hpos]; [done|]. destruct (negb _); [done|].
  apply obind_Ok in H as (lam & Hlam & H). apply ok_or_Ok, checked_add_Some in Hlam as [-> _].
  apply obind_Ok in H as (tot & Htot & H). apply ok_or_Ok, checked_add_Some in Htot as [-> _].
  injection H as <-. rewrite Hcfg in H8, Hcnt, H10. cbn in H8, Hcnt, H10.
  assert (Hd : deposited None (emit (Deposited depositor amount r None 9) s) = deposited None s + amount).
  { rewrite deposited_emit. cbn [event_deposit]. by rewrite decide_True. }
  assert (Hd' : ∀ m, deposited (Some m) (emit (Deposited depositor amount r None 9) s) = deposited (Some m) s).
  { intros m. rewrite deposited_emit. cbn [event_deposit]. rewrite decide_False by done. lia. }
  unfold deposited in *. cbn [emit l1_events] in *.
  split; cbn [emit claims batches vault_lamports vault_tokens l1_config l1_events]; try done;
    unfold deposited; cbn [emit l1_events].
  - lia.
  - lia.
  - intros m. rewrite Hd'. apply H6.
  - cbn [fmap option_fmap option_map default from_option id total_deposited]. lia.
Qed.

Lemma deposit_spl_inv s ps depositor mint amount r s' :
  l1_inv s ps → deposit_spl s depositor mint amount r = Ok s' → l1_inv s' ps.
Proof.
  intros [H1 H2 H3 H4 H5 H6 H7 H8 H9 Hcnt H10]. unfold deposit_spl.
  intros (cfg & Hcfg & H)%obind_Ok. destruct (decide (amount ≤ 0)) as [|Hpos]; [done|].
  apply obind_Ok in H as (u & _ & H). destruct (negb _); [done|].
  apply obind_Ok in H as (after & Ha & H). apply ok_or_Ok, checked_add_Some in Ha as [-> _].
  apply obind_Ok in H as (rec & Hr & H). apply ok_or_Ok, checked_sub_Some in Hr as [-> _].
  destruct (decide (_ ≤ 0)) as [|Hrec]; [done|]. injection H as <-.
  set (before := default 0 (vault_tokens s !! mint)) in *.
  replace (before + delivers mint amount - before) with (delivers mint amount) in * by lia.
  set (ev := Deposited depositor (delivers mint amount) r (Some mint) (mint_decimals_of mint)).
  assert (Hd : deposited None (emit ev s) = deposited None s).
  { rewrite deposited_emit. cbn [event_deposit ev]. rewrite decide_False by done. lia. }
  assert (Hd' : ∀ m, deposited (Some m) (emit ev s)
                     = deposited (Some m) s + if decide (mint = m) then delivers mint amount else 0).
  { intros m. rewrite deposited_emit. cbn [event_deposit ev]. f_equal. repeat case_decide; congruence. }
  unfold deposited in *. cbn [emit l1_events] in *.
  split; cbn [emit claims batches vault_lamports vault_tokens l1_config l1_events]; try done;
    unfold deposited; cbn [emit l1_events].
  - lia.
  - intros m. rewrite Hd'. specialize (H6 m). destruct (decide (mint = m)) as [<-|Hne].
    + rewrite lookup_insert_eq. cbn [default from_option id]. fold before in H6. lia.
    + rewrite lookup_insert_ne by done. lia.
  - intros m. destruct (decide (mint = m)) as [<-|Hne].
    + rewrite lookup_insert_eq. cbn [default from_option id]. specialize (H7 mint). fold before in H7. lia.
    + rewrite lookup_insert_ne by done. apply H7.
  - congruence.
Qed.

Lemma l1_reach_inv s ps : l1_reach s ps → l1_inv s ps.
Proof.
  induction 1 as [v toks Hv Ht|s ps a b vb s' _ IH H|s ps a now no f l sr wr da cc s' _ IH H
    |s ps d am r s' _ IH H|s ps d m am r s' _ IH H|s ps p now s' _ IH Hp Hnat H
    |s ps p now s' _ IH Hp Hnat H|s ps v m t _ IH Hv Ht].
  - split; cbn; try done; try lia; try constructor.
    + rewrite lookup_empty. by intros [? ?].
    + intros Hk. by apply not_elem_of_nil in Hk.
    + unfold deposited. cbn. intros m. specialize (Ht m). destruct (toks !! m) as [t|]; cbn; [|lia].
      specialize (Ht t eq_refl). cbn in Ht. lia.
    + intros m. specialize (Ht m). destruct (toks !! m) as [t|]; cbn; [|lia]. by apply Ht.
    + rewrite lookup_empty. by intros [? ?].
    + lia.
  - by eapply initialize_inv.
  - by eapply post_batch_inv.
  - by eapply deposit_sol_inv.
  - by eapply deposit_spl_inv.
  - unfold claim_withdrawal in H. apply obind_Ok in H as ([] & Hc & H).
    apply obind_Ok in H as (rest & Hr & H). apply ok_or_Ok, checked_sub_Some in Hr as [-> Hle].
    destruct (negb _); [done|]. injection H as <-. pose proof (li_vault _ _ IH) as Hv0.
    pose proof (proj1 (check_claim_Ok _ _ _ _ _ _ _) Hc) as (_ & _ & Hpos & _).
    destruct Hp as (? & ? & ? & ? & ? & Has). rewrite <- (Has Hnat) in Hc.
    apply claim_inv; [done|by split_and!|done| |apply IH| |].
    + case_decide; lia.
    + unfold paid_native. rewrite Hnat. case_decide; lia.
    + intros m. unfold paid_mint. rewrite Hnat. lia.
  - unfold claim_withdrawal_spl in H. apply obind_Ok in H as ([] & Hc & H).
    destruct (negb _); [done|].
    apply obind_Ok in H as (rest & Hr & H). apply ok_or_Ok, checked_sub_Some in Hr as [-> Hle].
    injection H as <-. pose proof (proj1 (check_claim_Ok _ _ _ _ _ _ _) Hc) as (_ & _ & Hpos & _).
    pose proof (delivers_bound (po_asset p) (po_amount p) ltac:(lia)) as Hd.
    apply claim_inv; [done|done|done|apply IH| | |].
    + intros m'. destruct (decide (po_asset p = m')) as [<-|Hne].
      * rewrite lookup_insert_eq. cbn. case_decide; lia.
      * rewrite lookup_insert_ne by done. apply IH.
    + unfold paid_native. rewrite Hnat. lia.
    + intros m'. unfold paid_mint. rewrite Hnat. destruct (decide (po_asset p = m')) as [<-|Hne].
      * rewrite lookup_insert_eq. cbn. case_decide; lia.
      * rewrite lookup_insert_ne by done. lia.
  - destruct IH as [H1 H2 H3 H4 H5 H6 H7 H8 H9 Hcnt H10]. split; cbn [claims batches vault_lamports vault_tokens l1_config]; try done.
    + unfold deposited in *. cbn [l1_events]. lia.
    + lia.
    + intros m'. unfold deposited in *. cbn [l1_events]. specialize (H6 m'). destruct (decide (m = m')) as [<-|Hne].
      * rewrite lookup_insert_eq. cbn [default from_option id]. lia.
      * by rewrite lookup_insert_ne.
    + intros m'. specialize (H7 m'). destruct (decide (m = m')) as [<-|Hne].
      * rewrite lookup_insert_eq. cbn [default from_option id]. lia.
      * by rewrite lookup_insert_ne.
Qed.

(** A claim that passes the shared checks pays when the vault can. *)
Lemma claim_withdrawal_pays s recipient now no amount nonce proof :
  check_claim s recipient NATIVE_ASSET_ID no amount nonce proof = Ok () →
  amount ≤ vault_lamports s → recipient ≠ vault_key → may_leave (vault_lamports s - amount) = true →
  claim_withdrawal s recipient now no amount nonce proof
  = Ok (record_claim s recipient amount nonce now (vault_lamports s - amount) (vault_tokens s)).
Proof.
  intros Hc Hle Hne Hm. unfold claim_withdrawal. rewrite Hc. cbn [obind].
  rewrite (proj2 (checked_sub_Some _ _ _)) by done. cbn [ok_or obind].
  by rewrite decide_False, Hm by done.
Qed.

Lemma claim_withdrawal_spl_pays s recipient mint now no amount nonce proof :
  check_claim s recipient mint no amount nonce proof = Ok () →
  amount ≤ default 0 (vault_tokens s !! mint) → recipient ≠ vault_key →
  can_release mint recipient amount = true →
  claim_withdrawal_spl s recipient mint now no amount nonce proof
  = Ok (record_claim s recipient amount nonce now (vault_lamports s)
          (<[mint := default 0 (vault_tokens s !! mint) - amount]> (vault_tokens s))).
Proof.
  intros Hc Hle Hne Hm. unfold claim_withdrawal_spl. rewrite Hc. cbn [obind].
  rewrite Hm. cbn [negb]. rewrite (proj2 (checked_sub_Some _ _ _)) by done. cbn [ok_or obind].
  by rewrite decide_False by done.
Qed.

(** ** What the program guarantees *)

(** Over any history of instructions no withdrawal is paid twice (a payout
    per recipient and nonce), every payout carried a proof against the
    withdrawals root of a batch the sequencer posted, and the vault is never
    short: what it still holds, of SOL and of every mint, is at least what the
    deposit events announced less what the claims paid. *)
Theorem payouts_safe s ps :
  l1_reach s ps →
  NoDup (po_key <$> ps) ∧ Forall (proven s) ps
  ∧ (0 ≤ vault_lamports s ∧ deposited None s ≤ vault_lamports s + sum_z paid_native ps)
  ∧ (∀ m, 0 ≤ default 0 (vault_tokens s !! m)
          ∧ deposited (Some m) s ≤ default 0 (vault_tokens s !! m) + sum_z (paid_mint m) ps).
Proof.
  intros [_ H2 H3 H4 H5 H6 H7 _ _ _ _]%l1_reach_inv. split_and!; [done|done|done|done|].
  intros m. by split.
Qed.

(** The posted batches are exactly those numbered from 0 to the recorded
    count, each under its own number with an ordered slot range, and the config
    counts exactly the SOL announced by the deposit events. *)
Theorem batches_sequential s ps :
  l1_reach s ps →
  (∀ k, is_Some (batches s !! k) ↔ 0 ≤ k < default 0 (batch_count <$> l1_config s))
  ∧ map_Forall (λ k b, b_batch_no b = k ∧ b_first_slot b ≤ b_last_slot b) (batches s)
  ∧ default 0 (total_deposited <$> l1_config s) = deposited None s.
Proof. by intros [_ _ _ _ _ _ _ H8 H9 _ H10]%l1_reach_inv. Qed.

(** ** Payouts and the node's withdrawals *)

(** The messages hashed on the two sides of the bridge when a payout is compared
    with the withdrawals of a chain. *)
Definition claim_messages (ws : list WithdrawTx) (p : Payout) : list bytes :=
  withdrawal_input (po_recipient p) (po_asset p) (po_amount p) (po_nonce p)
  :: ((λ w, withdrawal_input (w_recipient w) (w_asset_id w) (w_amount w) (w_nonce w)) <$> ws)
  ++ withdraw_messages (leaf_of <$> ws) (l1_withdrawal_pubkey (po_recipient p) (po_nonce p))
       (l1_withdrawal_account_hash (po_recipient p) (po_asset p) (po_amount p) (po_nonce p)) (po_proof p).

(** A payout proved against the root of a list of withdrawals pays one of them. *)
Lemma payout_recorded s p b ws :
  empties = empty_hashes WITHDRAW_DEPTH → Forall withdraw_wf ws → proven s p →
  batches s !! po_batch p = Some b →
  b_withdrawals_root b = withdraw_root (withdraw_all (leaf_of <$> ws)) →
  (∃ w, w ∈ ws ∧ w_recipient w = po_recipient p ∧ w_asset_id w = po_asset p
        ∧ w_amount w = po_amount p ∧ w_nonce w = po_nonce p)
  ∨ collision_in (claim_messages ws p).
Proof.
  intros He Hws (Hpos & (Hr & Ha & Hm & Hn & Hp & _) & b' & Hb' & Hv) Hb Hroot.
  rewrite Hb in Hb'. apply Some_inj in Hb' as <-. rewrite Hroot, He in Hv.
  apply withdraw_proof_sound in Hv; [|apply blake3_length| |done].
  2:{ apply Forall_fmap, Forall_true. intros w. apply blake3_length. }
  destruct Hv as [Hin|Hc].
  - apply list_elem_of_fmap in Hin as (w & Hleaf & Hw). pose proof (f_equal snd Hleaf) as Hh.
    unfold leaf_of in Hh. cbn [snd] in Hh.
    rewrite list.Forall_forall in Hws. destruct (Hws w Hw) as (Hwr & Hwa & Hwm & Hwn).
    rewrite <- (proj1 (withdrawal_hashes_agree _ _ _ _)), !withdrawal_account_hash_eq in Hh.
    apply blake3_eq in Hh as [Hh|Hc].
    + left. exists w. apply withdrawal_input_inj in Hh as (-> & -> & -> & ->); [|done..]. done.
    + right. eapply collision_in_mono; [|exact Hc]. intros x. unfold claim_messages.
      rewrite !elem_of_cons, elem_of_nil, elem_of_app. intros [->|[->|[]]]; [by left|].
      right. left. apply list_elem_of_fmap. by exists w.
  - right. eapply collision_in_mono; [|exact Hc]. intros x Hx. unfold claim_messages.
    apply elem_of_cons. right. apply elem_of_app. by right.
Qed.

End Settlement.

(** ** Witnesses *)

Module Example.
#[local] Existing Instances Toy.blake3_toy.
#[local] Instance runtime_toy : L1Runtime.
Proof.
  refine {| vault_key := le_bytes 32 99; can_pay _ _ := true; may_leave _ := true;
            can_pay_tokens _ _ _ := true; can_release _ _ _ := true; mint_extensions _ := Some [TransferFeeConfig];
            mint_decimals_of _ := 6; delivers _ amount := amount |}.
  intros. lia.
Defined.

Definition pk (n : Z) : Pubkey := le_bytes 32 n.
Definition start : L1State :=
  {| l1_config := None; batches := ∅; claims := ∅; vault_lamports := 0; vault_tokens := ∅; l1_events := [] |}.

Definition tree : gmap NodeKey H256 :=
  withdraw_all [(l1_withdrawal_pubkey (pk 5) 3, l1_withdrawal_account_hash (pk 5) NATIVE_ASSET_ID 60 3)].
Definition empties : list H256 := empty_hashes WITHDRAW_DEPTH.
Definition paid : Payout :=
  {| po_recipient := pk 5; po_nonce := 3; po_asset := NATIVE_ASSET_ID; po_amount := 60; po_batch := 0;
     po_proof := withdraw_prove tree (l1_withdrawal_pubkey (pk 5) 3); po_native := true |}.

(** A config, a batch with one withdrawal and two deposits. *)
Definition history (root : H256) : outcome SettlementError L1State :=
  let? s := initialize start (pk 8) 255 254 in
  let? s := post_batch s (pk 8) 5 0 1 4 (pk 1) root (pk 3) 1 in
  let? s := deposit_sol s (pk 4) 700 (pk 5) in
  deposit_spl s (pk 4) (pk 6) 50 (pk 5).

Definition after_history (root : H256) : L1State :=
  {| l1_config := Some {| cfg_authority := pk 8; batch_count := 1; total_deposited := 700;
                          bump := 255; vault_bump := 254 |};
     batches := {[ 0 := {| b_batch_no := 0; b_first_slot := 1; b_last_slot := 4; b_state_root := pk 1;
                           b_withdrawals_root := root; b_da_hash := pk 3; b_chunk_count := 1;
                           posted_at := 5 |} ]};
     claims := ∅; vault_lamports := 700; vault_tokens := {[ pk 6 := 50 ]};
     l1_events := [BatchPosted 0 1 4 (pk 1) (pk 3); Deposited (pk 4) 700 (pk 5) None 9;
                   Deposited (pk 4) 50 (pk 5) (Some (pk 6)) 6] |}.

Lemma history_ok root : history root = Ok (after_history root).
Proof. vm_cast_no_check (@eq_refl (outcome SettlementError L1State) (Ok (after_history root))). Qed.

Lemma history_reachable root s : history root = Ok s → l1_reach empties s [].
Proof.
  unfold history. intros (s1 & H1 & H)%obind_Ok. apply obind_Ok in H as (s2 & H2 & H).
  apply obind_Ok in H as (s3 & H3 & H).
  eapply reach_deposit_spl; [|exact H]. eapply reach_deposit_sol; [|exact H3].
  eapply reach_batch; [|exact H2]. eapply reach_init; [|exact H1].
  apply (reach_start empties 0 ∅); [done|apply map_Forall_empty].
Qed.

(** ... and a claim of that withdrawal. *)
Lemma claimed : ∃ s, l1_reach empties s [paid].
Proof.
  pose proof (history_reachable _ _ (history_ok (withdraw_root tree))) as Hs.
  destruct (withdraw_prove_complete [] [] (l1_withdrawal_pubkey (pk 5) 3)
              (l1_withdrawal_account_hash (pk 5) NATIVE_ASSET_ID 60 3)) as [Hwf Hver].
  { intros w Hw. destruct (not_elem_of_nil _ Hw). }
  eexists. eapply (reach_claim empties _ [] paid 9); [exact Hs| |reflexivity|].
  - split; [reflexivity|]. split; [reflexivity|]. cbn [paid po_amount po_nonce po_proof].
    split; [unfold u64, u64_max; lia|]. split; [unfold u64, u64_max; lia|].
    split; [exact Hwf|]. intros _. reflexivity.
  - apply claim_withdrawal_pays; [| |discriminate|reflexivity].
    + apply check_claim_Ok. split; [by eexists|]. split; [apply lookup_empty|]. split; [reflexivity|].
      eexists. split; [apply lookup_insert_eq|]. exact Hver.
    + cbn [after_history vault_lamports]. discriminate.
Qed.

Lemma payouts_safe_witness :
  ∃ s, l1_reach empties s [paid] ∧ deposited None s ≤ vault_lamports s + sum_z paid_native [paid].
Proof.
  destruct claimed as (s & Hr). exists s. split; [exact Hr|].
  exact (proj2 (proj1 (proj2 (proj2 (payouts_safe empties s [paid] Hr))))).
Defined.

Lemma batches_sequential_witness :
  ∃ s, l1_reach empties s [paid] ∧ default 0 (total_deposited <$> l1_config s) = deposited None s.
Proof.
  destruct claimed as (s & Hr). exists s. split; [exact Hr|].
  exact (proj2 (proj2 (batches_sequential empties s [paid] Hr))).
Defined.
End Example.
