(* ===== verification/EndToEnd.v ===== *)
(** * The bridge end to end

    Joins the node of [chain/zul-node] and the settlement program of
    [programs/zul-settlement] through what passes between them: the withdrawals
    root the sequencer reads from the node's store and posts with a batch, and
    the proofs the node serves to claimants. *)

From S2P Require Import Prelude External Hash Paths Smt SmtFacts SmtProps Genesis Account Block Queue Store WrappedSpl Field PoolState PoolProcessor PoolService NodeBridge Executor NodeLedger Node NodeChain Settlement.

Section Bridge.
Context `{B3 : Blake3} `{ED : Ed25519} `{TX : SolanaTx} `{SA : SolanaAddresses} `{P : Poseidon}.
Context `{V : ProofVerifier} `{SVM : !Svm} `{IDS : SdkIds}.
Context `{!Bincode StoredAccount} `{!Bincode PoolState} `{!Bincode Block} `{!Bincode BlockHeader}.
Context `{!Bincode VersionedTransaction} `{!Bincode TxLocator} `{!Bincode ExecutedTransactionMeta}.
Context `{!Bincode (nat * list (Z * H256))} `{!Bincode PoolInstruction} `{!Bincode Clock}.
Context `{!Bincode Rent} `{!Bincode EpochSchedule} `{!Bincode (list RecentEntry)}.
Context `{RT : L1Runtime}.
Context (pool_error_text : PoolServiceError → bytes).
Context (signed_transfer : Keypair → Pubkey → Z → H256 → VersionedTransaction).
Context (g : GenesisConfig).
(** The table the program embeds is the one of its tree depth. *)
Context (empties : list H256) (empties_ok : empties = empty_hashes WITHDRAW_DEPTH).

(** A batch was posted with the withdrawals root a node's store published. *)
Definition posted_from (s : L1State) (no : Z) (n : Node) : Prop :=
  b_withdrawals_root <$> batches s !! no = Some (withdrawals_root (store n)).

(** L1 pays only what L2 burned: when the batch a payout was proved against
    was posted from a reachable node, that node's chain records a successful
    withdrawal to the same recipient, of the same asset and amount and with the
    same nonce, unless hashed messages collide. *)
Theorem payouts_backed_by_withdrawals n bs s ps p :
  node_reachable pool_error_text signed_transfer g n → stores_chain (store n) bs →
  l1_reach empties s ps → p ∈ ps → posted_from s (po_batch p) n →
  (∃ w, w ∈ successful_withdrawals (store n) bs ∧ w_recipient w = po_recipient p
        ∧ w_asset_id w = po_asset p ∧ w_amount w = po_amount p ∧ w_nonce w = po_nonce p)
  ∨ collision_in (claim_messages (successful_withdrawals (store n) bs) p).
Proof.
  intros Hn Hbs Hs Hp (b & Hb & Hroot)%fmap_Some.
  destruct (reachable_withdrawals _ _ _ n bs Hn Hbs) as (Htree & Hpub & Hwf).
  rewrite Hpub, Htree in Hroot.
  apply l1_reach_inv in Hs. pose proof (li_proven _ _ _ Hs) as Hall. rewrite list.Forall_forall in Hall.
  exact (payout_recorded empties s p b _ empties_ok Hwf (Hall p Hp) Hb (eq_sym Hroot)).
Qed.

Lemma served_proof_wf n bs recipient asset amount nonce root proof :
  node_reachable pool_error_text signed_transfer g n → stores_chain (store n) bs →
  compute_withdrawal_proof n recipient asset amount nonce = Ok (root, proof) → proof_wf proof.
Proof.
  intros Hn Hbs. destruct (reachable_withdrawals _ _ _ n bs Hn Hbs) as (Htree & _).
  unfold compute_withdrawal_proof. destruct (withdraw_verify _ _ _ _); [|discriminate].
  intros H. apply (f_equal (λ r, match r with Ok x => x.2 | _ => proof end)) in H. cbn [snd] in H.
  rewrite <- H, Htree. apply withdraw_prove_wf.
Qed.

(** The proof a reachable node serves for a withdrawal passes the program's
    checks against a batch posted from that node. *)
Lemma served_proof_accepted n s ps no ws1 w ws2 bs :
  node_reachable pool_error_text signed_transfer g n → stores_chain (store n) bs → l1_reach empties s ps →
  posted_from s no n → 0 < w_amount w → (w_recipient w, w_nonce w) ∉ po_key <$> ps →
  successful_withdrawals (store n) bs = ws1 ++ w :: ws2 →
  (∀ w', w' ∈ ws2 → prefix_bits WITHDRAW_DEPTH (key_path (leaf_of w').1)
                    ≠ prefix_bits WITHDRAW_DEPTH (key_path (leaf_of w).1)) →
  ∃ proof,
    compute_withdrawal_proof n (w_recipient w) (w_asset_id w) (w_amount w) (w_nonce w)
      = Ok (withdrawals_root (store n), proof)
    ∧ check_claim empties s (w_recipient w) (w_asset_id w) no (w_amount w) (w_nonce w) proof = Ok ().
Proof.
  intros Hn Hbs Hs (b & Hb & Hroot)%fmap_Some Hpos Hnew Hws Hpre.
  destruct (reachable_withdrawals _ _ _ n bs Hn Hbs) as (Htree & Hpub & _).
  rewrite Hws, fmap_app, fmap_cons in Htree.
  pose proof (withdraw_prove_complete (leaf_of <$> ws1) (leaf_of <$> ws2) (leaf_of w).1 (leaf_of w).2) as Hp.
  rewrite <- (surjective_pairing (leaf_of w)), <- Htree in Hp. destruct Hp as [_ Hv].
  { intros x (w' & -> & Hw')%list_elem_of_fmap. by apply Hpre. }
  exists (withdraw_prove (withdrawals n) (leaf_of w).1). split.
  - unfold compute_withdrawal_proof.
    change (withdrawal_pubkey (w_recipient w) (w_nonce w)) with (leaf_of w).1.
    change (withdrawal_account_hash (w_recipient w) (w_asset_id w) (w_amount w) (w_nonce w)) with (leaf_of w).2.
    unfold withdraw_verify. rewrite Hpub, Hv. exact eq_refl.
  - apply l1_reach_inv in Hs. apply check_claim_Ok. split_and!.
    + pose proof (proj1 (li_batches _ _ _ Hs no) (mk_is_Some _ _ Hb)) as H.
      destruct (l1_config s) as [c|]; [by eexists|]. cbn in H. lia.
    + apply eq_None_not_Some. intros Hc. by apply Hnew, (li_claims _ _ _ Hs).
    + exact Hpos.
    + exists b. split; [exact Hb|]. rewrite <- Hroot, Hpub, empties_ok. exact Hv.
Qed.

(** Every burned withdrawal can be claimed: for each withdrawal the chain of
    a reachable node records as successful (of a positive amount, and unless a
    later one took the same 32-bit position), the node serves a proof, and the
    claim on any settlement state where a batch was posted from that node, the
    withdrawal was not claimed yet and the vault can pay, succeeds and pays
    exactly the withdrawn amount. *)
Theorem withdrawal_claim_succeeds n bs ws1 w ws2 s ps no now :
  node_reachable pool_error_text signed_transfer g n → stores_chain (store n) bs →
  successful_withdrawals (store n) bs = ws1 ++ w :: ws2 →
  (∀ w', w' ∈ ws2 → prefix_bits WITHDRAW_DEPTH (key_path (leaf_of w').1)
                    ≠ prefix_bits WITHDRAW_DEPTH (key_path (leaf_of w).1)) →
  l1_reach empties s ps → posted_from s no n → 0 < w_amount w →
  (w_recipient w, w_nonce w) ∉ po_key <$> ps → w_recipient w ≠ vault_key →
  ∃ proof,
    compute_withdrawal_proof n (w_recipient w) (w_asset_id w) (w_amount w) (w_nonce w)
      = Ok (withdrawals_root (store n), proof)
    ∧ (w_asset_id w = NATIVE_ASSET_ID → w_amount w ≤ vault_lamports s →
       may_leave (vault_lamports s - w_amount w) = true →
       claim_withdrawal empties s (w_recipient w) now no (w_amount w) (w_nonce w) proof
       = Ok (record_claim s (w_recipient w) (w_amount w) (w_nonce w) now
               (vault_lamports s - w_amount w) (vault_tokens s)))
    ∧ (w_amount w ≤ default 0 (vault_tokens s !! w_asset_id w) →
       can_release (w_asset_id w) (w_recipient w) (w_amount w) = true →
       claim_withdrawal_spl empties s (w_recipient w) (w_asset_id w) now no (w_amount w) (w_nonce w) proof
       = Ok (record_claim s (w_recipient w) (w_amount w) (w_nonce w) now (vault_lamports s)
               (<[w_asset_id w := default 0 (vault_tokens s !! w_asset_id w) - w_amount w]> (vault_tokens s)))).
Proof.
  intros Hn Hbs Hws Hpre Hs Hpost Hpos Hnew Hne.
  destruct (served_proof_accepted n s ps no ws1 w ws2 bs) as (proof & Hproof & Hc); [done..|].
  exists proof. split; [exact Hproof|]. split.
  - intros Ha Hle Hm. rewrite Ha in Hc. by apply claim_withdrawal_pays.
  - intros Hle Hm. by apply claim_withdrawal_spl_pays.
Qed.

End Bridge.

(** ** Witnesses: the withdrawal of [NodeChain.Example], claimed on L1 *)

Module Example.
Import NodeChain.Example.
#[local] Existing Instances Toy.blake3_toy Toy.ed25519_toy Toy.solana_toy poseidon_toy.
#[local] Existing Instances ExecToy.ids_toy ExecToy.svm_toy WrappedSpl.Example.addresses_toy.
#[local] Existing Instances StoreToy.account_codec StoreToy.block_codec StoreToy.locator_codec.
#[local] Existing Instances StoreToy.meta_codec StoreToy.queue_codec.
#[local] Existing Instances accept_all header_codec tx_codec state_codec instruction_codec clock_codec.
#[local] Existing Instances rent_codec schedule_codec entries_codec Settlement.Example.runtime_toy.

Definition empties : list H256 := empty_hashes WITHDRAW_DEPTH.

(** A history in which the root of a node is posted and the vault funded. *)
Lemma posted n : ∃ s, l1_reach empties s [] ∧ posted_from s 0 n ∧ vault_lamports s = 700.
Proof.
  exists (Settlement.Example.after_history (withdrawals_root (store n))). split_and!.
  - exact (Settlement.Example.history_reachable _ _ (Settlement.Example.history_ok _)).
  - unfold posted_from, Settlement.Example.after_history. cbn [batches]. by rewrite lookup_singleton_eq.
  - done.
Qed.

Lemma no_later (w' : WithdrawTx) : w' ∈ [] →
  prefix_bits WITHDRAW_DEPTH (key_path (leaf_of w').1) ≠ prefix_bits WITHDRAW_DEPTH (key_path (leaf_of wd).1).
Proof. intros H. destruct (not_elem_of_nil _ H). Qed.

Lemma withdrawal_claim_succeeds_witness :
  ∃ n s proof, posted_from s 0 n
    ∧ compute_withdrawal_proof n (pk 5) NATIVE_ASSET_ID 60 3 = Ok (withdrawals_root (store n), proof)
    ∧ claim_withdrawal empties s (pk 5) 9 0 60 3 proof
      = Ok (record_claim s (pk 5) 60 3 9 640 (vault_tokens s)).
Proof.
  destruct burned as (_ & n & bs & ws & _ & Hr & Hbs & Hw & _). destruct (posted n) as (s & Hs & Hp & Hv).
  assert (Hvk : w_recipient wd ≠ vault_key) by (vm_compute; discriminate).
  assert (Hnew : (w_recipient wd, w_nonce wd) ∉ po_key <$> []) by apply not_elem_of_nil.
  destruct (withdrawal_claim_succeeds error_text transfer_toy g empties eq_refl n bs ws wd [] s [] 0 9
              Hr Hbs Hw no_later Hs Hp eq_refl Hnew Hvk) as (proof & Hproof & Hc & _).
  exists n, s, proof. split; [exact Hp|]. split; [exact Hproof|]. rewrite Hv in Hc.
  apply Hc; [exact eq_refl|discriminate|exact eq_refl].
Defined.

(** The state after that claim. *)
Lemma claim_made : ∃ n bs ws s p, node_reachable error_text transfer_toy g n ∧ stores_chain (store n) bs
  ∧ successful_withdrawals (store n) bs = ws ++ [wd] ∧ l1_reach empties s [p] ∧ posted_from s (po_batch p) n.
Proof.
  destruct burned as (_ & n & bs & ws & _ & Hr & Hbs & Hw & _). destruct (posted n) as (s & Hs & Hp & Hv).
  assert (Hnew : (w_recipient wd, w_nonce wd) ∉ po_key <$> []) by apply not_elem_of_nil.
  destruct (served_proof_accepted error_text transfer_toy g empties eq_refl n s [] 0 ws wd [] bs
              Hr Hbs Hs Hp eq_refl Hnew Hw no_later) as (proof & Hproof & Hc).
  exists n, bs, ws. eexists.
  exists {| po_recipient := pk 5; po_nonce := 3; po_asset := NATIVE_ASSET_ID; po_amount := 60;
            po_batch := 0; po_proof := proof; po_native := true |}.
  split; [exact Hr|]. split; [exact Hbs|]. split; [exact Hw|]. split.
  - eapply (reach_claim empties s [] _ 9); [exact Hs| |reflexivity|].
    2:{ cbn [po_recipient po_batch po_amount po_nonce po_proof].
        apply claim_withdrawal_pays; [exact Hc|rewrite Hv; discriminate|vm_compute; discriminate|reflexivity]. }
    split; [reflexivity|]. split; [reflexivity|]. cbn [po_amount po_nonce po_proof].
    split; [unfold u64, u64_max; lia|]. split; [unfold u64, u64_max; lia|].
    split; [|intros _; reflexivity].
    apply (served_proof_wf error_text transfer_toy g n bs _ _ _ _ _ _ Hr Hbs Hproof).
  - exact Hp.
Qed.

Lemma payouts_backed_by_withdrawals_witness :
  ∃ n bs p ws, successful_withdrawals (store n) bs = ws ++ [wd]
  ∧ ((∃ w, w ∈ successful_withdrawals (store n) bs ∧ w_recipient w = po_recipient p
        ∧ w_asset_id w = po_asset p ∧ w_amount w = po_amount p ∧ w_nonce w = po_nonce p)
     ∨ collision_in (claim_messages (successful_withdrawals (store n) bs) p)).
Proof.
  destruct claim_made as (n & bs & ws & s & p & Hr & Hbs & Hw & Hs & Hp). exists n, bs, p, ws. split; [exact Hw|].
  assert (Hin : p ∈ [p]) by (by apply list_elem_of_singleton).
  exact (payouts_backed_by_withdrawals error_text transfer_toy g empties eq_refl n bs s [p] p Hr Hbs Hs Hin Hp).
Defined.

End Example.
