(* ===== verification/Recover.v ===== *)
(** * Batch payloads, data-availability chunks and recovery checks

    Models [chain/zul-bridge/src/client.rs] (records), the payload and chunk
    functions of [batch.rs], and [recover.rs]. zstd is an interface. *)

From S2P Require Import Prelude External Hash Account Block.

Record BatchRecord := {
  r_batch_no : Z;
  r_first_slot : Z;
  r_last_slot : Z;
  r_state_root : H256;
  r_withdrawals_root : H256;
  r_da_hash : H256;
  r_chunk_count : Z;
}.

(** The types of a record's fields. *)
Definition record_typed (r : BatchRecord) : Prop :=
  u64 (r_batch_no r) ∧ u64 (r_first_slot r) ∧ u64 (r_last_slot r) ∧ length (r_state_root r) = 32%nat
  ∧ length (r_withdrawals_root r) = 32%nat ∧ length (r_da_hash r) = 32%nat ∧ u32 (r_chunk_count r).

(** The types of a chunk's arguments. *)
Definition chunk_typed (no i n : Z) (d : bytes) : Prop := u64 no ∧ u32 i ∧ u32 n ∧ u32 (Z.of_nat (length d)).

Inductive L1Error := Rpc (msg : string) | TransactionFailed (msg : string).

(** zstd: what is encoded decodes to itself. *)
Class Zstd := {
  encode_all : bytes → bytes;
  decode_all : bytes → option bytes;
  decode_encode : ∀ raw, decode_all (encode_all raw) = Some raw;
}.

Definition DA_CHUNK_BYTES : nat := 800.
Definition DA_DOMAIN : bytes := bstr "PL2:da:batch:v1".

(** [slice::chunks]: pieces of [n] bytes, the last one shorter. *)
Fixpoint chunks_of (fuel n : nat) (l : bytes) : list bytes :=
  match fuel, l with
  | _, [] => []
  | O, _ => []
  | S fuel, _ => take n l :: chunks_of fuel n (drop n l)
  end.

Definition chunk_payload (compressed : bytes) : list bytes :=
  chunks_of (length compressed) DA_CHUNK_BYTES compressed.

Section Payload.
Context `{B3 : Blake3} `{TX : SolanaTx}.

Record BatchPayload := {
  bp_batch_no : Z;
  bp_first_slot : Z;
  bp_last_slot : Z;
  bp_blocks : list Block;
}.

Context `{Z0 : Zstd} `{!Bincode BatchPayload}.

Definition compress (p : BatchPayload) : bytes := encode_all (serialize p).

Definition decompress (bs : bytes) : option BatchPayload := decode_all bs ≫= deserialize.

Definition da_hash (compressed : bytes) : H256 := blake3_32 DA_DOMAIN compressed.

(** ** Recovery checks *)

Record RecoveredBatch := {
  rb_record : BatchRecord;
  rb_payload : BatchPayload;
}.

Record RecoverySummary := {
  s_batches : Z;
  s_blocks : Z;
  s_transactions : Z;
  s_first_slot : Z;
  s_last_slot : Z;
  final_state_root : H256;
}.

Inductive RecoverError :=
| Empty
| SequenceGap (expected got : Z)
| NonContiguous (batch first prev : Z)
| OutOfRange (batch slot : Z)
| EmptyPayload (batch : Z).

(** The variables of the loop. *)
Record Scan := {
  sc_index : Z;
  sc_blocks : Z;
  sc_transactions : Z;
  prev_last_slot : option Z;
  sc_first_slot : Z;
  sc_last_slot : Z;
  sc_state_root : H256;
}.

Definition out_of_range (r : BatchRecord) (b : Block) : bool :=
  bool_decide (slot (header b) < r_first_slot r ∨ r_last_slot r < slot (header b)).

Definition scan_batch (s : Scan) (rb : RecoveredBatch) : outcome RecoverError Scan :=
  let r := rb_record rb in
  let blocks := bp_blocks (rb_payload rb) in
  if decide (r_batch_no r ≠ sc_index s) then Err (SequenceGap (sc_index s) (r_batch_no r))
  else
    let? first :=
      match prev_last_slot s with
      | Some prev => if decide (r_first_slot r ≤ prev)
                     then Err (NonContiguous (r_batch_no r) (r_first_slot r) prev)
                     else Ok (sc_first_slot s)
      | None => Ok (r_first_slot r)
      end in
    if decide (blocks = []) then Err (EmptyPayload (r_batch_no r))
    else
      match head (filter (λ b, out_of_range r b = true) blocks) with
      | Some b => Err (OutOfRange (r_batch_no r) (slot (header b)))
      | None =>
          Ok {| sc_index := sc_index s + 1;
                sc_blocks := wadd (sc_blocks s) (Z.of_nat (length blocks));
                sc_transactions :=
                  wadd (sc_transactions s)
                    (foldr (λ b n, wadd (Z.of_nat (length (transactions b))) n) 0 blocks);
                prev_last_slot := Some (r_last_slot r); sc_first_slot := first;
                sc_last_slot := r_last_slot r; sc_state_root := r_state_root r |}
      end.

Definition scan_start : Scan :=
  {| sc_index := 0; sc_blocks := 0; sc_transactions := 0; prev_last_slot := None;
     sc_first_slot := 0; sc_last_slot := 0; sc_state_root := ZERO_HASH |}.

Definition verify (batches : list RecoveredBatch) : outcome RecoverError RecoverySummary :=
  if decide (batches = []) then Err Empty
  else
    let? s := ofold scan_batch scan_start batches in
    Ok {| s_batches := Z.of_nat (length batches); s_blocks := sc_blocks s;
          s_transactions := sc_transactions s; s_first_slot := sc_first_slot s;
          s_last_slot := sc_last_slot s; final_state_root := sc_state_root s |}.

(** ** Facts *)

Lemma decompress_compress p : decompress (compress p) = Some p.
Proof. unfold decompress, compress. rewrite decode_encode. cbn. apply deserialize_serialize. Qed.

End Payload.

Lemma chunks_of_concat n fuel : ∀ l,
  (0 < n)%nat → (length l ≤ fuel)%nat → concat (chunks_of fuel n l) = l.
Proof.
  induction fuel as [|fuel IH]; intros [|x l] Hn Hl; [done|cbn in Hl; lia|done|].
  cbn [chunks_of concat]. rewrite IH; [apply take_drop|done|].
  rewrite length_drop. cbn [length] in *. lia.
Qed.

Lemma chunks_of_size n fuel : ∀ l,
  (0 < n)%nat → Forall (λ c, c ≠ [] ∧ (length c ≤ n)%nat) (chunks_of fuel n l).
Proof.
  induction fuel as [|fuel IH]; intros [|x l] Hn; cbn [chunks_of]; try constructor; [|by apply IH].
  split; [by destruct n; [lia|]|]. rewrite length_take. lia.
Qed.

Lemma chunk_payload_concat c : concat (chunk_payload c) = c.
Proof. apply chunks_of_concat; [unfold DA_CHUNK_BYTES; lia|done]. Qed.
