(* ===== verification/Batcher.v ===== *)
(** * The settlement batcher and its driver

    Models the batcher of [chain/zul-bridge/src/batch.rs] over the [L1Client]
    trait of [client.rs], and one pass of the driver loop of
    [chain/zul-node/src/l1.rs]. Posting to L1 can fail in either way: nothing
    was recorded, or it was but the confirmation did not arrive. *)

From S2P Require Import Prelude External Hash Account Sorting Block Queue Store StoreProps NodeBridge NodeLedger NodeChain Recover.

(** [trait L1Client], with the two inherent methods of the real client the
    driver uses; [C] is the client together with the L1 it talks to. *)
Class L1Client `{SolanaTx} (C : Type) := {
  post_da_chunk : C → Z → Z → Z → bytes → C * outcome L1Error bytes;
  post_batch_record : C → BatchRecord → C * outcome L1Error bytes;
  latest_batch_no : C → outcome L1Error (option Z);
  fetch_deposits : C → option bytes → outcome L1Error (list DepositEvent);
  ensure_initialized : C → C * outcome L1Error ();
  resume_cursor_slot : C → outcome L1Error Z;
  authority_balance : C → outcome L1Error Z;
}.

(** What the batcher relies on: the chunks and records L1 holds, and how an
    operation may change them. A post that returns an error may have been
    recorded or not; a record is only ever recorded under the next number. *)
Class L1ClientLaws `{TX : SolanaTx} (C : Type) `{!L1Client C} := {
  good : C → Prop;
  chunks_on : C → list (Z * Z * bytes);
  records_on : C → list BatchRecord;
  post_chunk_law c no i n d c' r :
    good c → chunk_typed no i n d → post_da_chunk c no i n d = (c', r) →
    good c' ∧ r ≠ Panic ∧ records_on c' = records_on c
    ∧ (chunks_on c' = chunks_on c ++ [(no, i, d)] ∨ (chunks_on c' = chunks_on c ∧ is_ok r = false));
  post_record_law c rec c' r :
    good c → record_typed rec → post_batch_record c rec = (c', r) →
    good c' ∧ r ≠ Panic ∧ chunks_on c' = chunks_on c
    ∧ ((r_batch_no rec = Z.of_nat (length (records_on c)) ∧ records_on c' = records_on c ++ [rec])
       ∨ (records_on c' = records_on c ∧ is_ok r = false));
  init_law c c' r :
    good c → ensure_initialized c = (c', r) →
    good c' ∧ r ≠ Panic ∧ records_on c' = records_on c ∧ chunks_on c' = chunks_on c;
  latest_law c o :
    good c → latest_batch_no c = Ok o →
    o = if decide (records_on c = []) then None else Some (Z.of_nat (length (records_on c)) - 1);
  resume_law c s :
    good c → resume_cursor_slot c = Ok s →
    s = match list.last (records_on c) with None => 1 | Some r => wadd (r_last_slot r) 1 end;
}.

Section Batcher.
Context `{B3 : Blake3} `{TX : SolanaTx} `{Z0 : Zstd} `{!Bincode BatchPayload}.
Context `{!Bincode Block}.
Context {C : Type} `{L1 : !L1Client C}.

Inductive BatchError := BatchStore (e : StoreError) | BatchL1 (e : L1Error) | Corrupt.

Record Batcher := {
  client : C;
  cursor_slot : Z;
  next_batch_no : Z;
}.

Definition new_batcher (c : C) (cursor : Z) : outcome BatchError Batcher :=
  let? latest := map_err BatchL1 (latest_batch_no c) in
  Ok {| client := c; cursor_slot := cursor; next_batch_no := default 0 ((λ n, wadd n 1) <$> latest) |}.

(** The non-empty blocks at the slots, and the state root of the last block. *)
Definition collect_block (st : Store) (acc : list Block * option H256) (sl : Z)
    : outcome StoreError (list Block * option H256) :=
  let? b := get_block st sl in
  match b with
  | Some b => Ok (if decide (0 < transaction_count (header b)) then acc.1 ++ [b] else acc.1,
                  Some (state_root (header b)))
  | None => Ok acc
  end.

Definition collect_blocks (st : Store) (slots : list Z) : outcome StoreError (list Block * option H256) :=
  ofold (collect_block st) ([], None) slots.

Fixpoint post_chunks (c : C) (no index count : Z) (cs : list bytes) : C * outcome L1Error () :=
  match cs with
  | [] => (c, Ok ())
  | ch :: cs =>
      match post_da_chunk c no (index mod 2 ^ 32) count ch with
      | (c, Ok _) => post_chunks c no (index + 1) count cs
      | (c, Err e) => (c, Err e)
      | (c, Panic) => (c, Panic)
      end
  end.

Definition with_client (b : Batcher) (c : C) : Batcher :=
  {| client := c; cursor_slot := cursor_slot b; next_batch_no := next_batch_no b |}.

Definition skip_to (b : Batcher) (sl : Z) : Batcher :=
  {| client := client b; cursor_slot := sl; next_batch_no := next_batch_no b |}.

(** Post a payload's chunks and then its record. *)
Definition post_payload (b : Batcher) (st : Store) (payload : BatchPayload) (root : H256)
    : Batcher * outcome BatchError (option BatchRecord) :=
  let compressed := compress payload in
  let cs := chunk_payload compressed in
  let chunk_count := Z.of_nat (length cs) mod 2 ^ 32 in
  match post_chunks (client b) (bp_batch_no payload) 0 chunk_count cs with
  | (c, Err e) => (with_client b c, Err (BatchL1 e))
  | (c, Panic) => (with_client b c, Panic)
  | (c, Ok _) =>
      let record := {| r_batch_no := bp_batch_no payload; r_first_slot := bp_first_slot payload;
                       r_last_slot := bp_last_slot payload; r_state_root := root;
                       r_withdrawals_root := withdrawals_root st; r_da_hash := da_hash compressed;
                       r_chunk_count := chunk_count |} in
      match post_batch_record c record with
      | (c, Err e) => (with_client b c, Err (BatchL1 e))
      | (c, Panic) => (with_client b c, Panic)
      | (c, Ok _) =>
          ({| client := c; cursor_slot := wadd (bp_last_slot payload) 1;
              next_batch_no := wadd (next_batch_no b) 1 |}, Ok (Some record))
      end
  end.

Definition run_once (b : Batcher) (st : Store) (tip_slot : Z) : Batcher * outcome BatchError (option BatchRecord) :=
  if decide (tip_slot < cursor_slot b) then (b, Ok None)
  else
    match collect_blocks st (block_slots_in_range st (cursor_slot b) tip_slot 10000) with
    | Err e => (b, Err (BatchStore e))
    | Panic => (b, Panic)
    | Ok (blocks, last_state_root) =>
        match last_state_root with
        | None => (skip_to b (wadd tip_slot 1), Ok None)
        | Some root =>
            if decide (blocks = []) then (skip_to b (wadd tip_slot 1), Ok None)
            else post_payload b st {| bp_batch_no := next_batch_no b; bp_first_slot := cursor_slot b;
                                      bp_last_slot := tip_slot; bp_blocks := blocks |} root
        end
    end.

(** ** The driver *)

Definition MIN_AUTHORITY_LAMPORTS : Z := 20000000.

Definition build_batcher (c : C) : C * outcome BatchError Batcher :=
  match ensure_initialized c with
  | (c, Err e) => (c, Err (BatchL1 e))
  | (c, Panic) => (c, Panic)
  | (c, Ok _) =>
      (c, let? cursor := map_err BatchL1 (resume_cursor_slot c) in new_batcher c cursor)
  end.

(** One pass of the loop. After a failed run the batcher is derived again from
    L1, and kept when that fails too. *)
Definition sweep (batch_interval_slots : Z) (b : Batcher) (st : Store) : Batcher :=
  let interval := Z.max batch_interval_slots 1 in
  let latest := default 0 (latest_slot st) in
  let cursor := cursor_slot b in
  if decide (cursor ≤ latest) then
    let paused := match authority_balance (client b) with
                  | Ok balance => bool_decide (balance < MIN_AUTHORITY_LAMPORTS)
                  | _ => false
                  end in
    if (paused : bool) then b
    else
      let tip := Z.min latest ((wadd cursor interval - 1) mod 2 ^ 64) in
      match run_once b st tip with
      | (b, Ok _) | (b, Panic) => b
      | (b, Err _) => match build_batcher (client b) with
                  | (_, Ok fresh) => fresh
                  | (c, _) => with_client b c
                  end
      end
  else b.

(** ** What is settled *)

Context `{LAWS : !L1ClientLaws C}.

Definition nonempty (b : Block) : bool := bool_decide (0 < transaction_count (header b)).

(** The blocks of a chain at slots [first] to [last]. *)
Definition slots_of (bs : list Block) (first last : Z) : list Block :=
  slice (Z.to_nat (first - 1)) (Z.to_nat last) bs.

Definition range_blocks (bs : list Block) (first last : Z) : list Block :=
  filter (λ b, nonempty b = true) (slots_of bs first last).

(** A record published for a range of a chain, with the payload it commits to:
    all the range's non-empty blocks, every chunk on L1. *)
Definition settles (c : C) (bs : list Block) (rec : BatchRecord) (p : BatchPayload) : Prop :=
  1 ≤ r_first_slot rec ≤ r_last_slot rec ∧ r_last_slot rec ≤ Z.of_nat (length bs)
  ∧ bp_batch_no p = r_batch_no rec ∧ bp_first_slot p = r_first_slot rec ∧ bp_last_slot p = r_last_slot rec
  ∧ bp_blocks p = range_blocks bs (r_first_slot rec) (r_last_slot rec) ∧ bp_blocks p ≠ []
  ∧ r_da_hash rec = da_hash (compress p)
  ∧ ∀ i ch, chunk_payload (compress p) !! i = Some ch →
      (r_batch_no rec, Z.of_nat i mod 2 ^ 32, ch) ∈ chunks_on c.

(** Numbers without gaps, ranges in increasing order. *)
Fixpoint ordered (k lo : Z) (recs : list BatchRecord) : Prop :=
  match recs with
  | [] => True
  | r :: recs => r_batch_no r = k ∧ lo < r_first_slot r ∧ ordered (k + 1) (r_last_slot r) recs
  end.

Definition last_end (recs : list BatchRecord) : Z := default 0 (r_last_slot <$> list.last recs).

Definition covered (recs : list BatchRecord) (s : Z) : Prop :=
  ∃ r, r ∈ recs ∧ r_first_slot r ≤ s ≤ r_last_slot r.

(** Every non-empty block below the slot belongs to a settled range. *)
Definition covered_below (recs : list BatchRecord) (bs : list Block) (cursor : Z) : Prop :=
  ∀ s b, s < cursor → blocks_at bs s = Some b → nonempty b = true → covered recs s.

Record batcher_inv (b : Batcher) (bs : list Block) : Prop := {
  bi_good : good (client b);
  bi_settles : ∃ ps, Forall2 (settles (client b) bs) (records_on (client b)) ps;
  bi_ordered : ordered 0 0 (records_on (client b));
  bi_covered : covered_below (records_on (client b)) bs (last_end (records_on (client b)) + 1);
  bi_cursor : 1 ≤ cursor_slot b ≤ Z.of_nat (length bs) + 1;
  bi_next : 0 ≤ next_batch_no b ≤ Z.of_nat (length (records_on (client b)));
  bi_count : Z.of_nat (length (records_on (client b))) ≤ last_end (records_on (client b))
             ≤ Z.of_nat (length bs);
  bi_fresh : next_batch_no b = Z.of_nat (length (records_on (client b))) →
    last_end (records_on (client b)) < cursor_slot b;
  bi_passed : covered_below (records_on (client b)) bs (cursor_slot b);
}.

(** *** Reading the chain *)

Lemma collect_chain st l : ∀ pre post acc r,
  holds st (pre ++ l ++ post) →
  ofold (collect_block st) (acc, r) (seqZ (Z.of_nat (length pre) + 1) (Z.of_nat (length l)))
  = Ok (acc ++ filter (λ b, nonempty b = true) l,
        match list.last l with Some b => Some (state_root (header b)) | None => r end).
Proof.
  induction l as [|b l IH]; intros pre post acc r H; cbn [length].
  { rewrite seqZ_nil by lia. cbn. by rewrite app_nil_r. }
  rewrite seqZ_cons by lia. cbn [ofold]. unfold collect_block at 1.
  rewrite (holds_get_block _ _ _ H). unfold blocks_at. rewrite decide_True by lia.
  replace (Z.to_nat (Z.of_nat (length pre) + 1 - 1)) with (length pre) by lia.
  cbn [app]. rewrite list_lookup_middle by done. cbn [obind fst].
  replace (Z.succ (Z.of_nat (length pre) + 1)) with (Z.of_nat (length (pre ++ [b])) + 1)
    by (rewrite length_app; cbn; lia).
  replace (Z.pred (Z.of_nat (S (length l)))) with (Z.of_nat (length l)) by lia.
  rewrite (IH (pre ++ [b]) post) by (by rewrite <- app_assoc). f_equal. f_equal.
  - rewrite filter_cons. unfold nonempty at 2.
    destruct (decide (0 < transaction_count (header b))) as [Hp|Hp].
    + rewrite decide_True by (by apply bool_decide_eq_true). by rewrite <- app_assoc.
    + rewrite decide_False; [done|]. by intros ?%bool_decide_eq_true.
  - rewrite last_cons. by destruct (list.last l).
Qed.

Lemma collect_range st bs first last :
  holds st bs → 1 ≤ first ≤ last → last ≤ Z.of_nat (length bs) → last - first < 10000 →
  ∃ b, b ∈ bs ∧ collect_blocks st (block_slots_in_range st first last 10000)
                = Ok (range_blocks bs first last, Some (state_root (header b))).
Proof.
  intros H Hf Hl Hlim. rewrite (slots_in_range st bs) by (done || lia).
  set (l := slots_of bs first last).
  assert (Hbs : bs = take (Z.to_nat (first - 1)) bs ++ l ++ drop (Z.to_nat last) bs).
  { unfold l, slots_of, slice. rewrite <- (take_drop (Z.to_nat (first - 1)) bs) at 1. f_equal.
    rewrite <- (take_drop (Z.to_nat last - Z.to_nat (first - 1)) (drop (Z.to_nat (first - 1)) bs)) at 1.
    rewrite drop_drop. do 2 f_equal. lia. }
  assert (Hlen : length l = Z.to_nat (last - first + 1)) by (unfold l, slots_of; rewrite length_slice; lia).
  rewrite Hbs in H. apply (collect_chain st l (take (Z.to_nat (first - 1)) bs) _ [] None) in H.
  rewrite length_take_le, Hlen in H by lia.
  replace (Z.of_nat (Z.to_nat (first - 1)) + 1) with first in H by lia.
  rewrite Z2Nat.id in H by lia. unfold collect_blocks. rewrite H.
  assert (Hne : l ≠ []) by (intros ->; cbn in Hlen; lia).
  destruct (list.last l) as [b|] eqn:Hlast; [|by apply last_None in Hlast]. exists b. split; [|done].
  apply last_Some in Hlast as [l' Hl']. rewrite Hbs, Hl'. set_solver.
Qed.

(** *** What posting leaves on L1 *)

Definition root_typed (b : Block) : Prop := length (state_root (header b)) = 32%nat.

Lemma withdrawals_root_length (st : Store) : length (withdrawals_root st) = 32%nat.
Proof.
  unfold withdrawals_root, read_meta_h256. destruct (read_meta st META_WITHDRAWALS_ROOT) as [v|]; [|done].
  cbn. by case_decide.
Qed.

Lemma chunk_payload_typed compressed : Forall (λ ch, u32 (Z.of_nat (length ch))) (chunk_payload compressed).
Proof.
  unfold chunk_payload. generalize (length compressed) as fuel. intros fuel. revert compressed.
  induction fuel as [|fuel IH]; intros [|x l]; try constructor; [|apply IH].
  rewrite length_take. unfold u32, u32_max, DA_CHUNK_BYTES. lia.
Qed.

Lemma post_chunks_law no n cs : ∀ c i c' r,
  good c → u64 no → u32 n → Forall (λ ch, u32 (Z.of_nat (length ch))) cs → post_chunks c no i n cs = (c', r) →
  good c' ∧ r ≠ Panic ∧ records_on c' = records_on c ∧ (∀ x, x ∈ chunks_on c → x ∈ chunks_on c')
  ∧ (is_ok r = true → ∀ j ch, cs !! j = Some ch → (no, (i + Z.of_nat j) mod 2 ^ 32, ch) ∈ chunks_on c').
Proof.
  induction cs as [|ch cs IH]; intros c i c' r Hg Hno Hn Hcs; cbn [post_chunks].
  { by intros [= <- <-]. }
  apply list.Forall_cons in Hcs as [Hch0 Hcs].
  destruct (post_da_chunk c no (i mod 2 ^ 32) n ch) as [c1 r1] eqn:Hp.
  apply post_chunk_law in Hp as (Hg1 & Hnp & Hrec & Hch);
    [|done|split_and!; [done|unfold u32, u32_max; pose proof (Z.mod_pos_bound i (2 ^ 32)); lia|done|done]].
  assert (Hin : ∀ x, x ∈ chunks_on c → x ∈ chunks_on c1)
    by (destruct Hch as [->|[-> _]]; intros x Hx; [apply elem_of_app; by left|done]).
  destruct r1 as [sig|e|]; [|by intros [= <- <-]; split_and!|done].
  intros Hrest. apply IH in Hrest as (Hg' & Hnp' & Hrec' & Hin' & Hall); [|done..].
  split_and!; [done|done|congruence|auto|]. intros Hok [|j] ch' Hj; cbn [lookup list_lookup] in Hj.
  - injection Hj as <-. apply Hin'. destruct Hch as [->|[_ Hf]]; [|done]. rewrite Z.add_0_r.
    apply elem_of_app. right. by apply list_elem_of_singleton.
  - specialize (Hall Hok j ch' Hj). replace (i + Z.of_nat (S j)) with (i + 1 + Z.of_nat j) by lia. done.
Qed.

Lemma settles_mono c c' bs bs' rec p :
  (∀ x, x ∈ chunks_on c → x ∈ chunks_on c') → bs `prefix_of` bs' →
  settles c bs rec p → settles c' bs' rec p.
Proof.
  intros Hc [more ->] (H1 & H2 & H3 & H4 & H5 & H6 & H7 & H8 & H9).
  split; [exact H1|]. split; [rewrite length_app; lia|]. do 3 (split; [done|]).
  split; [|split; [done|]; split; [done|]; by auto].
  rewrite H6. unfold range_blocks, slots_of. by rewrite slice_app_l by lia.
Qed.

Lemma blocks_at_prefix bs bs' s :
  bs `prefix_of` bs' → s ≤ Z.of_nat (length bs) → blocks_at bs' s = blocks_at bs s.
Proof.
  intros [more ->] Hs. unfold blocks_at. case_decide; [|done]. apply lookup_app_l. lia.
Qed.

Lemma covered_below_prefix recs bs bs' cursor :
  bs `prefix_of` bs' → cursor ≤ Z.of_nat (length bs) + 1 →
  covered_below recs bs cursor → covered_below recs bs' cursor.
Proof. intros Hp Hc H s b Hs. rewrite (blocks_at_prefix bs bs') by (done || lia). by apply H. Qed.

(** The chain may grow between two passes. *)
Lemma inv_grows b bs bs' : bs `prefix_of` bs' → batcher_inv b bs → batcher_inv b bs'.
Proof.
  intros Hp [Hg (ps & Hs) Ho Hc Hcu Hn Hct Hf Hps]. pose proof (prefix_length _ _ Hp) as Hlen.
  split; [done| |done| |lia|done|lia|done|].
  - exists ps. eapply list.Forall2_impl; [exact Hs|]. intros. by eapply settles_mono.
  - apply (covered_below_prefix _ bs); [done|lia|done].
  - apply (covered_below_prefix _ bs); [done|lia|done].
Qed.

(** A client that only gained chunks keeps the invariant. *)
Lemma inv_client b bs c :
  batcher_inv b bs → good c → records_on c = records_on (client b) →
  (∀ x, x ∈ chunks_on (client b) → x ∈ chunks_on c) → batcher_inv (with_client b c) bs.
Proof.
  intros [Hg (ps & Hs) Ho Hc Hcu Hn Hct Hf Hps] Hgc Hr Hin.
  split; cbn [with_client client cursor_slot next_batch_no]; rewrite ?Hr; try done.
  exists ps. eapply list.Forall2_impl; [exact Hs|]. intros. by eapply settles_mono.
Qed.

(** A range without non-empty blocks can be passed over. *)
Lemma skip_covered recs bs cursor tip :
  1 ≤ cursor → range_blocks bs cursor tip = [] →
  covered_below recs bs cursor → covered_below recs bs (tip + 1).
Proof.
  intros Hcu Hr Hc s b Hs Hb Hn. destruct (decide (s < cursor)) as [|Hge]; [by eapply Hc|].
  exfalso. unfold blocks_at in Hb. case_decide; [|done].
  assert (Hin : b ∈ range_blocks bs cursor tip); [|rewrite Hr in Hin; by apply not_elem_of_nil in Hin].
  apply list_elem_of_filter. split; [done|]. apply list_elem_of_lookup.
  exists (Z.to_nat (s - cursor)). unfold slots_of. rewrite slice_lookup by lia.
  rewrite <- Hb. f_equal. lia.
Qed.

Lemma ordered_snoc recs rec : ∀ k lo,
  ordered k lo recs → r_batch_no rec = k + Z.of_nat (length recs) →
  default lo (r_last_slot <$> list.last recs) < r_first_slot rec → ordered k lo (recs ++ [rec]).
Proof.
  induction recs as [|r recs IH]; intros k lo; cbn [ordered app length].
  { cbn. intros _ Hk Hlo. split_and!; [lia|done|done]. }
  intros (H1 & H2 & H3) Hk Hlo. split_and!; [done|done|]. apply IH; [done|lia|].
  rewrite last_cons in Hlo. by destruct (list.last recs).
Qed.

Lemma last_end_snoc recs rec : last_end (recs ++ [rec]) = r_last_slot rec.
Proof. unfold last_end. by rewrite last_snoc. Qed.

Lemma covered_snoc recs rec s : covered recs s → covered (recs ++ [rec]) s.
Proof. intros (r & Hr & ?). exists r. split; [apply elem_of_app; by left|done]. Qed.

(** A record under the next number extends what is settled. *)
Lemma record_appended b bs c rec p :
  batcher_inv b bs → next_batch_no b = Z.of_nat (length (records_on (client b))) →
  good c → records_on c = records_on (client b) ++ [rec] →
  (∀ x, x ∈ chunks_on (client b) → x ∈ chunks_on c) → settles c bs rec p →
  r_batch_no rec = next_batch_no b → r_first_slot rec = cursor_slot b →
  ∀ cursor next, 1 ≤ cursor ≤ Z.of_nat (length bs) + 1 →
    0 ≤ next ≤ Z.of_nat (length (records_on c)) →
    cursor ≤ r_last_slot rec + 1 →
    (next = Z.of_nat (length (records_on c)) → cursor = r_last_slot rec + 1) →
    batcher_inv {| client := c; cursor_slot := cursor; next_batch_no := next |} bs.
Proof.
  intros [Hg (ps & Hs) Ho Hc Hcu Hn Hct Hf Hps] Hnext Hgc Hrec Hin Hset Hno Hfirst cursor next Hcur Hnx Hup Hlast.
  pose proof (Hf Hnext) as Hlt. pose proof Hset as (H1 & H2 & _ & _ & _ & H6 & _).
  assert (Hbelow : covered_below (records_on (client b) ++ [rec]) bs (r_last_slot rec + 1)).
  { intros s blk Hs' Hb Hne. destruct (decide (s < cursor_slot b)) as [Hlo|Hhi].
    - apply covered_snoc. by eapply Hps.
    - exists rec. split; [apply elem_of_app; right; by apply list_elem_of_singleton|lia]. }
  split; cbn [client cursor_slot next_batch_no]; rewrite ?Hrec; [done| | | |done| | | |].
  - exists (ps ++ [p]). apply Forall2_app; [|constructor; [exact Hset|constructor]].
    eapply list.Forall2_impl; [exact Hs|]. intros. by eapply settles_mono.
  - apply ordered_snoc; [done|lia|]. unfold last_end in Hlt. lia.
  - by rewrite last_end_snoc.
  - by rewrite <- Hrec.
  - rewrite last_end_snoc, length_app. cbn [length]. lia.
  - intros Hnext'. rewrite <- Hrec in Hnext'. rewrite (Hlast Hnext'), last_end_snoc. lia.
  - intros s blk Hs'. apply Hbelow. lia.
Qed.

(** A run keeps the records, or appends one that carries the withdrawals root of
    the store; it appends the one it returns, and none when it returns none. *)
Definition grows_by (st : Store) (recs recs' : list BatchRecord) : Prop :=
  recs' = recs ∨ ∃ rec, recs' = recs ++ [rec] ∧ r_withdrawals_root rec = withdrawals_root st.

Lemma grows_prefix st recs recs' : grows_by st recs recs' → recs `prefix_of` recs'.
Proof. intros [->|(rec & -> & _)]; [done|by eexists]. Qed.

Definition extends (st : Store) (b b' : Batcher) (r : outcome BatchError (option BatchRecord)) : Prop :=
  grows_by st (records_on (client b)) (records_on (client b'))
  ∧ (∀ rec, r = Ok (Some rec) → r_batch_no rec = Z.of_nat (length (records_on (client b)))
                               ∧ records_on (client b') = records_on (client b) ++ [rec])
  ∧ (r = Ok None → records_on (client b') = records_on (client b)).

Lemma post_payload_inv b bs st p root b' r :
  batcher_inv b bs → Z.of_nat (length bs) < u64_max →
  bp_batch_no p = next_batch_no b → bp_first_slot p = cursor_slot b →
  cursor_slot b ≤ bp_last_slot p ≤ Z.of_nat (length bs) →
  bp_blocks p = range_blocks bs (cursor_slot b) (bp_last_slot p) → bp_blocks p ≠ [] →
  length root = 32%nat →
  post_payload b st p root = (b', r) → r ≠ Panic ∧ batcher_inv b' bs ∧ extends st b b' r.
Proof.
  intros Hi Hbd Hno Hfirst Hlast Hblocks Hne Hroot. unfold post_payload. cbv zeta.
  pose proof (bi_cursor _ _ Hi) as Hcu. pose proof (bi_next _ _ Hi) as Hn. pose proof (bi_count _ _ Hi) as Hct.
  destruct (post_chunks _ _ _ _ _) as [c r1] eqn:Hp.
  assert (Hmod : ∀ k, u32 (k mod 2 ^ 32))
    by (intros k; unfold u32, u32_max; pose proof (Z.mod_pos_bound k (2 ^ 32)); lia).
  apply post_chunks_law in Hp as (Hg & Hnp & Hrec & Hin & Hall);
    [|apply Hi|unfold u64; lia|apply Hmod|apply chunk_payload_typed].
  destruct r1 as [[]|e|]; [|intros [= <- <-]; split; [done|]; split; [by apply inv_client|by split_and!; cbn; [rewrite Hrec; left|..]]|done].
  set (rec := {| r_batch_no := _ |}).
  destruct (post_batch_record c rec) as [c2 r2] eqn:Hp.
  assert (Htyped : record_typed rec).
  { unfold record_typed, u64. cbn [rec r_batch_no r_first_slot r_last_slot r_state_root r_withdrawals_root r_da_hash r_chunk_count].
    split_and!; first [lia|exact Hroot|apply withdrawals_root_length|apply blake3_32_length|apply Hmod]. }
  apply post_record_law in Hp as (Hg2 & Hnp2 & Hch & Hcase); [|done|done].
  assert (Hin2 : ∀ x, x ∈ chunks_on (client b) → x ∈ chunks_on c2) by (intros x Hx; rewrite Hch; by apply Hin).
  destruct Hcase as [[Hnum Hrec2]|[Hrec2 Herr]].
  - rewrite Hrec in Hnum, Hrec2. cbn [rec r_batch_no] in Hnum.
    assert (Hset : settles c2 bs rec p).
    { unfold settles. cbn [rec r_batch_no r_first_slot r_last_slot r_da_hash]. rewrite Hfirst.
      split; [lia|]. split; [lia|]. do 3 (split; [done|]). split; [done|]. split; [done|]. split; [done|].
      intros i ch Hi'. rewrite Hch. by apply (Hall eq_refl). }
    assert (Happ := record_appended b bs c2 rec p Hi ltac:(congruence) Hg2 Hrec2 Hin2 Hset Hno Hfirst).
    rewrite Hrec2 in Happ. rewrite length_app in Happ. cbn [length] in Happ.
    destruct r2 as [sig|e|]; [| |done]; intros [= <- <-]; (split; [done|]); split.
    + rewrite !wadd_exact by lia. apply Happ; [lia|lia|cbn; lia|]. by intros _.
    + split_and!; cbn [client]; rewrite Hrec2; [right; by exists rec|by intros ? [= <-]|done].
    + apply Happ; [lia|lia|cbn; lia|]. lia.
    + split_and!; cbn [client with_client]; [rewrite Hrec2; right; by exists rec|done|done].
  - destruct r2 as [sig|e|]; [done| |done]. intros [= <- <-]. split; [done|]. split.
    + apply inv_client; [done|done|congruence|done].
    + split_and!; cbn [client with_client]; [left; by rewrite Hrec2, Hrec|done|done].
Qed.

Lemma run_once_inv b bs st tip b' r :
  batcher_inv b bs → holds st bs → Z.of_nat (length bs) < u64_max →
  tip ≤ Z.of_nat (length bs) → tip - cursor_slot b < 10000 → Forall root_typed bs →
  run_once b st tip = (b', r) → r ≠ Panic ∧ batcher_inv b' bs ∧ extends st b b' r.
Proof.
  intros Hi Hst Hbd Htip Hlim Hty. unfold run_once. destruct (decide _) as [|Hge]; [intros [= <- <-]; split_and!; [done|done|split_and!; [by left|done|done]]|].
  pose proof (bi_cursor _ _ Hi) as Hcu.
  destruct (collect_range st bs (cursor_slot b) tip) as (blk & Hblk & ->); [done|lia|done|done|].
  destruct (decide (range_blocks bs (cursor_slot b) tip = [])) as [Hnil|Hne].
  - intros [= <- <-]. split; [done|]. split; [|split_and!; [by left|done|done]]. destruct Hi as [Hg Hs Ho Hc _ Hn Hct Hf Hps].
    rewrite wadd_exact by lia. split; cbn [skip_to client cursor_slot next_batch_no]; try done; [lia| |].
    + intros Hnext. specialize (Hf Hnext). lia.
    + eapply skip_covered; [|done|done]. lia.
  - apply post_payload_inv; cbn [bp_batch_no bp_first_slot bp_last_slot bp_blocks]; try done; [lia|].
    rewrite list.Forall_forall in Hty. by apply Hty.
Qed.

(** *** Any sequence of passes, restarts included *)

(** A store that holds a chain of blocks with typed roots and points at its tip. *)
Definition chain_store (st : Store) (bs : list Block) : Prop :=
  holds st bs ∧ default 0 (latest_slot st) = Z.of_nat (length bs) ∧ Forall root_typed bs.

Lemma rebuilt b bs c b' :
  batcher_inv b bs → Z.of_nat (length bs) < u64_max → good c →
  records_on c = records_on (client b) → chunks_on c = chunks_on (client b) →
  new_batcher c (match list.last (records_on c) with None => 1 | Some r => wadd (r_last_slot r) 1 end) = Ok b' →
  batcher_inv b' bs.
Proof.
  intros [Hg (ps & Hs) Ho Hc Hcu Hn Hct Hf Hps] Hbd Hgc Hrec Hch. unfold new_batcher.
  intros (o & Hlat & H)%obind_Ok. injection H as <-.
  destruct (latest_batch_no c) as [o'| |] eqn:Hl; cbn in Hlat; [|done|done]. injection Hlat as ->.
  apply latest_law in Hl; [|done]. rewrite Hrec in Hl. subst o.
  assert (Hend : match list.last (records_on c) with None => 1 | Some r => wadd (r_last_slot r) 1 end
                 = last_end (records_on (client b)) + 1).
  { rewrite Hrec. unfold last_end in *. destruct (list.last (records_on (client b))) as [r|] eqn:Hlast; [|done].
    cbn [fmap option_fmap option_map default from_option id] in *. by rewrite wadd_exact by lia. }
  assert (Hnext : default 0 ((λ n, wadd n 1) <$> (if decide (records_on (client b) = []) then None
                     else Some (Z.of_nat (length (records_on (client b))) - 1)))
                  = Z.of_nat (length (records_on (client b)))).
  { destruct (decide (records_on (client b) = [])) as [->|Hne]; [done|].
    cbn [fmap option_fmap option_map default from_option id]. destruct (records_on (client b)); [done|].
    cbn [length] in *. rewrite wadd_exact by lia. lia. }
  rewrite Hend, Hnext. split; cbn [client cursor_slot next_batch_no]; rewrite ?Hrec; try done; [|lia|lia|lia].
  - exists ps. eapply list.Forall2_impl; [exact Hs|]. intros rec p. apply settles_mono; [|done].
    intros x. by rewrite Hch.
Qed.

Lemma build_batcher_inv b bs c r :
  batcher_inv b bs → Z.of_nat (length bs) < u64_max → build_batcher (client b) = (c, r) →
  batcher_inv (match r with Ok fresh => fresh | _ => with_client b c end) bs.
Proof.
  intros Hi Hbd. unfold build_batcher. destruct (ensure_initialized (client b)) as [c1 r1] eqn:Hin.
  apply init_law in Hin as (Hg & Hnp & Hrec & Hch); [|apply Hi].
  assert (Hkeep : batcher_inv (with_client b c1) bs)
    by (apply inv_client; [done|done|done|by rewrite Hch]).
  destruct r1 as [[]|e|]; [|by intros [= <- <-]|done]. intros [= <- <-].
  destruct (resume_cursor_slot c1) as [s| |] eqn:Hr; cbn [map_err obind]; [|done|done].
  apply resume_law in Hr as ->; [|done].
  destruct (new_batcher c1 _) as [b'| |] eqn:Hb; [|done|done]. by eapply rebuilt.
Qed.

Lemma sweep_inv interval b bs st :
  batcher_inv b bs → chain_store st bs → 0 ≤ interval ≤ 10000 → Z.of_nat (length bs) + 10001 ≤ u64_max →
  batcher_inv (sweep interval b st) bs.
Proof.
  intros Hi (Hst & Hlat & Hty) Hint Hbd. unfold sweep. rewrite Hlat. case_decide as Hge; [|done].
  destruct (match authority_balance _ with Ok _ => _ | _ => _ end); [done|].
  pose proof (bi_cursor _ _ Hi) as Hcu.
  rewrite (wadd_exact (cursor_slot b) (Z.max interval 1)) by lia. rewrite Z.mod_small by (unfold u64_max in Hbd; lia).
  destruct (run_once _ _ _) as [b1 r] eqn:Hrun.
  apply (run_once_inv b bs) in Hrun as (Hnp & Hi1 & _); [|done|done|lia|lia|lia|done].
  destruct r as [o|e|]; [done| |done].
  destruct (build_batcher (client b1)) as [c r2] eqn:Hb. apply (build_batcher_inv b1 bs) in Hb; [|done|lia].
  by destruct r2.
Qed.

(** The driver's life: derived from L1 on an empty settlement, then passes over
    the growing chain and restarts of the process. *)
Inductive batcher_reach (interval : Z) : Batcher → list Block → Prop :=
| reach_fresh c0 c b bs :
    good c0 → records_on c0 = [] → build_batcher c0 = (c, Ok b) →
    Z.of_nat (length bs) + 10001 ≤ u64_max → batcher_reach interval b bs
| reach_sweep b bs st bs' :
    batcher_reach interval b bs → bs `prefix_of` bs' → chain_store st bs' →
    Z.of_nat (length bs') + 10001 ≤ u64_max → batcher_reach interval (sweep interval b st) bs'
| reach_restart b bs c b' :
    batcher_reach interval b bs → build_batcher (client b) = (c, Ok b') → batcher_reach interval b' bs.

(** Before anything is settled there is nothing to keep. *)
Lemma fresh_inv c bs :
  good c → records_on c = [] → Z.of_nat (length bs) < u64_max →
  batcher_inv {| client := c; cursor_slot := 1; next_batch_no := 0 |} bs.
Proof.
  intros Hg Hr Hlen. split; cbn [client cursor_slot next_batch_no]; rewrite ?Hr; try done; cbn; try lia.
  - by exists [].
  - intros s blk Hs Hb0. unfold blocks_at in Hb0. rewrite decide_False in Hb0 by (cbn in Hs; lia). done.
  - intros s blk Hs Hb0. unfold blocks_at in Hb0. rewrite decide_False in Hb0 by lia. done.
Qed.

Lemma batcher_reach_inv interval b bs :
  0 ≤ interval ≤ 10000 → batcher_reach interval b bs →
  batcher_inv b bs ∧ Z.of_nat (length bs) + 10001 ≤ u64_max.
Proof.
  intros Hint. induction 1 as [c0 c b bs Hg Hr Hb Hlen|b bs st bs' _ [IH Hlen] Hp Hst Hlen'|b bs c b' _ [IH Hlen] Hb].
  - split; [|done]. pose proof (fresh_inv c0 bs Hg Hr ltac:(lia)) as Hi0.
    exact (build_batcher_inv _ bs c (Ok b) Hi0 ltac:(cbn; lia) Hb).
  - split; [|done]. apply sweep_inv; [by eapply inv_grows|done|done|done].
  - split; [|done]. exact (build_batcher_inv b bs c (Ok b') IH ltac:(lia) Hb).
Qed.

(** *** Recovery accepts what was settled *)

(** Every block carries its own slot. *)
Definition numbered (bs : list Block) : Prop :=
  ∀ s b, blocks_at bs s = Some b → slot (header b) = s.

Lemma range_in_range bs first last b :
  numbered bs → 1 ≤ first → b ∈ range_blocks bs first last → first ≤ slot (header b) ≤ last.
Proof.
  intros Hnum Hf [_ Hb]%list_elem_of_filter. apply list_elem_of_lookup in Hb as [i Hi].
  assert (Hlt : (i < Z.to_nat last - Z.to_nat (first - 1))%nat).
  { apply lookup_lt_Some in Hi. unfold slots_of, slice in Hi. rewrite length_take in Hi. lia. }
  unfold slots_of in Hi. rewrite slice_lookup in Hi by done.
  rewrite (Hnum (first + Z.of_nat i) b); [lia|]. unfold blocks_at. rewrite decide_True by lia.
  rewrite <- Hi. f_equal. lia.
Qed.

Definition recovered (recs : list BatchRecord) (ps : list BatchPayload) : list RecoveredBatch :=
  zip_with (λ r p, {| rb_record := r; rb_payload := p |}) recs ps.

Lemma scan_settled c bs recs ps :
  numbered bs → Forall2 (settles c bs) recs ps → ∀ lo s,
  ordered (sc_index s) lo recs → (∀ prev, prev_last_slot s = Some prev → prev = lo) →
  ∃ s', ofold scan_batch s (recovered recs ps) = Ok s'
        ∧ sc_last_slot s' = default (sc_last_slot s) (r_last_slot <$> list.last recs).
Proof.
  intros Hnum HF. induction HF as [|r p recs ps Hset _ IH]; intros lo s Ho Hprev; [by exists s|].
  cbn [ordered] in Ho. destruct Ho as (Hno & Hlo & Ho).
  destruct Hset as (H1 & H2 & H3 & H4 & H5 & H6 & H7 & _).
  cbn [recovered zip_with ofold]. unfold scan_batch at 1. cbn [rb_record rb_payload].
  rewrite decide_False by (intros Hn; by apply Hn).
  assert (Hfst : ∃ f, match prev_last_slot s with
                      | Some prev => if decide (r_first_slot r ≤ prev)
                                     then Err (NonContiguous (r_batch_no r) (r_first_slot r) prev)
                                     else Ok (sc_first_slot s)
                      | None => Ok (r_first_slot r)
                      end = Ok (E := RecoverError) f).
  { destruct (prev_last_slot s) as [prev|] eqn:Hp; [|by eexists].
    rewrite decide_False by (rewrite (Hprev _ eq_refl); lia). by eexists. }
  destruct Hfst as [f ->]. cbn [obind]. rewrite decide_False by done.
  assert (Hin : filter (λ b, out_of_range r b = true) (bp_blocks p) = []).
  { apply elem_of_nil_inv. intros b [Hr Hb]%list_elem_of_filter. rewrite H6 in Hb.
    apply range_in_range in Hb; [|done|lia]. unfold out_of_range in Hr. apply bool_decide_eq_true in Hr. lia. }
  rewrite Hin. cbn [head obind].
  edestruct (IH (r_last_slot r)) as (s' & -> & Hl); cycle 2.
  - eexists. split; [done|]. rewrite Hl. cbn [sc_last_slot]. rewrite last_cons. by destruct (list.last recs).
  - exact Ho.
  - cbn [prev_last_slot]. by intros prev [= <-].
Qed.

(** What the invariant says of L1, for the driver and for the process that runs it. *)
Definition settled_on (c : C) (bs : list Block) : Prop :=
  let recs := records_on c in
  ∃ ps, Forall2 (settles c bs) recs ps ∧ ordered 0 0 recs
    ∧ covered_below recs bs (last_end recs + 1)
    ∧ (recs ≠ [] → ∃ summary, verify (recovered recs ps) = Ok summary
         ∧ s_batches summary = Z.of_nat (length recs) ∧ s_last_slot summary = last_end recs).

Lemma inv_settled b bs : batcher_inv b bs → numbered bs → settled_on (client b) bs.
Proof.
  intros [_ (ps & Hs) Ho Hc _ _ _ _ _] Hnum. unfold settled_on. set (recs := records_on (client b)) in *.
  exists ps. split_and!; [done|done|done|]. intros Hne.
  destruct (scan_settled (client b) bs recs ps Hnum Hs 0 scan_start Ho ltac:(done)) as (s' & Hscan & Hl).
  assert (Hlen : length (recovered recs ps) = length recs)
    by (unfold recovered; rewrite length_zip_with, <- (Forall2_length Hs); lia).
  unfold verify. rewrite decide_False, Hscan by (intros He; rewrite He in Hlen; by destruct recs). cbn [obind].
  eexists. split; [done|]. cbn [s_batches s_last_slot]. rewrite Hlen, Hl. done.
Qed.

(** Settlement is complete and recoverable. Whatever faults L1 shows (posts
    lost, posts recorded without a confirmation), however the chain grows
    between passes and whenever the process restarts, the batches on L1 are
    numbered without gaps over increasing slot ranges; each was published with
    the payload its hash commits to, which holds exactly the non-empty blocks of
    its range; no non-empty block up to the last settled slot is left out; and
    recovery accepts the records with those payloads. *)
Theorem batcher_settles_chain interval b bs :
  0 ≤ interval ≤ 10000 → batcher_reach interval b bs → numbered bs →
  let recs := records_on (client b) in
  ∃ ps, Forall2 (settles (client b) bs) recs ps ∧ ordered 0 0 recs
    ∧ covered_below recs bs (last_end recs + 1)
    ∧ (recs ≠ [] → ∃ summary, verify (recovered recs ps) = Ok summary
         ∧ s_batches summary = Z.of_nat (length recs) ∧ s_last_slot summary = last_end recs).
Proof.
  intros Hint Hr Hnum. apply batcher_reach_inv in Hr as [Hi _]; [|done]. by apply inv_settled.
Qed.

End Batcher.
