(* ===== verification/L1Rpc.v ===== *)
(** * The L1 client: instructions, account layouts and recovery

    Models [chain/zul-bridge/src/rpc.rs]. The JSON-RPC transport is an
    interface at the level of decoded answers (an account's bytes, a page of
    signatures, a transaction's logs and instructions), which [L1Transport]
    implements over JSON; sha256, base64 and base58 are third-party. The layouts of accounts and events are those Anchor
    derives from the structs of the settlement program. *)

From stdpp Require Import pretty.
From S2P Require Import Prelude External Json Hash Account Sorting Block WrappedSpl NodeBridge NodeLedger Settlement Recover.

Class Sha256 := {
  sha256 : bytes → bytes;
  sha256_length : ∀ m, length (sha256 m) = 32%nat;
}.

Record AccountMeta := {
  am_pubkey : Pubkey;
  am_signer : bool;
  am_writable : bool;
}.

Definition meta_new (k : Pubkey) (signer : bool) : AccountMeta :=
  {| am_pubkey := k; am_signer := signer; am_writable := true |}.
Definition meta_readonly (k : Pubkey) (signer : bool) : AccountMeta :=
  {| am_pubkey := k; am_signer := signer; am_writable := false |}.

Record Instruction := {
  i_program_id : Pubkey;
  i_accounts : list AccountMeta;
  i_data : bytes;
}.

(** ** Decoded answers *)

Record SigEntry := {
  se_failed : bool;
  se_signature : option bytes;
}.

Record TxInstruction := {
  ti_program_index : option Z;
  ti_data : option bytes;
}.

Record TxView := {
  tv_logs : list (option bytes);
  tv_message : option (list (option bytes) * list TxInstruction);
}.

Inductive Confirmation := NoStatus | Failed | Confirmed | Pending.

Class JsonRpc (W : Type) := {
  system_program : Pubkey;
  compute_budget_program : Pubkey;
  (** the text of an address, as in the answers *)
  address_text : Pubkey → bytes;
  get_balance : W → Pubkey → outcome L1Error (option Z);
  get_account_info : W → Pubkey → outcome L1Error (option bytes);
  get_signatures : W → Pubkey → nat → option bytes → option bytes → outcome L1Error (list SigEntry);
  get_transaction_view : W → bytes → outcome L1Error TxView;
  send_transaction : W → list Instruction → W * outcome L1Error bytes;
  get_signature_status : W → bytes → nat → outcome L1Error Confirmation;
}.

(** The page size of the log scan. *)
Definition PAGE_LIMIT : nat := 1000.

Definition CONFIG_SEED : bytes := bstr "config".
Definition VAULT_SEED : bytes := bstr "vault".
Definition BATCH_SEED : bytes := bstr "batch".

Section Client.
Context `{B3 : Blake3} `{TX : SolanaTx} `{SA : SolanaAddresses} `{S2 : Sha256} `{T : TextCodecs}.
Context `{Z0 : Zstd} `{!Bincode BatchPayload}.
Context {W : Type} `{RPC : !JsonRpc W}.

Definition derive_ata (owner mint token_program : Pubkey) : Pubkey :=
  find_program_address [owner; token_program; mint] ATA_PROGRAM_ID.

Definition discriminator (namespace name : string) : bytes :=
  take 8 (sha256 (bstr (namespace +:+ ":" +:+ name))).

Definition compute_unit_limit (units : Z) : Instruction :=
  {| i_program_id := compute_budget_program; i_accounts := [];
     i_data := [Byte.x02] ++ le_bytes 4 units |}.

Record RpcL1Client := {
  authority : Pubkey;
  settlement_program : Pubkey;
  da_log_program : Pubkey;
  config_pda : Pubkey;
  vault_pda : Pubkey;
}.

Definition new_client (authority settlement da_log : Pubkey) : RpcL1Client :=
  {| authority := authority; settlement_program := settlement; da_log_program := da_log;
     config_pda := find_program_address [CONFIG_SEED] settlement;
     vault_pda := find_program_address [VAULT_SEED] settlement |}.

Definition batch_pda (cl : RpcL1Client) (batch_no : Z) : Pubkey :=
  find_program_address [BATCH_SEED; le_bytes 8 batch_no] (settlement_program cl).

Definition claim_pda (cl : RpcL1Client) (recipient : Pubkey) (nonce : Z) : Pubkey :=
  find_program_address [bstr "claim"; recipient; le_bytes 8 nonce] (settlement_program cl).

(** ** Instructions *)

Definition ix_initialize (cl : RpcL1Client) : Instruction :=
  {| i_program_id := settlement_program cl;
     i_accounts := [meta_new (config_pda cl) false; meta_readonly (vault_pda cl) false;
                    meta_new (authority cl) true; meta_readonly system_program false];
     i_data := discriminator "global" "initialize" |}.

Definition ix_post_batch (cl : RpcL1Client) (r : BatchRecord) : Instruction :=
  {| i_program_id := settlement_program cl;
     i_accounts := [meta_new (config_pda cl) false; meta_new (batch_pda cl (r_batch_no r)) false;
                    meta_new (authority cl) true; meta_readonly system_program false];
     i_data := discriminator "global" "post_batch" ++ le_bytes 8 (r_batch_no r)
               ++ le_bytes 8 (r_first_slot r) ++ le_bytes 8 (r_last_slot r) ++ r_state_root r
               ++ r_withdrawals_root r ++ r_da_hash r ++ le_bytes 4 (r_chunk_count r) |}.

Definition ix_post_chunk (cl : RpcL1Client) (batch_no chunk_index chunk_count : Z) (chunk : bytes) : Instruction :=
  {| i_program_id := da_log_program cl;
     i_accounts := [meta_new (authority cl) true];
     i_data := discriminator "global" "post_chunk" ++ le_bytes 8 batch_no ++ le_bytes 4 chunk_index
               ++ le_bytes 4 chunk_count ++ le_bytes 4 (Z.of_nat (length chunk)) ++ chunk |}.

Definition ix_deposit_sol (cl : RpcL1Client) (amount : Z) (l2_recipient : Pubkey) : Instruction :=
  {| i_program_id := settlement_program cl;
     i_accounts := [meta_new (config_pda cl) false; meta_new (vault_pda cl) false;
                    meta_new (authority cl) true; meta_readonly system_program false];
     i_data := discriminator "global" "deposit_sol" ++ le_bytes 8 amount ++ l2_recipient |}.

Definition ix_deposit_spl (cl : RpcL1Client) (amount : Z) (mint token_program l2_recipient : Pubkey) : Instruction :=
  {| i_program_id := settlement_program cl;
     i_accounts := [meta_readonly (config_pda cl) false; meta_readonly (vault_pda cl) false;
                    meta_readonly mint false; meta_new (derive_ata (authority cl) mint token_program) false;
                    meta_new (derive_ata (vault_pda cl) mint token_program) false;
                    meta_new (authority cl) true; meta_readonly token_program false;
                    meta_readonly ATA_PROGRAM_ID false; meta_readonly system_program false];
     i_data := discriminator "global" "deposit_spl" ++ le_bytes 8 amount ++ l2_recipient |}.

(** The arguments the two claims share. *)
Definition claim_args (batch_no amount nonce : Z) (bitmap : bytes) (siblings : list bytes) : bytes :=
  le_bytes 8 batch_no ++ le_bytes 8 amount ++ le_bytes 8 nonce ++ bitmap
  ++ le_bytes 4 (Z.of_nat (length siblings)) ++ concat siblings.

Definition ix_claim_withdrawal_spl (cl : RpcL1Client) (batch_no amount nonce : Z)
    (recipient mint token_program : Pubkey) (bitmap : bytes) (siblings : list bytes) : Instruction :=
  {| i_program_id := settlement_program cl;
     i_accounts := [meta_readonly (config_pda cl) false; meta_readonly (batch_pda cl batch_no) false;
                    meta_readonly (vault_pda cl) false; meta_readonly mint false;
                    meta_new (derive_ata (vault_pda cl) mint token_program) false;
                    meta_readonly recipient false; meta_new (derive_ata recipient mint token_program) false;
                    meta_new (claim_pda cl recipient nonce) false; meta_new (authority cl) true;
                    meta_readonly token_program false; meta_readonly ATA_PROGRAM_ID false;
                    meta_readonly system_program false];
     i_data := discriminator "global" "claim_withdrawal_spl" ++ claim_args batch_no amount nonce bitmap siblings |}.

Definition ix_claim_withdrawal (cl : RpcL1Client) (batch_no amount nonce : Z)
    (recipient : Pubkey) (bitmap : bytes) (siblings : list bytes) : Instruction :=
  {| i_program_id := settlement_program cl;
     i_accounts := [meta_readonly (config_pda cl) false; meta_readonly (batch_pda cl batch_no) false;
                    meta_new (vault_pda cl) false; meta_new recipient false;
                    meta_new (claim_pda cl recipient nonce) false; meta_new (authority cl) true;
                    meta_readonly system_program false];
     i_data := discriminator "global" "claim_withdrawal" ++ claim_args batch_no amount nonce bitmap siblings |}.

(** ** Sending *)

Fixpoint confirm_loop (w : W) (signature : bytes) (tries attempt : nat) : outcome L1Error () :=
  match tries with
  | O => Err (TransactionFailed "not confirmed within timeout")
  | S tries =>
      let? status := get_signature_status w signature attempt in
      match status with
      | Failed => Err (TransactionFailed "failed")
      | Confirmed => Ok ()
      | NoStatus | Pending => confirm_loop w signature tries (S attempt)
      end
  end.

Definition confirm (w : W) (signature : bytes) : outcome L1Error () := confirm_loop w signature 45 0.

Definition send_and_confirm (w : W) (ix : Instruction) : W * outcome L1Error bytes :=
  match send_transaction w [compute_unit_limit 1400000; ix] with
  | (w, Ok signature) => (w, let? _ := confirm w signature in Ok signature)
  | (w, Err e) => (w, Err e)
  | (w, Panic) => (w, Panic)
  end.

(** ** Reading accounts *)

Definition config_batch_count (cl : RpcL1Client) (w : W) : outcome L1Error Z :=
  let? d := get_account_info w (config_pda cl) in
  match d with
  | None => Ok 0
  | Some d => if decide (length d < 48)%nat then Err (Rpc "config account too small")
              else Ok (le_val (slice 40 48 d))
  end.

Definition rpc_latest_batch_no (cl : RpcL1Client) (w : W) : outcome L1Error (option Z) :=
  let? count := config_batch_count cl w in
  Ok (if decide (count = 0) then None else Some (count - 1)).

Definition rpc_resume_cursor_slot (cl : RpcL1Client) (w : W) : outcome L1Error Z :=
  let? count := config_batch_count cl w in
  if decide (count = 0) then Ok 1
  else
    let? d := get_account_info w (batch_pda cl (count - 1)) in
    let? d := ok_or d (Rpc ("batch " +:+ pretty (count - 1) +:+ " record missing on L1")) in
    if decide (length d < 32)%nat then Err (Rpc "batch account too small")
    else Ok (wadd (le_val (slice 24 32 d)) 1).

(** The 132-byte layout, and the 100-byte one without a withdrawals root. *)
Definition parse_batch_record (batch_no : Z) (d : bytes) : outcome L1Error BatchRecord :=
  if decide (132 ≤ length d)%nat then
    Ok {| r_batch_no := le_val (slice 8 16 d); r_first_slot := le_val (slice 16 24 d);
          r_last_slot := le_val (slice 24 32 d); r_state_root := slice 32 64 d;
          r_withdrawals_root := slice 64 96 d; r_da_hash := slice 96 128 d;
          r_chunk_count := le_val (slice 128 132 d) |}
  else if decide (100 ≤ length d)%nat then
    Ok {| r_batch_no := le_val (slice 8 16 d); r_first_slot := le_val (slice 16 24 d);
          r_last_slot := le_val (slice 24 32 d); r_state_root := slice 32 64 d;
          r_withdrawals_root := ZERO_HASH; r_da_hash := slice 64 96 d;
          r_chunk_count := le_val (slice 96 100 d) |}
  else Err (Rpc ("batch " +:+ pretty batch_no +:+ ": record too small")).

Definition fetch_batch_record (cl : RpcL1Client) (w : W) (batch_no : Z) : outcome L1Error BatchRecord :=
  let? d := get_account_info w (batch_pda cl batch_no) in
  let? d := ok_or d (Rpc ("batch " +:+ pretty batch_no +:+ " record missing on L1")) in
  parse_batch_record batch_no d.

Fixpoint find_batch_loop (cl : RpcL1Client) (w : W) (root : H256) (k : nat) : outcome L1Error (option Z) :=
  match k with
  | O => Ok None
  | S k =>
      let? r := fetch_batch_record cl w (Z.of_nat k) in
      if decide (r_withdrawals_root r = root) then Ok (Some (Z.of_nat k)) else find_batch_loop cl w root k
  end.

Definition find_batch_for_withdrawals_root (cl : RpcL1Client) (w : W) (root : H256)
    : outcome L1Error (option Z) :=
  let? count := config_batch_count cl w in
  find_batch_loop cl w root (Z.to_nat count).

Definition rpc_authority_balance (cl : RpcL1Client) (w : W) : outcome L1Error Z :=
  let? v := get_balance w (authority cl) in
  ok_or v (Rpc "getBalance: missing value").

Definition rpc_ensure_initialized (cl : RpcL1Client) (w : W) : W * outcome L1Error () :=
  match get_account_info w (config_pda cl) with
  | Ok (Some _) => (w, Ok ())
  | Ok None => match send_and_confirm w (ix_initialize cl) with
               | (w, r) => (w, let? _ := r in Ok ())
               end
  | Err e => (w, Err e)
  | Panic => (w, Panic)
  end.

(** ** Deposits *)

Definition parse_deposited_event (bs signature : bytes) : option DepositEvent :=
  if decide (length bs < 80)%nat then None
  else if decide (take 8 bs ≠ discriminator "event" "Deposited") then None
  else
    let '(mint, decimals) :=
      match bs !! 80%nat with
      | None => (None, 9)
      | Some t =>
          if decide (Z_of_byte t = 0) then (None, default 9 (Z_of_byte <$> bs !! 81%nat))
          else if decide (Z_of_byte t = 1 ∧ (114 ≤ length bs)%nat)
          then (Some (slice 81 113 bs), default 9 (Z_of_byte <$> bs !! 113%nat))
          else (None, 9)
      end in
    Some {| l1_signature := signature; dep_mint := mint; dep_decimals := decimals;
            dep_amount := le_val (slice 40 48 bs); l2_recipient := slice 48 80 bs |}.

Definition DATA_PREFIX : bytes := bstr "Program data: ".

(** [s.strip_prefix(p)] *)
Definition strip_prefix (p s : bytes) : option bytes :=
  if decide (take (length p) s = p) then Some (drop (length p) s) else None.

(** [trim] takes ASCII white space off both ends of a base64 text. *)
Definition is_space (b : byte) : bool :=
  existsb (λ c, bool_decide (b = c)) [Byte.x09; Byte.x0a; Byte.x0b; Byte.x0c; Byte.x0d; Byte.x20].

Fixpoint trim_start (s : bytes) : bytes :=
  match s with
  | b :: s' => if is_space b then trim_start s' else s
  | [] => []
  end.

Definition trim (s : bytes) : bytes := rev (trim_start (rev (trim_start s))).

Definition deposit_in_line (signature : bytes) (line : option bytes) : option DepositEvent :=
  line ← line; encoded ← strip_prefix DATA_PREFIX line; bs ← b64_decode (trim encoded);
  parse_deposited_event bs signature.

(** The first event of the transaction's logs. *)
Definition deposit_in_tx (w : W) (signature : bytes) : outcome L1Error (option DepositEvent) :=
  let? tx := get_transaction_view w signature in
  Ok (head (omap (deposit_in_line signature) (tv_logs tx))).

Definition collect_deposit (w : W) (acc : list DepositEvent) (e : SigEntry)
    : outcome L1Error (list DepositEvent) :=
  if se_failed e then Ok acc
  else match se_signature e with
       | None => Ok acc
       | Some signature =>
           let? d := deposit_in_tx w signature in
           Ok (match d with Some d => acc ++ [d] | None => acc end)
       end.

Definition rpc_fetch_deposits (cl : RpcL1Client) (w : W) (after : option bytes)
    : outcome L1Error (list DepositEvent) :=
  let? entries := get_signatures w (config_pda cl) 100 after None in
  ofold (collect_deposit w) [] (rev entries).

(** ** Data availability *)

Definition parse_chunk_ix (cl : RpcL1Client) (keys : list (option bytes)) (ix : TxInstruction)
    : option (Z * Z * bytes) :=
  let pid := default u64_max (ti_program_index ix) in
  if decide (mjoin (keys !! Z.to_nat pid) ≠ Some (address_text (da_log_program cl))) then None
  else
    bs ← b58_decode (default [] (ti_data ix));
    if decide ((length bs < 28)%nat ∨ take 8 bs ≠ discriminator "global" "post_chunk") then None
    else
      let len := Z.to_nat (le_val (slice 24 28 bs)) in
      if decide (length bs < 28 + len)%nat then None
      else Some (le_val (slice 8 16 bs), le_val (slice 16 20 bs), slice 28 (28 + len) bs).

Definition fetch_post_chunk (cl : RpcL1Client) (w : W) (signature : bytes)
    : outcome L1Error (option (Z * Z * bytes)) :=
  let? tx := get_transaction_view w signature in
  Ok (match tv_message tx with
      | None => None
      | Some (keys, ixs) => head (omap (parse_chunk_ix cl keys) ixs)
      end).

Abbreviation ChunkMap := (gmap Z (list (Z * bytes))).

Definition push_chunk (m : ChunkMap) (c : Z * Z * bytes) : ChunkMap :=
  <[c.1.1 := default [] (m !! c.1.1) ++ [(c.1.2, c.2)]]> m.

Definition collect_chunk (cl : RpcL1Client) (w : W) (m : ChunkMap) (e : SigEntry) : outcome L1Error ChunkMap :=
  if se_failed e then Ok m
  else match se_signature e with
       | None => Ok m
       | Some signature =>
           let? c := fetch_post_chunk cl w signature in
           Ok (match c with Some c => push_chunk m c | None => m end)
       end.

(** The paging loop; [None] when the fuel runs out. *)
Fixpoint chunk_pages (cl : RpcL1Client) (w : W) (fuel : nat) (before : option bytes) (m : ChunkMap)
    : option (outcome L1Error ChunkMap) :=
  match fuel with
  | O => None
  | S fuel =>
      match get_signatures w (da_log_program cl) PAGE_LIMIT None before with
      | Err e => Some (Err e)
      | Panic => Some Panic
      | Ok entries =>
          if decide (entries = []) then Some (Ok m)
          else
            match ofold (collect_chunk cl w) m entries with
            | Err e => Some (Err e)
            | Panic => Some Panic
            | Ok m =>
                if decide (length entries < PAGE_LIMIT)%nat then Some (Ok m)
                else chunk_pages cl w fuel (list.last entries ≫= se_signature) m
            end
      end
  end.

Definition chunk_le (a b : Z * bytes) : bool := a.1 <=? b.1.

(** One batch of a recovery, given the chunks of all batches. *)
Definition recover_batch (cl : RpcL1Client) (w : W) (chunks : ChunkMap) (acc : list RecoveredBatch) (no : Z)
    : outcome L1Error (list RecoveredBatch) :=
  let? record := fetch_batch_record cl w no in
  let compressed := concat (sort_by chunk_le (default [] (chunks !! no))).*2 in
  if decide (da_hash compressed ≠ r_da_hash record)
  then Err (Rpc ("batch " +:+ pretty no +:+ ": DA reassembly hash mismatch (missing/corrupt chunks)"))
  else
    let? payload := ok_or (decompress compressed) (Rpc ("batch " +:+ pretty no +:+ ": decompress")) in
    Ok (acc ++ [{| rb_record := record; rb_payload := payload |}]).

Definition fetch_settlement_batches (cl : RpcL1Client) (w : W) (fuel : nat)
    : option (outcome L1Error (list RecoveredBatch)) :=
  match config_batch_count cl w with
  | Err e => Some (Err e)
  | Panic => Some Panic
  | Ok count =>
      if decide (count = 0) then Some (Ok [])
      else
        match chunk_pages cl w fuel None ∅ with
        | None => None
        | Some chunks =>
            Some (let? chunks := chunks in ofold (recover_batch cl w chunks) [] (seqZ 0 count))
        end
  end.

End Client.
