(* ===== verification/L1RpcProps.v ===== *)
(** * Correctness of the L1 client

    The client reads back what the settlement program wrote: deposit events,
    batch and config accounts; and recovery from the data-availability log
    returns the posted payloads, as long as every chunk is there exactly once. *)

From Stdlib Require Import Sorting.Sorted.
From stdpp Require Import pretty sorting.
From S2P Require Import Prelude External Json Hash Account Sorting Block Queue Store WrappedSpl NodeBridge NodeLedger Settlement Recover L1Rpc.

(** Picks a field out of a concatenation of fields of known lengths. *)
Ltac field_len := rewrite ?length_app, ?length_le_bytes, ?length_take; cbn [length]; lia.
Ltac pick_field := pick_field_with ltac:(field_len).

Ltac pick_u64 := etrans; [apply (f_equal le_val); pick_field|by apply le64_roundtrip].
Ltac pick_u32 := etrans; [apply (f_equal le_val); pick_field|by apply le32_roundtrip].

Section Layouts.
Context `{B3 : Blake3} `{TX : SolanaTx} `{SA : SolanaAddresses} `{S2 : Sha256} `{T : TextCodecs}.

Lemma discriminator_length ns n : length (discriminator ns n) = 8%nat.
Proof. unfold discriminator. rewrite length_take, sha256_length. done. Qed.

(** ** Events *)

(** The bytes Anchor logs for a [Deposited] event. *)
Definition deposited_payload (depositor : Pubkey) (amount : Z) (recipient : Pubkey)
    (mint : option Pubkey) (decimals : Z) : bytes :=
  discriminator "event" "Deposited" ++ depositor ++ le_bytes 8 amount ++ recipient
  ++ (match mint with None => [Byte.x00] | Some m => Byte.x01 :: m end) ++ le_bytes 1 decimals.

Lemma le_bytes_1 d : 0 ≤ d < 256 → ∃ b, le_bytes 1 d = [b] ∧ Z_of_byte b = d.
Proof.
  intros Hd. pose proof (le_val_le_bytes_small 1 d ltac:(cbn; lia)) as H.
  pose proof (length_le_bytes 1 d) as Hl. destruct (le_bytes 1 d) as [|b [|]]; try done.
  exists b. split; [done|]. cbn [le_val] in H. lia.
Qed.

(** A deposit event emitted by the settlement program is decoded by the
    watcher to the same amount, recipient, asset and decimals, for SOL and for
    every mint. *)
Lemma parse_deposited_payload signature depositor amount recipient mint decimals :
  length depositor = 32%nat → length recipient = 32%nat → u64 amount → 0 ≤ decimals < 256 →
  (∀ m, mint = Some m → length m = 32%nat) →
  parse_deposited_event (deposited_payload depositor amount recipient mint decimals) signature
  = Some {| l1_signature := signature; dep_mint := mint; dep_decimals := decimals;
            dep_amount := amount; l2_recipient := recipient |}.
Proof.
  intros Hd Hr Ha Hdec Hm. destruct (le_bytes_1 decimals Hdec) as (b & Hb & Hbv).
  pose proof (discriminator_length "event" "Deposited") as Hdl.
  unfold parse_deposited_event, deposited_payload. rewrite Hb.
  set (tail := (match mint with None => _ | Some m => _ end) ++ [b]).
  assert (Htl : (1 ≤ length tail)%nat) by (unfold tail; rewrite length_app; cbn; lia).
  rewrite decide_False by field_len.
  rewrite take_app_length' by done. rewrite decide_False by (intros Hn; by apply Hn).
  assert (Hlook : ∀ i, (discriminator "event" "Deposited" ++ depositor ++ le_bytes 8 amount ++ recipient ++ tail)
                       !! (80 + i)%nat = tail !! i).
  { intros i. rewrite !app_assoc, <- !app_assoc. rewrite !lookup_app_r by field_len.
    f_equal. rewrite length_le_bytes. lia. }
  pose proof (Hlook 0%nat) as H80. cbn [Nat.add] in H80. rewrite H80.
  pose proof (Hlook 1%nat) as H81. cbn [Nat.add] in H81.
  pose proof (Hlook 33%nat) as H113. cbn [Nat.add] in H113.
  assert (Hamt : le_val (slice 40 48 (discriminator "event" "Deposited" ++ depositor ++ le_bytes 8 amount
                                      ++ recipient ++ tail)) = amount)
    by pick_u64.
  assert (Hrec : slice 48 80 (discriminator "event" "Deposited" ++ depositor ++ le_bytes 8 amount
                              ++ recipient ++ tail) = recipient) by pick_field.
  rewrite Hamt, Hrec, H81, H113. unfold tail. destruct mint as [m|].
  - specialize (Hm m eq_refl).
    assert (H33 : ((Byte.x01 :: m) ++ [b]) !! 33%nat = Some b) by (apply list_lookup_middle; cbn; lia).
    rewrite H33. cbn [app lookup list_lookup]. rewrite decide_False by done. rewrite decide_True.
    2:{ split; [done|]. unfold tail. rewrite !length_app, length_le_bytes. cbn [length]. rewrite length_app. cbn. lia. }
    f_equal. f_equal.
    + f_equal. unfold tail. cbn [app]. change (Byte.x01 :: m ++ [b]) with ([Byte.x01] ++ m ++ [b]). pick_field.
    + cbn. exact Hbv.
  - cbn. by rewrite Hbv.
Qed.

(** ** Accounts *)

(** The bytes Anchor stores for the config and for a batch. *)
Definition config_account (c : Config) : bytes :=
  discriminator "account" "Config" ++ cfg_authority c ++ le_bytes 8 (batch_count c)
  ++ le_bytes 8 (total_deposited c) ++ le_bytes 1 (bump c) ++ le_bytes 1 (vault_bump c).

Definition batch_account (b : Batch) : bytes :=
  discriminator "account" "Batch" ++ le_bytes 8 (b_batch_no b) ++ le_bytes 8 (b_first_slot b)
  ++ le_bytes 8 (b_last_slot b) ++ b_state_root b ++ b_withdrawals_root b ++ b_da_hash b
  ++ le_bytes 4 (b_chunk_count b) ++ le_bytes 8 (posted_at b).

Definition record_of (b : Batch) : BatchRecord :=
  {| r_batch_no := b_batch_no b; r_first_slot := b_first_slot b; r_last_slot := b_last_slot b;
     r_state_root := b_state_root b; r_withdrawals_root := b_withdrawals_root b;
     r_da_hash := b_da_hash b; r_chunk_count := b_chunk_count b |}.

(** The types of the fields. *)
Definition config_wf (c : Config) : Prop :=
  length (cfg_authority c) = 32%nat ∧ u64 (batch_count c).
Definition batch_wf (b : Batch) : Prop :=
  u64 (b_batch_no b) ∧ u64 (b_first_slot b) ∧ u64 (b_last_slot b) ∧ length (b_state_root b) = 32%nat
  ∧ length (b_withdrawals_root b) = 32%nat ∧ length (b_da_hash b) = 32%nat ∧ u32 (b_chunk_count b).

Lemma batch_account_length b : batch_wf b → length (batch_account b) = 140%nat.
Proof.
  intros (_ & _ & _ & H1 & H2 & H3 & _). unfold batch_account.
  rewrite !length_app, !length_le_bytes, discriminator_length, H1, H2, H3. done.
Qed.

Lemma parse_batch_account no b : batch_wf b → parse_batch_record no (batch_account b) = Ok (record_of b).
Proof.
  intros Hwf. pose proof (batch_account_length b Hwf) as Hl.
  destruct Hwf as (Hn & Hf & Hla & H1 & H2 & H3 & Hc). unfold parse_batch_record.
  rewrite decide_True by lia. unfold batch_account, record_of in *.
  pose proof (discriminator_length "account" "Batch") as Hd.
  f_equal. f_equal; try pick_field.
  - pick_u64.
  - pick_u64.
  - pick_u64.
  - pick_u32.
Qed.

Lemma config_account_count c :
  config_wf c → (48 ≤ length (config_account c))%nat ∧ le_val (slice 40 48 (config_account c)) = batch_count c.
Proof.
  intros [Ha Hc]. pose proof (discriminator_length "account" "Config") as Hd. unfold config_account.
  split; [rewrite !length_app, !length_le_bytes, Ha; lia|pick_u64].
Qed.

Lemma batch_account_last b :
  batch_wf b → (32 ≤ length (batch_account b))%nat ∧ le_val (slice 24 32 (batch_account b)) = b_last_slot b.
Proof.
  intros Hwf. rewrite batch_account_length by done. split; [lia|].
  destruct Hwf as (Hn & Hf & Hla & H1 & H2 & H3 & Hc). pose proof (discriminator_length "account" "Batch") as Hd.
  unfold batch_account. pick_u64.
Qed.

(** ** Reading the settlement program through RPC *)

Context {W : Type} `{RPC : !JsonRpc W} `{RT : L1Runtime}.
Context (cl : RpcL1Client) (w : W) (s : L1State).

(** The RPC node serves the accounts of the program's state. *)
Record serves : Prop := {
  sv_config : get_account_info w (config_pda cl) = Ok (config_account <$> l1_config s);
  sv_batch k : u64 k → get_account_info w (batch_pda cl k) = Ok (batch_account <$> batches s !! k);
  sv_config_wf c : l1_config s = Some c → config_wf c;
  sv_batch_wf : map_Forall (λ _ b, batch_wf b) (batches s);
}.

Definition count_on : Z := default 0 (batch_count <$> l1_config s).

Context (Hserves : serves).

Lemma config_count : config_batch_count cl w = Ok count_on.
Proof.
  unfold config_batch_count, count_on. rewrite (sv_config Hserves). cbn [obind].
  destruct (l1_config s) as [c|] eqn:Hc; cbn [fmap option_fmap option_map]; [|done].
  destruct (config_account_count c (sv_config_wf Hserves c Hc)) as [Hl Hv].
  rewrite decide_False by lia. by rewrite Hv.
Qed.

Lemma fetch_record k b : u64 k → batches s !! k = Some b → fetch_batch_record cl w k = Ok (record_of b).
Proof.
  intros Hk Hb. unfold fetch_batch_record. rewrite (sv_batch Hserves) by done. rewrite Hb. cbn [fmap option_fmap option_map obind ok_or].
  apply parse_batch_account. exact (sv_batch_wf Hserves k b Hb).
Qed.

Lemma find_loop root k :
  (∀ i, 0 ≤ i < Z.of_nat k → is_Some (batches s !! i)) → Z.of_nat k ≤ u64_max →
  ∃ o, find_batch_loop cl w root k = Ok o ∧
    match o with
    | Some i => 0 ≤ i < Z.of_nat k ∧ (b_withdrawals_root <$> batches s !! i) = Some root
                ∧ ∀ j, i < j < Z.of_nat k → (b_withdrawals_root <$> batches s !! j) ≠ Some root
    | None => ∀ j, 0 ≤ j < Z.of_nat k → (b_withdrawals_root <$> batches s !! j) ≠ Some root
    end.
Proof.
  induction k as [|k IH]; intros Hb Hle; cbn [find_batch_loop].
  { eexists. split; [done|]. cbn. lia. }
  destruct (Hb (Z.of_nat k) ltac:(lia)) as [b Hk].
  rewrite (fetch_record (Z.of_nat k) b) by (done || (unfold u64; lia)). cbn [obind record_of r_withdrawals_root].
  destruct (decide (b_withdrawals_root b = root)) as [He|Hne].
  { eexists. split; [done|]. cbn. rewrite Hk. cbn. split_and!; [lia|lia|by rewrite He|lia]. }
  destruct IH as (o & Ho & Hspec); [intros; apply Hb; lia|lia|]. exists o. split; [done|].
  assert (Hkr : (b_withdrawals_root <$> batches s !! Z.of_nat k) ≠ Some root) by (rewrite Hk; cbn; congruence).
  destruct o as [i|].
  - destruct Hspec as (? & ? & Hj). split_and!; [lia|lia|done|]. intros j Hjr.
    destruct (decide (j = Z.of_nat k)) as [->|]; [done|]. apply Hj. lia.
  - intros j Hjr. destruct (decide (j = Z.of_nat k)) as [->|]; [done|]. apply Hspec. lia.
Qed.

Lemma count_bound : count_on ≤ u64_max.
Proof.
  unfold count_on. destruct (l1_config s) as [c|] eqn:Hc; [|done]. apply (sv_config_wf Hserves c Hc).
Qed.

(** The newest batch that carries a root, or none when no batch does. *)
Lemma find_newest empties ps root :
  l1_reach empties s ps →
  ∃ o, find_batch_for_withdrawals_root cl w root = Ok o ∧
      match o with
      | Some i => (b_withdrawals_root <$> batches s !! i) = Some root
                  ∧ ∀ j, i < j → (b_withdrawals_root <$> batches s !! j) ≠ Some root
      | None => ∀ j, (b_withdrawals_root <$> batches s !! j) ≠ Some root
      end.
Proof.
  intros [_ _ _ _ _ _ _ Hb _ Hpos _]%l1_reach_inv. fold count_on in Hb, Hpos. pose proof count_bound.
  unfold find_batch_for_withdrawals_root. rewrite config_count. cbn [obind].
  destruct (find_loop root (Z.to_nat count_on)) as (o & Ho & Hspec).
  { intros i Hi. apply Hb. lia. }
  { lia. }
  exists o. split; [done|].
  assert (Hout : ∀ j, ¬ (0 ≤ j < count_on) → (b_withdrawals_root <$> batches s !! j) ≠ Some root).
  { intros j Hj He. apply Hj, Hb. destruct (batches s !! j); [by eexists|done]. }
  destruct o as [i|].
  + destruct Hspec as (? & ? & Hj). split; [done|]. intros j Hij.
    destruct (decide (j < count_on)); [apply Hj; lia|apply Hout; lia].
  + intros j. destruct (decide (0 ≤ j < count_on)); [apply Hspec; lia|by apply Hout].
Qed.

(** On any reachable settlement state the client resumes after the last
    settled slot (at slot 1 when nothing was settled) and with the next number,
    and finds for a withdrawals root the newest batch that carries it. *)
Theorem client_reads_settlement empties ps :
  l1_reach empties s ps →
  rpc_latest_batch_no cl w = Ok (if decide (count_on = 0) then None else Some (count_on - 1))
  ∧ rpc_resume_cursor_slot cl w
    = Ok (match batches s !! (count_on - 1) with Some b => wadd (b_last_slot b) 1 | None => 1 end)
  ∧ ∀ root, ∃ o, find_batch_for_withdrawals_root cl w root = Ok o ∧
      match o with
      | Some i => (b_withdrawals_root <$> batches s !! i) = Some root
                  ∧ ∀ j, i < j → (b_withdrawals_root <$> batches s !! j) ≠ Some root
      | None => ∀ j, (b_withdrawals_root <$> batches s !! j) ≠ Some root
      end.
Proof.
  intros Hr. pose proof count_bound as Hle. pose proof Hr as [_ _ _ _ _ _ _ Hb _ Hpos _]%l1_reach_inv.
  fold count_on in Hb, Hpos.
  split_and!.
  - unfold rpc_latest_batch_no. by rewrite config_count.
  - unfold rpc_resume_cursor_slot. rewrite config_count. cbn [obind]. case_decide as Hz.
    + destruct (batches s !! (count_on - 1)) as [b|] eqn:Hlast; [|done].
      assert (Hs : is_Some (batches s !! (count_on - 1))) by (rewrite Hlast; by eexists). apply Hb in Hs. lia.
    + destruct (proj2 (Hb (count_on - 1))) as [b Hlast]; [lia|].
      rewrite (sv_batch Hserves) by (unfold u64; lia). rewrite Hlast. cbn [fmap option_fmap option_map obind ok_or].
      destruct (batch_account_last b (sv_batch_wf Hserves _ _ Hlast)) as [Hl Hv].
      rewrite decide_False by lia. by rewrite Hv.
  - intros root. by apply (find_newest empties ps).
Qed.

End Layouts.

(** ** Recovery from the data-availability log *)

Section DaLog.
Context `{B3 : Blake3} `{TX : SolanaTx} `{SA : SolanaAddresses} `{S2 : Sha256} `{T : TextCodecs}.
Context `{Z0 : Zstd} `{!Bincode BatchPayload}.
Context {W : Type} `{RPC : !JsonRpc W}.
Context (cl : RpcL1Client) (w : W).

(** A transaction that names the log program, as the ledger has it. *)
Record LogTx := {
  lt_signature : bytes;
  lt_failed : bool;
  lt_view : TxView;
}.

Definition entry_of (x : LogTx) : SigEntry :=
  {| se_failed := lt_failed x; se_signature := Some (lt_signature x) |}.

(** The part of a history (newest first) that is older than a signature. *)
Fixpoint older_than (sig : bytes) (h : list LogTx) : list LogTx :=
  match h with
  | [] => []
  | x :: h => if decide (lt_signature x = sig) then h else older_than sig h
  end.

Definition page (h : list LogTx) (before : option bytes) : list LogTx :=
  match before with None => h | Some sig => older_than sig h end.

(** The RPC node answers from the ledger's history of the log program. *)
Record serves_log (h : list LogTx) : Prop := {
  sl_page before : get_signatures w (da_log_program cl) PAGE_LIMIT None before
                   = Ok (take PAGE_LIMIT (entry_of <$> page h before));
  sl_view x : x ∈ h → get_transaction_view w (lt_signature x) = Ok (lt_view x);
  sl_nodup : NoDup (lt_signature <$> h);
}.

Definition chunk_in (x : LogTx) : option (Z * Z * bytes) :=
  if lt_failed x then None
  else match tv_message (lt_view x) with
       | None => None
       | Some (keys, ixs) => head (omap (parse_chunk_ix cl keys) ixs)
       end.

(** The chunks the log holds for a batch, newest first. *)
Definition posted_chunks (h : list LogTx) (no : Z) : list (Z * bytes) :=
  omap (λ c, if decide (c.1.1 = no) then Some (c.1.2, c.2) else None) (omap chunk_in h).

Context (h : list LogTx) (Hlog : serves_log h).

Lemma page_limit_pos : (0 < PAGE_LIMIT)%nat.
Proof. apply Nat.lt_0_succ. Qed.

Lemma collect_page l : ∀ m, (∀ x, x ∈ l → x ∈ h) →
  ofold (collect_chunk cl w) m (entry_of <$> l) = Ok (fold_left push_chunk (omap chunk_in l) m).
Proof.
  induction l as [|x l IH]; intros m Hin; [done|]. cbn [fmap list_fmap ofold omap list_omap].
  unfold collect_chunk at 1, chunk_in at 1. cbn [entry_of se_failed se_signature].
  assert (Hl : ∀ y, y ∈ l → y ∈ h) by (intros; apply Hin; by right).
  destruct (lt_failed x); [cbn [obind]; by apply IH|].
  unfold fetch_post_chunk. rewrite (sl_view h Hlog x) by (apply Hin; left). cbn [obind].
  destruct (tv_message (lt_view x)) as [[keys ixs]|]; cbn [obind]; [|by apply IH].
  destruct (head (omap (parse_chunk_ix cl keys) ixs)) as [c|]; by apply IH.
Qed.

Lemma older_than_app pre x rest :
  NoDup (lt_signature <$> pre ++ x :: rest) → older_than (lt_signature x) (pre ++ x :: rest) = rest.
Proof.
  induction pre as [|y pre IH]; cbn [app fmap list_fmap older_than]; intros Hnd.
  { by rewrite decide_True. }
  apply list.NoDup_cons in Hnd as [Hni Hnd]. rewrite decide_False; [by apply IH|].
  intros He. apply Hni. rewrite He, fmap_app. apply elem_of_app. right. left.
Qed.

(** Enough fuel is one page more than the history fills; the loop then visits
    the whole history. *)
Lemma chunk_pages_all fuel : ∀ pre rest before m,
  h = pre ++ rest → page h before = rest →
  chunk_pages cl w fuel before m
  = if decide (length rest < PAGE_LIMIT * fuel)%nat
    then Some (Ok (fold_left push_chunk (omap chunk_in rest) m)) else None.
Proof.
  pose proof page_limit_pos as Hpos.
  induction fuel as [|fuel IH]; intros pre rest before m Hh Hp; cbn [chunk_pages].
  { by rewrite decide_False by lia. }
  rewrite (sl_page h Hlog), Hp, <- fmap_take.
  destruct (decide (entry_of <$> take PAGE_LIMIT rest = [])) as [Hnil|Hne].
  { apply fmap_nil_inv in Hnil. assert (Hr : rest = []).
    { destruct rest as [|x rest]; [done|]. apply (f_equal length) in Hnil. rewrite length_take in Hnil. cbn [length] in Hnil. lia. }
    subst rest. rewrite Hr.
    rewrite decide_True by (cbn [length]; lia). done. }
  rewrite collect_page by (intros x Hx; rewrite Hh, <- (take_drop PAGE_LIMIT rest); rewrite !elem_of_app; tauto).
  rewrite length_fmap, length_take. destruct (decide (length rest < PAGE_LIMIT)%nat) as [Hlt|Hge].
  { rewrite decide_True by lia. rewrite decide_True by lia. by rewrite take_ge by lia. }
  rewrite decide_False by lia.
  destruct (list.last (take PAGE_LIMIT rest)) as [x|] eqn:Hlast.
  2:{ apply last_None in Hlast. apply (f_equal length) in Hlast. rewrite length_take in Hlast. cbn [length] in Hlast. lia. }
  apply last_Some in Hlast as [l Hl].
  assert (Hsplit : h = (pre ++ l) ++ x :: drop PAGE_LIMIT rest).
  { rewrite Hh. rewrite <- (take_drop PAGE_LIMIT rest) at 1. rewrite Hl, <- !app_assoc. done. }
  rewrite fmap_last, Hl, last_snoc. cbn [fmap option_fmap option_map mbind option_bind entry_of se_signature].
  rewrite <- Hl. rewrite (IH (pre ++ take PAGE_LIMIT rest) (drop PAGE_LIMIT rest)).
  - rewrite length_drop. destruct (decide (length rest < PAGE_LIMIT * S fuel)%nat) as [Hf|Hf].
    + rewrite decide_True by lia. rewrite <- fold_left_app, <- omap_app, take_drop. done.
    + by rewrite decide_False by lia.
  - by rewrite <- app_assoc, take_drop.
  - cbn [page]. rewrite Hsplit at 1. apply older_than_app. rewrite <- Hsplit. apply (sl_nodup h Hlog).
Qed.

(** C33: the scan of the log ends. Over an RPC node that answers from the ledger
    the paging loop returns after exactly one request more than the history
    fills pages, neither earlier nor later, with every chunk of the history
    collected once; allowed more requests it makes no further one. *)
Theorem log_scan_terminates fuel :
  chunk_pages cl w fuel None ∅
  = if decide (length h / PAGE_LIMIT < fuel)%nat
    then Some (Ok (fold_left push_chunk (omap chunk_in h) ∅)) else None.
Proof.
  rewrite (chunk_pages_all _ [] h) by done. pose proof page_limit_pos as Hpos.
  pose proof (Nat.div_mod_eq (length h) PAGE_LIMIT). pose proof (Nat.mod_upper_bound (length h) PAGE_LIMIT).
  apply decide_ext. nia.
Qed.

Lemma pushed_chunks cs no : ∀ m,
  default [] (fold_left push_chunk cs m !! no)
  = default [] (m !! no) ++ omap (λ c, if decide (c.1.1 = no) then Some (c.1.2, c.2) else None) cs.
Proof.
  induction cs as [|c cs IH]; intros m; cbn [fold_left omap list_omap]; [by rewrite app_nil_r|].
  rewrite IH. unfold push_chunk. destruct (decide (c.1.1 = no)) as [<-|Hne].
  - rewrite lookup_insert_eq. cbn [default from_option id]. by rewrite <- app_assoc.
  - by rewrite lookup_insert_ne.
Qed.

(** ** Reassembly *)

Definition indexed (cs : list bytes) : list (Z * bytes) := imap (λ i c, (Z.of_nat i, c)) cs.

Lemma indexed_sorted cs : ∀ k,
  StronglySorted (λ a b, chunk_le a b = true) (imap (λ i c, (Z.of_nat (k + i), c)) cs).
Proof.
  induction cs as [|c cs IH]; intros k; cbn [imap]; [constructor|]. constructor.
  - specialize (IH (S k)). erewrite imap_ext; [exact IH|]. intros i x _. cbn. do 2 f_equal. lia.
  - apply list.Forall_forall. intros x (i & Hi)%list_elem_of_lookup. rewrite list_lookup_imap in Hi.
    apply fmap_Some in Hi as (y & _ & ->). unfold chunk_le, compose. cbn [fst]. apply Z.leb_le. lia.
Qed.

Lemma reassemble cs l :
  l ≡ₚ indexed cs → sort_by chunk_le l = indexed cs.
Proof.
  intros Hp. eapply (StronglySorted_unique_strong (λ a b, chunk_le a b = true)).
  - intros x y Hx Hy H1 H2. rewrite sort_by_perm, Hp in Hx.
    apply list_elem_of_lookup in Hx as [i Hi], Hy as [j Hj]. unfold indexed in Hi, Hj.
    rewrite list_lookup_imap in Hi, Hj. apply fmap_Some in Hi as (a & Ha & ->), Hj as (b & Hb & ->).
    unfold chunk_le in H1, H2. cbn in H1, H2. assert (i = j) as <- by lia. congruence.
  - apply sort_by_sorted; unfold chunk_le; intros; lia.
  - apply (indexed_sorted cs 0).
  - by rewrite sort_by_perm.
Qed.

Lemma indexed_data cs : (indexed cs).*2 = cs.
Proof.
  apply list_eq. intros i. rewrite list_lookup_fmap. unfold indexed. rewrite list_lookup_imap.
  by destruct (cs !! i).
Qed.

Lemma ofold_append {E A B} (f : list B → A → outcome E (list B)) (r : A → B) l : ∀ acc,
  (∀ x acc, x ∈ l → f acc x = Ok (acc ++ [r x])) → ofold f acc l = Ok (acc ++ (r <$> l)).
Proof.
  induction l as [|x l IH]; intros acc Hf; cbn [ofold fmap list_fmap]; [by rewrite app_nil_r|].
  rewrite Hf by left. cbn [obind]. rewrite IH; [by rewrite <- app_assoc|]. intros. apply Hf. by right.
Qed.

Context (s : L1State) (Hserves : serves cl w s).

(** Recovery from L1 alone: when the log holds every chunk of every batch
    exactly once, in any order and among any other transactions, and the
    records commit to the payloads, the client reassembles exactly the payloads
    that were posted, with one page more than the log fills as its fuel. *)
Theorem da_recovery (batch : Z → Batch) (payload : Z → BatchPayload) :
  (∀ no, 0 ≤ no < count_on s → batches s !! no = Some (batch no)
     ∧ b_da_hash (batch no) = da_hash (compress (payload no))
     ∧ posted_chunks h no ≡ₚ indexed (chunk_payload (compress (payload no)))) →
  count_on s ≤ u64_max →
  fetch_settlement_batches cl w (S (length h / PAGE_LIMIT))
  = Some (Ok ((λ no, {| rb_record := record_of (batch no); rb_payload := payload no |})
              <$> seqZ 0 (count_on s))).
Proof.
  intros Hb Hle. unfold fetch_settlement_batches. rewrite (config_count cl w s Hserves).
  destruct (decide (count_on s = 0)) as [Hz|Hz]; [by rewrite Hz|].
  rewrite (chunk_pages_all _ [] h) by done. rewrite decide_True.
  2:{ pose proof (Nat.div_mod_eq (length h) PAGE_LIMIT). pose proof (Nat.mod_upper_bound (length h) PAGE_LIMIT).
      pose proof page_limit_pos. lia. }
  f_equal. cbn [obind].
  rewrite (ofold_append _ (λ no, {| rb_record := record_of (batch no); rb_payload := payload no |})); [done|].
  intros no acc Hno%elem_of_seqZ. destruct (Hb no) as (Hbatch & Hhash & Hperm); [lia|].
  unfold recover_batch. rewrite (fetch_record cl w s Hserves no (batch no)) by (done || (unfold u64; lia)).
  cbn [obind record_of r_da_hash].
  rewrite pushed_chunks, lookup_empty. cbn [default from_option id app]. fold (posted_chunks h no).
  rewrite (reassemble _ _ Hperm), indexed_data, chunk_payload_concat, Hhash.
  rewrite decide_False by (intros Hn; by apply Hn). by rewrite decompress_compress.
Qed.

Lemma ofold_visits {E A B} (f : A → B → outcome E A) l : ∀ a r x,
  ofold f a l = Ok r → x ∈ l → ∃ a1 a2, f a1 x = Ok a2.
Proof.
  induction l as [|y l IH]; intros a r x H Hx; [by apply not_elem_of_nil in Hx|].
  cbn [ofold] in H. apply obind_Ok in H as (a' & Hy & H). apply elem_of_cons in Hx as [->|Hx]; eauto.
Qed.

Lemma length_concat_perm {A} (l l' : list (list A)) :
  l ≡ₚ l' → length (concat l) = length (concat l').
Proof. induction 1; cbn; rewrite ?length_app in *; lia. Qed.

(** C37: one chunk too many and recovery is lost: the log takes chunks from
    anyone, and the batcher posts a batch's chunks again when a post fails
    half-way, but the client joins all the chunks it finds. If a settled batch
    has any further non-empty chunk in the log, recovery never succeeds,
    unless the joined bytes collide with the payload under the hash. *)
Theorem extra_chunk_breaks_recovery no b p extra fuel :
  0 ≤ no < count_on s → count_on s ≤ u64_max → batches s !! no = Some b →
  b_da_hash b = da_hash (compress p) →
  posted_chunks h no ≡ₚ indexed (chunk_payload (compress p)) ++ extra → concat extra.*2 ≠ [] →
  (∀ bs, fetch_settlement_batches cl w fuel ≠ Some (Ok bs))
  ∨ collision_in [DA_DOMAIN ++ concat (sort_by chunk_le (posted_chunks h no)).*2; DA_DOMAIN ++ compress p].
Proof.
  intros Hno Hle Hb Hhash Hperm Hne. set (joined := concat (sort_by chunk_le (posted_chunks h no)).*2).
  assert (Hlen : joined ≠ compress p).
  { intros He. apply (f_equal length) in He. unfold joined in He.
    rewrite (length_concat_perm _ ((indexed (chunk_payload (compress p)) ++ extra).*2)) in He
      by (by rewrite sort_by_perm, Hperm).
    rewrite fmap_app, indexed_data, concat_app, length_app, chunk_payload_concat in He.
    destruct (concat extra.*2); [done|cbn in He; lia]. }
  destruct (decide (da_hash joined = da_hash (compress p))) as [Heq|Hneq].
  { right. unfold da_hash, blake3_32 in Heq. apply blake3_eq in Heq as [Heq|Hc]; [|done].
    by apply app_inv_head in Heq. }
  left. intros bs Hf. unfold fetch_settlement_batches in Hf. rewrite (config_count cl w s Hserves) in Hf.
  rewrite decide_False in Hf by lia. rewrite (chunk_pages_all _ [] h) in Hf by done.
  destruct (decide _) in Hf; [|done]. injection Hf as Hf. cbn [obind] in Hf.
  apply (ofold_visits _ _ _ _ no) in Hf as (a1 & a2 & Hf); [|apply elem_of_seqZ; lia].
  unfold recover_batch in Hf. rewrite (fetch_record cl w s Hserves no b) in Hf by (done || (unfold u64; lia)).
  cbn [obind record_of r_da_hash] in Hf.
  rewrite pushed_chunks, lookup_empty in Hf. cbn [default from_option id app] in Hf.
  fold (posted_chunks h no) in Hf. fold joined in Hf. by rewrite decide_True in Hf by congruence.
Qed.

End DaLog.

(** ** Witnesses *)

Module Example.
#[local] Existing Instances Toy.blake3_toy Toy.solana_toy WrappedSpl.Example.addresses_toy.
#[local] Existing Instances Settlement.Example.runtime_toy StoreToy.block_eq_dec StoreToy.block_countable.

#[local] Instance sha_toy : Sha256.
Proof. refine {| sha256 := Toy.digest |}. intros. apply length_le_bytes. Defined.
#[local] Instance text_toy : TextCodecs.
Proof. by refine {| b64_encode := id; b64_decode := Some; b58_encode := id; b58_decode := Some |}; [..|intros b; apply Nat.le_refl]. Defined.
#[local] Instance zstd_toy : Zstd.
Proof. by refine {| encode_all := id; decode_all := Some |}. Defined.

#[local] Instance BatchPayload_eq_dec : EqDecision BatchPayload.
Proof. solve_decision. Defined.
#[local] Instance BatchPayload_countable : Countable BatchPayload.
Proof.
  refine (inj_countable' (λ p, (bp_batch_no p, bp_first_slot p, bp_last_slot p, bp_blocks p))
            (λ '(a, b, c, d), Build_BatchPayload a b c d) _).
  by intros [].
Defined.
#[local] Instance payload_codec : Bincode BatchPayload := Toy.bincode_toy BatchPayload.

Definition pk (n : Z) : Pubkey := le_bytes 32 n.

(** An RPC node that answers from a settlement state and a log. *)
#[local] Instance rpc_toy : JsonRpc (L1State * list LogTx) := {|
  system_program := pk 100; compute_budget_program := pk 101; address_text k := k;
  get_balance _ _ := Ok (Some 1);
  get_account_info w k :=
    if decide (take 5 k = BATCH_SEED) then Ok (batch_account <$> batches w.1 !! le_val (slice 5 13 k))
    else Ok (config_account <$> l1_config w.1);
  get_signatures w _ n _ before := Ok (take n (entry_of <$> page w.2 before));
  get_transaction_view w sig :=
    Ok (default {| tv_logs := []; tv_message := None |}
          (lt_view <$> head (filter (λ x, lt_signature x = sig) w.2)));
  send_transaction w _ := (w, Ok []);
  get_signature_status _ _ _ := Ok Confirmed;
|}.

Definition cl : RpcL1Client := new_client (pk 8) (pk 50) (pk 51).

Lemma toy_serves s h :
  (∀ c, l1_config s = Some c → config_wf c) → map_Forall (λ _ b, batch_wf b) (batches s) →
  serves cl (s, h) s.
Proof.
  intros Hc Hb. split; [|intros k Hk|done|done].
  - cbn [get_account_info rpc_toy fst]. rewrite decide_False; [done|]. vm_compute. discriminate.
  - assert (Hpda : batch_pda cl k = BATCH_SEED ++ le_bytes 8 k ++ take 19 (pk 50)).
    { unfold batch_pda. cbn [find_program_address WrappedSpl.Example.addresses_toy concat app].
      rewrite app_nil_r, <- app_assoc. rewrite take_app_ge by (vm_compute; lia).
      reflexivity. }
    rewrite Hpda. cbn [get_account_info rpc_toy fst]. rewrite decide_True by (by apply take_app_length').
    do 3 f_equal. rewrite slice_app_r by (vm_compute; lia). change (length BATCH_SEED) with 5%nat.
    rewrite slice_app_l by (rewrite length_le_bytes; lia).
    rewrite slice_all; [|done|by rewrite length_le_bytes]. by apply le64_roundtrip.
Qed.

Lemma client_reads_settlement_witness :
  let s := Settlement.Example.after_history (pk 2) in
  rpc_resume_cursor_slot cl (s, []) = Ok 5
  ∧ ∃ o, find_batch_for_withdrawals_root cl (s, []) (pk 2) = Ok o
         ∧ match o with Some i => (b_withdrawals_root <$> batches s !! i) = Some (pk 2) | None => False end.
Proof.
  cbv zeta. set (s := Settlement.Example.after_history (pk 2)).
  assert (Hs : serves cl (s, []) s).
  { apply toy_serves.
    - intros c [= <-]. split; [reflexivity|unfold u64, u64_max; cbn; lia].
    - apply map_Forall_singleton. repeat split; try reflexivity; cbn; unfold u64_max, u32_max; lia. }
  pose proof (Settlement.Example.history_reachable _ _ (Settlement.Example.history_ok (pk 2))) as Hr.
  destruct (client_reads_settlement cl (s, []) s Hs _ [] Hr) as (_ & Hres & Hfind).
  assert (Hb : batches s !! 0 = Some (default {| b_batch_no := 0; b_first_slot := 0; b_last_slot := 0;
     b_state_root := []; b_withdrawals_root := []; b_da_hash := []; b_chunk_count := 0; posted_at := 0 |}
       (batches s !! 0))) by reflexivity.
  split; [rewrite Hres; reflexivity|]. destruct (Hfind (pk 2)) as (o & Ho & Hspec). exists o.
  split; [exact Ho|]. destruct o as [i|]; [exact (proj1 Hspec)|].
  apply (Hspec 0). reflexivity.
Defined.

Definition payload : BatchPayload := {| bp_batch_no := 0; bp_first_slot := 1; bp_last_slot := 2; bp_blocks := [] |}.
Definition batch : Batch :=
  {| b_batch_no := 0; b_first_slot := 1; b_last_slot := 2; b_state_root := pk 1; b_withdrawals_root := pk 2;
     b_da_hash := da_hash (compress payload); b_chunk_count := 1; posted_at := 5 |}.
Definition settled : L1State :=
  {| l1_config := Some {| cfg_authority := pk 8; batch_count := 1; total_deposited := 0; bump := 255; vault_bump := 254 |};
     batches := {[ 0 := batch ]}; claims := ∅; vault_lamports := 0; vault_tokens := ∅; l1_events := [] |}.

(** A transaction carrying the payload's only chunk. *)
Definition chunk_tx (sig : bytes) : LogTx :=
  {| lt_signature := sig; lt_failed := false;
     lt_view := {| tv_logs := [];
                   tv_message := Some ([Some (pk 51)],
                     [{| ti_program_index := Some 0;
                         ti_data := Some (i_data (ix_post_chunk cl 0 0 1 (compress payload))) |}]) |} |}.
Definition other_tx : LogTx :=
  {| lt_signature := bstr "other"; lt_failed := false; lt_view := {| tv_logs := []; tv_message := None |} |}.

Definition log : list LogTx := [other_tx; chunk_tx (bstr "a")].
Definition reposted : list LogTx := [chunk_tx (bstr "b"); other_tx; chunk_tx (bstr "a")].

Lemma settled_serves h : serves cl (settled, h) settled.
Proof.
  apply toy_serves.
  - intros c [= <-]. split; [reflexivity|unfold u64, u64_max; cbn; lia].
  - apply map_Forall_singleton. repeat split; try reflexivity; cbn; unfold u64_max, u32_max; lia.
Qed.

Lemma log_serves s h :
  NoDup (lt_signature <$> h) → serves_log cl (s, h) h.
Proof.
  intros Hnd. split; [done| |done]. intros x Hx. cbn [get_transaction_view rpc_toy snd]. do 2 f_equal.
  assert (Hh : filter (λ y, lt_signature y = lt_signature x) h = [x]).
  { apply list_elem_of_split in Hx as (l1 & l2 & ->). rewrite fmap_app, fmap_cons in Hnd.
    apply list.NoDup_app in Hnd as (_ & Hd & Hn2). apply list.NoDup_cons in Hn2 as [Hn2 _].
    rewrite list.filter_app, filter_cons, decide_True by done.
    assert (He : ∀ l, lt_signature x ∉ lt_signature <$> l → filter (λ y, lt_signature y = lt_signature x) l = []).
    { intros l Hl. apply elem_of_nil_inv. intros y [Hy Hin]%list_elem_of_filter. apply Hl. rewrite <- Hy.
      by apply list_elem_of_fmap_2. }
    rewrite !He; [done|done|]. intros Hin. apply (Hd _ Hin). left. }
  rewrite Hh. done.
Qed.

Lemma log_nodup : NoDup (lt_signature <$> log).
Proof. apply (bool_decide_eq_true_1 _). vm_compute. reflexivity. Qed.
Lemma reposted_nodup : NoDup (lt_signature <$> reposted).
Proof. apply (bool_decide_eq_true_1 _). vm_compute. reflexivity. Qed.

Lemma log_scan_terminates_witness :
  chunk_pages cl (settled, log) 0 None ∅ = None
  ∧ is_Some (chunk_pages cl (settled, log) 1 None ∅)
  ∧ chunk_pages cl (settled, log) 7 None ∅ = chunk_pages cl (settled, log) 1 None ∅.
Proof.
  pose proof (log_scan_terminates cl (settled, log) log (log_serves settled log log_nodup)) as H.
  assert (Hz : (length log / PAGE_LIMIT)%nat = 0%nat) by (apply Nat.div_small; cbn; unfold PAGE_LIMIT; lia).
  rewrite !H, Hz. split; [reflexivity|]. split; [by eexists|reflexivity].
Defined.

Lemma da_recovery_witness :
  fetch_settlement_batches cl (settled, log) 1
  = Some (Ok [{| rb_record := record_of batch; rb_payload := payload |}]).
Proof.
  refine (da_recovery cl (settled, log) log (log_serves settled log log_nodup) settled (settled_serves log)
            (λ _, batch) (λ _, payload) _ _).
  - intros no Hno. assert (no = 0) as -> by (cbn in Hno; lia).
    split; [reflexivity|]. split; [reflexivity|]. vm_compute. reflexivity.
  - cbn. unfold u64_max. lia.
Defined.

Lemma extra_chunk_breaks_recovery_witness :
  (∀ bs, fetch_settlement_batches cl (settled, reposted) 1 ≠ Some (Ok bs))
  ∨ collision_in [DA_DOMAIN ++ concat (sort_by chunk_le (posted_chunks cl reposted 0)).*2;
                  DA_DOMAIN ++ compress payload].
Proof.
  refine (extra_chunk_breaks_recovery cl (settled, reposted) reposted (log_serves settled reposted reposted_nodup)
            settled (settled_serves reposted) 0 batch payload [(0, compress payload)] 1 _ _ eq_refl eq_refl _ _).
  - cbn. lia.
  - cbn. unfold u64_max. lia.
  - vm_compute. reflexivity.
  - vm_compute. discriminate.
Defined.

End Example.
