(* ===== verification/L1Transport.v ===== *)
(** * The L1 client's JSON-RPC transport

    Models the transport of [chain/zul-bridge/src/rpc.rs]: the requests the
    client sends, how it reads the answers, and [RpcL1Client] as an
    implementation of the trait [L1Client]. HTTP is an interface: a request body
    goes out and an answer, if any, comes back; only [sendTransaction] changes
    anything on the other side. Signing and serializing a transaction is a
    parameter.

    The theorem puts the client on top of JSON: over an RPC node that answers as
    the Solana documentation says, the decoded answers are the data the node
    holds, which is what the theorems of [L1RpcProps] ask of it. *)

From S2P Require Import Prelude External Json Hash Account Sorting Block WrappedSpl NodeBridge NodeLedger Settlement NodeChain Recover Batcher L1Rpc L1RpcProps.

Inductive Answer := Unreachable | NotJson | Answered (v : Value).

Class Http (W : Type) := {
  (** the answer to a request made after some seconds *)
  http_read : W → nat → Value → Answer;
  http_send : W → Value → W * Answer;
}.

(** [Value::get] with an index. *)
Definition get_index (i : nat) (v : Value) : option Value :=
  match v with JArr l => l !! i | _ => None end.

Definition jtext (s : string) : Value := JStr (bstr s).

Definition request (method : string) (params : list Value) : Value :=
  JObj [("jsonrpc", jtext "2.0"); ("id", JNum 1); ("method", jtext method); ("params", JArr params)].

(** The end of [rpc]: an [error] wins over a [result]. *)
Definition rpc_result (method : string) (a : Answer) : outcome L1Error Value :=
  match a with
  | Unreachable => Err (Rpc (method +:+ ": no response"))
  | NotJson => Err (Rpc (method +:+ ": bad JSON"))
  | Answered v =>
      match get_field "error" v with
      | Some _ => Err (Rpc (method +:+ ": error"))
      | None => Ok (default JNull (get_field "result" v))
      end
  end.

(** ** Reading answers *)

(** [entry.get("err").map(|e| !e.is_null()).unwrap_or(false)] *)
Definition has_error (v : Value) : bool :=
  match get_field "err" v with Some e => negb (is_null e) | None => false end.

Definition decode_entry (v : Value) : SigEntry :=
  {| se_failed := has_error v; se_signature := get_field "signature" v ≫= as_str |}.

Definition decode_entries (result : Value) : list SigEntry := decode_entry <$> default [] (as_array result).

Definition decode_instruction (v : Value) : TxInstruction :=
  {| ti_program_index := get_field "programIdIndex" v ≫= as_u64; ti_data := get_field "data" v ≫= as_str |}.

Definition decode_logs (tx : Value) : list (option bytes) :=
  as_str <$> default [] ((get_field "meta" tx ≫= get_field "logMessages") ≫= as_array).

Definition decode_message (message : Value) : list (option bytes) * list TxInstruction :=
  (as_str <$> default [] (get_field "accountKeys" message ≫= as_array),
   decode_instruction <$> default [] (get_field "instructions" message ≫= as_array)).

Definition decode_tx (tx : Value) : TxView :=
  {| tv_logs := decode_logs tx;
     tv_message := decode_message <$> (get_field "transaction" tx ≫= get_field "message") |}.

Definition decode_status (result : Value) : Confirmation :=
  match get_field "value" result ≫= get_index 0 with
  | None | Some JNull => NoStatus
  | Some status =>
      if has_error status then Failed
      else match get_field "confirmationStatus" status ≫= as_str with
           | Some s => if decide (s = bstr "confirmed" ∨ s = bstr "finalized") then Confirmed else Pending
           | None => Pending
           end
  end.

Definition confirmed_opts : list (string * Value) := [("commitment", jtext "confirmed")].

Definition opt_field (key : string) (v : option bytes) : list (string * Value) :=
  match v with Some s => [(key, JStr s)] | None => [] end.

Section Transport.
Context `{B3 : Blake3} `{TX : SolanaTx} `{SA : SolanaAddresses} `{S2 : Sha256} `{T : TextCodecs}.
Context `{Z0 : Zstd} `{!Bincode BatchPayload}.
Context {W : Type} `{HTTP : !Http W}.
(** The ids of the system and compute-budget programs, and the wire bytes of a
    transaction of the instructions signed by the client. *)
Context (system_id budget_id : Pubkey) (signed_wire : list Instruction → H256 → bytes).

Definition rpc_call (w : W) (seconds : nat) (method : string) (params : list Value) : outcome L1Error Value :=
  rpc_result method (http_read w seconds (request method params)).

Definition latest_blockhash (w : W) : outcome L1Error H256 :=
  let? result := rpc_call w 0 "getLatestBlockhash" [JObj confirmed_opts] in
  let? s := ok_or ((get_field "value" result ≫= get_field "blockhash") ≫= as_str)
              (Rpc "getLatestBlockhash: missing blockhash") in
  ok_or (b58_fixed 32 s) (Rpc "bad blockhash").

Definition balance_params (k : Pubkey) : list Value := [JStr (b58_encode k); JObj confirmed_opts].

Definition balance_of (w : W) (k : Pubkey) : outcome L1Error (option Z) :=
  let? result := rpc_call w 0 "getBalance" (balance_params k) in
  Ok (get_field "value" result ≫= as_u64).

Definition account_params (k : Pubkey) : list Value :=
  [JStr (b58_encode k); JObj ([("encoding", jtext "base64")] ++ confirmed_opts)].

Definition account_data (w : W) (k : Pubkey) : outcome L1Error (option bytes) :=
  let? result := rpc_call w 0 "getAccountInfo" (account_params k) in
  match get_field "value" result with
  | None | Some JNull => Ok None
  | Some value =>
      let? encoded := ok_or ((get_field "data" value ≫= get_index 0) ≫= as_str)
                        (Rpc "getAccountInfo: unexpected data shape") in
      let? d := ok_or (b64_decode encoded) (Rpc "account data base64") in
      Ok (Some d)
  end.

Definition page_params (k : Pubkey) (limit : nat) (until before : option bytes) : list Value :=
  [JStr (b58_encode k);
   JObj ([("limit", JNum (Z.of_nat limit))] ++ confirmed_opts ++ opt_field "until" until ++ opt_field "before" before)].

Definition signatures_page (w : W) (k : Pubkey) (limit : nat) (until before : option bytes)
    : outcome L1Error (list SigEntry) :=
  let? result := rpc_call w 0 "getSignaturesForAddress" (page_params k limit until before) in
  Ok (decode_entries result).

Definition tx_params (signature : bytes) : list Value :=
  [JStr signature;
   JObj ([("encoding", jtext "json")] ++ confirmed_opts ++ [("maxSupportedTransactionVersion", JNum 0)])].

Definition transaction_view (w : W) (signature : bytes) : outcome L1Error TxView :=
  let? tx := rpc_call w 0 "getTransaction" (tx_params signature) in Ok (decode_tx tx).

Definition send_params (wire : bytes) : list Value :=
  [JStr (b64_encode wire); JObj [("encoding", jtext "base64"); ("preflightCommitment", jtext "confirmed")]].

(** [send_and_confirm] up to the confirmation. *)
Definition send_wire (w : W) (ixs : list Instruction) : W * outcome L1Error bytes :=
  match latest_blockhash w with
  | Ok blockhash =>
      let '(w, a) := http_send w (request "sendTransaction" (send_params (signed_wire ixs blockhash))) in
      (w, let? result := rpc_result "sendTransaction" a in
          ok_or (as_str result) (Rpc "sendTransaction: no signature"))
  | Err e => (w, Err e)
  | Panic => (w, Panic)
  end.

Definition status_params (signature : bytes) : list Value :=
  [JArr [JStr signature]; JObj [("searchTransactionHistory", JBool true)]].

(** One attempt of [confirm], a second after the one before. *)
Definition signature_status_at (w : W) (signature : bytes) (attempt : nat) : outcome L1Error Confirmation :=
  let? result := rpc_call w (S attempt) "getSignatureStatuses" (status_params signature) in
  Ok (decode_status result).

#[export] Instance transport : JsonRpc W := {|
  system_program := system_id;
  compute_budget_program := budget_id;
  address_text := b58_encode;
  L1Rpc.get_balance := balance_of;
  L1Rpc.get_account_info := account_data;
  get_signatures := signatures_page;
  get_transaction_view := transaction_view;
  L1Rpc.send_transaction := send_wire;
  get_signature_status := signature_status_at;
|}.

(** The transactions of users, submitted by the client's authority. *)
Definition rpc_deposit_sol (cl : RpcL1Client) (w : W) (amount : Z) (l2_recipient : Pubkey) : W * outcome L1Error bytes :=
  send_and_confirm w (ix_deposit_sol cl amount l2_recipient).

Definition rpc_deposit_spl (cl : RpcL1Client) (w : W) (amount : Z) (mint token_program l2_recipient : Pubkey)
    : W * outcome L1Error bytes :=
  send_and_confirm w (ix_deposit_spl cl amount mint token_program l2_recipient).

Definition rpc_claim_withdrawal_spl (cl : RpcL1Client) (w : W) (batch_no amount nonce : Z)
    (recipient mint token_program : Pubkey) (bitmap : bytes) (siblings : list bytes) : W * outcome L1Error bytes :=
  send_and_confirm w (ix_claim_withdrawal_spl cl batch_no amount nonce recipient mint token_program bitmap siblings).

Definition rpc_claim_withdrawal (cl : RpcL1Client) (w : W) (batch_no amount nonce : Z) (recipient : Pubkey)
    (bitmap : bytes) (siblings : list bytes) : W * outcome L1Error bytes :=
  send_and_confirm w (ix_claim_withdrawal cl batch_no amount nonce recipient bitmap siblings).

(** [impl L1Client for RpcL1Client], with its two inherent methods. *)
Definition RpcClient (cl : RpcL1Client) : L1Client W := {|
  post_da_chunk w no i n d := send_and_confirm w (ix_post_chunk cl no i n d);
  post_batch_record w r := send_and_confirm w (ix_post_batch cl r);
  latest_batch_no := rpc_latest_batch_no cl;
  fetch_deposits := rpc_fetch_deposits cl;
  ensure_initialized := rpc_ensure_initialized cl;
  resume_cursor_slot := rpc_resume_cursor_slot cl;
  authority_balance := rpc_authority_balance cl;
|}.
End Transport.

(** ** A node that answers as documented *)

(** The JSON of the data an RPC node holds. *)
Definition json_text (s : option bytes) : Value := match s with Some s => JStr s | None => JNull end.

Definition entry_json (e : SigEntry) : Value :=
  JObj [("signature", json_text (se_signature e)); ("err", if se_failed e then JObj [] else JNull)].

Definition instruction_json (ix : TxInstruction) : Value :=
  JObj [("programIdIndex", match ti_program_index ix with Some i => JNum i | None => JNull end);
        ("data", json_text (ti_data ix))].

Definition message_json (m : list (option bytes) * list TxInstruction) : Value :=
  JObj [("accountKeys", JArr (json_text <$> m.1)); ("instructions", JArr (instruction_json <$> m.2))].

Definition tx_json (v : TxView) : Value :=
  JObj ([("meta", JObj [("logMessages", JArr (json_text <$> tv_logs v))])]
        ++ match tv_message v with
           | Some m => [("transaction", JObj [("message", message_json m)])]
           | None => []
           end).

(** An index in a message is a u64. *)
Definition view_typed (v : TxView) : Prop :=
  match tv_message v with
  | Some m => Forall (λ ix, ∀ i, ti_program_index ix = Some i → u64 i) m.2
  | None => True
  end.

Section Documented.
Context `{T : TextCodecs}.

Definition account_json (d : option bytes) : Value :=
  JObj [("value", match d with
                  | Some d => JObj [("data", JArr [JStr (b64_encode d); jtext "base64"])]
                  | None => JNull
                  end)].

Definition reply (result : Value) : Answer :=
  Answered (JObj [("jsonrpc", jtext "2.0"); ("result", result); ("id", JNum 1)]).

Lemma rpc_result_reply method v : rpc_result method (reply v) = Ok v.
Proof. done. Qed.

Lemma as_str_text s : as_str (json_text s) = s.
Proof. by destruct s. Qed.

Lemma texts_roundtrip (l : list (option bytes)) : as_str <$> (json_text <$> l) = l.
Proof. induction l as [|s l IH]; [done|]. cbn. rewrite as_str_text. f_equal. exact IH. Qed.

Lemma entry_roundtrip e : decode_entry (entry_json e) = e.
Proof. by destruct e as [[|] [s|]]. Qed.

Lemma entries_roundtrip l : decode_entries (JArr (entry_json <$> l)) = l.
Proof.
  unfold decode_entries. cbn [as_array default from_option id].
  induction l as [|e l IH]; [done|]. rewrite !fmap_cons, entry_roundtrip. by f_equal.
Qed.

Lemma as_u64_typed i : u64 i → as_u64 (JNum i) = Some i.
Proof. intros Hi. unfold as_u64. by rewrite decide_True. Qed.

Lemma instruction_roundtrip ix :
  (∀ i, ti_program_index ix = Some i → u64 i) → decode_instruction (instruction_json ix) = ix.
Proof.
  destruct ix as [[i|] d]; intros Hi; [|by destruct d].
  trans {| ti_program_index := as_u64 (JNum i); ti_data := d |}; [by destruct d|].
  by rewrite as_u64_typed by by apply Hi.
Qed.

Lemma instructions_roundtrip ixs :
  Forall (λ ix, ∀ i, ti_program_index ix = Some i → u64 i) ixs →
  decode_instruction <$> (instruction_json <$> ixs) = ixs.
Proof.
  induction 1 as [|ix ixs Hix _ IH]; [done|]. rewrite !fmap_cons, instruction_roundtrip by done. by f_equal.
Qed.

Lemma tx_roundtrip v : view_typed v → decode_tx (tx_json v) = v.
Proof.
  destruct v as [logs [[keys ixs]|]]; unfold view_typed; cbn [tv_message snd]; intros Hi.
  - trans {| tv_logs := as_str <$> (json_text <$> logs);
             tv_message := Some (as_str <$> (json_text <$> keys), decode_instruction <$> (instruction_json <$> ixs)) |};
      [exact eq_refl|]. by rewrite !texts_roundtrip, instructions_roundtrip.
  - trans {| tv_logs := as_str <$> (json_text <$> logs); tv_message := None |}; [exact eq_refl|].
    by rewrite texts_roundtrip.
Qed.
End Documented.

Section Serving.
Context `{B3 : Blake3} `{TX : SolanaTx} `{SA : SolanaAddresses} `{S2 : Sha256} `{T : TextCodecs}.
Context `{Z0 : Zstd} `{!Bincode BatchPayload} `{RT : L1Runtime}.
Context {W : Type} `{HTTP : !Http W}.
Context (system_id budget_id : Pubkey) (signed_wire : list Instruction → H256 → bytes).

(** The decoded answers to the client's requests. *)
Lemma account_read (w : W) k d :
  http_read w 0 (request "getAccountInfo" (account_params k)) = reply (account_json d) → account_data w k = Ok d.
Proof.
  intros H. unfold account_data, rpc_call. rewrite H, rpc_result_reply. destruct d as [d|]; [|exact eq_refl].
  trans (let? d := ok_or (b64_decode (b64_encode d)) (Rpc "account data base64") in Ok (Some d)); [exact eq_refl|].
  by rewrite b64_roundtrip.
Qed.

Lemma page_read_back (w : W) k limit until before l :
  http_read w 0 (request "getSignaturesForAddress" (page_params k limit until before)) = reply (JArr (entry_json <$> l)) →
  signatures_page w k limit until before = Ok l.
Proof. intros H. unfold signatures_page, rpc_call. rewrite H, rpc_result_reply. cbn [obind]. by rewrite entries_roundtrip. Qed.

Lemma view_read (w : W) signature v :
  view_typed v → http_read w 0 (request "getTransaction" (tx_params signature)) = reply (tx_json v) →
  transaction_view w signature = Ok v.
Proof. intros Hv H. unfold transaction_view, rpc_call. rewrite H, rpc_result_reply. cbn [obind]. by rewrite tx_roundtrip. Qed.

Context (cl : RpcL1Client) (w : W).

(** What the node holds: the accounts of a settlement state, and the history of
    the log program, newest first. *)
Record json_node (s : L1State) (h : list LogTx) : Prop := {
  jn_config : http_read w 0 (request "getAccountInfo" (account_params (config_pda cl)))
              = reply (account_json (config_account <$> l1_config s));
  jn_batch k : u64 k → http_read w 0 (request "getAccountInfo" (account_params (batch_pda cl k)))
                       = reply (account_json (batch_account <$> batches s !! k));
  jn_page before : http_read w 0 (request "getSignaturesForAddress" (page_params (da_log_program cl) PAGE_LIMIT None before))
                   = reply (JArr (entry_json <$> take PAGE_LIMIT (entry_of <$> page h before)));
  jn_view x : x ∈ h → http_read w 0 (request "getTransaction" (tx_params (lt_signature x))) = reply (tx_json (lt_view x));
  jn_typed : Forall (λ x, view_typed (lt_view x)) h;
  jn_nodup : NoDup (lt_signature <$> h);
  jn_config_wf c : l1_config s = Some c → config_wf c;
  jn_batch_wf : map_Forall (λ _ b, batch_wf b) (batches s);
}.

(** Through its JSON the client sees exactly what the node holds. Over an RPC
    node that answers as documented from a settlement state and a history, the
    decoded accounts are the program's accounts, an absent one is read as absent,
    every page is the page of the history and every transaction is the one that
    was recorded: the client's theorems hold of the real requests. *)
Theorem json_client_reads s h :
  json_node s h →
  serves (RPC := transport system_id budget_id signed_wire) cl w s
  ∧ serves_log (RPC := transport system_id budget_id signed_wire) cl w h.
Proof.
  intros [Hc Hb Hp Hv Ht Hn Hcw Hbw]. split; split; try done.
  - by apply account_read.
  - intros k Hk. by apply account_read, Hb.
  - intros before. apply page_read_back, Hp.
  - intros x Hx. apply view_read; [|by apply Hv]. rewrite list.Forall_forall in Ht. by apply Ht.
Qed.
End Serving.

Module Example.
Import L1RpcProps.Example.
#[local] Existing Instances Toy.blake3_toy Toy.solana_toy WrappedSpl.Example.addresses_toy.
#[local] Existing Instances Settlement.Example.runtime_toy sha_toy text_toy zstd_toy payload_codec rpc_toy.

(** An RPC node that answers with the JSON of a settlement state and a log. *)
Definition json_answer (w : L1State * list LogTx) (body : Value) : Answer :=
  let method := default [] (get_field "method" body ≫= as_str) in
  let param := default [] ((get_field "params" body ≫= get_index 0) ≫= as_str) in
  let before := ((get_field "params" body ≫= get_index 1) ≫= get_field "before") ≫= as_str in
  if decide (method = bstr "getAccountInfo") then
    match L1Rpc.get_account_info w param with Ok d => reply (account_json d) | _ => Unreachable end
  else if decide (method = bstr "getSignaturesForAddress") then
    match get_signatures w param PAGE_LIMIT None before with
    | Ok l => reply (JArr (entry_json <$> l)) | _ => Unreachable end
  else match get_transaction_view w param with Ok v => reply (tx_json v) | _ => Unreachable end.

#[local] Instance json_toy : Http (L1State * list LogTx) := {|
  http_read w _ body := json_answer w body;
  http_send w _ := (w, Unreachable);
|}.

Lemma answers w s h :
  serves cl w s → serves_log cl w h → Forall (λ x, view_typed (lt_view x)) h → json_node cl w s h.
Proof.
  intros Hs Hl Ht. split; [| |intros before|intros x Hx|done|apply Hl|apply Hs|apply Hs].
  - trans (match L1Rpc.get_account_info w (config_pda cl) with Ok d => reply (account_json d) | _ => Unreachable end);
      [reflexivity|]. by rewrite (sv_config _ _ _ Hs).
  - intros k Hk.
    trans (match L1Rpc.get_account_info w (batch_pda cl k) with Ok d => reply (account_json d) | _ => Unreachable end);
      [reflexivity|]. by rewrite (sv_batch _ _ _ Hs).
  - trans (match get_signatures w (da_log_program cl) PAGE_LIMIT None before with
           | Ok l => reply (JArr (entry_json <$> l)) | _ => Unreachable end); [by destruct before|].
    by rewrite (sl_page _ _ _ Hl).
  - trans (match get_transaction_view w (lt_signature x) with Ok v => reply (tx_json v) | _ => Unreachable end);
      [reflexivity|]. by rewrite (sl_view _ _ _ Hl).
Qed.

(** Read through JSON, the log's newest transaction is the reposted chunk. *)
Lemma json_client_reads_witness :
  transaction_view (settled, reposted) (bstr "b") = Ok (lt_view (chunk_tx (bstr "b")))
  ∧ account_data (settled, reposted) (batch_pda cl 0) = Ok (Some (batch_account batch)).
Proof.
  assert (Hn : json_node cl (settled, reposted) settled reposted).
  { apply answers; [apply settled_serves|apply log_serves, reposted_nodup|].
    apply list.Forall_forall. intros x Hx. unfold reposted in Hx.
    assert (Hc : ∀ sig, view_typed (lt_view (chunk_tx sig))).
    { intros sig. apply list.Forall_singleton. intros i [= <-]. unfold u64, u64_max. lia. }
    rewrite !elem_of_cons in Hx. destruct Hx as [-> | [-> | [-> | Hx]]]; [apply Hc|exact I|apply Hc|].
    destruct (not_elem_of_nil _ Hx). }
  destruct (json_client_reads (pk 100) (pk 101) (λ _ _, []) cl (settled, reposted) settled reposted Hn) as [Hs Hl].
  split.
  - exact (sl_view _ _ _ Hl (chunk_tx (bstr "b")) (list_elem_of_here _ _)).
  - assert (H0 : u64 0) by (unfold u64, u64_max; lia). etrans; [exact (sv_batch _ _ _ Hs 0 H0)|]. reflexivity.
Defined.
End Example.
