(* ===== verification/Entry.v ===== *)
(** * The L1 programs' entry points

    Models the [#[program]] modules and the [#[derive(Accounts)]] structs of
    [programs/programs/zul-settlement/src/lib.rs] and
    [programs/programs/zul-da-log/src/lib.rs]: from the bytes and the accounts of
    an instruction to the handlers of [Settlement]. What Anchor derives is taken
    from its documentation: an instruction starts with the eight-byte
    discriminator of its handler's name, its arguments follow in Borsh's layout
    (trailing bytes are ignored), and the accounts are checked in the order of
    the struct, for key, mutability and signature. Where several checks fail the
    model does not fix which error is reported.

    The theorems join the two ends of the bridge: what the client of
    [chain/zul-bridge/src/rpc.rs] builds is read by the program as the handler
    call it means, and whatever bytes anyone sends, the program stays within the
    histories [Settlement] proves safe. *)

From S2P Require Import Prelude External Json Hash Paths Smt SmtFacts SmtProps Account Block WrappedSpl NodeBridge NodeLedger Settlement Recover L1Rpc L1RpcProps.

Inductive EntryError :=
| InstructionFallbackNotFound | InstructionDidNotDeserialize | AccountNotEnoughKeys | ConstraintViolated
| Failed_with (e : SettlementError)
| Da_failed (e : DaError)
| UnknownProgram.

(** ** Borsh readers *)

Definition read_bytes (n : nat) (d : bytes) : option (bytes * bytes) :=
  if decide (length d < n)%nat then None else Some (take n d, drop n d).

Definition read_uint (n : nat) (d : bytes) : option (Z * bytes) :=
  '(b, d) ← read_bytes n d; Some (le_val b, d).

Fixpoint read_hashes (n : nat) (d : bytes) : option (list H256 * bytes) :=
  match n with
  | O => Some ([], d)
  | S n => '(h, d) ← read_bytes 32 d; '(hs, d) ← read_hashes n d; Some (h :: hs, d)
  end.

(** A vector of 32-byte arrays; a count that the bytes cannot hold is refused. *)
Definition read_vec32 (d : bytes) : option (list H256 * bytes) :=
  '(n, d) ← read_uint 4 d;
  if decide (Z.of_nat (length d) < 32 * n) then None else read_hashes (Z.to_nat n) d.

Definition read_vec (d : bytes) : option (bytes * bytes) :=
  '(n, d) ← read_uint 4 d;
  if decide (Z.of_nat (length d) < n) then None else read_bytes (Z.to_nat n) d.

Definition claim_reader (d : bytes) : option (Z * Z * Z * SmtProof) :=
  '(no, d) ← read_uint 8 d; '(amount, d) ← read_uint 8 d; '(nonce, d) ← read_uint 8 d;
  '(bm, d) ← read_bytes 32 d; '(sibs, _) ← read_vec32 d;
  Some (no, amount, nonce, {| bitmap := bm; siblings := sibs |}).

Definition deposit_reader (d : bytes) : option (Z * Pubkey) :=
  '(amount, d) ← read_uint 8 d; '(r, _) ← read_bytes 32 d; Some (amount, r).

Definition batch_reader (d : bytes) : option BatchRecord :=
  '(no, d) ← read_uint 8 d; '(first, d) ← read_uint 8 d; '(last, d) ← read_uint 8 d;
  '(sr, d) ← read_bytes 32 d; '(wr, d) ← read_bytes 32 d; '(da, d) ← read_bytes 32 d;
  '(n, _) ← read_uint 4 d;
  Some {| r_batch_no := no; r_first_slot := first; r_last_slot := last; r_state_root := sr;
          r_withdrawals_root := wr; r_da_hash := da; r_chunk_count := n |}.

Definition chunk_reader (d : bytes) : option (Z * Z * Z * bytes) :=
  '(no, d) ← read_uint 8 d; '(i, d) ← read_uint 4 d; '(n, d) ← read_uint 4 d;
  '(c, _) ← read_vec d; Some (no, i, n, c).

(** ** Accounts *)

(** What a field of an accounts struct asks of the account passed for it. *)
Record Slot := {
  sl_key : Pubkey → bool;
  sl_mut : bool;
  sl_signer : bool;
}.

Definition slot_ok (sl : Slot) (m : AccountMeta) : bool :=
  sl_key sl (am_pubkey m) && implb (sl_mut sl) (am_writable m) && implb (sl_signer sl) (am_signer m).

(** Further accounts are allowed. *)
Fixpoint check_accounts (sls : list Slot) (ms : list AccountMeta) : outcome EntryError () :=
  match sls, ms with
  | [], _ => Ok ()
  | _ :: _, [] => Err AccountNotEnoughKeys
  | sl :: sls, m :: ms => if slot_ok sl m then check_accounts sls ms else Err ConstraintViolated
  end.

Definition any (_ : Pubkey) : bool := true.
Definition is_key (k k' : Pubkey) : bool := bool_decide (k' = k).

(** [Signer] with [mut] *)
Definition signer_mut : Slot := {| sl_key := any; sl_mut := true; sl_signer := true |}.
Definition signer : Slot := {| sl_key := any; sl_mut := false; sl_signer := true |}.
Definition readonly (key : Pubkey → bool) : Slot := {| sl_key := key; sl_mut := false; sl_signer := false |}.
Definition writable (key : Pubkey → bool) : Slot := {| sl_key := key; sl_mut := true; sl_signer := false |}.

Definition account_key (ix : Instruction) (k : nat) : outcome EntryError Pubkey :=
  ok_or (am_pubkey <$> i_accounts ix !! k) AccountNotEnoughKeys.

Definition CLAIM_SEED : bytes := bstr "claim".

Section Entry.
Context `{B3 : Blake3} `{TX : SolanaTx} `{SA : SolanaAddresses} `{S2 : Sha256} `{RT : L1Runtime}.
Context {W : Type} `{RPC : !JsonRpc W}.
Context (empties : list H256).
(** The program's id, the token program that owns a mint, and the bumps of the
    config's and the vault's addresses. *)
Context (program da_program : Pubkey) (mint_program : Pubkey → Pubkey) (bump0 vault_bump0 : Z).

Definition seeded (seeds : list bytes) : Pubkey → bool := is_key (find_program_address seeds program).

(** [associated_token::{mint, authority, token_program}] *)
Definition ata (authority mint token_program : Pubkey) : Pubkey → bool :=
  is_key (derive_ata authority mint token_program).

(** [Interface<TokenInterface>], with the mint owned by it *)
Definition token_interface (mint : Pubkey) : Pubkey → bool := is_key (mint_program mint).

Definition Initialize : list Slot :=
  [writable (seeded [CONFIG_SEED]); readonly (seeded [VAULT_SEED]); signer_mut;
   readonly (is_key system_program)].

Definition PostBatch (batch_no : Z) : list Slot :=
  [writable (seeded [CONFIG_SEED]); writable (seeded [BATCH_SEED; le_bytes 8 batch_no]); signer_mut;
   readonly (is_key system_program)].

Definition DepositSol : list Slot :=
  [writable (seeded [CONFIG_SEED]); writable (seeded [VAULT_SEED]); signer_mut;
   readonly (is_key system_program)].

Definition DepositSpl (vault mint depositor token_program : Pubkey) : list Slot :=
  [readonly (seeded [CONFIG_SEED]); readonly (seeded [VAULT_SEED]); readonly any;
   writable (ata depositor mint token_program); writable (ata vault mint token_program); signer_mut;
   readonly (token_interface mint); readonly (is_key ATA_PROGRAM_ID); readonly (is_key system_program)].

Definition ClaimWithdrawalSpl (batch_no nonce : Z) (vault mint recipient token_program : Pubkey) : list Slot :=
  [readonly (seeded [CONFIG_SEED]); readonly (seeded [BATCH_SEED; le_bytes 8 batch_no]);
   readonly (seeded [VAULT_SEED]); readonly any; writable (ata vault mint token_program); readonly any;
   writable (ata recipient mint token_program); writable (seeded [CLAIM_SEED; recipient; le_bytes 8 nonce]);
   signer_mut; readonly (token_interface mint); readonly (is_key ATA_PROGRAM_ID);
   readonly (is_key system_program)].

Definition ClaimWithdrawal (batch_no nonce : Z) (recipient : Pubkey) : list Slot :=
  [readonly (seeded [CONFIG_SEED]); readonly (seeded [BATCH_SEED; le_bytes 8 batch_no]);
   writable (seeded [VAULT_SEED]); writable any; writable (seeded [CLAIM_SEED; recipient; le_bytes 8 nonce]);
   signer_mut; readonly (is_key system_program)].

(** ** Dispatch *)

Definition handled {A} (r : outcome SettlementError A) : outcome EntryError A := map_err Failed_with r.
Definition deserialized {A} (r : option A) : outcome EntryError A := ok_or r InstructionDidNotDeserialize.

Definition enter_initialize (s : L1State) (ix : Instruction) : outcome EntryError L1State :=
  let? _ := check_accounts Initialize (i_accounts ix) in
  let? authority := account_key ix 2 in
  handled (initialize s authority bump0 vault_bump0).

Definition enter_post_batch (s : L1State) (now : Z) (ix : Instruction) (args : bytes)
    : outcome EntryError L1State :=
  let? r := deserialized (batch_reader args) in
  let? _ := check_accounts (PostBatch (r_batch_no r)) (i_accounts ix) in
  let? authority := account_key ix 2 in
  handled (post_batch s authority now (r_batch_no r) (r_first_slot r) (r_last_slot r) (r_state_root r)
             (r_withdrawals_root r) (r_da_hash r) (r_chunk_count r)).

Definition enter_deposit_sol (s : L1State) (ix : Instruction) (args : bytes) : outcome EntryError L1State :=
  let? (amount, l2_recipient) := deserialized (deposit_reader args) in
  let? _ := check_accounts DepositSol (i_accounts ix) in
  let? depositor := account_key ix 2 in
  handled (deposit_sol s depositor amount l2_recipient).

Definition enter_deposit_spl (s : L1State) (ix : Instruction) (args : bytes) : outcome EntryError L1State :=
  let? (amount, l2_recipient) := deserialized (deposit_reader args) in
  let? vault := account_key ix 1 in
  let? mint := account_key ix 2 in
  let? depositor := account_key ix 5 in
  let? token_program := account_key ix 6 in
  let? _ := check_accounts (DepositSpl vault mint depositor token_program) (i_accounts ix) in
  handled (deposit_spl s depositor mint amount l2_recipient).

Definition enter_claim_withdrawal_spl (s : L1State) (now : Z) (ix : Instruction) (args : bytes)
    : outcome EntryError L1State :=
  let? (no, amount, nonce, proof) := deserialized (claim_reader args) in
  let? vault := account_key ix 2 in
  let? mint := account_key ix 3 in
  let? recipient := account_key ix 5 in
  let? token_program := account_key ix 9 in
  let? _ := check_accounts (ClaimWithdrawalSpl no nonce vault mint recipient token_program) (i_accounts ix) in
  handled (claim_withdrawal_spl empties s recipient mint now no amount nonce proof).

Definition enter_claim_withdrawal (s : L1State) (now : Z) (ix : Instruction) (args : bytes)
    : outcome EntryError L1State :=
  let? (no, amount, nonce, proof) := deserialized (claim_reader args) in
  let? recipient := account_key ix 3 in
  let? _ := check_accounts (ClaimWithdrawal no nonce recipient) (i_accounts ix) in
  handled (claim_withdrawal empties s recipient now no amount nonce proof).

Definition global (name : string) : bytes := discriminator "global" name.

(** The program module: the handler whose discriminator the data starts with. *)
Definition zul_settlement (s : L1State) (now : Z) (ix : Instruction) : outcome EntryError L1State :=
  let tag := take 8 (i_data ix) in
  let args := drop 8 (i_data ix) in
  if decide (tag = global "initialize") then enter_initialize s ix
  else if decide (tag = global "post_batch") then enter_post_batch s now ix args
  else if decide (tag = global "deposit_sol") then enter_deposit_sol s ix args
  else if decide (tag = global "deposit_spl") then enter_deposit_spl s ix args
  else if decide (tag = global "claim_withdrawal_spl") then enter_claim_withdrawal_spl s now ix args
  else if decide (tag = global "claim_withdrawal") then enter_claim_withdrawal s now ix args
  else Err InstructionFallbackNotFound.

Definition zul_da_log (ix : Instruction) : outcome EntryError (Z * Z * bytes) :=
  if decide (take 8 (i_data ix) = global "post_chunk") then
    let? (no, i, n, c) := deserialized (chunk_reader (drop 8 (i_data ix))) in
    let? _ := check_accounts [signer] (i_accounts ix) in
    let? _ := map_err Da_failed (post_chunk no i n c) in
    Ok (no, i, c)
  else Err InstructionFallbackNotFound.

(** ** Transactions *)

(** The settlement state and the chunks of the data-availability log. *)
Definition Ledger : Type := L1State * list (Z * Z * bytes).

Definition run_instruction (now : Z) (l : Ledger) (ix : Instruction) : outcome EntryError Ledger :=
  if decide (i_program_id ix = program) then let? s := zul_settlement l.1 now ix in Ok (s, l.2)
  else if decide (i_program_id ix = da_program) then let? c := zul_da_log ix in Ok (l.1, l.2 ++ [c])
  else if decide (i_program_id ix = compute_budget_program) then Ok l
  else Err UnknownProgram.

(** All of its instructions, or none. *)
Definition run_transaction (now : Z) (l : Ledger) (ixs : list Instruction) : outcome EntryError Ledger :=
  ofold (run_instruction now) l ixs.

(** ** Reading back *)

Lemma read_bytes_app n a d : length a = n → read_bytes n (a ++ d) = Some (a, d).
Proof.
  intros Ha. unfold read_bytes. rewrite decide_False by (rewrite length_app; lia).
  by rewrite take_app_length', drop_app_length'.
Qed.

Lemma read_u64_app x d : u64 x → read_uint 8 (le_bytes 8 x ++ d) = Some (x, d).
Proof.
  intros Hx. unfold read_uint. rewrite read_bytes_app by apply length_le_bytes. cbn [mbind option_bind].
  by rewrite le64_roundtrip.
Qed.

Lemma read_u32_app x d : u32 x → read_uint 4 (le_bytes 4 x ++ d) = Some (x, d).
Proof.
  intros Hx. unfold read_uint. rewrite read_bytes_app by apply length_le_bytes. cbn [mbind option_bind].
  by rewrite le32_roundtrip.
Qed.

Lemma read_hashes_app hs d :
  Forall (λ h, length h = 32%nat) hs → read_hashes (length hs) (concat hs ++ d) = Some (hs, d).
Proof.
  induction 1 as [|h hs Hh _ IH]; [done|]. cbn [length read_hashes concat]. rewrite <- app_assoc.
  rewrite read_bytes_app by done. cbn [mbind option_bind]. by rewrite IH.
Qed.

Lemma length_concat32 (hs : list bytes) :
  Forall (λ h, length h = 32%nat) hs → length (concat hs) = (32 * length hs)%nat.
Proof. induction 1 as [|h hs Hh _ IH]; [done|]. cbn [concat length]. rewrite length_app. lia. Qed.

Lemma claim_reader_args no amount nonce bm sibs :
  u64 no → u64 amount → u64 nonce → length bm = 32%nat → Forall (λ h, length h = 32%nat) sibs →
  u32 (Z.of_nat (length sibs)) →
  claim_reader (claim_args no amount nonce bm sibs)
  = Some (no, amount, nonce, {| bitmap := bm; siblings := sibs |}).
Proof.
  intros Hno Ham Hnon Hbm Hs Hl. unfold claim_reader, claim_args, read_vec32.
  do 3 (rewrite read_u64_app by done; cbn [mbind option_bind]).
  rewrite read_bytes_app by done. cbn [mbind option_bind]. rewrite read_u32_app by done. cbn [mbind option_bind].
  rewrite decide_False by (rewrite length_concat32 by done; lia). rewrite Nat2Z.id, <- (app_nil_r (concat sibs)).
  by rewrite read_hashes_app.
Qed.

Lemma deposit_reader_args amount r :
  u64 amount → length r = 32%nat → deposit_reader (le_bytes 8 amount ++ r) = Some (amount, r).
Proof.
  intros Ha Hr. unfold deposit_reader. rewrite read_u64_app by done. cbn [mbind option_bind].
  by rewrite <- (app_nil_r r) at 1; rewrite read_bytes_app.
Qed.

Lemma batch_reader_args r :
  record_typed r →
  batch_reader (le_bytes 8 (r_batch_no r) ++ le_bytes 8 (r_first_slot r) ++ le_bytes 8 (r_last_slot r)
    ++ r_state_root r ++ r_withdrawals_root r ++ r_da_hash r ++ le_bytes 4 (r_chunk_count r)) = Some r.
Proof.
  intros (H1 & H2 & H3 & H4 & H5 & H6 & H7). unfold batch_reader.
  do 3 (rewrite read_u64_app by done; cbn [mbind option_bind]).
  do 3 (rewrite read_bytes_app by done; cbn [mbind option_bind]).
  rewrite <- (app_nil_r (le_bytes 4 _)), read_u32_app by done. cbn [mbind option_bind]. by destruct r.
Qed.

Lemma chunk_reader_args no i n c :
  u64 no → u32 i → u32 n → u32 (Z.of_nat (length c)) →
  chunk_reader (le_bytes 8 no ++ le_bytes 4 i ++ le_bytes 4 n ++ le_bytes 4 (Z.of_nat (length c)) ++ c)
  = Some (no, i, n, c).
Proof.
  intros H1 H2 H3 H4. unfold chunk_reader, read_vec. rewrite read_u64_app by done. cbn [mbind option_bind].
  do 3 (rewrite read_u32_app by done; cbn [mbind option_bind]).
  rewrite decide_False by lia. rewrite Nat2Z.id, <- (app_nil_r c), read_bytes_app by (by rewrite app_nil_r). cbn [mbind option_bind].
  by rewrite app_nil_r.
Qed.

(** ** What the client builds *)

Definition handler_names : list string :=
  ["initialize"; "post_batch"; "deposit_sol"; "deposit_spl"; "claim_withdrawal_spl"; "claim_withdrawal"].

(** The discriminators of the program's handlers differ. *)
Context (Hdistinct : NoDup (global <$> handler_names)).

Lemma names_differ i j a b :
  i ≠ j → handler_names !! i = Some a → handler_names !! j = Some b → global a ≠ global b.
Proof.
  intros Hij Ha Hb He. apply Hij. eapply NoDup_lookup; [exact Hdistinct| |]; rewrite list_lookup_fmap.
  - by rewrite Ha.
  - rewrite Hb. cbn. by rewrite He.
Qed.

Lemma tag_of ns n args : take 8 (discriminator ns n ++ args) = discriminator ns n.
Proof. apply take_app_length'. by rewrite discriminator_length. Qed.

Lemma args_of ns n args : drop 8 (discriminator ns n ++ args) = args.
Proof. apply drop_app_length'. by rewrite discriminator_length. Qed.

(** The handler an instruction's data names. *)
Lemma dispatch s now ix k name args :
  handler_names !! k = Some name → i_data ix = discriminator "global" name ++ args →
  zul_settlement s now ix
  = match k with
    | 0 => enter_initialize s ix
    | 1 => enter_post_batch s now ix args
    | 2 => enter_deposit_sol s ix args
    | 3 => enter_deposit_spl s ix args
    | 4 => enter_claim_withdrawal_spl s now ix args
    | _ => enter_claim_withdrawal s now ix args
    end%nat.
Proof.
  intros Hk Hd. unfold zul_settlement. rewrite Hd, tag_of, args_of.
  change (discriminator "global" name) with (global name).
  assert (Hne : ∀ j b, j ≠ k → handler_names !! j = Some b → global name ≠ global b).
  { intros j b Hj Hb. eapply (names_differ k j); [lia|exact Hk|exact Hb]. }
  do 6 (destruct k as [|k]; [
    injection Hk as <-;
    repeat (rewrite decide_False by (first [by apply (Hne 0%nat)|by apply (Hne 1%nat)|by apply (Hne 2%nat)
                                            |by apply (Hne 3%nat)|by apply (Hne 4%nat)]));
    by rewrite decide_True|]). done.
Qed.

Lemma is_key_refl k : is_key k k = true.
Proof. unfold is_key. by rewrite bool_decide_true. Qed.

(** Checks the accounts of an instruction the client built. *)
Ltac accounts_pass :=
  cbn; unfold slot_ok, seeded, ata, token_interface; cbn [am_pubkey am_signer am_writable sl_key sl_mut sl_signer
    writable readonly signer_mut meta_new meta_readonly new_client config_pda vault_pda]; rewrite ?is_key_refl; reflexivity.

Context (authority : Pubkey).
Let cl : RpcL1Client := new_client authority program da_program.

(** The types of a claim's arguments, as the client takes them. *)
Definition claim_typed (no amount nonce : Z) (bm : bytes) (sibs : list bytes) : Prop :=
  u64 no ∧ u64 amount ∧ u64 nonce ∧ length bm = 32%nat ∧ Forall (λ h, length h = 32%nat) sibs
  ∧ u32 (Z.of_nat (length sibs)).

Lemma claim_reads no amount nonce bm sibs :
  claim_typed no amount nonce bm sibs →
  claim_reader (claim_args no amount nonce bm sibs)
  = Some (no, amount, nonce, {| bitmap := bm; siblings := sibs |}).
Proof. intros (? & ? & ? & ? & ? & ?). by apply claim_reader_args. Qed.

Lemma initialize_executes s now :
  zul_settlement s now (ix_initialize cl) = handled (initialize s authority bump0 vault_bump0).
Proof.
  rewrite (dispatch s now _ 0 "initialize" []); [|done|cbn; by rewrite app_nil_r].
  unfold enter_initialize. accounts_pass.
Qed.

Lemma post_batch_executes s now r :
  record_typed r → zul_settlement s now (ix_post_batch cl r)
  = handled (post_batch s authority now (r_batch_no r) (r_first_slot r) (r_last_slot r) (r_state_root r)
               (r_withdrawals_root r) (r_da_hash r) (r_chunk_count r)).
Proof.
  intros Hr. rewrite (dispatch s now (ix_post_batch cl r) 1 "post_batch" _ eq_refl eq_refl).
  unfold enter_post_batch. rewrite batch_reader_args by done. accounts_pass.
Qed.

Lemma deposit_sol_executes s now amount r :
  u64 amount → length r = 32%nat →
  zul_settlement s now (ix_deposit_sol cl amount r) = handled (deposit_sol s authority amount r).
Proof.
  intros Ha Hr. rewrite (dispatch s now (ix_deposit_sol cl amount r) 2 "deposit_sol" _ eq_refl eq_refl).
  unfold enter_deposit_sol. rewrite deposit_reader_args by done. accounts_pass.
Qed.

Lemma deposit_spl_executes s now amount mint r :
  u64 amount → length r = 32%nat →
  zul_settlement s now (ix_deposit_spl cl amount mint (mint_program mint) r)
  = handled (deposit_spl s authority mint amount r).
Proof.
  intros Ha Hr.
  rewrite (dispatch s now (ix_deposit_spl cl amount mint (mint_program mint) r) 3 "deposit_spl" _ eq_refl eq_refl).
  unfold enter_deposit_spl. rewrite deposit_reader_args by done. accounts_pass.
Qed.

Lemma claim_spl_executes s now no amount nonce recipient mint bm sibs :
  claim_typed no amount nonce bm sibs →
  zul_settlement s now (ix_claim_withdrawal_spl cl no amount nonce recipient mint (mint_program mint) bm sibs)
  = handled (claim_withdrawal_spl empties s recipient mint now no amount nonce {| bitmap := bm; siblings := sibs |}).
Proof.
  intros Ht.
  rewrite (dispatch s now (ix_claim_withdrawal_spl cl no amount nonce recipient mint (mint_program mint) bm sibs)
             4 "claim_withdrawal_spl" _ eq_refl eq_refl).
  unfold enter_claim_withdrawal_spl. rewrite claim_reads by done. accounts_pass.
Qed.

Lemma claim_executes s now no amount nonce recipient bm sibs :
  claim_typed no amount nonce bm sibs →
  zul_settlement s now (ix_claim_withdrawal cl no amount nonce recipient bm sibs)
  = handled (claim_withdrawal empties s recipient now no amount nonce {| bitmap := bm; siblings := sibs |}).
Proof.
  intros Ht.
  rewrite (dispatch s now (ix_claim_withdrawal cl no amount nonce recipient bm sibs) 5 "claim_withdrawal" _ eq_refl eq_refl).
  unfold enter_claim_withdrawal. rewrite claim_reads by done. accounts_pass.
Qed.

Lemma post_chunk_executes no i n c :
  chunk_typed no i n c →
  zul_da_log (ix_post_chunk cl no i n c) = let? _ := map_err Da_failed (post_chunk no i n c) in Ok (no, i, c).
Proof.
  intros (Hno & Hi & Hn & Hc). unfold zul_da_log. cbn [ix_post_chunk i_data]. rewrite tag_of, args_of.
  rewrite decide_True by done. rewrite chunk_reader_args by done. cbn. done.
Qed.

(** The program reads what the client of the bridge builds as the call it
    means, accounts included: for every instruction the client can send, with
    arguments of their types and the token program that owns the mint, the
    program runs the handler of that name on exactly those arguments, signed by
    the client's authority; and a chunk lands in the data-availability log with
    its numbers and bytes. *)
Theorem client_instructions_execute s now :
  zul_settlement s now (ix_initialize cl) = handled (initialize s authority bump0 vault_bump0)
  ∧ (∀ r, record_typed r → zul_settlement s now (ix_post_batch cl r)
       = handled (post_batch s authority now (r_batch_no r) (r_first_slot r) (r_last_slot r) (r_state_root r)
                    (r_withdrawals_root r) (r_da_hash r) (r_chunk_count r)))
  ∧ (∀ amount r, u64 amount → length r = 32%nat →
       zul_settlement s now (ix_deposit_sol cl amount r) = handled (deposit_sol s authority amount r))
  ∧ (∀ amount mint r, u64 amount → length r = 32%nat →
       zul_settlement s now (ix_deposit_spl cl amount mint (mint_program mint) r)
       = handled (deposit_spl s authority mint amount r))
  ∧ (∀ no amount nonce recipient mint bm sibs, claim_typed no amount nonce bm sibs →
       zul_settlement s now (ix_claim_withdrawal_spl cl no amount nonce recipient mint (mint_program mint) bm sibs)
       = handled (claim_withdrawal_spl empties s recipient mint now no amount nonce
                    {| bitmap := bm; siblings := sibs |}))
  ∧ (∀ no amount nonce recipient bm sibs, claim_typed no amount nonce bm sibs →
       zul_settlement s now (ix_claim_withdrawal cl no amount nonce recipient bm sibs)
       = handled (claim_withdrawal empties s recipient now no amount nonce {| bitmap := bm; siblings := sibs |}))
  ∧ (∀ no i n c, u64 no → u32 i → u32 n → u32 (Z.of_nat (length c)) →
       zul_da_log (ix_post_chunk cl no i n c)
       = let? _ := map_err Da_failed (post_chunk no i n c) in Ok (no, i, c)).
Proof.
  split_and!; [apply initialize_executes|apply post_batch_executes|apply deposit_sol_executes
              |apply deposit_spl_executes|apply claim_spl_executes|apply claim_executes|].
  intros no i n c Hno Hi Hn Hc. by apply post_chunk_executes.
Qed.

(** ** Whatever is sent *)

Lemma read_bytes_Some n d b d' : read_bytes n d = Some (b, d') → length b = n.
Proof.
  unfold read_bytes. case_decide; [done|]. intros [= <- _]. rewrite length_take. lia.
Qed.

Lemma read_u64_Some d x d' : read_uint 8 d = Some (x, d') → u64 x.
Proof.
  unfold read_uint. intros ([b r] & Hb & H)%bind_Some. injection H as <- _.
  apply le_val_u64. by eapply read_bytes_Some.
Qed.

Lemma read_hashes_Some n d hs d' : read_hashes n d = Some (hs, d') → Forall (λ h, length h = 32%nat) hs.
Proof.
  revert d hs d'. induction n as [|n IH]; intros d hs d'; cbn [read_hashes].
  - intros [= <- _]. constructor.
  - intros ([h d1] & Hh & H)%bind_Some. apply bind_Some in H as ([hs1 d2] & Hs & H). injection H as <- _.
    constructor; [by eapply read_bytes_Some|by eapply IH].
Qed.

Lemma claim_reader_typed d no amount nonce proof :
  claim_reader d = Some (no, amount, nonce, proof) → u64 amount ∧ u64 nonce ∧ proof_wf proof.
Proof.
  unfold claim_reader, read_vec32. intros ([? ?] & _ & H)%bind_Some.
  apply bind_Some in H as ([? ?] & Ha & H). apply bind_Some in H as ([? ?] & Hn & H).
  apply bind_Some in H as ([? ?] & _ & H). apply bind_Some in H as ([? ?] & Hs & H). injection H as <- <- <- <-.
  apply bind_Some in Hs as ([? ?] & _ & Hs). case_decide; [done|].
  split_and!; [by eapply read_u64_Some|by eapply read_u64_Some|by eapply read_hashes_Some].
Qed.

Lemma account_key_32 ix k key :
  Forall (λ m, length (am_pubkey m) = 32%nat) (i_accounts ix) → account_key ix k = Ok key → length key = 32%nat.
Proof.
  intros Hall Hk. unfold account_key in Hk. apply ok_or_Ok, fmap_Some in Hk as (m & Hm & ->).
  exact (Forall_lookup_1 _ _ _ _ Hall Hm).
Qed.

Lemma handled_Ok {A} (r : outcome SettlementError A) a : handled r = Ok a → r = Ok a.
Proof. unfold handled, map_err. destruct r; [by intros [= ->]|done|done]. Qed.

(** Every accepted instruction is a step of the program's histories. *)
Lemma entry_step s ps now ix s' :
  Forall (λ m, length (am_pubkey m) = 32%nat) (i_accounts ix) → l1_reach empties s ps →
  zul_settlement s now ix = Ok s' → ∃ ps', l1_reach empties s' (ps ++ ps').
Proof.
  intros Hkeys Hr. unfold zul_settlement.
  assert (Hsame : l1_reach empties s' ps → ∃ ps', l1_reach empties s' (ps ++ ps')).
  { intros H. exists []. by rewrite app_nil_r. }
  repeat match goal with |- context [decide ?Q] => destruct (decide Q) as [_|_] end; [..|done].
  - intros (? & _ & H)%obind_Ok. apply obind_Ok in H as (a & _ & H%handled_Ok). apply Hsame. by eapply reach_init.
  - intros (r & _ & H)%obind_Ok. apply obind_Ok in H as (? & _ & H). apply obind_Ok in H as (a & _ & H%handled_Ok).
    apply Hsame. by eapply reach_batch.
  - intros ([amount r] & _ & H)%obind_Ok. apply obind_Ok in H as (? & _ & H).
    apply obind_Ok in H as (a & _ & H%handled_Ok). apply Hsame. by eapply reach_deposit_sol.
  - intros ([amount r] & _ & H)%obind_Ok. do 5 apply obind_Ok in H as (? & _ & H). apply handled_Ok in H.
    apply Hsame. by eapply reach_deposit_spl.
  - intros ([[[no amount] nonce] proof] & Hargs & H)%obind_Ok. apply ok_or_Ok, claim_reader_typed in Hargs as (Ha & Hn & Hp).
    apply obind_Ok in H as (vault & _ & H). apply obind_Ok in H as (mint & Hmint & H).
    apply obind_Ok in H as (recipient & Hrec & H). do 2 apply obind_Ok in H as (? & _ & H). apply handled_Ok in H.
    exists [{| po_recipient := recipient; po_nonce := nonce; po_asset := mint; po_amount := amount;
               po_batch := no; po_proof := proof; po_native := false |}].
    eapply (reach_claim_spl empties s ps _ now); [exact Hr| |reflexivity|exact H].
    split_and!; [by eapply account_key_32|by eapply account_key_32|done|done|done|done].
  - intros ([[[no amount] nonce] proof] & Hargs & H)%obind_Ok. apply ok_or_Ok, claim_reader_typed in Hargs as (Ha & Hn & Hp).
    apply obind_Ok in H as (recipient & Hrec & H). apply obind_Ok in H as (? & _ & H). apply handled_Ok in H.
    exists [{| po_recipient := recipient; po_nonce := nonce; po_asset := NATIVE_ASSET_ID; po_amount := amount;
               po_batch := no; po_proof := proof; po_native := true |}].
    eapply (reach_claim empties s ps _ now); [exact Hr| |reflexivity|exact H].
    split_and!; [by eapply account_key_32|done|done|done|done|done].
Qed.

Definition keys_typed (ix : Instruction) : Prop :=
  Forall (λ m, length (am_pubkey m) = 32%nat) (i_accounts ix).

Lemma transaction_step now l ps ixs l' :
  Forall keys_typed ixs → l1_reach empties l.1 ps →
  run_transaction now l ixs = Ok l' → ∃ ps', l1_reach empties l'.1 (ps ++ ps').
Proof.
  intros Hty. revert l ps. induction Hty as [|ix ixs Hk _ IH]; intros l ps Hr; cbn [run_transaction ofold].
  { intros [= <-]. exists []. by rewrite app_nil_r. }
  intros (l1 & H1 & H)%obind_Ok. assert (Hl1 : ∃ ps1, l1_reach empties l1.1 (ps ++ ps1)).
  { assert (Hsame : l1_reach empties l.1 (ps ++ [])) by (by rewrite app_nil_r). unfold run_instruction in H1.
    case_decide; [|case_decide; [|case_decide; [|done]]].
    - apply obind_Ok in H1 as (s & Hs & [= <-]). by eapply entry_step.
    - apply obind_Ok in H1 as (c & _ & [= <-]). by exists [].
    - injection H1 as <-. by exists []. }
  destruct Hl1 as (ps1 & Hl1). destruct (IH l1 (ps ++ ps1) Hl1 H) as (ps2 & Hl2).
  exists (ps1 ++ ps2). by rewrite app_assoc.
Qed.

(** What a ledger becomes under a sequence of transactions, each at its time;
    a transaction that fails changes nothing. *)
Definition run_all (l : Ledger) (txs : list (Z * list Instruction)) : Ledger :=
  foldl (λ l tx, match run_transaction tx.1 l tx.2 with Ok l' => l' | _ => l end) l txs.

Lemma run_all_reach l ps txs :
  Forall (λ tx, Forall keys_typed tx.2) txs → l1_reach empties l.1 ps →
  ∃ ps', l1_reach empties (run_all l txs).1 (ps ++ ps').
Proof.
  intros Hty. revert l ps. induction Hty as [|[now ixs] txs Hk _ IH]; intros l ps Hr; cbn [run_all foldl fst snd].
  { exists []. by rewrite app_nil_r. }
  fold (run_all (match run_transaction now l ixs with Ok l' => l' | _ => l end) txs).
  destruct (run_transaction now l ixs) as [l'| |] eqn:Hrun; [|by apply IH..].
  destruct (transaction_step now l ps ixs l' Hk Hr Hrun) as (ps1 & Hl).
  destruct (IH l' (ps ++ ps1) Hl) as (ps2 & Hl2). exists (ps1 ++ ps2). by rewrite app_assoc.
Qed.

(** The program before its first instruction; its addresses may hold funds. *)
Definition fresh_program (v : Z) (toks : gmap Pubkey Z) : L1State :=
  {| l1_config := None; batches := ∅; claims := ∅; vault_lamports := v; vault_tokens := toks; l1_events := [] |}.

(** C9: no bytes get past the program: from a program without accounts, whatever
    transactions anyone sends, of whatever instructions, accounts and data, every
    claim account on the ledger stands for one payout that carried a proof
    against the withdrawals root of a posted batch, and what the vault holds, of
    SOL and of every mint, covers the announced deposits less those payouts. *)
Theorem any_transactions_safe v toks txs :
  0 ≤ v → map_Forall (λ _ t, 0 ≤ t) toks → Forall (λ tx, Forall keys_typed tx.2) txs →
  let s := (run_all (fresh_program v toks, []) txs).1 in
  ∃ ps, (∀ k, is_Some (claims s !! k) ↔ k ∈ po_key <$> ps) ∧ NoDup (po_key <$> ps)
    ∧ Forall (proven empties s) ps
    ∧ (0 ≤ vault_lamports s ∧ deposited None s ≤ vault_lamports s + sum_z paid_native ps)
    ∧ (∀ m, deposited (Some m) s ≤ default 0 (vault_tokens s !! m) + sum_z (paid_mint m) ps).
Proof.
  intros Hv Htoks Hty s. destruct (run_all_reach (fresh_program v toks, []) [] txs Hty (reach_start empties v toks Hv Htoks)) as (ps & Hr).
  exists ps. fold s in Hr. destruct (l1_reach_inv _ _ _ Hr) as [H1 H2 H3 H4 H5 H6 _ _ _ _ _].
  split_and!; done.
Qed.

End Entry.

(** ** Witnesses *)

Module Example.
Import L1RpcProps.Example.
#[local] Existing Instances Toy.blake3_toy Toy.solana_toy WrappedSpl.Example.addresses_toy.
#[local] Existing Instances Settlement.Example.runtime_toy sha_toy rpc_toy.

Abbreviation entry := (zul_settlement Settlement.Example.empties (pk 50) (λ _, pk 60) 255 254).

Lemma distinct : NoDup (global <$> handler_names).
Proof. apply (bool_decide_unpack _). vm_cast_no_check I. Qed.

(** The client's deposit, run by the program. *)
Lemma client_instructions_execute_witness :
  entry (Settlement.Example.after_history (pk 2)) 0 (ix_deposit_sol cl 20 (pk 5))
  = handled (deposit_sol (Settlement.Example.after_history (pk 2)) (pk 8) 20 (pk 5)).
Proof.
  assert (H20 : u64 20) by (unfold u64, u64_max; lia).
  exact (proj1 (proj2 (proj2 (client_instructions_execute Settlement.Example.empties (pk 50) (pk 51) (λ _, pk 60) 255 254
    distinct (pk 8) (Settlement.Example.after_history (pk 2)) 0))) 20 (pk 5) H20 eq_refl).
Defined.

(** Set-up and a deposit in one transaction, then bytes no handler answers to. *)
Definition sent : list (Z * list Instruction) :=
  [(1, [compute_unit_limit 1400000; ix_initialize cl; ix_deposit_sol cl 20 (pk 5)]);
   (2, [{| i_program_id := pk 50; i_accounts := []; i_data := [Byte.x07] |}])].

Lemma any_transactions_safe_witness :
  ∃ ps, Forall (proven Settlement.Example.empties (run_all Settlement.Example.empties (pk 50) (pk 51) (λ _, pk 60) 255 254
                          (Settlement.Example.start, []) sent).1) ps
    ∧ vault_lamports (run_all Settlement.Example.empties (pk 50) (pk 51) (λ _, pk 60) 255 254
                        (Settlement.Example.start, []) sent).1 = 20.
Proof.
  destruct (any_transactions_safe Settlement.Example.empties (pk 50) (pk 51) (λ _, pk 60) 255 254 0 ∅ sent)
    as (ps & _ & _ & Hp & _).
  - lia.
  - apply map_Forall_empty.
  - repeat (constructor; cbn); reflexivity.
  - exists ps. split; [exact Hp|]. vm_cast_no_check (@eq_refl Z 20).
Defined.
End Example.
