(* ===== verification/Tools.v ===== *)
(** * The command-line tools of the bridge

    Models [chain/zul-node/src/bin/zul-l1-deposit.rs], [zul-l1-claim.rs] and
    [zul-recover.rs]: argument parsing, the client they build from the
    configuration, the withdrawal proof the claim tool asks the node for, and
    the instructions they send. Reading the configuration and key files and the
    HTTP request are parameters; a tool that polls the L1 is given what the L1
    looks like at each poll. What the tools print is left out, except where
    printing can panic. *)

From S2P Require Import Prelude External Json Hash Paths Smt Account Block Config Store WrappedSpl NodeBridge NodeLedger Settlement Recover L1Rpc.

Inductive ToolError :=
| MissingArgument (name : string)
| BadArgument
| BadConfig
| BadKeypair
| L2Failed (error : Value)
| NoResult
| BadAnswer
| L1Failed (e : L1Error)
| Invalid (e : RecoverError).

(** ** Arguments *)

(** The argument after the first occurrence of the name. *)
Fixpoint arg (args : list bytes) (name : string) : option bytes :=
  match args with
  | [] => None
  | a :: args => if decide (a = bstr name) then head args else arg args name
  end.

Definition flag (args : list bytes) (name : string) : bool := existsb (λ a, bool_decide (a = bstr name)) args.

Section Tools.
Context `{B3 : Blake3} `{TX : SolanaTx} `{SA : SolanaAddresses} `{S2 : Sha256} `{T : TextCodecs}.
Context `{Z0 : Zstd} `{!Bincode BatchPayload} `{!Bincode (list Block)}.
Context {W : Type} `{RPC : !JsonRpc W}.
(** Reading a configuration and a key file. *)
Context (load : bytes → outcome ToolError L1Section) (load_keypair : bytes → outcome ToolError Pubkey).
(** The throwaway key of the recovery tool, which signs nothing. *)
Context (throwaway : Pubkey).

Definition config_path (args : list bytes) : bytes := default (bstr "./config/node.toml") (arg args "--config").

Definition from_str (s : bytes) : outcome ToolError Pubkey := ok_or (b58_fixed 32 s) BadArgument.

Definition required (args : list bytes) (name : string) : outcome ToolError bytes :=
  ok_or (arg args name) (MissingArgument name).

Definition required_u64 (args : list bytes) (name : string) : outcome ToolError Z :=
  let? s := required args name in ok_or (parse_u64 s) BadArgument.

Definition TOKEN_PROGRAM : bytes := bstr "TokenkegQfeZyiNwAJbNbGKPFXCWuBvf9Ss623VQ5DA".
Definition TOKEN_2022_PROGRAM : bytes := bstr "TokenzQdBNbLqP5VEhdkAS6EPFLC1PHnBqCXEpPxuEb".

Definition token_program_of (args : list bytes) : outcome ToolError Pubkey :=
  from_str (if flag args "--token-2022" then TOKEN_2022_PROGRAM else TOKEN_PROGRAM).

(** The client of the deposit and claim tools: without a valid log program the
    settlement program's id stands in for it. *)
Definition signing_client (l1 : L1Section) : outcome ToolError RpcL1Client :=
  let? settlement := from_str (settlement_program_id l1) in
  let da_log := default settlement (b58_fixed 32 (da_log_program_id l1)) in
  let? authority := load_keypair (bridge_authority_key_path l1) in
  Ok (new_client authority settlement da_log).

Definition l1_err {A} (r : outcome L1Error A) : outcome ToolError A := map_err L1Failed r.

Definition send (w : W) (ix : Instruction) : W * outcome ToolError bytes :=
  let '(w, r) := send_and_confirm w ix in (w, l1_err r).

(** ** Depositing *)

Definition deposit_instruction (args : list bytes) : outcome ToolError Instruction :=
  let? amount := required_u64 args "--amount" in
  let? r := required args "--recipient" in
  let? recipient := from_str r in
  let? l1 := load (config_path args) in
  if decide (rpc_url l1 = [] ∨ settlement_program_id l1 = []) then Err BadConfig
  else
    let? cl := signing_client l1 in
    match arg args "--asset" with
    | Some mint_str =>
        let? mint := from_str mint_str in
        let? token_program := token_program_of args in
        Ok (ix_deposit_spl cl amount mint token_program recipient)
    | None => Ok (ix_deposit_sol cl amount recipient)
    end.

Definition deposit_main (args : list bytes) (w : W) : W * outcome ToolError bytes :=
  match deposit_instruction args with
  | Ok ix => send w ix
  | Err e => (w, Err e)
  | Panic => (w, Panic)
  end.

(** ** Claiming *)

Definition b58_32 (s : bytes) : outcome ToolError bytes := ok_or (b58_fixed 32 s) BadAnswer.

Record ClaimOptions := {
  co_recipient : Pubkey;
  co_amount : Z;
  co_nonce : Z;
  co_client : RpcL1Client;
  co_asset : option Pubkey;
}.

Definition claim_options (args : list bytes) : outcome ToolError ClaimOptions :=
  let? r := required args "--recipient" in
  let? recipient := from_str r in
  let? amount := required_u64 args "--amount" in
  let? nonce := required_u64 args "--nonce" in
  let? l1 := load (config_path args) in
  let? cl := signing_client l1 in
  let? asset := match arg args "--asset" with
                | Some s => let? mint := from_str s in Ok (Some mint)
                | None => Ok None
                end in
  Ok {| co_recipient := recipient; co_amount := amount; co_nonce := nonce; co_client := cl; co_asset := asset |}.

Definition claim_params (o : ClaimOptions) : Value :=
  JArr ([JStr (b58_encode (co_recipient o)); JNum (co_amount o); JNum (co_nonce o)]
        ++ match co_asset o with Some mint => [JStr (b58_encode mint)] | None => [] end).

Definition proof_request (o : ClaimOptions) : Value :=
  JObj [("jsonrpc", JStr (bstr "2.0")); ("id", JNum 1); ("method", JStr (bstr "getWithdrawalProof"));
        ("params", claim_params o)].

Definition text_field (key : string) (v : Value) : bytes := default [] (as_str (at_field key v)).

Definition push_sibling (acc : list bytes) (s : Value) : outcome ToolError (list bytes) :=
  let? h := b58_32 (default [] (as_str s)) in Ok (acc ++ [h]).

(** The root, the bitmap and the siblings of an answer. The root's text is then
    printed up to its eighth byte, which panics when it is shorter. *)
Definition read_answer (resp : Value) : outcome ToolError (H256 * SmtProof) :=
  match get_field "error" resp with
  | Some err => Err (L2Failed err)
  | None =>
      let? result := ok_or (get_field "result" resp) NoResult in
      let? root := b58_32 (text_field "stateRoot" result) in
      let? bm := b58_32 (text_field "bitmap" result) in
      let? sibs := ok_or (as_array (at_field "siblings" result)) BadAnswer in
      let? sibs := ofold push_sibling [] sibs in
      match as_str (at_field "stateRoot" result) with
      | Some s => if decide (length s < 8)%nat then Panic
                  else Ok (root, {| bitmap := bm; siblings := sibs |})
      | None => Panic
      end
  end.

(** Polls until a batch carries the root; [None] while none does. The claim is
    sent to the L1 the batch was found on. *)
Fixpoint wait_for_batch (cl : RpcL1Client) (polls : list W) (root : H256) : option (outcome ToolError (Z * W)) :=
  match polls with
  | [] => None
  | w :: polls =>
      match find_batch_for_withdrawals_root cl w root with
      | Ok (Some no) => Some (Ok (no, w))
      | Ok None => wait_for_batch cl polls root
      | Err e => Some (Err (L1Failed e))
      | Panic => Some Panic
      end
  end.

Definition claim_instruction (args : list bytes) (o : ClaimOptions) (no : Z) (proof : SmtProof)
    : outcome ToolError Instruction :=
  match co_asset o with
  | Some mint =>
      let? token_program := token_program_of args in
      Ok (ix_claim_withdrawal_spl (co_client o) no (co_amount o) (co_nonce o) (co_recipient o) mint token_program
            (bitmap proof) (siblings proof))
  | None => Ok (ix_claim_withdrawal (co_client o) no (co_amount o) (co_nonce o) (co_recipient o)
                  (bitmap proof) (siblings proof))
  end.

(** [l2] is what the node's RPC answers to a request. *)
Definition claim_main (args : list bytes) (l2 : Value → outcome ToolError Value) (polls : list W)
    : option (outcome ToolError (W * bytes)) :=
  match (let? o := claim_options args in
         let? resp := l2 (proof_request o) in
         let? (root, proof) := read_answer resp in
         Ok (o, root, proof)) with
  | Ok (o, root, proof) =>
      match wait_for_batch (co_client o) polls root with
      | Some (Ok (no, w)) =>
          Some (let? ix := claim_instruction args o no proof in
                let '(w, r) := send w ix in
                let? signature := r in Ok (w, signature))
      | Some (Err e) => Some (Err e)
      | Some Panic => Some Panic
      | None => None
      end
  | Err e => Some (Err e)
  | Panic => Some Panic
  end.

(** ** Recovering *)

Definition recover_client (args : list bytes) : outcome ToolError RpcL1Client :=
  let? l1 := load (config_path args) in
  if decide (rpc_url l1 = [] ∨ settlement_program_id l1 = [] ∨ da_log_program_id l1 = []) then Err BadConfig
  else
    let? settlement := from_str (settlement_program_id l1) in
    let? da_log := from_str (da_log_program_id l1) in
    Ok (new_client throwaway settlement da_log).

(** The summary that is printed and the bytes written to [--out]. [pages] bounds
    the walk over the log; [None] when it is too small. *)
Definition recover_main (args : list bytes) (w : W) (pages : nat)
    : option (outcome ToolError (RecoverySummary * option bytes)) :=
  match recover_client args with
  | Ok cl =>
      fetched ← fetch_settlement_batches cl w pages;
      Some (let? bs := l1_err fetched in
            let? summary := map_err Invalid (verify bs) in
            Ok (summary, _ ← arg args "--out"; Some (serialize (bs ≫= λ b, bp_blocks (rb_payload b)))))
  | Err e => Some (Err e)
  | Panic => Some Panic
  end.

End Tools.
