(* ===== verification/BatcherL1.v ===== *)
(** * The batcher over the settlement program

    An L1 client built on the settlement and data-availability programs
    ([Settlement]) behind a network that may lose a transaction, or run it and
    lose the confirmation. It satisfies the laws the batcher relies on
    ([L1ClientLaws]), which puts the batcher's theorem on top of the program's
    invariant. *)

From S2P Require Import Prelude External Json Hash Account Block Store Settlement Recover NodeChain Batcher L1Rpc L1RpcProps.

(** What the network does with a transaction. *)
Inductive Fate := Confirmed_ok | Lost | Unconfirmed.

Record L1World := {
  w_l1 : L1State;
  w_da : list (Z * Z * bytes);
  w_fates : list Fate;
  w_balance : Z;
}.

Section World.
Context `{B3 : Blake3} `{TX : SolanaTx} `{RT : L1Runtime}.
Context (authority : Pubkey).

(** Run a transaction that would lead to [next], or fails when there is none. *)
Definition submit (w : L1World) (next : option (L1State * list (Z * Z * bytes)))
    : L1World * outcome L1Error bytes :=
  let fate := default Confirmed_ok (head (w_fates w)) in
  let stay := {| w_l1 := w_l1 w; w_da := w_da w; w_fates := tail (w_fates w); w_balance := w_balance w |} in
  match next with
  | None => (stay, Err (TransactionFailed "instruction"))
  | Some (s, da) =>
      let ran := {| w_l1 := s; w_da := da; w_fates := tail (w_fates w); w_balance := w_balance w |} in
      match fate with
      | Confirmed_ok => (ran, Ok [])
      | Lost => (stay, Err (Rpc "lost"))
      | Unconfirmed => (ran, Err (Rpc "confirmation timed out"))
      end
  end.

Definition world_post_chunk (w : L1World) (no i n : Z) (d : bytes) : L1World * outcome L1Error bytes :=
  submit w (match post_chunk no i n d with Ok _ => Some (w_l1 w, w_da w ++ [(no, i, d)]) | _ => None end).

Definition world_post_record (w : L1World) (r : BatchRecord) : L1World * outcome L1Error bytes :=
  submit w
    (match post_batch (w_l1 w) authority 0 (r_batch_no r) (r_first_slot r) (r_last_slot r) (r_state_root r)
             (r_withdrawals_root r) (r_da_hash r) (r_chunk_count r) with
     | Ok s => Some (s, w_da w)
     | _ => None
     end).

Definition world_initialize (w : L1World) : L1World * outcome L1Error () :=
  match l1_config (w_l1 w) with
  | Some _ => (w, Ok ())
  | None =>
      match submit w (match initialize (w_l1 w) authority 255 254 with Ok s => Some (s, w_da w) | _ => None end) with
      | (w, Ok _) => (w, Ok ())
      | (w, Err e) => (w, Err e)
      | (w, Panic) => (w, Panic)
      end
  end.

#[export] Instance world_client : L1Client L1World := {|
  post_da_chunk := world_post_chunk;
  post_batch_record := world_post_record;
  latest_batch_no w := Ok (if decide (count_on (w_l1 w) = 0) then None else Some (count_on (w_l1 w) - 1));
  fetch_deposits _ _ := Ok [];
  ensure_initialized := world_initialize;
  resume_cursor_slot w :=
    Ok (match batches (w_l1 w) !! (count_on (w_l1 w) - 1) with Some b => wadd (b_last_slot b) 1 | None => 1 end);
  authority_balance w := Ok (w_balance w);
|}.

(** The records of a settlement state, by number. *)
Definition settled_records (s : L1State) : list BatchRecord :=
  omap (λ k, record_of <$> batches s !! k) (seqZ 0 (count_on s)).

Definition sound (w : L1World) : Prop := ∃ empties ps, l1_inv empties (w_l1 w) ps.

Lemma settled_records_length s empties ps :
  l1_inv empties s ps → Z.of_nat (length (settled_records s)) = count_on s.
Proof.
  intros [_ _ _ _ _ _ _ Hb _ Hpos _]. unfold settled_records.
  assert (Hall : ∀ l : list Z, Forall (λ k, is_Some (batches s !! k)) l →
                   length (omap (λ k, record_of <$> batches s !! k) l) = length l).
  { induction 1 as [|k l [b Hk] _ IH]; [done|]. cbn. rewrite Hk. cbn. by rewrite IH. }
  rewrite Hall, length_seqZ; [unfold count_on; lia|].
  apply list.Forall_forall. intros k Hk%elem_of_seqZ. apply Hb. unfold count_on in Hk. lia.
Qed.

Lemma settled_records_last s empties ps :
  l1_inv empties s ps → list.last (settled_records s) = record_of <$> batches s !! (count_on s - 1).
Proof.
  intros [_ _ _ _ _ _ _ Hb _ Hpos _]. unfold settled_records. fold (count_on s) in *.
  destruct (decide (count_on s = 0)) as [Hz|Hz].
  - rewrite Hz. rewrite seqZ_nil by lia. change (0 - 1) with (-1).
    assert (Hm : batches s !! (-1) = None).
    { apply eq_None_not_Some. intros Hs%Hb. lia. }
    by rewrite Hm.
  - replace (count_on s) with (count_on s - 1 + 1) at 1 by lia.
    rewrite seqZ_app by lia. rewrite omap_app.
    destruct (proj2 (Hb (count_on s - 1))) as [b Hlast]; [lia|].
    rewrite Z.add_0_l. change (seqZ (count_on s - 1) 1) with [count_on s - 1].
    cbn [omap list_omap]. rewrite Hlast. cbn. apply last_snoc.
Qed.

(** A posted batch is the next record. *)
Lemma settled_records_post s empties ps a now no f l sr wr da cc s' :
  l1_inv empties s ps → post_batch s a now no f l sr wr da cc = Ok s' →
  no = Z.of_nat (length (settled_records s))
  ∧ settled_records s' = settled_records s
      ++ [{| r_batch_no := no; r_first_slot := f; r_last_slot := l; r_state_root := sr;
             r_withdrawals_root := wr; r_da_hash := da; r_chunk_count := cc |}].
Proof.
  intros Hi. rewrite (settled_records_length s empties ps Hi). unfold post_batch.
  intros (cfg & Hcfg & H)%obind_Ok. apply ok_or_Ok in Hcfg. destruct Hi as [_ _ _ _ _ _ _ _ _ Hpos _].
  destruct (decide (is_Some _)) as [|Hno]; [done|]. destruct (decide (a ≠ _)); [done|].
  destruct (decide (no ≠ _)) as [|Hseq%dec_stable]; [done|]. destruct (decide (l < f)); [done|].
  apply obind_Ok in H as (count & Hcount & H). apply ok_or_Ok, checked_add_Some in Hcount as [-> Hov].
  injection H as <-.
  assert (Hc : count_on s = no) by (unfold count_on; rewrite Hcfg; done).
  split; [done|]. unfold settled_records at 1.
  assert (Hc' : count_on (emit (BatchPosted no f l sr da)
      {| l1_config := Some {| cfg_authority := cfg_authority cfg; batch_count := batch_count cfg + 1;
                              total_deposited := total_deposited cfg; bump := bump cfg; vault_bump := vault_bump cfg |};
         batches := <[no := {| b_batch_no := no; b_first_slot := f; b_last_slot := l; b_state_root := sr;
                               b_withdrawals_root := wr; b_da_hash := da; b_chunk_count := cc; posted_at := now |}]> (batches s);
         claims := claims s; vault_lamports := vault_lamports s; vault_tokens := vault_tokens s;
         l1_events := l1_events s |}) = no + 1) by (unfold count_on; cbn; lia).
  rewrite Hc'. rewrite Hcfg in Hpos. cbn in Hpos. rewrite seqZ_app by lia. rewrite omap_app. f_equal.
  - unfold settled_records. rewrite Hc. apply list_omap_ext, list.Forall_Forall2_diag, list.Forall_forall.
    intros k Hk%elem_of_seqZ. cbn [emit batches]. rewrite lookup_insert_ne by lia. done.
  - rewrite Z.add_0_l. change (seqZ no 1) with [no]. cbn. rewrite lookup_insert_eq. done.
Qed.

Lemma submit_spec w next w' r :
  submit w next = (w', r) →
  r ≠ Panic ∧ (next = Some (w_l1 w', w_da w')
               ∨ (w_l1 w' = w_l1 w ∧ w_da w' = w_da w ∧ is_ok r = false)).
Proof.
  unfold submit. destruct next as [[s da]|]; [destruct (default _ _)|]; intros [= <- <-];
    (split; [done|]); [by left|by right|by left|by right].
Qed.

#[export] Instance world_laws : L1ClientLaws L1World.
Proof.
  refine {| good := sound; chunks_on := w_da; records_on w := settled_records (w_l1 w) |}.
  - intros w no i n d w' r Hg _ [Hr H]%submit_spec. destruct H as [H|(Hs & Hd & Ho)].
    + destruct (post_chunk no i n d); [|done|done]. injection H as Hs Hd.
      unfold sound. rewrite <- Hs, <- Hd. split_and!; [done|done|done|by left].
    + unfold sound. rewrite Hs, Hd. split_and!; [done|done|done|by right].
  - intros w rec w' r (empties & ps & Hi) _ [Hr H]%submit_spec. destruct H as [H|(Hs & Hd & Ho)].
    + destruct (post_batch _ _ _ _ _ _ _ _ _ _) as [s| |] eqn:Hp; [|done|done]. injection H as Hs Hd. subst s.
      split; [exists empties, ps; by eapply post_batch_inv|]. split; [done|]. split; [done|]. left.
      apply (settled_records_post _ _ _ _ _ _ _ _ _ _ _ _ _ Hi) in Hp as [Hn Hrec]. split; [exact Hn|].
      rewrite Hrec. by destruct rec.
    + split; [exists empties, ps; by rewrite Hs|]. rewrite Hs. split_and!; [done|done|by right].
  - intros w w' r (empties & ps & Hi). cbn [ensure_initialized world_client]. unfold world_initialize.
    destruct (l1_config (w_l1 w)) as [c|] eqn:Hc.
    { intros [= <- <-]. split_and!; [by exists empties, ps|done|done|done]. }
    destruct (submit _ _) as [w1 r1] eqn:Hsub. intros Hret.
    assert (Hw : w' = w1 ∧ (r1 ≠ Panic → r ≠ Panic)) by (by destruct r1; injection Hret as <- <-).
    destruct Hw as [-> Hnp]. apply submit_spec in Hsub as [Hr H]. destruct H as [H|(Hs & Hd & _)].
    + destruct (initialize _ _ _ _) as [s| |] eqn:Hp; [|done|done]. injection H as Hs Hd. subst s.
      pose proof (initialize_inv _ _ _ _ _ _ _ Hi Hp) as Hi'.
      unfold initialize in Hp. rewrite Hc in Hp. injection Hp as Hp.
      split; [by exists empties, ps|]. split; [by apply Hnp|]. split; [|done].
      rewrite <- Hp. unfold settled_records, count_on. by rewrite Hc.
    + split; [exists empties, ps; by rewrite Hs|]. rewrite Hs. split_and!; [by apply Hnp|done|done].
  - intros w o (empties & ps & Hi). cbn [latest_batch_no world_client]. intros [= <-].
    pose proof (settled_records_length _ _ _ Hi) as Hl.
    destruct (settled_records (w_l1 w)) as [|x l]; cbn [length] in *.
    + by rewrite decide_True, decide_True by (done || lia).
    + rewrite decide_False, decide_False by (done || lia). by rewrite Hl.
  - intros w s (empties & ps & Hi). cbn [resume_cursor_slot world_client]. intros [= <-].
    rewrite (settled_records_last _ _ _ Hi). by destruct (batches (w_l1 w) !! _).
Defined.

End World.

(** ** Witness *)

Module Example.
#[local] Existing Instances Toy.blake3_toy Toy.solana_toy Settlement.Example.runtime_toy.
#[local] Existing Instances StoreToy.block_codec L1RpcProps.Example.zstd_toy L1RpcProps.Example.payload_codec.

Definition pk (n : Z) : Pubkey := le_bytes 32 n.
#[local] Existing Instances world_client world_laws.

Definition block (s n : Z) : Block :=
  {| header := {| slot := s; parent_hash := []; state_root := pk 0; transactions_root := []; timestamp_ms := 0;
                  transaction_count := n |};
     transactions := []; sequencer_signature := [] |}.

Definition chain : list Block := [block 1 1; block 2 0; block 3 1].

Definition store_of (bs : list Block) : Store :=
  {| t_accounts := ∅; t_blocks := list_to_map (zip (seqZ 1 (Z.of_nat (length bs))) (serialize <$> bs));
     t_tx_loc := ∅; t_tx_meta := ∅; t_addr_sigs := ∅; t_smt := ∅; t_nullifiers := ∅;
     t_meta := {[ META_LATEST_SLOT := le_bytes 8 (Z.of_nat (length bs)) ]} |}.

Definition w0 : L1World :=
  {| w_l1 := Settlement.Example.start; w_da := []; w_fates := replicate 22 Confirmed_ok ++ [Unconfirmed; Lost];
     w_balance := 30000000 |}.

(** The batcher derived from L1, and after each of three passes: a record posted
    without a confirmation, a lost chunk, and a pass without faults. *)
Definition b0 : Batcher :=
  match build_batcher (L1 := world_client (pk 8)) w0 with
  | (_, Ok b) => b
  | (w, _) => {| client := w; cursor_slot := 0; next_batch_no := 0 |}
  end.
Definition pass (bs : list Block) (b : Batcher) : Batcher :=
  sweep (L1 := world_client (pk 8)) 2 b (store_of bs).
Definition b3 : Batcher := pass chain (pass chain (pass (take 2 chain) b0)).

Lemma store_holds (bs : list Block) :
  Z.of_nat (length bs) ≤ u64_max → Forall root_typed bs → chain_store (store_of bs) bs.
Proof.
  intros Hle Hty. split; [|split; [|exact Hty]]; clear Hty.
  - clear Hle. induction bs as [|b bs IH] using rev_ind; intros s.
    + unfold blocks_at. by case_decide.
    + specialize (IH s). rewrite blocks_at_snoc. cbn [store_of t_blocks] in *.
      rewrite length_app, Nat2Z.inj_add, seqZ_app, fmap_app by lia.
      rewrite zip_with_app by (rewrite length_seqZ, length_fmap; lia).
      rewrite list_to_map_app, lookup_union, IH. change (Z.of_nat (length [b])) with 1.
      replace (1 + Z.of_nat (length bs)) with (Z.of_nat (length bs) + 1) by lia.
      change (seqZ (Z.of_nat (length bs) + 1) 1) with [Z.of_nat (length bs) + 1]. cbn [fmap list_fmap zip zip_with list_to_map foldr].
      rewrite insert_empty. case_decide as Hs.
      * subst s. rewrite lookup_singleton_eq. unfold blocks_at. rewrite decide_True by lia.
        rewrite lookup_ge_None_2 by lia. done.
      * rewrite lookup_singleton_ne by done. by destruct (serialize <$> blocks_at bs s).
  - unfold latest_slot, read_meta. cbn [store_of t_meta]. rewrite lookup_singleton_eq. cbn [mbind option_bind].
    rewrite decide_True by (apply length_le_bytes). cbn [default from_option id]. apply le64_roundtrip.
    unfold u64. lia.
Qed.

Ltac typed_roots := repeat (constructor; [reflexivity|]); constructor.

Lemma b3_reached : batcher_reach (LAWS := world_laws (pk 8)) 2 b3 chain.
Proof.
  assert (Hlen : Z.of_nat (length chain) + 10001 ≤ u64_max) by (unfold u64_max; cbn; lia).
  assert (Hlen2 : Z.of_nat (length (take 2 chain)) + 10001 ≤ u64_max) by (unfold u64_max; cbn; lia).
  apply (reach_sweep 2 (pass chain (pass (take 2 chain) b0)) chain); [|done|apply store_holds; [lia|typed_roots]|exact Hlen].
  apply (reach_sweep 2 (pass (take 2 chain) b0) (take 2 chain));
    [|by exists [block 3 1]|apply store_holds; [lia|typed_roots]|exact Hlen].
  apply (reach_sweep 2 b0 (take 2 chain)); [|done|apply store_holds; [lia|typed_roots]|exact Hlen2].
  eapply (reach_fresh 2 w0); [|reflexivity|reflexivity|exact Hlen2].
  exists [], []. apply l1_reach_inv, reach_start; [done|apply map_Forall_empty].
Qed.

Lemma chain_numbered : numbered chain.
Proof.
  intros s b. unfold blocks_at. case_decide as Hs; [|done]. intros Hb.
  assert (Hlt : (Z.to_nat (s - 1) < 3)%nat) by (apply lookup_lt_Some in Hb; exact Hb).
  assert (Hc : s = 1 ∨ s = 2 ∨ s = 3) by lia.
  destruct Hc as [-> | [-> | ->]]; injection Hb as <-; reflexivity.
Qed.

Lemma batcher_settles_chain_witness :
  (r_last_slot <$> records_on (L1ClientLaws := world_laws (pk 8)) (client b3)) = [2; 3]
  ∧ ∃ ps summary, verify (recovered (records_on (L1ClientLaws := world_laws (pk 8)) (client b3)) ps) = Ok summary
                  ∧ s_batches summary = 2 ∧ s_last_slot summary = 3.
Proof.
  assert (He : (r_last_slot <$> records_on (L1ClientLaws := world_laws (pk 8)) (client b3)) = [2; 3])
    by (vm_compute; reflexivity).
  assert (Hc : (Z.of_nat (length (records_on (L1ClientLaws := world_laws (pk 8)) (client b3))),
                last_end (records_on (L1ClientLaws := world_laws (pk 8)) (client b3))) = (2, 3))
    by (vm_compute; reflexivity).
  set (recs := records_on (client b3)) in *. split; [exact He|].
  destruct (batcher_settles_chain 2 b3 chain ltac:(lia) b3_reached chain_numbered) as (ps & _ & _ & _ & Hv).
  fold recs in Hv. clearbody recs.
  destruct Hv as (summary & Hv & Hb & Hl); [intros Hnil; rewrite Hnil in He; discriminate|].
  exists ps, summary. split; [exact Hv|]. injection Hc as H1 H2. rewrite Hb, Hl, H1, H2. split; reflexivity.
Defined.

End Example.
