(* ===== verification/L1Stack.v ===== *)
(** * The L1 client over the L1 programs

    The whole way of a post: [RpcL1Client] ([L1Rpc], [L1Transport]) sends a signed
    transaction as JSON to an RPC node, which runs its instructions through the
    programs' entry points ([Entry]) on a ledger, behind a network that may drop
    the transaction, lose the answer, or never show its status. The client
    satisfies the laws the batcher relies on ([Batcher.L1ClientLaws]): the
    theorems about settlement hold of the real client over the real programs. *)

From S2P Require Import Prelude External Json Hash Account Block Smt Store WrappedSpl NodeBridge NodeLedger Settlement Recover NodeChain Batcher L1Rpc L1RpcProps L1Transport Entry BatcherL1.

(** What the network does with a transaction: it runs and is confirmed, it is
    lost, it runs and the answer is lost, or it runs and its status never shows. *)
Inductive Delivery := Delivered | Dropped | Unanswered | Unseen.

Record L1Node := {
  n_ledger : Ledger;
  n_deliveries : list Delivery;
  n_visible : bool;
  n_balance : Z;
}.

Definition method_of (body : Value) : option bytes := get_field "method" body ≫= as_str.
Definition param_of (body : Value) : option bytes := (get_field "params" body ≫= get_index 0) ≫= as_str.
Definition is_method (name : string) (body : Value) : bool := bool_decide (method_of body = Some (bstr name)).

Section Stack.
Context `{B3 : Blake3} `{TX : SolanaTx} `{SA : SolanaAddresses} `{S2 : Sha256} `{T : TextCodecs} `{RT : L1Runtime}.
Context `{Z0 : Zstd} `{!Bincode BatchPayload}.
Context (system_id budget_id program da_program : Pubkey) (mint_program : Pubkey → Pubkey) (bump0 vault_bump0 : Z).
Context (empties : list H256) (authority : Pubkey).
(** Signing and reading a transaction's bytes. *)
Context (signed_wire : list Instruction → H256 → bytes) (wire_instructions : bytes → option (list Instruction)).

Let cl : RpcL1Client := new_client authority program da_program.

(** ** The RPC node *)

Definition batch_at (s : L1State) (key : Pubkey) : option bytes :=
  head (omap (λ kb : Z * Batch, if decide (batch_pda cl kb.1 = key) then Some (batch_account kb.2) else None)
             (map_to_list (batches s))).

Definition account_at (s : L1State) (key : Pubkey) : option bytes :=
  if decide (key = config_pda cl) then config_account <$> l1_config s else batch_at s key.

Definition status_json (visible : bool) : Value :=
  JObj [("value", JArr [if visible then JObj [("err", JNull); ("confirmationStatus", jtext "confirmed")] else JNull])].

Definition blockhash_json : Value :=
  JObj [("value", JObj [("blockhash", JStr (b58_encode ZERO_HASH))])].

Definition answer (w : L1Node) (body : Value) : Answer :=
  if is_method "getAccountInfo" body then
    reply (account_json (k ← (param_of body ≫= b58_decode); account_at (n_ledger w).1 k))
  else if is_method "getLatestBlockhash" body then reply blockhash_json
  else if is_method "getSignatureStatuses" body then reply (status_json (n_visible w))
  else if is_method "getBalance" body then reply (JObj [("value", JNum (n_balance w))])
  else reply (JArr []).

Definition refused : Answer := Answered (JObj [("jsonrpc", jtext "2.0"); ("error", JObj []); ("id", JNum 1)]).

(** The runtime's dispatch needs the compute-budget program of the interface of
    [L1Rpc]; the other members of the instance below are not used by it. *)
Definition ids : JsonRpc () := {|
  system_program := system_id; compute_budget_program := budget_id; address_text := b58_encode;
  L1Rpc.get_balance _ _ := Ok None; L1Rpc.get_account_info _ _ := Ok None; get_signatures _ _ _ _ _ := Ok [];
  get_transaction_view _ _ := Err (Rpc ""); L1Rpc.send_transaction w _ := (w, Err (Rpc ""));
  get_signature_status _ _ _ := Ok NoStatus |}.

Definition execute (w : L1Node) (body : Value) : option Ledger :=
  wire ← (param_of body ≫= b64_decode); ixs ← wire_instructions wire;
  match run_transaction (RPC := ids) empties program da_program mint_program bump0 vault_bump0 0 (n_ledger w) ixs with
  | Ok l => Some l
  | _ => None
  end.

Definition deliver (w : L1Node) (body : Value) : L1Node * Answer :=
  let rest := tail (n_deliveries w) in
  let node l seen := {| n_ledger := l; n_deliveries := rest; n_visible := seen; n_balance := n_balance w |} in
  match execute w body with
  | None => (node (n_ledger w) false, refused)
  | Some l =>
      match default Delivered (head (n_deliveries w)) with
      | Delivered => (node l true, reply (jtext "signature"))
      | Dropped => (node (n_ledger w) false, Unreachable)
      | Unanswered => (node l true, Unreachable)
      | Unseen => (node l false, reply (jtext "signature"))
      end
  end.

#[export] Instance node_http : Http L1Node := {|
  http_read w _ body := answer w body;
  http_send := deliver;
|}.

Abbreviation net := (transport system_id budget_id signed_wire).
Abbreviation run_ix := (run_instruction (RPC := ids) empties program da_program mint_program bump0 vault_bump0 0).

(** ** What is assumed of the deployment *)

Context (wire_roundtrip : ∀ ixs h, wire_instructions (signed_wire ixs h) = Some ixs).
Context (Hdistinct : NoDup (global <$> handler_names)).
Context (Hprograms : program ≠ da_program ∧ budget_id ≠ program ∧ budget_id ≠ da_program).
(** Derived addresses do not collide. *)
Context (Hbatch : ∀ j k, u64 j → u64 k → batch_pda cl j = batch_pda cl k → j = k).
Context (Hconfig : ∀ k, batch_pda cl k ≠ config_pda cl).
Context (Hauthority : length authority = 32%nat).

(** ** Reading *)

Definition typed_state (s : L1State) : Prop :=
  (∀ c, l1_config s = Some c → config_wf c) ∧ map_Forall (λ k b, u64 k ∧ batch_wf b) (batches s).

Lemma batch_at_pda s k :
  typed_state s → u64 k → batch_at s (batch_pda cl k) = batch_account <$> batches s !! k.
Proof.
  intros [_ Hb] Hk. unfold batch_at. destruct (batches s !! k) as [b|] eqn:Hs; cbn [fmap option_fmap option_map].
  - assert (Hin : batch_account b ∈ omap (λ kb : Z * Batch, if decide (batch_pda cl kb.1 = batch_pda cl k)
                     then Some (batch_account kb.2) else None) (map_to_list (batches s))).
    { apply list_elem_of_omap. exists (k, b). split; [by apply elem_of_map_to_list|]. cbn. by rewrite decide_True. }
    assert (Hall : ∀ x, x ∈ omap (λ kb : Z * Batch, if decide (batch_pda cl kb.1 = batch_pda cl k)
                     then Some (batch_account kb.2) else None) (map_to_list (batches s)) → x = batch_account b).
    { intros x ([j b'] & Hj & Hx)%list_elem_of_omap. apply elem_of_map_to_list in Hj. cbn [fst snd] in Hx.
      case_decide as He; [|done]. apply Hbatch in He; [|by apply (Hb j b' Hj)|done]. congruence. }
    destruct (omap _ _) as [|x l]; [by apply not_elem_of_nil in Hin|]. cbn. f_equal. apply Hall. left.
  - assert (Hnil : omap (λ kb : Z * Batch, if decide (batch_pda cl kb.1 = batch_pda cl k)
                     then Some (batch_account kb.2) else None) (map_to_list (batches s)) = []); [|by rewrite Hnil].
    apply elem_of_nil_inv. intros x ([j b'] & Hj & Hx)%list_elem_of_omap. apply elem_of_map_to_list in Hj.
    cbn [fst snd] in Hx. case_decide as He; [|done]. apply Hbatch in He; [|by apply (Hb j b' Hj)|done]. congruence.
Qed.

Lemma account_answer w k :
  answer w (request "getAccountInfo" (account_params k)) = reply (account_json (account_at (n_ledger w).1 k)).
Proof.
  unfold answer. assert (He : is_method "getAccountInfo" (request "getAccountInfo" (account_params k)) = true) by reflexivity.
  rewrite He. do 2 f_equal.
  change (param_of (request "getAccountInfo" (account_params k))) with (Some (b58_encode k)). cbn [mbind option_bind].
  by rewrite b58_roundtrip.
Qed.

Lemma node_serves w : typed_state (n_ledger w).1 → serves (RPC := net) cl w (n_ledger w).1.
Proof.
  intros Hty. pose proof Hty as [Hc Hb]. split.
  - apply account_read. cbn [http_read node_http]. rewrite account_answer. unfold account_at. by rewrite decide_True.
  - intros k Hk. apply account_read. cbn [http_read node_http]. rewrite account_answer. unfold account_at.
    rewrite decide_False by apply Hconfig. by rewrite batch_at_pda.
  - exact Hc.
  - intros k b Hkb. by apply (Hb k b Hkb).
Qed.

(** ** Posting *)

Lemma blockhash_read w : latest_blockhash w = Ok ZERO_HASH.
Proof.
  unfold latest_blockhash, rpc_call. cbn [http_read node_http].
  assert (He : answer w (request "getLatestBlockhash" [JObj confirmed_opts]) = reply blockhash_json) by reflexivity.
  rewrite He, rpc_result_reply. trans (ok_or (E := L1Error) (b58_fixed 32 (b58_encode ZERO_HASH)) (Rpc "bad blockhash"));
    [exact eq_refl|]. by rewrite b58_fixed_encode.
Qed.

Lemma execute_wire w ixs h :
  execute w (request "sendTransaction" (send_params (signed_wire ixs h)))
  = match run_transaction (RPC := ids) empties program da_program mint_program bump0 vault_bump0 0 (n_ledger w) ixs with
    | Ok l => Some l
    | _ => None
    end.
Proof.
  unfold execute.
  change (param_of (request "sendTransaction" (send_params (signed_wire ixs h)))) with (Some (b64_encode (signed_wire ixs h))).
  cbn [mbind option_bind]. rewrite b64_roundtrip. cbn [mbind option_bind]. by rewrite wire_roundtrip.
Qed.

Lemma wire_runs w ixs w' r :
  send_wire signed_wire w ixs = (w', r) →
  r ≠ Panic
  ∧ (run_transaction (RPC := ids) empties program da_program mint_program bump0 vault_bump0 0 (n_ledger w) ixs
     = Ok (n_ledger w')
     ∨ (n_ledger w' = n_ledger w ∧ is_ok r = false)).
Proof.
  unfold send_wire. rewrite blockhash_read. cbn [http_send node_http]. unfold deliver. rewrite execute_wire.
  destruct (run_transaction _ _ _ _ _ _ _ _ _) as [l|e|].
  - destruct (default Delivered (head (n_deliveries w))); intros [= <- <-]; (split; [done|]); [by left|by right|by left|by left].
  - intros [= <- <-]. split; [done|by right].
  - intros [= <- <-]. split; [done|by right].
Qed.

Lemma status_read w sig k : ∃ c, get_signature_status (JsonRpc := net) w sig k = Ok c.
Proof.
  cbn [get_signature_status transport]. unfold signature_status_at, rpc_call. cbn [http_read node_http].
  assert (He : answer w (request "getSignatureStatuses" (status_params sig)) = reply (status_json (n_visible w))) by reflexivity.
  rewrite He, rpc_result_reply. by eexists.
Qed.

Lemma confirm_total w sig tries : ∀ k, confirm_loop (RPC := net) w sig tries k ≠ Panic.
Proof.
  induction tries as [|tries IH]; intros k; cbn [confirm_loop]; [done|].
  destruct (status_read w sig k) as [c ->]. cbn [obind]. by destruct c.
Qed.

(** A post runs its instruction once, or fails without a trace. *)
Lemma post_runs w ix w' r :
  send_and_confirm (RPC := net) w ix = (w', r) →
  r ≠ Panic ∧ (run_ix (n_ledger w) ix = Ok (n_ledger w') ∨ (n_ledger w' = n_ledger w ∧ is_ok r = false)).
Proof.
  unfold send_and_confirm. cbn [L1Rpc.send_transaction transport].
  destruct (send_wire signed_wire w _) as [w1 r1] eqn:Hs. apply wire_runs in Hs as [Hp Hs].
  assert (Hrun : ∀ l, run_transaction (RPC := ids) empties program da_program mint_program bump0 vault_bump0 0 (n_ledger w)
                   [compute_unit_limit (RPC := net) 1400000; ix] = Ok l → run_ix (n_ledger w) ix = Ok l).
  { intros l. unfold run_transaction. cbn [ofold]. unfold run_instruction at 1.
    destruct Hprograms as (_ & Hp1 & Hp2). cbn [compute_unit_limit i_program_id compute_budget_program transport ids].
    rewrite !decide_False by done. rewrite decide_True by done. cbn [obind].
    intros (l' & H & [= <-])%obind_Ok. exact H. }
  destruct r1 as [sig|e|]; [|intros [= <- <-]|done].
  - intros [= <- <-]. pose proof (confirm_total w1 sig 45 0) as Hc. unfold confirm in *.
    destruct (confirm_loop (RPC := net) w1 sig 45 0) as [[]|e|]; cbn [obind]; [| |done]; (split; [done|]);
      (destruct Hs as [Hs|[_ Hs]]; [left; by apply Hrun|done]).
  - split; [done|]. destruct Hs as [Hs|[Hs _]]; [left; by apply Hrun|by right].
Qed.

(** ** The laws *)

Definition sound_node (w : L1Node) : Prop :=
  (∃ ps, l1_reach empties (n_ledger w).1 ps) ∧ typed_state (n_ledger w).1.

Definition node_records (w : L1Node) : list BatchRecord := settled_records (n_ledger w).1.
Definition node_chunks (w : L1Node) : list (Z * Z * bytes) := (n_ledger w).2.

Lemma same_ledger w w' : n_ledger w' = n_ledger w → sound_node w → sound_node w'.
Proof. unfold sound_node. by intros ->. Qed.

Lemma chunk_posts w no i n d w' r :
  sound_node w → chunk_typed no i n d → send_and_confirm (RPC := net) w (ix_post_chunk cl no i n d) = (w', r) →
  sound_node w' ∧ r ≠ Panic ∧ node_records w' = node_records w
  ∧ (node_chunks w' = node_chunks w ++ [(no, i, d)] ∨ (node_chunks w' = node_chunks w ∧ is_ok r = false)).
Proof.
  intros Hs Hty [Hp H]%post_runs. destruct H as [H|[H Hr]].
  - unfold run_instruction in H. cbn [ix_post_chunk i_program_id da_log_program new_client cl] in H.
    rewrite decide_False in H by (intros He; by apply (proj1 Hprograms)). rewrite decide_True in H by done.
    apply obind_Ok in H as (c & Hc & H). injection H as H.
    pose proof (post_chunk_executes program da_program authority no i n d Hty) as Hx.
    assert (Hc' : (let? _ := map_err Da_failed (post_chunk no i n d) in Ok (no, i, d)) = Ok c)
      by (etrans; [symmetry; exact Hx|exact Hc]).
    apply obind_Ok in Hc' as (u & _ & Hc'). injection Hc' as <-.
    assert (Hl : n_ledger w' = ((n_ledger w).1, (n_ledger w).2 ++ [(no, i, d)])) by by rewrite <- H.
    unfold sound_node, node_records, node_chunks. rewrite Hl. cbn [fst snd]. split_and!; [apply Hs|apply Hs|done|done|by left].
  - unfold node_records, node_chunks. rewrite H. split_and!; [by eapply same_ledger|done|done|by right].
Qed.

(** An instruction of the settlement program changes the state only. *)
Lemma settlement_runs l ix l' :
  i_program_id ix = program → run_ix l ix = Ok l' →
  zul_settlement (RPC := ids) empties program mint_program bump0 vault_bump0 l.1 0 ix = Ok l'.1 ∧ l'.2 = l.2.
Proof.
  intros Hp. unfold run_instruction. rewrite decide_True by done. intros (s & Hs & [= <-])%obind_Ok. by split.
Qed.

Lemma posted_typed s a now rec s' :
  typed_state s → record_typed rec →
  post_batch s a now (r_batch_no rec) (r_first_slot rec) (r_last_slot rec) (r_state_root rec) (r_withdrawals_root rec)
    (r_da_hash rec) (r_chunk_count rec) = Ok s' → typed_state s'.
Proof.
  intros [Hc Hb] (H1 & H2 & H3 & H4 & H5 & H6 & H7). unfold post_batch. intros (cfg & Hcfg & H)%obind_Ok.
  apply ok_or_Ok in Hcfg. repeat (destruct (decide _) in H; [done|]).
  apply obind_Ok in H as (count & Hcount & H). apply ok_or_Ok, checked_add_Some in Hcount as [-> Hov]. injection H as <-.
  destruct (Hc cfg Hcfg) as [Ha [Hn _]]. split; cbn [emit l1_config batches].
  - intros c [= <-]. split; [done|]. split; cbn [batch_count]; [lia|done].
  - apply map_Forall_insert_2; [|done]. split; [done|]. by split_and!.
Qed.

Lemma record_posts w rec w' r :
  sound_node w → record_typed rec → send_and_confirm (RPC := net) w (ix_post_batch (RPC := net) cl rec) = (w', r) →
  sound_node w' ∧ r ≠ Panic ∧ node_chunks w' = node_chunks w
  ∧ ((r_batch_no rec = Z.of_nat (length (node_records w)) ∧ node_records w' = node_records w ++ [rec])
     ∨ (node_records w' = node_records w ∧ is_ok r = false)).
Proof.
  intros Hs Hty [Hp H]%post_runs. destruct H as [H|[H Hr]].
  - apply settlement_runs in H as [H Hda]; [|done]. pose proof Hs as [[ps Hreach] Hst].
    pose proof (post_batch_executes (RPC := ids) empties program da_program mint_program bump0 vault_bump0 Hdistinct
                  authority (n_ledger w).1 0 rec Hty) as Hx.
    assert (Hb : handled (post_batch (n_ledger w).1 authority 0 (r_batch_no rec) (r_first_slot rec) (r_last_slot rec)
                   (r_state_root rec) (r_withdrawals_root rec) (r_da_hash rec) (r_chunk_count rec)) = Ok (n_ledger w').1)
      by (etrans; [symmetry; exact Hx|exact H]).
    apply handled_Ok in Hb. unfold sound_node, node_chunks, node_records.
    pose proof (settled_records_post _ _ _ _ _ _ _ _ _ _ _ _ _ (l1_reach_inv _ _ _ Hreach) Hb) as [Hn Hrec].
    split_and!; [exists ps; by eapply reach_batch|by eapply posted_typed|done|done|left].
    split; [exact Hn|]. rewrite Hrec. by destruct rec.
  - unfold node_records, node_chunks. rewrite H. split_and!; [by eapply same_ledger|done|done|by right].
Qed.

Lemma initialize_posts w w' r :
  sound_node w → rpc_ensure_initialized (RPC := net) cl w = (w', r) →
  sound_node w' ∧ r ≠ Panic ∧ node_records w' = node_records w ∧ node_chunks w' = node_chunks w.
Proof.
  intros Hs. pose proof Hs as [[ps Hreach] Hty]. unfold rpc_ensure_initialized.
  rewrite (sv_config _ _ _ (node_serves w Hty)).
  destruct (l1_config (n_ledger w).1) as [c|] eqn:Hc; cbn [fmap option_fmap option_map].
  { intros [= <- <-]. by split_and!. }
  destruct (send_and_confirm w _) as [w1 r1] eqn:Hsend. apply post_runs in Hsend as [Hp H]. intros [= <- <-].
  assert (Hnp : (let? _ := r1 in Ok ()) ≠ Panic (E := L1Error)) by by destruct r1.
  unfold node_records, node_chunks. destruct H as [H|[H Hr]].
  - apply settlement_runs in H as [H Hda]; [|done].
    pose proof (initialize_executes (RPC := ids) empties program da_program mint_program bump0 vault_bump0 Hdistinct
                  authority (n_ledger w).1 0) as Hx.
    assert (Hb : handled (initialize (n_ledger w).1 authority bump0 vault_bump0) = Ok (n_ledger w1).1)
      by (etrans; [symmetry; exact Hx|exact H]).
    apply handled_Ok in Hb. assert (Hr1 : l1_reach empties (n_ledger w1).1 ps) by by eapply reach_init.
    unfold initialize in Hb. rewrite Hc in Hb. injection Hb as Hb. unfold sound_node. rewrite <- Hb in *.
    split_and!; [by exists ps| |done| |done].
    + split; [|apply Hty]. cbn. intros c [= <-]. split; [done|]. split; cbn; [lia|unfold u64_max; lia].
    + unfold settled_records, count_on. by rewrite Hc.
  - rewrite H. split_and!; [by eapply same_ledger|done|done|done].
Qed.

Lemma reads_resume w :
  sound_node w →
  rpc_latest_batch_no (RPC := net) cl w
  = Ok (if decide (node_records w = []) then None else Some (Z.of_nat (length (node_records w)) - 1))
  ∧ rpc_resume_cursor_slot (RPC := net) cl w
    = Ok (match list.last (node_records w) with None => 1 | Some r => wadd (r_last_slot r) 1 end).
Proof.
  intros [[ps Hreach] Hty]. pose proof (l1_reach_inv _ _ _ Hreach) as Hi. unfold node_records.
  destruct (client_reads_settlement cl w _ (node_serves w Hty) empties ps Hreach) as (Hl & Hr & _).
  rewrite Hl, Hr, (settled_records_last _ _ _ Hi), (settled_records_length _ _ _ Hi).
  pose proof (settled_records_length _ _ _ Hi) as Hlen. split; [|by destruct (batches _ !! _)].
  destruct (settled_records (n_ledger w).1) as [|x l]; cbn [length] in Hlen.
  - by rewrite decide_True, decide_True by (done || lia).
  - by rewrite decide_False, decide_False by (done || lia).
Qed.

Definition stack_laws : L1ClientLaws L1Node (L1Client0 := RpcClient system_id budget_id signed_wire cl).
Proof.
  refine {| good := sound_node; chunks_on := node_chunks; records_on := node_records |}.
  - exact chunk_posts.
  - exact record_posts.
  - exact initialize_posts.
  - intros w o Hs H. apply reads_resume in Hs as [Hl _].
    change (rpc_latest_batch_no (RPC := net) cl w = Ok o) in H. rewrite Hl in H. by injection H as <-.
  - intros w c Hs H. apply reads_resume in Hs as [_ Hr].
    change (rpc_resume_cursor_slot (RPC := net) cl w = Ok c) in H. rewrite Hr in H. by injection H as <-.
Defined.

(** C10: the RPC client is what the batcher takes it for. On a ledger reached through
    the programs, whatever the network does to the transaction, posting a record
    appends exactly that record under the next number to the program's accounts,
    or leaves them as they were and reports an error; a chunk likewise lands in
    the log as it was given, or not at all; nothing panics; and what the client
    then reads, through JSON and the account layouts, is the last number and the
    slot after the last batch. *)
Theorem rpc_client_refines w :
  sound_node w →
  (∀ rec w' r, record_typed rec →
     post_batch_record (L1Client := RpcClient system_id budget_id signed_wire cl) w rec = (w', r) →
     sound_node w' ∧ r ≠ Panic ∧ node_chunks w' = node_chunks w
     ∧ ((r_batch_no rec = Z.of_nat (length (node_records w)) ∧ node_records w' = node_records w ++ [rec])
        ∨ (node_records w' = node_records w ∧ is_ok r = false)))
  ∧ (∀ no i n d w' r, chunk_typed no i n d →
       post_da_chunk (L1Client := RpcClient system_id budget_id signed_wire cl) w no i n d = (w', r) →
       sound_node w' ∧ r ≠ Panic ∧ node_records w' = node_records w
       ∧ (node_chunks w' = node_chunks w ++ [(no, i, d)] ∨ (node_chunks w' = node_chunks w ∧ is_ok r = false)))
  ∧ latest_batch_no (L1Client := RpcClient system_id budget_id signed_wire cl) w
    = Ok (if decide (node_records w = []) then None else Some (Z.of_nat (length (node_records w)) - 1))
  ∧ resume_cursor_slot (L1Client := RpcClient system_id budget_id signed_wire cl) w
    = Ok (match list.last (node_records w) with None => 1 | Some r => wadd (r_last_slot r) 1 end).
Proof.
  intros Hs. split_and!; [intros rec w' r; by apply record_posts|intros no i n d w' r; by apply chunk_posts
                         |by apply reads_resume|by apply reads_resume].
Qed.

(** ** Users' funds *)

(** Either the handler ran once on the settlement state, or nothing changed and
    the client was told of an error. *)
Definition runs_once (w w' : L1Node) (r : outcome L1Error bytes) (handler : L1State → outcome SettlementError L1State) : Prop :=
  r ≠ Panic
  ∧ ((handler (n_ledger w).1 = Ok (n_ledger w').1 ∧ node_chunks w' = node_chunks w)
     ∨ (n_ledger w' = n_ledger w ∧ is_ok r = false)).

Lemma call_runs w ix handler w' r :
  i_program_id ix = program →
  (∀ s, zul_settlement (RPC := ids) empties program mint_program bump0 vault_bump0 s 0 ix = handled (handler s)) →
  send_and_confirm (RPC := net) w ix = (w', r) → runs_once w w' r handler.
Proof.
  intros Hprog Hx [Hp H]%post_runs. split; [done|]. destruct H as [H|H]; [left|by right].
  apply settlement_runs in H as [H Hda]; [|done]. split; [|exact Hda]. apply handled_Ok. by rewrite <- Hx.
Qed.

Abbreviation deposits_sol := (rpc_deposit_sol system_id budget_id signed_wire cl).
Abbreviation deposits_spl := (rpc_deposit_spl system_id budget_id signed_wire cl).
Abbreviation claims_sol := (rpc_claim_withdrawal system_id budget_id signed_wire cl).
Abbreviation claims_spl := (rpc_claim_withdrawal_spl system_id budget_id signed_wire cl).

(** C12: a user's deposit or claim, sent by the client through JSON, a signed
    transaction and the program's entry point, runs the handler of that name
    exactly once on exactly its arguments, or changes nothing on the ledger and
    is reported as an error; the client never panics. So a success that the
    client reports did happen; an error may hide one. *)
Theorem user_calls_run_once w w' r :
  (∀ amount recipient, u64 amount → length recipient = 32%nat → deposits_sol w amount recipient = (w', r) →
     runs_once w w' r (λ s, deposit_sol s authority amount recipient))
  ∧ (∀ amount mint recipient, u64 amount → length recipient = 32%nat →
       deposits_spl w amount mint (mint_program mint) recipient = (w', r) →
       runs_once w w' r (λ s, deposit_spl s authority mint amount recipient))
  ∧ (∀ no amount nonce recipient bm sibs, claim_typed no amount nonce bm sibs →
       claims_sol w no amount nonce recipient bm sibs = (w', r) →
       runs_once w w' r (λ s, claim_withdrawal empties s recipient 0 no amount nonce {| bitmap := bm; siblings := sibs |}))
  ∧ (∀ no amount nonce recipient mint bm sibs, claim_typed no amount nonce bm sibs →
       claims_spl w no amount nonce recipient mint (mint_program mint) bm sibs = (w', r) →
       runs_once w w' r (λ s, claim_withdrawal_spl empties s recipient mint 0 no amount nonce {| bitmap := bm; siblings := sibs |})).
Proof.
  split_and!.
  - intros amount recipient Ha Hr. apply call_runs; [done|]. intros s.
    exact (deposit_sol_executes (RPC := ids) empties program da_program mint_program bump0 vault_bump0 Hdistinct authority
             s 0 amount recipient Ha Hr).
  - intros amount mint recipient Ha Hr. apply call_runs; [done|]. intros s.
    exact (deposit_spl_executes (RPC := ids) empties program da_program mint_program bump0 vault_bump0 Hdistinct authority
             s 0 amount mint recipient Ha Hr).
  - intros no amount nonce recipient bm sibs Ht. apply call_runs; [done|]. intros s.
    exact (claim_executes (RPC := ids) empties program da_program mint_program bump0 vault_bump0 Hdistinct authority
             s 0 no amount nonce recipient bm sibs Ht).
  - intros no amount nonce recipient mint bm sibs Ht. apply call_runs; [done|]. intros s.
    exact (claim_spl_executes (RPC := ids) empties program da_program mint_program bump0 vault_bump0 Hdistinct authority
             s 0 no amount nonce recipient mint bm sibs Ht).
Qed.
End Stack.

Module Example.
Import L1RpcProps.Example.
#[local] Existing Instances Toy.blake3_toy Toy.solana_toy WrappedSpl.Example.addresses_toy.
#[local] Existing Instances Settlement.Example.runtime_toy sha_toy text_toy zstd_toy payload_codec.

#[local] Instance AccountMeta_eq_dec : EqDecision AccountMeta.
Proof. solve_decision. Defined.
#[local] Instance AccountMeta_countable : Countable AccountMeta.
Proof. refine (inj_countable' (λ m, (am_pubkey m, am_signer m, am_writable m)) (λ '(a, b, c), Build_AccountMeta a b c) _). by intros []. Defined.
#[local] Instance Instruction_eq_dec : EqDecision Instruction.
Proof. solve_decision. Defined.
#[local] Instance Instruction_countable : Countable Instruction.
Proof. refine (inj_countable' (λ m, (i_program_id m, i_accounts m, i_data m)) (λ '(a, b, c), Build_Instruction a b c) _). by intros []. Defined.
#[local] Instance wire_codec : Bincode (list Instruction) := Toy.bincode_toy (list Instruction).

Definition wire (ixs : list Instruction) (_ : H256) : bytes := serialize ixs.

(** The settlement state after a batch and two deposits, behind a network that
    runs the first transaction without answering and drops the second. *)
Definition node : L1Node :=
  {| n_ledger := (Settlement.Example.after_history (pk 2), []); n_deliveries := [Unanswered; Dropped];
     n_visible := false; n_balance := 5 |}.

Definition next_record : BatchRecord :=
  {| r_batch_no := 1; r_first_slot := 5; r_last_slot := 9; r_state_root := pk 1; r_withdrawals_root := pk 2;
     r_da_hash := pk 3; r_chunk_count := 0 |}.

Abbreviation stack_http :=
  (node_http (pk 100) (pk 101) (pk 50) (pk 51) (λ _, pk 60) 255 254 Settlement.Example.empties (pk 8) deserialize).
Abbreviation stack := (RpcClient (HTTP := stack_http) (pk 100) (pk 101) wire cl).

Lemma programs_differ : pk 50 ≠ pk 51 ∧ pk 101 ≠ pk 50 ∧ pk 101 ≠ pk 51.
Proof. by split_and!. Qed.

Lemma batch_address k : batch_pda cl k = bstr "batch" ++ le_bytes 8 k ++ take 19 (pk 50).
Proof.
  unfold batch_pda. cbn [find_program_address WrappedSpl.Example.addresses_toy concat app].
  rewrite app_nil_r, <- app_assoc. rewrite take_app_ge by (vm_compute; lia). reflexivity.
Qed.

Lemma batch_addresses j k : u64 j → u64 k → batch_pda cl j = batch_pda cl k → j = k.
Proof.
  intros Hj Hk. rewrite !batch_address. intros H%(inj (app _)).
  apply app_inj_1 in H as [H _]; [|by rewrite !length_le_bytes].
  by rewrite <- (le64_roundtrip j), <- (le64_roundtrip k), H.
Qed.

Lemma config_address k : batch_pda cl k ≠ config_pda cl.
Proof. rewrite batch_address. vm_compute. discriminate. Qed.

Lemma node_sound : sound_node Settlement.Example.empties node.
Proof.
  split.
  - exists []. exact (Settlement.Example.history_reachable _ _ (Settlement.Example.history_ok (pk 2))).
  - split.
    + intros c [= <-]. split; [reflexivity|unfold u64, u64_max; cbn; lia].
    + apply map_Forall_singleton. split; [unfold u64, u64_max; lia|].
      repeat split; try reflexivity; cbn; unfold u64_max, u32_max; lia.
Qed.

(** The record is on the ledger although the post reported an error. *)
Lemma rpc_client_refines_witness :
  let '(w', r) := post_batch_record (L1Client := stack) node next_record in
  is_ok r = false ∧ node_records w' = node_records node ++ [next_record].
Proof.
  destruct (post_batch_record (L1Client := stack) node next_record) as [w' r] eqn:Hp.
  assert (Hl : (is_ok r, length (node_records w')) = (false, 2%nat)).
  { change w' with (w', r).1. change r with (w', r).2 at 1. rewrite <- Hp. vm_cast_no_check (@eq_refl (bool * nat) (false, 2%nat)). }
  injection Hl as Hr Hn. split; [exact Hr|].
  destruct (rpc_client_refines (pk 100) (pk 101) (pk 50) (pk 51) (λ _, pk 60) 255 254 Settlement.Example.empties (pk 8)
              wire deserialize (λ ixs _, deserialize_serialize ixs) Entry.Example.distinct
              programs_differ batch_addresses config_address eq_refl node node_sound) as (Hpost & _).
  destruct (Hpost next_record w' r) as (_ & _ & _ & H).
  - repeat split; try reflexivity; cbn; unfold u64_max, u32_max; lia.
  - exact Hp.
  - destruct H as [[_ H]|[H _]]; [exact H|]. rewrite H in Hn. discriminate.
Defined.

(** A deposit whose answer is lost is in the vault all the same. *)
Lemma user_calls_run_once_witness :
  let '(w', r) := rpc_deposit_sol (HTTP := stack_http) (pk 100) (pk 101) wire cl node 20 (pk 5) in
  is_ok r = false ∧ deposit_sol (n_ledger node).1 (pk 8) 20 (pk 5) = Ok (n_ledger w').1
  ∧ vault_lamports (n_ledger w').1 = 720.
Proof.
  destruct (rpc_deposit_sol (HTTP := stack_http) (pk 100) (pk 101) wire cl node 20 (pk 5)) as [w' r] eqn:Hp.
  assert (Hl : (is_ok r, vault_lamports (n_ledger w').1) = (false, 720)).
  { change w' with (w', r).1. change r with (w', r).2 at 1. rewrite <- Hp. vm_cast_no_check (@eq_refl (bool * Z) (false, 720)). }
  injection Hl as Hr Hv. split; [exact Hr|]. split; [|exact Hv].
  destruct (user_calls_run_once (pk 100) (pk 101) (pk 50) (pk 51) (λ _, pk 60) 255 254 Settlement.Example.empties (pk 8)
              wire deserialize (λ ixs _, deserialize_serialize ixs) Entry.Example.distinct
              programs_differ node w' r) as (Hd & _).
  assert (H20 : u64 20) by (unfold u64, u64_max; lia).
  destruct (Hd 20 (pk 5) H20 eq_refl Hp) as [_ [[H _]|[H _]]]; [exact H|]. rewrite H in Hv. discriminate.
Defined.
End Example.
