(* ===== verification/RecoverProps.v ===== *)
(** * Disaster recovery, from the batcher to the recovery tool

    What [chain/zul-node/src/bin/zul-recover.rs] writes after the batcher has
    settled a chain: the batcher's theorem ([Batcher]), the client's recovery
    ([L1RpcProps]) and the recovery checks ([Recover]) put together. *)

From S2P Require Import Prelude External Json Hash Account Block Config Queue Store Settlement NodeChain Recover Batcher WrappedSpl L1Rpc L1RpcProps Tools BatcherL1.

Section Recovery.
Context `{B3 : Blake3} `{TX : SolanaTx} `{SA : SolanaAddresses} `{S2 : Sha256} `{T : TextCodecs}.
Context `{Z0 : Zstd} `{!Bincode BatchPayload} `{!Bincode Block} `{!Bincode (list Block)}.

(** ** Ranges *)

Lemma range_split bs a b c :
  1 ≤ a → a - 1 ≤ b ≤ c → range_blocks bs a c = range_blocks bs a b ++ range_blocks bs (b + 1) c.
Proof.
  intros Ha Hb. unfold range_blocks. rewrite <- list.filter_app. f_equal. unfold slots_of, slice.
  replace (Z.to_nat (b + 1 - 1)) with (Z.to_nat b) by lia.
  replace (Z.to_nat c - Z.to_nat (a - 1))%nat
    with ((Z.to_nat b - Z.to_nat (a - 1)) + (Z.to_nat c - Z.to_nat b))%nat by lia.
  rewrite <- take_take_drop. f_equal. rewrite drop_drop. do 2 f_equal. lia.
Qed.

Lemma range_none bs a b :
  1 ≤ a → (∀ s blk, a ≤ s ≤ b → blocks_at bs s = Some blk → nonempty blk = true → False) → range_blocks bs a b = [].
Proof.
  intros Ha Hno. apply elem_of_nil_inv. intros blk [Hne Hb]%list_elem_of_filter.
  apply list_elem_of_lookup in Hb as [i Hi].
  assert (Hlt : (i < Z.to_nat b - Z.to_nat (a - 1))%nat).
  { apply lookup_lt_Some in Hi. unfold slots_of, slice in Hi. rewrite length_take in Hi. lia. }
  unfold slots_of in Hi. rewrite slice_lookup in Hi by done.
  apply (Hno (a + Z.of_nat i) blk); [lia| |done]. unfold blocks_at. rewrite decide_True by lia.
  rewrite <- Hi. f_equal. lia.
Qed.

Lemma ordered_above recs : ∀ k lo s,
  Forall (λ r, r_first_slot r ≤ r_last_slot r) recs → ordered k lo recs → covered recs s → lo < s.
Proof.
  induction recs as [|r recs IH]; intros k lo s Hle Ho (r' & Hr' & Hs); [by apply not_elem_of_nil in Hr'|].
  destruct Ho as (_ & Hlo & Ho). apply list.Forall_cons in Hle as [Hr Hle].
  apply elem_of_cons in Hr' as [->|Hr']; [lia|].
  assert (r_last_slot r < s) by (eapply IH; [done|done|by exists r']). lia.
Qed.

(** The settled ranges put together are the chain's non-empty blocks. *)
Lemma ranges_join bs recs : ∀ k lo,
  0 ≤ lo → Forall (λ r, r_first_slot r ≤ r_last_slot r) recs → ordered k lo recs →
  (∀ s b, lo < s ≤ default lo (r_last_slot <$> list.last recs) → blocks_at bs s = Some b → nonempty b = true →
     covered recs s) →
  (recs ≫= λ r, range_blocks bs (r_first_slot r) (r_last_slot r))
  = range_blocks bs (lo + 1) (default lo (r_last_slot <$> list.last recs)).
Proof.
  induction recs as [|r recs IH]; intros k lo Hlo Hle Ho Hcov.
  { cbn. symmetry. apply range_none; [lia|]. intros s b Hs. lia. }
  destruct Ho as (Hk & Hf & Ho). apply list.Forall_cons in Hle as [Hr Hle].
  assert (Hend : default lo (r_last_slot <$> list.last (r :: recs)) = default (r_last_slot r) (r_last_slot <$> list.last recs)).
  { rewrite last_cons. by destruct (list.last recs). }
  rewrite Hend in *. set (e := default (r_last_slot r) (r_last_slot <$> list.last recs)) in *.
  assert (He : r_last_slot r ≤ e).
  { unfold e. destruct (list.last recs) as [x|] eqn:Hx; [|done]. cbn.
    apply last_Some_elem_of in Hx. assert (r_last_slot r < r_last_slot x); [|lia].
    apply (ordered_above recs (k + 1) (r_last_slot r)); [done|done|]. exists x. split; [done|].
    rewrite list.Forall_forall in Hle. specialize (Hle x Hx). cbn in Hle. lia. }
  cbn [mbind list_bind]. change (list_bind _ _ _ recs) with (recs ≫= λ r, range_blocks bs (r_first_slot r) (r_last_slot r)).
  rewrite (IH (k + 1) (r_last_slot r)); [|lia|done|done|].
  - rewrite (range_split bs (lo + 1) (r_last_slot r) e) by lia.
    rewrite (range_split bs (lo + 1) (r_first_slot r - 1) (r_last_slot r)) by lia.
    rewrite (range_none bs (lo + 1) (r_first_slot r - 1)); [by replace (r_first_slot r - 1 + 1) with (r_first_slot r) by lia|lia|].
    intros s b Hs Hb Hne. destruct (Hcov s b ltac:(lia) Hb Hne) as (r' & Hr' & Hs').
    apply elem_of_cons in Hr' as [->|Hr']; [lia|].
    assert (r_last_slot r < s); [|lia]. apply (ordered_above recs (k + 1)); [done|done|by exists r'].
  - intros s b Hs Hb Hne. destruct (Hcov s b ltac:(unfold e in *; lia) Hb Hne) as (r' & Hr' & Hs').
    apply elem_of_cons in Hr' as [->|Hr']; [lia|]. by exists r'.
Qed.

(** ** The tool *)

Context {C : Type} `{L1 : !L1Client C} `{LAWS : !L1ClientLaws C}.
Context {W : Type} `{RPC : !JsonRpc W} `{RT : L1Runtime}.
Context (load : bytes → outcome ToolError L1Section) (throwaway : Pubkey).

(** The payload of a record's range. *)
Definition payload_of (bs : list Block) (r : BatchRecord) : BatchPayload :=
  {| bp_batch_no := r_batch_no r; bp_first_slot := r_first_slot r; bp_last_slot := r_last_slot r;
     bp_blocks := range_blocks bs (r_first_slot r) (r_last_slot r) |}.

Lemma settled_payloads (c : C) bs recs ps :
  Forall2 (settles c bs) recs ps → ps = payload_of bs <$> recs.
Proof.
  induction 1 as [|r p recs ps Hset _ IH]; [done|]. cbn [fmap list_fmap]. f_equal; [|done].
  destruct Hset as (_ & _ & H1 & H2 & H3 & H4 & _), p. unfold payload_of. cbn in *. by subst.
Qed.

Lemma settled_payload (c : C) bs recs ps r :
  Forall2 (settles c bs) recs ps → r ∈ recs → r_da_hash r = da_hash (compress (payload_of bs r)).
Proof.
  intros HF Hr. rewrite (settled_payloads c bs recs ps HF) in HF.
  apply list_elem_of_lookup in Hr as [i Hi].
  assert (Hp : (payload_of bs <$> recs) !! i = Some (payload_of bs r)) by (by rewrite list_lookup_fmap, Hi).
  destruct (Forall2_lookup_lr _ _ _ _ _ _ HF Hi Hp) as (_ & _ & _ & _ & _ & _ & _ & H & _). exact H.
Qed.

(** The batch accounts by number, from the records. *)
Lemma settled_batches s empties ps :
  l1_inv empties s ps →
  ∃ batch : Z → Batch, (∀ no, 0 ≤ no < count_on s → batches s !! no = Some (batch no))
    ∧ settled_records s = (λ no, record_of (batch no)) <$> seqZ 0 (count_on s).
Proof.
  intros Hi. set (d := {| b_batch_no := 0; b_first_slot := 0; b_last_slot := 0; b_state_root := [];
                          b_withdrawals_root := []; b_da_hash := []; b_chunk_count := 0; posted_at := 0 |}).
  exists (λ no, default d (batches s !! no)).
  assert (Hall : ∀ no, 0 ≤ no < count_on s → batches s !! no = Some (default d (batches s !! no))).
  { intros no [x Hx]%(li_batches _ _ _ Hi). by rewrite Hx. }
  split; [exact Hall|]. unfold settled_records.
  assert (Hom : ∀ l, Forall (λ no, 0 ≤ no < count_on s) l →
            omap (λ k, record_of <$> batches s !! k) l = (λ no, record_of (default d (batches s !! no))) <$> l).
  { induction 1 as [|no l Hno _ IH]; [done|]. cbn [omap list_omap fmap list_fmap]. rewrite (Hall no Hno).
    cbn [fmap option_fmap option_map default from_option]. by rewrite IH. }
  apply Hom, list.Forall_forall. intros no Hno%elem_of_seqZ. lia.
Qed.

(** C25: recovery restores the chain: after the batcher, configured for at most
    10000 slots a batch, has settled a chain, under whatever faults of the L1, on
    the settlement state that holds its records and a log in which every chunk of
    every settled batch is found exactly once (in any order and among any other
    transactions, but not posted a second time), the recovery tool succeeds, and the file it writes
    holds exactly the chain's non-empty blocks up to the last settled slot, in
    order. *)
Theorem recover_tool_restores_chain interval (b : Batcher (C := C)) bs empties pays s w h args cl :
  0 ≤ interval ≤ 10000 → batcher_reach interval b bs → numbered bs →
  let recs := records_on (client b) in
  recs ≠ [] → l1_reach empties s pays → settled_records s = recs →
  recover_client load throwaway args = Ok cl → serves cl w s → serves_log cl w h →
  (∀ r, r ∈ recs → posted_chunks cl h (r_batch_no r) ≡ₚ indexed (chunk_payload (compress (payload_of bs r)))) →
  ∃ summary,
    recover_main load throwaway args w (S (length h / PAGE_LIMIT))
    = Some (Ok (summary, _ ← arg args "--out"; Some (serialize (range_blocks bs 1 (last_end recs)))))
    ∧ s_batches summary = Z.of_nat (length recs) ∧ s_last_slot summary = last_end recs.
Proof.
  intros Hint Hb Hnum recs Hne Hs%l1_reach_inv Hrecs Hcl Hserves Hlog Hposted.
  apply batcher_reach_inv in Hb as [[_ (ps & Hset) Ho Hc _ _ _ _] _]; [|done]. fold recs in Hset, Ho, Hc.
  destruct (settled_batches s empties pays Hs) as (batch & Hbatch & Hrb). rewrite Hrecs in Hrb.
  assert (Hin : ∀ no, 0 ≤ no < count_on s → record_of (batch no) ∈ recs).
  { intros no Hno. rewrite Hrb. apply list_elem_of_fmap. exists no. split; [done|]. apply elem_of_seqZ. lia. }
  assert (Hno : ∀ no, 0 ≤ no < count_on s → r_batch_no (record_of (batch no)) = no).
  { intros no Hno. exact (proj1 (li_batch _ _ _ Hs no (batch no) (Hbatch no Hno))). }
  pose proof (settled_payloads (client b) bs recs ps Hset) as Hps.
  assert (Hfetch : fetch_settlement_batches cl w (S (length h / PAGE_LIMIT)) = Some (Ok (recovered recs ps))).
  { rewrite (da_recovery cl w h Hlog s Hserves batch (λ no, payload_of bs (record_of (batch no)))).
    - f_equal. f_equal. unfold recovered. rewrite Hps, Hrb, <- list_fmap_compose.
      rewrite zip_with_fmap_r, zip_with_fmap_l, zip_with_diag. done.
    - intros no Hn. split; [by apply Hbatch|]. split.
      + exact (settled_payload (client b) bs recs ps (record_of (batch no)) Hset (Hin no Hn)).
      + rewrite <- (Hno no Hn) at 1. by apply Hposted, Hin.
    - exact (count_bound cl w s Hserves). }
  destruct (scan_settled (client b) bs recs ps Hnum Hset 0 scan_start Ho ltac:(done)) as (s' & Hscan & Hl).
  assert (Hlen : length (recovered recs ps) = length recs)
    by (unfold recovered; rewrite length_zip_with, <- (Forall2_length Hset); lia).
  assert (Hblocks : (recovered recs ps ≫= λ x, bp_blocks (rb_payload x)) = range_blocks bs 1 (last_end recs)).
  { rewrite Hps. transitivity (recs ≫= λ r, range_blocks bs (r_first_slot r) (r_last_slot r)).
    - clear. induction recs as [|r l IH]; [done|]. cbn. f_equal. exact IH.
    - rewrite (ranges_join bs recs 0 0); [done|lia| |exact Ho|].
      + clear -Hset. induction Hset as [|r p l ps' Hr _ IH]; constructor; [|done]. unfold settles in Hr. lia.
      + intros sl blk Hsl. apply Hc. unfold last_end. lia. }
  unfold recover_main. rewrite Hcl, Hfetch. cbn [mbind option_bind l1_err map_err obind].
  unfold verify. rewrite decide_False, Hscan by (intros He; rewrite He in Hlen; by destruct recs). cbn [obind map_err].
  rewrite Hblocks. eexists. split; [reflexivity|]. cbn [s_batches s_last_slot]. rewrite Hlen, Hl. done.
Qed.

End Recovery.

(** ** Witness: a chain of two blocks, settled in one batch *)

Module Example.
Import L1RpcProps.Example.
#[local] Existing Instances Toy.blake3_toy Toy.solana_toy WrappedSpl.Example.addresses_toy.
#[local] Existing Instances Settlement.Example.runtime_toy StoreToy.block_codec.
#[local] Existing Instances sha_toy text_toy zstd_toy payload_codec rpc_toy.
#[local] Existing Instances StoreToy.block_eq_dec StoreToy.block_countable.
#[local] Instance blocks_codec : Bincode (list Block) := Toy.bincode_toy (list Block).

Definition rooted (sl n : Z) : Block :=
  {| header := {| slot := sl; parent_hash := []; state_root := pk 1; transactions_root := []; timestamp_ms := 0;
                  transaction_count := n |};
     transactions := []; sequencer_signature := [] |}.
Definition chain : list Block := [rooted 1 1; rooted 2 0].

Definition w0 : L1World :=
  {| w_l1 := Settlement.Example.start; w_da := []; w_fates := []; w_balance := 30000000 |}.
Definition b0 : Batcher :=
  match build_batcher (L1 := world_client (pk 8)) w0 with
  | (_, Ok b) => b
  | (w, _) => {| client := w; cursor_slot := 0; next_batch_no := 0 |}
  end.
Definition b1 : Batcher := sweep (L1 := world_client (pk 8)) 2 b0 (BatcherL1.Example.store_of chain).

Lemma b1_reached : batcher_reach (LAWS := world_laws (pk 8)) 2 b1 chain.
Proof.
  assert (Hlen : Z.of_nat (length chain) + 10001 ≤ u64_max) by (unfold u64_max; cbn; lia).
  apply (reach_sweep 2 b0 chain); [|done|apply BatcherL1.Example.store_holds; [lia|repeat (constructor; [reflexivity|]); constructor]|exact Hlen].
  eapply (reach_fresh 2 w0); [|reflexivity|reflexivity|exact Hlen].
  exists [], []. apply l1_reach_inv, reach_start; [done|apply map_Forall_empty].
Qed.

Lemma settled_chain_numbered : numbered chain.
Proof.
  intros s b. unfold blocks_at. case_decide as Hs; [|done]. intros Hb.
  assert (Hlt : (Z.to_nat (s - 1) < 2)%nat) by (apply lookup_lt_Some in Hb; exact Hb).
  assert (Hc : s = 1 ∨ s = 2) by lia. destruct Hc as [-> | ->]; injection Hb as <-; reflexivity.
Qed.

Definition the_payload : BatchPayload :=
  {| bp_batch_no := 0; bp_first_slot := 1; bp_last_slot := 2; bp_blocks := [rooted 1 1] |}.
(** One transaction per chunk, newest first. *)
Definition post_tx (i : nat) (c : bytes) : LogTx :=
  {| lt_signature := le_bytes 4 (Z.of_nat i); lt_failed := false;
     lt_view := {| tv_logs := [];
                   tv_message := Some ([Some (pk 51)],
                     [{| ti_program_index := Some 0;
                         ti_data := Some (i_data (ix_post_chunk cl 0 (Z.of_nat i) 22 c)) |}]) |} |}.
Definition log : list LogTx := rev (imap post_tx (chunk_payload (compress the_payload))).

Definition section (_ : bytes) : outcome ToolError L1Section :=
  Ok {| l1_enabled := true; rpc_url := bstr "url"; settlement_program_id := pk 50; da_log_program_id := pk 51;
        bridge_authority_key_path := []; batch_interval_slots := 120; gas_mint := [] |}.
Definition argv : list bytes := [bstr "--out"; bstr "recovered.bin"].

Definition posted_batch : Batch :=
  {| b_batch_no := 0; b_first_slot := 1; b_last_slot := 2; b_state_root := pk 1; b_withdrawals_root := ZERO_HASH;
     b_da_hash := da_hash (compress the_payload); b_chunk_count := 22; posted_at := 0 |}.

Definition settled_state : L1State :=
  {| l1_config := Some {| cfg_authority := pk 8; batch_count := 1; total_deposited := 0; bump := 255; vault_bump := 254 |};
     batches := {[ 0 := posted_batch ]}; claims := ∅; vault_lamports := 0; vault_tokens := ∅;
     l1_events := [BatchPosted 0 1 2 (pk 1) (da_hash (compress the_payload))] |}.

Lemma settled_eq : w_l1 (client b1) = settled_state.
Proof. vm_cast_no_check (@eq_refl L1State settled_state). Qed.

Lemma settled_reach : l1_reach [] settled_state [].
Proof.
  eapply (reach_batch [] _ [] (pk 8) 0 0 1 2 (pk 1) ZERO_HASH (da_hash (compress the_payload)) 22).
  - eapply (reach_init [] _ [] (pk 8) 255 254); [apply (reach_start [] 0 ∅); [done|apply map_Forall_empty]|reflexivity].
  - vm_cast_no_check (@eq_refl (outcome SettlementError L1State) (Ok settled_state)).
Qed.

Lemma state_served : serves cl (settled_state, log) settled_state.
Proof.
  apply toy_serves.
  - intros c [= <-]. split; [reflexivity|unfold u64, u64_max; cbn; lia].
  - apply map_Forall_singleton. split_and!; try reflexivity; unfold u64, u32, u64_max, u32_max; cbn; lia.
Qed.

Lemma posts_nodup : NoDup (lt_signature <$> log).
Proof. apply (bool_decide_eq_true_1 _). vm_compute. reflexivity. Qed.

Lemma log_chunks : posted_chunks cl log 0 = rev (indexed (chunk_payload (compress the_payload))).
Proof. vm_cast_no_check (@eq_refl (list (Z * bytes)) (posted_chunks cl log 0)). Qed.

Lemma recover_tool_restores_chain_witness :
  ∃ summary, recover_main section (pk 8) argv (settled_state, log) (S (length log / PAGE_LIMIT))
    = Some (Ok (summary, Some (serialize [rooted 1 1])))
  ∧ s_batches summary = 1 ∧ s_last_slot summary = 2.
Proof.
  assert (Hrecs : records_on (L1ClientLaws := world_laws (pk 8)) (client b1) = [record_of posted_batch]).
  { change (records_on (client b1)) with (settled_records (w_l1 (client b1))). rewrite settled_eq. reflexivity. }
  destruct (recover_tool_restores_chain (LAWS := world_laws (pk 8)) section (pk 8) 2 b1 chain [] [] settled_state
              (settled_state, log) log argv cl) as (summary & Hmain & Hn & Hl).
  - lia.
  - exact b1_reached.
  - exact settled_chain_numbered.
  - rewrite Hrecs. discriminate.
  - exact settled_reach.
  - rewrite Hrecs. reflexivity.
  - reflexivity.
  - exact state_served.
  - exact (log_serves settled_state log posts_nodup).
  - rewrite Hrecs. intros r Hr. apply list_elem_of_singleton in Hr as ->.
    change (payload_of chain (record_of posted_batch)) with the_payload.
    change (r_batch_no (record_of posted_batch)) with 0. rewrite log_chunks. symmetry. apply Permutation_rev.
  - exists summary. rewrite Hrecs in Hmain, Hn, Hl. split; [exact Hmain|]. split; [exact Hn|exact Hl].
Defined.
End Example.
