(* ===== verification/Deposits.v ===== *)
(** * From L1 deposit events to the node's queue

    Models the deposit watcher of [chain/zul-node/src/bridge.rs] (one round of
    its loop) over the L1 client of [L1Rpc], and the older processor of
    [chain/zul-bridge/src/deposit.rs]. *)

From S2P Require Import Prelude External Json Hash Account Sorting Block Queue Field PoolState PoolProcessor PoolService Store StoreProps WrappedSpl NodeBridge NodeLedger Executor Mempool Node NodeChain Settlement Recover Batcher L1Rpc L1RpcProps.

Lemma fmap_rev {A B} (f : A → B) l : f <$> rev l = rev (f <$> l).
Proof. exact (map_rev f l). Qed.

Lemma elem_of_rev {A} (x : A) l : x ∈ rev l ↔ x ∈ l.
Proof. by rewrite !list_elem_of_In, <- in_rev. Qed.

(** ** The deposit processor *)

(** [trait DepositLedger] *)
Class DepositLedger (L : Type) := {
  is_processed : L → bytes → bool;
  mark_processed : L → bytes → L;
  ledger_cursor : L → option bytes;
}.

Inductive CreditAction :=
| CreditNative (recipient : Pubkey) (lamports : Z)
| MintWrappedSol (recipient : Pubkey) (amount : Z).

Section Processor.
Context `{TX : SolanaTx} {C : Type} `{L1 : !L1Client C} {L : Type} `{DL : !DepositLedger L}.

Record DepositProcessor := {
  dp_client : C;
  zul_mint_on_l1 : Pubkey;
}.

Definition credit_action (zul_mint : Pubkey) (event : DepositEvent) : option CreditAction :=
  match dep_mint event with
  | None => Some (MintWrappedSol (l2_recipient event) (dep_amount event))
  | Some mint => if decide (mint = zul_mint)
                 then Some (CreditNative (l2_recipient event) (dep_amount event))
                 else None
  end.

Definition poll_event (p : DepositProcessor) (ledger : L) (event : DepositEvent)
    : option (DepositEvent * CreditAction) :=
  if is_processed ledger (l1_signature event) then None
  else action ← credit_action (zul_mint_on_l1 p) event; Some (event, action).

Definition poll (p : DepositProcessor) (ledger : L) : outcome L1Error (list (DepositEvent * CreditAction)) :=
  let? events := fetch_deposits (dp_client p) (ledger_cursor ledger) in
  Ok (omap (poll_event p ledger) events).

(** Credit what was polled, marking each deposit. *)
Definition mark_all (ledger : L) (acts : list (DepositEvent * CreditAction)) : L :=
  fold_left (λ l a, mark_processed l (l1_signature a.1)) acts ledger.

(** Marking adds one signature, and keeps the others. *)
Class LedgerLaws := {
  marked l s s' : is_processed (mark_processed l s) s' = bool_decide (s = s') || is_processed l s';
}.

Context `{LL : !LedgerLaws}.

Lemma mark_all_spec acts : ∀ l s,
  is_processed (mark_all l acts) s
  = is_processed l s || existsb (λ a, bool_decide (l1_signature a.1 = s)) acts.
Proof.
  induction acts as [|a acts IH]; intros l s; cbn [mark_all fold_left existsb]; [by rewrite orb_false_r|].
  fold (mark_all (mark_processed l (l1_signature a.1)) acts). rewrite IH, marked.
  by destruct (is_processed l s), (bool_decide _), (existsb _ acts).
Qed.

(** What was polled and marked is never polled again, whatever the cursor. *)
Lemma poll_once p l acts l2 p2 acts2 e act :
  poll p l = Ok acts → (∀ s, is_processed (mark_all l acts) s = true → is_processed l2 s = true) →
  poll p2 l2 = Ok acts2 → (e, act) ∈ acts → ∀ e' act', (e', act') ∈ acts2 → l1_signature e' ≠ l1_signature e.
Proof.
  intros _ Hsub Hp2 He e' act' He' Heq. unfold poll in Hp2. apply obind_Ok in Hp2 as (evs & _ & H).
  injection H as <-. apply list_elem_of_omap in He' as (ev & _ & Hev). unfold poll_event in Hev.
  assert (Hm : is_processed l2 (l1_signature ev) = true).
  { destruct (is_processed l2 (l1_signature ev)) eqn:Hp; [done|].
    destruct (credit_action _ _) as [a|]; [|done]. injection Hev as -> _. rewrite Heq in Hp.
    rewrite <- Hp. apply Hsub. rewrite mark_all_spec. apply orb_true_iff. right. apply existsb_exists.
    exists (e, act). split; [by apply list_elem_of_In|]. by apply bool_decide_eq_true. }
  by rewrite Hm in Hev.
Qed.
End Processor.

(** ** The watcher *)

Section Watcher.
Context `{B3 : Blake3} `{ED : Ed25519} `{TX : SolanaTx} `{SA : SolanaAddresses} `{S2 : Sha256} `{T : TextCodecs}.
Context `{IDS : SdkIds} `{!Bincode StoredAccount}.
Context {W : Type} `{RPC : !JsonRpc W}.

Definition has_receipt (st : Store) (d : DepositEvent) : bool :=
  match get_account st (deposit_receipt_address (l1_signature d)) with Ok (Some _) => true | _ => false end.

Definition fresh_deposits (st : Store) (ds : list DepositEvent) : list DepositEvent :=
  filter (λ d, has_receipt st d = false) ds.

(** One round of the loop. *)
Definition watch (cl : RpcL1Client) (w : W) (n : Node) : Node :=
  match rpc_fetch_deposits cl w None with
  | Ok deposits =>
      let fresh := fresh_deposits (store n) deposits in
      if decide (fresh = []) then n else enqueue_deposits n fresh
  | _ => n
  end.

(** *** What the watcher reads *)

Definition deposit_of (x : LogTx) (e : L1Event) : option DepositEvent :=
  match e with
  | Deposited _ amount r mint decimals =>
      Some {| l1_signature := lt_signature x; dep_mint := mint; dep_decimals := decimals;
              dep_amount := amount; l2_recipient := r |}
  | _ => None
  end.

Definition event_wf (e : L1Event) : Prop :=
  match e with
  | Deposited d amount r mint decimals =>
      length d = 32%nat ∧ length r = 32%nat ∧ u64 amount ∧ 0 ≤ decimals < 256
      ∧ (∀ m, mint = Some m → length m = 32%nat)
  | _ => False
  end.

Definition event_payload (e : L1Event) : bytes :=
  match e with
  | Deposited d amount r mint decimals => deposited_payload d amount r mint decimals
  | _ => []
  end.

(** The logs of a transaction whose first deposit event is the given one. *)
Definition announces (x : LogTx) (o : option L1Event) : Prop :=
  match o with
  | None => Forall (λ l, deposit_in_line (lt_signature x) l = None) (tv_logs (lt_view x))
  | Some e => event_wf e ∧ ∃ pre text post,
      tv_logs (lt_view x) = pre ++ Some (DATA_PREFIX ++ text) :: post
      ∧ Forall (λ l, deposit_in_line (lt_signature x) l = None) pre
      ∧ b64_decode (trim text) = Some (event_payload e)
  end.

(** The RPC node answers from the history of the config account, newest first. *)
Record serves_config (cl : RpcL1Client) (w : W) (h : list LogTx) : Prop := {
  sc_page : get_signatures w (config_pda cl) 100 None None = Ok (take 100 (entry_of <$> h));
  sc_view x : x ∈ h → get_transaction_view w (lt_signature x) = Ok (lt_view x);
}.

Definition read_event (p : LogTx * option L1Event) : option DepositEvent :=
  if lt_failed p.1 then None else p.2 ≫= deposit_of p.1.

Lemma omap_none {A B} (f : A → option B) l : Forall (λ x, f x = None) l → omap f l = [].
Proof. induction 1 as [|x l Hx _ IH]; [done|]. cbn. by rewrite Hx. Qed.

Lemma read_logs x o :
  announces x o → head (omap (deposit_in_line (lt_signature x)) (tv_logs (lt_view x))) = o ≫= deposit_of x.
Proof.
  destruct o as [e|]; [|intros H; by rewrite omap_none]. intros (Hwf & pre & text & post & Hl & Hpre & Hd).
  rewrite Hl, omap_app, omap_none by done. cbn [app omap list_omap].
  assert (Hline : deposit_in_line (lt_signature x) (Some (DATA_PREFIX ++ text)) = deposit_of x e).
  { unfold deposit_in_line, strip_prefix. cbn [mbind option_bind].
    rewrite take_app_length, decide_True by done. cbn [mbind option_bind].
    rewrite drop_app_length, Hd. cbn [mbind option_bind].
    destruct e as [| |]; [done| |done]. destruct Hwf as (? & ? & ? & ? & ?). by apply parse_deposited_payload. }
  rewrite Hline. by destruct e.
Qed.

Lemma collect_deposits cl w h : serves_config cl w h → ∀ ps acc,
  Forall (λ p, p.1 ∈ h ∧ announces p.1 p.2) ps →
  ofold (collect_deposit w) acc (entry_of <$> ps.*1) = Ok (acc ++ omap read_event ps).
Proof.
  intros Hs. induction ps as [|p ps IH]; intros acc Hps; [by rewrite app_nil_r|].
  apply list.Forall_cons in Hps as [[Hin Ha] Hps]. cbn [fmap list_fmap ofold omap list_omap].
  unfold collect_deposit at 1, read_event at 1. cbn [entry_of se_failed se_signature].
  destruct (lt_failed p.1); [cbn [obind]; by apply IH|].
  unfold deposit_in_tx. rewrite (sc_view _ _ _ Hs) by done. cbn [obind]. rewrite (read_logs _ _ Ha).
  destruct (p.2 ≫= deposit_of p.1) as [d|]; rewrite IH by done; [by rewrite <- app_assoc|done].
Qed.

(** What one round reads, and what it queues. *)
Lemma watch_reads cl w h evs n :
  serves_config cl w h → Forall2 announces h evs →
  let read := omap read_event (rev (take 100 (zip h evs))) in
  rpc_fetch_deposits cl w None = Ok read
  ∧ store (watch cl w n) = store n
  ∧ pending_deposits (watch cl w n) = pending_deposits n ++ fresh_deposits (store n) read.
Proof.
  intros Hs Hev read. assert (Hread : rpc_fetch_deposits cl w None = Ok read).
  { unfold rpc_fetch_deposits. rewrite (sc_page _ _ _ Hs). cbn [obind].
    assert (Hz : rev (take 100 (entry_of <$> h)) = entry_of <$> (rev (take 100 (zip h evs))).*1).
    { rewrite <- (fst_zip h evs) at 1 by (by rewrite (Forall2_length Hev)).
      by rewrite !fmap_rev, !fmap_take. }
    rewrite Hz. rewrite (collect_deposits cl w h Hs); [done|].
    apply list.Forall_forall. intros [x o] Hx. rewrite elem_of_rev in Hx.
    apply elem_of_take in Hx as (i & Hi & _). apply lookup_zip_with_Some in Hi as (x' & o' & [= -> ->] & Hx & Ho).
    split; [by eapply list_elem_of_lookup_2|]. by eapply Forall2_lookup_lr. }
  split; [exact Hread|]. unfold watch. rewrite Hread. cbv zeta.
  destruct (decide (fresh_deposits (store n) read = [])) as [He|He]; [|done].
  split; [done|]. by rewrite He, app_nil_r.
Qed.

(** C17: the deposit watcher reads exactly the deposits of the newest hundred
    transactions on the config account, oldest first: of each that succeeded
    the first event in its logs, with the amount, recipient, asset and decimals
    the settlement program announced. It queues those without a receipt, and
    leaves the chain untouched. *)
Theorem watcher_reads_deposits cl w h evs n :
  serves_config cl w h → Forall2 announces h evs →
  let read := omap read_event (rev (take 100 (zip h evs))) in
  rpc_fetch_deposits cl w None = Ok read
  ∧ store (watch cl w n) = store n
  ∧ pending_deposits (watch cl w n) = pending_deposits n ++ fresh_deposits (store n) read.
Proof. exact (watch_reads cl w h evs n). Qed.

(** Deposits credited in a committed block are not queued again. *)
Lemma credited_not_fresh gas_mint (st st' : Store) ds w w' k :
  apply_deposits gas_mint st ds w = Ok (w', k) →
  decodes (t_accounts st) → (∀ d, d ∈ ds → w !! receipt_of d ≠ Some None) →
  t_accounts st' = fold_left write_account (map_to_list w') (t_accounts st) →
  fresh_deposits st' ds = [].
Proof.
  intros H Hd Hn Ht. apply elem_of_nil_inv. intros d [Hf Hin]%list_elem_of_filter.
  destruct (credited_committed gas_mint st st' ds w w' k d) as [a Ha]; [done..|].
  unfold has_receipt in Hf. fold (receipt_of d) in Hf. by rewrite Ha in Hf.
Qed.
End Watcher.

(** ** Witness *)

Module Example.
#[local] Existing Instances Toy.blake3_toy Toy.ed25519_toy Toy.solana_toy ExecToy.ids_toy.
#[local] Existing Instances WrappedSpl.Example.addresses_toy StoreToy.account_codec.
#[local] Existing Instances L1RpcProps.Example.sha_toy L1RpcProps.Example.rpc_toy.

(** A text ends with a full stop, which decoding drops. *)
#[local] Instance text_toy : TextCodecs.
Proof.
  refine {| b64_encode s := s ++ [Byte.x2e]; b64_decode s := Some (take (length s - 1) s);
            b58_encode := id; b58_decode := Some |}; [|done|done].
  intros b. f_equal. rewrite length_app. apply take_app_length'. cbn. lia.
Defined.
Definition text (e : L1Event) : bytes := b64_encode (event_payload e).

Definition pk (n : Z) : Pubkey := le_bytes 32 n.

(** A node with nothing stored yet. *)
Definition node0 : Node :=
  {| store := open_store;
     executor := {| ex_fee_collector := pk 9; builtin_specs := []; reserved_keys := ∅ |};
     pool_cfg := pool_config (pk 20) (pk 21) (pk 9); node_sequencer := pk 8; node_fee_collector := pk 9;
     tip := {| tip_queue := new_queue; tip_slot := 0; tip_blockhash := pk 0; last_block_unix_ms := 0 |};
     tip_poisoned := false;
     mempool := new_mempool 10 10; options := default_options; draining := false; total_txs := 0;
     pending_deposits := []; withdrawals := ∅ |}.

Definition sol : L1Event := Deposited (pk 4) 700 (pk 5) None 9.
Definition spl : L1Event := Deposited (pk 4) 50 (pk 5) (Some (pk 6)) 6.

Definition tx_of (sig : bytes) (failed : bool) (logs : list bytes) : LogTx :=
  {| lt_signature := sig; lt_failed := failed; lt_view := {| tv_logs := Some <$> logs; tv_message := None |} |}.

(** Newest first: a token deposit, a failed deposit, a batch post, a deposit. *)
Definition history : list LogTx :=
  [tx_of (bstr "d") false [bstr "Program log: Instruction: DepositSpl"; DATA_PREFIX ++ text spl];
   tx_of (bstr "c") true [DATA_PREFIX ++ text sol];
   tx_of (bstr "b") false [bstr "Program log: Instruction: PostBatch"];
   tx_of (bstr "a") false [DATA_PREFIX ++ text sol; bstr "Program consumed"]].
Definition events : list (option L1Event) := [Some spl; Some sol; None; Some sol].

Definition cl : RpcL1Client := L1RpcProps.Example.cl.

Lemma history_served : serves_config cl (L1RpcProps.Example.settled, history) history.
Proof.
  split; [reflexivity|]. intros x Hx.
  repeat (apply elem_of_cons in Hx as [->|Hx]; [vm_compute; reflexivity|]). by apply not_elem_of_nil in Hx.
Qed.

Lemma spl_wf : event_wf spl.
Proof.
  split; [reflexivity|]. split; [reflexivity|]. split; [unfold u64, u64_max; lia|]. split; [lia|].
  intros m Hm. injection Hm as <-. reflexivity.
Qed.
Lemma sol_wf : event_wf sol.
Proof.
  split; [reflexivity|]. split; [reflexivity|]. split; [unfold u64, u64_max; lia|]. split; [lia|]. discriminate.
Qed.

Lemma history_announces : Forall2 announces history events.
Proof.
  constructor; [|constructor; [|constructor; [|constructor; [|constructor]]]].
  - split; [exact spl_wf|].
    exists [Some (bstr "Program log: Instruction: DepositSpl")], (text spl), [].
    split; [reflexivity|]. split; [|vm_compute; reflexivity]. repeat constructor.
  - split; [exact sol_wf|]. exists [], (text sol), [].
    split; [reflexivity|]. split; [constructor|vm_compute; reflexivity].
  - repeat constructor.
  - split; [exact sol_wf|]. exists [], (text sol), [Some (bstr "Program consumed")].
    split; [reflexivity|]. split; [constructor|vm_compute; reflexivity].
Qed.

Lemma watcher_reads_deposits_witness :
  pending_deposits (watch cl (L1RpcProps.Example.settled, history) node0)
  = [{| l1_signature := bstr "a"; dep_mint := None; dep_decimals := 9; dep_amount := 700; l2_recipient := pk 5 |};
     {| l1_signature := bstr "d"; dep_mint := Some (pk 6); dep_decimals := 6; dep_amount := 50;
        l2_recipient := pk 5 |}].
Proof.
  destruct (watcher_reads_deposits cl (L1RpcProps.Example.settled, history) history events node0
              history_served history_announces) as (_ & _ & Hp).
  rewrite Hp. vm_compute. reflexivity.
Defined.
End Example.
