(* ===== verification/History.v ===== *)
(** * The history of an address over a node's chain

    The index of addresses of a reachable node's store, read back as a list:
    the transactions of the chain that name the address, in chain order. *)

From Stdlib Require Import Sorting.Sorted.
From stdpp Require Import sorting.
From S2P Require Import Prelude External Hash Paths Smt SmtProps Merkle Genesis Account Block Queue Sorting Store StoreProps WrappedSpl Field PoolState PoolProcessor PoolService Mempool NodeBridge Executor NodeLedger Node NodeChain.

(** ** Maps built by insertion *)

Definition put {K V} `{Countable K} (t : gmap K V) (kv : K * V) : gmap K V := <[kv.1 := kv.2]> t.

Lemma put_all_lookup {K V} `{Countable K} (l : list (K * V)) :
  (∀ k v v', (k, v) ∈ l → (k, v') ∈ l → v = v') →
  ∀ k v, fold_left put l ∅ !! k = Some v ↔ (k, v) ∈ l.
Proof.
  induction l as [|[k0 v0] l IH] using rev_ind; intros Hfun k v.
  { cbn. rewrite lookup_empty. split; [done|by intros ?%not_elem_of_nil]. }
  assert (Hfun' : ∀ k v v', (k, v) ∈ l → (k, v') ∈ l → v = v').
  { intros k' v' v'' H1 H2. apply (Hfun k'); apply elem_of_app; by left. }
  rewrite fold_left_app. cbn [fold_left]. unfold put at 1. cbn [fst snd].
  rewrite elem_of_app, list_elem_of_singleton. destruct (decide (k0 = k)) as [->|Hne].
  - rewrite lookup_insert_eq. split; [intros [= ->]; by right|]. intros [Hin|[= ->]]; [|done]. f_equal.
    apply (Hfun k); apply elem_of_app; [right; by apply list_elem_of_singleton|by left].
  - rewrite lookup_insert_ne, IH by done. split; [by left|]. intros [|[= -> ->]]; done.
Qed.

Lemma enumerate_snoc {A} (l : list A) x : enumerate (l ++ [x]) = enumerate l ++ [(length l, x)].
Proof. unfold enumerate. rewrite imap_app. cbn. by rewrite Nat.add_0_r. Qed.

Lemma elem_of_enumerate {A} (l : list A) i x : (i, x) ∈ enumerate l ↔ l !! i = Some x.
Proof.
  unfold enumerate. rewrite elem_of_lookup_imap. split; [|eauto]. by intros (j & y & [= -> ->] & ?).
Qed.

Section History.
Context `{B3 : Blake3} `{ED : Ed25519} `{TX : SolanaTx}.
Context `{!Bincode BlockHeader} `{!Bincode VersionedTransaction} `{!Bincode Block}.
Context `{!Bincode TxLocator} `{!Bincode ExecutedTransactionMeta}.

(** ** Rows of an address *)

Section Rows.
Context (address : Pubkey).

Definition block_rows (s : Z) (txs : list VersionedTransaction) : list (Signature * Z * Z) :=
  omap (λ row, if decide (address ∈ static_account_keys row.2)
               then sig ← first_signature row.2; Some (sig, s, Z.of_nat row.1) else None)
    (enumerate txs).

Definition chain_rows (bs : list Block) : list (Signature * Z * Z) :=
  concat (imap (λ k b, block_rows (Z.of_nat k + 1) (transactions b)) bs).

(** The signatures of the chain's transactions that name the address. *)
Definition address_signatures (bs : list Block) : list Signature :=
  omap first_signature (filter (λ tx, address ∈ static_account_keys tx) (concat (transactions <$> bs))).

Lemma block_rows_snoc s txs tx :
  block_rows s (txs ++ [tx]) = block_rows s txs
    ++ match first_signature tx with
       | Some sig => if decide (address ∈ static_account_keys tx) then [(sig, s, Z.of_nat (length txs))] else []
       | None => []
       end.
Proof.
  unfold block_rows. rewrite enumerate_snoc, omap_app. f_equal. cbn.
  by destruct (decide _), (first_signature tx).
Qed.

Lemma chain_rows_snoc bs b :
  chain_rows (bs ++ [b]) = chain_rows bs ++ block_rows (Z.of_nat (length bs) + 1) (transactions b).
Proof.
  unfold chain_rows. rewrite imap_app, concat_app. cbn. by rewrite app_nil_r, Nat.add_0_r.
Qed.

Lemma block_rows_elem s txs sig s' i :
  (sig, s', i) ∈ block_rows s txs ↔
  s' = s ∧ 0 ≤ i ∧ ∃ tx, txs !! Z.to_nat i = Some tx ∧ address ∈ static_account_keys tx ∧ first_signature tx = Some sig.
Proof.
  unfold block_rows. rewrite list_elem_of_omap. split.
  - intros ([k tx] & Hin & H). apply elem_of_enumerate in Hin. cbn [fst snd] in H. case_decide; [|done].
    destruct (first_signature tx) as [x|] eqn:Hs; [|done]. injection H as -> -> <-.
    rewrite Nat2Z.id. split_and!; [done|lia|eauto].
  - intros (-> & Hi & tx & Htx & Ha & Hs). exists (Z.to_nat i, tx). split; [by apply elem_of_enumerate|].
    cbn [fst snd]. rewrite decide_True, Hs by done. cbn. by rewrite Z2Nat.id.
Qed.

Lemma chain_rows_elem bs sig s i :
  (sig, s, i) ∈ chain_rows bs ↔
  0 ≤ i ∧ ∃ b tx, blocks_at bs s = Some b ∧ transactions b !! Z.to_nat i = Some tx
    ∧ address ∈ static_account_keys tx ∧ first_signature tx = Some sig.
Proof.
  induction bs as [|b bs IH] using rev_ind.
  { cbn. split; [by intros ?%not_elem_of_nil|]. intros (_ & b & tx & Hb & _). unfold blocks_at in Hb.
    by case_decide. }
  rewrite chain_rows_snoc, elem_of_app, IH, block_rows_elem. split.
  - intros [(Hi & b' & tx & Hb & H)|(-> & Hi & tx & H)]; (split; [done|]).
    + exists b', tx. split; [|done]. rewrite blocks_at_snoc. case_decide as Hs; [|done].
      unfold blocks_at in Hb. case_decide; [|done]. apply lookup_lt_Some in Hb. lia.
    + exists b, tx. split; [|done]. by rewrite blocks_at_snoc, decide_True.
  - intros (Hi & b' & tx & Hb & H). rewrite blocks_at_snoc in Hb. case_decide as Hs.
    + injection Hb as <-. right. eauto.
    + left. eauto 10.
Qed.

Lemma block_rows_sorted s txs : StronglySorted newer (rev (block_rows s txs)).
Proof.
  induction txs as [|tx txs IH] using rev_ind; [constructor|]. rewrite block_rows_snoc, rev_app_distr.
  destruct (first_signature tx) as [sig|]; [|done]. case_decide; [|done]. cbn [rev app].
  constructor; [done|]. apply list.Forall_forall. intros [[sg s'] i] Hin.
  apply list_elem_of_In, in_rev, list_elem_of_In, block_rows_elem in Hin as (-> & Hi & tx' & Htx & _).
  apply lookup_lt_Some in Htx. unfold newer. cbn. lia.
Qed.

Lemma chain_rows_sorted bs : StronglySorted newer (rev (chain_rows bs)).
Proof.
  induction bs as [|b bs IH] using rev_ind; [constructor|]. rewrite chain_rows_snoc, rev_app_distr.
  apply StronglySorted_app. split_and!; [|apply block_rows_sorted|done].
  intros [[sg s] i] [[sg' s'] i'] H1 H2.
  apply list_elem_of_In, in_rev, list_elem_of_In, block_rows_elem in H1 as (-> & _).
  apply list_elem_of_In, in_rev, list_elem_of_In, chain_rows_elem in H2 as (_ & b' & tx & Hb & _).
  unfold blocks_at in Hb. case_decide; [|done]. apply lookup_lt_Some in Hb. unfold newer. cbn. lia.
Qed.

Lemma block_rows_signatures s txs :
  (block_rows s txs).*1.*1 = omap first_signature (filter (λ tx, address ∈ static_account_keys tx) txs).
Proof.
  induction txs as [|tx txs IH] using rev_ind; [done|].
  rewrite block_rows_snoc, list.filter_app, omap_app, !fmap_app, IH. f_equal.
  rewrite filter_cons. case_decide; cbn; by destruct (first_signature tx).
Qed.

Lemma chain_rows_signatures bs : (chain_rows bs).*1.*1 = address_signatures bs.
Proof.
  induction bs as [|b bs IH] using rev_ind; [done|].
  rewrite chain_rows_snoc, !fmap_app, IH, block_rows_signatures. unfold address_signatures.
  rewrite fmap_app, concat_app, list.filter_app, omap_app. cbn. by rewrite app_nil_r.
Qed.

End Rows.

(** ** The index of a chain's store *)

Definition tx_entries (s : Z) (row : nat * VersionedTransaction) : list (bytes * Signature) :=
  match first_signature row.2 with
  | Some sig => (λ a, (addr_sig_key a s (Z.of_nat row.1 mod 2 ^ 32), sig)) <$> static_account_keys row.2
  | None => []
  end.

Definition block_entries (b : Block) : list (bytes * Signature) :=
  concat (tx_entries (slot (header b)) <$> enumerate (transactions b)).

Lemma index_row_entries s t row : index_row s t row = fold_left put (tx_entries s row) t.
Proof.
  unfold index_row, tx_entries. destruct (first_signature row.2) as [sig|]; [|done].
  revert t. induction (static_account_keys row.2) as [|a l IH]; intros t; [done|]. cbn. apply IH.
Qed.

Lemma index_entries bs t : fold_left index_block bs t = fold_left put (concat (block_entries <$> bs)) t.
Proof.
  rewrite <- (fold_nested put block_entries). revert t.
  induction bs as [|b bs IH]; intros t; cbn [fold_left]; [done|]. rewrite IH. f_equal.
  unfold index_block, block_entries. rewrite <- (fold_nested put (tx_entries (slot (header b)))).
  generalize (enumerate (transactions b)) as l. intros l. revert t.
  induction l as [|row l IHl]; intros t; cbn [fold_left]; [done|]. by rewrite IHl, index_row_entries.
Qed.

(** The types of signatures and addresses. *)
Definition chain_typed (bs : list Block) : Prop :=
  Forall (λ b, Forall (λ tx, Forall (λ s, length s = 64%nat) (signatures tx)
                             ∧ Forall (λ a, length a = 32%nat) (static_account_keys tx)) (transactions b)) bs.

Context (g : GenesisConfig).

Lemma linked_slot bs : ∀ prev k i b, linked g prev k bs → bs !! i = Some b → slot (header b) = k + Z.of_nat i.
Proof.
  induction bs as [|b0 bs IH]; intros prev k [|i] b Hl Hi; [done|done|..]; destruct Hl as (Hs & _ & _ & Hl).
  - injection Hi as <-. lia.
  - rewrite (IH _ _ _ _ Hl Hi). lia.
Qed.

Section Index.
Context (st : Store) (bs : list Block) (Hsc : store_chain g st bs) (Hty : chain_typed bs).

(** Where a transaction of the chain is. *)
Record located (s i : Z) (tx : VersionedTransaction) : Prop := {
  lo_block : ∃ b, blocks_at bs s = Some b ∧ transactions b !! Z.to_nat i = Some tx;
  lo_slot : u64 s;
  lo_index : 0 ≤ i < u32_max;
  lo_keys : Forall (λ a, length a = 32%nat) (static_account_keys tx);
  lo_sigs : Forall (λ s, length s = 64%nat) (signatures tx);
}.

Lemma locate s i b tx : blocks_at bs s = Some b → 0 ≤ i → transactions b !! Z.to_nat i = Some tx → located s i tx.
Proof.
  intros Hb Hi Htx. pose proof (sc_len _ _ _ Hsc) as Hlen. pose proof (ci_blocks _ _ (sc_indexed _ _ _ Hsc)) as Hbl.
  unfold blocks_at in Hb. case_decide as Hs; [|done].
  pose proof (lookup_lt_Some _ _ _ Hb). pose proof (lookup_lt_Some _ _ _ Htx).
  rewrite list.Forall_forall in Hbl. destruct (Hbl b) as [Hl _]; [by eapply list_elem_of_lookup_2|].
  unfold chain_typed in Hty. rewrite list.Forall_forall in Hty. specialize (Hty b ltac:(by eapply list_elem_of_lookup_2)).
  rewrite list.Forall_forall in Hty. destruct (Hty tx) as [H1 H2]; [by eapply list_elem_of_lookup_2|].
  split; [|unfold u64; lia|lia|done|done]. exists b. split; [|done]. unfold blocks_at. by rewrite decide_True.
Qed.

Lemma entry_spec k sig :
  (k, sig) ∈ concat (block_entries <$> bs) ↔
  ∃ s i tx a, located s i tx ∧ a ∈ static_account_keys tx ∧ first_signature tx = Some sig ∧ k = addr_sig_key a s i.
Proof.
  rewrite list_elem_of_In, in_concat. split.
  - intros (l & Hl & Hk). apply list_elem_of_In, list_elem_of_fmap in Hl as (b & -> & Hb).
    unfold block_entries in Hk. apply in_concat in Hk as (l & Hl & Hk).
    apply list_elem_of_In, list_elem_of_fmap in Hl as ([i tx] & -> & Hrow). apply elem_of_enumerate in Hrow.
    apply list_elem_of_In in Hk. unfold tx_entries in Hk. cbn [fst snd] in Hk.
    destruct (first_signature tx) as [sg|] eqn:Hs; [|by apply not_elem_of_nil in Hk].
    apply list_elem_of_fmap in Hk as (a & [= -> ->] & Ha).
    apply list_elem_of_lookup in Hb as [j Hj].
    rewrite (linked_slot _ _ _ _ _ (sc_linked _ _ _ Hsc) Hj).
    assert (Hat : blocks_at bs (1 + Z.of_nat j) = Some b).
    { unfold blocks_at. rewrite decide_True by lia. rewrite <- Hj. f_equal. lia. }
    assert (Hloc : located (1 + Z.of_nat j) (Z.of_nat i) tx) by (eapply locate; [done|lia|by rewrite Nat2Z.id]).
    exists (1 + Z.of_nat j), (Z.of_nat i), tx, a. split_and!; [done|done|done|].
    rewrite Z.mod_small; [done|]. pose proof (lo_index _ _ _ Hloc). unfold u32_max in *. lia.
  - intros (s & i & tx & a & Hloc & Ha & Hs & ->). destruct (lo_block _ _ _ Hloc) as (b & Hb & Htx).
    exists (block_entries b). rewrite <- !list_elem_of_In. unfold blocks_at in Hb. case_decide as Hpos; [|done].
    split; [apply list_elem_of_fmap; exists b; split; [done|by eapply list_elem_of_lookup_2]|].
    apply list_elem_of_In, in_concat. exists (tx_entries (slot (header b)) (Z.to_nat i, tx)).
    rewrite <- !list_elem_of_In. split; [apply list_elem_of_fmap; exists (Z.to_nat i, tx); split; [done|by apply elem_of_enumerate]|].
    unfold tx_entries. cbn [fst snd]. rewrite Hs. apply list_elem_of_fmap. exists a. split; [|done].
    rewrite (linked_slot _ _ _ _ _ (sc_linked _ _ _ Hsc) Hb).
    pose proof (lo_index _ _ _ Hloc). rewrite Z2Nat.id by lia. rewrite Z.mod_small by (unfold u32_max in *; lia).
    do 2 f_equal; lia.
Qed.

Lemma located_unique s i tx tx' : located s i tx → located s i tx' → tx = tx'.
Proof. intros [(b & Hb & H) _ _ _ _] [(b' & Hb' & H') _ _ _ _]. congruence. Qed.

(** The entries of one transaction's position all carry its signature. *)
Lemma entries_functional k v v' :
  (k, v) ∈ concat (block_entries <$> bs) → (k, v') ∈ concat (block_entries <$> bs) → v = v'.
Proof.
  intros (s & i & tx & a & Hl & Ha & Hs & ->)%entry_spec (s' & i' & tx' & a' & Hl' & Ha' & Hs' & He)%entry_spec.
  pose proof (lo_keys _ _ _ Hl) as Hk. pose proof (lo_keys _ _ _ Hl') as Hk'. rewrite list.Forall_forall in Hk, Hk'.
  pose proof (lo_index _ _ _ Hl). pose proof (lo_index _ _ _ Hl').
  apply addr_sig_key_inj in He as (_ & <- & <-); [|by apply Hk|by apply Hk'|apply Hl|unfold u32; lia|apply Hl'|unfold u32; lia].
  rewrite (located_unique _ _ _ _ Hl Hl') in Hs. congruence.
Qed.

Lemma index_lookup k sig :
  t_addr_sigs st !! k = Some sig ↔
  ∃ s i tx a, located s i tx ∧ a ∈ static_account_keys tx ∧ first_signature tx = Some sig ∧ k = addr_sig_key a s i.
Proof.
  rewrite (ci_addrs _ _ (sc_indexed _ _ _ Hsc)), index_entries, put_all_lookup by apply entries_functional.
  apply entry_spec.
Qed.

Lemma chain_index_wf : index_wf st.
Proof.
  intros k sig (s & i & tx & a & Hl & Ha & Hs & ->)%index_lookup.
  pose proof (lo_keys _ _ _ Hl) as Hk. pose proof (lo_sigs _ _ _ Hl) as Hsg. pose proof (lo_index _ _ _ Hl).
  rewrite list.Forall_forall in Hk, Hsg. split.
  - apply Hsg. unfold first_signature in Hs. destruct (signatures tx) as [|x l]; [done|]. injection Hs as ->. left.
  - exists a, s, i. split_and!; [by apply Hk|apply Hl|unfold u32; lia|done].
Qed.

(** The index of an address holds exactly its rows. *)
Lemma index_rows address sig s i :
  length address = 32%nat →
  (sig, s, i) ∈ chain_rows address bs ↔
  u64 s ∧ u32 i ∧ (s, i) ≠ (u64_max, u32_max) ∧ t_addr_sigs st !! addr_sig_key address s i = Some sig.
Proof.
  intros Ha. rewrite chain_rows_elem, index_lookup. split.
  - intros (Hi & b & tx & Hb & Htx & Hin & Hs). pose proof (locate _ _ _ _ Hb Hi Htx) as Hl.
    pose proof (lo_index _ _ _ Hl). split_and!; [apply Hl|unfold u32; lia| |eauto 10]. intros [= _ ->]. lia.
  - intros (Hs & Hi & _ & s' & i' & tx & a & Hl & Hin & Hsg & He).
    pose proof (lo_keys _ _ _ Hl) as Hk. rewrite list.Forall_forall in Hk. pose proof (lo_index _ _ _ Hl).
    apply addr_sig_key_inj in He as (-> & -> & ->); [|done|by apply Hk|done|done|apply Hl|unfold u32; lia].
    split; [lia|]. destruct (lo_block _ _ _ Hl) as (b & Hb & Htx). eauto 10.
Qed.

Lemma indexed_found address s i sig :
  length address = 32%nat → u64 s → u32 i → t_addr_sigs st !! addr_sig_key address s i = Some sig →
  ∃ tx meta, get_transaction st sig = Ok (Some ({| loc_slot := s; loc_index := i |}, tx, meta)).
Proof.
  intros Ha Hs Hi (s' & i' & tx & a & Hl & Hin & Hsg & He)%index_lookup.
  pose proof (lo_keys _ _ _ Hl) as Hk. rewrite list.Forall_forall in Hk. pose proof (lo_index _ _ _ Hl).
  apply addr_sig_key_inj in He as (-> & -> & ->); [|done|by apply Hk|done|done|apply Hl|unfold u32; lia].
  destruct (lo_block _ _ _ Hl) as (b & Hb & Htx).
  destruct (ci_found _ _ (sc_indexed _ _ _ Hsc) _ _ _ _ _ Hb Htx Hsg) as [meta Hm].
  rewrite Z2Nat.id in Hm by lia. eauto.
Qed.
End Index.
End History.
