(* ===== verification/RpcServer.v ===== *)
(** * The JSON-RPC server

    Models [chain/zul-rpc/src/encode.rs], [backend.rs] and [server.rs] over the
    node that implements the backend: every method as a function of the node
    and the request's parameters ([None] when they are not JSON), the registry
    of methods, and the three subscriptions as functions of what the block
    channel delivers. A read sees one state of the node. HTTP, WebSockets and
    connection limits are left out, and so are the texts of store and node
    errors and of a transaction error's debug form, which are parameters. *)

From S2P Require Import Prelude External Json Hash Paths Smt SmtProps Merkle Genesis Account Block Queue Store StoreProps WrappedSpl Field PoolState PoolProcessor PoolService Mempool NodeBridge Executor NodeLedger Node.

Record ErrorObject := {
  err_code : Z;
  err_message : bytes;
}.

Definition invalid_params (msg : bytes) : ErrorObject := {| err_code := -32602; err_message := msg |}.
Definition internal (msg : bytes) : ErrorObject := {| err_code := -32603; err_message := msg |}.
Definition method_not_found : ErrorObject :=
  {| err_code := -32601; err_message := bstr "Method not found" |}.

(** [Rent::default().minimum_balance] of the SDK. *)
Class RentTable := { minimum_balance : Z → Z }.

Record BlockNotification := {
  bn_slot : Z;
  bn_parent_slot : Z;
  bn_signatures : list (Signature * option bytes);
  bn_accounts : list (Pubkey * option StoredAccount);
}.

(** ** Shapes *)

Definition with_context (sl : Z) (value : Value) : Value :=
  JObj [("context", JObj [("apiVersion", JStr (bstr "3.1.14")); ("slot", JNum sl)]); ("value", value)].

Section Encode.
Context `{T : TextCodecs}.
Context (debug_error : TransactionError → bytes).

Definition encode_account_data (data : bytes) (encoding : bytes) : Value :=
  if decide (encoding = bstr "base58") then JStr (b58_encode data)
  else JArr [JStr (b64_encode data); JStr (bstr "base64")].

Definition encode_account (a : StoredAccount) (encoding : bytes) : Value :=
  JObj [("lamports", JNum (lamports a)); ("owner", JStr (b58_encode (owner a)));
        ("data", encode_account_data (data a) encoding); ("executable", JBool (executable a));
        ("rentEpoch", JNum (rent_epoch a)); ("space", JNum (Z.of_nat (length (data a))))].

Definition signature_entry (sig : Signature) (sl : Z) (err : option Value) : Value :=
  JObj [("signature", JStr (b58_encode sig)); ("slot", JNum sl); ("err", json_opt err);
        ("memo", JNull); ("blockTime", JNull); ("confirmationStatus", JStr (bstr "finalized"))].

Definition status_to_json (s : TransactionError + ()) : Value :=
  match s with
  | inr _ => JNull
  | inl e => JObj [("err", JStr (debug_error e))]
  end.

Definition encode_meta (m : ExecutedTransactionMeta) (account_keys : list Pubkey) : Value :=
  JObj [("err", status_to_json (status m)); ("fee", JNum (fee m));
        ("preBalances", JArr (JNum <$> pre_balances m)); ("postBalances", JArr (JNum <$> post_balances m));
        ("innerInstructions", JArr []); ("logMessages", JArr (JStr <$> log_messages m));
        ("preTokenBalances", JArr []); ("postTokenBalances", JArr []); ("rewards", JArr []);
        ("computeUnitsConsumed", JNum (compute_units_consumed m));
        ("loadedAddresses", JObj [("writable", JArr []); ("readonly", JArr [])]);
        ("accountKeys", JArr ((λ k, JStr (b58_encode k)) <$> account_keys))].

(** ** Parameters *)

Definition parse_pubkey (v : option Value) : outcome ErrorObject Pubkey :=
  let? s := ok_or (v ≫= as_str) (invalid_params (bstr "expected a base58 pubkey string")) in
  ok_or (b58_fixed 32 s) (invalid_params (bstr "invalid pubkey")).

Definition parse_opt_signature (config : option Value) (key : string)
    : outcome ErrorObject (option Signature) :=
  match (config ≫= get_field key) ≫= as_str with
  | Some s => let? sig := ok_or (b58_fixed 64 s)
                            (invalid_params (bstr "invalid " ++ bstr key ++ bstr " signature")) in
              Ok (Some sig)
  | None => Ok None
  end.

(** One filter: a data size, a comparison at an offset, or anything else, which
    passes. *)
Definition passes_filter (d : bytes) (f : Value) : bool :=
  match get_field "dataSize" f ≫= as_u64 with
  | Some size => bool_decide (Z.of_nat (length d) = size)
  | None =>
      match get_field "memcmp" f with
      | None => true
      | Some mc =>
          let offset := default 0 (get_field "offset" mc ≫= as_u64) in
          let bs := default [] ((get_field "bytes" mc ≫= as_str) ≫= b58_decode) in
          let end_ := sat_add offset (Z.of_nat (length bs)) in
          if decide (Z.of_nat (length d) < end_) then false
          else bool_decide (slice (Z.to_nat offset) (Z.to_nat end_) d = bs)
      end
  end.

Definition passes_filters (d : bytes) (filters : list Value) : bool := forallb (passes_filter d) filters.

Definition config_str (params : list Value) (key : string) (def : bytes) : bytes :=
  default def ((params !! 1%nat ≫= get_field key) ≫= as_str).

Definition params_array (raw : Value) : list Value :=
  match raw with
  | JArr a => a
  | JNull => []
  | other => [other]
  end.

(** [params_array(params.parse().map_err(..)?)] *)
Definition parse_params (raw : option Value) : outcome ErrorObject (list Value) :=
  let? v := ok_or raw (invalid_params (bstr "bad params")) in Ok (params_array v).

Context `{TX : SolanaTx} `{!Bincode VersionedTransaction}.

(** The hinted encoding first, then the other; the first that deserializes. *)
Definition decode_transaction (v : option Value) (encoding : bytes)
    : outcome ErrorObject VersionedTransaction :=
  let? s := ok_or (v ≫= as_str) (invalid_params (bstr "expected an encoded transaction string")) in
  let candidates := if decide (encoding = bstr "base58") then [b58_decode s; b64_decode s]
                    else [b64_decode s; b58_decode s] in
  ok_or (head (omap (λ c, c ≫= deserialize) candidates)) (invalid_params (bstr "undeserializable transaction")).

End Encode.

Section Server.
Context `{B3 : Blake3} `{ED : Ed25519} `{TX : SolanaTx} `{SA : SolanaAddresses} `{P : Poseidon}.
Context `{V : ProofVerifier} `{SVM : !Svm} `{IDS : SdkIds}.
Context `{!Bincode StoredAccount} `{!Bincode PoolState} `{!Bincode Block} `{!Bincode BlockHeader}.
Context `{!Bincode VersionedTransaction} `{!Bincode TxLocator} `{!Bincode ExecutedTransactionMeta}.
Context `{!Bincode (nat * list (Z * H256))} `{!Bincode PoolInstruction} `{!Bincode Clock}.
Context `{!Bincode Rent} `{!Bincode EpochSchedule} `{!Bincode (list RecentEntry)}.
Context `{T : TextCodecs} `{RT : RentTable}.
Context (signed_transfer : Keypair → Pubkey → Z → H256 → VersionedTransaction).
Context (store_error_text : StoreError → bytes) (node_error_text : NodeError → bytes).
Context (debug_error : TransactionError → bytes).

(** [BackendError]'s display. *)
Definition backend_error_text (e : BackendError) : bytes :=
  match e with
  | Rejected msg => bstr "transaction rejected: " ++ bstr msg
  | FaucetDisabled => bstr "faucet disabled"
  | FaucetLimit => bstr "faucet limit exceeded"
  | Internal e => bstr "internal error: " ++ node_error_text e
  end.

Definition store_err {A} (r : outcome StoreError A) : outcome ErrorObject A :=
  map_err (λ e, internal (store_error_text e)) r.

Definition backend_err {A} (r : outcome BackendError A) : outcome ErrorObject A :=
  map_err (λ e, invalid_params (backend_error_text e)) r.

(** ** Methods that read *)

Definition get_health (n : Node) (now : Z) : outcome ErrorObject Value :=
  let? healthy := is_healthy n now in
  if healthy then Ok (JStr (bstr "ok"))
  else Err {| err_code := -32005; err_message := bstr "Node is unhealthy: block production stalled" |}.

Definition get_version : outcome ErrorObject Value :=
  Ok (JObj [("solana-core", JStr (bstr "3.1.14")); ("feature-set", JNum 0)]).

Definition current_slot (n : Node) : outcome ErrorObject Z := let? t := read_tip n in Ok (tip_slot t).

Definition get_slot (n : Node) : outcome ErrorObject Value := let? sl := current_slot n in Ok (JNum sl).

Definition get_block_height (n : Node) : outcome ErrorObject Value := let? sl := current_slot n in Ok (JNum sl).

Definition SLOTS_PER_EPOCH : Z := 432000.

Definition get_epoch_info (n : Node) : outcome ErrorObject Value :=
  let? sl := current_slot n in
  Ok (JObj [("absoluteSlot", JNum sl); ("blockHeight", JNum sl); ("epoch", JNum (sl / SLOTS_PER_EPOCH));
            ("slotIndex", JNum (sl mod SLOTS_PER_EPOCH)); ("slotsInEpoch", JNum SLOTS_PER_EPOCH);
            ("transactionCount", JNull)]).

Definition get_minimum_balance (raw : option Value) : outcome ErrorObject Value :=
  let? parsed := parse_params raw in
  Ok (JNum (minimum_balance (default 0 (head parsed ≫= as_u64)))).

(** The signature count: byte 0, or byte 1 after a version prefix. *)
Definition message_signatures (bs : bytes) : Z :=
  let off := match head bs with
             | Some b => if decide (Z.land (Z_of_byte b) 128 ≠ 0) then 1%nat else 0%nat
             | None => 0%nat
             end in
  default 1 (Z_of_byte <$> bs !! off).

Definition get_fee_for_message (n : Node) (raw : option Value) : outcome ErrorObject Value :=
  let? parsed := parse_params raw in
  let sigs := default 1 (message_signatures <$> ((head parsed ≫= as_str) ≫= b64_decode)) in
  let? sl := current_slot n in
  Ok (with_context sl (JNum (sat_mul sigs LAMPORTS_PER_SIGNATURE))).

Definition rpc_genesis_hash (n : Node) : outcome ErrorObject Value :=
  let? h := ok_or (get_genesis_hash (store n)) (internal (bstr "genesis not initialized")) in
  Ok (JStr (b58_encode h)).

Definition get_latest_blockhash (n : Node) : outcome ErrorObject Value :=
  let? t := read_tip n in
  let sl := tip_slot t in
  Ok (with_context sl
        (JObj [("blockhash", JStr (b58_encode (tip_blockhash t)));
               ("lastValidBlockHeight", JNum (wadd sl (Z.of_nat BLOCKHASH_QUEUE_CAPACITY)))])).

Definition is_blockhash_valid (n : Node) (raw : option Value) : outcome ErrorObject Value :=
  let? parsed := parse_params raw in
  let? s := ok_or (head parsed ≫= as_str) (invalid_params (bstr "expected blockhash string")) in
  let? bs := ok_or (b58_decode s) (invalid_params (bstr "invalid blockhash")) in
  if decide (length bs ≠ 32%nat) then Err (invalid_params (bstr "blockhash must be 32 bytes"))
  else
    let? sl := current_slot n in
    let? t := read_tip n in
    Ok (with_context sl (JBool (is_valid (tip_queue t) bs))).

Definition get_balance (n : Node) (raw : option Value) : outcome ErrorObject Value :=
  let? parsed := parse_params raw in
  let? pubkey := parse_pubkey (head parsed) in
  let? account := store_err (get_account (store n) pubkey) in
  let? sl := current_slot n in
  Ok (with_context sl (JNum (default 0 (lamports <$> account)))).

Definition account_value (account : option StoredAccount) (encoding : bytes) : Value :=
  json_opt ((λ a, encode_account a encoding) <$> account).

Definition get_account_info (n : Node) (raw : option Value) : outcome ErrorObject Value :=
  let? parsed := parse_params raw in
  let? pubkey := parse_pubkey (head parsed) in
  let encoding := config_str parsed "encoding" (bstr "base64") in
  let? account := store_err (get_account (store n) pubkey) in
  let? sl := current_slot n in
  Ok (with_context sl (account_value account encoding)).

Definition push_account (n : Node) (encoding : bytes) (values : list Value) (key : Value)
    : outcome ErrorObject (list Value) :=
  let? pubkey := parse_pubkey (Some key) in
  let? account := store_err (get_account (store n) pubkey) in
  Ok (values ++ [account_value account encoding]).

Definition get_multiple_accounts (n : Node) (raw : option Value) : outcome ErrorObject Value :=
  let? parsed := parse_params raw in
  let? keys := ok_or (head parsed ≫= as_array) (invalid_params (bstr "expected an array of pubkeys")) in
  let encoding := config_str parsed "encoding" (bstr "base64") in
  let? values := ofold (push_account n encoding) [] keys in
  let? sl := current_slot n in
  Ok (with_context sl (JArr values)).

Definition keyed_account (encoding : bytes) (row : Pubkey * StoredAccount) : Value :=
  JObj [("pubkey", JStr (b58_encode row.1)); ("account", encode_account row.2 encoding)].

(** The scan limit of the two account listings. *)
Definition SCAN_LIMIT : nat := Z.to_nat 10000.

Definition token_owned_by (owner_key : Pubkey) (a : StoredAccount) : bool :=
  bool_decide (64 ≤ length (data a))%nat && bool_decide (slice 32 64 (data a) = owner_key).

Definition get_token_accounts_by_owner (n : Node) (raw : option Value) : outcome ErrorObject Value :=
  let? parsed := parse_params raw in
  let? owner_key := parse_pubkey (head parsed) in
  let? program :=
    match (parsed !! 1%nat ≫= get_field "programId") ≫= as_str with
    | Some s => ok_or (b58_fixed 32 s) (invalid_params (bstr "invalid programId"))
    | None => Ok TOKEN_PROGRAM_ID
    end in
  let encoding := config_str parsed "encoding" (bstr "base64") in
  let? accounts := store_err (scan_accounts_by_owner (store n) program SCAN_LIMIT) in
  let? sl := current_slot n in
  Ok (with_context sl
        (JArr (keyed_account encoding <$> filter (λ r, token_owned_by owner_key r.2 = true) accounts))).

(** [.ok().flatten()] *)
Definition found_transaction (n : Node) (sig : Signature)
    : option (TxLocator * VersionedTransaction * ExecutedTransactionMeta) :=
  default None (ok_opt (get_transaction (store n) sig)).

Definition history_entry (n : Node) (row : Signature * Z * Z) : Value :=
  let err := (λ x, status_to_json debug_error (status x.2)) <$> found_transaction n row.1.1 in
  signature_entry row.1.1 row.1.2 (v ← err; if is_null v then None else Some v).

(** The rows before the first with the [until] signature. *)
Fixpoint rows_until (until : option Signature) (rows : list (Signature * Z * Z)) : list (Signature * Z * Z) :=
  match rows with
  | [] => []
  | row :: rows => if decide (Some row.1.1 = until) then [] else row :: rows_until until rows
  end.

Definition get_signatures_for_address (n : Node) (raw : option Value) : outcome ErrorObject Value :=
  let? parsed := parse_params raw in
  let? address := parse_pubkey (head parsed) in
  let config := parsed !! 1%nat in
  let limit := Z.to_nat (Z.min (default 1000 ((config ≫= get_field "limit") ≫= as_u64)) 1000) in
  let? before_sig := parse_opt_signature config "before" in
  let before_cursor := sig ← before_sig;
                       x ← found_transaction n sig; Some (loc_slot x.1.1, loc_index x.1.1) in
  let? until_sig := parse_opt_signature config "until" in
  let? entries := store_err (signatures_for_address (store n) address before_cursor limit) in
  Ok (JArr (history_entry n <$> rows_until until_sig entries)).

Definition get_program_accounts (n : Node) (raw : option Value) : outcome ErrorObject Value :=
  let? parsed := parse_params raw in
  let? program := parse_pubkey (head parsed) in
  let encoding := config_str parsed "encoding" (bstr "base64") in
  let filters := default [] ((parsed !! 1%nat ≫= get_field "filters") ≫= as_array) in
  let? accounts := store_err (scan_accounts_by_owner (store n) program SCAN_LIMIT) in
  Ok (JArr (keyed_account encoding <$> filter (λ r, passes_filters (data r.2) filters = true) accounts)).

Definition rpc_get_transaction (n : Node) (raw : option Value) : outcome ErrorObject Value :=
  let? parsed := parse_params raw in
  let? s := ok_or (head parsed ≫= as_str) (invalid_params (bstr "expected signature string")) in
  let? sig := ok_or (b58_fixed 64 s) (invalid_params (bstr "invalid signature")) in
  let? found := store_err (get_transaction (store n) sig) in
  match found with
  | None => Ok JNull
  | Some (locator, tx, meta) =>
      Ok (JObj [("slot", JNum (loc_slot locator)); ("blockTime", JNull);
                ("transaction", JArr [JStr (b64_encode (serialize tx)); JStr (bstr "base64")]);
                ("meta", encode_meta debug_error meta (static_account_keys tx))])
  end.

Definition signature_status (x : TxLocator * VersionedTransaction * ExecutedTransactionMeta) : Value :=
  JObj [("slot", JNum (loc_slot x.1.1)); ("confirmations", JNull);
        ("err", status_to_json debug_error (status x.2));
        ("status", match status x.2 with
                   | inr _ => JObj [("Ok", JNull)]
                   | inl e => JObj [("Err", JStr (debug_error e))]
                   end);
        ("confirmationStatus", JStr (bstr "finalized"))].

Definition push_status (n : Node) (values : list Value) (s : Value) : outcome ErrorObject (list Value) :=
  match as_str s with
  | None => Ok (values ++ [JNull])
  | Some s =>
      let? sig := ok_or (b58_fixed 64 s) (invalid_params (bstr "invalid signature")) in
      let? found := store_err (get_transaction (store n) sig) in
      Ok (values ++ [json_opt (signature_status <$> found)])
  end.

Definition get_signature_statuses (n : Node) (raw : option Value) : outcome ErrorObject Value :=
  let? parsed := parse_params raw in
  let? sigs := ok_or (head parsed ≫= as_array) (invalid_params (bstr "expected array of signatures")) in
  let? values := ofold (push_status n) [] sigs in
  let? sl := current_slot n in
  Ok (with_context sl (JArr values)).

Definition rpc_get_block (n : Node) (raw : option Value) : outcome ErrorObject Value :=
  let? parsed := parse_params raw in
  let? sl := ok_or (head parsed ≫= as_u64) (invalid_params (bstr "expected slot number")) in
  let? block := store_err (get_block (store n) sl) in
  match block with
  | None => Ok JNull
  | Some b =>
      Ok (JObj [("blockhash", JStr (b58_encode (header_hash (header b))));
                ("previousBlockhash", JStr (b58_encode (parent_hash (header b))));
                ("parentSlot", JNum (sat_sub (slot (header b)) 1)); ("blockHeight", JNum (slot (header b)));
                ("blockTime", JNum (timestamp_ms (header b) / 1000));
                ("stateRoot", JStr (b58_encode (state_root (header b))));
                ("signatures", JArr ((λ s, JStr (b58_encode s)) <$> omap (λ tx, head (signatures tx)) (transactions b)))])
  end.

Definition rpc_simulate (n : Node) (now : Z) (raw : option Value) : outcome ErrorObject Value :=
  let? parsed := parse_params raw in
  let? tx := decode_transaction (head parsed) (config_str parsed "encoding" (bstr "base64")) in
  let? r := backend_err (simulate_transaction n tx now) in
  let? sl := current_slot n in
  Ok (with_context sl
        (JObj [("err", json_opt ((λ e, JStr (debug_error e)) <$> sim_err r));
               ("logs", JArr (JStr <$> sim_logs r)); ("unitsConsumed", JNum (units_consumed r));
               ("accounts", JNull); ("returnData", JNull)])).

(** A number, or its decimal text. *)
Definition num (v : option Value) : option Z :=
  v ← v; match as_u64 v with Some n => Some n | None => as_str v ≫= parse_u64 end.

Definition get_withdrawal_proof (n : Node) (raw : option Value) : outcome ErrorObject Value :=
  let? parsed := parse_params raw in
  let? recipient := parse_pubkey (head parsed) in
  let? amount := ok_or (num (parsed !! 1%nat)) (invalid_params (bstr "expected amount")) in
  let? nonce := ok_or (num (parsed !! 2%nat)) (invalid_params (bstr "expected nonce")) in
  let? asset := match parsed !! 3%nat with
                | Some v => if is_null v then Ok NATIVE_ASSET_ID else parse_pubkey (Some v)
                | None => Ok NATIVE_ASSET_ID
                end in
  let? (root, proof) := map_err (λ e, invalid_params (node_error_text e))
                          (compute_withdrawal_proof n recipient asset amount nonce) in
  Ok (JObj [("stateRoot", JStr (b58_encode root)); ("bitmap", JStr (b58_encode (bitmap proof)));
            ("siblings", JArr ((λ s, JStr (b58_encode s)) <$> siblings proof))]).

(** ** Methods that submit *)

Definition send_transaction (n : Node) (raw : option Value) : Node * outcome ErrorObject Value :=
  match (let? parsed := parse_params raw in
         decode_transaction (head parsed) (config_str parsed "encoding" (bstr "base58"))) with
  | Ok tx =>
      let '(n, r) := submit_transaction n tx in
      (n, let? sig := backend_err r in Ok (JStr (b58_encode sig)))
  | Err e => (n, Err e)
  | Panic => (n, Panic)
  end.

Definition rpc_request_airdrop (n : Node) (raw : option Value) : Node * outcome ErrorObject Value :=
  match (let? parsed := parse_params raw in
         let? pubkey := parse_pubkey (head parsed) in
         let? amount := ok_or (parsed !! 1%nat ≫= as_u64) (invalid_params (bstr "expected lamports amount")) in
         Ok (pubkey, amount)) with
  | Ok (pubkey, amount) =>
      let '(n, r) := request_airdrop signed_transfer n pubkey amount in
      (n, let? sig := backend_err r in Ok (JStr (b58_encode sig)))
  | Err e => (n, Err e)
  | Panic => (n, Panic)
  end.

(** ** The registry *)

Definition Handler : Type := Node → Z → option Value → Node * outcome ErrorObject Value.

Definition reads (f : Node → Z → option Value → outcome ErrorObject Value) : Handler :=
  λ n now raw, (n, f n now raw).

Definition build_module (faucet_enabled : bool) : list (string * Handler) :=
  [("getHealth", reads (λ n now _, get_health n now));
   ("getVersion", reads (λ _ _ _, get_version));
   ("getSlot", reads (λ n _ _, get_slot n));
   ("getBlockHeight", reads (λ n _ _, get_block_height n));
   ("getEpochInfo", reads (λ n _ _, get_epoch_info n));
   ("getMinimumBalanceForRentExemption", reads (λ _ _ raw, get_minimum_balance raw));
   ("getFeeForMessage", reads (λ n _ raw, get_fee_for_message n raw));
   ("getGenesisHash", reads (λ n _ _, rpc_genesis_hash n));
   ("getLatestBlockhash", reads (λ n _ _, get_latest_blockhash n));
   ("isBlockhashValid", reads (λ n _ raw, is_blockhash_valid n raw));
   ("getBalance", reads (λ n _ raw, get_balance n raw));
   ("getAccountInfo", reads (λ n _ raw, get_account_info n raw));
   ("getMultipleAccounts", reads (λ n _ raw, get_multiple_accounts n raw));
   ("getTokenAccountsByOwner", reads (λ n _ raw, get_token_accounts_by_owner n raw));
   ("getSignaturesForAddress", reads (λ n _ raw, get_signatures_for_address n raw));
   ("getProgramAccounts", reads (λ n _ raw, get_program_accounts n raw));
   ("getTransaction", reads (λ n _ raw, rpc_get_transaction n raw));
   ("getSignatureStatuses", reads (λ n _ raw, get_signature_statuses n raw));
   ("getBlock", reads (λ n _ raw, rpc_get_block n raw));
   ("sendTransaction", λ n _ raw, send_transaction n raw);
   ("simulateTransaction", reads (λ n now raw, rpc_simulate n now raw));
   ("getWithdrawalProof", reads (λ n _ raw, get_withdrawal_proof n raw))]
  ++ (if faucet_enabled then [("requestAirdrop", λ n _ raw, rpc_request_airdrop n raw)] else []).

Fixpoint find_method (name : string) (m : list (string * Handler)) : option Handler :=
  match m with
  | [] => None
  | h :: m => if decide (h.1 = name) then Some h.2 else find_method name m
  end.

(** A request: what the server answers, and the node it leaves. *)
Definition call (faucet_enabled : bool) (n : Node) (now : Z) (name : string) (raw : option Value)
    : Node * outcome ErrorObject Value :=
  match find_method name (build_module faucet_enabled) with
  | Some h => h n now raw
  | None => (n, Err method_not_found)
  end.

(** ** Subscriptions *)

(** What the node broadcasts after a block. *)
Definition block_notification (block : Block) (metas : list ExecutedTransactionMeta)
    (writes : list (Pubkey * option StoredAccount)) : BlockNotification :=
  {| bn_slot := slot (header block); bn_parent_slot := sat_sub (slot (header block)) 1;
     bn_signatures :=
       omap (λ x, sig ← head (signatures x.1);
                  Some (sig, match status x.2 with inl e => Some (debug_error e) | inr _ => None end))
         (zip (transactions block) metas);
     bn_accounts := writes |}.

(** What the channel delivers; a slow reader is told it lagged. *)
Inductive Recv := Received (b : BlockNotification) | Lagged | Closed.

(** [accepts] is how many messages the client's sink takes before it is gone. *)
Fixpoint slot_loop (accepts : nat) (rx : list Recv) : list Value :=
  match rx with
  | [] | Closed :: _ => []
  | Lagged :: rx => slot_loop accepts rx
  | Received b :: rx =>
      match accepts with
      | O => []
      | S accepts =>
          JObj [("slot", JNum (bn_slot b)); ("parent", JNum (bn_parent_slot b)); ("root", JNum (bn_slot b))]
          :: slot_loop accepts rx
      end
  end.

Definition signature_payload (sl : Z) (err : Value) : Value :=
  JObj [("context", JObj [("slot", JNum sl)]); ("value", JObj [("err", err)])].

(** Waits for the block with the signature and fires once. *)
Fixpoint signature_loop (sig : Signature) (accepts : nat) (rx : list Recv) : list Value :=
  match rx with
  | [] | Closed :: _ => []
  | Lagged :: rx => signature_loop sig accepts rx
  | Received b :: rx =>
      match head (filter (λ x, x.1 = sig) (bn_signatures b)) with
      | Some (_, err) => take accepts [signature_payload (bn_slot b) (json_opt (JStr <$> err))]
      | None => signature_loop sig accepts rx
      end
  end.

(** The store is read at [n]; [rx] is what the channel delivers to the receiver
    that is created after that read. *)
Definition signature_subscribe (n : Node) (raw : option Value) (accepts : nat) (rx : list Recv)
    : outcome ErrorObject (list Value) :=
  let parsed := params_array (default JNull raw) in
  let? sig := ok_or ((head parsed ≫= as_str) ≫= b58_fixed 64) (invalid_params (bstr "invalid signature")) in
  match get_transaction (store n) sig with
  | Ok (Some (loc, _, meta)) =>
      Ok (take accepts [signature_payload (loc_slot loc) (status_to_json debug_error (status meta))])
  | _ => Ok (signature_loop sig accepts rx)
  end.

Fixpoint account_loop (key : Pubkey) (encoding : bytes) (accepts : nat) (rx : list Recv) : list Value :=
  match rx with
  | [] | Closed :: _ => []
  | Lagged :: rx => account_loop key encoding accepts rx
  | Received b :: rx =>
      match head (filter (λ x, x.1 = key) (bn_accounts b)) with
      | Some (_, acc) =>
          match accepts with
          | O => []
          | S accepts =>
              JObj [("context", JObj [("slot", JNum (bn_slot b))]); ("value", account_value acc encoding)]
              :: account_loop key encoding accepts rx
          end
      | None => account_loop key encoding accepts rx
      end
  end.

Definition account_subscribe (raw : option Value) (accepts : nat) (rx : list Recv)
    : outcome ErrorObject (list Value) :=
  let parsed := params_array (default JNull raw) in
  let? key := ok_or ((head parsed ≫= as_str) ≫= b58_fixed 32) (invalid_params (bstr "invalid pubkey")) in
  Ok (account_loop key (config_str parsed "encoding" (bstr "base64")) accepts rx).

End Server.
