(* ===== verification/ToolProps.v ===== *)
(** * The claim tool, from the node to the payout

    The tool asks a node's RPC server for the proof of a withdrawal, reads it
    from JSON, finds the batch that carries its root and sends the claim; the
    settlement program reads the instruction and pays. Every stage is the
    definition of its own component: [RpcServer], [Tools], [L1Rpc], [Entry],
    [Settlement]. *)

From S2P Require Import Prelude External Json Hash Paths Smt SmtFacts SmtProps Merkle Genesis Account Block Config Queue Store WrappedSpl Field PoolState PoolProcessor PoolService Mempool NodeBridge Executor NodeLedger Node NodeChain Settlement EndToEnd Recover L1Rpc L1RpcProps Entry Tools RpcServer.

(** ** The shape of a proof *)

Lemma prove_loop_shape `{B3 : Blake3} D e source path depth p :
  length (bitmap p) = 32%nat →
  length (bitmap (prove_loop D e source path depth p)) = 32%nat
  ∧ (length (siblings (prove_loop D e source path depth p)) ≤ length (siblings p) + depth)%nat.
Proof.
  revert p. induction depth as [|bit IH]; intros p Hp; cbn [prove_loop]; [split; [done|lia]|].
  case_decide.
  - destruct (IH p Hp). split; [done|lia].
  - destruct (IH {| bitmap := set_bit (bitmap p) (D - S bit); siblings := siblings p ++
      [default (e !!! S bit) (source (node_key (S bit) (flip_bit path bit)))] |}) as [H1 H2].
    + cbn [bitmap]. by rewrite length_set_bit.
    + split; [done|]. cbn [siblings] in H2. rewrite length_app in H2. cbn [length] in H2. lia.
Qed.

Lemma withdraw_prove_shape `{B3 : Blake3} tree pk :
  length (bitmap (withdraw_prove tree pk)) = 32%nat ∧ (length (siblings (withdraw_prove tree pk)) ≤ WITHDRAW_DEPTH)%nat.
Proof. exact (prove_loop_shape _ _ _ _ WITHDRAW_DEPTH empty_proof eq_refl). Qed.

Section Claim.
Context `{B3 : Blake3} `{ED : Ed25519} `{TX : SolanaTx} `{SA : SolanaAddresses} `{P : Poseidon}.
Context `{V : ProofVerifier} `{SVM : !Svm} `{IDS : SdkIds}.
Context `{!Bincode StoredAccount} `{!Bincode PoolState} `{!Bincode Block} `{!Bincode BlockHeader}.
Context `{!Bincode VersionedTransaction} `{!Bincode TxLocator} `{!Bincode ExecutedTransactionMeta}.
Context `{!Bincode (nat * list (Z * H256))} `{!Bincode PoolInstruction} `{!Bincode Clock}.
Context `{!Bincode Rent} `{!Bincode EpochSchedule} `{!Bincode (list RecentEntry)}.
Context `{T : TextCodecs} `{RTB : RentTable} `{S2 : Sha256} `{RT : L1Runtime}.
Context {W : Type} `{RPC : !JsonRpc W}.
Context (pool_error_text : PoolServiceError → bytes).
Context (signed_transfer : Keypair → Pubkey → Z → H256 → VersionedTransaction).
Context (store_error_text : StoreError → bytes) (node_error_text : NodeError → bytes).
Context (debug_error : TransactionError → bytes).
Context (g : GenesisConfig).
Context (empties : list H256) (empties_ok : empties = empty_hashes WITHDRAW_DEPTH).

(** ** The answer of the node *)

(** A JSON-RPC server's answer to the tool's request. *)
Definition answer_of (r : outcome ErrorObject Value) : outcome ToolError Value :=
  match r with
  | Ok v => Ok (JObj [("jsonrpc", JStr (bstr "2.0")); ("id", JNum 1); ("result", v)])
  | Err e => Ok (JObj [("jsonrpc", JStr (bstr "2.0")); ("id", JNum 1);
                       ("error", JObj [("code", JNum (err_code e)); ("message", JStr (err_message e))])])
  | Panic => Err NoResult
  end.

(** A node that serves the request it is sent. *)
Definition serves_l2 (faucet_enabled : bool) (n : Node) (now : Z) (request : Value) : outcome ToolError Value :=
  let name := default [] (as_str (at_field "method" request)) in
  answer_of (if decide (name = bstr "getWithdrawalProof")
             then (call signed_transfer store_error_text node_error_text debug_error faucet_enabled n now
                     "getWithdrawalProof" (get_field "params" request)).2
             else Err method_not_found).

Lemma push_siblings acc hs :
  Forall (λ h, length h = 32%nat) hs →
  ofold push_sibling acc ((λ h, JStr (b58_encode h)) <$> hs) = Ok (acc ++ hs).
Proof.
  intros Hhs. revert acc. induction Hhs as [|h hs Hh _ IH]; intros acc; cbn [fmap list_fmap ofold].
  { by rewrite app_nil_r. }
  unfold push_sibling at 1. cbn [as_str default from_option id]. unfold b58_32. rewrite b58_fixed_encode by done.
  cbn [ok_or obind]. by rewrite IH, <- app_assoc.
Qed.

(** The proof survives the trip through JSON. *)
Lemma answer_read root proof :
  length root = 32%nat → length (bitmap proof) = 32%nat → proof_wf proof →
  read_answer (JObj [("jsonrpc", JStr (bstr "2.0")); ("id", JNum 1);
    ("result", JObj [("stateRoot", JStr (b58_encode root)); ("bitmap", JStr (b58_encode (bitmap proof)));
                     ("siblings", JArr ((λ s, JStr (b58_encode s)) <$> siblings proof))])]) = Ok (root, proof).
Proof.
  intros Hr Hb Hs. unfold read_answer.
  change (get_field "error" (JObj _)) with (@None Value). cbv iota.
  change (get_field "result" (JObj _)) with (Some (JObj [("stateRoot", JStr (b58_encode root));
    ("bitmap", JStr (b58_encode (bitmap proof))); ("siblings", JArr ((λ s, JStr (b58_encode s)) <$> siblings proof))])).
  cbn [ok_or obind]. set (result := JObj _).
  change (text_field "stateRoot" result) with (b58_encode root).
  change (text_field "bitmap" result) with (b58_encode (bitmap proof)).
  change (as_array (at_field "siblings" result)) with (Some ((λ s, JStr (b58_encode s)) <$> siblings proof)).
  change (as_str (at_field "stateRoot" result)) with (Some (b58_encode root)).
  unfold b58_32. rewrite !b58_fixed_encode by done. cbn [ok_or obind]. rewrite push_siblings by done. cbn [obind app].
  rewrite decide_False by (pose proof (b58_length root); lia). by destruct proof.
Qed.

Lemma served_answer faucet_enabled n now o asset root proof :
  length (co_recipient o) = 32%nat → u64 (co_amount o) → u64 (co_nonce o) →
  (co_asset o = None ∧ asset = NATIVE_ASSET_ID ∨ co_asset o = Some asset ∧ length asset = 32%nat) →
  compute_withdrawal_proof n (co_recipient o) asset (co_amount o) (co_nonce o) = Ok (root, proof) →
  serves_l2 faucet_enabled n now (proof_request o)
  = Ok (JObj [("jsonrpc", JStr (bstr "2.0")); ("id", JNum 1);
      ("result", JObj [("stateRoot", JStr (b58_encode root)); ("bitmap", JStr (b58_encode (bitmap proof)));
                       ("siblings", JArr ((λ s, JStr (b58_encode s)) <$> siblings proof))])]).
Proof.
  intros Hr Ha Hn Hasset Hproof. unfold serves_l2.
  change (default [] (as_str (at_field "method" (proof_request o)))) with (bstr "getWithdrawalProof").
  rewrite decide_True by done. change (get_field "params" (proof_request o)) with (Some (claim_params o)).
  change (call _ _ _ _ _ n now "getWithdrawalProof" (Some (claim_params o))).2
    with (get_withdrawal_proof node_error_text n (Some (claim_params o))).
  assert (Hu : ∀ z, u64 z → num (Some (JNum z)) = Some z).
  { intros z Hz. unfold num. cbn [mbind option_bind as_u64]. by rewrite decide_True. }
  unfold get_withdrawal_proof, claim_params.
  destruct Hasset as [[-> ->]|[-> Hl]]; cbn [parse_params ok_or obind params_array app head];
    unfold parse_pubkey; cbn [mbind option_bind as_str ok_or obind]; rewrite b58_fixed_encode by done;
    cbn [ok_or obind lookup list_lookup is_null]; rewrite !Hu by done; cbn [ok_or obind as_str];
    rewrite ?b58_fixed_encode by done; cbn [ok_or obind]; rewrite Hproof; done.
Qed.

(** ** The L1 it talks to *)

Context (program da_program : Pubkey) (mint_program : Pubkey → Pubkey) (bump0 vault_bump0 : Z).
Context (Hdistinct : NoDup (global <$> handler_names)).
Context (Hbudget : compute_budget_program ≠ program) (Hbudget_da : compute_budget_program ≠ da_program).
Context (load : bytes → outcome ToolError L1Section) (load_keypair : bytes → outcome ToolError Pubkey).
Context (authority : Pubkey).
Let cl : RpcL1Client := new_client authority program da_program.

(** The fields of the program's accounts have their types. *)
Definition state_typed (s : L1State) : Prop :=
  (∀ c, l1_config s = Some c → config_wf c) ∧ map_Forall (λ _ b, batch_wf b) (batches s).

(** An RPC node of the L1: it serves the program's accounts, and runs and
    confirms a transaction that succeeds on them at the time [now]. *)
Record l1_node (now : Z) (w : W) (s : L1State) : Prop := {
  ln_serves : serves cl w s;
  ln_runs ixs l : run_transaction empties program da_program mint_program bump0 vault_bump0 now (s, []) ixs = Ok l →
    ∃ w' sig, L1Rpc.send_transaction w ixs = (w', Ok sig) ∧ get_signature_status w' sig 0 = Ok Confirmed
              ∧ (state_typed l.1 → serves cl w' l.1);
}.

(** The state after paying a withdrawal, when the vault can. *)
Definition paid_state (s : L1State) (now : Z) (wd : WithdrawTx) (asset : option Pubkey) : option L1State :=
  match asset with
  | None =>
      if decide (w_asset_id wd = NATIVE_ASSET_ID ∧ w_amount wd ≤ vault_lamports s
                 ∧ may_leave (vault_lamports s - w_amount wd) = true)
      then Some (record_claim s (w_recipient wd) (w_amount wd) (w_nonce wd) now
                   (vault_lamports s - w_amount wd) (vault_tokens s))
      else None
  | Some mint =>
      if decide (w_asset_id wd = mint ∧ w_amount wd ≤ default 0 (vault_tokens s !! mint)
                 ∧ can_release mint (w_recipient wd) (w_amount wd) = true)
      then Some (record_claim s (w_recipient wd) (w_amount wd) (w_nonce wd) now (vault_lamports s)
                   (<[mint := default 0 (vault_tokens s !! mint) - w_amount wd]> (vault_tokens s)))
      else None
  end.

(** Polls that find the root in no batch are passed over. *)
Lemma wait_skips polls w root no :
  Forall (λ w0, find_batch_for_withdrawals_root cl w0 root = Ok None) polls →
  find_batch_for_withdrawals_root cl w root = Ok (Some no) →
  ∀ rest, wait_for_batch cl (polls ++ w :: rest) root = Some (Ok (no, w)).
Proof.
  intros Hp Hw rest. induction Hp as [|w0 polls H0 _ IH]; cbn [app wait_for_batch]; [by rewrite Hw|].
  by rewrite H0, IH.
Qed.

Lemma confirmed_first (w : W) sig : get_signature_status w sig 0 = Ok Confirmed → confirm w sig = Ok ().
Proof. intros Hc. unfold confirm. generalize 44%nat. intros k. cbn [confirm_loop]. by rewrite Hc. Qed.

(** An instruction the program accepts is sent and confirmed. *)
Lemma send_runs now w s ix s' :
  l1_node now w s → i_program_id ix = program →
  zul_settlement empties program mint_program bump0 vault_bump0 s now ix = Ok s' →
  state_typed s' → ∃ w' sig, send w ix = (w', Ok sig) ∧ serves cl w' s'.
Proof.
  intros Hn Hix Hrun Hty. destruct (ln_runs _ _ _ Hn [compute_unit_limit 1400000; ix] (s', [])) as (w' & sig & Hs & Hc & Hv).
  - cbn [run_transaction ofold]. unfold run_instruction at 1. cbn [compute_unit_limit i_program_id].
    rewrite !decide_False by done. rewrite decide_True by done. cbn [obind]. unfold run_instruction.
    rewrite decide_True by done. cbn [fst snd]. rewrite Hrun. done.
  - exists w', sig. split; [|exact (Hv Hty)]. unfold send, send_and_confirm. rewrite Hs, confirmed_first by done.
    done.
Qed.

(** The claim's instruction, on the state it is sent to. *)
Lemma claim_runs s now args o no wd proof s' :
  co_client o = cl → co_recipient o = w_recipient wd → co_amount o = w_amount wd → co_nonce o = w_nonce wd →
  claim_typed no (co_amount o) (co_nonce o) (bitmap proof) (siblings proof) → w_recipient wd ≠ vault_key →
  check_claim empties s (w_recipient wd) (w_asset_id wd) no (w_amount wd) (w_nonce wd) proof = Ok () →
  paid_state s now wd (co_asset o) = Some s' →
  (∀ mint, co_asset o = Some mint → token_program_of args = Ok (mint_program mint)) →
  ∃ ix, claim_instruction args o no proof = Ok ix ∧ i_program_id ix = program
    ∧ zul_settlement empties program mint_program bump0 vault_bump0 s now ix = Ok s'.
Proof.
  intros Hcl Hr Ha Hn Hty Hv Hcheck Hpaid Htok.
  unfold claim_instruction, paid_state in *. rewrite Hcl. destruct (co_asset o) as [mint|].
  - destruct (decide _) as [(Hm & Hle & Hrel)|] in Hpaid; [|done]. injection Hpaid as <-.
    rewrite (Htok mint eq_refl). cbn [obind]. eexists. split; [done|]. split; [done|].
    etrans; [by apply claim_spl_executes|]. rewrite Hr, Ha, Hn. destruct proof as [bm sibs]. cbn [bitmap siblings] in *.
    rewrite Hm in Hcheck. rewrite claim_withdrawal_spl_pays by done. done.
  - destruct (decide _) as [(Hm & Hle & Hrel)|] in Hpaid; [|done]. injection Hpaid as <-.
    eexists. split; [done|]. split; [done|].
    etrans; [by apply claim_executes|]. rewrite Hr, Ha, Hn. destruct proof as [bm sibs]. cbn [bitmap siblings] in *.
    rewrite Hm in Hcheck. rewrite claim_withdrawal_pays by done. done.
Qed.

(** What a reachable node serves has the sizes of its types. *)
Lemma served_shape n bs recipient asset amount nonce root proof :
  node_reachable pool_error_text signed_transfer g n → stores_chain (store n) bs →
  compute_withdrawal_proof n recipient asset amount nonce = Ok (root, proof) →
  length root = 32%nat ∧ length (bitmap proof) = 32%nat ∧ u32 (Z.of_nat (length (siblings proof))).
Proof.
  intros Hn Hbs. destruct (reachable_withdrawals _ _ _ n bs Hn Hbs) as (Htree & Hpub & _).
  unfold compute_withdrawal_proof. destruct (withdraw_verify _ _ _ _); [|discriminate].
  intros H. pose proof (f_equal (λ r, match r with Ok x => x.1 | _ => root end) H) as H1.
  apply (f_equal (λ r, match r with Ok x => x.2 | _ => proof end)) in H. cbn [fst snd] in H, H1.
  rewrite <- H, <- H1. destruct (withdraw_prove_shape (withdrawals n) (withdrawal_pubkey recipient nonce)) as [Hb Hs].
  split_and!; [|exact Hb|].
  - rewrite Htree. apply withdraw_root_length.
  - unfold u32, u32_max, WITHDRAW_DEPTH in *. lia.
Qed.

(** C4: from a burned withdrawal to its payout, with the claim tool: let a reachable
    node's chain record a successful withdrawal (of a positive amount, and no
    later one took its 32-bit position), let the root that node publishes be in
    a posted batch of a reachable settlement state on which the withdrawal is
    not claimed and the vault can pay, and let the tool be run with the
    withdrawal's recipient, amount, nonce and asset. Once its polls of the L1,
    past those that find no batch, reach that state, the tool ends with the
    signature of a confirmed transaction, and the L1 has recorded the claim and
    paid exactly the withdrawal. *)
Theorem claim_tool_pays faucet_enabled n bs ws1 wd ws2 s ps no now t args o early w rest s' :
  node_reachable pool_error_text signed_transfer g n → stores_chain (store n) bs →
  successful_withdrawals (store n) bs = ws1 ++ wd :: ws2 →
  (∀ w', w' ∈ ws2 → prefix_bits WITHDRAW_DEPTH (key_path (leaf_of w').1)
                    ≠ prefix_bits WITHDRAW_DEPTH (key_path (leaf_of wd).1)) →
  l1_reach empties s ps → posted_from s no n → 0 < w_amount wd →
  (w_recipient wd, w_nonce wd) ∉ po_key <$> ps → w_recipient wd ≠ vault_key →
  claim_options load load_keypair args = Ok o → co_client o = cl →
  co_recipient o = w_recipient wd → co_amount o = w_amount wd → co_nonce o = w_nonce wd →
  (∀ mint, co_asset o = Some mint → token_program_of args = Ok (mint_program mint)) →
  paid_state s now wd (co_asset o) = Some s' →
  l1_node now w s →
  Forall (λ w0, find_batch_for_withdrawals_root cl w0 (withdrawals_root (store n)) = Ok None) early →
  ∃ w' sig,
    claim_main load load_keypair args (serves_l2 faucet_enabled n t) (early ++ w :: rest) = Some (Ok (w', sig))
    ∧ serves cl w' s'.
Proof.
  intros Hn Hbs Hws Hpre Hs Hpost Hpos Hnew Hvault Ho Hcl Hr Ha Hnn Htok Hpaid Hl1 Hearly.
  pose proof Hpost as (b & Hb & _)%fmap_Some.
  destruct (find_newest cl w s (ln_serves _ _ _ Hl1) empties ps (withdrawals_root (store n)) Hs) as ([i|] & Hfind & Hi);
    [|by destruct (Hi no)]. destruct Hi as [Hi _].
  assert (Hi64 : u64 i).
  { pose proof (count_bound cl w s (ln_serves _ _ _ Hl1)). pose proof Hs as Hs'%l1_reach_inv.
    apply fmap_Some in Hi as (bi & Hbi & _). apply mk_is_Some, (li_batches _ _ _ Hs') in Hbi.
    fold (count_on s) in Hbi. unfold u64. lia. }
  destruct (reachable_withdrawals _ _ _ n bs Hn Hbs) as (_ & _ & Hwf). rewrite Hws in Hwf.
  apply list.Forall_app in Hwf as [_ Hwf]. apply list.Forall_cons in Hwf as [(Hr32 & Ha32 & Ham & Hno64) _].
  destruct (served_proof_accepted pool_error_text signed_transfer g empties empties_ok n s ps i ws1 wd ws2 bs
              Hn Hbs Hs Hi Hpos Hnew Hws Hpre) as (proof & Hproof & Hcheck).
  destruct (served_shape n bs _ _ _ _ _ _ Hn Hbs Hproof) as (Hroot & Hbm & Hsibs).
  pose proof (served_proof_wf _ _ _ n bs _ _ _ _ _ _ Hn Hbs Hproof) as Hpwf.
  assert (Hty : claim_typed i (co_amount o) (co_nonce o) (bitmap proof) (siblings proof)).
  { rewrite Ha, Hnn. repeat (split; [assumption|]). assumption. }
  destruct (claim_runs s now args o i wd proof s' Hcl Hr Ha Hnn Hty Hvault Hcheck Hpaid Htok)
    as (ix & Hix & Hprog & Hrun). clear Hcheck.
  assert (Hst : state_typed s').
  { destruct (ln_serves _ _ _ Hl1) as [_ _ Hc Hm]. clear -Hpaid Hc Hm. unfold paid_state in Hpaid.
    destruct (co_asset o); (destruct (decide _) in Hpaid; [|discriminate]); injection Hpaid as <-; by split. }
  destruct (send_runs now w s ix s' Hl1 Hprog Hrun Hst) as (w' & sig & Hsend & Hserves). clear Hrun.
  exists w', sig. split; [|exact Hserves]. unfold claim_main. rewrite Ho. cbn [obind].
  assert (Hasset : co_asset o = None ∧ w_asset_id wd = NATIVE_ASSET_ID
                   ∨ co_asset o = Some (w_asset_id wd) ∧ length (w_asset_id wd) = 32%nat).
  { clear -Hpaid Ha32. unfold paid_state in Hpaid. destruct (co_asset o).
    - destruct (decide _) as [(Hm & _)|] in Hpaid; [|discriminate]. right. split; [by rewrite Hm|exact Ha32].
    - destruct (decide _) as [(Hm & _)|] in Hpaid; [|discriminate]. by left. }
  rewrite <- Hr in Hr32, Hproof. rewrite <- Ha in Ham, Hproof. rewrite <- Hnn in Hno64, Hproof.
  rewrite (served_answer faucet_enabled n t o _ _ proof Hr32 Ham Hno64 Hasset Hproof). cbn [obind].
  rewrite (answer_read _ _ Hroot Hbm Hpwf). cbn [obind].
  rewrite Hcl, (wait_skips early w _ i Hearly Hfind rest), Hix. cbn [obind]. rewrite Hsend. reflexivity.
Qed.

End Claim.

(** ** Witness: the withdrawal of [NodeChain.Example], claimed with the tool *)

Module Example.
Import NodeChain.Example.
#[local] Existing Instances Toy.blake3_toy Toy.ed25519_toy Toy.solana_toy poseidon_toy.
#[local] Existing Instances ExecToy.ids_toy ExecToy.svm_toy WrappedSpl.Example.addresses_toy.
#[local] Existing Instances StoreToy.account_codec StoreToy.block_codec StoreToy.locator_codec.
#[local] Existing Instances StoreToy.meta_codec StoreToy.queue_codec accept_all.
#[local] Existing Instances header_codec tx_codec state_codec instruction_codec clock_codec rent_codec.
#[local] Existing Instances schedule_codec entries_codec Settlement.Example.runtime_toy.
#[local] Existing Instances L1RpcProps.Example.sha_toy L1RpcProps.Example.text_toy.
#[local] Instance rent_table : RentTable := {| minimum_balance len := (128 + len) * 6960 |}.

Definition empties : list H256 := empty_hashes WITHDRAW_DEPTH.
Definition text {A} (_ : A) : bytes := [].
Definition token (_ : Pubkey) : Pubkey := pk 60.
Definition World : Type := L1State * list LogTx.

Abbreviation run := (run_transaction (RPC := L1RpcProps.Example.rpc_toy) empties (pk 50) (pk 51) token 255 254 9).

(** The node of [L1RpcProps.Example], which also runs what it is sent. *)
#[local] Instance rpc_run : JsonRpc World := {|
  system_program := pk 100; compute_budget_program := pk 101; address_text k := k;
  L1Rpc.get_balance := @L1Rpc.get_balance World L1RpcProps.Example.rpc_toy;
  L1Rpc.get_account_info := @L1Rpc.get_account_info World L1RpcProps.Example.rpc_toy;
  get_signatures := @get_signatures World L1RpcProps.Example.rpc_toy;
  get_transaction_view := @get_transaction_view World L1RpcProps.Example.rpc_toy;
  L1Rpc.send_transaction w ixs :=
    match run (w.1, []) ixs with
    | Ok l => ((l.1, w.2), Ok (bstr "signature"))
    | _ => (w, Err (TransactionFailed "failed"))
    end;
  get_signature_status _ _ _ := Ok Confirmed;
|}.

Definition l1_section : L1Section :=
  {| l1_enabled := true; rpc_url := bstr "url"; settlement_program_id := pk 50; da_log_program_id := pk 51;
     bridge_authority_key_path := []; batch_interval_slots := 120; gas_mint := [] |}.
Definition loaded (_ : bytes) : outcome ToolError L1Section := Ok l1_section.
Definition key (_ : bytes) : outcome ToolError Pubkey := Ok (pk 8).

Definition argv : list bytes :=
  [bstr "--recipient"; pk 5; bstr "--amount"; bstr "60"; bstr "--nonce"; bstr "3"].

Lemma options_read :
  claim_options loaded key argv
  = Ok {| co_recipient := pk 5; co_amount := 60; co_nonce := 3; co_client := new_client (pk 8) (pk 50) (pk 51);
          co_asset := None |}.
Proof. vm_cast_no_check (@eq_refl (outcome ToolError ClaimOptions) (claim_options loaded key argv)). Qed.

Lemma run_serves s h : state_typed s → serves (RPC := rpc_run) (new_client (pk 8) (pk 50) (pk 51)) (s, h) s.
Proof. intros [Hc Hb]. destruct (L1RpcProps.Example.toy_serves s h Hc Hb) as [H1 H2 _ _]. split; assumption. Qed.

Lemma posted_node root :
  length root = 32%nat →
  l1_node (RPC := rpc_run) empties (pk 50) (pk 51) token 255 254 (pk 8) 9
    (Settlement.Example.after_history root, []) (Settlement.Example.after_history root).
Proof.
  intros Hroot. split.
  - apply run_serves. split.
    + intros c [= <-]. split; [reflexivity|unfold u64, u64_max; cbn; lia].
    + apply map_Forall_singleton. split_and!; try reflexivity; try exact Hroot; unfold u64, u32, u64_max, u32_max; cbn; lia.
  - intros ixs l Hl. exists (l.1, []), (bstr "signature").
    split; [|split; [reflexivity|apply run_serves]]. cbn [L1Rpc.send_transaction rpc_run fst snd].
    change (run (Settlement.Example.after_history root, []) ixs) with
      (run_transaction (RPC := rpc_run) empties (pk 50) (pk 51) token 255 254 9 (Settlement.Example.after_history root, []) ixs).
    by rewrite Hl.
Qed.

Lemma claim_tool_pays_witness :
  ∃ n w' sig, claim_main (RPC := rpc_run) loaded key argv (serves_l2 transfer_toy text text text false n 0)
      [(Settlement.Example.after_history (withdrawals_root (store n)), [])] = Some (Ok (w', sig))
    ∧ serves (RPC := rpc_run) (new_client (pk 8) (pk 50) (pk 51)) w'
        (record_claim (Settlement.Example.after_history (withdrawals_root (store n))) (pk 5) 60 3 9 640 {[ pk 6 := 50 ]}).
Proof.
  destruct burned as (_ & n & bs & ws & _ & Hr & Hbs & Hw & _). exists n.
  set (s := Settlement.Example.after_history (withdrawals_root (store n))).
  assert (Hroot : length (withdrawals_root (store n)) = 32%nat).
  { destruct (reachable_withdrawals _ _ _ n bs Hr Hbs) as (Htree & Hpub & _). rewrite Hpub, Htree.
    apply withdraw_root_length. }
  assert (Hs : l1_reach empties s []) by exact (Settlement.Example.history_reachable _ _ (Settlement.Example.history_ok _)).
  assert (Hpost : posted_from s 0 n).
  { unfold posted_from, s, Settlement.Example.after_history. cbn [batches]. by rewrite lookup_singleton_eq. }
  assert (Hvk : w_recipient wd ≠ vault_key) by (vm_compute; discriminate).
  assert (Hnew : (w_recipient wd, w_nonce wd) ∉ po_key <$> []) by apply not_elem_of_nil.
  assert (Hb1 : compute_budget_program (JsonRpc := rpc_run) ≠ pk 50) by (vm_compute; discriminate).
  assert (Hb2 : compute_budget_program (JsonRpc := rpc_run) ≠ pk 51) by (vm_compute; discriminate).
  refine (claim_tool_pays (RPC := rpc_run) error_text transfer_toy text text text g empties eq_refl (pk 50) (pk 51) token
            255 254 Entry.Example.distinct Hb1 Hb2 loaded key (pk 8) false n bs ws wd [] s [] 0 9 0 argv _ [] (s, []) []
            (record_claim s (pk 5) 60 3 9 640 {[ pk 6 := 50 ]})
            Hr Hbs Hw EndToEnd.Example.no_later Hs Hpost eq_refl Hnew Hvk options_read eq_refl eq_refl eq_refl eq_refl
            _ _ (posted_node _ Hroot) _).
  - intros mint H. discriminate H.
  - reflexivity.
  - constructor.
Defined.
End Example.
