(* ===== verification/RpcProps.v ===== *)
(** * Properties of the JSON-RPC server

    Requests keep the chain's invariants and only the two submitting methods
    change anything; a transaction sent as text is the one submitted; paging
    through an address's history lists it completely; and what a signature
    subscription delivers. *)

From Stdlib Require Import Sorting.Sorted.
From stdpp Require Import sorting.
From S2P Require Import Prelude External Json Hash Paths Smt SmtProps Merkle Genesis Account Block Queue Sorting Store StoreProps WrappedSpl Field PoolState PoolProcessor PoolService Mempool NodeBridge Executor NodeLedger Node NodeChain History RpcServer.

Section Requests.
Context `{B3 : Blake3} `{ED : Ed25519} `{TX : SolanaTx} `{SA : SolanaAddresses} `{P : Poseidon}.
Context `{V : ProofVerifier} `{SVM : !Svm} `{IDS : SdkIds}.
Context `{!Bincode StoredAccount} `{!Bincode PoolState} `{!Bincode Block} `{!Bincode BlockHeader}.
Context `{!Bincode VersionedTransaction} `{!Bincode TxLocator} `{!Bincode ExecutedTransactionMeta}.
Context `{!Bincode (nat * list (Z * H256))} `{!Bincode PoolInstruction} `{!Bincode Clock}.
Context `{!Bincode Rent} `{!Bincode EpochSchedule} `{!Bincode (list RecentEntry)}.
Context `{T : TextCodecs} `{RT : RentTable}.
Context (pool_error_text : PoolServiceError → bytes).
Context (signed_transfer : Keypair → Pubkey → Z → H256 → VersionedTransaction).
Context (store_error_text : StoreError → bytes) (node_error_text : NodeError → bytes).
Context (debug_error : TransactionError → bytes).
Context (g : GenesisConfig).

Abbreviation serve := (call signed_transfer store_error_text node_error_text debug_error).
Abbreviation reachable := (node_reachable pool_error_text signed_transfer g).

(** ** Requests and the chain *)

(** What a request may do to the node: nothing, or queue transactions. *)
Definition quiet (n n' : Node) : Prop :=
  store n' = store n ∧ tip n' = tip n ∧ withdrawals n' = withdrawals n
  ∧ pending_deposits n' = pending_deposits n
  ∧ (∀ tx, tx ∈ queue (mempool n') → tx ∈ queue (mempool n) ∨ ∃ sig, admit_tx n tx = Ok sig).

Lemma quiet_refl n : quiet n n.
Proof. split_and!; [done..|]. intros tx Htx. by left. Qed.

Lemma submit_quiet n tx n' r : submit_transaction n tx = (n', r) → quiet n n'.
Proof.
  unfold submit_transaction. destruct (admit_tx n tx) as [sig|e|] eqn:Ha; [|intros [= <- _]; apply quiet_refl..].
  destruct (push (mempool n) tx) as [[mp s]|[]|] eqn:Hp; try (intros [= <- _]; apply quiet_refl).
  intros [= <- _]. split_and!; [done..|]. intros tx' Htx. cbn [with_queues Node.mempool] in Htx.
  unfold push in Hp. apply obind_Ok in Hp as (s' & _ & Hp). apply obind_Ok in Hp as (payer & _ & Hp).
  destruct (decide _); [done|]. destruct (decide _); [done|]. destruct (decide _); [done|].
  injection Hp as <- <-. cbn [queue] in Htx. apply elem_of_app in Htx as [|Htx]; [by left|].
  apply list_elem_of_singleton in Htx as ->. right. by exists sig.
Qed.

Lemma airdrop_quiet n key amount n' r :
  request_airdrop signed_transfer n key amount = (n', r) → quiet n n'.
Proof.
  intros [->|[tx Hs]]%airdrop_submits; [apply quiet_refl|]. by eapply submit_quiet.
Qed.

(** The handlers that submit. *)
Definition submits (h : Handler) : Prop :=
  ∀ n now raw n' r, h n now raw = (n', r) →
    n' = n ∨ (∃ tx r', submit_transaction n tx = (n', r'))
    ∨ (∃ key amount r', request_airdrop signed_transfer n key amount = (n', r')).

Lemma find_method_all (Pm : string → Handler → Prop) name m h :
  Forall (λ e, Pm e.1 e.2) m → find_method name m = Some h → Pm name h.
Proof.
  induction 1 as [|[k e] m Hk _ IH]; [done|]. cbn [find_method fst snd].
  case_decide as He; [|done]. intros [= <-]. by rewrite <- He.
Qed.

Lemma module_handlers faucet_enabled :
  Forall (λ e, (∃ f, e.2 = reads f) ∨ (e.1 = "sendTransaction" ∧ submits e.2)
               ∨ (e.1 = "requestAirdrop" ∧ faucet_enabled = true ∧ submits e.2))
    (build_module signed_transfer store_error_text node_error_text debug_error faucet_enabled).
Proof.
  unfold build_module. apply list.Forall_app. split.
  - repeat (apply list.Forall_cons; split); try (left; by eexists).
    right. left. split; [done|]. intros n now raw n' r. cbn [snd]. unfold send_transaction.
    destruct (obind _ _) as [tx|e|]; [|intros [= <- _]; by left..].
    destruct (submit_transaction n tx) as [n1 r1] eqn:Hs. intros [= <- _]. right. left. eauto.
  - destruct faucet_enabled; [|constructor]. apply Forall_singleton. right. right. split; [done|]. split; [done|].
    intros n now raw n' r. cbn [snd]. unfold rpc_request_airdrop.
    destruct (obind _ _) as [[key amount]|e|]; [|intros [= <- _]; by left..].
    destruct (request_airdrop _ _ _ _) as [n1 r1] eqn:Hs. intros [= <- _]. right. right. eauto.
Qed.

Lemma request_submits faucet_enabled n now name raw :
  let n' := (serve faucet_enabled n now name raw).1 in
  n' = n ∨ (∃ tx r, submit_transaction n tx = (n', r))
  ∨ (∃ key amount r, request_airdrop signed_transfer n key amount = (n', r)).
Proof.
  cbv zeta. unfold call. destruct (find_method name _) as [h|] eqn:Hf; [|by left].
  apply (find_method_all (λ k e, (∃ f, e = reads f) ∨ (k = "sendTransaction" ∧ submits e)
    ∨ (k = "requestAirdrop" ∧ faucet_enabled = true ∧ submits e))) in Hf; [|apply module_handlers].
  assert (Hs : (∃ f, h = reads f) ∨ submits h) by naive_solver. clear Hf. destruct Hs as [[f ->]|Hs]; [by left|].
  destruct (h n now raw) as [n' r] eqn:Hh. exact (Hs _ _ _ _ _ Hh).
Qed.

(** A request is no step of the node, or one. *)
Lemma request_step faucet_enabled n now name raw :
  let n' := (serve faucet_enabled n now name raw).1 in
  n' = n ∨ node_step pool_error_text signed_transfer g n n'.
Proof.
  cbv zeta. destruct (request_submits faucet_enabled n now name raw) as [->|[(tx & r & H)|(k & a & r & H)]];
    [by left|right..]; [by eapply step_submit|by eapply step_airdrop].
Qed.

Lemma request_quiet faucet_enabled n now name raw : quiet n (serve faucet_enabled n now name raw).1.
Proof.
  destruct (request_submits faucet_enabled n now name raw) as [->|[(tx & r & H)|(k & a & r & H)]];
    [apply quiet_refl|by eapply submit_quiet|by eapply airdrop_quiet].
Qed.

(** Without the faucet its method is not registered. *)
Lemma no_airdrop n now raw : serve false n now "requestAirdrop" raw = (n, Err method_not_found).
Proof. reflexivity. Qed.

(** Whatever is requested, the server keeps the chain: a request changes at
    most the mempool, adding only transactions that passed admission, so the
    node it leaves is one the chain's theorems cover; every method but
    [sendTransaction] and [requestAirdrop] changes nothing, and without the
    faucet the latter does not exist. *)
Theorem requests_keep_chain faucet_enabled n now name raw n' r :
  serve faucet_enabled n now name raw = (n', r) →
  quiet n n' ∧ (reachable n → reachable n')
  ∧ (name ≠ "sendTransaction" → name ≠ "requestAirdrop" ∨ faucet_enabled = false → n' = n)
  ∧ (name = "requestAirdrop" → faucet_enabled = false → r = Err method_not_found).
Proof.
  intros Hc. pose proof (request_quiet faucet_enabled n now name raw) as Hq.
  pose proof (request_step faucet_enabled n now name raw) as Hs. rewrite Hc in Hq, Hs. cbn [fst] in Hq, Hs.
  split_and!; [done| | |].
  - intros Hr. destruct Hs as [->|Hs]; [done|by eapply reach_step].
  - intros Hsend Hair. unfold call in Hc. destruct (find_method name _) as [h|] eqn:Hf; [|by injection Hc].
    apply (find_method_all (λ k e, (∃ f, e = reads f) ∨ (k = "sendTransaction" ∧ submits e)
      ∨ (k = "requestAirdrop" ∧ faucet_enabled = true ∧ submits e))) in Hf; [|apply module_handlers].
    destruct Hf as [[f ->]|[[? _]|(-> & -> & _)]]; [by injection Hc|done|by destruct Hair].
  - intros -> ->. rewrite no_airdrop in Hc. by injection Hc.
Qed.

(** ** Transactions as text *)

(** What the server answers to a submission. *)
Definition submitted_as (n : Node) (tx : VersionedTransaction) : Node * outcome ErrorObject Value :=
  let '(n', r) := submit_transaction n tx in
  (n', let? sig := backend_err node_error_text r in Ok (JStr (b58_encode sig))).

(** A transaction in base64, with the encoding named. *)
Definition base64_request (tx : VersionedTransaction) : Value :=
  JArr [JStr (b64_encode (serialize tx)); JObj [("encoding", JStr (bstr "base64"))]].

Lemma decode_base64 tx text def :
  b64_decode text = Some (serialize tx) → def ≠ bstr "base58" →
  decode_transaction (Some (JStr text)) def = Ok tx.
Proof.
  intros Ht Hd. unfold decode_transaction. cbn [mbind option_bind as_str ok_or obind].
  rewrite decide_False by done. cbn [omap list_omap]. rewrite Ht. cbn [mbind option_bind].
  by rewrite deserialize_serialize.
Qed.

Lemma decode_base58 tx :
  decode_transaction (Some (JStr (b58_encode (serialize tx)))) (bstr "base58") = Ok tx.
Proof.
  unfold decode_transaction. cbn [mbind option_bind as_str ok_or obind].
  rewrite decide_True by done. cbn [omap list_omap]. rewrite b58_roundtrip. cbn [mbind option_bind].
  by rewrite deserialize_serialize.
Qed.

(** A transaction survives the trip through text: sent in base58, or in base64
    with the encoding named, the server submits exactly that transaction; and a
    committed transaction read with [getTransaction] is text that decodes to it
    again. *)
Theorem transaction_text_roundtrip faucet_enabled n now tx :
  serve faucet_enabled n now "sendTransaction" (Some (JArr [JStr (b58_encode (serialize tx))])) = submitted_as n tx
  ∧ serve faucet_enabled n now "sendTransaction" (Some (base64_request tx)) = submitted_as n tx
  ∧ (∀ sig loc meta, length sig = 64%nat → get_transaction (store n) sig = Ok (Some (loc, tx, meta)) →
     ∃ v text, serve faucet_enabled n now "getTransaction" (Some (JArr [JStr (b58_encode sig)])) = (n, Ok v)
       ∧ get_field "transaction" v = Some (JArr [JStr text; JStr (bstr "base64")])
       ∧ decode_transaction (Some (JStr text)) (bstr "base64") = Ok tx).
Proof.
  assert (Hne : bstr "base64" ≠ bstr "base58") by (vm_compute; discriminate). split_and!.
  - change (serve faucet_enabled n now "sendTransaction") with (send_transaction node_error_text n).
    unfold send_transaction. cbn [parse_params ok_or obind params_array head config_str].
    change (config_str _ _ _) with (bstr "base58"). by rewrite decode_base58.
  - change (serve faucet_enabled n now "sendTransaction") with (send_transaction node_error_text n).
    unfold send_transaction, base64_request. cbn [parse_params ok_or obind params_array head].
    change (config_str _ _ _) with (bstr "base64"). by rewrite (decode_base64 tx) by (done || apply b64_roundtrip).
  - intros sig loc meta Hs Hg.
    change (serve faucet_enabled n now "getTransaction" (Some (JArr [JStr (b58_encode sig)])))
      with (n, rpc_get_transaction store_error_text debug_error n (Some (JArr [JStr (b58_encode sig)]))).
    unfold rpc_get_transaction. cbn [parse_params ok_or obind params_array head mbind option_bind as_str].
    rewrite b58_fixed_encode by done. cbn [ok_or obind]. rewrite Hg. cbn [store_err map_err obind].
    eexists _, _. split; [reflexivity|]. split; [reflexivity|]. apply decode_base64; [apply b64_roundtrip|done].
Qed.

(** ** Paging through a history *)





(** Every entry of the address's index is found under its own position. *)
Definition resolves (st : Store) (address : Pubkey) : Prop :=
  ∀ s i sig, u64 s → u32 i → t_addr_sigs st !! addr_sig_key address s i = Some sig →
    ∃ tx meta, get_transaction st sig = Ok (Some ({| loc_slot := s; loc_index := i |}, tx, meta)).




Section Paging.
Context (n : Node) (address : Pubkey) (limit : Z).
Context (Hwf : index_wf (store n)) (Ha : length address = 32%nat) (Hres : resolves (store n) address).
Context (Hlim : 1 ≤ limit ≤ 1000).






End Paging.


(** ** Signature subscriptions *)

Definition mentions (sig : Signature) (b : BlockNotification) : Prop := sig ∈ (bn_signatures b).*1.

#[local] Instance mentions_dec sig b : Decision (mentions sig b).
Proof. unfold mentions. apply _. Defined.

Lemma mentions_head sig b :
  match head (filter (λ x, x.1 = sig) (bn_signatures b)) with
  | Some _ => mentions sig b
  | None => ¬ mentions sig b
  end.
Proof.
  unfold mentions. induction (bn_signatures b) as [|[s e] l IH]; [apply not_elem_of_nil|].
  rewrite filter_cons. cbn [fst fmap list_fmap]. destruct (decide (s = sig)) as [->|Hne]; [left|].
  destruct (head _); [by right|]. intros [|Hin]%elem_of_cons; done.
Qed.

Lemma signature_loop_spec sig k rx :
  if decide (Exists (mentions sig) rx) then ∃ v, signature_loop sig (S k) (Received <$> rx) = [v]
  else signature_loop sig (S k) (Received <$> rx) = [].
Proof.
  induction rx as [|b rx IH]; cbn [fmap list_fmap signature_loop].
  { rewrite decide_False; [done|]. by intros ?%Exists_nil. }
  pose proof (mentions_head sig b) as Hb. destruct (head _) as [[s err]|].
  - rewrite decide_True by (by left). eexists. cbn [take]. by rewrite take_nil.
  - destruct (decide (Exists (mentions sig) (b :: rx))) as [He|He].
    + apply Exists_cons in He as [|He]; [done|]. by rewrite decide_True in IH.
    + rewrite decide_False in IH; [done|]. intros Hx. apply He. by right.
Qed.

(** What a signature subscription delivers: the client is told once when the
    transaction was committed before the store was read, or is in a block
    broadcast after the receiver was created, and never otherwise. The receiver
    is created after the read: a transaction committed in between is never
    announced. *)
Theorem signature_notification n bs sig k rx :
  reachable n → stores_chain (store n) bs → length sig = 64%nat →
  let answer := signature_subscribe debug_error n (Some (JArr [JStr (b58_encode sig)])) (S k) (Received <$> rx) in
  if decide (sig ∈ chain_sigs bs ∨ Exists (mentions sig) rx) then ∃ v, answer = Ok [v] else answer = Ok [].
Proof.
  intros Hr Hbs Hl answer. apply reachable_inv in Hr as (bs0 & Hi).
  pose proof (co_store _ _ _ (ni_chain _ _ _ Hi)) as Hsc.
  rewrite <- (stores_chain_unique (store n) bs bs0 Hbs) in Hsc by (intros s; apply holds_get_block, Hsc).
  unfold answer, signature_subscribe. cbn [default from_option id params_array head mbind option_bind as_str].
  rewrite b58_fixed_encode by done. cbn [ok_or obind].
  pose proof (signature_loop_spec sig k rx) as Hloop.
  destruct (decide (sig ∈ chain_sigs bs)) as [Hin|Hni].
  - rewrite decide_True by (by left). apply (sc_sigs _ _ _ Hsc) in Hin.
    destruct (sc_index _ _ _ Hsc _ Hin) as [[[loc tx] meta] ->]. eexists. cbn [take]. by rewrite take_nil.
  - assert (Hnone : get_transaction (store n) sig = Ok None).
    { unfold get_transaction. destruct (t_tx_loc (store n) !! sig) eqn:Hx; [|done].
      exfalso. apply Hni, (sc_sigs _ _ _ Hsc). by rewrite Hx. }
    rewrite Hnone. destruct (decide (Exists (mentions sig) rx)) as [He|He].
    + rewrite decide_True by (by right). destruct Hloop as [v ->]. by exists v.
    + rewrite decide_False by (by intros [?|?]). by rewrite Hloop.
Qed.

End Requests.

(** ** Witnesses: on the chain of [NodeChain.Example] *)

Module Example.
Import NodeChain.Example.
#[local] Existing Instances Toy.blake3_toy Toy.ed25519_toy Toy.solana_toy poseidon_toy.
#[local] Existing Instances ExecToy.ids_toy ExecToy.svm_toy WrappedSpl.Example.addresses_toy.
#[local] Existing Instances StoreToy.account_codec StoreToy.block_codec StoreToy.locator_codec.
#[local] Existing Instances StoreToy.meta_codec StoreToy.queue_codec accept_all.
#[local] Existing Instances header_codec tx_codec state_codec instruction_codec clock_codec rent_codec.
#[local] Existing Instances schedule_codec entries_codec.
#[local] Instance text_id : TextCodecs.
Proof. by refine {| b64_encode := id; b64_decode := Some; b58_encode := id; b58_decode := Some |}; [..|intros b; apply Nat.le_refl]. Defined.
#[local] Instance rent_table : RentTable := {| minimum_balance len := (128 + len) * 6960 |}.

Definition text {A} (_ : A) : bytes := [].

Lemma requests_keep_chain_witness :
  ∃ n, node_reachable error_text transfer_toy g n
    ∧ call transfer_toy text text text false n 0 "requestAirdrop" None = (n, Err method_not_found).
Proof.
  destruct booted_reachable as (n & Hr & _). exists n. split; [exact Hr|].
  destruct (call transfer_toy text text text false n 0 "requestAirdrop" None) as [n' r] eqn:Hc.
  destruct (requests_keep_chain error_text transfer_toy text text text g false n 0 "requestAirdrop" None n' r Hc)
    as (_ & _ & Hn & Hr').
  rewrite (Hn ltac:(discriminate) (or_intror eq_refl)), (Hr' eq_refl eq_refl). reflexivity.
Defined.

Lemma transaction_text_roundtrip_witness :
  ∃ n v t tx, node_reachable error_text transfer_toy g n
    ∧ call transfer_toy text text text false n 0 "getTransaction" (Some (JArr [JStr (le_bytes 64 77)])) = (n, Ok v)
    ∧ get_field "transaction" v = Some (JArr [JStr t; JStr (bstr "base64")])
    ∧ decode_transaction (Some (JStr t)) (bstr "base64") = Ok tx.
Proof.
  destruct burned as (_ & n & bs & _ & _ & Hr & Hbs & _ & b & Hb & Htx).
  destruct (reachable_inv _ _ _ _ Hr) as (bs0 & Hi). pose proof (co_store _ _ _ (ni_chain _ _ _ Hi)) as Hsc.
  rewrite <- (stores_chain_unique (store n) bs bs0 Hbs) in Hsc by (intros sl; apply holds_get_block, Hsc).
  assert (Hin : le_bytes 64 77 ∈ chain_sigs bs).
  { unfold chain_sigs. rewrite Hb. cbn [fmap list_fmap concat]. rewrite Htx, app_nil_r. left. }
  apply (sc_sigs _ _ _ Hsc) in Hin. destruct (sc_index _ _ _ Hsc _ Hin) as [[[loc tx] meta] Hg].
  destruct (transaction_text_roundtrip transfer_toy text text text false n 0 tx) as (_ & _ & H).
  destruct (H (le_bytes 64 77) loc meta eq_refl Hg) as (v & t & H1 & H2 & H3).
  exists n, v, t, tx. split; [exact Hr|]. split; [exact H1|]. split; [exact H2|exact H3].
Defined.


Lemma signature_notification_witness :
  ∃ n v, node_reachable error_text transfer_toy g n
    ∧ signature_subscribe text n (Some (JArr [JStr (le_bytes 64 77)])) 1 [] = Ok [v].
Proof.
  destruct burned as (_ & n & bs & _ & _ & Hr & Hbs & _ & b & Hb & Htx). exists n.
  pose proof (signature_notification error_text transfer_toy text g n bs (le_bytes 64 77) 0 [] Hr Hbs eq_refl) as H.
  cbv zeta in H. rewrite decide_True in H.
  - destruct H as [v Hv]. exists v. split; [exact Hr|exact Hv].
  - left. unfold chain_sigs. rewrite Hb. cbn [fmap list_fmap concat]. rewrite Htx, app_nil_r. left.
Defined.
End Example.
