(* ===== verification/Process.v ===== *)
(** * The node process

    Models [chain/zul-node/src/main.rs] with [keys.rs] and [metrics.rs], the
    loaders of [config.rs] and [genesis.rs], and the threads [l1.rs] and
    [bridge.rs] spawn: what is read and checked before the node starts, and then
    the process as a sequence of turns of its threads (the block producer, the
    RPC servers, the settlement driver, the deposit watcher) and of its
    shutdown. What the files hold is part of the environment; TOML, JSON and key
    parsing are third-party. Sleeping and log lines are left out. *)

From stdpp Require Import pretty.
From S2P Require Import Prelude External Json Hash Paths Genesis Config Account Block Queue Store WrappedSpl Field PoolState PoolProcessor Groth16 PoolService Mempool NodeBridge Executor NodeLedger Node NodeChain Recover Batcher L1Rpc Tools Deposits RpcServer RpcProps.

(** ** The environment *)

(** Command line, files and addresses, constant over the process. [read_file] is
    [std::fs::read], [read_text] is [std::fs::read_to_string]. *)
Record Environment := {
  env_args : list bytes;
  read_file : bytes → option bytes;
  read_text : bytes → option bytes;
  can_bind : bytes → bool;
}.

(** The parsers: [toml::from_str] into the two structs, whose integer fields it
    only accepts in range, [serde_json::from_str::<Vec<u8>>] and
    [Keypair::try_from]. *)
Class Parsers `{ED : Ed25519} := {
  toml_config : bytes → option NodeConfig;
  toml_genesis : bytes → option GenesisConfig;
  json_bytes : bytes → option bytes;
  keypair_of_bytes : bytes → option Keypair;
  toml_config_capacity raw c :
    toml_config raw = Some c → 0 ≤ Config.mempool_capacity (Config.node c) ≤ u64_max;
}.

Inductive BootError :=
| Io (path : bytes)
| BadToml
| InvalidConfig (e : ConfigError)
| InvalidGenesis (e : GenesisError)
| InvalidKey (path : bytes)
| InvalidAddress (setting : string)
| BootNode (e : NodeError)
| CannotBind (addr : bytes).

(** [Path::join] with a relative path. *)
Definition path_join (base name : bytes) : bytes :=
  if decide (base = []) then name
  else if decide (list.last base = Some Byte.x2f) then base ++ name
  else base ++ [Byte.x2f] ++ name.

(** [config_path]: the path after a [--config], a trailing one being ignored. *)
Fixpoint find_config (args : list bytes) : bytes :=
  match args with
  | [] => bstr "./config/node.toml"
  | a :: rest =>
      if decide (a = bstr "--config")
      then match rest with path :: _ => path | [] => bstr "./config/node.toml" end
      else find_config rest
  end.

(** ** Metrics *)

Record L1Metrics := {
  enabled : bool;
  last_batch_no : Z;
  metric_cursor : Z;
  authority_lamports : Z;
  post_failures : Z;
}.

Definition new_metrics : L1Metrics :=
  {| enabled := false; last_batch_no := -1; metric_cursor := 0; authority_lamports := 0; post_failures := 0 |}.

(** [n as i64] *)
Definition as_i64 (n : Z) : Z := if decide (n < 2 ^ 63) then n else n - 2 ^ 64.

Definition store_enabled (m : L1Metrics) : L1Metrics :=
  {| enabled := true; last_batch_no := last_batch_no m; metric_cursor := metric_cursor m;
     authority_lamports := authority_lamports m; post_failures := post_failures m |}.
Definition store_batch (m : L1Metrics) (n : Z) : L1Metrics :=
  {| enabled := enabled m; last_batch_no := as_i64 n; metric_cursor := metric_cursor m;
     authority_lamports := authority_lamports m; post_failures := post_failures m |}.
Definition store_cursor (m : L1Metrics) (s : Z) : L1Metrics :=
  {| enabled := enabled m; last_batch_no := last_batch_no m; metric_cursor := s;
     authority_lamports := authority_lamports m; post_failures := post_failures m |}.
Definition store_balance (m : L1Metrics) (l : Z) : L1Metrics :=
  {| enabled := enabled m; last_batch_no := last_batch_no m; metric_cursor := metric_cursor m;
     authority_lamports := l; post_failures := post_failures m |}.
Definition count_failure (m : L1Metrics) : L1Metrics :=
  {| enabled := enabled m; last_batch_no := last_batch_no m; metric_cursor := metric_cursor m;
     authority_lamports := authority_lamports m; post_failures := wadd (post_failures m) 1 |}.

(** ** Loading *)

Section Process.
Context `{B3 : Blake3} `{ED : Ed25519} `{TX : SolanaTx} `{SA : SolanaAddresses} `{P : Poseidon}.
Context `{BN : Bn254} `{SVM : !Svm} `{IDS : SdkIds} `{S2 : Sha256} `{T : TextCodecs} `{RT : RentTable}.
Context `{Z0 : Zstd} `{!Bincode BatchPayload}.
Context `{!Bincode StoredAccount} `{!Bincode PoolState} `{!Bincode Block} `{!Bincode BlockHeader}.
Context `{!Bincode VersionedTransaction} `{!Bincode TxLocator} `{!Bincode ExecutedTransactionMeta}.
Context `{!Bincode (nat * list (Z * H256))} `{!Bincode PoolInstruction} `{!Bincode Clock}.
Context `{!Bincode Rent} `{!Bincode EpochSchedule} `{!Bincode (list RecentEntry)}.
Context `{PA : !Parsers}.
Context {W : Type} `{RPC : !JsonRpc W} {C : Type} `{L1 : !L1Client C}.
Context (pool_error_text : PoolServiceError → bytes).
Context (signed_transfer : Keypair → Pubkey → Z → H256 → VersionedTransaction).
Context (store_error_text : StoreError → bytes) (node_error_text : NodeError → bytes).
Context (debug_error : TransactionError → bytes).
(** The key the deposit watcher is given, which signs nothing. *)
Context (throwaway : Pubkey).

Section Boot.
Context (E : Environment).

Definition config_from_toml_str (raw : bytes) : outcome BootError NodeConfig :=
  let? cfg := ok_or (toml_config raw) BadToml in
  let? _ := map_err InvalidConfig (config_validate cfg) in
  Ok cfg.

Definition load_config (path : bytes) : outcome BootError NodeConfig :=
  let? raw := ok_or (read_text E path) (Io path) in
  config_from_toml_str raw.

Definition genesis_from_toml_str (raw : bytes) : outcome BootError GenesisConfig :=
  let? parsed := ok_or (toml_genesis raw) BadToml in
  let? _ := map_err InvalidGenesis (genesis_validate parsed) in
  Ok parsed.

Definition load_genesis (path : bytes) : outcome BootError GenesisConfig :=
  let? raw := ok_or (read_text E path) (Io path) in
  genesis_from_toml_str raw.

Definition load_keypair (path : bytes) : outcome BootError Keypair :=
  let? raw := ok_or (read_text E path) (Io path) in
  let? key := ok_or (json_bytes raw) (InvalidKey path) in
  ok_or (keypair_of_bytes key) (InvalidKey path).

Definition pool_keys (dir : bytes) : VerifyingKeys :=
  let params := path_join dir (bstr "params") in
  load_pool_keys (read_file E (path_join params (bstr "transfer.vk.bin")))
                 (read_file E (path_join params (bstr "unshield.vk.bin"))).

(** [.expect("validated by config")] panics. *)
Definition load_faucet (c : RpcSection) : outcome BootError (option Keypair) :=
  if faucet_enabled c
  then match faucet_key_path c with
       | Some path => let? kp := load_keypair path in Ok (Some kp)
       | None => Panic
       end
  else Ok None.

Definition parse_gas_mint (c : L1Section) : outcome BootError (option Pubkey) :=
  if decide (gas_mint c = []) then Ok None
  else let? mint := ok_or (b58_fixed 32 (gas_mint c)) (InvalidAddress "l1.gas_mint") in Ok (Some mint).

Definition node_options (c : NodeConfig) (key : option Keypair) (mint : option Pubkey) : NodeOptions :=
  {| slot_duration := slot_duration_ms (Config.node c);
     heartbeat := heartbeat_ms (Config.node c);
     opt_mempool_capacity := mempool_capacity (Config.node c);
     opt_max_per_payer := max_per_payer (Config.node c);
     max_block_transactions := max_block_transactions default_options;
     faucet := key;
     faucet_max_lamports := Config.faucet_max_lamports (Config.rpc c);
     opt_gas_mint := mint |}.

(** ** The threads *)

Inductive Driver := Connecting (c : C) | Running (b : Batcher (C := C)) | Dead (c : C).

Definition driver_client (d : Driver) : C :=
  match d with Connecting c | Dead c => c | Running b => client b end.

(** [l1::spawn]: the settings are checked before the thread starts. [connect] is
    the client over the L1 as it is then. *)
Definition spawn_driver (c : L1Section) (connect : Keypair → Pubkey → Pubkey → C) : outcome BootError Driver :=
  let? settlement := ok_or (b58_fixed 32 (settlement_program_id c)) (InvalidAddress "l1.settlement_program_id") in
  let? da_log := ok_or (b58_fixed 32 (da_log_program_id c)) (InvalidAddress "l1.da_log_program_id") in
  let? key := load_keypair (bridge_authority_key_path c) in
  Ok (Connecting (connect key settlement da_log)).

(** [bridge::spawn] *)
Definition spawn_watcher (c : L1Section) : outcome BootError RpcL1Client :=
  let? settlement := ok_or (b58_fixed 32 (settlement_program_id c)) (InvalidAddress "l1.settlement_program_id") in
  let da_log := default settlement (b58_fixed 32 (da_log_program_id c)) in
  Ok (new_client throwaway settlement da_log).

(** The attempt to derive the batcher, repeated until it succeeds. *)
Definition driver_connect (c : C) (m : L1Metrics) : Driver * L1Metrics :=
  match build_batcher c with
  | (_, Ok b) =>
      let m := store_enabled m in
      (Running b, match latest_batch_no (client b) with Ok (Some n) => store_batch m n | _ => m end)
  | (c, Err _) => (Connecting c, m)
  | (c, Panic) => (Dead c, m)
  end.

(** One pass of the settlement loop, with its metrics. *)
Definition driver_pass (interval : Z) (b : Batcher) (st : Store) (m : L1Metrics) : Driver * L1Metrics :=
  let interval := Z.max interval 1 in
  let m := store_cursor m (cursor_slot b) in
  let latest := default 0 (latest_slot st) in
  let cursor := cursor_slot b in
  if decide (cursor ≤ latest) then
    let balance := ok_opt (authority_balance (client b)) in
    let m := match balance with Some l => store_balance m l | None => m end in
    if match balance with Some l => bool_decide (l < MIN_AUTHORITY_LAMPORTS) | None => false end
    then (Running b, m)
    else
      let tip := Z.min latest ((wadd cursor interval - 1) mod 2 ^ 64) in
      match run_once b st tip with
      | (b, Ok (Some record)) => (Running b, store_batch m (r_batch_no record))
      | (b, Ok None) => (Running b, m)
      | (b, Err _) =>
          let m := count_failure m in
          match build_batcher (client b) with
          | (_, Ok fresh) => (Running fresh, m)
          | (c, Err _) => (Running (with_client b c), m)
          | (c, Panic) => (Dead c, m)
          end
      | (b, Panic) => (Dead (client b), m)
      end
  else (Running b, m).

(** ** The process *)

(** [Up], then [Draining] once the signal arrived, [Drained] when the producer
    has returned, [Exited] when the servers have stopped. *)
Inductive Phase := Up | Draining | Drained | Exited.

Record Process := {
  p_config : NodeConfig;
  p_genesis : GenesisConfig;
  p_keys : VerifyingKeys;
  p_node : Node;
  p_driver : option Driver;
  p_watcher : option RpcL1Client;
  p_metrics : L1Metrics;
  p_phase : Phase;
}.

Definition optionally {A} (on : bool) (r : outcome BootError A) : outcome BootError (option A) :=
  if on then let? a := r in Ok (Some a) else Ok None.

Definition bind_addr (addr : bytes) : outcome BootError () :=
  if can_bind E addr then Ok () else Err (CannotBind addr).

Definition bind_all (c : RpcSection) : outcome BootError () :=
  let? _ := bind_addr (http_addr c) in
  let? _ := bind_addr (ws_addr c) in
  match metrics_addr c with Some addr => bind_addr addr | None => Ok () end.

(** [run] up to the point where the threads are up. *)
Definition boot (opened : outcome StoreError Store) (connect : Keypair → Pubkey → Pubkey → C) (now : Z)
    : outcome BootError Process :=
  let? c := load_config (find_config (env_args E)) in
  let? g := load_genesis (genesis_path (Config.node c)) in
  let? sequencer := load_keypair (sequencer_key_path (Config.node c)) in
  let? key := load_faucet (Config.rpc c) in
  let keys := pool_keys (data_dir (Config.node c)) in
  let? mint := parse_gas_mint (Config.l1 c) in
  let? st := map_err (λ e, BootNode (NodeStore e)) opened in
  let? n := map_err BootNode (new_node st g sequencer [] (node_options c key mint) now) in
  let? driver := optionally (l1_enabled (Config.l1 c)) (spawn_driver (Config.l1 c) connect) in
  let? watcher := optionally (l1_enabled (Config.l1 c)) (spawn_watcher (Config.l1 c)) in
  let? _ := bind_all (Config.rpc c) in
  Ok {| p_config := c; p_genesis := g; p_keys := keys; p_node := n; p_driver := driver;
        p_watcher := watcher; p_metrics := new_metrics; p_phase := Up |}.
End Boot.

Definition with_node (p : Process) (n : Node) : Process :=
  {| p_config := p_config p; p_genesis := p_genesis p; p_keys := p_keys p; p_node := n; p_driver := p_driver p;
     p_watcher := p_watcher p; p_metrics := p_metrics p; p_phase := p_phase p |}.

Definition with_driver (p : Process) (d : Driver * L1Metrics) : Process :=
  {| p_config := p_config p; p_genesis := p_genesis p; p_keys := p_keys p; p_node := p_node p;
     p_driver := Some d.1; p_watcher := p_watcher p; p_metrics := d.2; p_phase := p_phase p |}.

Definition with_phase (p : Process) (ph : Phase) : Process :=
  {| p_config := p_config p; p_genesis := p_genesis p; p_keys := p_keys p; p_node := p_node p;
     p_driver := p_driver p; p_watcher := p_watcher p; p_metrics := p_metrics p; p_phase := ph |}.

(** The turns of the threads. A tick and a request carry the clock, a poll what
    L1 answers. *)
Inductive Event :=
| Tick (now : Z)
| Request (now : Z) (name : string) (raw : option Value)
| Poll (w : W)
| DriverTurn
| Terminate
| ProducerReturns
| ServersStop.

(** A tick can still be taken after the signal, as [select!] picks any branch
    that is ready; an attempt that fails or panics is logged and the loop goes on. *)
Definition step (p : Process) (e : Event) : Process :=
  match e, p_phase p with
  | _, Exited => p
  | Tick now, (Up | Draining) =>
      with_node p (try_produce_block (V := Groth16Verifier (p_keys p)) pool_error_text (p_node p) now).1
  | Request now name raw, _ =>
      with_node p (call signed_transfer store_error_text node_error_text debug_error
                     (faucet_enabled (Config.rpc (p_config p))) (p_node p) now name raw).1
  | Poll w, _ =>
      match p_watcher p with Some cl => with_node p (watch cl w (p_node p)) | None => p end
  | DriverTurn, _ =>
      match p_driver p with
      | Some (Connecting c) => with_driver p (driver_connect c (p_metrics p))
      | Some (Running b) =>
          with_driver p (driver_pass (batch_interval_slots (Config.l1 (p_config p))) b (store (p_node p)) (p_metrics p))
      | _ => p
      end
  | Terminate, Up => with_phase (with_node p (begin_draining (p_node p))) Draining
  | ProducerReturns, Draining => with_phase p Drained
  | ServersStop, Drained => with_phase p Exited
  | _, _ => p
  end.

Definition run (p : Process) (es : list Event) : Process := fold_left step es p.

(** ** The metrics endpoint *)

Definition newline : string := String (Ascii.ascii_of_nat 10) EmptyString.

Definition metric (name help kind value : string) : string :=
  "# HELP " +:+ name +:+ " " +:+ help +:+ newline +:+
  "# TYPE " +:+ name +:+ " " +:+ kind +:+ newline +:+
  name +:+ " " +:+ value +:+ newline.

Definition flag_text (b : bool) : string := if b then "1" else "0".

Definition render (n : Node) (m : L1Metrics) (now : Z) : outcome NodeError string :=
  let? t := read_tip n in
  let? age := last_block_age_ms n now in
  let? healthy := is_healthy n now in
  Ok (metric "zul_slot" "Current chain tip slot (block height)." "gauge" (pretty (tip_slot t)) +:+
  metric "zul_total_txs" "Transactions committed since genesis." "counter" (pretty (total_txs n)) +:+
  metric "zul_mempool_depth" "Transactions waiting in the mempool." "gauge" (pretty (mempool_depth n)) +:+
  metric "zul_last_block_age_ms" "Milliseconds since the last committed block." "gauge" (pretty age) +:+
  metric "zul_healthy" "1 if the producer is live, else 0." "gauge" (flag_text healthy) +:+
  metric "zul_l1_enabled" "1 if L1 settlement batching is on." "gauge" (flag_text (enabled m)) +:+
  metric "zul_l1_last_batch_no" "Last settlement batch number posted to L1 (-1 = none)." "gauge"
    (pretty (last_batch_no m)) +:+
  metric "zul_l1_cursor_slot" "First L2 slot not yet settled to L1." "gauge" (pretty (metric_cursor m)) +:+
  metric "zul_l1_authority_lamports" "Balance of the batch-posting authority on L1." "gauge"
    (pretty (authority_lamports m)) +:+
  metric "zul_l1_post_failures" "Batch-post failures (triggers a re-derive from L1)." "counter"
    (pretty (post_failures m))).

(** A panic ends the thread that serves the metrics. *)
Definition respond (n : Node) (m : L1Metrics) (now : Z) (url : string) : outcome NodeError (Z * string) :=
  if decide (url = "/metrics") then let? text := render n m now in Ok (200, text)
  else if decide (url = "/health") then
    let? healthy := is_healthy n now in
    Ok (if healthy then (200, "ok" +:+ newline) else (503, "unhealthy" +:+ newline))
  else Ok (404, "not found" +:+ newline).
End Process.
