(* ===== verification/ProcessProps.v ===== *)
(** * Properties of the node process

    The composition of the node's chain, the settlement driver, the RPC servers
    and the deposit watcher: whatever order their turns come in, and however
    often the process is restarted, what reaches L1 is the node's own chain. *)

From stdpp Require Import pretty.
From S2P Require Import Prelude External Json Hash Paths Genesis Config Account Block Smt SmtFacts SmtProps Queue Store StoreProps WrappedSpl Field PoolState PoolProcessor Groth16 PoolService Mempool NodeBridge Executor NodeLedger Node NodeChain Settlement Recover Batcher L1Rpc L1RpcProps Entry Tools BatcherL1 Deposits History RpcServer RpcProps Process.

Section Properties.
Context `{B3 : Blake3} `{ED : Ed25519} `{TX : SolanaTx} `{SA : SolanaAddresses} `{P : Poseidon}.
Context `{BN : Bn254} `{SVM : !Svm} `{IDS : SdkIds} `{S2 : Sha256} `{T : TextCodecs} `{RT : RentTable}.
Context `{Z0 : Zstd} `{!Bincode BatchPayload}.
Context `{!Bincode StoredAccount} `{!Bincode PoolState} `{!Bincode Block} `{!Bincode BlockHeader}.
Context `{!Bincode VersionedTransaction} `{!Bincode TxLocator} `{!Bincode ExecutedTransactionMeta}.
Context `{!Bincode (nat * list (Z * H256))} `{!Bincode PoolInstruction} `{!Bincode Clock}.
Context `{!Bincode Rent} `{!Bincode EpochSchedule} `{!Bincode (list RecentEntry)}.
Context `{PA : !Parsers}.
Context {W : Type} `{RPC : !JsonRpc W} {C : Type} `{L1 : !L1Client C} `{LAWS : !L1ClientLaws C}.
Context (pool_error_text : PoolServiceError → bytes).
Context (signed_transfer : Keypair → Pubkey → Z → H256 → VersionedTransaction).
Context (store_error_text : StoreError → bytes) (node_error_text : NodeError → bytes).
Context (debug_error : TransactionError → bytes).
Context (throwaway : Pubkey) (E : Environment).

Abbreviation step := (Process.step pool_error_text signed_transfer store_error_text node_error_text debug_error).
Abbreviation run := (Process.run pool_error_text signed_transfer store_error_text node_error_text debug_error).
Abbreviation Proc := (Process (C := C)).
Abbreviation boot := (Process.boot throwaway E).
Abbreviation reachable_as keys := (node_reachable (V := Groth16Verifier keys) pool_error_text signed_transfer).

(** ** Boot *)

(** What a successful boot has read and checked. *)
Lemma boot_loaded opened connect now (p : Proc) :
  boot opened connect now = Ok p →
  load_config E (find_config (env_args E)) = Ok (p_config p)
  ∧ load_genesis E (genesis_path (Config.node (p_config p))) = Ok (p_genesis p)
  ∧ p_keys p = pool_keys E (data_dir (Config.node (p_config p)))
  ∧ ∃ st kp key mint, opened = Ok st
    ∧ load_faucet E (Config.rpc (p_config p)) = Ok key
    ∧ new_node st (p_genesis p) kp [] (node_options (p_config p) key mint) now = Ok (p_node p)
    ∧ optionally (l1_enabled (Config.l1 (p_config p))) (spawn_driver E (Config.l1 (p_config p)) connect)
      = Ok (p_driver p)
    ∧ p_metrics p = new_metrics ∧ p_phase p = Up.
Proof.
  unfold Process.boot. intros (c & Hc & H)%obind_Ok. apply obind_Ok in H as (g & Hg & H).
  apply obind_Ok in H as (kp & _ & H). apply obind_Ok in H as (key & Hkey & H).
  apply obind_Ok in H as (mint & _ & H). apply obind_Ok in H as (st & Hst & H).
  apply obind_Ok in H as (n & Hn & H). apply obind_Ok in H as (driver & Hd & H).
  apply obind_Ok in H as (watcher & _ & H). apply obind_Ok in H as (u & _ & H). injection H as <-.
  cbn [p_config p_genesis p_keys p_node p_driver p_metrics p_phase].
  split_and!; [done|done|done|]. exists st, kp, key, mint.
  split_and!; [|done| |done|done|done].
  - by destruct opened; cbn in Hst; simplify_eq.
  - destruct (new_node _ _ _ _ _ _); cbn in Hn; by simplify_eq.
Qed.

Lemma loaded_config path c :
  load_config E path = Ok c →
  config_validate c = Ok () ∧ 0 ≤ Config.mempool_capacity (Config.node c) ≤ u64_max.
Proof.
  unfold load_config, config_from_toml_str. intros (raw & _ & H)%obind_Ok.
  apply obind_Ok in H as (c' & Hc & H). apply ok_or_Ok in Hc. apply obind_Ok in H as ([] & Hv & H).
  injection H as <-. split; [by destruct (config_validate c') as [[]| |]|by eapply toml_config_capacity].
Qed.

Lemma booted_options c key mint :
  0 ≤ Config.mempool_capacity (Config.node c) ≤ u64_max → options_ok (node_options c key mint).
Proof. intros H. split; [done|]. cbn. unfold u32_max. lia. Qed.

(** ** The driver *)

Definition driver_ok (d : Driver (C := C)) (bs : list Block) : Prop :=
  match d with
  | Running b => batcher_inv b bs
  | Connecting c | Dead c => ∃ b, client b = c ∧ batcher_inv b bs
  end.

(** What the gauges claim: a batch number that is on L1, or none, and a slot
    below which every non-empty block is settled. *)
Definition metrics_ok (m : L1Metrics) (recs : list BatchRecord) (bs : list Block) : Prop :=
  -1 ≤ last_batch_no m < Z.of_nat (length recs)
  ∧ 0 ≤ metric_cursor m ≤ Z.of_nat (length bs) + 1
  ∧ covered_below recs bs (metric_cursor m).

Lemma driver_ok_client d bs : driver_ok d bs → ∃ b, client b = driver_client d ∧ batcher_inv b bs.
Proof. destruct d; cbn; [done|eauto|done]. Qed.

Lemma driver_grows d bs bs' : bs `prefix_of` bs' → driver_ok d bs → driver_ok d bs'.
Proof.
  intros Hp. destruct d; cbn; [|by apply inv_grows|]; intros (b & Hb & Hi); exists b; (split; [done|by eapply inv_grows]).
Qed.

Lemma covered_prefix recs recs' bs s :
  recs `prefix_of` recs' → covered_below recs bs s → covered_below recs' bs s.
Proof.
  intros [more ->] Hc k b Hk Hb Hn. destruct (Hc k b Hk Hb Hn) as (r & Hr & Hin).
  exists r. split; [apply elem_of_app; by left|done].
Qed.

Lemma metrics_grow m recs recs' bs bs' :
  recs `prefix_of` recs' → bs `prefix_of` bs' → metrics_ok m recs bs → metrics_ok m recs' bs'.
Proof.
  intros Hr Hb (H1 & H2 & H3). pose proof (prefix_length _ _ Hr). pose proof (prefix_length _ _ Hb).
  split_and!; [lia..|]. eapply covered_prefix; [exact Hr|]. apply (covered_below_prefix _ bs); [done|lia|done].
Qed.

Lemma stored_batch m recs bs n :
  0 ≤ n < 2 ^ 63 → n < Z.of_nat (length recs) → metrics_ok m recs bs → metrics_ok (store_batch m n) recs bs.
Proof.
  intros Hn Hl (_ & H2 & H3). split; [|done]. cbn. unfold as_i64. rewrite decide_True by lia. lia.
Qed.

Lemma stored_cursor m b bs :
  batcher_inv b bs → metrics_ok m (records_on (client b)) bs →
  metrics_ok (store_cursor m (cursor_slot b)) (records_on (client b)) bs.
Proof.
  intros [_ _ _ _ Hc _ _ _ Hp] (H1 & _ & _). split; [done|]. cbn. split; [lia|exact Hp].
Qed.

Lemma build_batcher_records c c' r :
  good c → build_batcher c = (c', r) → records_on c' = records_on c ∧ ∀ b, r = Ok b → client b = c'.
Proof.
  intros Hg. unfold build_batcher. destruct (ensure_initialized c) as [c1 r1] eqn:Hi.
  apply init_law in Hi as (_ & _ & Hrec & _); [|done]. destruct r1 as [[]|e|]; [|by intros [= <- <-]..].
  intros [= <- <-]. split; [done|]. intros b. destruct (resume_cursor_slot c1); cbn; [|done..].
  unfold new_batcher. by intros (? & _ & [= <-])%obind_Ok.
Qed.

(** The pass of the driver is the batcher's, with the gauges kept true. *)
Lemma driver_pass_sweep interval b st m :
  let d := (driver_pass interval b st m).1 in
  d = Running (sweep interval b st) ∨ d = Dead (client (sweep interval b st)).
Proof.
  cbv zeta. unfold driver_pass, sweep. case_decide; [|by left]. cbv zeta.
  set (low := match ok_opt _ with Some l => bool_decide _ | None => false end).
  set (low' := match authority_balance _ with Ok _ => _ | _ => _ end).
  assert (low = low') as -> by (unfold low, low'; by destruct (authority_balance _)).
  destruct low'; [by left|]. destruct (run_once _ _ _) as [b1 [[rec|]|err|]]; [by left..| |by right].
  destruct (build_batcher (client b1)) as [c [fresh|err'|]]; [by left..|by right].
Qed.

Lemma driver_connect_inv b bs m :
  batcher_inv b bs → Z.of_nat (length bs) + 10001 < 2 ^ 63 → metrics_ok m (records_on (client b)) bs →
  let '(d, m') := driver_connect (client b) m in
  driver_ok d bs ∧ metrics_ok m' (records_on (driver_client d)) bs
  ∧ records_on (driver_client d) = records_on (client b).
Proof.
  intros Hi Hbd Hm. unfold driver_connect. destruct (build_batcher (client b)) as [c r] eqn:Hb.
  pose proof (build_batcher_records _ _ _ (bi_good _ _ Hi) Hb) as [Hrec Hcl].
  apply (build_batcher_inv b bs) in Hb; [|done|unfold u64_max; lia]. destruct r as [fresh|err|].
  - split; [done|]. cbn [driver_client]. split; [|by rewrite (Hcl fresh eq_refl)].
    assert (Hm' : metrics_ok (store_enabled m) (records_on (client fresh)) bs) by by rewrite (Hcl fresh eq_refl), Hrec.
    destruct (latest_batch_no (client fresh)) as [[n|]| |] eqn:Hl; [|done..].
    apply latest_law in Hl; [|by apply Hb]. pose proof (bi_count _ _ Hb) as Hct.
    destruct (decide (records_on (client fresh) = [])) as [|Hne]; [done|]. injection Hl as ->.
    destruct (records_on (client fresh)) as [|x l]; [done|]. cbn [length] in *. apply stored_batch; [lia|cbn [length]; lia|done].
  - split; [by exists (with_client b c)|]. cbn [driver_client]. by rewrite Hrec.
  - split; [by exists (with_client b c)|]. cbn [driver_client]. by rewrite Hrec.
Qed.

(** How the gauges follow a pass from the records [recs] to [recs']: the cursor is
    the one the pass started from, and a new record is shown by its number, or
    counted as a failure when its confirmation did not arrive. *)
Definition gauges_follow (b : Batcher (C := C)) (m m' : L1Metrics) (recs recs' : list BatchRecord) : Prop :=
  metric_cursor m' = cursor_slot b
  ∧ (recs' = recs ∨ last_batch_no m' = Z.of_nat (length recs') - 1
     ∨ post_failures m' = wadd (post_failures m) 1).

Lemma driver_pass_inv interval b bs st m :
  batcher_inv b bs → chain_store st bs → 0 ≤ interval ≤ 10000 → Z.of_nat (length bs) + 10001 < 2 ^ 63 →
  metrics_ok m (records_on (client b)) bs →
  let '(d, m') := driver_pass interval b st m in
  driver_ok d bs ∧ metrics_ok m' (records_on (driver_client d)) bs
  ∧ grows_by st (records_on (client b)) (records_on (driver_client d))
  ∧ gauges_follow b m m' (records_on (client b)) (records_on (driver_client d)).
Proof.
  intros Hi Hst Hint Hbd Hm.
  assert (Hd : driver_ok (driver_pass interval b st m).1 bs).
  { assert (Hs : batcher_inv (sweep interval b st) bs) by (apply sweep_inv; [done..|unfold u64_max; lia]).
    destruct (driver_pass_sweep interval b st m) as [-> | ->]; cbn; eauto. }
  destruct (driver_pass interval b st m) as [d m'] eqn:Hp. split; [done|]. clear Hd.
  revert Hp. unfold driver_pass. apply (stored_cursor m b bs Hi) in Hm.
  set (m1 := store_cursor m (cursor_slot b)) in *. cbv zeta.
  case_decide; [|intros [= <- <-]; split_and!; [done|by left|split; [done|by left]]].
  destruct Hst as (Hst & Hlat & Hty). rewrite Hlat in *. pose proof (bi_cursor _ _ Hi) as Hcu.
  set (m2 := match ok_opt _ with Some l => store_balance m1 l | None => m1 end).
  assert (Hm2 : metrics_ok m2 (records_on (client b)) bs) by (unfold m2; by case_match).
  assert (Hcur : metric_cursor m2 = cursor_slot b ∧ post_failures m2 = post_failures m) by (unfold m2; by case_match).
  destruct (match ok_opt _ with Some l => bool_decide _ | None => false end);
    [intros [= <- <-]; split_and!; [done|by left|split; [apply Hcur|by left]]|].
  rewrite (wadd_exact (cursor_slot b) (Z.max interval 1)) by (unfold u64_max; lia). rewrite Z.mod_small by lia.
  destruct (run_once b st _) as [b1 r] eqn:Hrun.
  apply (run_once_inv b bs) in Hrun as (Hnp & Hi1 & Hgr & Hnew & Hnone); [|done|done|unfold u64_max; lia|lia|lia|done].
  assert (Hm3 : metrics_ok m2 (records_on (client b1)) bs) by (by eapply metrics_grow; [eapply grows_prefix| |]).
  destruct r as [[rec|]|e|]; [| | |done].
  - destruct (Hnew rec eq_refl) as [Hno Hrec]. pose proof (bi_count _ _ Hi) as Hct. intros [= <- <-].
    split_and!; [cbn [driver_client]; apply stored_batch; [lia|rewrite Hrec, length_app; cbn; lia|done]|done|].
    split; [apply Hcur|]. right. left. cbn [driver_client store_batch last_batch_no]. unfold as_i64.
    rewrite decide_True by lia. rewrite Hrec, length_app. cbn. lia.
  - intros [= <- <-]. split_and!; [done|done|]. split; [apply Hcur|]. left. by apply Hnone.
  - destruct (build_batcher (client b1)) as [c r2] eqn:Hb. apply build_batcher_records in Hb as [Hrec Hcl]; [|apply Hi1].
    assert (Hcf : gauges_follow b m (count_failure m2) (records_on (client b)) (records_on (client b1)))
      by (split; [apply Hcur|right; right; cbn; by rewrite (proj2 Hcur)]).
    destruct r2 as [fresh|e'|]; intros [= <- <-]; cbn [driver_client with_client client].
    + by rewrite (Hcl fresh eq_refl), Hrec.
    + by rewrite Hrec.
    + by rewrite Hrec.
Qed.

(** ** The process *)

(** The clock the producer reads is a u64. *)
Definition clock_ok (e : Event (W := W)) : Prop := match e with Tick now => u64 now | _ => True end.

(** What others do on L1 leaves the records and the chunks that are there. *)
Definition others (c c' : C) : Prop :=
  good c' ∧ records_on c' = records_on c ∧ ∀ x, x ∈ chunks_on c → x ∈ chunks_on c'.

Definition set_client (d : Driver (C := C)) (c : C) : Driver :=
  match d with Connecting _ => Connecting c | Running b => Running (with_client b c) | Dead _ => Dead c end.

(** The process as it is, on the L1 as it has become. *)
Definition on_l1 (p : Proc) (c : C) : Proc :=
  match p_driver p with Some d => with_driver p (set_client d c, p_metrics p) | None => p end.

(** Started on a fresh store with an L1 where nothing is settled, then any turns
    in any order, whatever others do on L1 in between, and restarts that find the
    store and L1 as they were left. The chain's length stays clear of the 63 bits
    the gauges have. *)
Inductive process_reachable : Proc → Prop :=
| process_first connect now p :
    (∀ k s a, good (connect k s a) ∧ records_on (connect k s a) = []) →
    boot (Ok open_store) connect now = Ok p → process_reachable p
| process_turn p e :
    process_reachable p → clock_ok e → tip_slot (tip (p_node p)) + 10002 < 2 ^ 63 → process_reachable (step p e)
| process_elsewhere p c :
    process_reachable p → (∀ d, p_driver p = Some d → others (driver_client d) c) → process_reachable (on_l1 p c)
| process_again p connect now p' :
    process_reachable p →
    (∀ d, p_driver p = Some d → ∀ k s a, connect k s a = driver_client d) →
    boot (Ok (store (p_node p))) connect now = Ok p' → process_reachable p'.

(** A record that carries the root of the withdrawals tree after some of the
    withdrawals, in their order. *)
Definition rooted (ws : list WithdrawTx) (rec : BatchRecord) : Prop :=
  ∃ ws0, ws0 `prefix_of` ws ∧ r_withdrawals_root rec = withdraw_root (withdraw_all (leaf_of <$> ws0)).

Lemma rooted_grow ws ws' recs : ws `prefix_of` ws' → Forall (rooted ws) recs → Forall (rooted ws') recs.
Proof.
  intros Hp H. eapply list.Forall_impl; [exact H|]. intros rec (ws0 & H0 & Hr). exists ws0. split; [by etrans|done].
Qed.

Record process_inv (p : Proc) (bs : list Block) : Prop := {
  pi_config : load_config E (find_config (env_args E)) = Ok (p_config p);
  pi_genesis : load_genesis E (genesis_path (Config.node (p_config p))) = Ok (p_genesis p);
  pi_keys : p_keys p = pool_keys E (data_dir (Config.node (p_config p)));
  pi_enabled : is_Some (p_driver p) ↔ l1_enabled (Config.l1 (p_config p)) = true;
  pi_reachable : reachable_as (p_keys p) (p_genesis p) (p_node p);
  pi_node : node_inv (p_genesis p) (p_node p) bs;
  pi_len : Z.of_nat (length bs) + 10001 < 2 ^ 63;
  pi_driver d : p_driver p = Some d →
    driver_ok d bs ∧ metrics_ok (p_metrics p) (records_on (driver_client d)) bs;
  pi_roots d : p_driver p = Some d →
    Forall (rooted (successful_withdrawals (store (p_node p)) bs)) (records_on (driver_client d));
}.

Lemma watch_cases cl (w : W) n : watch cl w n = n ∨ ∃ ds, watch cl w n = enqueue_deposits n ds.
Proof. unfold watch. destruct (rpc_fetch_deposits _ _ _); [|by left..]. case_decide; [by left|right; by eexists]. Qed.

(** A turn is no step of the node, or one; the rest of the process is fixed, but
    for the driver's turns. *)
Lemma turn_node p e :
  clock_ok e → tip_slot (tip (p_node p)) < u64_max →
  let p' := step p e in
  (p_node p' = p_node p
   ∨ node_step (V := Groth16Verifier (p_keys p)) pool_error_text signed_transfer (p_genesis p) (p_node p) (p_node p'))
  ∧ p_config p' = p_config p ∧ p_genesis p' = p_genesis p ∧ p_keys p' = p_keys p
  ∧ (is_Some (p_driver p') ↔ is_Some (p_driver p))
  ∧ (e ≠ DriverTurn → p_driver p' = p_driver p ∧ p_metrics p' = p_metrics p).
Proof.
  intros Hclk Hlt. cbv zeta. destruct e as [now|now name raw|w| | | |]; cbn [Process.step].
  - destruct (p_phase p); cbn [p_node with_node]; (split; [|done]); try by left.
    all: right; eapply step_produce; [exact Hclk|done|apply surjective_pairing].
  - assert (Hreq := request_step (V := Groth16Verifier (p_keys p)) pool_error_text signed_transfer store_error_text
                      node_error_text debug_error (p_genesis p) (faucet_enabled (Config.rpc (p_config p))) (p_node p) now name raw).
    destruct (p_phase p); (split; [|done]); [exact Hreq..|by left].
  - destruct (p_phase p), (p_watcher p) as [cl|]; (split; [|done]); try by left.
    all: cbn [p_node with_node]; destruct (watch_cases cl w (p_node p)) as [->|[ds ->]]; [by left|right; constructor].
  - destruct (p_phase p), (p_driver p) as [[| |]|] eqn:Hd; (split; [by left|]); (split; [done|]); (split; [done|]); (split; [done|]);
      (split; [|done]); first [by rewrite ?Hd|split; intros _; by eexists].
  - destruct (p_phase p); (split; [|done]); [right; constructor|by left..].
  - destruct (p_phase p); (split; [|done]); by left.
  - destruct (p_phase p); (split; [|done]); by left.
Qed.

Lemma node_chain_store n g bs : node_inv g n bs → chain_store (store n) bs.
Proof.
  intros [[Hs _ _ _ _ _ _] _ _ _ _ Hsl]. split; [apply Hs|]. split; [rewrite (sc_latest _ _ _ Hs); by destruct bs|].
  eapply list.Forall_impl; [exact Hsl|]. by intros b [? _].
Qed.

(** The interval is bounded by what one pass reads of the store. *)
Definition interval_ok (p : Proc) : Prop := 0 ≤ batch_interval_slots (Config.l1 (p_config p)) ≤ 10000.

Lemma driver_turn_inv p bs :
  process_inv p bs → interval_ok p →
  ∀ d, p_driver (step p DriverTurn) = Some d →
    driver_ok d bs ∧ metrics_ok (p_metrics (step p DriverTurn)) (records_on (driver_client d)) bs
    ∧ ∃ d0, p_driver p = Some d0 ∧ grows_by (store (p_node p)) (records_on (driver_client d0)) (records_on (driver_client d)).
Proof.
  intros Hpi Hint d. pose proof (pi_node _ _ Hpi) as Hn. pose proof (pi_len _ _ Hpi) as Hlen. cbn [Process.step].
  destruct (p_driver p) as [d0|] eqn:Hp; [|destruct (p_phase p); by rewrite Hp].
  destruct (pi_driver _ _ Hpi d0 Hp) as [Hok Hm].
  assert (Hsame : Some d0 = Some d → driver_ok d bs ∧ metrics_ok (p_metrics p) (records_on (driver_client d)) bs
            ∧ ∃ d1, Some d0 = Some d1 ∧ grows_by (store (p_node p)) (records_on (driver_client d1)) (records_on (driver_client d))).
  { intros [= <-]. split_and!; [done|done|]. exists d0. split; [done|by left]. }
  destruct d0 as [c|b|c]; destruct (p_phase p); try (rewrite Hp; exact Hsame).
  all: cbn [p_driver p_metrics with_driver]; intros [= <-].
  1-3: destruct Hok as (b & <- & Hi); pose proof (driver_connect_inv b bs (p_metrics p) Hi Hlen Hm) as H;
    destruct (driver_connect _ _) as [d m']; destruct H as (H1 & H2 & H3); split_and!; [done|done|]; eexists; split; [done|by left].
  all: pose proof (driver_pass_inv _ b bs _ (p_metrics p) Hok (node_chain_store _ _ _ Hn) Hint Hlen Hm) as H;
    destruct (driver_pass _ _ _ _) as [d m']; destruct H as (H1 & H2 & H3 & _); split_and!; [done|done|]; eexists; split; [done|exact H3].
Qed.

(** A record posted from the node's store carries the root of all its withdrawals. *)
Lemma grows_rooted n g bs recs recs' :
  node_inv g n bs → grows_by (store n) recs recs' →
  Forall (rooted (successful_withdrawals (store n) bs)) recs → Forall (rooted (successful_withdrawals (store n) bs)) recs'.
Proof.
  intros Hn [->|(rec & -> & Hrec)] H; [done|]. apply list.Forall_app. split; [done|]. constructor; [|constructor].
  eexists. split; [done|]. rewrite Hrec. by apply published_withdrawals with g, Hn.
Qed.

Lemma turn_inv p bs e :
  process_inv p bs → interval_ok p → clock_ok e → tip_slot (tip (p_node p)) + 10002 < 2 ^ 63 →
  ∃ bs', process_inv (step p e) bs'.
Proof.
  intros Hpi Hint Hclk Hb. pose proof Hpi as [Hc Hg Hk He Hr Hn Hlen Hd Hroots].
  destruct (turn_node p e) as (Hnode & Hc' & Hg' & Hk' & He' & Hsame); [done|unfold u64_max; lia|].
  assert (Hgrow : ∃ bs', bs `prefix_of` bs' ∧ (length bs' ≤ length bs + 1)%nat
                         ∧ node_inv (p_genesis p) (p_node (step p e)) bs'
                         ∧ reachable_as (p_keys p) (p_genesis p) (p_node (step p e))
                         ∧ successful_withdrawals (store (p_node p)) bs
                           `prefix_of` successful_withdrawals (store (p_node (step p e))) bs').
  { destruct Hnode as [->|Hs]; [exists bs; split_and!; [done|lia|done|done|done]|].
    assert (Hr' : reachable_as (p_keys p) (p_genesis p) (p_node (step p e))) by by eapply reach_step.
    assert (Hkept := step_kept _ _ _ _ bs _ Hn Hs). pose proof (co_store _ _ _ (ni_chain _ _ _ Hn)) as Hsc.
    apply (step_inv _ _ _ _ bs) in Hs as [Hi|[b Hi]]; [| |done].
    - exists bs. split_and!; [done|lia|done|done|]. rewrite <- (app_nil_r bs) at 2. by eapply withdrawals_grow.
    - exists (bs ++ [b]). split_and!; [by eexists|by rewrite length_app|done|done|by eapply withdrawals_grow]. }
  destruct Hgrow as (bs' & Hpre & Hlen' & Hn' & Hr' & Hws). exists bs'.
  rewrite (co_slot _ _ _ (ni_chain _ _ _ Hn)) in Hb.
  assert (Hold : ∀ d, p_driver (step p e) = Some d →
            driver_ok d bs ∧ metrics_ok (p_metrics (step p e)) (records_on (driver_client d)) bs
            ∧ Forall (rooted (successful_withdrawals (store (p_node p)) bs)) (records_on (driver_client d))).
  { intros d Hdr. assert (e = DriverTurn ∨ e ≠ DriverTurn) as [->|Hne] by (destruct e; first [by left|by right]).
    - destruct (driver_turn_inv p bs Hpi Hint d Hdr) as (Hok & Hm & d0 & Hd0 & Hgr).
      split_and!; [done|done|]. by eapply grows_rooted; [| |apply Hroots].
    - destruct (Hsame Hne) as [H1 H2]. rewrite H1 in Hdr. rewrite H2. destruct (Hd d Hdr) as [Hok Hm].
      split_and!; [done|done|by apply Hroots]. }
  split; rewrite ?Hc', ?Hg', ?Hk', ?He'; try done; [lia| |].
  - intros d (Hok & Hm & _)%Hold. split; [by eapply driver_grows|by eapply metrics_grow].
  - intros d (_ & _ & Hro)%Hold. by eapply rooted_grow.
Qed.

Lemma boot_inv_process opened connect now p st bs :
  boot opened connect now = Ok p → opened = Ok st →
  (∀ kp opts n, options_ok opts → new_node st (p_genesis p) kp [] opts now = Ok n →
     reachable_as (p_keys p) (p_genesis p) n ∧ node_inv (p_genesis p) n bs) →
  (∀ k s a, l1_enabled (Config.l1 (p_config p)) = true →
     (∃ b, client b = connect k s a ∧ batcher_inv b bs)
     ∧ Forall (rooted (successful_withdrawals (store (p_node p)) bs)) (records_on (connect k s a))) →
  Z.of_nat (length bs) + 10001 < 2 ^ 63 → process_inv p bs.
Proof.
  intros Hb -> Hnew Hcon Hlen. apply boot_loaded in Hb as (Hc & Hg & Hk & st' & kp & key & mint & [= <-] & _ & Hn & Hd & Hm & _).
  pose proof (proj2 (loaded_config _ _ Hc)) as Hcap.
  destruct (Hnew _ _ _ (booted_options _ key mint Hcap) Hn) as [Hr Hi].
  unfold optionally in Hd. destruct (l1_enabled (Config.l1 (p_config p))) eqn:Hen in Hd.
  - apply obind_Ok in Hd as (d & Hd & Hp). injection Hp as Hp. unfold spawn_driver in Hd.
    apply obind_Ok in Hd as (s & _ & Hd). apply obind_Ok in Hd as (a & _ & Hd). apply obind_Ok in Hd as (k & _ & [= <-]).
    destruct (Hcon k s a Hen) as [(b & Hb & Hbi) Hro].
    split; [exact Hc|exact Hg|exact Hk| |exact Hr|exact Hi|exact Hlen| |]; rewrite <- Hp.
    + rewrite Hen. split; [done|by eexists].
    + intros d' [= <-]. split; [by exists b|]. rewrite Hm. cbn [driver_client].
      split; [cbn; lia|]. split; [cbn; lia|]. intros x blk Hx Hblk. cbn in Hx. unfold blocks_at in Hblk.
      by rewrite decide_False in Hblk by lia.
    + by intros d' [= <-].
  - injection Hd as Hd. split; [exact Hc|exact Hg|exact Hk| |exact Hr|exact Hi|exact Hlen| |]; rewrite <- Hd; [|done|done].
    rewrite Hen. split; [by intros []|done].
Qed.

(** What others do on L1 keeps everything. *)
Lemma elsewhere_inv p bs c :
  process_inv p bs → (∀ d, p_driver p = Some d → others (driver_client d) c) → process_inv (on_l1 p c) bs.
Proof.
  intros Hpi Ho. unfold on_l1. destruct (p_driver p) as [d|] eqn:Hd; [|done].
  destruct (Ho d eq_refl) as (Hg & Hr & Hc). destruct Hpi as [H1 H2 H3 H4 H5 H6 H7 H8 H9].
  destruct (H8 d Hd) as [Hok Hm]. pose proof (H9 d Hd) as Hro. rewrite Hd in H4.
  split; cbn [p_config p_genesis p_keys p_node p_driver p_metrics with_driver]; try done.
  - rewrite <- H4. split; intros _; by eexists.
  - intros d' [= <-]. destruct d as [c0|b|c0]; cbn [set_client driver_ok driver_client with_client client] in *; rewrite Hr; (split; [|done]).
    + destruct Hok as (b & <- & Hi). exists (with_client b c). split; [done|by apply inv_client].
    + by apply inv_client.
    + destruct Hok as (b & <- & Hi). exists (with_client b c). split; [done|by apply inv_client].
  - intros d' [= <-]. destruct d; cbn [set_client driver_client with_client client] in *; by rewrite Hr.
Qed.

(** A configuration whose batches fit in one read of the store. *)
Definition bounded_batches : Prop :=
  ∀ c, load_config E (find_config (env_args E)) = Ok c → 0 ≤ batch_interval_slots (Config.l1 c) ≤ 10000.

Lemma process_invariant p : bounded_batches → process_reachable p → ∃ bs, process_inv p bs.
Proof.
  intros Hbat.
  induction 1 as [connect now p Hcon Hb|p e _ [bs IH] Hclk Hlt|p c _ [bs IH] Ho|p connect now p' _ [bs IH] Hcon Hb].
  - exists []. eapply boot_inv_process; [exact Hb|done| | |cbn; lia].
    + intros kp opts n Ho Hn. split; [by eapply reach_boot|by eapply boot_inv].
    + intros k s a _. destruct (Hcon k s a) as [Hg Hr]. rewrite Hr. split; [|constructor].
      eexists. split; [|by apply fresh_inv; [exact Hg|exact Hr|cbn]]. done.
  - eapply turn_inv; [exact IH| |done|done]. apply Hbat, IH.
  - exists bs. by apply elsewhere_inv.
  - exists bs. pose proof (boot_loaded _ _ _ _ Hb) as (Hc & Hg & Hk & _).
    assert (Heq : p_config p' = p_config p) by (pose proof (pi_config _ _ IH); congruence).
    assert (Heg : p_genesis p' = p_genesis p) by (pose proof (pi_genesis _ _ IH); congruence).
    assert (Hek : p_keys p' = p_keys p) by (pose proof (pi_keys _ _ IH); congruence).
    eapply boot_inv_process; [exact Hb|done| | |apply IH]; rewrite ?Hek, ?Heg, ?Heq.
    + intros kp opts n Ho Hn.
      assert (Hs : node_step (V := Groth16Verifier (p_keys p)) pool_error_text signed_transfer (p_genesis p) (p_node p) n)
        by by eapply step_restart.
      split; [by eapply reach_step; [apply IH|]|].
      destruct (new_node_ok _ _ _ _ _ _ _ Hn) as [Hkp Henv].
      destruct (restart_inv _ _ bs kp [] opts now (pi_node _ _ IH) Ho Hkp Henv) as (n1 & Hn1 & Hi & _).
      rewrite Hn in Hn1. by injection Hn1 as <-.
    + intros k s a Hen. apply (pi_enabled _ _ IH) in Hen as [d Hd]. rewrite (Hcon d Hd).
      split; [apply driver_ok_client, (pi_driver _ _ IH), Hd|].
      eapply rooted_grow; [|by apply (pi_roots _ _ IH)].
      rewrite <- (app_nil_r bs) at 2. eapply withdrawals_grow; [apply (pi_node _ _ IH)|].
      apply boot_loaded in Hb as (_ & _ & _ & st & kp & key & mint & [= <-] & _ & Hn & _).
      rewrite Heg in Hn.
      assert (Hs : node_step (V := Groth16Verifier (p_keys p)) pool_error_text signed_transfer (p_genesis p) (p_node p) (p_node p'))
        by (eapply step_restart; [apply booted_options; exact (proj2 (loaded_config _ _ Hc))|exact Hn]).
      exact (step_kept _ _ _ _ bs _ (pi_node _ _ IH) Hs).
Qed.

Lemma linked_numbered g bs prev : linked g prev 1 bs → numbered bs.
Proof.
  intros Hl s b. unfold blocks_at. case_decide; [|done]. intros Hb.
  rewrite (linked_slot g bs prev 1 _ _ Hl Hb). lia.
Qed.

(** C2: the batches on L1 are the node's own chain. In a process configured for at
    most 10000 slots a batch, in whatever order the producer, the RPC servers, the
    deposit watcher and the settlement driver take their turns (each turn as a
    whole), whatever others do on L1 in between, and however often the process is
    stopped and started again, the node's store holds one chain of linked and
    verified blocks, and the batch records on L1 are numbered without gaps and in
    the order of their slot ranges. Each commits by its hash to a payload with
    exactly the non-empty blocks of its range, all of whose chunks are on L1; no
    non-empty block up to the last settled slot is left out; and these payloads
    pass the checks the recovery makes of what it has reassembled. *)
Theorem process_settles_own_chain p :
  bounded_batches → process_reachable p →
  ∃ bs, stores_chain (store (p_node p)) bs
    ∧ linked (p_genesis p) (genesis_hash (p_genesis p)) 1 bs
    ∧ ∀ d, p_driver p = Some d → settled_on (driver_client d) bs.
Proof.
  intros Hbat Hr. destruct (process_invariant p Hbat Hr) as [bs Hi]. exists bs.
  pose proof (co_store _ _ _ (ni_chain _ _ _ (pi_node _ _ Hi))) as Hs.
  split_and!; [intros s; apply holds_get_block, Hs|apply Hs|].
  intros d Hd. destruct (driver_ok_client d bs) as (b & <- & Hb); [by apply (pi_driver _ _ Hi)|].
  apply inv_settled; [done|]. eapply linked_numbered, (sc_linked _ _ _ Hs).
Qed.

(** ** The metrics endpoint *)

(** A line of the text. *)
Definition exposes (text name value : string) : Prop :=
  ∃ pre post, text = pre +:+ newline +:+ name +:+ " " +:+ value +:+ newline +:+ post.

Lemma text_assoc (a b c : string) : a +:+ (b +:+ c) = (a +:+ b) +:+ c.
Proof. induction a as [|x a IH]; [done|]. exact (f_equal (String x) IH). Qed.

Lemma exposes_head name help kind value rest : exposes (metric name help kind value +:+ rest) name value.
Proof.
  unfold metric. exists ("# HELP " +:+ name +:+ " " +:+ help +:+ newline +:+ "# TYPE " +:+ name +:+ " " +:+ kind), rest.
  by rewrite <- !text_assoc.
Qed.

Lemma exposes_later m text name value : exposes text name value → exposes (m +:+ text) name value.
Proof. intros (pre & post & ->). exists (m +:+ pre), post. by rewrite text_assoc. Qed.

Lemma ordered_lookup recs : ∀ k lo i rec,
  ordered k lo recs → recs !! i = Some rec → r_batch_no rec = k + Z.of_nat i.
Proof.
  induction recs as [|r recs IH]; intros k lo [|i] rec Ho Hi; [done|done|..]; destruct Ho as (Hk & _ & Ho).
  - injection Hi as <-. lia.
  - rewrite (IH _ _ _ _ Ho Hi). lia.
Qed.

Lemma driver_follows p b :
  bounded_batches → process_reachable p → p_driver p = Some (Running b) → p_phase p ≠ Exited →
  let p' := step p DriverTurn in
  ∃ d', p_driver p' = Some d'
    ∧ gauges_follow b (p_metrics p) (p_metrics p') (records_on (client b)) (records_on (driver_client d')).
Proof.
  intros Hbat Hr Hd Hph p'. destruct (process_invariant p Hbat Hr) as [bs Hi].
  destruct (pi_driver _ _ Hi _ Hd) as [Hok Hm].
  pose proof (driver_pass_inv _ b bs _ (p_metrics p) Hok (node_chain_store _ _ _ (pi_node _ _ Hi))
    (Hbat _ (pi_config _ _ Hi)) (pi_len _ _ Hi) Hm) as H.
  assert (Hp' : p' = with_driver p (driver_pass (batch_interval_slots (Config.l1 (p_config p))) b (store (p_node p)) (p_metrics p)))
    by (unfold p'; cbn [Process.step]; rewrite Hd; by destruct (p_phase p)).
  rewrite Hp'. destruct (driver_pass _ _ _ _) as [d' m']. destruct H as (_ & _ & _ & H). exists d'. by split.
Qed.

(** C30: the gauges are true and follow the driver. In any reachable process
    configured for at most 10000 slots a batch, the endpoint answers with the
    node's slot, a batch number that is on L1 or -1, and a cursor such that every
    non-empty block below it is in a settled batch; it fails to answer only once a
    production attempt has panicked while it held the tip's lock. And each pass of
    a running driver moves the cursor gauge to the slot the pass starts from, and
    the batch gauge to the record it posts; the number of a record whose
    confirmation does not arrive is not shown, but the failure is counted. *)
Theorem metrics_truthful p d bs now :
  bounded_batches → process_reachable p → p_driver p = Some d → stores_chain (store (p_node p)) bs →
  match respond (p_node p) (p_metrics p) now "/metrics" with
  | Ok (status, text) =>
      let recs := records_on (driver_client d) in
      status = 200 ∧ ∃ no cursor,
        exposes text "zul_slot" (pretty (Z.of_nat (length bs)))
        ∧ exposes text "zul_l1_last_batch_no" (pretty no) ∧ exposes text "zul_l1_cursor_slot" (pretty cursor)
        ∧ (no = -1 ∨ ∃ rec, recs !! Z.to_nat no = Some rec ∧ r_batch_no rec = no)
        ∧ covered_below recs bs cursor
  | _ => tip_poisoned (p_node p) = true
  end
  ∧ ∀ b, d = Running b → p_phase p ≠ Exited →
      let p' := step p DriverTurn in
      ∃ d', p_driver p' = Some d'
        ∧ gauges_follow b (p_metrics p) (p_metrics p') (records_on (client b)) (records_on (driver_client d')).
Proof.
  intros Hbat Hr Hd Hbs. split; [|intros b -> Hph; by eapply driver_follows]. unfold respond, render, last_block_age_ms, is_healthy, last_block_age_ms, read_tip.
  rewrite decide_True by done. destruct (tip_poisoned (p_node p)); [done|]. cbn [obind].
  set (healthy := (if draining _ then _ else _)).
  assert (Hh : ∃ h, healthy = Ok h) by (unfold healthy; destruct (draining _); by eexists).
  destruct Hh as [h ->]. cbn [obind]. destruct (process_invariant p Hbat Hr) as [bs' Hi].
  pose proof (ni_chain _ _ _ (pi_node _ _ Hi)) as Hch.
  assert (bs' = bs) as -> by (eapply stores_chain_unique; [|exact Hbs]; intros s; apply holds_get_block, (co_store _ _ _ Hch)).
  destruct (pi_driver _ _ Hi d Hd) as [Hok (Hno & _ & Hcov)].
  apply driver_ok_client in Hok as (b & Hb & Hinv). split; [done|].
  exists (last_batch_no (p_metrics p)), (metric_cursor (p_metrics p)). rewrite (co_slot _ _ _ Hch).
  split_and!; [|repeat first [apply exposes_head|apply exposes_later]..| |done].
  - apply exposes_head.
  - destruct (decide (last_batch_no (p_metrics p) = -1)) as [|Hne]; [by left|right].
    destruct (lookup_lt_is_Some_2 (records_on (driver_client d)) (Z.to_nat (last_batch_no (p_metrics p)))) as [rec Hrec]; [lia|].
    exists rec. split; [done|]. pose proof (bi_ordered _ _ Hinv) as Ho. rewrite Hb in Ho.
    rewrite (ordered_lookup _ _ _ _ _ Ho Hrec). lia.
Qed.

(** ** Deployments without a faucet *)

Lemma run_config p es : p_config (run p es) = p_config p ∧ p_genesis (run p es) = p_genesis p.
Proof.
  revert p. induction es as [|e es IH]; intros p; [done|]. change (run p (e :: es)) with (run (step p e) es).
  destruct (IH (step p e)) as [-> ->].
  destruct e; cbn [Process.step]; by destruct (p_phase p); repeat case_match.
Qed.

(** C13: a mainnet node cannot give gas away. A process that starts at all on a
    mainnet configuration holds no faucet key, and whatever it goes through, a
    request for an airdrop is answered as an unknown method and changes nothing. *)
Theorem mainnet_has_no_faucet opened connect now p es clock raw :
  boot opened connect now = Ok p → network (Config.node (p_config p)) = Mainnet →
  faucet (options (p_node p)) = None
  ∧ call signed_transfer store_error_text node_error_text debug_error
      (faucet_enabled (Config.rpc (p_config (run p es)))) (p_node (run p es)) clock "requestAirdrop" raw
    = (p_node (run p es), Err method_not_found)
  ∧ p_node (step (run p es) (Request clock "requestAirdrop" raw)) = p_node (run p es).
Proof.
  intros Hb Hnet. apply boot_loaded in Hb as (Hc & _ & _ & st & kp & key & mint & _ & Hkey & Hn & _).
  apply loaded_config in Hc as [Hv _]. apply config_validate_spec in Hv as (_ & Hf & _).
  assert (Hoff : faucet_enabled (Config.rpc (p_config p)) = false).
  { destruct (faucet_enabled _); [|done]. destruct (Hf eq_refl) as [_ Ht]. congruence. }
  rewrite (proj1 (run_config p es)), Hoff. split_and!.
  - unfold load_faucet in Hkey. rewrite Hoff in Hkey. injection Hkey as <-.
    unfold new_node in Hn. destruct (decide _); [done|]. apply obind_Ok in Hn as (ex & _ & Hn). cbv zeta in Hn.
    apply obind_Ok in Hn as ([st1 r] & _ & Hn). apply obind_Ok in Hn as ([[q sl] bh] & _ & Hn).
    unfold rebuild_withdrawals in Hn. apply obind_Ok in Hn as (tree & _ & Hn). by injection Hn as <-.
  - apply no_airdrop.
  - cbn [Process.step]. rewrite (proj1 (run_config p es)), Hoff, no_airdrop. by destruct (p_phase _).
Qed.

(** ** Shutdown *)

Definition serving (ph : Phase) : bool := match ph with Up | Draining => true | _ => false end.

Lemma submit_draining n tx n' r : submit_transaction n tx = (n', r) → draining n' = draining n.
Proof.
  unfold submit_transaction. destruct (admit_tx n tx); [|by intros [= <- _]..].
  destruct (push (mempool n) tx) as [[mp sg]|[]|]; by intros [= <- _].
Qed.

Lemma produce_draining keys n now :
  draining (try_produce_block (V := Groth16Verifier keys) pool_error_text n now).1 = draining n.
Proof.
  unfold try_produce_block. destruct (drain _ _) as [mp txs]. destruct (tip_poisoned _); [done|].
  destruct (_ && _ && _); [done|].
  destruct (draft_block _ _ _ _ _) as [[d ls]| |]; cbn [obind]; [|done..].
  unfold commit_draft. destruct (seal_draft _ _ _) as [block update]. cbv zeta.
  destruct (commit_block _ _ _ _ _ _ _); cbn [map_err obind]; [|done..]. by destruct (publish_leaves _ _ _).
Qed.

(** Nothing undoes the drain. *)
Lemma turn_draining p e : draining (p_node p) = true → draining (p_node (step p e)) = true.
Proof.
  intros Hd. destruct e as [now|now name raw|w| | | |]; cbn [Process.step].
  - destruct (p_phase p); cbn [p_node with_node]; rewrite ?produce_draining; done.
  - assert (Hq : draining (call signed_transfer store_error_text node_error_text debug_error
                     (faucet_enabled (Config.rpc (p_config p))) (p_node p) now name raw).1 = true).
    { destruct (request_submits signed_transfer store_error_text node_error_text debug_error
        (faucet_enabled (Config.rpc (p_config p))) (p_node p) now name raw) as [->|[(tx & r & H)|(k & a & r & H)]]; [done|..].
      - by rewrite (submit_draining _ _ _ _ H).
      - apply airdrop_submits in H as [->|[tx H]]; [done|]. by rewrite (submit_draining _ _ _ _ H). }
    destruct (p_phase p); [exact Hq..|done].
  - destruct (p_phase p), (p_watcher p) as [cl|]; try done;
      cbn [p_node with_node]; by destruct (watch_cases cl w (p_node p)) as [->|[ds ->]].
  - by destruct (p_phase p), (p_driver p) as [[| |]|].
  - by destruct (p_phase p).
  - by destruct (p_phase p).
  - by destruct (p_phase p).
Qed.

Lemma run_draining p es : draining (p_node p) = true → draining (p_node (run p es)) = true.
Proof.
  revert p. induction es as [|e es IH]; intros p Hd; [done|].
  apply (IH (step p e)), turn_draining, Hd.
Qed.

(** Once the producer has returned the chain is left alone. *)
Lemma turn_quiet p e :
  serving (p_phase p) = false →
  store (p_node (step p e)) = store (p_node p) ∧ tip (p_node (step p e)) = tip (p_node p)
  ∧ serving (p_phase (step p e)) = false.
Proof.
  intros Hs. destruct e as [now|now name raw|w| | | |]; cbn [Process.step]; destruct (p_phase p) eqn:Hp; try done;
    rewrite ?Hp; try done.
  - cbn [with_node p_node p_phase]. rewrite Hp.
    destruct (request_quiet signed_transfer store_error_text node_error_text debug_error
      (faucet_enabled (Config.rpc (p_config p))) (p_node p) now name raw) as (-> & -> & _). done.
  - destruct (p_watcher p) as [cl|]; [|by rewrite Hp]. cbn [with_node p_node p_phase]. rewrite Hp.
    by destruct (watch_cases cl w (p_node p)) as [->|[ds ->]].
  - destruct (p_driver p) as [[| |]|]; cbn [with_driver p_node p_phase]; by rewrite Hp.
Qed.
Definition progress (ph : Phase) : nat := match ph with Up => 0 | Draining => 1 | Drained => 2 | Exited => 3 end.

Lemma turn_progress p e :
  (progress (p_phase p) ≤ progress (p_phase (step p e)))%nat
  ∧ (e = Terminate → 1 ≤ progress (p_phase (step p e)))%nat
  ∧ (e = ProducerReturns → progress (p_phase p) ≠ 0 → 2 ≤ progress (p_phase (step p e)))%nat
  ∧ (e = ServersStop → 2 ≤ progress (p_phase p) → 3 ≤ progress (p_phase (step p e)))%nat.
Proof.
  destruct e; cbn [Process.step]; destruct (p_phase p) eqn:Hp; cbn [with_node with_phase p_phase]; rewrite ?Hp;
    repeat case_match; cbn [with_node with_driver p_phase]; rewrite ?Hp; cbn; split_and!; try done; lia.
Qed.

Lemma run_progress p es : (progress (p_phase p) ≤ progress (p_phase (run p es)))%nat.
Proof.
  revert p. induction es as [|e es IH]; intros p; [done|]. specialize (IH (step p e)).
  pose proof (proj1 (turn_progress p e)). cbn [Process.run fold_left] in *. unfold Process.run in IH. lia.
Qed.

Lemma run_app p es es' : run p (es ++ es') = run (run p es) es'.
Proof. unfold Process.run. apply fold_left_app. Qed.

Lemma run_cons p e es : run p (e :: es) = run (step p e) es.
Proof. done. Qed.

(** C38: shutdown. From the signal on the health endpoint answers 503, whatever
    else happens; once the producer has returned, neither the store nor the tip
    changes again; and the signal, the producer's return and the stop of the
    servers, in this order among any other turns, end the process. *)
Theorem shutdown_drains p es1 es2 es3 es4 :
  let signalled := run p (es1 ++ [Terminate]) in
  let drained := run signalled (es2 ++ [ProducerReturns]) in
  let stopped := run drained (es3 ++ [ServersStop]) in
  (p_phase (run p es1) = Up →
   ∀ es now, let q := run signalled es in
     respond (p_node q) (p_metrics q) now "/health" = Ok (503, "unhealthy" +:+ newline))
  ∧ (∀ es, store (p_node (run drained es)) = store (p_node drained)
           ∧ tip (p_node (run drained es)) = tip (p_node drained))
  ∧ p_phase stopped = Exited ∧ run stopped es4 = stopped.
Proof.
  intros signalled drained stopped.
  assert (H1 : (1 ≤ progress (p_phase signalled))%nat).
  { unfold signalled. rewrite run_app, run_cons. apply turn_progress. done. }
  assert (H2 : (2 ≤ progress (p_phase drained))%nat).
  { unfold drained. rewrite run_app, run_cons. apply turn_progress; [done|].
    pose proof (run_progress signalled es2). lia. }
  assert (H3 : (3 ≤ progress (p_phase stopped))%nat).
  { unfold stopped. rewrite run_app, run_cons. apply turn_progress; [done|].
    pose proof (run_progress drained es3). lia. }
  assert (Hex : p_phase stopped = Exited) by (clear -H3; destruct (p_phase stopped); cbn in H3; [lia..|done]).
  split_and!; [| |done|].
  - intros Hup es now q.
    assert (Hd : draining (p_node q) = true).
    { apply run_draining. unfold signalled. rewrite run_app, run_cons. cbn [Process.run fold_left Process.step]. by rewrite Hup. }
    unfold respond, is_healthy. by rewrite Hd.
  - assert (Hs : serving (p_phase drained) = false) by (clear -H2; destruct (p_phase drained); cbn in H2; [lia..|done|done]).
    clearbody drained. clear -Hs. intros es. revert drained Hs. induction es as [|e es IH]; intros q Hs; [done|].
    rewrite run_cons. destruct (turn_quiet q e Hs) as (H1 & H2 & H3). destruct (IH _ H3) as [-> ->]. by split.
  - clearbody stopped. clear -Hex. revert stopped Hex. induction es4 as [|e es IH]; intros q Hq; [done|].
    rewrite run_cons. assert (step q e = q) as -> by (destruct e; cbn [Process.step]; by rewrite Hq). by apply IH.
Qed.
End Properties.

(** ** Witnesses: a mainnet configuration over the L1 of [BatcherL1] *)

Module Example.
Import NodeChain.Example.
#[local] Existing Instances Toy.blake3_toy Toy.ed25519_toy Toy.solana_toy poseidon_toy.
#[local] Existing Instances ExecToy.ids_toy ExecToy.svm_toy WrappedSpl.Example.addresses_toy.
#[local] Existing Instances StoreToy.account_codec StoreToy.block_codec StoreToy.locator_codec.
#[local] Existing Instances StoreToy.meta_codec StoreToy.queue_codec.
#[local] Existing Instances header_codec tx_codec state_codec instruction_codec clock_codec rent_codec.
#[local] Existing Instances schedule_codec entries_codec RpcProps.Example.text_id RpcProps.Example.rent_table.
#[local] Existing Instances Groth16.Example.bn_toy Settlement.Example.runtime_toy.
#[local] Existing Instances L1RpcProps.Example.zstd_toy L1RpcProps.Example.payload_codec L1RpcProps.Example.sha_toy.
#[local] Existing Instances L1RpcProps.Example.rpc_toy.
#[local] Instance l1_client : L1Client L1World := world_client (pk 8).
#[local] Instance l1_laws : L1ClientLaws L1World := world_laws (pk 8).

Definition cfg : NodeConfig :=
  {| Config.node := {| network := Mainnet; data_dir := bstr "./data"; genesis_path := bstr "genesis";
                       sequencer_key_path := bstr "key"; slot_duration_ms := 400; heartbeat_ms := 10000;
                       Config.mempool_capacity := 100; max_per_payer := 8 |};
     Config.rpc := {| http_addr := []; ws_addr := []; faucet_enabled := false; Config.faucet_max_lamports := 0;
                      faucet_key_path := None; metrics_addr := Some [] |};
     Config.l1 := {| l1_enabled := true; rpc_url := bstr "http://l1"; settlement_program_id := pk 20;
                     da_log_program_id := pk 21; bridge_authority_key_path := bstr "key";
                     batch_interval_slots := 2; gas_mint := [] |} |}.

#[local] Instance parsers : Parsers.
Proof.
  refine {| toml_config _ := Some cfg; toml_genesis _ := Some g; json_bytes := Some; keypair_of_bytes _ := Some (pk 8) |}.
  intros raw c [= <-]. unfold u64_max. cbn. lia.
Defined.

Definition env : Environment :=
  {| env_args := [bstr "--config"; bstr "node.toml"]; read_file _ := None; read_text := Some; can_bind _ := true |}.
Definition text {A} (_ : A) : bytes := [].
Definition connect (k : Keypair) (s a : Pubkey) : L1World := BatcherL1.Example.w0.

Lemma config_loads : load_config env (find_config (env_args env)) = Ok cfg.
Proof. vm_compute. reflexivity. Qed.

Lemma genesis_loads : load_genesis env (genesis_path (Config.node cfg)) = Ok g.
Proof. vm_compute. reflexivity. Qed.

(** Boot on a fresh store, with whatever client. *)
Lemma booted_on {C : Type} (w : C) : ∃ p : Process (C := C),
  boot (pk 99) env (Ok open_store) (λ _ _ _, w) 0 = Ok p
  ∧ p_config p = cfg ∧ p_driver p = Some (Connecting w)
  ∧ fresh g [] (node_options cfg None None) 0 (p_node p)
  ∧ p_watcher p = Some (new_client (pk 99) (pk 20) (pk 21)).
Proof.
  assert (Ho : options_ok (node_options cfg None None)) by (apply booted_options; unfold u64_max; cbn; lia).
  assert (Hb : ∃ n, node_reachable (V := accept_all) error_text transfer_toy g n
                    ∧ new_node open_store g (pk 8) [] (node_options cfg None None) 0 = Ok n
                    ∧ fresh g [] (node_options cfg None None) 0 n)
    by exact (boot_reachable (V := accept_all) error_text transfer_toy g (pk 8) [] _ 0 Ho eq_refl eq_refl).
  destruct Hb as (n & _ & Hn & Hf). eexists. unfold boot. rewrite config_loads. cbn [obind].
  rewrite genesis_loads. cbn [obind]. cbv zeta.
  change (load_keypair env _) with (Ok (E := BootError) (pk 8)). cbn [obind].
  change (load_faucet env _) with (Ok (E := BootError) (None (A := Keypair))). cbn [obind].
  change (parse_gas_mint _) with (Ok (E := BootError) (None (A := Pubkey))). cbn [obind map_err].
  match goal with |- context [map_err BootNode ?r] => replace r with (Ok (E := NodeError) n) by exact (eq_sym Hn) end.
  cbn [obind map_err]. split; [reflexivity|]. split; [reflexivity|]. split; [reflexivity|].
  split; [exact Hf|reflexivity].
Qed.

Lemma booted : ∃ p : Process (C := L1World),
  boot (pk 99) env (Ok open_store) connect 0 = Ok p
  ∧ p_config p = cfg ∧ p_driver p = Some (Connecting BatcherL1.Example.w0)
  ∧ tip_poisoned (p_node p) = false.
Proof.
  destruct (booted_on BatcherL1.Example.w0) as (p & Hb & Hc & Hd & Hf & _). exists p.
  split; [exact Hb|]. split; [exact Hc|]. split; [exact Hd|exact (fr_lock _ _ _ _ _ Hf)].
Qed.

Lemma batches_bounded : bounded_batches env.
Proof. intros c. rewrite config_loads. intros [= <-]. cbn. lia. Qed.

Lemma settlement_empty k s a : good (connect k s a) ∧ records_on (connect k s a) = [].
Proof. split; [|reflexivity]. exists [], []. apply l1_reach_inv, reach_start; [done|apply map_Forall_empty]. Qed.

Abbreviation reachable := (process_reachable error_text transfer_toy text text text (pk 99) env).

Definition raw_wtx : option Value := Some (JArr [JStr (b58_encode (serialize wtx))]).
Definition mempool_of (m : Mempool) : Mempool := match push m wtx with Ok (m', _) => m' | _ => m end.
Definition empty_mempool : Mempool := new_mempool 100 8.

Lemma wtx_taken : push empty_mempool wtx = Ok (mempool_of empty_mempool, le_bytes 64 77)
  ∧ (drain (mempool_of empty_mempool) 1024).2 = [wtx].
Proof.
  split.
  - vm_cast_no_check (@eq_refl (outcome MempoolError (Mempool * Signature)) (Ok (mempool_of empty_mempool, le_bytes 64 77))).
  - vm_cast_no_check (@eq_refl (list VersionedTransaction) [wtx]).
Qed.

Abbreviation step := (Process.step (W := (L1State * list LogTx)%type) error_text transfer_toy text text text).

(** A process that has started, received a withdrawal over RPC and put it in a
    block, while its driver has connected to L1. *)
Lemma working : ∃ (p : Process (C := L1World)) d b, reachable p ∧ p_driver p = Some d ∧ p_phase p = Up
  ∧ tip_poisoned (p_node p) = false ∧ tip_slot (tip (p_node p)) = 1
  ∧ stores_chain (store (p_node p)) [b] ∧ transactions b = [wtx] ∧ d = Running BatcherL1.Example.b0.
Proof.
  destruct (booted_on BatcherL1.Example.w0) as (p0 & Hb & Hc & Hd & Hf & _).
  assert (Hr0 : reachable p0) by exact (process_first _ _ _ _ _ _ _ connect 0 p0 settlement_empty Hb).
  assert (Hup : p_phase p0 = Up) by (apply boot_loaded in Hb as (_ & _ & _ & st & kp & key & mint & _ & _ & _ & _ & _ & Hp); exact Hp).
  destruct wtx_taken as [Hpush Hdrain].
  set (n1 := with_queues (p_node p0) (mempool_of empty_mempool) (pending_deposits (p_node p0))).
  set (p1 := step p0 (Request 0 "sendTransaction" raw_wtx)).
  assert (H1 : p1 = with_node p0 n1).
  { unfold p1, raw_wtx. cbn [Process.step]. rewrite Hup.
    rewrite (proj1 (transaction_text_roundtrip transfer_toy text text text (faucet_enabled (Config.rpc (p_config p0))) (p_node p0) 0 wtx)).
    unfold submitted_as, submit_transaction. rewrite (wtx_admitted _ _ _ _ Hf), (fr_mempool _ _ _ _ _ Hf).
    change (new_mempool _ _) with empty_mempool. rewrite Hpush. reflexivity. }
  assert (Hr1 : reachable p1) by (apply process_turn; [exact Hr0|exact I|rewrite (fr_slot _ _ _ _ _ Hf); lia]).
  destruct (process_invariant error_text transfer_toy text text text (pk 99) env p1 batches_bounded Hr1) as [bs1 Hi1].
  pose proof (pi_reachable _ _ _ _ _ Hi1) as Hn1. rewrite H1 in Hn1. cbn [with_node p_node p_keys p_genesis] in Hn1.
  destruct (record_withdrawal (V := Groth16Verifier (p_keys p0)) error_text transfer_toy (p_genesis p0) n1
    (drain (mempool_of empty_mempool) 1024).1 wtx wd (new_system 1000000) 9) as (n2 & bs & ws & Hprod & _ & Hbs & _ & bs0 & b & Hb0 & Hlen & Htx).
  { exact Hn1. } { exact (fr_lock _ _ _ _ _ Hf). } { unfold u64, u64_max; lia. }
  { change (tip n1) with (tip (p_node p0)). rewrite (fr_slot _ _ _ _ _ Hf). unfold u64_max. lia. }
  { unfold n1. cbn [with_queues mempool options]. rewrite (fr_options _ _ _ _ _ Hf), <- Hdrain. apply surjective_pairing. }
  { exact (fr_deposits _ _ _ _ _ Hf). } { exact wtx_parses. } { reflexivity. } { reflexivity. } { vm_compute. discriminate. }
  { change (store n1) with (store (p_node p0)). unfold get_account. rewrite (fr_accounts _ _ _ _ _ Hf). exact payer_account. }
  { vm_compute. discriminate. }
  change (tip n1) with (tip (p_node p0)) in *. rewrite (fr_slot _ _ _ _ _ Hf) in Hlen, Hprod.
  set (p2 := step p1 (Tick 9)).
  assert (H2 : p2 = with_node p0 n2).
  { unfold p2. rewrite H1. cbn [Process.step with_node p_phase]. rewrite Hup. cbn [p_node p_keys].
    exact (f_equal (λ r, with_node (with_node p0 n1) r.1) Hprod). }
  assert (Hr2 : reachable p2).
  { apply process_turn; [exact Hr1|cbn; unfold u64, u64_max; lia|]. rewrite H1. cbn [with_node p_node].
    change (tip n1) with (tip (p_node p0)). rewrite (fr_slot _ _ _ _ _ Hf). lia. }
  destruct (produce_registers _ _ _ _ _ Hprod) as (_ & Hlock2 & Hslot).
  exists (step p2 DriverTurn), (Running BatcherL1.Example.b0), b.
  assert (Hr3 : reachable (step p2 DriverTurn)).
  { apply process_turn; [exact Hr2|exact I|]. rewrite H2. cbn [with_node p_node]. rewrite Hslot. lia. }
  split; [exact Hr3|]. rewrite H2. cbn [Process.step with_node p_phase p_driver]. rewrite Hup, Hd.
  cbn [with_driver p_driver p_phase p_node].
  split; [reflexivity|]. split; [exact Hup|]. split; [exact Hlock2|]. split; [exact Hslot|].
  split; [|split; [exact Htx|reflexivity]]. destruct bs0; [|cbn in Hlen; lia]. cbn [app] in Hb0. by rewrite <- Hb0.
Qed.

Lemma process_settles_own_chain_witness :
  ∃ p d b, reachable p ∧ p_driver p = Some d ∧ stores_chain (store (p_node p)) [b] ∧ transactions b = [wtx]
    ∧ settled_on (driver_client d) [b].
Proof.
  destruct working as (p0 & d0 & b & Hr0 & Hd0 & Hup & Hlock & Hslot & Hbs & Htx & ->).
  assert (Hr : reachable (step p0 DriverTurn)) by (apply process_turn; [exact Hr0|exact I|rewrite Hslot; lia]).
  assert (Hd : ∃ d, p_driver (step p0 DriverTurn) = Some d)
    by (cbn [Process.step]; rewrite Hup, Hd0; eexists; reflexivity).
  assert (Hnode : p_node (step p0 DriverTurn) = p_node p0) by (cbn [Process.step]; rewrite Hup, Hd0; reflexivity).
  destruct Hd as [d Hd]. exists (step p0 DriverTurn), d, b. split; [exact Hr|]. split; [exact Hd|].
  rewrite Hnode. split; [exact Hbs|]. split; [exact Htx|].
  destruct (process_settles_own_chain error_text transfer_toy text text text (pk 99) env (step p0 DriverTurn) batches_bounded Hr)
    as (bs & Hbs' & _ & Hs).
  rewrite Hnode in Hbs'. rewrite (stores_chain_unique _ _ _ Hbs Hbs'). exact (Hs d Hd).
Defined.

Lemma metrics_truthful_witness :
  ∃ p status txt (no : Z), reachable p ∧ respond (p_node p) (p_metrics p) 5 "/metrics" = Ok (status, txt)
    ∧ exposes txt "zul_slot" "1" ∧ exposes txt "zul_l1_last_batch_no" (pretty no)
    ∧ metric_cursor (p_metrics (step p DriverTurn)) = 1.
Proof.
  destruct working as (p & d & b & Hr & Hd & Hup & Hlock & Hslot & Hbs & Htx & ->). exists p.
  destruct (metrics_truthful error_text transfer_toy text text text (pk 99) env p _ [b] 5 batches_bounded Hr Hd Hbs) as [H Hf].
  destruct (respond (p_node p) (p_metrics p) 5 "/metrics") as [[status txt]|e|];
    [|rewrite Hlock in H; discriminate H..].
  destruct H as (_ & no & cursor & Hs & Hno & _). exists status, txt, no.
  split; [exact Hr|]. split; [reflexivity|]. split; [exact Hs|]. split; [exact Hno|].
  destruct (Hf _ eq_refl) as (d' & _ & Hcur & _); [rewrite Hup; discriminate|]. rewrite Hcur. reflexivity.
Defined.

Lemma mainnet_has_no_faucet_witness :
  ∃ p, boot (pk 99) env (Ok open_store) connect 0 = Ok p ∧ network (Config.node (p_config p)) = Mainnet
    ∧ faucet (options (p_node p)) = None.
Proof.
  destruct booted as (p & Hb & Hc & Hd & Hlock). exists p.
  assert (Hm : network (Config.node (p_config p)) = Mainnet) by (rewrite Hc; reflexivity).
  split; [exact Hb|]. split; [exact Hm|].
  exact (proj1 (mainnet_has_no_faucet error_text transfer_toy text text text (pk 99) env (Ok open_store) connect 0 p [] 0 None Hb Hm)).
Defined.

Lemma shutdown_drains_witness :
  ∃ p, p_phase p = Up
    ∧ let q := run error_text transfer_toy text text text p [Terminate; Tick 5; ProducerReturns; DriverTurn; ServersStop] in
      p_phase q = Exited ∧ respond (p_node q) (p_metrics q) 5 "/health" = Ok (503, "unhealthy" +:+ newline).
Proof.
  destruct booted as (p & Hb & _). exists p. apply boot_loaded in Hb as (_ & _ & _ & st & kp & key & mint & _ & _ & _ & _ & _ & Hp).
  split; [exact Hp|].
  destruct (shutdown_drains error_text transfer_toy text text text p [] [Tick 5] [DriverTurn] []) as (Hh & _ & Hx & _).
  split; [exact Hx|]. exact (Hh Hp [Tick 5; ProducerReturns; DriverTurn; ServersStop] 5).
Defined.
End Example.
