(* ===== verification/BridgeProps.v ===== *)
(** * The whole bridge

    The node process of [Process] over the RPC client, the programs and the faulty
    network of [L1Stack], while anyone else sends whatever transactions they like
    to the same ledger. The theorem closes the circle between the two chains: the
    settlement program only ever pays withdrawals that this process's own chain
    burned, and never more of an asset than was burned. *)

From S2P Require Import Prelude External Json Hash Paths Genesis Config Account Block Smt SmtFacts SmtProps Queue Store StoreProps WrappedSpl Field PoolState PoolProcessor Groth16 PoolService Mempool NodeBridge Executor NodeLedger Node NodeChain Settlement Recover Batcher L1Rpc L1RpcProps L1Transport Entry BatcherL1 L1Stack RpcServer Process ProcessProps.

(** ** Sums over payouts and withdrawals *)

Definition paid_in (asset : Pubkey) (ps : list Payout) : Z :=
  sum_z (λ p, if decide (po_asset p = asset) then po_amount p else 0) ps.

Section Sums.
Context `{TX : SolanaTx}.

Definition burned_in (asset : Pubkey) (ws : list WithdrawTx) : Z :=
  sum_z (λ w, if decide (w_asset_id w = asset) then w_amount w else 0) ws.

(** The withdrawal a payout pays. *)
Definition pays (w : WithdrawTx) (p : Payout) : Prop :=
  w_recipient w = po_recipient p ∧ w_asset_id w = po_asset p ∧ w_amount w = po_amount p ∧ w_nonce w = po_nonce p.

Lemma burned_perm asset ws ws' : ws ≡ₚ ws' → burned_in asset ws = burned_in asset ws'.
Proof. unfold burned_in, sum_z. induction 1; cbn in *; lia. Qed.

Lemma burned_nonneg asset ws : Forall withdraw_wf ws → 0 ≤ burned_in asset ws.
Proof.
  unfold burned_in, sum_z. induction 1 as [|w ws (_ & _ & Hm & _) _ IH]; [done|]. cbn in *. unfold u64 in Hm. case_decide; lia.
Qed.

(** Payouts of different withdrawals pay no more than the withdrawals. *)
Lemma paid_bounded asset ps : ∀ ws,
  NoDup (po_key <$> ps) → Forall withdraw_wf ws → Forall (λ p, ∃ w, w ∈ ws ∧ pays w p) ps →
  paid_in asset ps ≤ burned_in asset ws.
Proof.
  induction ps as [|p ps IH]; intros ws Hnd Hwf Hall; [by apply burned_nonneg|].
  rewrite fmap_cons, list.NoDup_cons in Hnd. destruct Hnd as [Hp Hnd].
  apply list.Forall_cons in Hall as [(w & Hw & Hr & Ha & Hm & Hn) Hall].
  apply elem_of_Permutation in Hw as [ws' Hperm]. rewrite (burned_perm _ _ _ Hperm).
  rewrite Hperm in Hwf. apply list.Forall_cons in Hwf as [_ Hwf].
  assert (Hrest : paid_in asset ps ≤ burned_in asset ws').
  { apply IH; [done|done|]. rewrite list.Forall_forall in Hall |- *. intros p' Hp'.
    destruct (Hall p' Hp') as (w' & Hw' & Hpays). exists w'. split; [|done].
    rewrite Hperm, elem_of_cons in Hw'. destruct Hw' as [->|]; [|done]. exfalso. apply Hp.
    destruct Hpays as (Hr' & _ & _ & Hn'). apply list_elem_of_fmap. exists p'. split; [|done].
    unfold po_key. congruence. }
  unfold paid_in, burned_in, sum_z in *. cbn. rewrite Ha, Hm. lia.
Qed.
End Sums.

(** ** Anyone else *)

(** The authority did not sign the instruction. *)
Definition unsigned (authority : Pubkey) (ix : Instruction) : Prop :=
  Forall (λ m, am_pubkey m = authority → am_signer m = false) (i_accounts ix).

Section Strangers.
Context `{B3 : Blake3} `{TX : SolanaTx} `{SA : SolanaAddresses} `{S2 : Sha256} `{RT : L1Runtime}.
Context {W : Type} `{RPC : !JsonRpc W}.
Context (empties : list H256) (program da_program : Pubkey) (mint_program : Pubkey → Pubkey) (bump0 vault_bump0 : Z).
Context (authority : Pubkey).

(** The config account is the authority's. *)
Definition owned_by (s : L1State) : Prop := ∃ c, l1_config s = Some c ∧ cfg_authority c = authority.

(** What the posted batches are read from is as it was. *)
Definition same_batches (s s' : L1State) : Prop :=
  batches s' = batches s
  ∧ ((λ c, (cfg_authority c, batch_count c)) <$> l1_config s') = ((λ c, (cfg_authority c, batch_count c)) <$> l1_config s).

Lemma same_batches_trans s1 s2 s3 : same_batches s1 s2 → same_batches s2 s3 → same_batches s1 s3.
Proof. intros [H1 H2] [H3 H4]. split; congruence. Qed.

Lemma same_owned s s' : same_batches s s' → owned_by s → owned_by s'.
Proof.
  intros [_ H] (c & Hc & Ha). rewrite Hc in H. destruct (l1_config s') as [c'|] eqn:Hc'; [|done].
  cbn in H. injection H as H _. exists c'. split; [done|congruence].
Qed.

Lemma same_records s s' : same_batches s s' → settled_records s' = settled_records s.
Proof.
  intros [Hb Hc]. unfold settled_records, count_on. rewrite Hb.
  assert (He : (batch_count <$> l1_config s') = (batch_count <$> l1_config s)).
  { destruct (l1_config s), (l1_config s'); cbn in *; congruence. }
  by rewrite He.
Qed.

Lemma same_typed s s' : same_batches s s' → typed_state s → typed_state s'.
Proof.
  intros [Hb Hc] [H1 H2]. split; [|by rewrite Hb]. intros c Hs. rewrite Hs in Hc.
  destruct (l1_config s) as [c0|]; [|done]. cbn in Hc. injection Hc as Ha Hn. destruct (H1 c0 eq_refl) as [Hl Hu].
  split; congruence.
Qed.

Lemma checked_signer sls ms k sl :
  check_accounts sls ms = Ok () → sls !! k = Some sl → sl_signer sl = true →
  ∃ m, ms !! k = Some m ∧ am_signer m = true.
Proof.
  revert ms k. induction sls as [|sl' sls IH]; intros [|m ms] [|k] Hc Hk Hs; try done; cbn [check_accounts lookup list_lookup] in *.
  - destruct (slot_ok sl' m) eqn:Hok; [|done]. injection Hk as ->. exists m. split; [done|].
    unfold slot_ok in Hok. rewrite Hs in Hok. by apply andb_prop in Hok as [_ ?].
  - destruct (slot_ok sl' m); [|done]. by apply IH.
Qed.

Lemma signer_differs ix sls k sl a :
  unsigned authority ix → check_accounts sls (i_accounts ix) = Ok () → sls !! k = Some sl → sl_signer sl = true →
  account_key ix k = Ok a → a ≠ authority.
Proof.
  intros Hu Hc Hk Hs Ha ->. destruct (checked_signer _ _ _ _ Hc Hk Hs) as (m & Hm & Hsig).
  unfold account_key in Ha. rewrite Hm in Ha. injection Ha as Ha.
  pose proof (Forall_lookup_1 _ _ _ _ Hu Hm Ha). congruence.
Qed.

Lemma deposit_sol_same s a amount r s' : deposit_sol s a amount r = Ok s' → same_batches s s'.
Proof.
  unfold deposit_sol. intros (c & Hc%ok_or_Ok & H)%obind_Ok. destruct (decide _) in H; [done|].
  destruct (negb _) in H; [done|]. apply obind_Ok in H as (? & _ & H). apply obind_Ok in H as (? & _ & [= <-]).
  split; [done|]. cbn. by rewrite Hc.
Qed.

Lemma deposit_spl_same s a mint amount r s' : deposit_spl s a mint amount r = Ok s' → same_batches s s'.
Proof.
  unfold deposit_spl. intros H. repeat match type of H with
    | obind _ _ = Ok _ => apply obind_Ok in H as (? & _ & H)
    | (if ?b then _ else _) = Ok _ => destruct b; [done|]
    | Ok _ = Ok _ => injection H as <-
    end; try done.
Qed.

Lemma claim_same s r now no amount nonce proof s' :
  claim_withdrawal empties s r now no amount nonce proof = Ok s' → same_batches s s'.
Proof.
  unfold claim_withdrawal. intros (? & _ & H)%obind_Ok. apply obind_Ok in H as (? & _ & H).
  destruct (negb _) in H; [done|]. by injection H as <-.
Qed.

Lemma claim_spl_same s r mint now no amount nonce proof s' :
  claim_withdrawal_spl empties s r mint now no amount nonce proof = Ok s' → same_batches s s'.
Proof.
  unfold claim_withdrawal_spl. intros (? & _ & H)%obind_Ok. destruct (negb _) in H; [done|].
  apply obind_Ok in H as (? & _ & [= <-]). done.
Qed.

(** Without the authority's signature no instruction touches the batches. *)
Lemma stranger_call s now ix s' :
  owned_by s → unsigned authority ix →
  zul_settlement empties program mint_program bump0 vault_bump0 s now ix = Ok s' → same_batches s s'.
Proof.
  intros (c & Hc & Ha) Hu. unfold zul_settlement.
  repeat match goal with |- context [decide ?Q] => destruct (decide Q) as [_|_] end; [..|done].
  - intros (? & _ & H)%obind_Ok. apply obind_Ok in H as (a & _ & H%handled_Ok). unfold initialize in H. by rewrite Hc in H.
  - intros (r & _ & H)%obind_Ok. apply obind_Ok in H as ([] & Hk & H). apply obind_Ok in H as (a & Hkey & H%handled_Ok).
    assert (Hne : a ≠ authority) by exact (signer_differs ix _ 2 signer_mut a Hu Hk eq_refl eq_refl Hkey).
    unfold post_batch in H. rewrite Hc in H. cbn [ok_or obind] in H. destruct (decide _) in H; [done|].
    by rewrite decide_True in H by congruence.
  - intros ([amount r] & _ & H)%obind_Ok. apply obind_Ok in H as (? & _ & H).
    apply obind_Ok in H as (a & _ & H%handled_Ok). by eapply deposit_sol_same.
  - intros ([amount r] & _ & H)%obind_Ok. do 5 apply obind_Ok in H as (? & _ & H). apply handled_Ok in H.
    by eapply deposit_spl_same.
  - intros ([[[no amount] nonce] proof] & _ & H)%obind_Ok. do 5 apply obind_Ok in H as (? & _ & H). apply handled_Ok in H.
    by eapply claim_spl_same.
  - intros ([[[no amount] nonce] proof] & _ & H)%obind_Ok. do 2 apply obind_Ok in H as (? & _ & H). apply handled_Ok in H.
    by eapply claim_same.
Qed.

Lemma stranger_transaction now ixs : ∀ l l',
  owned_by l.1 → Forall (unsigned authority) ixs →
  run_transaction empties program da_program mint_program bump0 vault_bump0 now l ixs = Ok l' →
  same_batches l.1 l'.1 ∧ l.2 `prefix_of` l'.2.
Proof.
  induction ixs as [|ix ixs IH]; intros l l' Ho Hu; cbn [run_transaction ofold]; [by intros [= <-]|].
  apply list.Forall_cons in Hu as [Hix Hu]. intros (l1 & H1 & H)%obind_Ok.
  assert (Hstep : same_batches l.1 l1.1 ∧ l.2 `prefix_of` l1.2).
  { unfold run_instruction in H1. case_decide; [|case_decide; [|case_decide; [|done]]].
    - apply obind_Ok in H1 as (s & Hs & [= <-]). split; [by eapply stranger_call|done].
    - apply obind_Ok in H1 as (c & _ & [= <-]). split; [done|by eexists].
    - by injection H1 as <-. }
  destruct Hstep as [Hs Hp]. destruct (IH l1 l') as [Hs' Hp']; [by eapply same_owned|done|done|].
  split; [by eapply same_batches_trans|by etrans].
Qed.
End Strangers.

Section Bridge.
Context `{B3 : Blake3} `{ED : Ed25519} `{TX : SolanaTx} `{SA : SolanaAddresses} `{P : Poseidon}.
Context `{BN : Bn254} `{SVM : !Svm} `{IDS : SdkIds} `{S2 : Sha256} `{T : TextCodecs} `{RENT : RentTable}.
Context `{Z0 : Zstd} `{!Bincode BatchPayload} `{RT : L1Runtime}.
Context `{!Bincode StoredAccount} `{!Bincode PoolState} `{!Bincode Block} `{!Bincode BlockHeader}.
Context `{!Bincode VersionedTransaction} `{!Bincode TxLocator} `{!Bincode ExecutedTransactionMeta}.
Context `{!Bincode (nat * list (Z * H256))} `{!Bincode PoolInstruction} `{!Bincode Clock}.
Context `{!Bincode Rent} `{!Bincode EpochSchedule} `{!Bincode (list RecentEntry)}.
Context `{PA : !Parsers}.
Context {W : Type} `{RPC : !JsonRpc W}.
Context (pool_error_text : PoolServiceError → bytes).
Context (signed_transfer : Keypair → Pubkey → Z → H256 → VersionedTransaction).
Context (store_error_text : StoreError → bytes) (node_error_text : NodeError → bytes).
Context (debug_error : TransactionError → bytes).
Context (throwaway : Pubkey) (E : Environment).
(** The deployment on L1, as in [L1Stack]. *)
Context (system_id budget_id program da_program : Pubkey) (mint_program : Pubkey → Pubkey) (bump0 vault_bump0 : Z).
Context (empties : list H256) (authority : Pubkey).
Context (signed_wire : list Instruction → H256 → bytes) (wire_instructions : bytes → option (list Instruction)).
Let cl : RpcL1Client := new_client authority program da_program.
Context (wire_roundtrip : ∀ ixs h, wire_instructions (signed_wire ixs h) = Some ixs).
Context (Hdistinct : NoDup (global <$> handler_names)).
Context (Hprograms : program ≠ da_program ∧ budget_id ≠ program ∧ budget_id ≠ da_program).
Context (Hbatch : ∀ j k, u64 j → u64 k → batch_pda cl j = batch_pda cl k → j = k).
Context (Hconfig : ∀ k, batch_pda cl k ≠ config_pda cl).
Context (Hauthority : length authority = 32%nat).
(** The table the program embeds is the one of its tree depth. *)
Context (empties_ok : empties = empty_hashes WITHDRAW_DEPTH).

#[local] Instance stack_http : Http L1Node :=
  node_http system_id budget_id program da_program mint_program bump0 vault_bump0 empties authority wire_instructions.
#[local] Instance stack_client : L1Client L1Node := RpcClient system_id budget_id signed_wire cl.
#[local] Instance laws : L1ClientLaws L1Node :=
  stack_laws system_id budget_id program da_program mint_program bump0 vault_bump0 empties authority signed_wire
    wire_instructions wire_roundtrip Hdistinct Hprograms Hbatch Hconfig Hauthority.

Abbreviation reachable :=
  (process_reachable (C := L1Node) pool_error_text signed_transfer store_error_text node_error_text debug_error throwaway E).

Definition with_ledger (w : L1Node) (l : Ledger) : L1Node :=
  {| n_ledger := l; n_deliveries := n_deliveries w; n_visible := n_visible w; n_balance := n_balance w |}.

(** Any transaction the authority did not sign is something that may happen
    between two turns of the process. *)
Lemma stranger_elsewhere w now ixs l :
  sound_node empties w → owned_by authority (n_ledger w).1 → Forall (unsigned authority) ixs → Forall keys_typed ixs →
  run_transaction (RPC := ids system_id budget_id) empties program da_program mint_program bump0 vault_bump0 now (n_ledger w) ixs = Ok l →
  others w (with_ledger w l) ∧ owned_by authority l.1.
Proof.
  intros [[ps Hr] Ht] Ho Hu Hk H. pose proof (transaction_step _ _ _ _ _ _ _ _ ps _ _ Hk Hr H) as [ps' Hr'].
  apply (stranger_transaction _ _ _ _ _ _ authority) in H as [Hs Hp]; [|done|done].
  split; [|by eapply same_owned]. split_and!.
  - split; [by eexists|by eapply same_typed].
  - by apply same_records.
  - intros x Hx. by eapply elem_of_prefix.
Qed.

Lemma batch_recorded s ps k b :
  l1_inv empties s ps → batches s !! k = Some b → record_of b ∈ settled_records s.
Proof.
  intros Hi Hb. apply list_elem_of_omap. exists k. split; [|by rewrite Hb].
  apply elem_of_seqZ. unfold count_on. pose proof (proj1 (li_batches _ _ _ Hi k) (mk_is_Some _ _ Hb)). lia.
Qed.

(** A payout against records that carry roots of the chain's withdrawals pays one
    of them. *)
Lemma payout_backed s ps ws po :
  l1_inv empties s ps → Forall (rooted ws) (settled_records s) → Forall withdraw_wf ws → po ∈ ps →
  (∃ w, w ∈ ws ∧ pays w po) ∨ ∃ ws0, ws0 `prefix_of` ws ∧ collision_in (claim_messages ws0 po).
Proof.
  intros Hi Hro Hwf Hpo. pose proof (li_proven _ _ _ Hi) as Hp. rewrite list.Forall_forall in Hp. rewrite list.Forall_forall in Hro.
  pose proof (Hp po Hpo) as Hpr. pose proof Hpr as (_ & _ & b & Hb & _).
  destruct (Hro _ (batch_recorded s ps _ b Hi Hb)) as (ws0 & Hpre & Hroot). cbn [record_of r_withdrawals_root] in Hroot.
  assert (Hwf0 : Forall withdraw_wf ws0) by (destruct Hpre as [more ->]; by apply list.Forall_app in Hwf as [? _]).
  destruct (payout_recorded empties s po b ws0 empties_ok Hwf0 Hpr Hb Hroot) as [(w & Hw & H1 & H2 & H3 & H4)|Hc].
  - left. exists w. split; [by eapply elem_of_prefix|done].
  - right. by exists ws0.
Qed.

Lemma payouts_backed s ps ws ps0 :
  l1_inv empties s ps → Forall (rooted ws) (settled_records s) → Forall withdraw_wf ws → (∀ p, p ∈ ps0 → p ∈ ps) →
  Forall (λ p, ∃ w, w ∈ ws ∧ pays w p) ps0
  ∨ ∃ po ws0, po ∈ ps0 ∧ ws0 `prefix_of` ws ∧ collision_in (claim_messages ws0 po).
Proof.
  intros Hi Hro Hwf. induction ps0 as [|po ps0 IH]; intros Hin; [by left|].
  destruct (payout_backed s ps ws po Hi Hro Hwf) as [Hb|(ws0 & H1 & H2)]; [apply Hin; by left| |].
  - destruct IH as [IH|(po' & ws0 & H1 & H2 & H3)]; [intros p Hp; apply Hin; by right|left; by constructor|].
    right. exists po', ws0. split_and!; [by right|done|done].
  - right. exists po, ws0. split_and!; [by left|done|done].
Qed.

Lemma paid_native_in s ps :
  l1_inv empties s ps → sum_z paid_native ps ≤ paid_in NATIVE_ASSET_ID ps ∧ ∀ m, sum_z (paid_mint m) ps ≤ paid_in m ps.
Proof.
  intros Hi. pose proof (li_proven _ _ _ Hi) as Hp. clear Hi. unfold paid_in, sum_z.
  split; [|intros m]; induction Hp as [|po ps (Hpos & (_ & _ & _ & _ & _ & Hnat) & _) _ IH]; cbn [foldr]; try done.
  - unfold paid_native at 1. destruct (po_native po); [rewrite decide_True by (by apply Hnat); lia|case_decide; lia].
  - unfold paid_mint at 1. destruct (po_native po); case_decide; lia.
Qed.

(** C3: the two chains balance. Whatever order the process's turns come in, however
    often it is restarted, whatever the network loses and whoever else uses the
    ledger in between: each payout the settlement program ever made pays a
    withdrawal that the process's own chain records as burned, to that recipient,
    of that asset and amount and with that nonce; no withdrawal is paid twice, so
    that of every asset no more was paid than burned; and the vault still holds
    everything deposited, less what was burned; unless hashed messages collide. *)
Theorem process_pays_only_burned p d bs ps :
  bounded_batches E → reachable p → p_driver p = Some d → stores_chain (store (p_node p)) bs →
  l1_reach empties (n_ledger (driver_client d)).1 ps →
  let ws := successful_withdrawals (store (p_node p)) bs in
  let s := (n_ledger (driver_client d)).1 in
  (Forall (λ po, ∃ w, w ∈ ws ∧ pays w po) ps ∧ NoDup (po_key <$> ps)
   ∧ (∀ asset, paid_in asset ps ≤ burned_in asset ws)
   ∧ deposited None s ≤ vault_lamports s + burned_in NATIVE_ASSET_ID ws
   ∧ ∀ m, deposited (Some m) s ≤ default 0 (vault_tokens s !! m) + burned_in m ws)
  ∨ ∃ po ws0, po ∈ ps ∧ ws0 `prefix_of` ws ∧ collision_in (claim_messages ws0 po).
Proof.
  intros Hbat Hp Hd Hbs Hl ws s. apply l1_reach_inv in Hl. fold s in Hl.
  destruct (process_invariant _ _ _ _ _ _ _ p Hbat Hp) as [bs0 Hi].
  assert (bs = bs0) as ->.
  { eapply stores_chain_unique; [exact Hbs|]. intros k. apply holds_get_block, (co_store _ _ _ (ni_chain _ _ _ (pi_node _ _ _ _ _ Hi))). }
  pose proof (pi_roots _ _ _ _ _ Hi d Hd) as Hro.
  assert (Hwf : Forall withdraw_wf ws) by exact (proj2 (proj2 (reachable_withdrawals _ _ _ _ bs0 (pi_reachable _ _ _ _ _ Hi) Hbs))).
  destruct (payouts_backed _ ps ws ps Hl Hro Hwf) as [Hall|Hc]; [done| |by right].
  left. pose proof (li_nodup _ _ _ Hl) as Hnd. destruct (paid_native_in s ps Hl) as [Hnat Hmint].
  assert (Hbound : ∀ asset, paid_in asset ps ≤ burned_in asset ws) by (intros asset; by apply paid_bounded).
  split_and!; [done|done|done| |].
  - pose proof (li_sol _ _ _ Hl). specialize (Hbound NATIVE_ASSET_ID). lia.
  - intros m. pose proof (li_tokens _ _ _ Hl m). specialize (Hbound m). specialize (Hmint m). lia.
Qed.
End Bridge.

(** ** A process next to a stranger's deposit *)

Module Example.
Import L1RpcProps.Example.
#[local] Existing Instances Toy.blake3_toy Toy.ed25519_toy Toy.solana_toy poseidon_toy.
#[local] Existing Instances ExecToy.ids_toy ExecToy.svm_toy WrappedSpl.Example.addresses_toy.
#[local] Existing Instances StoreToy.account_codec StoreToy.block_codec StoreToy.locator_codec.
#[local] Existing Instances StoreToy.meta_codec StoreToy.queue_codec.
#[local] Existing Instances NodeChain.Example.header_codec NodeChain.Example.tx_codec NodeChain.Example.state_codec.
#[local] Existing Instances NodeChain.Example.instruction_codec NodeChain.Example.clock_codec NodeChain.Example.rent_codec.
#[local] Existing Instances NodeChain.Example.schedule_codec NodeChain.Example.entries_codec.
#[local] Existing Instances RpcProps.Example.text_id RpcProps.Example.rent_table.
#[local] Existing Instances Groth16.Example.bn_toy Settlement.Example.runtime_toy.
#[local] Existing Instances zstd_toy payload_codec sha_toy rpc_toy ProcessProps.Example.parsers L1Stack.Example.wire_codec.

(** The program after its set-up by the authority. *)
Definition ready : L1State :=
  {| l1_config := Some {| cfg_authority := pk 8; batch_count := 0; total_deposited := 0; bump := 255; vault_bump := 254 |};
     batches := ∅; claims := ∅; vault_lamports := 0; vault_tokens := ∅; l1_events := [] |}.

Definition fresh : L1Node :=
  {| n_ledger := (ready, []); n_deliveries := []; n_visible := false; n_balance := 5 |}.

Definition deposit : list Instruction := [ix_deposit_sol (new_client (pk 9) (pk 50) (pk 51)) 20 (pk 5)].

Definition after_deposit : Ledger :=
  match run_transaction (RPC := ids (pk 100) (pk 101)) Settlement.Example.empties (pk 50) (pk 51) (λ _, pk 60) 255 254 3
          (n_ledger fresh) deposit with
  | Ok l => l
  | _ => n_ledger fresh
  end.

Lemma ready_reach : l1_reach Settlement.Example.empties ready [].
Proof. eapply (reach_init _ Settlement.Example.start [] (pk 8) 255 254); [|reflexivity]. apply reach_start; [done|apply map_Forall_empty]. Qed.

Lemma fresh_sound : sound_node Settlement.Example.empties fresh.
Proof.
  split; [exists []; exact ready_reach|]. split; [|apply map_Forall_empty].
  intros c [= <-]. split; [reflexivity|unfold u64, u64_max; cbn; lia].
Qed.

Abbreviation deployed :=
  (laws (pk 100) (pk 101) (pk 50) (pk 51) (λ _, pk 60) 255 254 Settlement.Example.empties (pk 8) L1Stack.Example.wire deserialize
     (λ ixs _, deserialize_serialize ixs) Entry.Example.distinct L1Stack.Example.programs_differ
     L1Stack.Example.batch_addresses L1Stack.Example.config_address eq_refl).

Abbreviation deployed_reachable :=
  (process_reachable (C := L1Node) (LAWS := deployed) NodeChain.Example.error_text NodeChain.Example.transfer_toy
     ProcessProps.Example.text ProcessProps.Example.text ProcessProps.Example.text (pk 99) ProcessProps.Example.env).

Lemma deposit_runs :
  run_transaction (RPC := ids (pk 100) (pk 101)) Settlement.Example.empties (pk 50) (pk 51) (λ _, pk 60) 255 254 3
    (n_ledger fresh) deposit = Ok after_deposit.
Proof. vm_compute. reflexivity. Qed.

Lemma deposit_elsewhere : others (LAWS := deployed) fresh (with_ledger fresh after_deposit).
Proof.
  refine (proj1 (stranger_elsewhere (pk 100) (pk 101) (pk 50) (pk 51) (λ _, pk 60) 255 254 Settlement.Example.empties (pk 8)
    L1Stack.Example.wire deserialize (λ ixs _, deserialize_serialize ixs) Entry.Example.distinct L1Stack.Example.programs_differ
    L1Stack.Example.batch_addresses L1Stack.Example.config_address eq_refl fresh 3 deposit after_deposit fresh_sound _ _ _ deposit_runs)).
  - by eexists.
  - repeat (constructor; [repeat (constructor; [intros H; vm_compute in H; discriminate||reflexivity|]); constructor|]). constructor.
  - repeat (constructor; [repeat (constructor; [reflexivity|]); constructor|]). constructor.
Qed.

Lemma deposited_reach : l1_reach Settlement.Example.empties after_deposit.1 [].
Proof. eapply (reach_deposit_sol _ ready [] (pk 9) 20 (pk 5)); [exact ready_reach|]. vm_compute. reflexivity. Qed.

(** A process that has started, and a deposit of 20 lamports by someone else. *)
Lemma process_pays_only_burned_witness :
  ∃ p d bs, deployed_reachable p ∧ p_driver p = Some d ∧ stores_chain (store (p_node p)) bs
    ∧ deposited None (n_ledger (driver_client d)).1 = 20
    ∧ deposited None (n_ledger (driver_client d)).1
      ≤ vault_lamports (n_ledger (driver_client d)).1
        + burned_in NATIVE_ASSET_ID (successful_withdrawals (store (p_node p)) bs).
Proof.
  destruct (ProcessProps.Example.booted_on fresh) as (p0 & Hb & _ & Hd & _).
  assert (Hr0 : deployed_reachable p0).
  { refine (process_first (LAWS := deployed) _ _ _ _ _ _ _ (λ _ _ _, fresh) 0 p0 _ Hb).
    intros k s a. split; [exact fresh_sound|reflexivity]. }
  set (c := with_ledger fresh after_deposit).
  assert (Hr : deployed_reachable (on_l1 p0 c)).
  { apply (process_elsewhere (LAWS := deployed)); [exact Hr0|]. intros d0 Hd0. rewrite Hd in Hd0. injection Hd0 as <-.
    exact deposit_elsewhere. }
  assert (Hdr : p_driver (on_l1 p0 c) = Some (Connecting c)) by (unfold on_l1; rewrite Hd; reflexivity).
  destruct (process_invariant (LAWS := deployed) _ _ _ _ _ _ _ _ ProcessProps.Example.batches_bounded Hr) as [bs Hi].
  assert (Hbs : stores_chain (store (p_node (on_l1 p0 c))) bs)
    by exact (λ s, holds_get_block _ _ s (sc_holds _ _ _ (co_store _ _ _ (ni_chain _ _ _ (pi_node _ _ _ _ _ Hi))))).
  exists (on_l1 p0 c), (Connecting c), bs. split; [exact Hr|]. split; [exact Hdr|]. split; [exact Hbs|].
  split; [vm_cast_no_check (@eq_refl Z 20)|].
  destruct (process_pays_only_burned NodeChain.Example.error_text NodeChain.Example.transfer_toy
              ProcessProps.Example.text ProcessProps.Example.text ProcessProps.Example.text (pk 99) ProcessProps.Example.env
              (pk 100) (pk 101) (pk 50) (pk 51) (λ _, pk 60) 255 254 Settlement.Example.empties (pk 8)
              L1Stack.Example.wire deserialize (λ ixs _, deserialize_serialize ixs) Entry.Example.distinct
              L1Stack.Example.programs_differ L1Stack.Example.batch_addresses L1Stack.Example.config_address eq_refl eq_refl
              (on_l1 p0 c) (Connecting c) bs [] ProcessProps.Example.batches_bounded Hr Hdr Hbs deposited_reach)
    as [(_ & _ & _ & Hv & _)|(po & _ & Hpo & _)]; [exact Hv|].
  destruct (not_elem_of_nil _ Hpo).
Defined.
End Example.
