(* ===== verification/DepositFlow.v ===== *)
(** * Deposits from L1 to their L2 accounts

    The composition of the deposit watcher ([Deposits]), the ledger
    ([NodeLedger]) and block production ([NodeChain]) in the running process
    ([Process]): a round of the watcher and the next block credit every native
    deposit on the page the watcher reads, when all new ones are native; a
    transaction that erases a receipt has its deposit credited again; and one
    token deposit can make the production attempt panic for good. *)

From S2P Require Import Prelude External Json Hash Paths Genesis Config Account Block Smt SmtFacts SmtProps Queue Store StoreProps WrappedSpl Field PoolState PoolProcessor Groth16 PoolService Mempool NodeBridge Executor NodeLedger Node NodeChain Settlement Recover Batcher L1Rpc L1RpcProps Entry Tools BatcherL1 Deposits History RpcServer RpcProps Process ProcessProps.

(** ** The block that credits them *)

Section Crediting.
Context `{B3 : Blake3} `{ED : Ed25519} `{TX : SolanaTx} `{SA : SolanaAddresses} `{P : Poseidon}.
Context `{V : ProofVerifier} `{SVM : !Svm} `{IDS : SdkIds}.
Context `{!Bincode StoredAccount} `{!Bincode PoolState} `{!Bincode Block} `{!Bincode BlockHeader}.
Context `{!Bincode VersionedTransaction} `{!Bincode TxLocator} `{!Bincode ExecutedTransactionMeta}.
Context `{!Bincode (nat * list (Z * H256))} `{!Bincode PoolInstruction} `{!Bincode Clock}.
Context `{!Bincode Rent} `{!Bincode EpochSchedule} `{!Bincode (list RecentEntry)}.
Context (pool_error_text : PoolServiceError → bytes).
Context (signed_transfer : Keypair → Pubkey → Z → H256 → VersionedTransaction) (g : GenesisConfig).

(** The lamports of an account in the committed store. *)
Definition balance (st : Store) (k : Pubkey) : Z := default 0 (lamports <$> get_account_ok st k).

(** Deposits of the gas token, each with an address of its own for its receipt,
    at which no deposit pays and the clock is not. *)
Record creditable (gas_mint : option Pubkey) (ds : list DepositEvent) : Prop := {
  cr_native : Forall (λ d, credits_native_gas gas_mint d = true ∧ 0 ≤ dep_amount d) ds;
  cr_distinct : NoDup (receipt_of <$> ds);
  cr_apart d d' : d ∈ ds → d' ∈ ds → receipt_of d ≠ l2_recipient d';
  cr_clock d : d ∈ ds → receipt_of d ≠ clock_id;
}.

(** What a draft without transactions holds: the clock and the deposits. *)
Lemma idle_draft n ds now : ∃ a,
  draft_block pool_error_text n [] ds now
  = let? (w, _) := map_err NodeStore (apply_deposits (opt_gas_mint (options n)) (store n) ds {[clock_id := a]}) in
    Ok ({| d_writes := w; d_included := []; d_nullifiers := [] |}, []).
Proof.
  unfold draft_block. cbn [partition_withdraws partition fold_left].
  match goal with |- context [execute_block ?ex ?st ?i] => destruct (execute_empty ex st i eq_refl) as [a ->] end.
  cbn [obind map_err pool_phase d_writes d_included d_nullifiers included out_account_writes].
  unfold insert_entries. cbn [fold_left fst]. exists a. rewrite insert_empty.
  destruct (apply_deposits _ _ _ _) as [[w k]|e|]; [|done..]. done.
Qed.

Lemma drain_idle (m : Mempool) k : queue m = [] → (drain m k).2 = [].
Proof. intros Hq. unfold drain. by rewrite Hq, take_nil. Qed.

(** Committing a block's writes gives the accounts the balances they had in it. *)
Lemma balance_committed (st st' : Store) w k :
  decodes (t_accounts st) → t_accounts st' = fold_left write_account (map_to_list w) (t_accounts st) →
  balance st' k = committed st w k.
Proof.
  intros Hd Ht. unfold balance, committed, get_account_ok. rewrite (committed_receipt st st' w k Hd Ht).
  rewrite get_account_at by done. by destruct (w !! k).
Qed.

(** Deposits delete nothing: what is stored at an address they do not find
    deleted is still there once the block is committed. *)
Lemma deposits_keep_receipts gas_mint (st st' : Store) ds w w' k d :
  decodes (t_accounts st) → apply_deposits gas_mint st ds w = Ok (w', k) →
  t_accounts st' = fold_left write_account (map_to_list w') (t_accounts st) →
  w !! receipt_of d ≠ Some None → has_receipt st d = true → has_receipt st' d = true.
Proof.
  intros Hd Ha Ht Hw. apply apply_deposits_extends in Ha as [[_ He] _]. apply He in Hw. unfold has_receipt.
  fold (receipt_of d). rewrite (committed_receipt st st' w' _ Hd Ht), get_account_at by done.
  by destruct (w' !! receipt_of d) as [[|]|].
Qed.

(** An idle node with creditable deposits queued credits them all in the next
    block, which carries no transaction: each gets its receipt, earlier receipts
    stay, and every other account but the clock's ends with what it had and what
    the deposits pay to it. *)
Lemma idle_credits n now :
  let ds := pending_deposits n in
  node_reachable pool_error_text signed_transfer g n → tip_poisoned n = false → tip_slot (tip n) < u64_max →
  queue (mempool n) = [] → ds ≠ [] →
  creditable (opt_gas_mint (options n)) ds → (∀ d, d ∈ ds → has_receipt (store n) d = false) →
  ∃ n', try_produce_block pool_error_text n now = (n', Ok (Some (tip_slot (tip n) + 1)))
    ∧ tip_slot (tip n') = tip_slot (tip n) + 1 ∧ tip_poisoned n' = false
    ∧ (∀ d, receipt_of d ≠ clock_id → has_receipt (store n) d = true ∨ d ∈ ds → has_receipt (store n') d = true)
    ∧ (∀ k, k ∉ receipt_of <$> ds → k ≠ clock_id → 0 ≤ balance (store n) k →
           balance (store n) k + paid_to k ds ≤ u64_max →
           balance (store n') k = balance (store n) k + paid_to k ds)
    ∧ (∀ d, d ∈ ds → get_account (store n') (receipt_of d) = Ok (Some (receipt_account d)))
    ∧ ∀ sig, get_transaction (store n) sig = Ok None → get_transaction (store n') sig = Ok None.
Proof.
  intros ds Hn Hlock Hlt Hq Hne [Hnat Hnd Hap Hck] Hnew.
  pose proof (reachable_inv _ _ _ n Hn) as [bs Hi]. pose proof (reachable_decodes _ _ _ n Hn) as Hdec.
  assert (Hfr : ∀ d, d ∈ ds → get_account (store n) (receipt_of d) = Ok None).
  { intros d Hin%Hnew. unfold has_receipt in Hin. fold (receipt_of d) in Hin. rewrite get_account_at in Hin |- * by done.
    by destruct (account_at _ _). }
  destruct (drain (mempool n) (max_block_transactions (options n))) as [mp txs] eqn:Hd.
  pose proof (drain_idle (mempool n) (max_block_transactions (options n)) Hq) as Htxs. rewrite Hd in Htxs. cbn in Htxs. subst txs.
  destruct (idle_draft (with_queues n mp []) ds now) as [a Hdraft]. cbn [with_queues options store] in Hdraft.
  assert (Hclk : ∀ k, k ≠ clock_id → ({[clock_id := a]} : Writes) !! k = None)
    by (intros k Hk; by apply lookup_singleton_ne).
  destruct (fresh_native_apply (opt_gas_mint (options n)) (store n) ds {[clock_id := a]} 0 Hdec Hnd Hap) as (w & Hw & Hbal & Hrcp & _).
  { rewrite list.Forall_forall in Hnat |- *. intros d Hin. destruct (Hnat d Hin). split_and!; auto. }
  change (apply_deposits (opt_gas_mint (options n)) (store n) ds {[clock_id := a]} = Ok (w, length ds)) in Hw.
  rewrite Hw in Hdraft. cbn [map_err obind] in Hdraft.
  destruct (produce_commits _ g n bs now _ _ mp [] Hi Hlock Hlt Hd ltac:(auto) Hdraft)
    as (n' & b & Hprod & Hc & Htb & _ & Hslot & Hlock' & Hacc & _). cbn [d_writes d_included] in Hacc, Htb.
  exists n'. split_and!; [exact Hprod|exact Hslot|exact Hlock'| | | |].
  - intros d Hdk [Hr|Hr].
    + eapply deposits_keep_receipts; [exact Hdec|exact Hw|exact Hacc|by rewrite Hclk|exact Hr].
    + destruct (credited_committed _ _ (store n') ds _ _ _ d Hw Hdec) as [x Hx]; [|done|done|].
      { intros d' Hd'. rewrite Hclk; [done|by apply Hck]. }
      unfold has_receipt. fold (receipt_of d). by rewrite Hx.
  - intros k Hkr Hkc H0 Hle. rewrite (balance_committed _ _ _ k Hdec Hacc).
    assert (Hb : committed (store n) {[clock_id := a]} k = balance (store n) k) by (unfold committed; by rewrite Hclk).
    rewrite Hbal, Hb; [done|done|by rewrite Hclk|by rewrite Hb|by rewrite Hb].
  - intros d Hin. by rewrite (committed_receipt _ _ _ _ Hdec Hacc), (Hrcp d Hin).
  - intros sig. rewrite (not_found _ _ _ _ (co_store _ _ _ (ni_chain _ _ _ Hi))), (not_found _ _ _ _ (co_store _ _ _ Hc)).
    rewrite chain_sigs_snoc, Htb. by rewrite app_nil_r.
Qed.

(** ** A receipt that a transaction erases *)

(** What the executor is given when a node produces a block of [txs]. *)
Definition next_input (n : Node) (txs : list VersionedTransaction) (now : Z) : BlockExecutionInput :=
  {| in_slot := wadd (tip_slot (tip n)) 1; in_timestamp_ms := now; parent_blockhash := tip_blockhash (tip n);
     in_transactions := txs; in_queue := tip_queue (tip n) |}.

(** A transaction that passes the executor's checks, runs in the next block, may
    write the account at [key], and leaves it with no lamports. *)
Definition leaves_empty (n : Node) (tx : VersionedTransaction) (key : Pubkey) (now : Z) : Prop :=
  ∃ s ck fees accounts result units logs i a,
    check_tx (executor n) (tip_queue (tip n)) tx = inr (s, ck)
    ∧ block_results (block_callback (store n) (next_input n [tx] now)) (next_input n [tx] now)
        {| pre_dropped := []; rows := [(s, ck, tx)]; seen_signatures := ∅ |}
      = [inr (Executed fees accounts result units logs)]
    ∧ NoDup accounts.*1 ∧ accounts !! i = Some (key, a) ∧ is_writable s i = true ∧ sh_lamports a = 0.

(** The block of that transaction deletes the account. *)
Lemma empty_draft n tx key sig now :
  leaves_empty n tx key now → regular tx → first_signature tx = Some sig →
  get_transaction (store n) sig = Ok None → key ≠ ex_fee_collector (executor n) →
  ∃ d, draft_block pool_error_text n [tx] [] now = Ok (d, []) ∧ d_writes d !! key = Some None.
Proof.
  intros (s & ck & fees & accounts & result & units & logs & i & a & Hck & Hres & Hnd & Hi & Hw & Ha) [Hnw Hnp] Hsig Hnone Hcol.
  destruct (execute_single (executor n) (store n) (next_input n [tx] now) tx sig s ck _ eq_refl Hsig Hnone Hck Hres)
    as (out & Hout & Hinc & Hwr).
  assert (Hp1 : partition_withdraws [tx] = ([], [tx])).
  { pose proof (partition_withdraws_omap [tx]) as H1. pose proof (proj1 (partition_withdraws_spec [tx])) as H2.
    destruct (partition_withdraws [tx]) as [l r]. cbn [fst snd omap list_omap] in *. rewrite (to_withdraw_None _ Hnw) in H1.
    subst l. by rewrite H2, filter_cons, decide_True, filter_nil. }
  assert (Hp2 : partition [tx] = ([], [tx])).
  { pose proof (partition_spec [tx]) as [H2 H1]. destruct (partition [tx]) as [l r]. cbn [fst snd] in *.
    rewrite filter_cons, decide_False, filter_nil in H1 by (intros Hn; by apply Hn). apply fmap_nil_inv in H1 as ->.
    by rewrite H2, filter_cons, decide_True, filter_nil. }
  unfold draft_block. rewrite Hp1, Hp2. fold (next_input n [tx] now). rewrite Hout.
  cbn [obind map_err pool_phase apply_deposits ofold d_writes d_included]. unfold apply_withdraws. cbn [ofold obind map_err].
  eexists. split; [done|]. cbn [d_writes wr_writes]. rewrite Hwr, insert_entries_map.
  rewrite (merge_final _ _ _ a); [unfold shared_write; by rewrite decide_True|].
  rewrite credit_other by done. by eapply written_lookup.
Qed.

(** The block of the only transaction queued, which leaves a receipt empty. *)
Lemma receipt_erased n d tx now :
  node_reachable pool_error_text signed_transfer g n → tip_poisoned n = false → tip_slot (tip n) < u64_max →
  u64 now → queue (mempool n) = [tx] → (0 < max_block_transactions (options n))%nat → pending_deposits n = [] →
  regular tx → leaves_empty n tx (receipt_of d) now → receipt_of d ≠ ex_fee_collector (executor n) →
  ∃ n1, try_produce_block pool_error_text n now = (n1, Ok (Some (tip_slot (tip n) + 1)))
    ∧ node_reachable pool_error_text signed_transfer g n1 ∧ tip_slot (tip n1) = tip_slot (tip n) + 1
    ∧ tip_poisoned n1 = false ∧ queue (mempool n1) = [] ∧ pending_deposits n1 = [] ∧ options n1 = options n
    ∧ has_receipt (store n1) d = false.
Proof.
  intros Hn Hlock Hlt Hu Hq Hk Hp Hreg Hle Hcol.
  pose proof (reachable_inv _ _ _ n Hn) as [bs Hi]. pose proof (reachable_decodes _ _ _ n Hn) as Hdec.
  assert (Hd : (drain (mempool n) (max_block_transactions (options n))).2 = [tx]
               ∧ queue (drain (mempool n) (max_block_transactions (options n))).1 = []).
  { unfold drain. rewrite Hq. cbn [fst snd queue length]. by replace (Nat.min _ 1) with 1%nat by lia. }
  destruct (drain (mempool n) (max_block_transactions (options n))) as [mp txs] eqn:Hdr. cbn [fst snd] in Hd. destruct Hd as [-> Hq1].
  assert (Hsig : ∃ sig, first_signature tx = Some sig ∧ get_transaction (store n) sig = Ok None).
  { destruct (inv_books _ (ni_mempool _ _ _ Hi)) as [Hsg _ _ _]. rewrite Hq in Hsg. apply list.Forall_cons in Hsg as [[[sig Hs] _] _].
    exists sig. split; [done|]. apply (not_found g _ bs); [apply Hi|]. apply (ni_fresh _ _ _ Hi tx); [|done].
    rewrite Hq. by apply list_elem_of_singleton. }
  destruct Hsig as (sig & Hsig & Hnone).
  destruct (empty_draft (with_queues n mp []) tx (receipt_of d) sig now Hle Hreg Hsig Hnone Hcol) as (dr & Hdraft & Hgone).
  rewrite <- Hp in Hdraft at 2.
  destruct (produce_commits _ g n bs now dr [] mp [tx] Hi Hlock Hlt Hdr ltac:(by left) Hdraft)
    as (n1 & b & Hprod & _ & _ & _ & Hslot & Hlock1 & Hacc & _).
  destruct (produce_queues _ _ _ _ _ Hprod) as (Hm1 & Hp1 & Ho1 & _). rewrite Hdr in Hm1. cbn [fst] in Hm1.
  exists n1. split_and!; [exact Hprod| |exact Hslot|exact Hlock1|by rewrite Hm1|exact Hp1|exact Ho1|].
  - eapply reach_step; [exact Hn|eapply step_produce; [exact Hu|exact Hlt|exact Hprod]].
  - unfold has_receipt. fold (receipt_of d). by rewrite (committed_receipt _ _ _ _ Hdec Hacc), Hgone.
Qed.

(** C40: a receipt can be erased and its deposit credited twice. A receipt holds no
    lamports, and the executor turns every account that a transaction may write and
    leaves with no lamports into a deletion; so when the only transaction queued on
    an idle node runs in the executor, names the receipt of a credited deposit as
    writable and leaves it without lamports, the block of that transaction deletes
    the receipt. The watcher, which skipped the deposit until then, queues it again,
    and the next block credits its recipient a second time. *)
Theorem receipt_erased_recredits n d tx now1 now2 :
  let r := l2_recipient d in
  node_reachable pool_error_text signed_transfer g n → tip_poisoned n = false → tip_slot (tip n) + 1 < u64_max →
  u64 now1 → queue (mempool n) = [tx] → (0 < max_block_transactions (options n))%nat → pending_deposits n = [] →
  regular tx → leaves_empty n tx (receipt_of d) now1 → has_receipt (store n) d = true →
  credits_native_gas (opt_gas_mint (options n)) d = true → 0 ≤ dep_amount d →
  receipt_of d ≠ ex_fee_collector (executor n) → receipt_of d ≠ clock_id → receipt_of d ≠ r → r ≠ clock_id →
  ∃ n1 n2, try_produce_block pool_error_text n now1 = (n1, Ok (Some (tip_slot (tip n) + 1)))
    ∧ fresh_deposits (store n) [d] = [] ∧ fresh_deposits (store n1) [d] = [d]
    ∧ try_produce_block pool_error_text (enqueue_deposits n1 [d]) now2 = (n2, Ok (Some (tip_slot (tip n) + 2)))
    ∧ has_receipt (store n2) d = true
    ∧ (0 ≤ balance (store n1) r → balance (store n1) r + dep_amount d ≤ u64_max →
       balance (store n2) r = balance (store n1) r + dep_amount d).
Proof.
  intros r Hn Hlock Hlt Hu1 Hq Hk Hp Hreg Hle Hrec Hnat Hamt Hcol Hck Hrr Hrc.
  destruct (receipt_erased n d tx now1) as (n1 & Hprod & Hn1 & Hslot & Hlock1 & Hq1 & Hp1 & Ho1 & Hno);
    [done|done|lia|done|done|done|done|done|done|done|].
  assert (Hpend : pending_deposits (enqueue_deposits n1 [d]) = [d]) by (cbn [enqueue_deposits with_queues pending_deposits]; by rewrite Hp1).
  destruct (idle_credits (enqueue_deposits n1 [d]) now2) as (n2 & Hprod2 & _ & _ & Hrec2 & Hbal & _);
    cbn [enqueue_deposits with_queues tip_poisoned tip mempool store options] in *.
  { eapply reach_step; [exact Hn1|constructor]. } { exact Hlock1. } { lia. } { exact Hq1. } { by rewrite Hpend. }
  { rewrite Hpend, Ho1. split.
    - by apply Forall_singleton.
    - apply NoDup_singleton.
    - by intros ? ? ->%list_elem_of_singleton ->%list_elem_of_singleton.
    - by intros ? ->%list_elem_of_singleton. }
  { rewrite Hpend. by intros ? ->%list_elem_of_singleton. }
  rewrite Hpend in Hrec2, Hbal. exists n1, n2. split_and!; [exact Hprod| | | | |].
  - unfold fresh_deposits. by rewrite filter_cons, decide_False, filter_nil by (rewrite Hrec; done).
  - unfold fresh_deposits. by rewrite filter_cons, decide_True, filter_nil.
  - rewrite Hprod2, Hslot. by replace (tip_slot (tip n) + 1 + 1) with (tip_slot (tip n) + 2) by lia.
  - apply Hrec2; [exact Hck|right; by apply list_elem_of_singleton].
  - intros H0 Hmax. assert (Hpaid : paid_to r [d] = dep_amount d) by (rewrite paid_to_cons, decide_True by done; cbn; lia).
    rewrite <- Hpaid in Hmax |- *. apply Hbal; [|done|done|done]. intros Hx%list_elem_of_singleton. by apply Hrr.
Qed.
End Crediting.

Section Flow.
Context `{B3 : Blake3} `{ED : Ed25519} `{TX : SolanaTx} `{SA : SolanaAddresses} `{P : Poseidon}.
Context `{BN : Bn254} `{SVM : !Svm} `{IDS : SdkIds} `{S2 : Sha256} `{T : TextCodecs} `{RT : RentTable}.
Context `{Z0 : Zstd} `{!Bincode BatchPayload}.
Context `{!Bincode StoredAccount} `{!Bincode PoolState} `{!Bincode Block} `{!Bincode BlockHeader}.
Context `{!Bincode VersionedTransaction} `{!Bincode TxLocator} `{!Bincode ExecutedTransactionMeta}.
Context `{!Bincode (nat * list (Z * H256))} `{!Bincode PoolInstruction} `{!Bincode Clock}.
Context `{!Bincode Rent} `{!Bincode EpochSchedule} `{!Bincode (list RecentEntry)}.
Context `{PA : !Parsers}.
Context {W : Type} `{RPC : !JsonRpc W} {C : Type} `{L1 : !L1Client C} `{LAWS : !L1ClientLaws C}.
Context (pool_error_text : PoolServiceError → bytes).
Context (signed_transfer : Keypair → Pubkey → Z → H256 → VersionedTransaction).
Context (store_error_text : StoreError → bytes) (node_error_text : NodeError → bytes).
Context (debug_error : TransactionError → bytes).
Context (throwaway : Pubkey) (E : Environment).

Abbreviation step := (Process.step pool_error_text signed_transfer store_error_text node_error_text debug_error).
Abbreviation run := (Process.run pool_error_text signed_transfer store_error_text node_error_text debug_error).
Abbreviation Proc := (Process (C := C)).
Abbreviation boot := (Process.boot throwaway E).
Abbreviation reachable_as keys := (node_reachable (V := Groth16Verifier keys) pool_error_text signed_transfer).
Abbreviation reachable := (process_reachable pool_error_text signed_transfer store_error_text node_error_text debug_error throwaway E).
Abbreviation bounded := (bounded_batches E).

(** C5: a deposit reaches its L2 account. Take a reachable process (at most 10000
    slots a batch) whose mempool and deposit queue are empty and whose tip's lock
    is not poisoned, and a page of the watcher whose deposits without a receipt are
    all of the gas token, with receipt addresses that are distinct and are neither
    a recipient of the page's new deposits nor the clock. Then a round of the
    watcher and the next tick commit one block, after which every deposit on the
    page has its receipt; every account (the receipts and the clock apart) has
    exactly what it had plus the new deposits to it; and another round of the
    watcher over the same page changes nothing. *)
Theorem deposits_reach_l2 p cl w h evs now :
  let n := p_node p in
  let read := omap read_event (rev (take 100 (zip h evs))) in
  let new := fresh_deposits (store n) read in
  bounded → reachable p → p_phase p = Up → p_watcher p = Some cl → tip_poisoned n = false →
  tip_slot (tip n) + 10002 < 2 ^ 63 → queue (mempool n) = [] → pending_deposits n = [] →
  serves_config cl w h → Forall2 announces h evs →
  new ≠ [] → creditable (opt_gas_mint (options n)) new → Forall (λ d, receipt_of d ≠ clock_id) read →
  let p' := run p [Poll w; Tick now] in
  tip_slot (tip (p_node p')) = tip_slot (tip n) + 1
  ∧ Forall (λ d, has_receipt (store (p_node p')) d = true) read
  ∧ (∀ k, k ∉ receipt_of <$> new → k ≠ clock_id → 0 ≤ balance (store n) k →
          balance (store n) k + paid_to k new ≤ u64_max →
          balance (store (p_node p')) k = balance (store n) k + paid_to k new)
  ∧ step p' (Poll w) = p'.
Proof.
  intros n read new Hbat Hr Hup Hcl Hlock Hlt Hq Hp Hs Hev Hne Hcr Hck p'.
  destruct (watch_reads cl w h evs n Hs Hev) as (Hfetch & Hst & Hpend). fold read in Hfetch, Hpend.
  destruct (process_invariant _ _ _ _ _ _ _ p Hbat Hr) as [bs Hpi]. pose proof (pi_reachable _ _ _ _ _ Hpi) as Hn. fold n in Hn.
  assert (Hw : watch cl w n = enqueue_deposits n new).
  { unfold watch. rewrite Hfetch. cbv zeta. by rewrite decide_False. }
  set (n1 := enqueue_deposits n new).
  assert (Hp1 : pending_deposits n1 = new) by (unfold n1, enqueue_deposits; cbn; by rewrite Hp).
  destruct (idle_credits (V := Groth16Verifier (p_keys p)) pool_error_text signed_transfer (p_genesis p) n1 now)
    as (n2 & Hprod & Hslot & _ & Hrec & Hbal & _).
  { eapply reach_step; [exact Hn|constructor]. }
  { exact Hlock. } { change (tip n1) with (tip n). unfold u64_max. lia. } { exact Hq. } { by rewrite Hp1. } { by rewrite Hp1. }
  { rewrite Hp1. intros d [? _]%list_elem_of_filter. done. }
  rewrite Hp1 in Hrec, Hbal. change (store n1) with (store n) in *. change (tip n1) with (tip n) in *.
  assert (Hp' : p' = with_node p n2).
  { unfold p', Process.run. cbn [fold_left].
    assert (step p (Poll w) = with_node p n1) as -> by (cbn [Process.step]; rewrite Hup, Hcl; fold n; by rewrite Hw).
    cbn [Process.step with_node p_phase]. rewrite Hup. exact (f_equal (λ r, with_node (with_node p n1) r.1) Hprod). }
  assert (Hall : ∀ d, d ∈ read → has_receipt (store n2) d = true).
  { rewrite list.Forall_forall in Hck. intros d Hd. apply Hrec; [by apply Hck|].
    destruct (has_receipt (store n) d) eqn:Hh; [by left|right]. by apply list_elem_of_filter. }
  rewrite Hp'. cbn [with_node p_node]. split_and!; [exact Hslot|by apply list.Forall_forall|exact Hbal|].
  - cbn [Process.step with_node p_phase p_watcher]. rewrite Hup, Hcl.
    unfold watch. rewrite Hfetch. cbv zeta. rewrite decide_True; [done|].
    apply elem_of_nil_inv. intros d [Hf Hin%Hall]%list_elem_of_filter. cbn [p_node with_node] in Hf. congruence.
Qed.

(** ** What a panic stops *)

(** A node whose lock is poisoned refuses every submission. *)
Lemma poisoned_submit n tx n' r : tip_poisoned n = true → submit_transaction n tx = (n', r) → n' = n.
Proof.
  intros Hl. unfold submit_transaction, admit_tx, read_tip. rewrite Hl.
  destruct (head (signatures tx)); [|by intros [= <- _]]. by destruct (verify_and_hash_message tx); intros [= <- _].
Qed.

(** Nothing but a restart gets a node past a poisoned lock. *)
Lemma poisoned_turn p e :
  tip_poisoned (p_node p) = true →
  let n' := p_node (step p e) in
  tip_poisoned n' = true ∧ store n' = store (p_node p) ∧ tip n' = tip (p_node p).
Proof.
  intros Hl. cbv zeta. destruct e as [now|now name raw|w| | | |]; cbn [Process.step].
  - assert (Ht : let n' := (try_produce_block (V := Groth16Verifier (p_keys p)) pool_error_text (p_node p) now).1 in
                 tip_poisoned n' = true ∧ store n' = store (p_node p) ∧ tip n' = tip (p_node p)).
    { unfold try_produce_block. destruct (drain _ _) as [mp txs]. cbn [with_queues tip_poisoned]. by rewrite Hl. }
    by destruct (p_phase p).
  - assert (Hq : (call signed_transfer store_error_text node_error_text debug_error
                     (faucet_enabled (Config.rpc (p_config p))) (p_node p) now name raw).1 = p_node p).
    { destruct (request_submits signed_transfer store_error_text node_error_text debug_error
        (faucet_enabled (Config.rpc (p_config p))) (p_node p) now name raw) as [->|[(tx & r & Hs)|(k & a & r & Hs)]]; [done|..].
      - by eapply poisoned_submit.
      - apply airdrop_submits in Hs as [Hs|[tx Hs]]; [exact Hs|by eapply poisoned_submit]. }
    destruct (p_phase p); cbn [with_node p_node]; rewrite ?Hq; done.
  - destruct (p_phase p), (p_watcher p) as [cl|]; try done;
      cbn [p_node with_node]; by destruct (watch_cases cl w (p_node p)) as [->|[ds ->]].
  - by destruct (p_phase p), (p_driver p) as [[| |]|].
  - by destruct (p_phase p).
  - by destruct (p_phase p).
  - by destruct (p_phase p).
Qed.

Lemma poisoned_run es : ∀ p,
  tip_poisoned (p_node p) = true →
  let n' := p_node (run p es) in
  tip_poisoned n' = true ∧ store n' = store (p_node p) ∧ tip n' = tip (p_node p).
Proof.
  induction es as [|e es IH]; intros p Hl; [done|]. rewrite run_cons.
  destruct (poisoned_turn p e Hl) as (H1 & <- & <-). by apply IH.
Qed.

(** The L1 mint a deposit is wrapped under, and the recipient's token account. *)
Definition deposit_account (d : DepositEvent) : Pubkey :=
  associated_token_address (l2_recipient d) (wrapped_mint_address (default native_sol_mint (dep_mint d))).

(** A token deposit to an account that is there with data too short to hold an
    amount, as it is when lamports were sent to the address before. *)
Record unpayable (n : Node) (d : DepositEvent) (acc : StoredAccount) : Prop := {
  up_token : credits_native_gas (opt_gas_mint (options n)) d = false;
  up_new : has_receipt (store n) d = false;
  up_account : get_account (store n) (deposit_account d) = Ok (Some acc);
  up_short : (length (data acc) < 72)%nat;
  up_mint : wrapped_mint_address (default native_sol_mint (dep_mint d)) ≠ deposit_account d;
  up_clock : receipt_of d ≠ clock_id ∧ deposit_account d ≠ clock_id;
}.

Lemma unpayable_panics n d acc w k ds :
  decodes (t_accounts (store n)) → unpayable n d acc → (∀ x, x ≠ clock_id → w !! x = None) →
  ofold (apply_deposit (opt_gas_mint (options n)) (store n)) (w, k) (d :: ds) = Panic.
Proof.
  intros Hd [Htok Hnew Hacc Hlen Hne [Hrc Hac]] Hw. cbn [ofold]. unfold apply_deposit at 1. fold (receipt_of d).
  rewrite decide_False by (rewrite Hw by done; by intros []).
  unfold has_receipt in Hnew. fold (receipt_of d) in Hnew. rewrite get_account_at in Hnew |- * by done.
  destruct (account_at _ (receipt_of d)); [done|]. cbn [obind]. unfold credit_deposit. rewrite Htok.
  set (md := match dep_mint d with Some m => _ | None => _ end).
  assert (Hmd : md.1 = default native_sol_mint (dep_mint d)) by (unfold md; by destruct (dep_mint d)).
  destruct md as [m dec]. cbn [fst] in Hmd. subst m.
  rewrite (short_account_panics _ _ _ _ _ w acc); [done|done|done|by apply Hw|done|done].
Qed.

Lemma unpayable_tick keys n d ds acc now :
  decodes (t_accounts (store n)) → queue (mempool n) = [] → pending_deposits n = d :: ds → unpayable n d acc →
  let n' := (try_produce_block (V := Groth16Verifier keys) pool_error_text n now).1 in
  tip_poisoned n' = true ∧ store n' = store n ∧ tip n' = tip n.
Proof.
  intros Hd Hq Hp Hu. unfold try_produce_block.
  destruct (drain (mempool n) (max_block_transactions (options n))) as [mp txs] eqn:Hdr.
  pose proof (drain_idle (mempool n) (max_block_transactions (options n)) Hq) as Htxs. rewrite Hdr in Htxs. cbn in Htxs. subst txs.
  cbn [with_queues tip_poisoned]. destruct (tip_poisoned n) eqn:Hl; [done|].
  rewrite (bool_decide_eq_false_2 (pending_deposits n = [])), andb_false_r by by rewrite Hp. cbn [andb].
  destruct (idle_draft (V := Groth16Verifier keys) pool_error_text (with_queues n mp []) (pending_deposits n) now) as [a ->].
  unfold apply_deposits. rewrite Hp. cbn [with_queues options store].
  rewrite (unpayable_panics n d acc); [done|done|done|]. intros x Hx. by apply lookup_singleton_ne.
Qed.

(** A process that has just started has nothing queued. *)
Lemma boot_idle opened connect now (p : Proc) :
  boot opened connect now = Ok p →
  p_phase p = Up ∧ queue (mempool (p_node p)) = [] ∧ pending_deposits (p_node p) = [].
Proof.
  intros Hb. apply boot_loaded in Hb as (_ & _ & _ & st & kp & key & mint & _ & _ & Hn & _ & _ & Hup).
  split; [exact Hup|]. unfold new_node in Hn. destruct (decide _); [done|]. apply obind_Ok in Hn as (ex & _ & Hn). cbv zeta in Hn.
  apply obind_Ok in Hn as ([st1 r] & _ & Hn). apply obind_Ok in Hn as ([[q sl] bh] & _ & Hn).
  unfold rebuild_withdrawals in Hn. apply obind_Ok in Hn as (tree & _ & Hn). by injection Hn as <-.
Qed.

(** A restart finds the store as it was left, but for the published root. *)
Lemma reboot_store (p : Proc) bs connect now (p' : Proc) :
  process_inv pool_error_text signed_transfer E p bs → boot (Ok (store (p_node p))) connect now = Ok p' →
  ∃ root, store (p_node p') = set_withdrawals_root (store (p_node p)) root.
Proof.
  intros Hi Hb. apply boot_loaded in Hb as (Hc & Hg & _ & st & kp & key & mint & [= <-] & _ & Hn & _).
  assert (Heq : p_config p' = p_config p) by (pose proof (pi_config _ _ _ _ _ Hi); congruence).
  assert (Heg : p_genesis p' = p_genesis p) by (pose proof (pi_genesis _ _ _ _ _ Hi); congruence).
  rewrite Heg in Hn. destruct (new_node_ok _ _ _ _ _ _ _ Hn) as [Hkp Henv].
  destruct (restart_inv _ _ bs kp [] _ now (pi_node _ _ _ _ _ Hi)
    (booted_options _ key mint (proj2 (loaded_config _ _ _ Hc))) Hkp Henv) as (n1 & Hn1 & _ & _ & _ & Hst).
  rewrite Hn in Hn1. injection Hn1 as <-. by eexists.
Qed.

(** Turns of a process with a poisoned lock keep it reachable. *)
Lemma poisoned_reachable es : ∀ p,
  reachable p → tip_poisoned (p_node p) = true → tip_slot (tip (p_node p)) + 10002 < 2 ^ 63 →
  Forall (clock_ok (W := W)) es → reachable (run p es).
Proof.
  induction es as [|e es IH]; intros p Hr Hl Ht Hes; [done|]. apply list.Forall_cons in Hes as [He Hes].
  rewrite run_cons. destruct (poisoned_turn p e Hl) as (H1 & _ & H3).
  apply IH; [by apply process_turn|done|by rewrite H3|done].
Qed.

(** C36: one token deposit stops the chain. When a deposit of a wrapped token is
    first in the queue of an idle process, and an account with less than 72 bytes
    of data is stored at the recipient's token address (anyone can put it there by
    sending lamports to the address), the next tick panics while it holds the
    tip's lock: from then on no turn commits a block, the deposit has no receipt,
    and requests that read the tip panic. A restart does not help: the
    first round of the watcher queues the deposit again and the next tick panics. *)
Theorem token_deposit_halts p d ds acc now es :
  let q := run (step p (Tick now)) es in
  bounded → reachable p → p_phase p = Up → tip_slot (tip (p_node p)) + 10002 < 2 ^ 63 →
  queue (mempool (p_node p)) = [] → pending_deposits (p_node p) = d :: ds → unpayable (p_node p) d acc →
  u64 now → Forall clock_ok es →
  store (p_node q) = store (p_node p) ∧ tip (p_node q) = tip (p_node p)
  ∧ has_receipt (store (p_node q)) d = false
  ∧ (∀ t, respond (p_node q) (p_metrics q) t "/metrics" = Panic)
  ∧ (∀ f t raw, (call signed_transfer store_error_text node_error_text debug_error f (p_node q) t "getLatestBlockhash" raw).2 = Panic)
  ∧ ∀ connect t p' cl w read ds' t',
      boot (Ok (store (p_node q))) connect t = Ok p' → p_watcher p' = Some cl →
      opt_gas_mint (options (p_node p')) = opt_gas_mint (options (p_node p)) →
      rpc_fetch_deposits cl w None = Ok read → fresh_deposits (store (p_node q)) read = d :: ds' →
      let p'' := run p' [Poll w; Tick t'] in
      tip_poisoned (p_node p'') = true ∧ store (p_node p'') = store (p_node p').
Proof.
  intros q Hbat Hr Hup Ht Hq Hp Hu Hnow Hes.
  destruct (process_invariant _ _ _ _ _ _ _ p Hbat Hr) as [bs Hpi].
  pose proof (reachable_decodes _ _ _ _ (pi_reachable _ _ _ _ _ Hpi)) as Hdec.
  assert (Hstep : let n' := p_node (step p (Tick now)) in
    tip_poisoned n' = true ∧ store n' = store (p_node p) ∧ tip n' = tip (p_node p)).
  { cbn [Process.step]. rewrite Hup. cbn [with_node p_node]. by eapply unpayable_tick. }
  destruct Hstep as (Hl1 & Hs1 & Ht1). destruct (poisoned_run es _ Hl1) as (Hl & Hs & Htip). fold q in Hl, Hs, Htip.
  rewrite Hs1 in Hs. rewrite Ht1 in Htip. split_and!; [done|done|by rewrite Hs; apply Hu| | |].
  - intros t. unfold respond. rewrite decide_True by done. unfold render, read_tip. by rewrite Hl.
  - intros f t raw. unfold call, reads. cbn [find_method build_module app]. 
    transitivity (get_latest_blockhash (p_node q)); [done|]. unfold get_latest_blockhash, read_tip. by rewrite Hl.
  - intros connect t p' cl w read ds' t' Hb Hcl Hgas Hfetch Hfresh.
    assert (Hrq : reachable q).
    { apply poisoned_reachable; [by apply process_turn|done|by rewrite Ht1|done]. }
    destruct (process_invariant _ _ _ _ _ _ _ q Hbat Hrq) as [bs' Hqi].
    destruct (reboot_store q bs' connect t p' Hqi Hb) as [root Hst].
    destruct (boot_idle _ _ _ _ Hb) as (Hup' & Hq' & Hp').
    assert (Hpoll : step p' (Poll w) = with_node p' (enqueue_deposits (p_node p') (d :: ds'))).
    { cbn [Process.step]. rewrite Hup', Hcl. unfold watch. rewrite Hfetch. cbv zeta.
      replace (fresh_deposits (store (p_node p')) read) with (d :: ds'); [by rewrite decide_False|]. by rewrite Hst, <- Hfresh. }
    rewrite run_cons, Hpoll. cbn [Process.run fold_left Process.step with_node p_phase]. rewrite Hup'. cbn [p_node p_keys].
    destruct (unpayable_tick (p_keys p') (enqueue_deposits (p_node p') (d :: ds')) d ds' acc t') as (H1 & H2 & _);
      [| | |destruct Hu as [U1 U2 U3 U4 U5 U6]; split|done].
    all: cbn [enqueue_deposits with_queues store options mempool pending_deposits]; rewrite ?Hst, ?Hs, ?Hgas, ?Hp'; try done.
Qed.
End Flow.

(** ** Witnesses: the process of [ProcessProps] over an RPC node with one deposit *)

Module Example.
Import NodeChain.Example ProcessProps.Example.
#[local] Existing Instances Toy.blake3_toy Toy.ed25519_toy Toy.solana_toy poseidon_toy.
#[local] Existing Instances ExecToy.ids_toy ExecToy.svm_toy WrappedSpl.Example.addresses_toy.
#[local] Existing Instances StoreToy.account_codec StoreToy.block_codec StoreToy.locator_codec.
#[local] Existing Instances StoreToy.meta_codec StoreToy.queue_codec.
#[local] Existing Instances header_codec tx_codec state_codec instruction_codec clock_codec rent_codec.
#[local] Existing Instances schedule_codec entries_codec RpcProps.Example.text_id RpcProps.Example.rent_table.
#[local] Existing Instances Groth16.Example.bn_toy Settlement.Example.runtime_toy.
#[local] Existing Instances L1RpcProps.Example.zstd_toy L1RpcProps.Example.payload_codec L1RpcProps.Example.sha_toy.
#[local] Existing Instances L1RpcProps.Example.rpc_toy.
#[local] Instance l1_client : L1Client L1World := world_client (pk 8).
#[local] Instance l1_laws : L1ClientLaws L1World := world_laws (pk 8).

#[local] Existing Instance ProcessProps.Example.parsers.

Abbreviation W := (L1State * list LogTx)%type.
Abbreviation reachable := (process_reachable (W := W) error_text transfer_toy text text text (pk 99) env).
Abbreviation run := (Process.run (W := W) error_text transfer_toy text text text).
Abbreviation step := (Process.step (W := W) error_text transfer_toy text text text).

Definition watcher : RpcL1Client := new_client (pk 99) (pk 20) (pk 21).

(** A deposit of lamports to a new account, and one of a token to an account of
    the genesis, which has no data. *)
Definition sol : L1Event := Deposited (pk 4) 700 (pk 5) None 8.
Definition token : L1Event := Deposited (pk 4) 50 (pk 1) (Some (pk 6)) 6.

Definition history (e : L1Event) : list LogTx :=
  [{| lt_signature := bstr "a"; lt_failed := false;
      lt_view := {| tv_logs := [Some (DATA_PREFIX ++ b64_encode (event_payload e))]; tv_message := None |} |}].
Definition world (e : L1Event) : W := (L1RpcProps.Example.settled, history e).

Lemma served e : serves_config watcher (world e) (history e).
Proof.
  split; [reflexivity|]. intros x Hx. apply list_elem_of_singleton in Hx as ->. reflexivity.
Qed.

Lemma sol_announced : Forall2 announces (history sol) [Some sol].
Proof.
  constructor; [|constructor]. split; [|exists [], (b64_encode (event_payload sol)), []; split; [reflexivity|]; split; [constructor|vm_compute; reflexivity]].
  split; [reflexivity|]. split; [reflexivity|]. split; [unfold u64, u64_max; lia|]. split; [lia|]. discriminate.
Qed.

Definition sol_deposit : DepositEvent :=
  {| l1_signature := bstr "a"; dep_mint := None; dep_decimals := 8; dep_amount := 700; l2_recipient := pk 5 |}.
Definition token_deposit : DepositEvent :=
  {| l1_signature := bstr "a"; dep_mint := Some (pk 6); dep_decimals := 6; dep_amount := 50; l2_recipient := pk 1 |}.

(** What a fresh node stores. *)
Abbreviation stored := (λ k,
  match fold_left write_account (genesis_writes g (boot_accounts g [])) ∅ !! k with
  | Some bs => let? a := ok_or (deserialize bs) Codec in Ok (Some a)
  | None => Ok None
  end : outcome StoreError (option StoredAccount)).

Lemma fresh_account (o : NodeOptions) n k r : fresh g [] o 0 n → stored k = r → get_account (store n) k = r.
Proof. intros Hf <-. unfold get_account. by rewrite (fr_accounts _ _ _ _ _ Hf). Qed.

Lemma receipt_free : stored (receipt_of sol_deposit) = Ok None.
Proof. vm_cast_no_check (@eq_refl (outcome StoreError (option StoredAccount)) (Ok None)). Qed.
Lemma recipient_free : stored (pk 5) = Ok None.
Proof. vm_cast_no_check (@eq_refl (outcome StoreError (option StoredAccount)) (Ok None)). Qed.

Lemma lone_fresh st d : get_account st (receipt_of d) = Ok None → fresh_deposits st [d] = [d].
Proof.
  intros Hr. unfold fresh_deposits. rewrite filter_cons, decide_True; [reflexivity|]. unfold has_receipt.
  fold (receipt_of d). rewrite Hr. reflexivity.
Qed.

Lemma running : ∃ p : Process (C := L1World), reachable p ∧ p_phase p = Up ∧ p_watcher p = Some watcher
  ∧ fresh g [] (node_options cfg None None) 0 (p_node p).
Proof.
  destruct (booted_on BatcherL1.Example.w0) as (p & Hb & Hc & Hd & Hf & Hw). exists p.
  split; [exact (process_first _ _ _ _ _ _ _ ProcessProps.Example.connect 0 p settlement_empty Hb)|].
  split; [exact (proj1 (boot_idle _ _ _ _ _ _ Hb))|]. split; [exact Hw|exact Hf].
Qed.

Lemma deposits_reach_l2_witness :
  ∃ p : Process (C := L1World), reachable p ∧
    let p' := run p [Poll (world sol); Tick 5] in
    tip_slot (tip (p_node p')) = 1 ∧ has_receipt (store (p_node p')) sol_deposit = true
    ∧ balance (store (p_node p')) (pk 5) = 700 ∧ step p' (Poll (world sol)) = p'.
Proof.
  destruct running as (p & Hr & Hup & Hw & Hf). exists p. split; [exact Hr|]. cbv zeta.
  pose proof (fresh_account _ _ _ _ Hf receipt_free) as Hrec. pose proof (fresh_account _ _ _ _ Hf recipient_free) as Hacc.
  pose proof (lone_fresh _ _ Hrec) as Hnew.
  assert (Hbal : balance (store (p_node p)) (pk 5) = 0) by (unfold balance, get_account_ok; rewrite Hacc; reflexivity).
  pose proof (deposits_reach_l2 error_text transfer_toy text text text (pk 99) env p watcher (world sol) (history sol) [Some sol] 5
    batches_bounded Hr Hup Hw) as H. cbv zeta in H.
  change (omap read_event (rev (take 100 (zip (history sol) [Some sol])))) with [sol_deposit] in H.
  rewrite Hnew in H.
  destruct H as (Hslot & Hall & Hpaid & Hagain).
  - exact (fr_lock _ _ _ _ _ Hf).
  - rewrite (fr_slot _ _ _ _ _ Hf). lia.
  - rewrite (fr_mempool _ _ _ _ _ Hf). reflexivity.
  - exact (fr_deposits _ _ _ _ _ Hf).
  - exact (served sol).
  - exact sol_announced.
  - discriminate.
  - rewrite (fr_options _ _ _ _ _ Hf). split.
    + repeat constructor. cbn. lia.
    + apply NoDup_singleton.
    + intros d d' ->%list_elem_of_singleton ->%list_elem_of_singleton H. vm_compute in H. discriminate H.
    + intros d ->%list_elem_of_singleton H. vm_compute in H. discriminate H.
  - repeat constructor. intros H. vm_compute in H. discriminate H.
  - rewrite (fr_slot _ _ _ _ _ Hf) in Hslot. split; [exact Hslot|]. split; [exact (Forall_inv Hall)|].
    split; [|exact Hagain]. rewrite Hpaid, Hbal.
    + reflexivity.
    + intros H%list_elem_of_singleton. vm_compute in H. discriminate H.
    + intros H. vm_compute in H. discriminate H.
    + rewrite Hbal. lia.
    + rewrite Hbal. vm_compute. discriminate.
Defined.

Lemma token_free : stored (receipt_of token_deposit) = Ok None.
Proof. exact receipt_free. Qed.

(** The token account of the recipient is its account of the genesis. *)
Lemma token_account : stored (deposit_account token_deposit) = Ok (Some (new_system 1000000)).
Proof. vm_cast_no_check (@eq_refl (outcome StoreError (option StoredAccount)) (Ok (Some (new_system 1000000)))). Qed.

Lemma token_deposit_halts_witness :
  ∃ p : Process (C := L1World), reachable p ∧ pending_deposits (p_node p) = [token_deposit]
    ∧ let q := run (step p (Tick 5)) [Tick 6; Poll (world token); Tick 7] in
      store (p_node q) = store (p_node p) ∧ tip (p_node q) = tip (p_node p).
Proof.
  destruct running as (p0 & Hr & Hup & Hw & Hf).
  pose proof (fresh_account _ _ _ _ Hf token_free) as Hrec. pose proof (fresh_account _ _ _ _ Hf token_account) as Hacc.
  assert (Hpoll : step p0 (Poll (world token)) = with_node p0 (enqueue_deposits (p_node p0) [token_deposit])).
  { cbn [Process.step]. rewrite Hup, Hw. unfold watch.
    change (rpc_fetch_deposits watcher (world token) None) with (Ok (E := L1Error) [token_deposit]). cbv zeta iota.
    rewrite (lone_fresh _ _ Hrec). reflexivity. }
  exists (step p0 (Poll (world token))).
  assert (Hp : reachable (step p0 (Poll (world token)))).
  { apply process_turn; [exact Hr|exact I|]. rewrite (fr_slot _ _ _ _ _ Hf). lia. }
  split; [exact Hp|]. rewrite Hpoll in *.
  assert (Hpend : pending_deposits (enqueue_deposits (p_node p0) [token_deposit]) = [token_deposit])
    by (cbn [enqueue_deposits with_queues pending_deposits]; rewrite (fr_deposits _ _ _ _ _ Hf); reflexivity).
  split; [exact Hpend|].
  destruct (token_deposit_halts error_text transfer_toy text text text (pk 99) env _ token_deposit [] (new_system 1000000) 5
    [Tick 6; Poll (world token); Tick 7] batches_bounded Hp Hup) as (Hs & Ht & _).
  - cbn [with_node p_node]. change (tip (enqueue_deposits _ _)) with (tip (p_node p0)). rewrite (fr_slot _ _ _ _ _ Hf). lia.
  - cbn [with_node p_node enqueue_deposits with_queues mempool]. rewrite (fr_mempool _ _ _ _ _ Hf). reflexivity.
  - exact Hpend.
  - cbn [with_node p_node]. split; cbn [enqueue_deposits with_queues options store].
    + rewrite (fr_options _ _ _ _ _ Hf). reflexivity.
    + unfold has_receipt. fold (receipt_of token_deposit). rewrite Hrec. reflexivity.
    + exact Hacc.
    + cbn. lia.
    + intros H. vm_compute in H. discriminate H.
    + split; intros H; vm_compute in H; discriminate H.
  - unfold u64, u64_max. lia.
  - repeat constructor; unfold u64, u64_max; lia.
  - split; [exact Hs|exact Ht].
Defined.
End Example.

(** ** Witness: a receipt named by a transaction *)

Module Erasure.
Import NodeChain.Example.
#[local] Existing Instances Toy.blake3_toy Toy.ed25519_toy Toy.solana_toy poseidon_toy.
#[local] Existing Instances ExecToy.ids_toy WrappedSpl.Example.addresses_toy.
#[local] Existing Instances StoreToy.account_codec StoreToy.block_codec StoreToy.locator_codec.
#[local] Existing Instances StoreToy.meta_codec StoreToy.queue_codec accept_all.
#[local] Existing Instances header_codec tx_codec state_codec instruction_codec clock_codec rent_codec.
#[local] Existing Instances schedule_codec entries_codec.

Definition fees : FeeDetails := {| transaction_fee := 5000; prioritization_fee := 0 |}.
Definition debited (a : AccountSharedData) : AccountSharedData :=
  {| sh_lamports := sh_lamports a - 5000; sh_data := sh_data a; sh_owner := sh_owner a;
     sh_executable := sh_executable a; sh_rent_epoch := sh_rent_epoch a |}.

(** An SVM that charges the payer and leaves the other accounts as they are. *)
Definition leave (view : Pubkey → option AccountSharedData) (t : Toy.tx) : TransactionError + ProcessedTransaction :=
  match Toy.t_keys t with
  | payer :: others =>
      match view payer with
      | Some a =>
          inr (Executed fees ((payer, debited a) :: ((λ k, (k, default (to_shared (new_system 0)) (view k))) <$> others))
                 (inr ()) 150 None)
      | None => inl (OtherTransactionError 2)
      end
  | [] => inl (OtherTransactionError 3)
  end.
#[local] Instance svm_leave : Svm := ExecToy.svm_of leave.

Definition dep : DepositEvent :=
  {| l1_signature := bstr "a"; dep_mint := None; dep_decimals := 8; dep_amount := 700; l2_recipient := pk 5 |}.

(** A transaction of the genesis account that names the receipt of the deposit. *)
Definition naming : VersionedTransaction :=
  Toy.Build_tx [le_bytes 64 78] [pk 1; receipt_of dep] [] (genesis_hash g) true.

Definition drained_mempool : Mempool := (drain fresh_mempool (max_block_transactions opts)).1.
Definition mempool2 : Mempool := match push drained_mempool naming with Ok (m, _) => m | _ => drained_mempool end.

Lemma naming_pushed : push drained_mempool naming = Ok (mempool2, le_bytes 64 78).
Proof. vm_cast_no_check (@eq_refl (outcome MempoolError (Mempool * Signature)) (Ok (mempool2, le_bytes 64 78))). Qed.
Lemma naming_queued : queue mempool2 = [naming].
Proof. vm_cast_no_check (@eq_refl (list VersionedTransaction) [naming]). Qed.
Lemma naming_regular : regular naming.
Proof.
  split; [vm_cast_no_check (@eq_refl (option _) (parse_withdraw naming))|].
  vm_cast_no_check (@eq_refl (option _) (try_parse_pool_tx naming)).
Qed.

(** The genesis hash is still recent after one block. *)
Lemma still_recent sl bh : is_valid (register (register new_queue 0 (genesis_hash g)) sl bh) (genesis_hash g) = true.
Proof.
  apply bool_decide_eq_true_2. change (register (register new_queue 0 (genesis_hash g)) sl bh) with
    {| Queue.capacity := BLOCKHASH_QUEUE_CAPACITY; entries := [(0, genesis_hash g); (sl, bh)];
       index := <[bh := sl]> (<[genesis_hash g := 0]> ∅) |}.
  cbn [index]. destruct (decide (bh = genesis_hash g)) as [->|Hne]; [rewrite lookup_insert_eq; by eexists|].
  rewrite lookup_insert_ne by exact Hne. rewrite lookup_insert_eq. by eexists.
Qed.

Lemma distinct_keys : receipt_of dep ≠ pk 1 ∧ receipt_of dep ≠ pk 5 ∧ receipt_of dep ≠ pk 9
  ∧ receipt_of dep ≠ clock_id ∧ pk 1 ≠ clock_id.
Proof. split_and!; intros H; vm_compute in H; discriminate H. Qed.

Lemma receipt_unset :
  (match fold_left write_account (genesis_writes g (boot_accounts g [])) ∅ !! receipt_of dep with
   | Some bs => let? a := ok_or (deserialize bs) Codec in Ok (Some a)
   | None => Ok None
   end : outcome StoreError (option StoredAccount)) = Ok None.
Proof. vm_cast_no_check (@eq_refl (outcome StoreError (option StoredAccount)) (Ok None)). Qed.

(** A node that has credited the deposit, with the transaction in its mempool. *)
Lemma credited_node : ∃ n acc, node_reachable error_text transfer_toy g n ∧ tip_poisoned n = false
  ∧ tip_slot (tip n) = 1 ∧ mempool n = mempool2 ∧ pending_deposits n = [] ∧ options n = opts
  ∧ ex_fee_collector (executor n) = pk 9 ∧ is_valid (tip_queue (tip n)) (genesis_hash g) = true
  ∧ get_account (store n) (pk 1) = Ok (Some acc)
  ∧ get_account (store n) (receipt_of dep) = Ok (Some (receipt_account dep)).
Proof.
  destruct distinct_keys as (D1 & D5 & D9 & Dc & D1c).
  assert (Hb : ∃ n, node_reachable error_text transfer_toy g n ∧ new_node open_store g seq_key [] opts 0 = Ok n
                    ∧ fresh g [] opts 0 n)
    by exact (boot_reachable error_text transfer_toy g seq_key [] opts 0 opts_ok eq_refl eq_refl).
  destruct Hb as (n0 & Hr0 & _ & Hf). set (nd := enqueue_deposits n0 [dep]).
  assert (Hp : pending_deposits nd = [dep]) by (unfold nd; cbn [enqueue_deposits with_queues pending_deposits]; by rewrite (fr_deposits _ _ _ _ _ Hf)).
  assert (Hg0 : get_account (store n0) (receipt_of dep) = Ok None)
    by (unfold get_account; rewrite (fr_accounts _ _ _ _ _ Hf); exact receipt_unset).
  assert (Hb0 : balance (store n0) (pk 1) = 1000000)
    by (unfold balance, get_account_ok, get_account; rewrite (fr_accounts _ _ _ _ _ Hf), payer_account; reflexivity).
  destruct (idle_credits error_text transfer_toy g nd 5) as (n1 & Hprod & Hslot & Hlock & _ & Hbal & Hrec & Htx).
  { eapply reach_step; [exact Hr0|constructor]. } { exact (fr_lock _ _ _ _ _ Hf). }
  { change (tip nd) with (tip n0). rewrite (fr_slot _ _ _ _ _ Hf). unfold u64_max. lia. }
  { change (mempool nd) with (mempool n0). by rewrite (fr_mempool _ _ _ _ _ Hf). } { by rewrite Hp. }
  { rewrite Hp. change (options nd) with (options n0). rewrite (fr_options _ _ _ _ _ Hf). split.
    - apply Forall_singleton. split; [reflexivity|cbn; lia].
    - apply NoDup_singleton.
    - by intros ? ? ->%list_elem_of_singleton ->%list_elem_of_singleton.
    - by intros ? ->%list_elem_of_singleton. }
  { rewrite Hp. intros ? ->%list_elem_of_singleton. change (store nd) with (store n0). unfold has_receipt. fold (receipt_of dep). by rewrite Hg0. }
  rewrite Hp in Hbal, Hrec. change (store nd) with (store n0) in *. change (tip nd) with (tip n0) in *.
  destruct (produce_queues _ _ _ _ _ Hprod) as (Hm1 & Hp1 & Ho1 & He1). destruct (produce_registers _ _ _ _ _ Hprod) as ((sl & bh & Hq1) & _).
  change (tip nd) with (tip n0) in Hq1. rewrite (fr_queue _ _ _ _ _ Hf) in Hq1.
  change (mempool nd) with (mempool n0) in Hm1. change (options nd) with (options n0) in Hm1, Ho1. change (executor nd) with (executor n0) in He1.
  rewrite (fr_mempool _ _ _ _ _ Hf), (fr_options _ _ _ _ _ Hf) in Hm1. rewrite (fr_options _ _ _ _ _ Hf) in Ho1.
  rewrite (fr_slot _ _ _ _ _ Hf) in Hslot.
  assert (Hb1 : balance (store n1) (pk 1) = 1000000).
  { rewrite Hbal, Hb0; [reflexivity|intros H%list_elem_of_singleton; by apply D1|exact D1c|rewrite Hb0; lia|rewrite Hb0; vm_compute; discriminate]. }
  assert (Hpay : ∃ acc, get_account (store n1) (pk 1) = Ok (Some acc)).
  { unfold balance, get_account_ok in Hb1. destruct (get_account (store n1) (pk 1)) as [[acc|]|e|]; [by exists acc|discriminate Hb1..]. }
  destruct Hpay as [acc Hpay].
  assert (Hr1 : node_reachable error_text transfer_toy g n1).
  { eapply (reach_step _ _ _ nd); [eapply reach_step; [exact Hr0|constructor]|]. eapply step_produce; [| |exact Hprod].
    - unfold u64, u64_max. lia.
    - change (tip nd) with (tip n0). rewrite (fr_slot _ _ _ _ _ Hf). unfold u64_max. lia. }
  assert (Hnone : get_transaction (store n1) (le_bytes 64 78) = Ok None).
  { apply Htx. unfold get_transaction. rewrite (fr_index _ _ _ _ _ Hf), lookup_empty. exact eq_refl. }
  exists (with_queues n1 mempool2 (pending_deposits n1)), acc.
  cbn [with_queues tip_poisoned tip mempool pending_deposits options executor store].
  split; [|split_and!; [exact Hlock|exact Hslot|reflexivity|exact Hp1|exact Ho1|rewrite He1; exact (fr_executor _ _ _ _ _ Hf)
    |rewrite Hq1; apply still_recent|exact Hpay|apply Hrec; by apply list_elem_of_singleton]].
  eapply reach_step; [exact Hr1|]. eapply (step_submit _ _ _ n1 naming). unfold submit_transaction, admit_tx.
  change (head (signatures naming)) with (Some (le_bytes 64 78)). cbv iota.
  change (verify_and_hash_message naming) with (Some (genesis_hash g)). cbv iota.
  unfold read_tip. rewrite Hlock. cbn [obind]. change (recent_blockhash naming) with (genesis_hash g).
  rewrite Hq1, still_recent. cbn [negb]. rewrite Hnone. cbn [map_err obind]. rewrite Hm1.
  fold fresh_mempool. fold drained_mempool. rewrite naming_pushed. reflexivity.
Qed.

(** The transaction leaves the receipt as it is: without lamports. *)
Lemma naming_empties n acc :
  is_valid (tip_queue (tip n)) (genesis_hash g) = true → get_account (store n) (pk 1) = Ok (Some acc) →
  get_account (store n) (receipt_of dep) = Ok (Some (receipt_account dep)) → leaves_empty n naming (receipt_of dep) 6.
Proof.
  intros Hq Hacc Hrec. destruct distinct_keys as (D1 & _ & _ & Dc & D1c).
  assert (Hview : ∀ k a, k ≠ clock_id → get_account (store n) k = Ok (Some a) →
            cb_get (block_callback (store n) (next_input n [naming] 6)) k = Some (to_shared a)).
  { intros k a Hk Ha. unfold cb_get. cbn [block_callback set_account cb_overlay new_callback cb_store].
    rewrite lookup_insert_ne by (intros H; apply Hk; exact (eq_sym H)). rewrite lookup_empty.
    unfold get_account_ok. by rewrite Ha. }
  exists naming, fees, fees, [(pk 1, debited (to_shared acc)); (receipt_of dep, to_shared (receipt_account dep))],
    (inr ()), 150, None, 1%nat, (to_shared (receipt_account dep)).
  split_and!; [| | |reflexivity|reflexivity|reflexivity].
  - unfold check_tx. change (verify_and_hash_message naming) with (Some (genesis_hash g)). cbv iota.
    change (recent_blockhash naming) with (genesis_hash g). rewrite Hq. reflexivity.
  - unfold block_results. cbn [rows fmap list_fmap fst snd load_and_execute svm_leave ExecToy.svm_of].
    unfold leave. cbn [Toy.t_keys naming fmap list_fmap]. rewrite (Hview _ _ D1c Hacc), (Hview _ _ Dc Hrec). reflexivity.
  - cbn [fmap list_fmap fst]. apply list.NoDup_cons. split; [|apply NoDup_singleton].
    intros H%list_elem_of_singleton. by apply D1.
Qed.

Lemma receipt_erased_recredits_witness :
  ∃ n n1 n2, node_reachable error_text transfer_toy g n ∧ has_receipt (store n) dep = true
    ∧ try_produce_block error_text n 6 = (n1, Ok (Some 2))
    ∧ fresh_deposits (store n) [dep] = [] ∧ fresh_deposits (store n1) [dep] = [dep]
    ∧ try_produce_block error_text (enqueue_deposits n1 [dep]) 7 = (n2, Ok (Some 3))
    ∧ has_receipt (store n2) dep = true.
Proof.
  destruct credited_node as (n & acc & Hr & Hlock & Hslot & Hm & Hp & Ho & He & Hq & Hacc & Hrec).
  destruct distinct_keys as (_ & D5 & D9 & Dc & _).
  assert (Hhas : has_receipt (store n) dep = true) by (unfold has_receipt; fold (receipt_of dep); rewrite Hrec; reflexivity).
  destruct (receipt_erased_recredits error_text transfer_toy g n dep naming 6 7) as (n1 & n2 & H1 & H2 & H3 & H4 & H5 & _);
    [exact Hr|exact Hlock| | | | |exact Hp|exact naming_regular|exact (naming_empties n acc Hq Hacc Hrec)|exact Hhas| | | |exact Dc|exact D5| |].
  - rewrite Hslot. unfold u64_max. lia.
  - unfold u64, u64_max. lia.
  - rewrite Hm. exact naming_queued.
  - rewrite Ho. cbn [opts default_options max_block_transactions]. lia.
  - rewrite Ho. reflexivity.
  - cbn. lia.
  - rewrite He. exact D9.
  - intros H. vm_compute in H. discriminate H.
  - rewrite Hslot in H1, H4. exists n, n1, n2. split; [exact Hr|]. split; [exact Hhas|]. split; [exact H1|].
    split; [exact H2|]. split; [exact H3|]. split; [exact H4|exact H5].
Defined.
End Erasure.
